(* ===== verification/_CoqProject ===== *)
-Q . S2P
Prelude.v
Coro.v
Hoare.v
SchedIO.v
Arming.v
Sync.v
Permits.v
Os.v
Socket.v
Streams.v
Fd.v
ColoredSocket.v
ColoredStreams.v
Tls.v
ColoredTls.v
TlsProps.v
Hilvl.v
ColoredHilvl.v
HilvlProps.v
Driver.v
Delivery.v
Echo.v
Spawn.v
SpawnProps.v
Scope.v
ScopeProps.v
Blocking.v
BlockingProps.v
Timing.v
TimingProps.v
Channel.v
ChannelProps.v
ChannelLive.v
Select.v
SelectProps.v
CompletedProps.v
Subprocess.v
SubprocessProps.v
ProcessWait.v
RunProcess.v
File.v
FileTypes.v
FileProps.v
FsPath.v
FsPathProps.v
Runtime.v
RuntimeProps.v
RunProps.v
Signals.v
SignalProps.v
Pool.v
Workers.v
WorkersProps.v
Handles.v
HandlesSim.v
HandlesProps.v
EventCore.v
EventProps.v
Timers.v
Plugin.v
PluginProps.v
AsyncHandles.v
AsyncProps.v
Registry.v
MainLoop.v
MainLoopProps.v
Contexts.v
Dispatch.v
SslProxy.v
