(* ===== verification/Prelude.v ===== *)
(** * TonIO: a verification development

    TonIO is a multi-threaded asynchronous runtime for Python.  A core in Rust ([src/src/]) keeps the
    run queue of coroutines, polls descriptors and timers and runs the worker threads; a layer in
    Python ([src/tonio/]) builds the user's API on it, twice: with generators that [yield] what they
    wait for ([src/tonio/_*.py], [_net], [_fs]) and with [async] coroutines
    ([src/tonio/_colored/..]).  This development models both, the Python layer function by function
    and the core at the granularity of its atomic accesses, and proves what makes them correct.

    ** How the program is modelled

    A coroutine is an interaction tree of type [pyM E A] ([Coro]): its leaves return a value or raise
    an exception of [exn] (below), its nodes are the operations it performs on what it shares with
    others (an atomic field, an event, a queue under its mutex, a system call), one type of operations
    per component.  The combinators of [Coro] are the statements of Python the sources use:
    sequencing, [try]/[except]/[else], [try]/[finally], [while], [for].  Each function of the sources is one definition
    written with them, with the same name where that is an identifier; the
    [async] twins are definitions of their own, in a [Colored] file or Module.  Trees are run in two
    ways.  [runs] and its executable form [exec] run one coroutine against a handler of its
    operations.  [pstep] interleaves a pool of coroutines, any enabled task moving at any operation:
    theorems about [reachable] pools hold for every schedule, and cancellation is an answer
    ([CancelledError]) a waiting operation may always give.  [Coro] has the proof method for pools
    (control points with the operation at their head, invariants and termination measures over them),
    [Hoare] the triples for single coroutines.

    The core is written as step functions on records, one step per access of an atomic or a critical
    section, and step relations over them; where it behaves differently with and without the
    interpreter's global lock, the model has a mode for each.

    What is not under [src/] is not defined here: the kernel, [socket], [ssl], [subprocess],
    file objects and the file system functions of [pathlib] answer operations or are arguments,
    with what is relied on stated as hypotheses of the theorems that need it.  The language and the
    parts of its library that only compute (rounding, [round], path and URI syntax, the choice of
    class in [io.open]) are modelled.

    ** The files

    - [Prelude]: exceptions, error numbers, list lemmas.  [Coro], [Hoare]: above.
    - [SchedIO], [Arming]: the readiness word of a descriptor ([src/src/io/schedule.rs]) as functions
      and at the granularity of its atomic accesses, against the poller.
    - [Sync], [Permits]: [Lock], [Semaphore], [Barrier] ([src/src/sync.rs], [_sync.py] of both APIs);
      [Permits] is a class of primitives with permits, and its theorems hold of every instance.
    - [Os], [Socket], [Streams], [Fd] and [ColoredSocket], [ColoredStreams]: sockets, listeners,
      descriptors and their streams ([_net/_socket.py], [_net/_streams.py], [_streams.py], [_fd.py]).
      [Driver] is an environment of a descriptor, its kernel object (a class [Kernel]) and the poller;
      [Delivery] runs the streams in it, [Echo] the echo servers of [src/bench/impl], which use both
      directions of a connection.
    - [Tls], [ColoredTls], [TlsProps]: [_net/_tls.py]; [SslProxy]: its proxy of the engine, used by
      several threads.  [Hilvl], [ColoredHilvl], [HilvlProps]:
      [_net/_hilvl.py].
    - [Spawn], [SpawnProps]: [spawn], [map], [Result] and the join ([_ctl.py]); [Select],
      [SelectProps], [CompletedProps]: [select], [block_on], [as_completed]; [Blocking],
      [BlockingProps]: [spawn_blocking] against the thread of [src/src/blocking.rs].
    - [Scope], [ScopeProps]: [_scope.py] and [src/src/scope.rs].  [Timing], [TimingProps]: [_time.py],
      [_events.py].
    - [Channel], [ChannelProps], [ChannelLive]: the channels of [src/src/sync.rs] and [_sync.py].
    - [Subprocess], [SubprocessProps], [ProcessWait], [RunProcess]: [_subprocess.py].
    - [File], [FileTypes], [FileProps]: [_fs/_file.py], its typing declarations as data included.
      [FsPath], [FsPathProps]: [_fs/_path.py].
    - [Runtime], [RuntimeProps], [RunProps]: [_runtime.py], [_deco.py], [_io.py] and the process-wide
      half of [_signals.py]; [Signals], [SignalProps]: the receivers of [_signals.py] and
      [signals.py].
    - [Plugin], [PluginProps]: the pytest plugin ([_testutils/_pytest_plugin.py]).
    - The core: [Workers], [WorkersProps]: the worker threads, their queues and how they are woken
      ([src/src/work.rs], [src/src/runtime.rs]); [Handles], [HandlesSim], [HandlesProps]: what a
      handle of the run queue does with a generator and how suspensions carry results between
      generators ([src/src/handles.rs], [src/src/events.rs]); [AsyncHandles], [AsyncProps]: the same
      for [async] coroutines; [EventCore], [EventProps]: events, their wakers, timeouts and the counter
      of a waiter of several ([src/src/events.rs]); [Contexts]: the context variables of tasks and blocking
      calls; [Timers]: the timer heap and the poller's sleep
      ([src/src/time.rs], [src/src/runtime.rs]); [Registry]: registering descriptors against the
      poller, which reads their addresses from its events ([src/src/runtime.rs]); [Pool]: the threads
      of blocking calls ([src/src/blocking.rs]).
    - The core put together: [MainLoop], [MainLoopProps]: the loop of [Runtime::_run] with its poll, its
      signals and its teardown, over [Timers], [Workers] and the threads that use the runtime;
      [Dispatch]: the handles of [Handles] run by the workers of [Workers].

    ** What the theorems show

    - Mutual exclusion, no lost permit and no forgotten waiter for locks and semaphores, under every
      interleaving and cancellation ([Permits]).
    - No readiness edge is lost between a task that arms a descriptor and the poller ([Arming],
      [SchedIO]); [recv] and [send_all] neither hang nor spin, and transfer the bytes once and in order
      ([Delivery]); the echo servers send back what they were sent, and close ([Echo]).
    - A join returns after all children, with their results in order, and it returns ([SpawnProps]);
      leaving a scope waits for its children or has aborted them ([ScopeProps]); [select], [timeout],
      [as_completed], [spawn_blocking] and [run] end with an outcome that really happened.
    - Channels refine an abstract queue, deliver exactly once, keep back pressure and leave nobody
      asleep who could go on.
    - TLS records leave in order, handshakes complete, closing closes the transport; opening
      connections and child processes leaks nothing on any failing path; a process is reaped once and
      [run_process] returns all its output.
    - Signals are not lost, and running the loop restores the process's signal handling.
    - For files and paths: the method cache is unobservable, the declared signatures and overloads
      hold at run time, [Path] does what [pathlib] does, and URIs round-trip.
    - In the core: every handle given to the workers runs once and no worker sleeps while one waits
      ([WorkersProps]); handles and suspensions refine plain call stacks of generators, and no
      generator is ever in two of them ([HandlesProps]); no [async] coroutine is lost or run twice
      unless its scope aborts it ([AsyncProps]); a waiter is resumed once, when all its events have been
      set or its timer has fired ([EventProps]); timers fire once, in order, not early, and none is
      slept through ([Timers]); with [context=True] the context variables of a task are its own
      ([Contexts]); the poller never follows a pointer to a dropped entry ([Registry]); the
      pool of threads runs every task ([Pool]).
    - For the core as a whole: without inputs the loop, its workers and the other threads come to
      rest, and at rest no stop, signal, timer or handle is forgotten ([MainLoopProps]); the workers run
      generators as plain call stacks, and sleep only when every coroutine waits ([Dispatch]).
    - Tests and fixtures that are coroutines do in pytest what their coroutines do ([PluginProps]).
    Theorems without a number support these or are further facts of the same kind; those that show a
    single execution that goes wrong back the findings that go with this development.

    ** Bounds

    [exec] takes fuel; every statement about it is through [runs], which asks for some fuel that is
    enough and so includes termination.  Pools need no fuel: where the text says that executions end,
    the theorem gives accessibility of the step relation.  In [Delivery] and [Echo] fewer than 256 kernel events
    happen (per call in [Delivery], per connection in [Echo]), because the readiness word counts edges modulo 256 and a coincidence after
    exactly 256 is a real one.  The semaphore's count is cast to 32 bits as in the source, and its
    theorem asks for fewer than 2^31 tokens and tasks; the channel's counter is shown never to be decremented
    below zero, so its wrap-around plays no part.  Timeouts are rationals of any size, rounded as
    [round] does.  The counters of [Workers] and [Pool] are kept at 64 bits, and the theorems ask for
    fewer than 2^64 workers and 2^31 tasks; atomics are sequentially consistent.  [MainLoop] and
    [Dispatch] have other threads hand over handles one at a time, as the global lock makes them;
    the socket of the signals holds at most the 4096 bytes that one read takes.

    ** What is not modelled

    The pools of the Python layer do not run on [Dispatch]: that any task may move, and that a waiting
    operation is answered, is what the theorems about the core provide.  In a pool an aborted coroutine
    is resumed with [CancelledError] where it waits; in the generator API frames below the checkpoint
    may in fact be left suspended.  [MainLoop] keeps handles as numbers, and [Dispatch] has the
    handles of generators but not the loop; the handles of [async] coroutines are composed with
    neither.  [Contexts] leaves out scopes that unwind a wrapper.  [run_forever] takes the loop as an
    argument.  Modules that only re-export names have no behaviour, and of the benchmarks the
    harness, which starts processes and computes statistics with numpy, is left out.

    ** What could follow

    The composition of the socket layer with [Tls] over one driver, and of [Dispatch] with the events
    of [EventCore]. *)

From stdpp Require Import base numbers list strings gmap.
From Stdlib Require Import Lia ZArith.

(** ** Notations *)

Declare Scope tonio_scope.
Delimit Scope tonio_scope with tonio.

(** ** Python exceptions *)

(** The subclasses of [OSError] that the code names in an [except] clause. *)
Inductive oserr : Set :=
| OSPlain
| BlockingIOError
| InterruptedError
| BrokenPipeError
| ProcessLookupError.

(** The subclasses of [ssl.SSLError] the code tells apart. *)
Inductive sslerr : Set :=
| SSLOther
| SSLWantReadError
| SSLEOFError
| CertificateError.

(** Python exceptions the sources raise or catch.  [UserError n] stands for an
    exception of a coroutine supplied by the caller that derives from
    [Exception]; [UserBase n] for one that derives from [BaseException] only
    (such as [KeyboardInterrupt]). *)
#[warnings="-register-all"]
Inductive exn : Set :=
| CancelledError
| WouldBlock
| ResourceBroken (cause : option exn)
| RuntimeError (msg : string)
| TypeError (msg : string)
| ValueError (msg : string)
| AttributeError (name : string)
| IndexError (msg : string)
| StopAsyncIteration
| AssertionError
| OverflowError
| UnicodeError
| SyntaxError
| NotImplementedError
| OSError (cls : oserr) (eno : option Z)
| SSLError (cls : sslerr) (strerror : string)
| CalledProcessError (code : Z) (output stderr : option (list Byte.byte))
| ExceptionGroup (errs : list exn)
| RuntimeNotInitializedError
| RuntimeAlreadyInitializedError
| KeyError (key : string)
| UserError (n : Z)
| UserBase (n : Z).

(** [except Exception]: [CancelledError] derives from [BaseException]
    ([create_exception!(_tonio, CancelledError, PyBaseException, ..)]). *)
Definition is_Exception (e : exn) : bool :=
  match e with CancelledError | UserBase _ => false | _ => true end.

Definition is_Cancelled (e : exn) : bool :=
  match e with CancelledError => true | _ => false end.

(** [except OSError]: [ssl.SSLError] is a subclass of [OSError]. *)
Definition is_OSError (e : exn) : bool :=
  match e with OSError _ _ | SSLError _ _ => true | _ => false end.

Definition is_BlockingIO (e : exn) : bool :=
  match e with OSError BlockingIOError _ => true | _ => false end.

Definition is_Interrupted (e : exn) : bool :=
  match e with OSError InterruptedError _ => true | _ => false end.

Definition is_BrokenPipe (e : exn) : bool :=
  match e with OSError BrokenPipeError _ => true | _ => false end.

(** The two transient outcomes of a system call on a non-blocking descriptor. *)
Definition is_transient (e : exn) : bool := is_Interrupted e || is_BlockingIO e.

Definition is_ResourceBroken (e : exn) : bool :=
  match e with ResourceBroken _ => true | _ => false end.

(** [exc.errno] of an [OSError]. *)
Definition exn_errno (e : exn) : option Z :=
  match e with OSError _ n => n | _ => None end.

(** Linux error numbers the code or the interpreter tells apart. *)
Definition EPERM : Z := 1.
Definition ESRCH : Z := 3.
Definition EINTR : Z := 4.
Definition EBADF : Z := 9.
Definition EAGAIN : Z := 11.
Definition ENOMEM : Z := 12.
Definition ENFILE : Z := 23.
Definition EMFILE : Z := 24.
Definition EPIPE : Z := 32.
Definition EADDRINUSE : Z := 98.
Definition EAFNOSUPPORT : Z := 97.
Definition ENOBUFS : Z := 105.
Definition ESHUTDOWN : Z := 108.
Definition EALREADY : Z := 114.
Definition EINPROGRESS : Z := 115.

(** [OSError(errno, ..)] is an instance of the subclass the number selects. *)
Definition os_error (eno : Z) : exn :=
  OSError
    (if bool_decide (eno ∈ [EAGAIN; EALREADY; EINPROGRESS]) then BlockingIOError
     else if bool_decide (eno = EINTR) then InterruptedError
     else if bool_decide (eno ∈ [EPIPE; ESHUTDOWN]) then BrokenPipeError
     else if bool_decide (eno = ESRCH) then ProcessLookupError
     else OSPlain)
    (Some eno).

(** ** Results: a value or a raised exception *)

Inductive result (A : Type) : Type :=
| Ok (a : A)
| Err (e : exn).
Arguments Ok {A} a.
Arguments Err {A} e.

Definition is_ok {A} (r : result A) : bool :=
  match r with Ok _ => true | Err _ => false end.

(** ** Tactics *)

(** Case analysis on the discriminee of a [match] or an [if]. *)
Ltac split_match :=
  match goal with
  | |- context [match ?x with _ => _ end] => destruct x eqn:?
  | H : context [match ?x with _ => _ end] |- _ => destruct x eqn:?
  end.

Ltac split_matches := repeat (split_match; simplify_eq/=).

(** ** Lists *)

Section Lists.
Context {A : Type}.

Lemma list_snoc_inv (l : list A) : l = [] \/ exists l' x, l = l' ++ [x].
Proof.
  induction l as [|x l _] using rev_ind; [by left|]. right. eauto.
Qed.

Lemma NoDup_snoc (l : list A) (x : A) : NoDup (l ++ [x]) <-> NoDup l /\ x ∉ l.
Proof.
  rewrite NoDup_app. split.
  - intros (? & Hd & ?). split; [done|]. intros Hx. by apply (Hd x Hx); left.
  - intros [? Hx]. split_and!; [done| |apply NoDup_singleton].
    intros y Hy ->%list_elem_of_singleton. done.
Qed.

Lemma filter_ne_id `{EqDecision A} (s : A) (l : list A) :
  s ∉ l -> filter (fun x => x <> s) l = l.
Proof.
  induction l as [|x l IH]; intros Hs; [done|].
  rewrite not_elem_of_cons in Hs. destruct Hs as [Hx Hl].
  rewrite filter_cons_True by auto. by rewrite IH.
Qed.
End Lists.

(** The number of elements of a list that satisfy a boolean test. *)
Fixpoint countb {A} (f : A -> bool) (l : list A) : nat :=
  match l with [] => 0 | x :: l => (if f x then 1 else 0) + countb f l end.

Section Countb.
Context {A : Type} (f : A -> bool).

Lemma countb_app l1 l2 : countb f (l1 ++ l2) = countb f l1 + countb f l2.
Proof. induction l1; simpl; lia. Qed.

Lemma countb_le_length l : countb f l <= length l.
Proof. induction l as [|x l IH]; simpl; [lia|]. destruct (f x); lia. Qed.

Lemma countb_insert l i x y :
  l !! i = Some x ->
  countb f (<[i:=y]> l) + (if f x then 1 else 0) = countb f l + (if f y then 1 else 0).
Proof.
  revert i. induction l as [|z l IH]; intros [|i] Hi; simplify_eq/=; [lia|].
  specialize (IH i Hi). lia.
Qed.

Lemma countb_lookup_pos l i x : l !! i = Some x -> f x = true -> 0 < countb f l.
Proof.
  revert i. induction l as [|z l IH]; intros [|i] Hi Hf; simplify_eq/=.
  - rewrite Hf. lia.
  - specialize (IH i Hi Hf). lia.
Qed.

Lemma countb_le1_unique l i j x y :
  countb f l <= 1 -> l !! i = Some x -> l !! j = Some y ->
  f x = true -> f y = true -> i = j.
Proof.
  revert i j. induction l as [|z l IH]; intros [|i] [|j] Hc Hi Hj Hx Hy;
    simplify_eq/=; [done| | |].
  - pose proof (countb_lookup_pos l j y Hj Hy). rewrite Hx in Hc. lia.
  - pose proof (countb_lookup_pos l i x Hi Hx). rewrite Hy in Hc. lia.
  - f_equal. apply IH; try done. destruct (f z); lia.
Qed.
End Countb.

Section CountbExt.
Context {A : Type}.
Implicit Types f g : A -> bool.

Lemma countb_ext f g l :
  (forall i x, l !! i = Some x -> f x = g x) -> countb f l = countb g l.
Proof.
  induction l as [|x l IH]; intros Hfg; simpl; [done|].
  rewrite (Hfg 0 x eq_refl), IH; [done|]. intros i y Hi. by apply (Hfg (S i)).
Qed.

Lemma countb_none f l : (forall i x, l !! i = Some x -> f x = false) -> countb f l = 0.
Proof.
  induction l as [|x l IH]; intros Hf; simpl; [done|].
  rewrite (Hf 0 x eq_refl), IH; [done|]. intros i y Hi. by apply (Hf (S i)).
Qed.

Lemma countb_pos_inv f l : 0 < countb f l -> exists i x, l !! i = Some x /\ f x = true.
Proof.
  induction l as [|x l IH]; simpl; [lia|]. destruct (f x) eqn:Hf.
  - intros _. by exists 0, x.
  - intros (i & y & ? & ?)%IH. by exists (S i), y.
Qed.

Lemma countb_mono f g l :
  (forall i x, l !! i = Some x -> f x = true -> g x = true) -> countb f l <= countb g l.
Proof.
  induction l as [|x l IH]; intros Hfg; simpl; [lia|].
  pose proof (Hfg 0 x eq_refl) as Hx.
  assert (countb f l <= countb g l) by (apply IH; intros i y Hi; by apply (Hfg (S i))).
  destruct (f x); [rewrite Hx by done; lia|lia].
Qed.

(** The test changes at one index only, from [false] to [true]. *)
Lemma countb_flip f g l i x :
  l !! i = Some x -> f x = false -> g x = true ->
  (forall j y, l !! j = Some y -> j <> i -> f y = g y) ->
  countb g l = S (countb f l).
Proof.
  revert i. induction l as [|z l IH]; intros [|i] Hi Hf Hg Hfg; simplify_eq/=.
  - rewrite Hf, Hg. simpl. f_equal. symmetry. apply countb_ext.
    intros j y Hj. by apply (Hfg (S j)).
  - rewrite (IH i), (Hfg 0 z); [lia|done|lia|done|done|done|].
    intros j y Hj Hne. apply (Hfg (S j)); [done|lia].
Qed.

Lemma countb_lt_inv f l : countb f l < length l -> exists i x, l !! i = Some x /\ f x = false.
Proof.
  induction l as [|x l IH]; simpl; [lia|]. destruct (f x) eqn:Hf.
  - intros (i & y & ? & ?)%Nat.succ_lt_mono%IH. by exists (S i), y.
  - intros _. by exists 0, x.
Qed.

Lemma countb_lt_length f l i x : l !! i = Some x -> f x = false -> countb f l < length l.
Proof.
  revert i. induction l as [|z l IH]; intros [|i] Hi Hf; simplify_eq/=.
  - rewrite Hf. pose proof (countb_le_length f l). lia.
  - specialize (IH i Hi Hf). destruct (f z); lia.
Qed.
End CountbExt.

(** Replacing an element of a list seen through [omap]. *)
Section OmapInsert.
Context {A B : Type} (f : A -> option B).

Lemma omap_insert_same (l : list A) i x y :
  l !! i = Some x -> f x = f y -> omap f (<[i:=y]> l) = omap f l.
Proof.
  revert i. induction l as [|z l IH]; intros [|i] Hi Hf; simplify_eq/=; [by rewrite Hf|].
  by rewrite (IH i).
Qed.

Lemma omap_insert_new (l : list A) i x y b :
  l !! i = Some x -> f x = None -> f y = Some b -> omap f (<[i:=y]> l) ≡ₚ b :: omap f l.
Proof.
  revert i. induction l as [|z l IH]; intros [|i] Hi Hx Hy; simplify_eq/=;
    [by rewrite Hx, Hy|].
  destruct (f z); rewrite (IH i) by done; [apply Permutation_swap|done].
Qed.
End OmapInsert.

Lemma sum_list_with_insert {A} (f : A -> nat) (l : list A) i x y :
  l !! i = Some x -> sum_list_with f (<[i:=y]> l) + f x = sum_list_with f l + f y.
Proof.
  revert i. induction l as [|z l IH]; intros [|i] Hi; simplify_eq/=; [lia|].
  specialize (IH i Hi). lia.
Qed.

(** Comparing sums: elementwise, up to a constant, and up to a constant at one index. *)
Section SumList.
Context {A : Type}.
Implicit Types f g : A -> nat.

Lemma sum_list_with_le f g c (l : list A) :
  (forall i x, l !! i = Some x -> f x <= g x + c) ->
  sum_list_with f l <= sum_list_with g l + c * length l.
Proof.
  induction l as [|x l IH]; intros Hfg; [simpl; lia|]. cbn [sum_list_with length].
  specialize (Hfg 0 x eq_refl) as Hx.
  assert (sum_list_with f l <= sum_list_with g l + c * length l); [|rewrite Nat.mul_succ_r; lia].
  apply IH. intros i y Hi. by apply (Hfg (S i)).
Qed.

Lemma sum_list_with_mono f g (l : list A) :
  (forall i x, l !! i = Some x -> f x <= g x) -> sum_list_with f l <= sum_list_with g l.
Proof.
  intros Hfg. pose proof (sum_list_with_le f g 0 l). rewrite Nat.mul_0_l, Nat.add_0_r in H.
  apply H. intros i x Hi. specialize (Hfg i x Hi). lia.
Qed.

Lemma sum_list_with_one f g c (l : list A) k x :
  l !! k = Some x -> f x <= g x + c ->
  (forall i y, l !! i = Some y -> i <> k -> f y <= g y) ->
  sum_list_with f l <= sum_list_with g l + c.
Proof.
  revert k. induction l as [|z l IH]; intros [|k] Hk Hx Hfg; simplify_eq/=.
  - assert (sum_list_with f l <= sum_list_with g l); [|lia].
    apply sum_list_with_mono. intros i y Hi. by apply (Hfg (S i)).
  - assert (sum_list_with f l <= sum_list_with g l + c).
    { apply (IH k); [done..|]. intros i y Hi Hne. apply (Hfg (S i)); [done|lia]. }
    specialize (Hfg 0 z eq_refl). lia.
Qed.
End SumList.

Lemma length_omap_le {A B} (f : A -> option B) (l : list A) : length (omap f l) <= length l.
Proof.
  induction l as [|x l IH]; [done|]. simpl. change (list_omap A B f l) with (omap f l).
  destruct (f x); simpl; change (list_omap A B f l) with (omap f l); lia.
Qed.

(** ** More on counting *)

Section CountbSole.
Context {A : Type} (f g : A -> bool).

(** When at most one element passes [g], and [f] implies [g], one that passes [g] decides how
    many pass [f]. *)
Lemma countb_sole (l : list A) i x y :
  (countb g l <= 1)%nat -> l !! i = Some x -> g x = true -> g y = false -> f y = false ->
  (forall z, f z = true -> g z = true) ->
  countb f l = (if f x then 1 else 0)%nat.
Proof.
  intros Hle Hi Hx Hy Hfy Hfg.
  pose proof (countb_insert g l i x y Hi) as Hg. pose proof (countb_insert f l i x y Hi) as Hf.
  rewrite Hx, Hy in Hg. rewrite Hfy in Hf.
  assert (countb f (<[i:=y]> l) <= countb g (<[i:=y]> l))%nat as Hm
    by (apply countb_mono; intros j z _; apply Hfg). lia.
Qed.
End CountbSole.

Lemma omap_insert_perm {A B} (f : A -> option B) (l : list A) i x y :
  l !! i = Some x ->
  option_list (f y) ++ omap f l ≡ₚ option_list (f x) ++ omap f (<[i:=y]> l).
Proof.
  revert i. induction l as [|z l IH]; intros [|i] Hi; simplify_eq/=.
  - destruct (f x), (f y); simpl; [apply Permutation_swap|done..].
  - specialize (IH i Hi). destruct (f z) as [b|]; [|done].
    rewrite <- !Permutation_middle. by f_equiv.
Qed.

Lemma existsb_countb {A} (f : A -> bool) l : existsb f l = false -> countb f l = 0%nat.
Proof.
  induction l as [|x l IH]; simpl; [done|]. destruct (f x); simpl; [done|]. apply IH.
Qed.

Lemma existsb_countb_0 {A} (f : A -> bool) l : countb f l = 0%nat -> existsb f l = false.
Proof.
  induction l as [|x l IH]; simpl; [done|]. destruct (f x); simpl; [done|]. apply IH.
Qed.

Lemma omap_countb_none {A B} (f : A -> option B) (g : A -> bool) l :
  countb g l = 0%nat -> (forall x, f x <> None -> g x = true) -> omap f l = [].
Proof.
  intros Hg Hfg. induction l as [|x l IH]; simpl in *; [done|].
  specialize (Hfg x). destruct (f x); [|apply IH; lia].
  rewrite Hfg in Hg by done. lia.
Qed.

(** ** Machine words *)

(** [AtomicUsize] and [AtomicIsize] of a 64-bit machine wrap around. *)
Definition usize (x : Z) : Z := (x mod 2 ^ 64)%Z.
Definition isize (x : Z) : Z := ((x + 2 ^ 63) mod 2 ^ 64 - 2 ^ 63)%Z.

Lemma usize_id x : (0 <= x < 2 ^ 64)%Z -> usize x = x.
Proof. apply Z.mod_small. Qed.

Lemma isize_id x : (- 2 ^ 63 <= x < 2 ^ 63)%Z -> isize x = x.
Proof. intros ?. unfold isize. rewrite Z.mod_small; lia. Qed.
