(* ===== verification/Coro.v ===== *)
(** * Coroutines

    Python coroutines as interaction trees: the statements of the language, runs of one coroutine
    against a handler of its operations, pools of coroutines interleaved in every way, and the
    method by which invariants and termination of pools are proved. *)

From stdpp Require Import base numbers list strings gmap.
From ITree Require Import ITree ITreeFacts.
From S2P Require Import Prelude.

(** ** The coroutine monad *)

(** A coroutine performing the primitive operations [E] and returning a value of
    type [A] or raising. *)
Definition pyM (E : Type -> Type) (A : Type) : Type := itree E (result A).

Section Monad.
Context {E : Type -> Type}.

Definition pret {A} (a : A) : pyM E A := Ret (Ok a).

Definition praise {A} (e : exn) : pyM E A := Ret (Err e).

Definition pbind {A B} (c : pyM E A) (k : A -> pyM E B) : pyM E B :=
  ITree.bind c (fun r => match r with Ok a => k a | Err e => Ret (Err e) end).

(** A primitive operation that cannot raise. *)
Definition pop {A} (e : E A) : pyM E A :=
  ITree.bind (ITree.trigger e) (fun a => Ret (Ok a)).

(** A primitive operation that returns or raises. *)
Definition pcall {A} (e : E (result A)) : pyM E A := ITree.trigger e.

(** [try: c except ..: h else: k]: [h e = None] when no clause matches. *)
Definition ptry_else {A B} (c : pyM E A) (h : exn -> option (pyM E B))
    (k : A -> pyM E B) : pyM E B :=
  ITree.bind c (fun r =>
    match r with
    | Ok a => k a
    | Err e => match h e with Some d => d | None => Ret (Err e) end
    end).

Definition ptry {A} (c : pyM E A) (h : exn -> option (pyM E A)) : pyM E A :=
  ptry_else c h pret.

(** [try: c finally: f]: an exception of [f] replaces the outcome of [c]. *)
Definition pfinally {A} (c : pyM E A) (f : pyM E unit) : pyM E A :=
  ITree.bind c (fun r =>
    ITree.bind f (fun rf => match rf with Ok _ => Ret r | Err e => Ret (Err e) end)).

(** A loop with state: [inl i] goes round again, [inr a] leaves with [a]. *)
Definition pwhile {I A} (body : I -> pyM E (I + A)) : I -> pyM E A :=
  ITree.iter (fun i =>
    ITree.bind (body i) (fun r =>
      Ret (match r with
           | Ok (inl i') => inl i'
           | Ok (inr a) => inr (Ok a)
           | Err e => inr (Err e)
           end))).

(** [while True: body], left with [break] or [return] ([Some]). *)
Definition ploop {A} (body : pyM E (option A)) : pyM E A :=
  pwhile (fun _ : unit =>
    pbind body (fun o => pret (match o with Some a => inr a | None => inl tt end))) tt.

(** [for x in l: body x], each iteration for its effect. *)
Fixpoint pfor {A} (l : list A) (body : A -> pyM E unit) : pyM E unit :=
  match l with
  | [] => pret tt
  | x :: l => pbind (body x) (fun _ => pfor l body)
  end.

Definition passert (b : bool) : pyM E unit :=
  if b then pret tt else praise AssertionError.
End Monad.

Arguments pbind {E A B} & c k.
Arguments pop {E A} & e.
Arguments pcall {E A} & e.
Arguments ptry_else {E A B} & c h k.
Arguments ptry {E A} & c h.
Arguments pfinally {E A} & c f.
Arguments pwhile {E I A} & body _.
Arguments ploop {E A} & body.
Arguments pfor {E A} & l body.

Notation "'let!' x ':=' c 'in' k" := (pbind c (fun x => k))
  (at level 10, x binder, k at level 200) : tonio_scope.
Notation "c ;;; k" := (pbind c (fun _ => k))
  (at level 62, right associativity) : tonio_scope.

Open Scope tonio_scope.

(** ** Running a coroutine against an environment *)

(** How a fuelled run ends: with a result, suspended on an operation the
    environment does not answer, or without enough fuel. *)
Inductive outcome (S A : Type) : Type :=
| Done (a : A) (s : S)
| Blocked (s : S)
| OutOfFuel.
Arguments Done {S A} a s.
Arguments Blocked {S A} s.
Arguments OutOfFuel {S A}.

Section Run.
Context {E : Type -> Type} {S : Type}.
Variable H : forall X, E X -> S -> option (X * S).

(** The executable semantics, one unit of fuel for each node of the tree. *)
Fixpoint exec {A} (n : nat) (t : itree E A) (s : S) : outcome S A :=
  match n with
  | O => OutOfFuel
  | Datatypes.S n =>
      match observe t with
      | RetF a => Done a s
      | TauF t' => exec n t' s
      | VisF e k =>
          match H _ e s with
          | Some (x, s') => exec n (k x) s'
          | None => Blocked s
          end
      end
  end.

Lemma exec_S {A} n (t : itree E A) s :
  exec (Datatypes.S n) t s =
  match observe t with
  | RetF a => Done a s
  | TauF t' => exec n t' s
  | VisF e k =>
      match H _ e s with
      | Some (x, s') => exec n (k x) s'
      | None => Blocked s
      end
  end.
Proof. reflexivity. Qed.

(** The same as a relation, without fuel: [runs t s a s'] says that [t] started
    in [s] terminates with [a] in [s']. *)
Inductive runs {A} : itree E A -> S -> A -> S -> Prop :=
| runs_Ret t s a : observe t = RetF a -> runs t s a s
| runs_Tau t t' s a s' : observe t = TauF t' -> runs t' s a s' -> runs t s a s'
| runs_Vis t X (e : E X) k s x s1 a s' :
    observe t = VisF e k -> H X e s = Some (x, s1) -> runs (k x) s1 a s' ->
    runs t s a s'.

Lemma exec_mono {A} n m (t : itree E A) s a s' :
  exec n t s = Done a s' -> n <= m -> exec m t s = Done a s'.
Proof.
  revert m t s. induction n as [|n IH]; intros [|m] t s Hn Hle; try done; [lia|].
  simpl in *. destruct (observe t) as [|t'|X e k]; [done|apply IH; [done|lia]|].
  destruct (H X e s) as [[x s1]|]; [|done]. apply IH; [done|lia].
Qed.

Lemma runs_exec {A} (t : itree E A) s a s' :
  runs t s a s' <-> exists n, exec n t s = Done a s'.
Proof.
  split.
  - induction 1 as [t s a Ho|t t' s a s' Ho _ [n Hn]|t X e k s x s1 a s' Ho Hh _ [n Hn]];
      [exists 1|exists (Datatypes.S n)|exists (Datatypes.S n)]; simpl; rewrite Ho; [done|done|].
    by rewrite Hh.
  - intros [n Hn]. revert t s Hn. induction n as [|n IH]; intros t s Hn; [done|].
    simpl in Hn. destruct (observe t) as [|t'|X e k] eqn:Ho; simplify_eq.
    + by constructor.
    + eapply runs_Tau; eauto.
    + destruct (H X e s) as [[x s1]|] eqn:Hh; [|done]. eapply runs_Vis; eauto.
Qed.

(** The environment answers with a function, so a run has one outcome. *)
Lemma runs_det {A} (t : itree E A) s a1 s1 a2 s2 :
  runs t s a1 s1 -> runs t s a2 s2 -> a1 = a2 /\ s1 = s2.
Proof.
  rewrite !runs_exec. intros [n1 H1] [n2 H2].
  apply (exec_mono _ (n1 `max` n2)) in H1; [|lia].
  apply (exec_mono _ (n1 `max` n2)) in H2; [|lia].
  rewrite H1 in H2. by simplify_eq.
Qed.

Lemma runs_obs {A} (t t' : itree E A) s a s' :
  observe t = observe t' -> runs t' s a s' -> runs t s a s'.
Proof.
  intros Ho Hr. inv Hr; [apply runs_Ret|eapply runs_Tau|eapply runs_Vis];
    rewrite ?Ho; eauto.
Qed.

Lemma obs_bind {A B} (t : itree E A) (k : A -> itree E B) :
  observe (ITree.bind t k) =
  match observe t with
  | RetF a => observe (k a)
  | TauF t' => TauF (ITree.bind t' k)
  | VisF e h => VisF e (fun x => ITree.bind (h x) k)
  end.
Proof.
  unfold observe. cbn. unfold observe. destruct (_observe t); reflexivity.
Qed.

Lemma runs_bind {A B} (t : itree E A) (k : A -> itree E B) s a s1 b s2 :
  runs t s a s1 -> runs (k a) s1 b s2 -> runs (ITree.bind t k) s b s2.
Proof.
  intros Ht Hk. induction Ht as [t s a Ho|t t' s a s' Ho _ IH|t X e k' s x s1 a s' Ho Hh _ IH].
  - eapply runs_obs; [|done]. by rewrite obs_bind, Ho.
  - eapply runs_Tau; [by rewrite obs_bind, Ho|]. by apply IH.
  - eapply runs_Vis; [by rewrite obs_bind, Ho|done|]. by apply IH.
Qed.

(** A bind splits at the point where its first part returns. *)
Lemma exec_bind_inv {A B} n (t : itree E A) (k : A -> itree E B) s b s2 :
  exec n (ITree.bind t k) s = Done b s2 ->
  exists a s1, runs t s a s1 /\ runs (k a) s1 b s2.
Proof.
  revert t s. induction n as [|n IH]; intros t s Hn; [done|].
  rewrite exec_S, obs_bind in Hn. destruct (observe t) as [a|t'|X e k'] eqn:Ho.
  - exists a, s. split; [by constructor|]. apply runs_exec. exists (Datatypes.S n). done.
  - destruct (IH t' s Hn) as (a & s1 & Hr & Hk). exists a, s1.
    split; [eapply runs_Tau; eauto|done].
  - destruct (H X e s) as [[x s']|] eqn:Hh; [|done].
    destruct (IH (k' x) s' Hn) as (a & s1 & Hr & Hk). exists a, s1.
    split; [eapply runs_Vis; eauto|done].
Qed.

Lemma runs_bind_inv {A B} (t : itree E A) (k : A -> itree E B) s b s2 :
  runs (ITree.bind t k) s b s2 -> exists a s1, runs t s a s1 /\ runs (k a) s1 b s2.
Proof. intros [n Hn]%runs_exec. by eapply exec_bind_inv. Qed.

(** *** The rules of the execution logic *)

Lemma runs_ret {A} (a : A) s : runs (Ret a) s a s.
Proof. by apply runs_Ret. Qed.

Lemma runs_pret {A} (a : A) s : runs (pret a) s (Ok a) s.
Proof. by apply runs_Ret. Qed.

Lemma runs_praise {A} (e : exn) s : runs (praise (A:=A) e) s (Err e) s.
Proof. by apply runs_Ret. Qed.

Lemma runs_trigger {A} (e : E A) s a s' :
  H A e s = Some (a, s') -> runs (ITree.trigger e) s a s'.
Proof. intros Hh. eapply runs_Vis; [done|done|]. by apply runs_Ret. Qed.

Lemma runs_pop {A} (e : E A) s a s' :
  H A e s = Some (a, s') -> runs (pop e) s (Ok a) s'.
Proof.
  intros Hh. eapply runs_bind; [by apply runs_trigger|]. by apply runs_Ret.
Qed.

Lemma runs_pcall {A} (e : E (result A)) s r s' :
  H _ e s = Some (r, s') -> runs (pcall e) s r s'.
Proof. apply runs_trigger. Qed.

Lemma runs_pbind {A B} (c : pyM E A) (k : A -> pyM E B) s a s1 r s2 :
  runs c s (Ok a) s1 -> runs (k a) s1 r s2 -> runs (pbind c k) s r s2.
Proof. intros Hc Hk. by eapply runs_bind. Qed.

Lemma runs_pbind_err {A B} (c : pyM E A) (k : A -> pyM E B) s e s1 :
  runs c s (Err e) s1 -> runs (pbind c k) s (Err e) s1.
Proof. intros Hc. eapply runs_bind; [done|]. by apply runs_Ret. Qed.

Lemma runs_ptry_else_ok {A B} (c : pyM E A) h (k : A -> pyM E B) s a s1 r s2 :
  runs c s (Ok a) s1 -> runs (k a) s1 r s2 -> runs (ptry_else c h k) s r s2.
Proof. intros Hc Hk. by eapply runs_bind. Qed.

Lemma runs_ptry_else_catch {A B} (c : pyM E A) h (k : A -> pyM E B) s e d s1 r s2 :
  runs c s (Err e) s1 -> h e = Some d -> runs d s1 r s2 ->
  runs (ptry_else c h k) s r s2.
Proof. intros Hc Hh Hd. eapply runs_bind; [done|]. simpl. by rewrite Hh. Qed.

Lemma runs_ptry_else_pass {A B} (c : pyM E A) h (k : A -> pyM E B) s e s1 :
  runs c s (Err e) s1 -> h e = None -> runs (ptry_else c h k) s (Err e) s1.
Proof.
  intros Hc Hh. eapply runs_bind; [done|]. simpl. rewrite Hh. by apply runs_Ret.
Qed.

Lemma runs_pfinally {A} (c : pyM E A) f s r s1 u s2 :
  runs c s r s1 -> runs f s1 (Ok u) s2 -> runs (pfinally c f) s r s2.
Proof.
  intros Hc Hf. eapply runs_bind; [done|]. eapply runs_bind; [done|].
  by apply runs_Ret.
Qed.

Lemma runs_iter {I A} (step : I -> itree E (I + A)) i s lr s1 a s2 :
  runs (step i) s lr s1 ->
  runs (match lr with inl l => Tau (ITree.iter step l) | inr r => Ret r end) s1 a s2 ->
  runs (ITree.iter step i) s a s2.
Proof.
  intros Hs Hr.
  eapply (runs_obs _ (ITree.bind (step i) (fun lr =>
    match lr with inl l => Tau (ITree.iter step l) | inr r => Ret r end))); [done|].
  by eapply runs_bind.
Qed.

Lemma runs_pwhile_next {I A} (body : I -> pyM E (I + A)) i s i' s1 r s2 :
  runs (body i) s (Ok (inl i')) s1 -> runs (pwhile body i') s1 r s2 ->
  runs (pwhile body i) s r s2.
Proof.
  intros Hb Hr. eapply runs_iter; [eapply runs_bind; [done|apply runs_ret]|].
  simpl. by eapply runs_Tau.
Qed.

Lemma runs_pwhile_done {I A} (body : I -> pyM E (I + A)) i s a s1 :
  runs (body i) s (Ok (inr a)) s1 -> runs (pwhile body i) s (Ok a) s1.
Proof.
  intros Hb. eapply runs_iter; [eapply runs_bind; [done|apply runs_ret]|].
  apply runs_ret.
Qed.

Lemma runs_pwhile_err {I A} (body : I -> pyM E (I + A)) i s e s1 :
  runs (body i) s (Err e) s1 -> runs (pwhile body i) s (Err e) s1.
Proof.
  intros Hb. eapply runs_iter; [eapply runs_bind; [done|apply runs_ret]|].
  apply runs_ret.
Qed.

Lemma runs_ploop_next {A} (body : pyM E (option A)) s s1 r s2 :
  runs body s (Ok None) s1 -> runs (ploop body) s1 r s2 -> runs (ploop body) s r s2.
Proof.
  intros Hb Hr. eapply runs_pwhile_next; [|done]. eapply runs_pbind; [done|].
  apply runs_pret.
Qed.

Lemma runs_ploop_done {A} (body : pyM E (option A)) s a s1 :
  runs body s (Ok (Some a)) s1 -> runs (ploop body) s (Ok a) s1.
Proof.
  intros Hb. eapply runs_pwhile_done, runs_pbind; [done|]. apply runs_pret.
Qed.

Lemma runs_ploop_err {A} (body : pyM E (option A)) s e s1 :
  runs body s (Err e) s1 -> runs (ploop body) s (Err e) s1.
Proof. intros Hb. by eapply runs_pwhile_err, runs_pbind_err. Qed.
End Run.

Arguments exec {E S} H {A} n t s.
Arguments runs {E S} H {A} _ _ _ _.

(** [runs_step] applies the rule of the coroutine's head construct, and leaves
    the side conditions that evaluation does not decide. *)
Ltac runs_step :=
  match goal with
  | |- runs _ (pret _) _ _ _ => apply runs_pret
  | |- runs _ (praise _) _ _ _ => apply runs_praise
  | |- runs _ (pop _) _ _ _ => eapply runs_pop; [reflexivity]
  | |- runs _ (pcall _) _ _ _ => eapply runs_pcall; [reflexivity]
  | |- runs _ (pbind _ _) _ _ _ => eapply runs_pbind
  end.

(** ** Interleaving coroutines *)

(** A pool of coroutines over a shared state.  [sem tid e s x s'] says that the
    operation [e], performed by task [tid] in state [s], may answer [x] and leave
    [s'].  Any task that has a step may take it: every interleaving at the
    granularity of the primitive operations is an execution. *)
Section Pool.
Context {E : Type -> Type} {S R : Type}.
Variable sem : forall X, nat -> E X -> S -> X -> S -> Prop.

Inductive tstep (tid : nat) : itree E R -> S -> itree E R -> S -> Prop :=
| tstep_tau t t' s : observe t = TauF t' -> tstep tid t s t' s
| tstep_vis t X (e : E X) k s x s' :
    observe t = VisF e k -> sem X tid e s x s' -> tstep tid t s (k x) s'.

Inductive pstep : list (itree E R) * S -> list (itree E R) * S -> Prop :=
| pstep_task tid ts t t' s s' :
    ts !! tid = Some t -> tstep tid t s t' s' ->
    pstep (ts, s) (<[tid:=t']> ts, s').

Lemma tstep_Vis_inv tid t X (e : E X) k s t' s' :
  t ≅ Vis e k -> tstep tid t s t' s' -> exists x, t' ≅ k x /\ sem X tid e s x s'.
Proof.
  intros (k' & Ho & Hk)%eqitree_inv_Vis_r Hs.
  inv Hs as [? ? ? Ho'|? X' e' k'' ? x ? Ho' Hsem]; rewrite Ho in Ho'; [done|].
  inversion Ho'; subst. repeat match goal with
    H : existT _ _ = existT _ _ |- _ => apply Eqdep.EqdepTheory.inj_pair2 in H; subst end.
  eauto.
Qed.

Lemma tstep_Vis tid t X (e : E X) k s x s' :
  t ≅ Vis e k -> sem X tid e s x s' -> exists t', tstep tid t s t' s'.
Proof.
  intros (k' & Ho & _)%eqitree_inv_Vis_r Hs. eexists. by eapply tstep_vis.
Qed.

Lemma tstep_Tau_inv tid t t0 s t' s' :
  t ≅ Tau t0 -> tstep tid t s t' s' -> t' ≅ t0 /\ s' = s.
Proof.
  intros (t1 & Ho & Ht)%eqitree_inv_Tau_r Hs.
  inv Hs as [? ? ? Ho'|? X' e' k'' ? x ? Ho' Hsem]; rewrite Ho in Ho'; [|done].
  by simplify_eq.
Qed.

Lemma tstep_Ret_inv tid t r s t' s' :
  t ≅ Ret r -> tstep tid t s t' s' -> False.
Proof.
  intros Ho%eqitree_inv_Ret_r Hs.
  inv Hs as [? ? ? Ho'|? X' e' k'' ? x ? Ho' Hsem]; by rewrite Ho in Ho'.
Qed.

(** A task that has returned, or whose operation the state does not answer, takes no step. *)
Lemma tstep_blocked tid (t : itree E R) s t' s' :
  match observe t with
  | RetF _ => True | TauF _ => False | VisF e _ => forall x s', ~ sem _ tid e s x s'
  end -> ~ tstep tid t s t' s'.
Proof.
  intros Hb Hs. destruct Hs as [t t' s Ho|t X e k s x s' Ho Hsem]; rewrite Ho in Hb; [done|].
  by eapply Hb.
Qed.

(** Executions and what holds along all of them. *)
Inductive reachable (c0 : list (itree E R) * S) : list (itree E R) * S -> Prop :=
| reachable_init : reachable c0 c0
| reachable_step c c' : reachable c0 c -> pstep c c' -> reachable c0 c'.

Lemma reachable_step_l c0 c1 c2 :
  pstep c0 c1 -> reachable c1 c2 -> reachable c0 c2.
Proof.
  intros Hs Hr. induction Hr as [|c c' Hr IH Hs']; [|by eapply reachable_step].
  eapply reachable_step; [apply reachable_init|done].
Qed.

Lemma reachable_inv (I : list (itree E R) * S -> Prop) c0 c :
  I c0 -> (forall c c', I c -> pstep c c' -> I c') -> reachable c0 c -> I c.
Proof. intros H0 Hstep. induction 1; eauto. Qed.
End Pool.

(** Equations of the combinators up to strong bisimulation, used to name the
    suspension points of a coroutine. *)
Section Equations.
Context {E : Type -> Type}.

Lemma pbind_pret {A B} (a : A) (k : A -> pyM E B) : pbind (pret a) k ≅ k a.
Proof. unfold pbind, pret. by rewrite bind_ret_l. Qed.

Lemma pbind_praise {A B} e (k : A -> pyM E B) : pbind (praise e) k ≅ praise e.
Proof. unfold pbind, praise. by rewrite bind_ret_l. Qed.

Lemma pbind_pop {A B} (e : E A) (k : A -> pyM E B) : pbind (pop e) k ≅ Vis e k.
Proof.
  unfold pbind, pop. rewrite bind_bind, bind_trigger. apply eqit_Vis. intros a.
  by rewrite bind_ret_l.
Qed.

Lemma pbind_pcall {A B} (e : E (result A)) (k : A -> pyM E B) :
  pbind (pcall e) k ≅
  Vis e (fun r => match r with Ok a => k a | Err x => praise x end).
Proof. unfold pbind, pcall. rewrite bind_trigger. reflexivity. Qed.

Lemma pbind_assoc {A B C} (c : pyM E A) (k : A -> pyM E B) (h : B -> pyM E C) :
  pbind (pbind c k) h ≅ pbind c (fun a => pbind (k a) h).
Proof.
  unfold pbind. rewrite bind_bind. apply eqit_bind; [reflexivity|].
  intros [a|e]; [reflexivity|]. by rewrite bind_ret_l.
Qed.

Lemma pbind_vis {X A B} (e : E X) (c : X -> pyM E A) (k : A -> pyM E B) :
  pbind (Vis e c) k ≅ Vis e (fun x => pbind (c x) k).
Proof. unfold pbind. by rewrite bind_vis. Qed.

Lemma ptry_else_pcall {A B} (e : E (result A)) h (k : A -> pyM E B) :
  ptry_else (pcall e) h k ≅
  Vis e (fun r => match r with
                  | Ok a => k a
                  | Err x => match h x with Some d => d | None => praise x end
                  end).
Proof. unfold ptry_else, pcall. rewrite bind_trigger. reflexivity. Qed.

Lemma pfinally_pcall {A} (e : E (result A)) f :
  pfinally (pcall e) f ≅
  Vis e (fun r => ITree.bind f (fun rf =>
                    match rf with Ok _ => Ret r | Err x => Ret (Err x) end)).
Proof. unfold pfinally, pcall. rewrite bind_trigger. reflexivity. Qed.

Lemma bind_pop {A R} (e : E A) (k : result A -> itree E R) :
  ITree.bind (pop e) k ≅ Vis e (fun a => k (Ok a)).
Proof.
  unfold pop. rewrite bind_bind, bind_trigger. apply eqit_Vis. intros a.
  by rewrite bind_ret_l.
Qed.

Lemma pbind_eq {A B} (c c' : pyM E A) (k k' : A -> pyM E B) :
  c ≅ c' -> (forall a, k a ≅ k' a) -> pbind c k ≅ pbind c' k'.
Proof.
  intros Hc Hk. unfold pbind. apply eqit_bind; [done|].
  intros [a|e]; [apply Hk|reflexivity].
Qed.

(** One round of a loop. *)
Lemma ploop_unfold {A} (body : pyM E (option A)) :
  ploop body ≅ ITree.bind body (fun r => match r with
    | Ok (Some a) => Ret (Ok a) | Ok None => Tau (ploop body) | Err e => Ret (Err e) end).
Proof.
  unfold ploop, pwhile at 1. rewrite unfold_iter. rewrite bind_bind. unfold pbind. rewrite bind_bind.
  apply eqit_bind; [reflexivity|]. intros [[a|]|e]; unfold pret; by rewrite !bind_ret_l.
Qed.

#[export] Instance pbind_proper {A B} :
  Proper (eq_itree eq ==> pointwise_relation A (eq_itree eq) ==> eq_itree eq)
    (@pbind E A B).
Proof. intros c c' Hc k k' Hk. by apply pbind_eq. Qed.
End Equations.
#[export] Existing Instance pbind_proper.

(** *** Control points

    A component names the points where its coroutines may stand by a type of
    phases, gives the rest of the code at each of them, and shows that every step
    of the code is a step between phases.  Invariants of the pool are then proved
    on the list of phases. *)
Section Phases.
Context {E : Type -> Type} {S R P : Type}.
Variable sem : forall X, nat -> E X -> S -> X -> S -> Prop.
Variable tree_of : P -> itree E R.
Variable phase_step : nat -> S -> P -> P -> S -> Prop.

Definition at_phases (ts : list (itree E R)) (ps : list P) : Prop :=
  Forall2 (fun t p => t ≅ tree_of p) ts ps.

Hypothesis tree_step : forall p i t s t' s',
  t ≅ tree_of p -> tstep sem i t s t' s' ->
  exists p', t' ≅ tree_of p' /\ phase_step i s p p' s'.

Lemma pstep_phases ts s ts' s' ps :
  at_phases ts ps -> pstep sem (ts, s) (ts', s') ->
  exists i p p', ps !! i = Some p /\ phase_step i s p p' s' /\ at_phases ts' (<[i:=p']> ps).
Proof using tree_step.
  intros Hat Hs. inv Hs as [i ? t t' ? ? Hi Ht].
  destruct (Forall2_lookup_l _ _ _ _ _ Hat Hi) as (p & Hp & Heq).
  destruct (tree_step p i t s t' s' Heq Ht) as (p' & Heq' & Hps).
  exists i, p, p'. split_and!; [done|done|]. by apply Forall2_insert.
Qed.

Lemma phases_invariant_at (I : list P -> S -> Prop) ts0 ps0 s0 ts s :
  at_phases ts0 ps0 -> I ps0 s0 ->
  (forall ps s i p p' s', I ps s -> ps !! i = Some p -> phase_step i s p p' s' ->
     I (<[i:=p']> ps) s') ->
  reachable sem (ts0, s0) (ts, s) ->
  exists ps, at_phases ts ps /\ I ps s.
Proof using tree_step.
  intros Hat0 H0 Hstep Hr. remember (ts0, s0) as c0 eqn:Hc0.
  remember (ts, s) as c eqn:Hc. revert ts s Hc.
  induction Hr as [|[ts1 s1] c' Hr IH Hs]; intros ts s ->; simplify_eq; [by exists ps0|].
  destruct (IH ts1 s1 eq_refl) as (ps & Hat & HI).
  destruct (pstep_phases _ _ _ _ _ Hat Hs) as (i & p & p' & Hp & Hps & Hat').
  exists (<[i:=p']> ps). split; [done|]. by eapply Hstep.
Qed.

Lemma phases_invariant (I : list P -> S -> Prop) ps0 s0 ts s :
  I ps0 s0 ->
  (forall ps s i p p' s', I ps s -> ps !! i = Some p -> phase_step i s p p' s' ->
     I (<[i:=p']> ps) s') ->
  reachable sem (tree_of <$> ps0, s0) (ts, s) ->
  exists ps, at_phases ts ps /\ I ps s.
Proof using tree_step.
  intros H0 Hstep Hr. eapply phases_invariant_at; [|exact H0|exact Hstep|exact Hr].
  unfold at_phases. apply Forall2_fmap_l, Forall_Forall2_diag, Forall_true. intros p. simpl. reflexivity.
Qed.

(** Where every step between phases lowers a rank, every execution is finite. *)
Lemma phases_terminate (rank : P -> nat) :
  (forall i s p p' s', phase_step i s p p' s' -> rank p' < rank p) ->
  forall ps ts s, at_phases ts ps -> Acc (flip (pstep sem)) (ts, s).
Proof using tree_step.
  intros Hrank ps. remember (sum_list_with rank ps) as m eqn:Hm. revert ps Hm.
  induction m as [m IH] using lt_wf_ind. intros ps -> ts s Hat.
  constructor. intros [ts' s'] Hs.
  destruct (pstep_phases _ _ _ _ _ Hat Hs) as (i & p & p' & Hp & Hps & Hat').
  eapply IH; [|done|exact Hat']. apply Hrank in Hps.
  pose proof (sum_list_with_insert rank _ _ _ p' Hp). lia.
Qed.

(** The same where the rank is that of the pool, and drops as long as an invariant holds. *)
Lemma phases_terminate_inv (I : list P -> S -> Prop) (rank : list P -> S -> nat) :
  (forall ps s i p p' s', I ps s -> ps !! i = Some p -> phase_step i s p p' s' ->
     I (<[i:=p']> ps) s' /\ rank (<[i:=p']> ps) s' < rank ps s) ->
  forall ps ts s, I ps s -> at_phases ts ps -> Acc (flip (pstep sem)) (ts, s).
Proof using tree_step.
  intros Hrank ps ts s. remember (rank ps s) as m eqn:Hm. revert ps ts s Hm.
  induction m as [m IH] using lt_wf_ind. intros ps ts s -> HI Hat.
  constructor. intros [ts' s'] Hs.
  destruct (pstep_phases _ _ _ _ _ Hat Hs) as (i & p & p' & Hp & Hps & Hat').
  destruct (Hrank _ _ _ _ _ _ HI Hp Hps) as [HI' Hlt]. by eapply IH.
Qed.

Lemma at_phases_lookup ts ps i t :
  at_phases ts ps -> ts !! i = Some t -> exists p, ps !! i = Some p /\ t ≅ tree_of p.
Proof. intros Hat Hi. by destruct (Forall2_lookup_l _ _ _ _ _ Hat Hi) as (p & ? & ?); eauto. Qed.

Lemma at_phases_lookup_r ts ps i p :
  at_phases ts ps -> ps !! i = Some p -> exists t, ts !! i = Some t /\ t ≅ tree_of p.
Proof. intros Hat Hi. by destruct (Forall2_lookup_r _ _ _ _ _ Hat Hi) as (t & ? & ?); eauto. Qed.
End Phases.

(** Control points given by the operation at their head and the control point that
    follows each of its answers. *)
Section Heads.
Context {E : Type -> Type} {S R P : Type}.
Variable sem : forall X, nat -> E X -> S -> X -> S -> Prop.
Variable tree_of : P -> itree E R.
Variable head : P -> (forall X, E X -> (X -> P) -> Prop) -> Prop.

Definition head_step (i : nat) (s : S) (p p' : P) (s' : S) : Prop :=
  head p (fun X e k => exists x, sem X i e s x s' /\ p' = k x).

(** A control point returns, or it is at an operation. *)
Definition heads_ok (p : P) : Prop :=
  (exists r, tree_of p ≅ Ret r /\ forall K, ~ head p K) \/
  (exists X (e : E X) k, tree_of p ≅ Vis e (fun x => tree_of (k x)) /\
     forall K, head p K <-> K X e k).

Hypothesis heads : forall p, heads_ok p.

Lemma head_tree_step p i t s t' s' :
  t ≅ tree_of p -> tstep sem i t s t' s' ->
  exists p', t' ≅ tree_of p' /\ head_step i s p p' s'.
Proof using heads.
  intros Ht Hs. destruct (heads p) as [(r & Hr & _)|(X & e & k & Hv & Hk)].
  - exfalso. rewrite Hr in Ht. by eapply (tstep_Ret_inv sem i t).
  - rewrite Hv in Ht. destruct (tstep_Vis_inv _ _ _ _ _ _ _ _ _ Ht Hs) as (x & Hx & Hsem).
    exists (k x). split; [done|]. apply Hk. eauto.
Qed.

Lemma head_step_enabled p i t s p' s' :
  t ≅ tree_of p -> head_step i s p p' s' -> exists t', tstep sem i t s t' s'.
Proof using heads.
  intros Ht Hs. destruct (heads p) as [(r & _ & Hn)|(X & e & k & Hv & Hk)]; [by apply Hn in Hs|].
  destruct (proj1 (Hk _) Hs) as (x & Hsem & _). rewrite Hv in Ht. by eapply tstep_Vis.
Qed.

End Heads.

(** The same for coroutines with loops: a control point may also jump back. *)
Section Loops.
Context {E : Type -> Type} {S R P : Type}.
Variable sem : forall X, nat -> E X -> S -> X -> S -> Prop.
Variable tree_of : P -> itree E R.
Variable head : P -> (forall X, E X -> (X -> P) -> Prop) -> Prop.
Variable jump : P -> option P.

Definition loop_step (i : nat) (s : S) (p p' : P) (s' : S) : Prop :=
  match jump p with
  | Some q => p' = q /\ s' = s
  | None => head_step sem head i s p p' s'
  end.

Definition loops_ok (p : P) : Prop :=
  match jump p with
  | Some q => tree_of p ≅ Tau (tree_of q)
  | None => heads_ok tree_of head p
  end.

Hypothesis loops : forall p, loops_ok p.

Lemma loop_tree_step p i t s t' s' :
  t ≅ tree_of p -> tstep sem i t s t' s' ->
  exists p', t' ≅ tree_of p' /\ loop_step i s p p' s'.
Proof using loops.
  intros Ht Hs. pose proof (loops p) as Hp. unfold loops_ok, loop_step in *.
  destruct (jump p) as [q|].
  - rewrite Hp in Ht. destruct (tstep_Tau_inv sem _ _ _ _ _ _ Ht Hs) as [Ht' ->]. eauto.
  - destruct Hp as [(r & Hr & _)|(X & e & k & Hv & Hk)].
    + exfalso. rewrite Hr in Ht. by eapply (tstep_Ret_inv sem i t).
    + rewrite Hv in Ht. destruct (tstep_Vis_inv _ _ _ _ _ _ _ _ _ Ht Hs) as (x & Hx & Hsem).
      exists (k x). split; [done|]. apply Hk. eauto.
Qed.

Lemma loop_step_enabled p i t s p' s' :
  t ≅ tree_of p -> loop_step i s p p' s' -> exists t', tstep sem i t s t' s'.
Proof using loops.
  intros Ht Hs. pose proof (loops p) as Hp. unfold loops_ok, loop_step in *.
  destruct (jump p) as [q|].
  - destruct Hs as [-> ->]. rewrite Hp in Ht.
    apply eqitree_inv_Tau_r in Ht as (t' & Ho & _). exists t'. by apply tstep_tau.
  - destruct Hp as [(r & _ & Hn)|(X & e & k & Hv & Hk)]; [by apply Hn in Hs|].
    destruct (proj1 (Hk _) Hs) as (x & Hsem & _). rewrite Hv in Ht. by eapply tstep_Vis.
Qed.

(** Only the control points without a successor return. *)
Lemma loop_ret p r : tree_of p ≅ Ret r -> jump p = None /\ forall K, ~ head p K.
Proof using loops.
  intros Hr. pose proof (loops p) as Hp. unfold loops_ok in Hp. destruct (jump p) as [q|].
  - exfalso. rewrite Hr in Hp. apply eqitree_inv_Tau_r in Hp as (t' & Ho & _). done.
  - split; [done|]. destruct Hp as [(x & _ & Hn)|(X & e & k & Hv & _)]; [done|].
    exfalso. rewrite Hr in Hv. apply eqitree_inv_Vis_r in Hv as (k' & Ho & _). done.
Qed.
End Loops.



(** A returned coroutine stands at a phase whose code has returned. *)
Lemma eq_Ret_Vis {E R X} (r : R) (e : E X) k : (Ret r : itree E R) ≅ Vis e k -> False.
Proof. intros (k' & Ho & _)%eqitree_inv_Vis_r. by cbn in Ho. Qed.

Lemma eq_Ret_inj {E R} (r r' : R) : (Ret r : itree E R) ≅ Ret r' -> r = r'.
Proof. intros Ho%eqitree_inv_Ret_r. cbn in Ho. congruence. Qed.

Lemma eq_obs_Ret {E R} (t : itree E R) (r : R) : observe t = RetF r -> t ≅ Ret r.
Proof. intros Ho. rewrite (itree_eta t), Ho. reflexivity. Qed.

(** Bisimilar coroutines stand at the same operation. *)
Lemma eq_itree_head {E R} (t t' : itree E R) : t ≅ t' ->
  (exists r, observe t = RetF r /\ observe t' = RetF r) \/
  (exists u u', observe t = TauF u /\ observe t' = TauF u') \/
  (exists X (e : E X) k k', observe t = VisF e k /\ observe t' = VisF e k').
Proof.
  intros Ht. rewrite (itree_eta t') in Ht. destruct (observe t') as [r|u'|X e k'].
  - apply eqitree_inv_Ret_r in Ht. eauto.
  - apply eqitree_inv_Tau_r in Ht as (u & ? & ?). right; left; eauto.
  - apply eqitree_inv_Vis_r in Ht as (k & ? & ?). right; right; eauto 10.
Qed.

(** Evaluate the observation of a concrete tree. *)
Ltac observe_now :=
  lazymatch goal with
  | |- ?l = _ => let l' := eval lazy head in l in change l with l'; reflexivity
  end.

(** Let task [i] of a concrete pool take its next step. *)
Ltac pool_step i :=
  eapply reachable_step_l;
  [eapply (pstep_task _ i);
   [reflexivity
   |first [eapply (tstep_vis _ _ _ unit _ _ _ tt);
             [observe_now|cbn; repeat split; reflexivity]
          |eapply tstep_vis; [observe_now|cbn; repeat split; reflexivity]
          |eapply tstep_tau; observe_now]]
  |cbn [insert list_insert fmap list_fmap]].

(** The same, with the answer [v] of the operation it is at; what evaluation does not decide of
    the operation is left. *)
Ltac sem_now := first [reflexivity|esplit; sem_now|left; sem_now|right; sem_now].
Ltac pool_answer i v :=
  eapply reachable_step_l;
  [eapply (pstep_task _ i);
   [reflexivity|eapply (tstep_vis _ _ _ _ _ _ _ v); [observe_now|cbn; try sem_now]]
  |cbn [insert list_insert fmap list_fmap app]].
