(* ===== verification/Hoare.v ===== *)
(** * Partial correctness of coroutines

    Triples over the executions of [Coro]: if the coroutine returns or raises, the
    postcondition holds of the outcome and the final state.  One rule per construct. *)

From stdpp Require Import base numbers list gmap.
From Stdlib Require Import Lia.
From ITree Require Import ITree ITreeFacts.
From S2P Require Import Prelude Coro.

Open Scope tonio_scope.

Section Hoare.
Context {E : Type -> Type} {S : Type}.
Variable H : forall X, E X -> S -> option (X * S).

Definition triple {A} (P : S -> Prop) (c : itree E A) (Q : A -> S -> Prop) : Prop :=
  forall s a s', P s -> runs H c s a s' -> Q a s'.

Lemma triple_conseq {A} (P P' : S -> Prop) (c : itree E A) (Q Q' : A -> S -> Prop) :
  triple P' c Q' -> (forall s, P s -> P' s) -> (forall a s, Q' a s -> Q a s) -> triple P c Q.
Proof. intros Hc HP HQ s a s' Hs Hr. eapply HQ, Hc; eauto. Qed.

Lemma triple_ret {A} (P : S -> Prop) (a : A) (Q : A -> S -> Prop) :
  (forall s, P s -> Q a s) -> triple P (Ret a) Q.
Proof.
  intros HQ s x s' Hs Hr. assert (runs H (Ret a) s a s) as Hr' by by apply runs_ret.
  destruct (runs_det _ _ _ _ _ _ _ Hr Hr') as [-> ->]. auto.
Qed.

Lemma triple_bind {A B} (P : S -> Prop) (t : itree E A) (k : A -> itree E B) R Q :
  triple P t R -> (forall a, triple (R a) (k a) Q) -> triple P (ITree.bind t k) Q.
Proof.
  intros Ht Hk s b s' Hs (a & s1 & H1 & H2)%runs_bind_inv. eapply Hk; eauto.
Qed.

Lemma triple_trigger {A} (P : S -> Prop) (e : E A) (Q : A -> S -> Prop) :
  (forall s a s', P s -> H A e s = Some (a, s') -> Q a s') -> triple P (ITree.trigger e) Q.
Proof.
  intros HQ s a s' Hs Hr. remember (ITree.trigger e) as t eqn:Ht.
  destruct Hr as [t s a Ho|t t' s a s' Ho|t X e' k s x s1 a s' Ho Hh Hr]; subst t; cbn in Ho;
    try done.
  injection Ho as -> He Hk. apply Eqdep.EqdepTheory.inj_pair2 in He, Hk. subst.
  assert (runs H (Ret x) s1 x s1) as Hr' by by apply runs_ret.
  destruct (runs_det _ _ _ _ _ _ _ Hr Hr') as [-> ->]. eauto.
Qed.

Lemma triple_pret {A} (P : S -> Prop) (a : A) (Q : result A -> S -> Prop) :
  (forall s, P s -> Q (Ok a) s) -> triple P (pret a) Q.
Proof. apply triple_ret. Qed.

Lemma triple_praise {A} (P : S -> Prop) e (Q : result A -> S -> Prop) :
  (forall s, P s -> Q (Err e) s) -> triple P (praise e) Q.
Proof. apply triple_ret. Qed.

Lemma triple_pcall {A} (P : S -> Prop) (e : E (result A)) (Q : result A -> S -> Prop) :
  (forall s r s', P s -> H _ e s = Some (r, s') -> Q r s') -> triple P (pcall e) Q.
Proof. apply triple_trigger. Qed.

Lemma triple_pop {A} (P : S -> Prop) (e : E A) (Q : result A -> S -> Prop) :
  (forall s a s', P s -> H _ e s = Some (a, s') -> Q (Ok a) s') -> triple P (pop e) Q.
Proof.
  intros HQ. eapply triple_bind; [by apply (triple_trigger _ _ (fun a => Q (Ok a)))|].
  intros a. by apply triple_ret.
Qed.

Lemma triple_pbind {A B} (P : S -> Prop) (c : pyM E A) (k : A -> pyM E B) R Q :
  triple P c (fun r s => match r with Ok a => R a s | Err e => Q (Err e) s end) ->
  (forall a, triple (R a) (k a) Q) -> triple P (pbind c k) Q.
Proof.
  intros Hc Hk. eapply triple_bind; [exact Hc|]. intros [a|e]; [apply Hk|by apply triple_ret].
Qed.

Lemma triple_ptry_else {A B} (P : S -> Prop) (c : pyM E A) h (k : A -> pyM E B) R X Q :
  triple P c (fun r s => match r with Ok a => R a s | Err e => X e s end) ->
  (forall a, triple (R a) (k a) Q) ->
  (forall e d, h e = Some d -> triple (X e) d Q) ->
  (forall e s, h e = None -> X e s -> Q (Err e) s) ->
  triple P (ptry_else c h k) Q.
Proof.
  intros Hc Hk Hh Hn. eapply triple_bind; [exact Hc|]. intros [a|e]; [apply Hk|].
  destruct (h e) as [d|] eqn:He; [by apply Hh|]. apply triple_ret. auto.
Qed.

Lemma triple_pfinally {A} (P : S -> Prop) (c : pyM E A) (f : pyM E unit) R Q :
  triple P c R ->
  (forall r, triple (R r) f
     (fun rf s => match rf with Ok _ => Q r s | Err e => Q (Err e) s end)) ->
  triple P (pfinally c f) Q.
Proof.
  intros Hc Hf. eapply triple_bind; [exact Hc|]. intros r.
  eapply triple_bind; [apply Hf|]. intros [u|e]; by apply triple_ret.
Qed.

(** The end of a bind takes less fuel than the whole. *)
Lemma exec_bind_fuel {A B} n (t : itree E A) (k : A -> itree E B) s b s2 :
  exec H n (ITree.bind t k) s = Done b s2 ->
  exists a s1 m, m <= n /\ runs H t s a s1 /\ exec H m (k a) s1 = Done b s2.
Proof.
  revert t s. induction n as [|n IH]; intros t s Hn; [done|].
  rewrite exec_S, obs_bind in Hn. destruct (observe t) as [a|t'|X e k'] eqn:Ho.
  - exists a, s, (Datatypes.S n). split_and!; [done|by constructor|done].
  - destruct (IH t' s Hn) as (a & s1 & m & ? & Hr & Hk). exists a, s1, m.
    split_and!; [lia|by eapply runs_Tau|done].
  - destruct (H X e s) as [[x s']|] eqn:Hh; [|done].
    destruct (IH (k' x) s' Hn) as (a & s1 & m & ? & Hr & Hk). exists a, s1, m.
    split_and!; [lia|by eapply runs_Vis|done].
Qed.

Lemma triple_iter {I A} (P : I -> S -> Prop) (step : I -> itree E (I + A)) Q :
  (forall i, triple (P i) (step i)
     (fun r s => match r with inl i' => P i' s | inr a => Q a s end)) ->
  forall i, triple (P i) (ITree.iter step i) Q.
Proof.
  intros Hs i s a s' HP [n Hn]%runs_exec. revert i s HP Hn.
  induction n as [n IH] using lt_wf_ind. intros i s HP Hn.
  destruct n as [|n]; [done|].
  assert (exec H (Datatypes.S n) (ITree.bind (step i) (fun lr =>
    match lr with inl l => Tau (ITree.iter step l) | inr r => Ret r end)) s = Done a s') as Hb
    by exact Hn.
  apply exec_bind_fuel in Hb as ([l|x] & s1 & [|m] & Hm & Hr & Hk); try done.
  - cbn in Hk. eapply (IH m); [lia| |exact Hk]. by apply (Hs i s (inl l) s1).
  - cbn in Hk. injection Hk as <- <-. by apply (Hs i s (inr x) s1).
Qed.

Lemma triple_pwhile {I A} (P : I -> S -> Prop) (body : I -> pyM E (I + A)) Q :
  (forall i, triple (P i) (body i)
     (fun r s => match r with
                 | Ok (inl i') => P i' s | Ok (inr a) => Q (Ok a) s | Err e => Q (Err e) s
                 end)) ->
  forall i, triple (P i) (pwhile body i) Q.
Proof.
  intros Hb. apply triple_iter. intros i. eapply triple_bind; [apply Hb|].
  intros [[]|]; by apply triple_ret.
Qed.

Lemma triple_ploop {A} (P : S -> Prop) (body : pyM E (option A)) Q :
  triple P body
    (fun r s => match r with
                | Ok None => P s | Ok (Some a) => Q (Ok a) s | Err e => Q (Err e) s
                end) ->
  triple P (ploop body) Q.
Proof.
  intros Hb. apply (triple_pwhile (fun _ => P)). intros _.
  eapply triple_pbind with (R := fun o s => match o with None => P s | Some a => Q (Ok a) s end).
  - eapply triple_conseq; [exact Hb|done|]. by intros [[]|].
  - intros [a|]; by apply triple_pret.
Qed.

(** [keeps I c]: the coroutine preserves [I], however it ends. *)
Definition keeps {A} (I : S -> Prop) (c : itree E A) : Prop := triple I c (fun _ => I).

Lemma keeps_pbind {A B} I (c : pyM E A) (k : A -> pyM E B) :
  keeps I c -> (forall a, keeps I (k a)) -> keeps I (pbind c k).
Proof.
  intros Hc Hk. eapply (triple_pbind _ _ _ (fun _ => I)); [|done].
  eapply triple_conseq; [exact Hc|done|]. by intros [].
Qed.

Lemma keeps_pret {A} I (a : A) : keeps I (pret a).
Proof. by apply triple_pret. Qed.

Lemma keeps_praise {A} I e : keeps I (praise (A:=A) e).
Proof. by apply triple_praise. Qed.

Lemma keeps_ptry_else {A B} I (c : pyM E A) h (k : A -> pyM E B) :
  keeps I c -> (forall a, keeps I (k a)) -> (forall e d, h e = Some d -> keeps I d) ->
  keeps I (ptry_else c h k).
Proof.
  intros Hc Hk Hh. eapply (triple_ptry_else _ _ _ _ (fun _ => I) (fun _ => I)); try done.
  eapply triple_conseq; [exact Hc|done|]. by intros [].
Qed.

Lemma keeps_pfinally {A} I (c : pyM E A) (f : pyM E unit) :
  keeps I c -> keeps I f -> keeps I (pfinally c f).
Proof.
  intros Hc Hf. eapply triple_pfinally; [exact Hc|]. intros r.
  eapply triple_conseq; [exact Hf|done|]. by intros [].
Qed.

Lemma keeps_ploop {A} I (body : pyM E (option A)) : keeps I body -> keeps I (ploop body).
Proof. intros Hb. apply triple_ploop. eapply triple_conseq; [exact Hb|done|]. by intros [[]|]. Qed.

Lemma keeps_pfor {A} I (l : list A) (body : A -> pyM E unit) :
  (forall x, keeps I (body x)) -> keeps I (pfor l body).
Proof.
  intros Hb. induction l as [|x l IH]; [apply keeps_pret|]. by apply keeps_pbind.
Qed.
End Hoare.

Create HintDb keeps.
#[export] Hint Resolve keeps_pbind keeps_pret keeps_praise keeps_ptry_else keeps_pfinally
  keeps_ploop keeps_pfor : keeps.

(** ** Total programs *)

(** A program that returns or raises in every state. *)
Section Total.
Context {E : Type -> Type} {S : Type} (H : forall X, E X -> S -> option (X * S)).

Definition total {A} (c : itree E A) : Prop := forall s, exists r s', runs H c s r s'.

Lemma total_ret {A} (a : A) : total (Ret a).
Proof. intros s. do 2 eexists. apply runs_ret. Qed.

Lemma total_bind {A B} (t : itree E A) (k : A -> itree E B) :
  total t -> (forall a, total (k a)) -> total (ITree.bind t k).
Proof.
  intros Ht Hk s. destruct (Ht s) as (a & s1 & Ha). destruct (Hk a s1) as (b & s2 & Hb).
  do 2 eexists. by eapply runs_bind.
Qed.

Lemma total_trigger {A} (e : E A) : (forall s, is_Some (H A e s)) -> total (ITree.trigger e).
Proof. intros He s. destruct (He s) as [[a s'] Hs]. do 2 eexists. by apply runs_trigger. Qed.

Lemma total_pret {A} (a : A) : total (pret a).
Proof. apply total_ret. Qed.

Lemma total_praise {A} e : total (praise (A:=A) e).
Proof. apply total_ret. Qed.

Lemma total_pcall {A} (e : E (result A)) : (forall s, is_Some (H _ e s)) -> total (pcall e).
Proof. apply total_trigger. Qed.

Lemma total_pbind {A B} (c : pyM E A) (k : A -> pyM E B) :
  total c -> (forall a, total (k a)) -> total (pbind c k).
Proof. intros Hc Hk. apply total_bind; [done|]. intros [a|e]; [apply Hk|apply total_ret]. Qed.

Lemma total_ptry_else {A B} (c : pyM E A) h (k : A -> pyM E B) :
  total c -> (forall e d, h e = Some d -> total d) -> (forall a, total (k a)) ->
  total (ptry_else c h k).
Proof.
  intros Hc Hh Hk. apply total_bind; [done|]. intros [a|e]; [apply Hk|].
  destruct (h e) as [d|] eqn:He; [by eapply Hh|apply total_ret].
Qed.

(** A loop with a measure that every round lowers. *)
Lemma total_pwhile {I A} (m : I -> nat) (body : I -> pyM E (I + A)) :
  (forall i s, exists r s', runs H (body i) s r s' /\ forall j, r = Ok (inl j) -> m j < m i) ->
  forall i, total (pwhile body i).
Proof.
  intros Hb i. remember (m i) as n eqn:Hn. revert i Hn.
  induction n as [n IH] using lt_wf_ind. intros i -> s.
  destruct (Hb i s) as ([[j|a]|e] & s1 & Hr & Hm).
  - destruct (IH (m j) (Hm j eq_refl) j eq_refl s1) as (r & s2 & Hr2).
    do 2 eexists. by eapply runs_pwhile_next.
  - do 2 eexists. by eapply runs_pwhile_done.
  - do 2 eexists. by eapply runs_pwhile_err.
Qed.
End Total.
