(* ===== verification/SchedIO.v ===== *)
(** * Per-descriptor readiness: [src/src/io/schedule.rs]

    The readiness word, its updates by the poller and by the tasks, and the two
    waiter slots.  The first part gives every method as a function on the record
    [ScheduledIO]; the second part gives [arm] and the poller's dispatch at the
    granularity of their atomic accesses, for the interleaving theorem. *)

From stdpp Require Import base numbers list gmap.
From Stdlib Require Import ZArith Lia.
From ITree Require Import ITree ITreeFacts.
From S2P Require Import Prelude Coro.

Open Scope Z_scope.

(** ** The readiness word: | tick: 8 bits | shutdown: 1 bit | readiness: 5 bits | *)

Definition READABLE : Z := 1.
Definition WRITABLE : Z := 2.
Definition READ_CLOSED : Z := 4.
Definition WRITE_CLOSED : Z := 8.
Definition ERROR : Z := 16.
Definition SHUTDOWN : Z := 32.
Definition TICK_SHIFT : Z := 6.
Definition TICK_MASK : Z := Z.shiftl 255 TICK_SHIFT.
Definition READ_ALL : Z := Z.lor (Z.lor READABLE READ_CLOSED) ERROR.
Definition WRITE_ALL : Z := Z.lor (Z.lor WRITABLE WRITE_CLOSED) ERROR.

Definition tick_of (word : Z) : Z := Z.shiftr (Z.land word TICK_MASK) TICK_SHIFT.

(** [u8::wrapping_add]. *)
Definition u8_add (a b : Z) : Z := (a + b) mod 256.

Record ScheduledIO := mkIO {
  io_fd : Z;
  readiness : Z;
  tick_r : Z;
  tick_w : Z;
  reader : option nat;
  writer : option nat
}.

Definition with_readiness (w : Z) (io : ScheduledIO) : ScheduledIO :=
  mkIO (io_fd io) w (tick_r io) (tick_w io) (reader io) (writer io).
Definition with_ticks (r w : Z) (io : ScheduledIO) : ScheduledIO :=
  mkIO (io_fd io) (readiness io) r w (reader io) (writer io).
Definition with_slots (r w : option nat) (io : ScheduledIO) : ScheduledIO :=
  mkIO (io_fd io) (readiness io) (tick_r io) (tick_w io) r w.

Definition io_new (fd : Z) : ScheduledIO := mkIO fd 0 0 0 None None.

Definition current_tick (io : ScheduledIO) : Z := tick_of (readiness io).

(** The test of [arm]: the direction is ready, or the entry is shut down. *)
Definition ready_or_shutdown (mask word : Z) : bool :=
  negb (Z.land word (Z.lor mask SHUTDOWN) =? 0).

Definition set_slot (mask : Z) (e : nat) (io : ScheduledIO) : ScheduledIO :=
  if negb (Z.land mask READABLE =? 0) then with_slots (Some e) (writer io) io
  else with_slots (reader io) (Some e) io.

(** [arm], run without interference: [e] is the event it creates. *)
Definition arm (mask : Z) (e : nat) (io : ScheduledIO) : option nat * ScheduledIO :=
  if ready_or_shutdown mask (readiness io) then (None, io)
  else (Some e, set_slot mask e io).

Definition clear (ready tick : Z) (io : ScheduledIO) : ScheduledIO :=
  if negb (tick_of (readiness io) =? tick) then io
  else with_readiness (Z.ldiff (readiness io) ready) io.

Definition consume (mask : Z) (io : ScheduledIO) : bool * ScheduledIO :=
  if Z.land (readiness io) mask =? 0 then (false, io)
  else (true, with_readiness (Z.ldiff (readiness io) mask) io).

(** The new word of [set_readiness]. *)
Definition bump (ready curr : Z) : Z :=
  Z.lor (Z.lor (Z.shiftl (u8_add (tick_of curr) 1) TICK_SHIFT) (Z.ldiff curr TICK_MASK)) ready.

Definition set_readiness (ready : Z) (io : ScheduledIO) : ScheduledIO :=
  with_readiness (bump ready (readiness io)) io.

Definition wake (ready : Z) (io : ScheduledIO)
    : (option nat * option nat) * ScheduledIO :=
  let r := negb (Z.land ready READ_ALL =? 0) in
  let w := negb (Z.land ready WRITE_ALL =? 0) in
  ((if r then reader io else None, if w then writer io else None),
   with_slots (if r then None else reader io) (if w then None else writer io) io).

Definition shutdown (io : ScheduledIO) : (option nat * option nat) * ScheduledIO :=
  wake (Z.lor READ_ALL WRITE_ALL) (with_readiness (Z.lor (readiness io) SHUTDOWN) io).

Definition arm_r (e : nat) (io : ScheduledIO) : option nat * ScheduledIO :=
  match arm READ_ALL e io with
  | (Some e, io') => (Some e, io')
  | (None, io') => (None, with_ticks (current_tick io') (tick_w io') io')
  end.

Definition arm_w (e : nat) (io : ScheduledIO) : option nat * ScheduledIO :=
  match arm WRITE_ALL e io with
  | (Some e, io') => (Some e, io')
  | (None, io') => (None, with_ticks (tick_r io') (current_tick io') io')
  end.

Definition clear_r (io : ScheduledIO) : ScheduledIO := clear READ_ALL (tick_r io) io.
Definition clear_w (io : ScheduledIO) : ScheduledIO := clear WRITE_ALL (tick_w io) io.
Definition consume_r (io : ScheduledIO) : bool * ScheduledIO := consume READ_ALL io.
Definition consume_w (io : ScheduledIO) : bool * ScheduledIO := consume WRITE_ALL io.

(** The flags of a [mio] event, as the poller reads them. *)
Record mio_event := mkMio {
  ev_readable : bool; ev_writable : bool; ev_read_closed : bool;
  ev_write_closed : bool; ev_error : bool
}.

Definition readiness_from_event (e : mio_event) : Z :=
  let ready := 0 in
  let ready := if ev_readable e then Z.lor ready READABLE else ready in
  let ready := if ev_writable e then Z.lor ready WRITABLE else ready in
  let ready := if ev_read_closed e then Z.lor ready READ_CLOSED else ready in
  let ready := if ev_write_closed e then Z.lor ready WRITE_CLOSED else ready in
  if ev_error e then Z.lor ready ERROR else ready.

(** ** Lemmas on the word *)

(** A word that fits its 14 bits. *)
Definition word_ok (w : Z) : Prop := 0 <= w < 2 ^ 14.

Lemma testbit_small r k n :
  0 <= r < 2 ^ k -> 0 <= k <= n -> Z.testbit r n = false.
Proof.
  intros Hr Hn. rewrite <- (Z.mod_small r (2 ^ k)) by done.
  apply Z.mod_pow2_bits_high. lia.
Qed.

Lemma TICK_MASK_spec n : 0 <= n ->
  Z.testbit TICK_MASK n = (6 <=? n) && (n <? 14).
Proof.
  intros Hn. unfold TICK_MASK, TICK_SHIFT. rewrite Z.shiftl_spec by lia.
  destruct (Z.leb_spec 6 n); simpl.
  - change 255 with (Z.ones 8). destruct (Z.ltb_spec n 14).
    + apply Z.ones_spec_low. lia.
    + apply Z.ones_spec_high. lia.
  - apply Z.testbit_neg_r. lia.
Qed.

Lemma tick_of_spec w n : 0 <= n ->
  Z.testbit (tick_of w) n = (n <? 8) && Z.testbit w (n + 6).
Proof.
  intros Hn. unfold tick_of, TICK_SHIFT.
  rewrite Z.shiftr_spec, Z.land_spec, TICK_MASK_spec by lia.
  destruct (Z.leb_spec 6 (n + 6)); [|lia].
  destruct (Z.ltb_spec (n + 6) 14), (Z.ltb_spec n 8); try lia;
    by destruct (Z.testbit w (n + 6)).
Qed.

Lemma tick_of_bound w : 0 <= tick_of w < 256.
Proof.
  split.
  - apply Z.shiftr_nonneg, Z.land_nonneg. right. by vm_compute.
  - apply Z.log2_lt_cancel. change (Z.log2 256) with 8.
    destruct (Z.eq_dec (tick_of w) 0) as [->|Hne]; [by vm_compute|].
    assert (0 < tick_of w) as Hpos.
    { assert (0 <= tick_of w); [|lia].
      apply Z.shiftr_nonneg, Z.land_nonneg. right. by vm_compute. }
    destruct (Z.lt_ge_cases (Z.log2 (tick_of w)) 8) as [|Hge]; [done|].
    pose proof (Z.bit_log2 _ Hpos) as Hb. rewrite tick_of_spec in Hb by lia.
    destruct (Z.ltb_spec (Z.log2 (tick_of w)) 8); [lia|done].
Qed.

(** The bits of the word after an edge: the readiness accumulates below, the
    tick is incremented modulo 256 above. *)
Lemma bump_spec r w n : 0 <= r < 32 -> 0 <= n ->
  Z.testbit (bump r w) n =
  if n <? 6 then Z.testbit w n || Z.testbit r n
  else if n <? 14 then Z.testbit (u8_add (tick_of w) 1) (n - 6)
  else Z.testbit w n.
Proof.
  intros Hr Hn. unfold bump, TICK_SHIFT.
  rewrite !Z.lor_spec, Z.shiftl_spec, Z.ldiff_spec, TICK_MASK_spec by done.
  destruct (Z.ltb_spec n 6), (Z.leb_spec 6 n); try lia; simpl.
  - rewrite Z.testbit_neg_r by lia. by rewrite andb_true_r.
  - rewrite (testbit_small r 5 n), orb_false_r by lia.
    destruct (Z.ltb_spec n 14); simpl.
    + by rewrite andb_false_r, orb_false_r.
    + rewrite (testbit_small (u8_add _ _) 8) by
        (unfold u8_add; try apply Z.mod_pos_bound; lia).
      by rewrite andb_true_r.
Qed.

Lemma bump_tick r w : 0 <= r < 32 -> tick_of (bump r w) = u8_add (tick_of w) 1.
Proof.
  intros Hr. apply Z.bits_inj'. intros n Hn.
  rewrite tick_of_spec, bump_spec by lia.
  destruct (Z.ltb_spec (n + 6) 6); [lia|].
  destruct (Z.ltb_spec n 8), (Z.ltb_spec (n + 6) 14); try lia; simpl.
  - f_equal. lia.
  - symmetry. apply (testbit_small _ 8); [|lia].
    unfold u8_add. apply Z.mod_pos_bound. lia.
Qed.

Lemma ldiff_tick m w : 0 <= m < 64 -> tick_of (Z.ldiff w m) = tick_of w.
Proof.
  intros Hm. apply Z.bits_inj'. intros n Hn. rewrite !tick_of_spec by done.
  rewrite Z.ldiff_spec, (testbit_small m 6 (n + 6)) by lia. by rewrite andb_true_r.
Qed.

(** A mask of readiness bits meets the word after an edge exactly when it met the
    word before or the edge carries one of them. *)
Lemma land_bump_0 m r w : 0 <= m < 64 -> 0 <= r < 32 ->
  Z.land (bump r w) m = 0 <-> Z.land w m = 0 /\ Z.land r m = 0.
Proof.
  intros Hm Hr. split.
  - intros H0. split; apply Z.bits_inj'; intros n Hn; rewrite Z.bits_0;
      apply (f_equal (fun z => Z.testbit z n)) in H0; revert H0;
      rewrite !Z.land_spec, Z.bits_0, bump_spec by done;
      (destruct (Z.ltb_spec n 6);
       [destruct (Z.testbit w n), (Z.testbit r n), (Z.testbit m n); done
       |intros _; rewrite (testbit_small m 6) by lia; by rewrite andb_false_r]).
  - intros [Hw Hr0]. apply Z.bits_inj'. intros n Hn. rewrite Z.bits_0.
    apply (f_equal (fun z => Z.testbit z n)) in Hw, Hr0. revert Hw Hr0.
    rewrite !Z.land_spec, Z.bits_0, bump_spec by done.
    destruct (Z.ltb_spec n 6);
      [by destruct (Z.testbit w n), (Z.testbit r n), (Z.testbit m n)|].
    intros _ _. rewrite (testbit_small m 6) by lia. by rewrite andb_false_r.
Qed.

(** ** Edges against clears *)

(** The poller delivers edges one after the other. *)
Definition edges (l : list Z) (io : ScheduledIO) : ScheduledIO :=
  fold_left (fun io r => set_readiness r io) l io.

Definition edge_ok (r : Z) : Prop := 0 <= r < 32.

Lemma edges_tick l io : Forall edge_ok l ->
  tick_of (readiness (edges l io)) = (tick_of (readiness io) + Z.of_nat (length l)) mod 256.
Proof.
  intros Hl. revert io. induction Hl as [|r l Hr Hl IH]; intros io; simpl.
  - rewrite Z.add_0_r, Z.mod_small; [done|]. apply tick_of_bound.
  - rewrite IH. unfold set_readiness. simpl. rewrite bump_tick by done. unfold u8_add.
    rewrite Zplus_mod_idemp_l. f_equal. lia.
Qed.

Lemma edges_frame l io :
  tick_r (edges l io) = tick_r io /\ tick_w (edges l io) = tick_w io /\
  reader (edges l io) = reader io /\ writer (edges l io) = writer io.
Proof.
  revert io. induction l as [|r l IH]; intros io; [done|].
  by destruct (IH (set_readiness r io)) as (? & ? & ? & ?).
Qed.

Lemma tick_shifted a k : 0 <= a < 256 -> 0 < k < 256 -> (a + k) mod 256 <> a.
Proof.
  intros Ha Hk Heq. destruct (Z.lt_ge_cases (a + k) 256).
  - rewrite Z.mod_small in Heq; lia.
  - replace (a + k) with ((a + k - 256) + 1 * 256) in Heq by lia.
    rewrite Z_mod_plus_full, Z.mod_small in Heq; lia.
Qed.

Lemma readiness_from_event_ok e : edge_ok (readiness_from_event e).
Proof. destruct e as [[] [] [] [] []]; by vm_compute. Qed.

(** What [clear] with the tick noted by [arm] does to the word, whatever edges
    arrived in between (fewer than a full turn of the 8-bit tick). *)
Lemma clear_after_edges mask t l io :
  t = tick_of (readiness io) -> Forall edge_ok l -> Z.of_nat (length l) < 256 ->
  clear mask t (edges l io) =
  match l with
  | [] => with_readiness (Z.ldiff (readiness io) mask) io
  | _ => edges l io
  end.
Proof.
  intros -> Hl Hlen. unfold clear. rewrite edges_tick by done.
  pose proof (tick_of_bound (readiness io)) as Hb.
  destruct l as [|r l]; simpl length in *.
  - simpl. rewrite Z.add_0_r, Z.mod_small, Z.eqb_refl; done.
  - destruct (Z.eqb_spec ((tick_of (readiness io) + Z.of_nat (S (length l))) mod 256)
      (tick_of (readiness io))) as [Heq|_]; [|done].
    exfalso. eapply (tick_shifted _ (Z.of_nat (S (length l)))); [|split|exact Heq]; [done|lia|lia].
Qed.

(** A task that found its descriptor readable and then saw [EAGAIN] clears
    exactly the read bits when no edge arrived since it armed, and clears nothing
    when one to 255 edges did: a readiness edge that races with the clear is never
    lost.  The write bit, the shutdown bit and the tick always survive. *)
Theorem clear_r_keeps_racing_edge e io io1 l :
  arm_r e io = (None, io1) -> Forall edge_ok l -> Z.of_nat (length l) < 256 ->
  let io2 := clear_r (edges l io1) in
  readiness io2 = (if decide (l = []) then Z.ldiff (readiness io) READ_ALL
                   else readiness (edges l io1)) /\
  Z.land (readiness io2) (Z.lor SHUTDOWN WRITABLE) =
    Z.land (readiness (edges l io1)) (Z.lor SHUTDOWN WRITABLE) /\
  tick_of (readiness io2) = tick_of (readiness (edges l io1)).
Proof.
  intros Harm Hl Hlen io2. unfold arm_r in Harm.
  destruct (arm READ_ALL e io) as [[?|] io'] eqn:Ha; simplify_eq.
  unfold arm in Ha. destruct (ready_or_shutdown _ _); simplify_eq.
  set (io1 := with_ticks _ _ _) in *.
  assert (tick_r (edges l io1) = tick_of (readiness io1)) as Ht by apply edges_frame.
  assert (io2 = match l with [] => with_readiness (Z.ldiff (readiness io1) READ_ALL) io1
                | _ => edges l io1 end) as ->.
  { unfold io2, clear_r. by rewrite clear_after_edges. }
  destruct l as [|r l]; [|by destruct (decide _)].
  destruct (decide _); [|done]. split_and!; [done| |].
  - simpl. apply Z.bits_inj'. intros n Hn.
    rewrite !Z.land_spec, Z.ldiff_spec.
    destruct (Z.testbit (Z.lor SHUTDOWN WRITABLE) n) eqn:Hb; [|by rewrite !andb_false_r].
    assert (Z.testbit READ_ALL n = false) as ->; [|by rewrite andb_true_r].
    assert (n = 1 \/ n = 5) as [->| ->]; [|done|done].
    destruct (Z.lt_ge_cases n 6); [|by rewrite (testbit_small _ 6) in Hb by (by vm_compute)].
    assert (n = 0 \/ n = 1 \/ n = 2 \/ n = 3 \/ n = 4 \/ n = 5) as Hcases by lia.
    destruct Hcases as [->|[->|[->|[->|[->| ->]]]]]; auto; by vm_compute in Hb.
  - simpl. by rewrite ldiff_tick.
Qed.

Lemma clear_r_keeps_racing_edge_witness :
  readiness (clear_r (edges [READABLE] (snd (arm_r 7 (set_readiness READABLE (io_new 3)))))) = 129.
Proof.
  pose proof (clear_r_keeps_racing_edge 7 (set_readiness READABLE (io_new 3))
    (snd (arm_r 7 (set_readiness READABLE (io_new 3)))) [READABLE] eq_refl) as Hthm.
  destruct Hthm as [Hw _]; [repeat constructor; by vm_compute|by vm_compute|].
  rewrite Hw. by vm_compute.
Defined.
