(* ===== verification/Arming.v ===== *)
(** * Arming a descriptor against the poller

    [ScheduledIO::arm] and [ScheduledIO::wake] of [src/src/io/schedule.rs], with the
    dispatch loop of [Runtime::poll] and [Runtime::io_deregister] of
    [src/src/runtime.rs], at the granularity of their atomic accesses: every load, every
    read-modify-write of the readiness word and every acquisition of the slots'
    mutex is one operation, and tasks and poller interleave freely.  The theorem is
    the claim of the comments in [arm] and [set_readiness]: no wakeup is lost. *)

From stdpp Require Import base numbers list gmap.
From Stdlib Require Import ZArith Lia.
From ITree Require Import ITree ITreeFacts.
From S2P Require Import Prelude Coro SchedIO.

Open Scope Z_scope.

(** ** Atomic accesses *)

Variant ioE : Type -> Type :=
| LoadReadiness : ioE Z
| NewEvent : ioE nat
| LockWaiters : ioE unit
| UnlockWaiters : ioE unit
| InstallSlot (mask : Z) (e : nat) : ioE unit
| FetchBump (ready : Z) : ioE unit
| FetchShutdown : ioE unit
| FetchClear (ready tick : Z) : ioE unit
| TakeSlots (ready : Z) : ioE (option nat * option nat)
| AddIoHandle (e : nat) : ioE unit.

(** The entry, the mutex of its slots, the events handed to the work queue by
    [add_io_handle] and a supply of fresh events. *)
Record shared := mkSh {
  sh_io : ScheduledIO; sh_lock : bool; fired : list nat; fresh : nat
}.

Definition sh_with_io (io : ScheduledIO) (s : shared) : shared :=
  mkSh io (sh_lock s) (fired s) (fresh s).
Definition sh_with_lock (b : bool) (s : shared) : shared :=
  mkSh (sh_io s) b (fired s) (fresh s).

Definition io_sem (X : Type) (tid : nat) (e : ioE X) (s : shared) (x : X) (s' : shared) : Prop :=
  match e in ioE X return X -> Prop with
  | LoadReadiness => fun x => x = readiness (sh_io s) /\ s' = s
  | NewEvent => fun x => x = fresh s /\ s' = mkSh (sh_io s) (sh_lock s) (fired s) (S (fresh s))
  | LockWaiters => fun _ => sh_lock s = false /\ s' = sh_with_lock true s
  | UnlockWaiters => fun _ => s' = sh_with_lock false s
  | InstallSlot mask e => fun _ => s' = sh_with_io (set_slot mask e (sh_io s)) s
  | FetchBump ready => fun _ => s' = sh_with_io (set_readiness ready (sh_io s)) s
  | FetchShutdown => fun _ =>
      s' = sh_with_io (with_readiness (Z.lor (readiness (sh_io s)) SHUTDOWN) (sh_io s)) s
  | FetchClear ready tick => fun _ => s' = sh_with_io (clear ready tick (sh_io s)) s
  | TakeSlots ready => fun x =>
      x = fst (wake ready (sh_io s)) /\ s' = sh_with_io (snd (wake ready (sh_io s))) s
  | AddIoHandle e => fun _ => s' = mkSh (sh_io s) (sh_lock s) (e :: fired s) (fresh s)
  end x.

(** ** The code *)

Notation "'do!' x ':=' c 'in' k" := (ITree.bind (ITree.trigger c) (fun x => k))
  (at level 10, x binder, k at level 200) : tonio_scope.
Open Scope tonio_scope.

(** [ScheduledIO::arm]: check, then lock, check again and install. *)
Definition arm_atomic (mask : Z) : itree ioE (option nat) :=
  do! w := LoadReadiness in
  if ready_or_shutdown mask w then Ret None
  else
    do! e := NewEvent in
    do! _ := LockWaiters in
    do! w := LoadReadiness in
    if ready_or_shutdown mask w then do! _ := UnlockWaiters in Ret None
    else
      do! _ := InstallSlot mask e in
      do! _ := UnlockWaiters in
      Ret (Some e).

(** The tail of a dispatch: schedule the handles of the events taken. *)
Fixpoint add_io_handles (l : list nat) : itree ioE (option nat) :=
  match l with
  | [] => Ret None
  | e :: l => do! _ := AddIoHandle e in add_io_handles l
  end.

(** [ScheduledIO::wake], then the two [add_io_handle]. *)
Definition wake_atomic (ready : Z) : itree ioE (option nat) :=
  do! _ := LockWaiters in
  do! slots := TakeSlots ready in
  do! _ := UnlockWaiters in
  add_io_handles (option_list (fst slots) ++ option_list (snd slots)).

(** One event of the poll batch: [set_readiness], then [wake]. *)
Definition dispatch_atomic (ready : Z) : itree ioE (option nat) :=
  do! _ := FetchBump ready in wake_atomic ready.

(** [ScheduledIO::shutdown] and the handles of [io_deregister]. *)
Definition shutdown_atomic : itree ioE (option nat) :=
  do! _ := FetchShutdown in wake_atomic (Z.lor READ_ALL WRITE_ALL).

Definition clear_atomic (ready tick : Z) : itree ioE (option nat) :=
  do! _ := FetchClear ready tick in Ret None.

(** What a thread may do with the entry.  [true] is the read direction. *)
Inductive job : Type :=
| Arm (d : bool)
| Dispatch (ev : mio_event)
| Shutdown
| Clear (ready tick : Z).

Definition dmask (d : bool) : Z := if d then READ_ALL else WRITE_ALL.
Definition slot_of (d : bool) (io : ScheduledIO) : option nat :=
  if d then reader io else writer io.

Definition job_tree (j : job) : itree ioE (option nat) :=
  match j with
  | Arm d => arm_atomic (dmask d)
  | Dispatch ev => dispatch_atomic (readiness_from_event ev)
  | Shutdown => shutdown_atomic
  | Clear ready tick => clear_atomic ready tick
  end.

(** ** The control points *)

Inductive phase : Type :=
| A0 (d : bool)
| A1 (d : bool)
| A2 (d : bool) (e : nat)
| A3 (d : bool) (e : nat)
| A4 (d : bool) (e : nat)
| A5 (d : bool) (r : option nat)
| ADone (d : bool) (r : option nat)
| P0 (r : Z)
| P0s
| P1 (r : Z)
| P2 (r : Z)
| P3 (l : list nat)
| P4 (l : list nat)
| K0 (r t : Z).

Definition tree_of (p : phase) : itree ioE (option nat) :=
  match p with
  | A0 d => arm_atomic (dmask d)
  | A1 d =>
      do! e := NewEvent in
      do! _ := LockWaiters in
      do! w := LoadReadiness in
      if ready_or_shutdown (dmask d) w then do! _ := UnlockWaiters in Ret None
      else do! _ := InstallSlot (dmask d) e in do! _ := UnlockWaiters in Ret (Some e)
  | A2 d e =>
      do! _ := LockWaiters in
      do! w := LoadReadiness in
      if ready_or_shutdown (dmask d) w then do! _ := UnlockWaiters in Ret None
      else do! _ := InstallSlot (dmask d) e in do! _ := UnlockWaiters in Ret (Some e)
  | A3 d e =>
      do! w := LoadReadiness in
      if ready_or_shutdown (dmask d) w then do! _ := UnlockWaiters in Ret None
      else do! _ := InstallSlot (dmask d) e in do! _ := UnlockWaiters in Ret (Some e)
  | A4 d e => do! _ := InstallSlot (dmask d) e in do! _ := UnlockWaiters in Ret (Some e)
  | A5 d r => do! _ := UnlockWaiters in Ret r
  | ADone d r => Ret r
  | P0 r => dispatch_atomic r
  | P0s => shutdown_atomic
  | P1 r => wake_atomic r
  | P2 r =>
      do! slots := TakeSlots r in
      do! _ := UnlockWaiters in
      add_io_handles (option_list (fst slots) ++ option_list (snd slots))
  | P3 l => do! _ := UnlockWaiters in add_io_handles l
  | P4 l => add_io_handles l
  | K0 r t => clear_atomic r t
  end.

Definition taken (r : Z) (io : ScheduledIO) : list nat :=
  option_list (fst (fst (wake r io))) ++ option_list (snd (fst (wake r io))).

Inductive phase_step (s : shared) : phase -> phase -> shared -> Prop :=
| ps_A0_ready d : ready_or_shutdown (dmask d) (readiness (sh_io s)) = true ->
    phase_step s (A0 d) (ADone d None) s
| ps_A0 d : ready_or_shutdown (dmask d) (readiness (sh_io s)) = false ->
    phase_step s (A0 d) (A1 d) s
| ps_A1 d : phase_step s (A1 d) (A2 d (fresh s))
    (mkSh (sh_io s) (sh_lock s) (fired s) (S (fresh s)))
| ps_A2 d e : sh_lock s = false -> phase_step s (A2 d e) (A3 d e) (sh_with_lock true s)
| ps_A3_ready d e : ready_or_shutdown (dmask d) (readiness (sh_io s)) = true ->
    phase_step s (A3 d e) (A5 d None) s
| ps_A3 d e : ready_or_shutdown (dmask d) (readiness (sh_io s)) = false ->
    phase_step s (A3 d e) (A4 d e) s
| ps_A4 d e : phase_step s (A4 d e) (A5 d (Some e))
    (sh_with_io (set_slot (dmask d) e (sh_io s)) s)
| ps_A5 d r : phase_step s (A5 d r) (ADone d r) (sh_with_lock false s)
| ps_P0 r : phase_step s (P0 r) (P1 r) (sh_with_io (set_readiness r (sh_io s)) s)
| ps_P0s : phase_step s P0s (P1 (Z.lor READ_ALL WRITE_ALL))
    (sh_with_io (with_readiness (Z.lor (readiness (sh_io s)) SHUTDOWN) (sh_io s)) s)
| ps_P1 r : sh_lock s = false -> phase_step s (P1 r) (P2 r) (sh_with_lock true s)
| ps_P2 r : phase_step s (P2 r) (P3 (taken r (sh_io s)))
    (sh_with_io (snd (wake r (sh_io s))) s)
| ps_P3 l : phase_step s (P3 l) (P4 l) (sh_with_lock false s)
| ps_P4 e l : phase_step s (P4 (e :: l)) (P4 l)
    (mkSh (sh_io s) (sh_lock s) (e :: fired s) (fresh s))
| ps_K0 r t : phase_step s (K0 r t) (P4 []) (sh_with_io (clear r t (sh_io s)) s).

(** Every step of a task's code is a step between control points. *)
Lemma arming_tree_step p i t s t' s' :
  t ≅ tree_of p -> tstep io_sem i t s t' s' ->
  exists p', t' ≅ tree_of p' /\ phase_step s p p' s'.
Proof.
  intros Ht Hs.
  assert (forall X (e : ioE X) k, tree_of p ≅ Vis e k ->
    exists x, t' ≅ k x /\ io_sem X i e s x s') as Hvis.
  { intros X e k He. eapply (tstep_Vis_inv io_sem i t); [by etransitivity|done]. }
  destruct p as [d|d|d e|d e|d e|d r|d r|r| |r|r|l|[|e l]|r tk];
    simpl in Hvis;
    try (edestruct Hvis as (x & Hk & Hsem);
         [unfold arm_atomic, dispatch_atomic, shutdown_atomic, wake_atomic, clear_atomic;
          simpl; apply bind_trigger|]; simpl in Hsem);
    try (exfalso; by eapply tstep_Ret_inv).
  - destruct Hsem as [-> ->]. destruct (ready_or_shutdown _ _) eqn:Hr.
    + exists (ADone d None). split; [done|by constructor].
    + exists (A1 d). split; [done|by constructor].
  - destruct Hsem as [-> ->]. exists (A2 d (fresh s)). split; [done|constructor].
  - destruct Hsem as [? ->]. exists (A3 d e). split; [done|by constructor].
  - destruct Hsem as [-> ->]. destruct (ready_or_shutdown _ _) eqn:Hr.
    + exists (A5 d None). split; [done|by constructor].
    + exists (A4 d e). split; [done|by constructor].
  - subst s'. exists (A5 d (Some e)). split; [done|constructor].
  - subst s'. exists (ADone d r). split; [done|constructor].
  - subst s'. exists (P1 r). split; [done|constructor].
  - subst s'. exists (P1 (Z.lor READ_ALL WRITE_ALL)). split; [done|constructor].
  - destruct Hsem as [? ->]. exists (P2 r). split; [done|by constructor].
  - destruct Hsem as [-> ->]. exists (P3 (taken r (sh_io s))). split; [done|constructor].
  - subst s'. exists (P4 l). split; [done|constructor].
  - subst s'. exists (P4 l). split; [done|constructor].
  - subst s'. exists (P4 []). split; [done|constructor].
Qed.

(** ** The invariant *)

Definition holds (p : phase) : bool :=
  match p with A3 _ _ | A4 _ _ | A5 _ _ | P2 _ | P3 _ => true | _ => false end.

(** A dispatch that has published readiness of direction [d] and not yet taken
    the slots. *)
Definition pending (d : bool) (p : phase) : bool :=
  match p with P1 r | P2 r => negb (Z.land r (dmask d) =? 0) | _ => false end.

Definition installing (d : bool) (p : phase) : bool :=
  match p with A4 d' _ => eqb d d' | _ => false end.

(** The phases of a task that arms direction [d]. *)
Definition arms (d : bool) (p : phase) : bool :=
  match p with
  | A0 d' | A1 d' | A2 d' _ | A3 d' _ | A4 d' _ | A5 d' _ | ADone d' _ => eqb d d'
  | _ => false
  end.

Definition to_fire (p : phase) : list nat :=
  match p with P3 l | P4 l => l | _ => [] end.

(** The direction is quiet, or somebody will look at its slot. *)
Definition covered (d : bool) (ps : list phase) (w : Z) : Prop :=
  ready_or_shutdown (dmask d) w = false \/ exists i p, ps !! i = Some p /\ pending d p = true.

(** The event [e] is parked in the slot, taken, or scheduled. *)
Definition accounted (d : bool) (e : nat) (ps : list phase) (s : shared) : Prop :=
  slot_of d (sh_io s) = Some e \/
  (exists i p, ps !! i = Some p /\ e ∈ to_fire p) \/ e ∈ fired s.

Definition phase_ok (p : phase) : Prop :=
  match p with P0 r => edge_ok r | _ => True end.

Record inv (ps : list phase) (s : shared) : Prop := {
  inv_ok : Forall phase_ok ps;
  inv_lock : countb holds ps = (if sh_lock s then 1 else 0)%nat;
  inv_slot : forall d,
    slot_of d (sh_io s) <> None \/ (exists i p, ps !! i = Some p /\ installing d p = true) ->
    covered d ps (readiness (sh_io s));
  inv_ret : forall i d e,
    ps !! i = Some (A5 d (Some e)) \/ ps !! i = Some (ADone d (Some e)) ->
    (forall j p, ps !! j = Some p -> arms d p = true -> j = i) ->
    accounted d e ps s
}.

(** *** Facts on the masks *)

Lemma dmask_bound d : 0 <= Z.lor (dmask d) SHUTDOWN < 64.
Proof. destruct d; by vm_compute. Qed.

Lemma ready_bump d r w : edge_ok r -> Z.land r (dmask d) = 0 ->
  ready_or_shutdown (dmask d) (bump r w) = ready_or_shutdown (dmask d) w.
Proof.
  intros Hr H0. unfold ready_or_shutdown. f_equal. apply eq_bool_prop_intro.
  assert (Z.land r (Z.lor (dmask d) SHUTDOWN) = 0) as Hr0.
  { rewrite Z.land_lor_distr_r, H0. change SHUTDOWN with (2 ^ 5).
    apply Z.bits_inj'. intros n Hn. rewrite Z.lor_spec, Z.land_spec, Z.bits_0, Z.pow2_bits_eqb by lia.
    destruct (Z.eqb_spec 5 n) as [<-|]; [|by rewrite andb_false_r].
    by rewrite (testbit_small r 5). }
  rewrite !Is_true_true, !Z.eqb_eq, land_bump_0 by (done || apply dmask_bound). tauto.
Qed.

Lemma ready_clear d m t io :
  ready_or_shutdown (dmask d) (readiness io) = false ->
  ready_or_shutdown (dmask d) (readiness (clear m t io)) = false.
Proof.
  unfold ready_or_shutdown, clear. destruct (negb (_ =? t)); [done|]. simpl.
  rewrite !negb_false_iff, !Z.eqb_eq. intros H0. apply Z.bits_inj'. intros n Hn.
  apply (f_equal (fun z => Z.testbit z n)) in H0. revert H0.
  rewrite !Z.land_spec, Z.ldiff_spec, Z.bits_0.
  by destruct (Z.testbit (readiness io) n), (Z.testbit (Z.lor _ _) n), (Z.testbit m n).
Qed.

Lemma slot_set_slot d d' e io :
  slot_of d (set_slot (dmask d') e io) = if eqb d d' then Some e else slot_of d io.
Proof. by destruct d, d'. Qed.

Lemma readiness_set_slot m e io : readiness (set_slot m e io) = readiness io.
Proof. unfold set_slot. by destruct (negb _). Qed.

Lemma slot_clear d m t io : slot_of d (clear m t io) = slot_of d io.
Proof. unfold clear. destruct (negb _); by destruct d. Qed.

Lemma slot_wake d r io :
  slot_of d (snd (wake r io)) = if Z.land r (dmask d) =? 0 then slot_of d io else None.
Proof. by destruct d; simpl; destruct (_ =? 0). Qed.

Lemma slot_wake_taken d r e io :
  Z.land r (dmask d) <> 0 -> slot_of d io = Some e -> e ∈ taken r io.
Proof.
  intros Hr%Z.eqb_neq He. unfold taken. apply elem_of_app.
  destruct d; simpl in *; rewrite Hr, He; [left|right]; by apply list_elem_of_singleton.
Qed.

Lemma pending_shutdown d : pending d (P1 (Z.lor READ_ALL WRITE_ALL)) = true.
Proof. by destruct d. Qed.

(** *** Preservation *)

Lemma covered_mono d ps i p p' w w' :
  ps !! i = Some p -> covered d ps w ->
  (pending d p = true -> pending d p' = true) ->
  (ready_or_shutdown (dmask d) w = false ->
     ready_or_shutdown (dmask d) w' = false \/ pending d p' = true) ->
  covered d (<[i:=p']> ps) w'.
Proof.
  intros Hi Hc Hp Hw.
  assert ((<[i:=p']> ps) !! i = Some p') as Hi'.
  { apply list_lookup_insert_eq. by eapply lookup_lt_Some. }
  assert (pending d p' = true -> covered d (<[i:=p']> ps) w') as Hown by (right; eauto).
  destruct Hc as [Hr|(j & q & Hj & Hq)].
  - destruct (Hw Hr); [by left|auto].
  - destruct (decide (i = j)) as [<-|Hne]; simplify_eq; [auto|].
    right. exists j, q. by rewrite list_lookup_insert_ne.
Qed.

Lemma accounted_mono d e ps i p p' s s' :
  ps !! i = Some p -> accounted d e ps s ->
  (slot_of d (sh_io s) = Some e -> slot_of d (sh_io s') = Some e \/ e ∈ to_fire p') ->
  (e ∈ to_fire p -> e ∈ to_fire p' \/ e ∈ fired s') ->
  fired s ⊆ fired s' ->
  accounted d e (<[i:=p']> ps) s'.
Proof.
  intros Hi Ha Hs Hf Hsub.
  assert ((<[i:=p']> ps) !! i = Some p') as Hi'.
  { apply list_lookup_insert_eq. by eapply lookup_lt_Some. }
  unfold accounted. destruct Ha as [Ha|[(j & q & Hj & Hq)|Ha]].
  - destruct (Hs Ha); [by left|right; left; eauto].
  - destruct (decide (i = j)) as [<-|Hne]; simplify_eq.
    + destruct (Hf Hq); [right; left; eauto|by right; right].
    + right; left. exists j, q. by rewrite list_lookup_insert_ne.
  - right; right. by apply Hsub.
Qed.

Lemma installing_holds d p : installing d p = true -> holds p = true.
Proof. by destruct p. Qed.

Lemma step_arms d s p p' s' : phase_step s p p' s' -> arms d p' = arms d p.
Proof. by destruct 1. Qed.

Lemma step_fired s p p' s' : phase_step s p p' s' -> fired s ⊆ fired s'.
Proof. destruct 1; try set_solver. Qed.

Lemma step_to_fire s p p' s' : phase_step s p p' s' ->
  forall e, e ∈ to_fire p -> e ∈ to_fire p' \/ e ∈ fired s'.
Proof.
  destruct 1; simpl; intros x; rewrite ?elem_of_cons, ?elem_of_nil; tauto || auto.
Qed.

Lemma step_lock ps s i p p' s' :
  countb holds ps = (if sh_lock s then 1 else 0)%nat -> ps !! i = Some p ->
  phase_step s p p' s' ->
  countb holds (<[i:=p']> ps) = (if sh_lock s' then 1 else 0)%nat.
Proof.
  intros Hc Hi Hs. pose proof (countb_insert holds ps i p p' Hi) as Hn.
  pose proof (countb_lookup_pos holds ps i p Hi) as Hpos.
  destruct Hs; simpl in *; try specialize (Hpos eq_refl);
    repeat match goal with H : sh_lock _ = _ |- _ => rewrite H in * end; 
    destruct (sh_lock s); lia.
Qed.

Lemma step_slot ps s i p p' s' :
  inv ps s -> ps !! i = Some p -> phase_step s p p' s' ->
  forall d, slot_of d (sh_io s') <> None \/
    (exists j q, <[i:=p']> ps !! j = Some q /\ installing d q = true) ->
  covered d (<[i:=p']> ps) (readiness (sh_io s')).
Proof.
  intros [Hok Hlock Hslot _] Hi Hs d Hpre.
  (* a phase other than the stepping one that is installing was so before *)
  assert (installing d p' = false ->
    (exists j q, <[i:=p']> ps !! j = Some q /\ installing d q = true) ->
    exists j q, ps !! j = Some q /\ installing d q = true /\ j <> i) as Hinst.
  { intros Hf (j & q & Hj & Hq). destruct (decide (i = j)) as [<-|Hne].
    - rewrite list_lookup_insert_eq in Hj by (by eapply lookup_lt_Some). congruence.
    - rewrite list_lookup_insert_ne in Hj by done. eauto. }
  assert (sh_io s' = sh_io s -> installing d p' = false ->
    (pending d p = true -> pending d p' = true) ->
    covered d (<[i:=p']> ps) (readiness (sh_io s'))) as Hsame.
  { intros Heq Hf Hp. rewrite Heq in *. eapply covered_mono; [done| |done|by left].
    apply Hslot. destruct Hpre as [?|He]; [by left|right].
    destruct (Hinst Hf He) as (j & q & ? & ? & ?). eauto. }
  destruct Hs as [d' Hr|d' Hr|d'|d' e Hl|d' e Hr|d' e Hr|d' e|d' r|r| |r Hl|r|l|e l|r t];
    try (apply Hsame; done); clear Hsame.
  - (* A3: the re-check found the direction quiet *)
    destruct (eqb d d') eqn:Hd.
    + apply eqb_prop in Hd as ->. by left.
    + eapply covered_mono; [done| |done|by left]. apply Hslot.
      destruct Hpre as [?|He]; [by left|right].
      destruct (Hinst Hd He) as (j & q & ? & ? & ?). eauto.
  - (* A4: the slot is filled *)
    simpl. rewrite readiness_set_slot. eapply covered_mono; [done| |done|by left].
    apply Hslot. destruct Hpre as [Hne|He].
    + simpl in Hne. rewrite slot_set_slot in Hne. destruct (eqb d d') eqn:Hd; [|by left].
      right. exists i, (A4 d' e). by rewrite Hi.
    + right. destruct (Hinst eq_refl He) as (j & q & ? & ? & ?). eauto.
  - (* P0: an edge *)
    assert (edge_ok r) as Hr by (by apply (Forall_lookup_1 _ _ _ _ Hok Hi)).
    eapply covered_mono; [done| |done|].
    + apply Hslot. destruct Hpre as [Hne|He]; [left; by destruct d|right].
      destruct (Hinst eq_refl He) as (j & q & ? & ? & ?). eauto.
    + simpl. destruct (Z.eqb_spec (Z.land r (dmask d)) 0) as [H0|_]; [|by right].
      intros Hq. left. by rewrite ready_bump.
  - right. exists i, (P1 (Z.lor READ_ALL WRITE_ALL)). split; [|apply pending_shutdown].
    apply list_lookup_insert_eq. by eapply lookup_lt_Some.
  - (* P2: the slots are taken *)
    assert (~ exists j q, ps !! j = Some q /\ installing d q = true) as Hno.
    { intros (j & q & Hj & Hq). assert (i = j) as <-; [|by simplify_eq].
      eapply (countb_le1_unique holds); [|done|done|done|by eapply installing_holds].
      rewrite Hlock. destruct (sh_lock s); lia. }
    destruct Hpre as [Hne|He]; last first.
    { destruct Hno. destruct (Hinst eq_refl He) as (j & q & ? & ? & ?). eauto. }
    change (slot_of d (snd (wake r (sh_io s))) <> None) in Hne. rewrite slot_wake in Hne.
    destruct (Z.eqb_spec (Z.land r (dmask d)) 0) as [H0|H0]; [|done].
    eapply covered_mono; [done|apply Hslot; by left| |by left].
    simpl. by rewrite H0.
  - (* K0: bits are cleared *)
    eapply covered_mono; [done| |done|].
    + apply Hslot. destruct Hpre as [Hne|He].
      * left. simpl in Hne. by rewrite slot_clear in Hne.
      * right. destruct (Hinst eq_refl He) as (j & q & ? & ? & ?). eauto.
    + intros Hq. left. by apply ready_clear.
Qed.

Lemma step_ret ps s i p p' s' :
  inv ps s -> ps !! i = Some p -> phase_step s p p' s' ->
  forall k d e,
    <[i:=p']> ps !! k = Some (A5 d (Some e)) \/ <[i:=p']> ps !! k = Some (ADone d (Some e)) ->
    (forall j q, <[i:=p']> ps !! j = Some q -> arms d q = true -> j = k) ->
    accounted d e (<[i:=p']> ps) s'.
Proof.
  intros Hinv Hi Hs k d e Hk Hsole. pose proof (step_fired _ _ _ _ Hs) as Hf.
  pose proof (lookup_lt_Some _ _ _ Hi) as Hlt.
  assert (forall j q, ps !! j = Some q -> arms d q = true -> j = k) as Hsole0.
  { intros j q Hj Hq. destruct (decide (i = j)) as [<-|Hne]; simplify_eq.
    - apply (Hsole i p'); [by apply list_lookup_insert_eq|].
      by rewrite (step_arms _ _ _ _ _ Hs).
    - apply (Hsole j q); [by rewrite list_lookup_insert_ne|done]. }
  assert (ps !! k = Some (A5 d (Some e)) \/ ps !! k = Some (ADone d (Some e)) \/
          p = A4 d e /\ k = i) as Hold.
  { destruct (decide (i = k)) as [<-|Hne].
    - rewrite list_lookup_insert_eq in Hk by done.
      destruct Hk as [[= ->]|[= ->]]; inversion Hs; subst; auto.
    - rewrite list_lookup_insert_ne in Hk by done. tauto. }
  destruct Hold as [Hold|[Hold|[-> ->]]]; last first.
  { (* the event has just been installed *)
    inv Hs. left. simpl. rewrite slot_set_slot. by rewrite eqb_reflx. }
  all: assert (accounted d e ps s) as Ha by (by eapply (inv_ret _ _ Hinv); eauto).
  all: eapply accounted_mono; [done|done| |..|done];
    [|by apply (step_to_fire _ _ _ _ Hs)].
  all: intros Hsl; destruct Hs as [| | | | | |d' e'| | | | |r| | |]; try (by left);
    try (by left; destruct d; simpl; destruct (negb _)).
  all: try (left; simpl; rewrite slot_clear; done).
  all: try (left; simpl; rewrite slot_set_slot; destruct (eqb d d') eqn:Hd; [|done];
    apply eqb_prop in Hd as ->; exfalso;
    assert (i = k) as -> by (by eapply Hsole0; [done|simpl; apply eqb_reflx]); congruence).
  all: change (slot_of d (snd (wake r (sh_io s))) = Some e \/ e ∈ taken r (sh_io s));
    rewrite slot_wake; destruct (Z.eqb_spec (Z.land r (dmask d)) 0);
    [by left|right; by eapply slot_wake_taken].
Qed.

Lemma arming_inv_step ps s i p p' s' :
  inv ps s -> ps !! i = Some p -> phase_step s p p' s' -> inv (<[i:=p']> ps) s'.
Proof.
  intros Hinv Hi Hs. split.
  - apply Forall_insert; [apply Hinv|]. destruct Hs; done.
  - eapply step_lock; [apply Hinv|done|done].
  - by eapply step_slot.
  - by eapply step_ret.
Qed.

(** ** No lost wakeup *)

Definition phase_of_job (j : job) : phase :=
  match j with
  | Arm d => A0 d
  | Dispatch ev => P0 (readiness_from_event ev)
  | Shutdown => P0s
  | Clear r t => K0 r t
  end.

Definition sh_init (io : ScheduledIO) : shared := mkSh io false [] 0.

Lemma arming_inv_init jobs io :
  reader io = None -> writer io = None -> inv (phase_of_job <$> jobs) (sh_init io).
Proof.
  intros Hr Hw. split.
  - apply Forall_fmap, Forall_true. intros []; try done. apply readiness_from_event_ok.
  - simpl. induction jobs as [|[] jobs IH]; done.
  - intros d [Hd|(i & p & Hp & Hq)]; [by destruct d|].
    apply list_lookup_fmap_Some in Hp as ([] & -> & ?); done.
  - intros i d e [Hp|Hp]; apply list_lookup_fmap_Some in Hp as ([] & ? & ?); done.
Qed.

(** Task [j] arms direction [d] exactly when its job says so. *)
Definition jobs_match (jobs : list job) (ps : list phase) : Prop :=
  forall j p, ps !! j = Some p -> forall d, arms d p = true <-> jobs !! j = Some (Arm d).

Lemma jobs_match_init jobs : jobs_match jobs (phase_of_job <$> jobs).
Proof.
  intros j p Hp d. apply list_lookup_fmap_Some in Hp as (jb & -> & ->).
  destruct jb as [d'| | |]; simpl; try done. rewrite eqb_true_iff.
  split; [by intros ->|by intros [= ->]].
Qed.

Lemma jobs_match_step jobs ps i p p' s s' :
  jobs_match jobs ps -> ps !! i = Some p -> phase_step s p p' s' ->
  jobs_match jobs (<[i:=p']> ps).
Proof.
  intros Hm Hi Hs j q Hj d. destruct (decide (i = j)) as [<-|Hne].
  - rewrite list_lookup_insert_eq in Hj by (by eapply lookup_lt_Some). simplify_eq.
    rewrite (step_arms _ _ _ _ _ Hs). by apply Hm.
  - rewrite list_lookup_insert_ne in Hj by done. by apply Hm.
Qed.

Definition finished (p : phase) : Prop :=
  match p with ADone _ _ => True | P4 l => l = [] | _ => False end.

Lemma tree_of_Ret p r : tree_of p ≅ Ret r -> finished p.
Proof.
  intros Hp. destruct p as [| | | | | | | | | | | |[|]|]; try done;
    exfalso; symmetry in Hp; eapply eq_Ret_Vis; (etransitivity; [exact Hp|]);
    simpl; apply bind_trigger.
Qed.

Lemma arms_Ret d p r : arms d p = true -> tree_of p ≅ Ret r -> p = ADone d r.
Proof.
  intros Ha Hp. pose proof (tree_of_Ret p r Hp) as Hf. destruct p; try done.
  simpl in *. apply eqb_prop in Ha as ->. by apply eq_Ret_inj in Hp as ->.
Qed.


