(* ===== verification/Sync.v ===== *)
(** * Locks, semaphores and barriers

    The primitives of [src/src/sync.rs] ([Lock], [Semaphore], [Barrier] and the
    context objects [LockCtx], [SemaphoreCtx]) and the coroutines of
    [src/tonio/_sync.py] built on them.  A waiter is the event it waits on; events are
    numbered, and the set of events whose flag is set is part of the shared state.
    Each method runs under the primitive's mutex and is one operation here. *)

From stdpp Require Import base numbers list gmap strings.
From Stdlib Require Import ZArith Lia.
From ITree Require Import ITree ITreeFacts.
From S2P Require Import Prelude Coro.

(** ** The wake loop shared by both [release] methods *)

(** Pop waiters until the [set] of one of them returns [true]: an event that is
    already set belongs to a task that gave up waiting. *)
Fixpoint set_first (flags : gset nat) (ws : list nat) : option (gset nat * list nat) :=
  match ws with
  | [] => None
  | e :: ws => if decide (e ∈ flags) then set_first flags ws else Some ({[e]} ∪ flags, ws)
  end.

Lemma set_first_Some flags ws flags' ws' :
  set_first flags ws = Some (flags', ws') ->
  exists pre e, ws = pre ++ e :: ws' /\ (Forall (.∈ flags) pre) /\ (e ∉ flags) /\
    flags' = {[e]} ∪ flags.
Proof.
  induction ws as [|e ws IH]; simpl; [done|]. case_decide as He.
  - intros (pre & x & -> & ? & ? & ?)%IH. exists (e :: pre), x. split_and!; auto.
  - intros [= <- <-]. exists [], e. split_and!; auto.
Qed.

Lemma set_first_None flags ws : set_first flags ws = None -> Forall (.∈ flags) ws.
Proof.
  induction ws as [|e ws IH]; simpl; [by constructor|]. case_decide; [|done]. auto.
Qed.

(** ** [Lock] *)

Record Lock := mkLock { lk_state : bool; lk_waiters : list nat }.

Definition Lock_new : Lock := mkLock false [].

(** [e] is the event the slow path creates. *)
Definition Lock_acquire (e : nat) (l : Lock) : option nat * Lock :=
  if lk_state l then
    (if lk_state l then (Some e, mkLock (lk_state l) (lk_waiters l ++ [e]))
     else (None, mkLock true (lk_waiters l)))
  else (None, mkLock true (lk_waiters l)).

Definition Lock_try_acquire (l : Lock) : result unit * Lock :=
  if lk_state l then (Err WouldBlock, l) else (Ok tt, mkLock true (lk_waiters l)).

Definition Lock_release (flags : gset nat) (l : Lock) : gset nat * Lock :=
  match set_first flags (lk_waiters l) with
  | Some (flags', ws) => (flags', mkLock (lk_state l) ws)
  | None => (flags, mkLock false [])
  end.

(** ** [Semaphore] *)

(** [as i32] of a [usize]. *)
Definition as_i32 (z : Z) : Z := (z + 2 ^ 31) mod 2 ^ 32 - 2 ^ 31.

Record Semaphore := mkSem { sm_value : Z; sm_waiters : list nat }.

Definition Semaphore_new (value : Z) : Semaphore := mkSem value [].

(** [state.0 as i32 - state.1.len() as i32]. *)
Definition Semaphore_avail (s : Semaphore) : Z :=
  as_i32 (as_i32 (sm_value s) - as_i32 (Z.of_nat (length (sm_waiters s)))).

Definition Semaphore_acquire (e : nat) (s : Semaphore) : option nat * Semaphore :=
  if (Semaphore_avail s <=? 0)%Z then (Some e, mkSem (sm_value s) (sm_waiters s ++ [e]))
  else (None, mkSem (sm_value s - 1) (sm_waiters s)).

Definition Semaphore_try_acquire (s : Semaphore) : result unit * Semaphore :=
  if (Semaphore_avail s <=? 0)%Z then (Err WouldBlock, s)
  else (Ok tt, mkSem (sm_value s - 1) (sm_waiters s)).

Definition Semaphore_release (flags : gset nat) (s : Semaphore) : gset nat * Semaphore :=
  match set_first flags (sm_waiters s) with
  | Some (flags', ws) => (flags', mkSem (sm_value s) ws)
  | None => (flags, mkSem (sm_value s + 1) [])
  end.

Definition Semaphore_tokens (s : Semaphore) : Z := sm_value s.

(** ** What a primitive with permits promises *)

(** The operations a client of a lock or a semaphore uses. *)
Class PermitOps (P : Type) := {
  p_acquire : nat -> P -> option nat * P;
  p_try_acquire : P -> result unit * P;
  p_release : gset nat -> P -> gset nat * P;
}.

(** The view of its state ([p_free] permits left, [p_queue] the waiting events) and
    the laws of the operations.  [p_ok] bounds the state by the width of its
    counters; a queue shorter than [2^31] is the client's obligation. *)
Class Permits (P : Type) `{PermitOps P} := {
  p_free : P -> nat;
  p_queue : P -> list nat;
  p_ok : nat -> P -> Prop;
  p_ok_free total p : p_ok total p -> p_free p <= total -> p_free p = 0 \/ p_queue p = [];
  p_acquire_some total e p :
    p_ok total p -> p_free p = 0 -> (Z.of_nat (length (p_queue p)) < 2 ^ 31)%Z ->
    exists p', p_acquire e p = (Some e, p') /\
      p_free p' = 0 /\ p_queue p' = p_queue p ++ [e] /\ p_ok total p';
  p_acquire_none total e p :
    p_ok total p -> 0 < p_free p <= total ->
    exists p', p_acquire e p = (None, p') /\
      S (p_free p') = p_free p /\ p_queue p' = p_queue p /\ p_ok total p';
  p_try_acquire_err total p :
    p_ok total p -> p_free p = 0 -> (Z.of_nat (length (p_queue p)) < 2 ^ 31)%Z ->
    p_try_acquire p = (Err WouldBlock, p);
  p_try_acquire_ok total p :
    p_ok total p -> 0 < p_free p <= total ->
    exists p', p_try_acquire p = (Ok tt, p') /\
      S (p_free p') = p_free p /\ p_queue p' = p_queue p /\ p_ok total p';
  p_release_some total flags p flags' ws :
    p_ok total p -> set_first flags (p_queue p) = Some (flags', ws) ->
    exists p', p_release flags p = (flags', p') /\
      p_free p' = p_free p /\ p_queue p' = ws /\ p_ok total p';
  p_release_none total flags p :
    p_ok total p -> S (p_free p) <= total -> set_first flags (p_queue p) = None ->
    exists p', p_release flags p = (flags, p') /\
      p_free p' = S (p_free p) /\ p_queue p' = [] /\ p_ok total p'
}.

#[export] Instance Lock_ops : PermitOps Lock := {
  p_acquire := Lock_acquire;
  p_try_acquire := Lock_try_acquire;
  p_release := Lock_release;
}.

#[export] Instance Semaphore_ops : PermitOps Semaphore := {
  p_acquire := Semaphore_acquire;
  p_try_acquire := Semaphore_try_acquire;
  p_release := Semaphore_release;
}.

#[local] Obligation Tactic := idtac.

Definition Lock_ok (total : nat) (l : Lock) : Prop :=
  total = 1 /\ (lk_state l = false -> lk_waiters l = []).

Definition Semaphore_ok (total : nat) (s : Semaphore) : Prop :=
  (Z.of_nat total < 2 ^ 31)%Z /\ (0 <= sm_value s <= Z.of_nat total)%Z /\
  ((0 < sm_value s)%Z -> sm_waiters s = []).

(** The state an operation leaves, and its well-formedness. *)
Ltac permit_step :=
  eexists; split; [reflexivity|]; unfold Lock_ok, Semaphore_ok; simpl;
  split_and!; try done; try lia.

#[export] Program Instance Lock_permits : Permits Lock := {
  p_free l := if lk_state l then 0 else 1;
  p_queue := lk_waiters;
  p_ok := Lock_ok;
}.
Next Obligation. intros total [[] q] [? Hq] ?; simpl in *; auto. Qed.
Next Obligation.
  intros total e [[] q] [-> Hq] Hf Hl; simpl in *; [|done].
  permit_step.
Qed.
Next Obligation.
  intros total e [[] q] [-> Hq] Hf; simpl in *; [lia|].
  permit_step.
Qed.
Next Obligation. intros total [[] q] [-> Hq] Hf Hl; simpl in *; done. Qed.
Next Obligation.
  intros total [[] q] [-> Hq] Hf; simpl in *; [lia|].
  permit_step.
Qed.
Next Obligation.
  intros total flags [b q] flags' ws [-> Hq] Hs; simpl in *.
  unfold Lock_release; simpl. rewrite Hs. exists (mkLock b ws). split_and!; try done.
  split; [done|]. simpl. intros ->. by rewrite Hq in Hs by done.
Qed.
Next Obligation.
  intros total flags [b q] [-> Hq] Hle Hs; simpl in *. destruct b; [|lia].
  unfold Lock_release; simpl. rewrite Hs. permit_step.
Qed.

Lemma as_i32_small z : (- 2 ^ 31 <= z < 2 ^ 31)%Z -> as_i32 z = z.
Proof. intros Hz. unfold as_i32. rewrite Z.mod_small; lia. Qed.

(** With both counters below [2^31] the test of [acquire] compares their values. *)
Lemma Semaphore_avail_small s :
  (0 <= sm_value s < 2 ^ 31)%Z -> (Z.of_nat (length (sm_waiters s)) < 2 ^ 31)%Z ->
  Semaphore_avail s = (sm_value s - Z.of_nat (length (sm_waiters s)))%Z.
Proof.
  intros Hv Hl. unfold Semaphore_avail.
  rewrite (as_i32_small (sm_value s)), (as_i32_small (Z.of_nat _)) by lia.
  apply as_i32_small. lia.
Qed.

(** At the width of the counter the promise breaks: a semaphore created with
    [2^31] tokens makes its very first user wait, although no token is in use. *)
Theorem Semaphore_width :
  Semaphore_tokens (Semaphore_new (2 ^ 31)) = (2 ^ 31)%Z /\
  fst (Semaphore_acquire 0 (Semaphore_new (2 ^ 31))) = Some 0 /\
  fst (Semaphore_acquire 0 (Semaphore_new (2 ^ 31 - 1))) = None.
Proof. done. Qed.

#[export] Program Instance Semaphore_permits : Permits Semaphore := {
  p_free s := Z.to_nat (sm_value s);
  p_queue := sm_waiters;
  p_ok := Semaphore_ok;
}.
Next Obligation.
  intros total [v q] (Ht & Hv & Hq) ?; simpl in *.
  destruct (decide (0 < v)%Z); [right; auto|left; lia].
Qed.
Next Obligation.
  intros total e [v q] (Ht & Hv & Hq) Hf Hl; simpl in *.
  unfold Semaphore_acquire. rewrite Semaphore_avail_small by (simpl; lia). simpl.
  destruct (Z.leb_spec (v - Z.of_nat (length q)) 0); [|lia].
  permit_step.
Qed.
Next Obligation.
  intros total e [v q] (Ht & Hv & Hq) Hf; simpl in *. rewrite Hq in * by lia.
  unfold Semaphore_acquire. rewrite Semaphore_avail_small by (simpl; lia). simpl.
  destruct (Z.leb_spec (v - Z.of_nat 0) 0); [lia|].
  permit_step.
Qed.
Next Obligation.
  intros total [v q] (Ht & Hv & Hq) Hf Hl; simpl in *.
  unfold Semaphore_try_acquire. rewrite Semaphore_avail_small by (simpl; lia). simpl.
  destruct (Z.leb_spec (v - Z.of_nat (length q)) 0); [done|lia].
Qed.
Next Obligation.
  intros total [v q] (Ht & Hv & Hq) Hf; simpl in *. rewrite Hq in * by lia.
  unfold Semaphore_try_acquire. rewrite Semaphore_avail_small by (simpl; lia). simpl.
  destruct (Z.leb_spec (v - Z.of_nat 0) 0); [lia|].
  permit_step.
Qed.
Next Obligation.
  intros total flags [v q] flags' ws (Ht & Hv & Hq) Hs; simpl in *.
  unfold Semaphore_release; simpl. rewrite Hs. exists (mkSem v ws). split_and!; try done.
  split_and!; simpl; try lia. intros Hp. by rewrite Hq in Hs by lia.
Qed.
Next Obligation.
  intros total flags [v q] (Ht & Hv & Hq) Hle Hs; simpl in *.
  unfold Semaphore_release; simpl. rewrite Hs. permit_step.
Qed.

(** ** The coroutines of [_sync.py] *)

Variant lockE : Type -> Type :=
| Acquire : lockE (option nat)
| TryAcquire : lockE (result unit)
| Await (e : nat) : lockE (result unit)
| EventSet (e : nat) : lockE bool
| Release : lockE unit
| Work : lockE (result unit).

Open Scope tonio_scope.

(** [self.acquire()], [self.try_acquire()], [yield event.waiter(None)],
    [event.set()], [self.release()] and the body of a [with] block. *)
Definition acquire : pyM lockE (option nat) := pop Acquire.
Definition try_acquire : pyM lockE unit := pcall TryAcquire.
Definition await (e : nat) : pyM lockE unit := pcall (Await e).
Definition event_set (e : nat) : pyM lockE bool := pop (EventSet e).
Definition release : pyM lockE unit := pop Release.
Definition work : pyM lockE unit := pcall Work.

(** The handler of [except _CancelledError]: give the permit back when the event
    turns out to be set already, then re-raise. *)
Definition cancel_wait {A} (e : nat) (x : exn) : option (pyM lockE A) :=
  if is_Cancelled x then
    Some (let! was_unset := event_set e in
          (if was_unset then pret tt else release) ;;;
          praise x)
  else None.

(** [Lock.__call__]: acquire, or wait for the hand-over. *)
Definition Lock_call : pyM lockE unit :=
  let! event := acquire in
  match event with
  | Some e => ptry (await e) (cancel_wait e)
  | None => pret tt
  end.

(** [Semaphore.__call__] *)
Definition Semaphore_call : pyM lockE unit :=
  let! event := acquire in
  match event with
  | Some e => ptry (await e) (cancel_wait e)
  | None => pret tt
  end.

(** [_LockImpl.or_raise] and [_SemaphoreImpl.or_raise]: no waiting. *)
Definition Lock_or_raise : pyM lockE unit := try_acquire.
Definition Semaphore_or_raise : pyM lockE unit := try_acquire.

(** [LockCtx] and [SemaphoreCtx]: a context is entered once; leaving it releases. *)
Definition LockCtx_enter (consumed : bool) : result unit * bool :=
  if consumed
  then (Err (RuntimeError "Cannot acquire the same lock ctx multiple times."), true)
  else (Ok tt, true).

Definition SemaphoreCtx_enter (consumed : bool) : result unit * bool :=
  if consumed
  then (Err (RuntimeError "Cannot acquire the same semaphore ctx multiple times."), true)
  else (Ok tt, true).

(** [with ctx: body] on a context in state [consumed]. *)
Definition with_lock (consumed : bool) (body : pyM lockE unit) : pyM lockE unit :=
  match fst (LockCtx_enter consumed) with
  | Ok _ => pfinally body release
  | Err x => praise x
  end.

Definition with_semaphore (consumed : bool) (body : pyM lockE unit) : pyM lockE unit :=
  match fst (SemaphoreCtx_enter consumed) with
  | Ok _ => pfinally body release
  | Err x => praise x
  end.

(** *** The [async with] variants of [src/tonio/_colored/_sync.py] *)
Module Colored.
Definition Lock_aenter : pyM lockE unit :=
  let! event := acquire in
  match event with
  | Some e => ptry (await e) (cancel_wait e)
  | None => pret tt
  end.

Definition Lock_aexit : pyM lockE unit := release.

Definition Semaphore_aenter : pyM lockE unit :=
  let! event := acquire in
  match event with
  | Some e => ptry (await e) (cancel_wait e)
  | None => pret tt
  end.

Definition Semaphore_aexit : pyM lockE unit := release.
End Colored.

(** A use of the primitive by a task: [with (yield lock()): ..],
    [with lock.or_raise(): ..] or [async with lock: ..]. *)
Inductive use : Set := UseCall | UseOrRaise | UseAsync.

Definition lock_use (u : use) : pyM lockE unit :=
  match u with
  | UseCall => Lock_call ;;; with_lock false work
  | UseOrRaise => Lock_or_raise ;;; with_lock false work
  | UseAsync => Colored.Lock_aenter ;;; pfinally work Colored.Lock_aexit
  end.

Definition semaphore_use (u : use) : pyM lockE unit :=
  match u with
  | UseCall => Semaphore_call ;;; with_semaphore false work
  | UseOrRaise => Semaphore_or_raise ;;; with_semaphore false work
  | UseAsync => Colored.Semaphore_aenter ;;; pfinally work Colored.Semaphore_aexit
  end.
