(* ===== verification/Permits.v ===== *)
(** * Tasks sharing a lock or a semaphore

    Any number of tasks use one primitive through the coroutines of
    [src/tonio/_sync.py], interleaved arbitrarily and cancelled at any point where they
    wait.  The invariant is proved once, for every instance of [Permits]: permits are
    neither lost nor duplicated, and no task waits while a permit is free. *)

From stdpp Require Import base numbers list gmap.
From Stdlib Require Import ZArith Lia.
From ITree Require Import ITree ITreeFacts.
From S2P Require Import Prelude Coro Sync.

Open Scope tonio_scope.
#[local] Set Warnings "-clear-no-such-hyp".

(** ** The shared state *)

Record pstate (P : Type) := mkPs { prim : P; flags : gset nat; next_ev : nat }.
Arguments mkPs {P} _ _ _.
Arguments prim {P} _.
Arguments flags {P} _.
Arguments next_ev {P} _.

(** The operations on it.  A wait on event [e] ends when [e] is set, or at any time
    with [CancelledError]; the body of a [with] block returns or raises anything. *)
Definition lock_sem {P} `{PermitOps P} (X : Type) (tid : nat) (e : lockE X)
    (s : pstate P) (x : X) (s' : pstate P) : Prop :=
  match e in lockE X return X -> Prop with
  | Acquire => fun x =>
      x = fst (p_acquire (next_ev s) (prim s)) /\
      s' = mkPs (snd (p_acquire (next_ev s) (prim s))) (flags s) (S (next_ev s))
  | TryAcquire => fun x =>
      x = fst (p_try_acquire (prim s)) /\
      s' = mkPs (snd (p_try_acquire (prim s))) (flags s) (next_ev s)
  | Await e => fun x => (x = Ok tt /\ e ∈ flags s \/ x = Err CancelledError) /\ s' = s
  | EventSet e => fun x =>
      x = bool_decide (e ∉ flags s) /\ s' = mkPs (prim s) ({[e]} ∪ flags s) (next_ev s)
  | Release => fun _ =>
      s' = mkPs (snd (p_release (flags s) (prim s))) (fst (p_release (flags s) (prim s))) (next_ev s)
  | Work => fun _ => s' = s
  end x.

(** ** Control points of a use *)

Inductive phase : Type :=
| C0
| T0
| C1 (e : nat)
| C2 (e : nat)
| C3
| C4
| C5 (r : result unit)
| Fin (r : result unit).

Definition tree_of (p : phase) : pyM lockE unit :=
  match p with
  | C0 => lock_use UseCall
  | T0 => lock_use UseOrRaise
  | C1 e => ptry (await e) (cancel_wait e) ;;; with_lock false work
  | C2 e =>
      (let! was_unset := event_set e in
       (if was_unset then pret tt else release) ;;; praise (A:=unit) CancelledError) ;;;
      with_lock false work
  | C3 => (release ;;; praise (A:=unit) CancelledError) ;;; with_lock false work
  | C4 => with_lock false work
  | C5 r => ITree.bind release (fun rf => match rf with Ok _ => Ret r | Err x => Ret (Err x) end)
  | Fin r => Ret r
  end.

Section Permits.
Context {P : Type} `{Permits P}.

Definition released (s : pstate P) : pstate P :=
  mkPs (snd (p_release (flags s) (prim s))) (fst (p_release (flags s) (prim s))) (next_ev s).

Inductive phase_step (s : pstate P) : phase -> phase -> pstate P -> Prop :=
| st_C0_ok p' : p_acquire (next_ev s) (prim s) = (None, p') ->
    phase_step s C0 C4 (mkPs p' (flags s) (S (next_ev s)))
| st_C0_wait e p' : p_acquire (next_ev s) (prim s) = (Some e, p') ->
    phase_step s C0 (C1 e) (mkPs p' (flags s) (S (next_ev s)))
| st_T0_ok p' : p_try_acquire (prim s) = (Ok tt, p') ->
    phase_step s T0 C4 (mkPs p' (flags s) (next_ev s))
| st_T0_err x p' : p_try_acquire (prim s) = (Err x, p') ->
    phase_step s T0 (Fin (Err x)) (mkPs p' (flags s) (next_ev s))
| st_C1_ok e : e ∈ flags s -> phase_step s (C1 e) C4 s
| st_C1_cancel e : phase_step s (C1 e) (C2 e) s
| st_C2_unset e : e ∉ flags s ->
    phase_step s (C2 e) (Fin (Err CancelledError)) (mkPs (prim s) ({[e]} ∪ flags s) (next_ev s))
| st_C2_set e : e ∈ flags s ->
    phase_step s (C2 e) C3 (mkPs (prim s) ({[e]} ∪ flags s) (next_ev s))
| st_C3 : phase_step s C3 (Fin (Err CancelledError)) (released s)
| st_C4 r : phase_step s C4 (C5 r) s
| st_C5 r : phase_step s (C5 r) (Fin r) (released s).

Lemma with_lock_work : with_lock false work ≅ Vis Work (fun r => tree_of (C5 r)).
Proof. apply pfinally_pcall. Qed.

Lemma permits_tree_step p i t s t' s' :
  t ≅ tree_of p -> tstep lock_sem i t s t' s' ->
  exists p', t' ≅ tree_of p' /\ phase_step s p p' s'.
Proof.
  intros Ht Hs.
  assert (forall X (e : lockE X) k, tree_of p ≅ Vis e k ->
    exists x, t' ≅ k x /\ lock_sem X i e s x s') as Hvis.
  { intros X e k He. eapply (tstep_Vis_inv lock_sem i t); [by etransitivity|done]. }
  destruct p as [| |e|e| | |r|r]; simpl in Hvis.
  - edestruct Hvis as (x & Hk & Hsem).
    { unfold Lock_call, acquire. rewrite pbind_assoc. apply pbind_pop. }
    simpl in Hsem, Hk. destruct Hsem as [-> ->].
    destruct (p_acquire (next_ev s) (prim s)) as [[e|] p'] eqn:Ha; simpl in *.
    + exists (C1 e). split; [done|by constructor].
    + exists C4. rewrite pbind_pret in Hk. split; [done|by constructor].
  - edestruct Hvis as (x & Hk & Hsem).
    { unfold Lock_or_raise, try_acquire. apply pbind_pcall. }
    simpl in Hsem, Hk. destruct Hsem as [-> ->].
    destruct (p_try_acquire (prim s)) as [[[]|x] p'] eqn:Ha; simpl in *.
    + exists C4. split; [done|by constructor].
    + exists (Fin (Err x)). split; [done|by constructor].
  - edestruct Hvis as (x & Hk & Hsem).
    { etransitivity; [eapply (pbind_eq _ _ _ (fun _ => with_lock false work));
        [apply ptry_else_pcall|reflexivity]|].
      apply pbind_vis. }
    simpl in Hsem, Hk. destruct Hsem as [Hx ->].
    destruct Hx as [[-> He]| ->]; simpl in Hk.
    + exists C4. rewrite pbind_pret in Hk. split; [done|by constructor].
    + exists (C2 e). split; [done|by constructor].
  - edestruct Hvis as (x & Hk & Hsem).
    { unfold event_set. rewrite pbind_assoc. apply pbind_pop. }
    simpl in Hsem, Hk. destruct Hsem as [-> ->].
    destruct (decide (e ∈ flags s)) as [He|He].
    + rewrite bool_decide_false in Hk by tauto.
      exists C3. split; [done|by constructor].
    + rewrite bool_decide_true in Hk by done. rewrite pbind_pret, pbind_praise in Hk.
      exists (Fin (Err CancelledError)). split; [done|by constructor].
  - edestruct Hvis as (x & Hk & Hsem).
    { unfold release. rewrite pbind_assoc. apply pbind_pop. }
    simpl in Hsem, Hk. subst s'.
    rewrite pbind_praise in Hk.
    exists (Fin (Err CancelledError)). split; [done|by constructor].
  - edestruct Hvis as (x & Hk & Hsem); [apply with_lock_work|]. simpl in Hsem, Hk. subst s'.
    exists (C5 x). split; [done|by constructor].
  - edestruct Hvis as (x & Hk & Hsem); [apply bind_pop|]. simpl in Hsem, Hk. subst s'.
    exists (Fin r). split; [done|by constructor].
  - exfalso. by eapply tstep_Ret_inv.
Qed.
(** ** The invariant *)

(** The event a task waits on. *)
Definition wait_ev (p : phase) : option nat :=
  match p with C1 e | C2 e => Some e | _ => None end.

(** A task owns a permit from the moment its event is set by a release (or its
    acquire succeeded) until it releases. *)
Definition owner (flags : gset nat) (p : phase) : bool :=
  match p with
  | C1 e | C2 e => bool_decide (e ∈ flags)
  | C3 | C4 | C5 _ => true
  | C0 | T0 | Fin _ => false
  end.

Definition started (p : phase) : bool :=
  match p with C0 | T0 => false | _ => true end.

Lemma owner_other e fl p :
  wait_ev p <> Some e -> owner fl p = owner ({[e]} ∪ fl) p.
Proof.
  intros Hp. destruct p as [| |x|x| | | |]; simpl in *; try done;
    apply bool_decide_ext; rewrite elem_of_union, elem_of_singleton; naive_solver.
Qed.

Record wf (total : nat) (ps : list phase) (s : pstate P) : Prop := {
  wf_ok : p_ok total (prim s);
  wf_small : (Z.of_nat (length ps) < 2 ^ 31)%Z;
  wf_flags_lt : forall e, e ∈ flags s -> e < next_ev s;
  wf_queue_lt : forall e, e ∈ p_queue (prim s) -> e < next_ev s;
  wf_wait_lt : forall i p e, ps !! i = Some p -> wait_ev p = Some e -> e < next_ev s;
  wf_distinct : forall i j p q e, ps !! i = Some p -> ps !! j = Some q ->
    wait_ev p = Some e -> wait_ev q = Some e -> i = j;
  wf_nodup : NoDup (p_queue (prim s));
  wf_queued : forall i p e, ps !! i = Some p -> wait_ev p = Some e -> e ∉ flags s ->
    e ∈ p_queue (prim s);
  wf_waiting : forall e, e ∈ p_queue (prim s) -> e ∉ flags s ->
    exists i p, ps !! i = Some p /\ wait_ev p = Some e;
  wf_length : length (p_queue (prim s)) <= countb started ps
}.

(** Every permit is free or owned by exactly one task. *)
Definition inv (total : nat) (ps : list phase) (s : pstate P) : Prop :=
  wf total ps s /\ p_free (prim s) + countb (owner (flags s)) ps = total.

Lemma wf_queue_small total ps s :
  wf total ps s -> (Z.of_nat (length (p_queue (prim s))) < 2 ^ 31)%Z.
Proof.
  intros Hi. pose proof (wf_length _ _ _ Hi). pose proof (wf_small _ _ _ Hi).
  pose proof (countb_le_length started ps). lia.
Qed.

(** A task moves to a phase where it waits on the same event, or gives up one that
    is set. *)
Lemma wf_move total ps s i p p' :
  wf total ps s -> ps !! i = Some p ->
  (wait_ev p' = wait_ev p \/ wait_ev p' = None /\ forall e, wait_ev p = Some e -> e ∈ flags s) ->
  (started p = true -> started p' = true) ->
  wf total (<[i:=p']> ps) s.
Proof.
  intros Hi Hp Hw Hst. pose proof (lookup_lt_Some _ _ _ Hp) as Hlt.
  assert (forall j q e, <[i:=p']> ps !! j = Some q -> wait_ev q = Some e ->
    exists q0, ps !! j = Some q0 /\ wait_ev q0 = Some e) as Hback.
  { intros j q e Hj He. destruct (decide (i = j)) as [<-|Hne].
    - rewrite list_lookup_insert_eq in Hj by done. simplify_eq.
      exists p. split; [done|]. destruct Hw as [Hw|[Hw _]]; congruence.
    - rewrite list_lookup_insert_ne in Hj by done. eauto. }
  destruct Hi. split; try done.
  - by rewrite length_insert.
  - intros j q e Hj He. destruct (Hback _ _ _ Hj He) as (? & ? & ?). eauto.
  - intros j k q q' e Hj Hk Hqe Hqe'.
    destruct (Hback _ _ _ Hj Hqe) as (? & ? & ?), (Hback _ _ _ Hk Hqe') as (? & ? & ?). eauto.
  - intros j q e Hj He Hn. destruct (Hback _ _ _ Hj He) as (? & ? & ?). eauto.
  - intros e He Hn. destruct (wf_waiting0 e He Hn) as (j & q & Hj & Hq).
    destruct (decide (i = j)) as [<-|Hne]; simplify_eq.
    + exists i, p'. rewrite list_lookup_insert_eq by done. split; [done|].
      destruct Hw as [Hw|[_ Hw]]; [congruence|]. by destruct Hn; apply Hw.
    + exists j, q. by rewrite list_lookup_insert_ne.
  - pose proof (countb_insert started ps i p p' Hp) as Hc.
    destruct (started p); [rewrite Hst in Hc by done|]; destruct (started p'); lia.
Qed.

(** The primitive changes but not its queue; events may be drawn and set. *)
Lemma wf_state total ps s p' fl n :
  wf total ps s -> p_ok total p' -> p_queue p' = p_queue (prim s) ->
  flags s ⊆ fl -> (forall e, e ∈ fl -> e < n) -> next_ev s <= n ->
  wf total ps (mkPs p' fl n).
Proof.
  intros [] Hok Hq Hsub Hfl Hn. split; simpl; rewrite ?Hq; try done.
  - intros e He. specialize (wf_queue_lt0 e He). lia.
  - intros i p e Hp He. specialize (wf_wait_lt0 i p e Hp He). lia.
  - intros i p e Hp He Hni. apply (wf_queued0 i p e); set_solver.
  - intros e He Hni. apply (wf_waiting0 e); set_solver.
Qed.

(** A task starts to wait on a fresh event. *)
Lemma wf_wait total ps s i p q :
  wf total ps s -> ps !! i = Some p -> started p = false ->
  p_ok total q -> p_queue q = p_queue (prim s) ++ [next_ev s] ->
  wf total (<[i:=C1 (next_ev s)]> ps) (mkPs q (flags s) (S (next_ev s))).
Proof.
  intros Hi Hp Hst Hok Hq. pose proof (lookup_lt_Some _ _ _ Hp) as Hlt.
  assert (forall j r e, <[i:=C1 (next_ev s)]> ps !! j = Some r -> wait_ev r = Some e ->
    j = i /\ e = next_ev s \/ j <> i /\ ps !! j = Some r /\ e < next_ev s) as Hback.
  { intros j r e Hj He. destruct (decide (i = j)) as [<-|Hne].
    - rewrite list_lookup_insert_eq in Hj by done. left. simplify_eq/=. done.
    - rewrite list_lookup_insert_ne in Hj by done. right. split_and!; [done|done|].
      by eapply wf_wait_lt. }
  assert (wait_ev p = None) as Hnw by by destruct p.
  destruct Hi. split; simpl; rewrite ?Hq; try done.
  - by rewrite length_insert.
  - intros e He. specialize (wf_flags_lt0 e He). lia.
  - intros e [He| ->%list_elem_of_singleton]%elem_of_app; [|lia].
    specialize (wf_queue_lt0 e He). lia.
  - intros j r e Hj He. destruct (Hback _ _ _ Hj He) as [[-> ->]|(? & ? & ?)]; lia.
  - intros j k r r' e Hj Hk He He'.
    destruct (Hback _ _ _ Hj He) as [[-> ->]|(? & ? & ?)],
      (Hback _ _ _ Hk He') as [[-> ?]|(? & ? & ?)]; try done; try lia. eauto.
  - apply NoDup_snoc. split; [done|]. intros Hin. specialize (wf_queue_lt0 _ Hin). lia.
  - intros j r e Hj He Hni. apply elem_of_app.
    destruct (Hback _ _ _ Hj He) as [[-> ->]|(? & ? & ?)]; [right; set_solver|left; eauto].
  - intros e [He| ->%list_elem_of_singleton]%elem_of_app Hni.
    + destruct (wf_waiting0 e He Hni) as (j & r & Hj & Hr). exists j, r.
      rewrite list_lookup_insert_ne by congruence. done.
    + exists i, (C1 (next_ev s)). by rewrite list_lookup_insert_eq.
  - rewrite length_app. simpl.
    pose proof (countb_insert started ps i p (C1 (next_ev s)) Hp) as Hc.
    rewrite Hst in Hc. simpl in Hc. lia.
Qed.

(** A release hands its permit to the first waiter still waiting, or returns it. *)
Lemma wf_release total ps s :
  wf total ps s -> S (p_free (prim s)) <= total ->
  wf total ps (released s) /\
  p_free (prim (released s)) + countb (owner (flags (released s))) ps
    = S (p_free (prim s) + countb (owner (flags s)) ps).
Proof.
  intros Hi Hle. unfold released.
  destruct (set_first (flags s) (p_queue (prim s))) as [[fl ws]|] eqn:Hsf.
  - destruct (p_release_some total _ _ _ _ (wf_ok _ _ _ Hi) Hsf) as (q & -> & Hf & Hq & Hok).
    simpl. apply set_first_Some in Hsf as (pre & e & Heq & Hpre & He & ->).
    destruct (wf_waiting _ _ _ Hi e) as (i & p & Hp & Hw); [rewrite Heq; set_solver|done|].
    split.
    + pose proof (wf_nodup _ _ _ Hi) as Hnd. rewrite Heq in Hnd.
      apply NoDup_app in Hnd as (Hn1 & Hd & Hn2). apply NoDup_cons in Hn2 as [Hn2 Hn3].
      assert (e < next_ev s) as Hlt by (apply (wf_queue_lt _ _ _ Hi); rewrite Heq; set_solver).
      destruct Hi. split; simpl; rewrite ?Hq; try done.
      * intros x. rewrite elem_of_union, elem_of_singleton. intros [->|?]; auto.
      * intros x Hx. apply wf_queue_lt0. rewrite Heq. set_solver.
      * intros j r x Hj Hx Hni. specialize (wf_queued0 j r x Hj Hx).
        rewrite Heq in wf_queued0. rewrite Forall_forall in Hpre.
        clear -wf_queued0 Hni Hpre. set_solver.
      * intros x Hx Hni. apply wf_waiting0; [rewrite Heq|]; set_solver.
      * rewrite Heq, length_app in wf_length0. simpl in wf_length0. lia.
    + rewrite Hf, (countb_flip (owner (flags s)) (owner ({[e]} ∪ flags s)) ps i p Hp).
      * lia.
      * destruct p; simplify_eq/=; by apply bool_decide_eq_false.
      * destruct p; simplify_eq/=; apply bool_decide_eq_true; set_solver.
      * intros j r Hj Hne. assert (wait_ev r <> Some e) as Hr.
        { intros Hr. apply Hne. by eapply (wf_distinct _ _ _ Hi j i r p e). }
        by apply owner_other.
  - destruct (p_release_none total _ _ (wf_ok _ _ _ Hi) Hle Hsf) as (q & -> & Hf & Hq & Hok).
    simpl. split; [|rewrite Hf; lia]. apply set_first_None in Hsf.
    rewrite Forall_forall in Hsf. destruct Hi. split; simpl; rewrite ?Hq; try done.
    + set_solver.
    + apply NoDup_nil_2.
    + intros i p e Hp He Hni. exfalso. apply Hni, (Hsf e). by eapply wf_queued0.
    + set_solver.
    + simpl. lia.
Qed.

(** What the answer of an acquire says about the permits. *)
Lemma acquire_answer total ps s r q :
  inv total ps s -> p_acquire (next_ev s) (prim s) = (r, q) ->
  p_ok total q /\
  match r with
  | None => S (p_free q) = p_free (prim s) /\ p_queue q = p_queue (prim s)
  | Some e => e = next_ev s /\ p_free (prim s) = 0 /\ p_free q = 0 /\
      p_queue q = p_queue (prim s) ++ [e]
  end.
Proof.
  intros [Hi Hc] Ha. pose proof (wf_ok _ _ _ Hi) as Hok.
  pose proof (wf_queue_small _ _ _ Hi) as Hsm.
  destruct (decide (p_free (prim s) = 0)) as [Hz|Hz].
  - destruct (p_acquire_some total (next_ev s) _ Hok Hz Hsm) as (q' & Ha' & Hf & Hq & Hok').
    rewrite Ha in Ha'. by simplify_eq.
  - destruct (p_acquire_none total (next_ev s) (prim s)) as (q' & Ha' & Hf & Hq & Hok');
      [done|lia|]. rewrite Ha in Ha'. by simplify_eq.
Qed.

Lemma try_acquire_answer total ps s r q :
  inv total ps s -> p_try_acquire (prim s) = (r, q) ->
  p_ok total q /\ p_queue q = p_queue (prim s) /\
  match r with
  | Ok _ => S (p_free q) = p_free (prim s)
  | Err x => x = WouldBlock /\ p_free (prim s) = 0 /\ p_free q = 0
  end.
Proof.
  intros [Hi Hc] Ha. pose proof (wf_ok _ _ _ Hi) as Hok.
  pose proof (wf_queue_small _ _ _ Hi) as Hsm.
  destruct (decide (p_free (prim s) = 0)) as [Hz|Hz].
  - rewrite (p_try_acquire_err total _ Hok Hz Hsm) in Ha. by simplify_eq.
  - destruct (p_try_acquire_ok total (prim s)) as (q' & Ha' & Hf & Hq & Hok');
      [done|lia|]. rewrite Ha in Ha'. by simplify_eq.
Qed.

(** A waiter that finds its event unset leaves the queue by setting it. *)
Lemma inv_give_up total ps s i e :
  inv total ps s -> ps !! i = Some (C2 e) -> e ∉ flags s ->
  inv total (<[i:=Fin (Err CancelledError)]> ps)
    (mkPs (prim s) ({[e]} ∪ flags s) (next_ev s)).
Proof.
  intros [Hi Hc] Hp He.
  pose proof (countb_insert (owner (flags s)) ps i _ (Fin (Err CancelledError)) Hp) as Hn.
  simpl in Hn. rewrite bool_decide_false in Hn by done.
  assert (wf total ps (mkPs (prim s) ({[e]} ∪ flags s) (next_ev s))) as Hi1.
  { eapply (wf_state _ _ s); try done; [apply Hi|set_solver|]. intros x.
    rewrite elem_of_union, elem_of_singleton.
    intros [->|?]; [by apply (wf_wait_lt _ _ _ Hi i (C2 e))|by eapply wf_flags_lt]. }
  split.
  - eapply wf_move; [done|done| |done]. right. split; [done|].
    intros ? [= <-]. simpl. set_solver.
  - simpl. rewrite (countb_ext (owner ({[e]} ∪ flags s)) (owner (flags s))); [lia|].
    intros j r Hj. symmetry. apply owner_other. intros Hr.
    destruct (decide (i = j)) as [<-|Hne].
    + rewrite list_lookup_insert_eq in Hj by (by eapply lookup_lt_Some). by simplify_eq.
    + rewrite list_lookup_insert_ne in Hj by done.
      apply Hne. by eapply (wf_distinct _ _ _ Hi i j (C2 e) r e).
Qed.

Lemma inv_release total ps s i p p' :
  inv total ps s -> ps !! i = Some p -> owner (flags s) p = true ->
  wait_ev p = None -> wait_ev p' = None -> owner (flags s) p' = false ->
  started p' = true -> inv total (<[i:=p']> ps) (released s).
Proof.
  intros [Hi Hc] Hp Ho Hw Hw' Ho' Hst.
  pose proof (countb_insert (owner (flags s)) ps i p p' Hp) as Hn. rewrite Ho, Ho' in Hn.
  assert (wf total (<[i:=p']> ps) s) as Hi'.
  { eapply wf_move; [done|done| |done]. left. congruence. }
  destruct (wf_release total _ _ Hi') as [Hw1 Hc']; [lia|]. split; [done|lia].
Qed.

Lemma permits_inv_step total ps s i p p' s' :
  inv total ps s -> ps !! i = Some p -> phase_step s p p' s' -> inv total (<[i:=p']> ps) s'.
Proof.
  intros HI Hp Hs. pose proof HI as [Hi Hc].
  pose proof (wf_flags_lt _ _ _ Hi) as Hfl.
  assert (forall e, e ∈ flags s -> e < S (next_ev s)) as HflS.
  { intros e He. specialize (Hfl e He). lia. }
  pose proof (countb_insert (owner (flags s)) ps i p p' Hp) as Hn.
  pose proof (fun Hw => wf_move _ _ _ _ _ p' Hi Hp Hw) as Hmove.
  destruct Hs as [q Ha|e q Ha|q Ha|x q Ha|e He|e|e He|e He| |r|r]; simpl in *.
  - destruct (acquire_answer _ _ _ _ _ HI Ha) as (Hok & Hf & Hq).
    split; simpl; [|lia]. eapply (wf_state _ _ s); auto.
  - destruct (acquire_answer _ _ _ _ _ HI Ha) as (Hok & -> & Hf & Hf' & Hq).
    split; simpl; [by eapply wf_wait|].
    rewrite bool_decide_false in Hn by (intros He; specialize (Hfl _ He); lia). lia.
  - destruct (try_acquire_answer _ _ _ _ _ HI Ha) as (Hok & Hq & Hf).
    split; simpl; [|lia]. eapply (wf_state _ _ s); auto.
  - destruct (try_acquire_answer _ _ _ _ _ HI Ha) as (Hok & Hq & -> & Hf & Hf').
    split; simpl; [|lia]. eapply (wf_state _ _ s); auto.
  - rewrite bool_decide_true in Hn by done. split; [|lia].
    apply Hmove; [|done]. right. split; [done|]. by intros ? [= <-].
  - split; [auto|lia].
  - by apply inv_give_up.
  - rewrite bool_decide_true in Hn by done.
    assert (({[e]} ∪ flags s) = flags s) as -> by set_solver.
    destruct s; simpl in *. split; [|simpl; lia].
    apply Hmove; [|done]. right. split; [done|]. by intros ? [= <-].
  - by eapply inv_release.
  - split; [auto|lia].
  - by eapply inv_release.
Qed.

(** ** What holds in every execution *)

Definition phase_of_use (u : use) : phase :=
  match u with UseCall | UseAsync => C0 | UseOrRaise => T0 end.

Lemma permits_inv_init total p uses :
  p_ok total p -> p_free p = total -> p_queue p = [] ->
  (Z.of_nat (length uses) < 2 ^ 31)%Z ->
  inv total (phase_of_use <$> uses) (mkPs p ∅ 0).
Proof.
  intros Hok Hf Hq Hsm.
  assert (forall i q, (phase_of_use <$> uses) !! i = Some q -> wait_ev q = None) as Hw.
  { intros i q Hi. apply list_lookup_fmap_Some in Hi as ([] & ? & ?); by subst. }
  split.
  - split; simpl; rewrite ?Hq; try done; try set_solver; try apply NoDup_nil_2;
      try (rewrite length_fmap; lia); try (simpl; lia).
  - simpl. rewrite Hf, countb_none; [lia|].
    intros i q Hi. apply list_lookup_fmap_Some in Hi as ([] & ? & ?); by subst.
Qed.

Lemma reachable_inv_uses total p use_tree uses ts s :
  (forall u, use_tree u = tree_of (phase_of_use u)) ->
  p_ok total p -> p_free p = total -> p_queue p = [] ->
  (Z.of_nat (length uses) < 2 ^ 31)%Z ->
  reachable lock_sem (use_tree <$> uses, mkPs p ∅ 0) (ts, s) ->
  exists ps, at_phases tree_of ts ps /\ inv total ps s.
Proof.
  intros Htree Hok Hf Hq Hsm Hr.
  assert (use_tree <$> uses = tree_of <$> (phase_of_use <$> uses)) as Heq.
  { rewrite <- list_fmap_compose. apply list_fmap_ext. intros i u _. apply Htree. }
  rewrite Heq in Hr.
  eapply (phases_invariant lock_sem tree_of (fun _ s => phase_step s)
    permits_tree_step (inv total)); [| |exact Hr].
  - by apply permits_inv_init.
  - intros. by eapply permits_inv_step.
Qed.
End Permits.

(** ** Observations on a task *)

(** The next operation of a task is the body of its [with] block, or the release at
    its end. *)
Definition in_section {R} (t : itree lockE R) : bool :=
  match observe t with
  | VisF e _ => match e with Work | Release => true | _ => false end
  | _ => false
  end.

(** The event a suspended task waits for. *)
Definition waits_on {R} (t : itree lockE R) : option nat :=
  match observe t with
  | VisF e _ => match e with Await e => Some e | _ => None end
  | _ => None
  end.

Section Observations.
Context {R : Type}.

#[export] Instance in_section_proper :
  Proper (eq_itree eq ==> eq) (@in_section R).
Proof.
  intros t t' Ht. unfold in_section.
  by destruct (eq_itree_head _ _ Ht) as
    [(? & -> & ->)|[(? & ? & -> & ->)|(? & ? & ? & ? & -> & ->)]].
Qed.

#[export] Instance waits_on_proper :
  Proper (eq_itree eq ==> eq) (@waits_on R).
Proof.
  intros t t' Ht. unfold waits_on.
  by destruct (eq_itree_head _ _ Ht) as
    [(? & -> & ->)|[(? & ? & -> & ->)|(? & ? & ? & ? & -> & ->)]].
Qed.
End Observations.

(** The section is entered and left by the owners of permits only. *)
Lemma in_section_owner fl p : in_section (tree_of p) = true -> owner fl p = true.
Proof. by destruct p. Qed.

Lemma waits_on_phase p e : waits_on (tree_of p) = Some e -> p = C1 e.
Proof. destruct p; intros Hp; try done. by injection Hp as ->. Qed.

Lemma section_count fl ts ps :
  at_phases tree_of ts ps -> countb in_section ts <= countb (owner fl) ps.
Proof.
  induction 1 as [|t p ts ps Ht _ IH]; simpl; [lia|].
  pose proof (in_section_owner fl p) as Ho. rewrite <- Ht in Ho.
  destruct (in_section t); [rewrite Ho by done; lia|lia].
Qed.

Lemma finished_count fl ts ps :
  at_phases tree_of ts ps -> (forall t, t ∈ ts -> exists r, t ≅ Ret r) ->
  countb (owner fl) ps = 0.
Proof.
  intros Hat Hfin. apply countb_none. intros i p Hp.
  destruct (at_phases_lookup_r _ _ _ _ _ Hat Hp) as (t & Ht & Htp).
  destruct (Hfin t) as [r Hr]; [by eapply list_elem_of_lookup_2|].
  destruct p; try done; exfalso; eapply (eq_Ret_Vis r);
    (etransitivity; [symmetry; exact Hr|]); (etransitivity; [exact Htp|]); simpl.
  - etransitivity; [eapply (pbind_eq _ _ _ (fun _ => with_lock false work));
      [apply ptry_else_pcall|reflexivity]|]. apply pbind_vis.
  - unfold event_set. rewrite pbind_assoc. apply pbind_pop.
  - unfold release. rewrite pbind_assoc. apply pbind_pop.
  - apply with_lock_work.
  - apply bind_pop.
Qed.

(** A task that waits for an unset event is not forgotten: some task owns a permit
    and will hand it on. *)
Definition can_release (fl : gset nat) {R} (t : itree lockE R) : bool :=
  in_section t || match waits_on t with Some e => bool_decide (e ∈ fl) | None => false end
  || match observe t with
     | VisF e _ => match e with EventSet e => bool_decide (e ∈ fl) | _ => false end
     | _ => false
     end.

#[export] Instance can_release_proper fl R :
  Proper (eq_itree eq ==> eq) (@can_release fl R).
Proof.
  intros t t' Ht. unfold can_release. f_equal; [by rewrite Ht|].
  by destruct (eq_itree_head _ _ Ht) as
    [(? & -> & ->)|[(? & ? & -> & ->)|(? & ? & ? & ? & -> & ->)]].
Qed.

Lemma owner_can_release fl p : owner fl p = true -> can_release fl (tree_of p) = true.
Proof. destruct p; try done; simpl; intros Ho; unfold can_release; cbn; rewrite ?Ho; done. Qed.

(** ** Locks and semaphores *)

Definition lock_init : pstate Lock := mkPs Lock_new ∅ 0.
Definition semaphore_init (n : nat) : pstate Semaphore :=
  mkPs (Semaphore_new (Z.of_nat n)) ∅ 0.

Lemma lock_phases uses ts s :
  (Z.of_nat (length uses) < 2 ^ 31)%Z ->
  reachable lock_sem (lock_use <$> uses, lock_init) (ts, s) ->
  exists ps, at_phases tree_of ts ps /\ inv 1 ps s.
Proof. intros Hl. apply reachable_inv_uses; try done. by intros []. Qed.

Lemma semaphore_phases n uses ts s :
  (Z.of_nat n < 2 ^ 31)%Z -> (Z.of_nat (length uses) < 2 ^ 31)%Z ->
  reachable lock_sem (semaphore_use <$> uses, semaphore_init n) (ts, s) ->
  exists ps, at_phases tree_of ts ps /\ inv n ps s.
Proof.
  intros Hn Hl. apply reachable_inv_uses; try done.
  - by intros [].
  - unfold p_ok; simpl. unfold Semaphore_ok; simpl. lia || (split_and!; try done; lia).
  - simpl. lia.
Qed.

(** A waiter of an unset event is owed a permit by some task. *)
Lemma waiter_owed {P} `{Permits P} total ts ps (s : pstate P) i t e :
  0 < total -> at_phases tree_of ts ps -> inv total ps s ->
  ts !! i = Some t -> waits_on t = Some e -> e ∉ flags s ->
  exists j u, ts !! j = Some u /\ can_release (flags s) u = true.
Proof.
  intros Htot Hat [Hi Hc] Ht Hw He.
  destruct (at_phases_lookup _ _ _ _ _ Hat Ht) as (p & Hp & Htp).
  rewrite Htp in Hw. apply waits_on_phase in Hw as ->.
  pose proof (wf_queued _ _ _ Hi _ _ e Hp eq_refl He) as Hq.
  destruct (p_ok_free total (prim s) (wf_ok _ _ _ Hi)) as [Hf|Hf]; [lia| |rewrite Hf in Hq; set_solver].
  destruct (countb_pos_inv (owner (flags s)) ps) as (j & q & Hj & Ho); [lia|].
  destruct (at_phases_lookup_r _ _ _ _ _ Hat Hj) as (u & Hu & Huq).
  exists j, u. split; [done|]. rewrite Huq. by apply owner_can_release.
Qed.

(** [C2] Mutual exclusion.  Any number of tasks use one [Lock] through [lock()],
    [or_raise()] and [async with], with every interleaving and with cancellation
    raised at any wait or inside any body; two tasks never are inside the protected
    section at once. *)
Theorem Lock_mutual_exclusion uses ts s i j ti tj :
  (Z.of_nat (length uses) < 2 ^ 31)%Z ->
  reachable lock_sem (lock_use <$> uses, lock_init) (ts, s) ->
  ts !! i = Some ti -> ts !! j = Some tj ->
  in_section ti = true -> in_section tj = true -> i = j.
Proof.
  intros Hl Hr Hi Hj Hti Htj. destruct (lock_phases uses ts s Hl Hr) as (ps & Hat & _ & Hc).
  pose proof (section_count (flags s) ts ps Hat) as Hle.
  eapply (countb_le1_unique in_section ts); try done. lia.
Qed.

(** [C5] The lock is neither lost nor duplicated: when every task has finished,
    whatever was raised or cancelled on the way, the lock is free again; and while a
    task waits for it, some other task holds it and will release it. *)
Theorem Lock_never_lost uses ts s :
  (Z.of_nat (length uses) < 2 ^ 31)%Z ->
  reachable lock_sem (lock_use <$> uses, lock_init) (ts, s) ->
  ((forall t, t ∈ ts -> exists r, t ≅ Ret r) -> lk_state (prim s) = false) /\
  (forall i t e, ts !! i = Some t -> waits_on t = Some e -> e ∉ flags s ->
     exists j u, ts !! j = Some u /\ can_release (flags s) u = true).
Proof.
  intros Hl Hr. destruct (lock_phases uses ts s Hl Hr) as (ps & Hat & Hinv). split.
  - intros Hfin. destruct Hinv as [_ Hc]. rewrite (finished_count _ ts ps) in Hc by done.
    simpl in Hc. destruct (lk_state (prim s)); [lia|done].
  - intros. eapply (waiter_owed 1); eauto.
Qed.

(** [C7] A semaphore of [n] tokens lets at most [n] tasks inside; when every task
    has finished all [n] tokens are back; and a task never waits while no token is
    owed to it.  Holds below the width of the counters of [acquire], [2^31]. *)
Theorem Semaphore_bound n uses ts s :
  (Z.of_nat n < 2 ^ 31)%Z -> (Z.of_nat (length uses) < 2 ^ 31)%Z ->
  reachable lock_sem (semaphore_use <$> uses, semaphore_init n) (ts, s) ->
  countb in_section ts <= n /\
  ((forall t, t ∈ ts -> exists r, t ≅ Ret r) ->
     Semaphore_tokens (prim s) = Z.of_nat n) /\
  (0 < n -> forall i t e, ts !! i = Some t -> waits_on t = Some e -> e ∉ flags s ->
     exists j u, ts !! j = Some u /\ can_release (flags s) u = true).
Proof.
  intros Hn Hl Hr. destruct (semaphore_phases n uses ts s Hn Hl Hr) as (ps & Hat & Hinv).
  split_and!.
  - destruct Hinv as [_ Hc]. pose proof (section_count (flags s) ts ps Hat). lia.
  - intros Hfin. destruct Hinv as [Hi Hc]. rewrite (finished_count _ ts ps) in Hc by done.
    destruct (wf_ok _ _ _ Hi) as (_ & Hv & _). simpl in Hc. unfold Semaphore_tokens. lia.
  - intros H0 i t e. by apply (waiter_owed n ts ps s i t e H0).
Qed.

(** One step of task [i] of a concrete pool; bodies and waits return normally. *)
Ltac use_step i :=
  eapply reachable_step_l;
  [eapply (pstep_task _ i);
   [reflexivity
   |first [eapply (tstep_vis _ _ _ (result unit) _ _ _ (Ok tt));
             [observe_now|cbn; first [reflexivity|split; [left; split; [reflexivity|set_solver]|reflexivity]]]
          |eapply (tstep_vis _ _ _ unit _ _ _ tt); [observe_now|cbn; reflexivity]
          |eapply tstep_vis; [observe_now|cbn; split; reflexivity]]]
  |cbn [insert list_insert fmap list_fmap]].

Lemma Lock_mutual_exclusion_witness :
  exists ts s, reachable lock_sem (lock_use <$> [UseCall; UseAsync], lock_init) (ts, s) /\
    (exists t, ts !! 0 = Some t /\ in_section t = true) /\
    forall j tj, ts !! j = Some tj -> in_section tj = true -> 0 = j.
Proof.
  assert (exists ts s, reachable lock_sem (lock_use <$> [UseCall; UseAsync], lock_init) (ts, s) /\
    exists t, ts !! 0 = Some t /\ in_section t = true) as (ts & s & Hr & t & Ht & Hin).
  { eexists _, _. split; [use_step 0; use_step 1; apply reachable_init|].
    eexists. split; reflexivity. }
  exists ts, s. split; [exact Hr|]. split; [by exists t|].
  intros j tj Hj Hin'.
  exact (Lock_mutual_exclusion [UseCall; UseAsync] ts s 0 j t tj eq_refl Hr Ht Hj Hin Hin').
Defined.

Lemma Lock_never_lost_witness :
  exists ts s, reachable lock_sem (lock_use <$> [UseCall; UseAsync], lock_init) (ts, s) /\
    lk_state (prim s) = false.
Proof.
  assert (exists ts s, reachable lock_sem (lock_use <$> [UseCall; UseAsync], lock_init) (ts, s) /\
    forall t, t ∈ ts -> exists r, t ≅ Ret r) as (ts & s & Hr & Hfin).
  { eexists _, _. split.
    - use_step 0. use_step 1. use_step 0. use_step 0. use_step 1. use_step 1. use_step 1.
      apply reachable_init.
    - intros t Ht. rewrite !elem_of_cons in Ht. destruct Ht as [->|[->|Ht]];
        [eexists; by apply eq_obs_Ret..|set_solver]. }
  exists ts, s. split; [exact Hr|].
  exact (proj1 (Lock_never_lost [UseCall; UseAsync] ts s eq_refl Hr) Hfin).
Defined.

Lemma Semaphore_bound_witness :
  exists ts s,
    reachable lock_sem (semaphore_use <$> [UseCall; UseAsync; UseOrRaise], semaphore_init 2) (ts, s) /\
    countb in_section ts = 2 /\ countb in_section ts <= 2.
Proof.
  assert (exists ts s,
    reachable lock_sem (semaphore_use <$> [UseCall; UseAsync; UseOrRaise], semaphore_init 2) (ts, s) /\
    countb in_section ts = 2) as (ts & s & Hr & Hc).
  { eexists _, _. split; [use_step 0; use_step 1; use_step 2; apply reachable_init|].
    reflexivity. }
  exists ts, s. split; [exact Hr|]. split; [exact Hc|].
  exact (proj1 (Semaphore_bound 2 [UseCall; UseAsync; UseOrRaise] ts s eq_refl eq_refl Hr)).
Defined.
