(* ===== verification/Os.v ===== *)
(** * The operating system under the I/O layer

    What the Python code asks of the runtime's I/O driver, of [socket.socket] objects and
    of the [os] module, as the primitive operations of coroutines.  The calls are
    those of the Python standard library; nothing is assumed of their results here. *)

From stdpp Require Import base numbers list strings gmap.
From Stdlib Require Import ZArith.
From Stdlib Require Import Init.Byte.
From ITree Require Import ITree.
From S2P Require Import Prelude Coro.

(** ** Python values *)

Definition bytes := list Byte.byte.

(** The values an address, an option or a path is built from. *)
#[warnings="-register-all"]
Inductive pyobj : Type :=
| PNone
| PBool (b : bool)
| PInt (z : Z)
| PStr (s : string)
| PBytes (b : bytes)
| PTuple (l : list pyobj)
| PList (l : list pyobj)
| PPath (p : pyobj)
| PExn (e : exn)
| POther (n : nat).

Definition is_tuple (o : pyobj) : option (list pyobj) :=
  match o with PTuple l => Some l | _ => None end.

Definition is_int (o : pyobj) : bool := match o with PInt _ => true | _ => false end.

Definition is_None (o : pyobj) : bool := match o with PNone => true | _ => false end.

(** [host == 'text']. *)
Definition eq_str (o : pyobj) (s : string) : bool :=
  match o with PStr t => bool_decide (t = s) | _ => false end.

(** [os.fspath] of a [str], [bytes] or [os.PathLike]. *)
Definition fspath (o : pyobj) : result pyobj :=
  match o with
  | PStr _ | PBytes _ => Ok o
  | PPath p => Ok p
  | _ => Err (TypeError "expected str, bytes or os.PathLike object")
  end.

(** An entry of [getaddrinfo]: family, type, protocol, canonical name, address. *)
Record addrinfo := mkAi {
  ai_family : Z; ai_type : Z; ai_proto : Z; ai_canon : string; ai_addr : pyobj
}.

(** ** Constants of the [socket] module (Linux) *)

Definition AF_UNIX : Z := 1.
Definition AF_INET : Z := 2.
Definition AF_INET6 : Z := 10.
Definition SOCK_STREAM : Z := 1.
Definition SOL_SOCKET : Z := 1.
Definition SO_REUSEADDR : Z := 2.
Definition SO_ERROR : Z := 4.
Definition IPPROTO_TCP : Z := 6.
Definition TCP_NODELAY : Z := 1.
Definition TCP_NOTSENT_LOWAT : Z := 25.
Definition IPPROTO_IPV6 : Z := 41.
Definition IPV6_V6ONLY : Z := 26.
Definition AI_PASSIVE : Z := 1.
Definition AI_V4MAPPED : Z := 8.
Definition SHUT_RD : Z := 0.
Definition SHUT_WR : Z := 1.
Definition SHUT_RDWR : Z := 2.
Definition SOMAXCONN : Z := 4096.

(** ** Calls *)

(** Methods and attributes of the [socket.socket] object number [s], and functions of the
    [socket] and [os] modules; buffers that the caller hands over are named. *)
Variant syscall : Type -> Type :=
| sk_new (family type proto : Z) (fileno : option Z) : syscall nat
| sk_fileno (s : nat) : syscall Z
| sk_setblocking (s : nat) (b : bool) : syscall unit
| sk_detach (s : nat) : syscall Z
| sk_close (s : nat) : syscall unit
| sk_dup (s : nat) : syscall nat
| sk_family (s : nat) : syscall Z
| sk_type (s : nat) : syscall Z
| sk_proto (s : nat) : syscall Z
| sk_getpeername (s : nat) : syscall pyobj
| sk_getsockname (s : nat) : syscall pyobj
| sk_getsockopt (s : nat) (level optname : Z) : syscall Z
| sk_getsockopt_buf (s : nat) (level optname buflen : Z) : syscall bytes
| sk_setsockopt (s : nat) (level optname : Z) (value : pyobj) : syscall unit
| sk_setsockopt_len (s : nat) (level optname optlen : Z) : syscall unit
| sk_listen (s : nat) (backlog : Z) : syscall unit
| sk_get_inheritable (s : nat) : syscall bool
| sk_set_inheritable (s : nat) (b : bool) : syscall unit
| sk_bind (s : nat) (address : pyobj) : syscall unit
| sk_shutdown (s : nat) (flag : Z) : syscall unit
| sk_accept (s : nat) : syscall (nat * pyobj)
| sk_connect (s : nat) (address : pyobj) : syscall unit
| sk_recv (s : nat) (bufsize flags : Z) : syscall bytes
| sk_recv_into (s : nat) (buffer : nat) (nbytes flags : Z) : syscall Z
| sk_recvfrom (s : nat) (bufsize flags : Z) : syscall (bytes * pyobj)
| sk_recvfrom_into (s : nat) (buffer : nat) (nbytes flags : Z) : syscall (Z * pyobj)
| sk_recvmsg (s : nat) (bufsize ancbufsize flags : Z) : syscall (bytes * pyobj)
| sk_recvmsg_into (s : nat) (buffers : nat) (ancbufsize flags : Z) : syscall (Z * pyobj)
| sk_send (s : nat) (data : bytes) (flags : Z) : syscall Z
| sk_sendto (s : nat) (data : bytes) (address : pyobj) : syscall Z
| sk_sendmsg (s : nat) (buffers : list bytes) (ancdata : pyobj) (flags : Z)
    (address : pyobj) : syscall Z
| inet_pton (family : Z) (host : pyobj) : syscall unit
| so_getaddrinfo (host port : pyobj) (family type proto flags : Z) : syscall (list addrinfo)
| unix_bind (s : nat) (path : pyobj) (mode : option Z) : syscall unit
| os_read (fd n : Z) : syscall bytes
| os_write (fd : Z) (data : bytes) : syscall Z
| os_close (fd : Z) : syscall unit
| os_get_blocking (fd : Z) : syscall bool
| os_set_blocking (fd : Z) (b : bool) : syscall unit
| os_chmod (path : pyobj) (mode : Z) : syscall unit
| os_unlink (path : pyobj) : syscall unit.

(** A coroutine of the I/O layer may also: register a descriptor with the driver, arm or
    clear a direction of the entry ([true] is the read direction), drop the entry, wait
    on an event, run a call on the blocking pool, and read or set the fields of the
    native objects behind it. *)
Variant osE : Type -> Type :=
| IoRegister (fd : Z) : osE (result nat)
| IoArm (d : bool) (io : nat) : osE (option nat)
| IoClear (d : bool) (io : nat) : osE unit
| IoDeregister (io : nat) : osE unit
| AwaitIo (w : nat) : osE (result unit)
| Sys {A} (c : syscall A) : osE (result A)
| Blocking {A} (c : syscall A) : osE (result A)
| EofGet (io : nat) : osE bool
| EofSet (io : nat) : osE unit
| TryLock (l : nat) : osE (result unit)
| Unlock (l : nat) : osE unit
| NewLock : osE nat
| FdOwn (io : nat) (fd : Z) (blocking : bool) : osE unit
| FdGet (io : nat) : osE Z
| FdTake (io : nat) : osE (option (Z * bool)).

Definition sys {A} (c : syscall A) : pyM osE A := pcall (Sys c).
Definition blocking {A} (c : syscall A) : pyM osE A := pcall (Blocking c).
Definition await_io (w : nat) : pyM osE unit := pcall (AwaitIo w).
Definition io_arm_r (io : nat) : pyM osE (option nat) := pop (IoArm true io).
Definition io_arm_w (io : nat) : pyM osE (option nat) := pop (IoArm false io).
Definition io_clear_r (io : nat) : pyM osE unit := pop (IoClear true io).
Definition io_clear_w (io : nat) : pyM osE unit := pop (IoClear false io).
Definition io_close (io : nat) : pyM osE unit := pop (IoDeregister io).
