(* ===== verification/Socket.v ===== *)
(** * Sockets

    [src/tonio/_net/_socket.py] and the native [Socket] of [src/src/net/socket.rs]: the
    methods of [_Socket] as coroutines over the operations of [Os]. *)

From stdpp Require Import base numbers list strings gmap.
From Stdlib Require Import ZArith Lia.
From ITree Require Import ITree ITreeFacts.
From S2P Require Import Prelude Coro Os.

Open Scope tonio_scope.

(** The socket object: the [socket.socket] it wraps and its entry in the driver. *)
Record Socket := mkSocket { so_sock : nat; so_io : nat }.

(** [Socket::new]: the descriptor becomes non-blocking and is registered for both
    directions. *)
Definition Socket_new (stdlib_sock : nat) : pyM osE Socket :=
  let! fd := sys (sk_fileno stdlib_sock) in
  if (fd <? 0)%Z then praise OverflowError
  else
    sys (sk_setblocking stdlib_sock false) ;;;
    let! io := pcall (IoRegister fd) in
    pret (mkSocket stdlib_sock io).

(** ** Plain methods *)

Definition detach (self : Socket) : pyM osE Z :=
  io_close (so_io self) ;;;
  sys (sk_detach (so_sock self)).

Definition fileno (self : Socket) : pyM osE Z := sys (sk_fileno (so_sock self)).
Definition getpeername (self : Socket) : pyM osE pyobj := sys (sk_getpeername (so_sock self)).
Definition getsockname (self : Socket) : pyM osE pyobj := sys (sk_getsockname (so_sock self)).

Definition getsockopt (self : Socket) (level optname : Z) (buflen : option Z)
    : pyM osE (Z + bytes) :=
  match buflen with
  | None => let! v := sys (sk_getsockopt (so_sock self) level optname) in pret (inl v)
  | Some n => let! v := sys (sk_getsockopt_buf (so_sock self) level optname n) in pret (inr v)
  end.

Definition setsockopt (self : Socket) (level optname : Z) (value : pyobj)
    (optlen : option Z) : pyM osE unit :=
  match optlen with
  | None =>
      if is_None value then
        praise (TypeError "invalid value for argument 'value', must not be None when specifying optlen")
      else sys (sk_setsockopt (so_sock self) level optname value)
  | Some n =>
      if negb (is_None value) then
        praise (TypeError "invalid value for argument 'value', must be None when specifying optlen")
      else sys (sk_setsockopt_len (so_sock self) level optname n)
  end.

Definition listen (self : Socket) (backlog : option Z) : pyM osE unit :=
  sys (sk_listen (so_sock self) (default (Z.min SOMAXCONN 128) backlog)).

Definition get_inheritable (self : Socket) : pyM osE bool :=
  sys (sk_get_inheritable (so_sock self)).
Definition set_inheritable (self : Socket) (b : bool) : pyM osE unit :=
  sys (sk_set_inheritable (so_sock self) b).

Definition family (self : Socket) : pyM osE Z := sys (sk_family (so_sock self)).
Definition type (self : Socket) : pyM osE Z := sys (sk_type (so_sock self)).
Definition proto (self : Socket) : pyM osE Z := sys (sk_proto (so_sock self)).

Definition dup (self : Socket) : pyM osE Socket :=
  let! s := sys (sk_dup (so_sock self)) in Socket_new s.

(** Deregister first, then close the descriptor. *)
Definition close (self : Socket) : pyM osE unit :=
  let! fd := sys (sk_fileno (so_sock self)) in
  if (fd =? -1)%Z then pret tt
  else
    io_close (so_io self) ;;;
    sys (sk_close (so_sock self)).

(** [with sock: body]: [__enter__] returns the socket, [__exit__] closes it. *)
Definition with_socket {A} (self : Socket) (body : pyM osE A) : pyM osE A :=
  pfinally body (close self).

Definition shutdown (self : Socket) (flag : Z) : pyM osE unit :=
  sys (sk_shutdown (so_sock self) flag) ;;;
  if (flag =? SHUT_WR)%Z || (flag =? SHUT_RDWR)%Z then pop (EofSet (so_io self)) else pret tt.

Definition from_stdlib_socket (sock : nat) : pyM osE Socket := Socket_new sock.

Definition socket (family type proto : Z) (fileno : option Z) : pyM osE Socket :=
  let! stdlib_socket := sys (sk_new family type proto fileno) in
  from_stdlib_socket stdlib_socket.

(** ** Address resolution *)

Definition getaddrinfo (host port : pyobj) (family type proto flags : Z)
    : pyM osE (list addrinfo) :=
  blocking (so_getaddrinfo host port family type proto flags).

(** The check of the address at the head of the module's [_resolve_address]: [inr] is
    an early return, [inl] the tuple to resolve. *)
Definition check_address (family : Z) (address : pyobj) : pyM osE (list pyobj + pyobj) :=
  if (family =? AF_INET)%Z then
    match is_tuple address with
    | Some l =>
        if length l =? 2 then pret (inl l)
        else praise (ValueError "address should be a (host, port) tuple")
    | None => praise (ValueError "address should be a (host, port) tuple")
    end
  else if (family =? AF_INET6)%Z then
    match is_tuple address with
    | Some l =>
        if (2 <=? length l) && (length l <=? 4) then pret (inl l)
        else praise (ValueError "address should be a (host, port, [flowinfo, [scopeid]]) tuple")
    | None => praise (ValueError "address should be a (host, port, [flowinfo, [scopeid]]) tuple")
    end
  else if (family =? AF_UNIX)%Z then
    match fspath address with
    | Ok p => pret (inr p)
    | Err _ => praise AssertionError
    end
  else pret (inr address).

(** A numeric host with an integer port needs no lookup. *)
Definition is_numeric (family : Z) (host port : pyobj) : pyM osE bool :=
  if is_int port && negb (is_None host) then
    ptry_else (sys (inet_pton family host))
      (fun e => if is_OSError e || match e with TypeError _ => true | _ => false end
                then Some (pret false) else None)
      (fun _ => pret true)
  else pret false.

Definition resolve_flags (local : bool) (family : Z) (ipv6_v6only : bool) : Z :=
  let flags := 0%Z in
  let flags := if local then Z.lor flags AI_PASSIVE else flags in
  if (family =? AF_INET6)%Z && negb ipv6_v6only then Z.lor flags AI_V4MAPPED else flags.

(** [list_normed[i] = address[i]] for the optional fields of an IPv6 address. *)
Definition merge_ipv6 (normed address : list pyobj) : list pyobj :=
  let l := match address !! 2 with Some x => <[2:=x]> normed | None => normed end in
  match address !! 3 with Some x => <[3:=x]> l | None => l end.

Definition _resolve_address (type_ family proto : Z) (ipv6_v6only : bool)
    (address : pyobj) (local : bool) : pyM osE pyobj :=
  let! checked := check_address family address in
  match checked with
  | inr a => pret a
  | inl l =>
      match l with
      | host :: port :: _ =>
          let! numeric := is_numeric family host port in
          if numeric then pret address
          else
            let host := if eq_str host "" then PNone else host in
            let host := if eq_str host "<broadcast>" then PStr "255.255.255.255" else host in
            let! gai_res := getaddrinfo host port family type_ proto
                              (resolve_flags local family ipv6_v6only) in
            passert (1 <=? length gai_res) ;;;
            match gai_res with
            | ai :: _ =>
                let normed := ai_addr ai in
                if (family =? AF_INET6)%Z then
                  match is_tuple normed with
                  | Some nl =>
                      passert (length nl =? 4) ;;;
                      pret (PTuple (merge_ipv6 nl l))
                  | None => praise (TypeError "object is not iterable")
                  end
                else pret normed
            | [] => praise AssertionError
            end
      | _ => praise (ValueError "not enough values to unpack")
      end
  end.

Definition Socket_resolve_address (self : Socket) (address : pyobj) (local : bool)
    : pyM osE pyobj :=
  let! fam := family self in
  let! ipv6_v6only :=
    (if (fam =? AF_INET6)%Z then
       let! v := sys (sk_getsockopt (so_sock self) IPPROTO_IPV6 IPV6_V6ONLY) in
       pret (negb (v =? 0)%Z)
     else pret false) in
  let! ty := type self in
  let! fam := family self in
  let! pr := proto self in
  _resolve_address ty fam pr ipv6_v6only address local.

Definition bind (self : Socket) (address : pyobj) : pyM osE unit :=
  let! address := Socket_resolve_address self address true in
  blocking (sk_bind (so_sock self) address).

(** ** Waiting for the descriptor *)

(** The clauses of the [try] around a read: a signal retries, [EWOULDBLOCK] clears the
    direction, anything else is raised. *)
Definition on_transient {A} (clear : pyM osE unit) (e : exn) : option (pyM osE (option A)) :=
  if is_Interrupted e then Some (pret None)
  else if is_BlockingIO e then Some (clear ;;; pret None)
  else Some (praise e).

(** [while True: arm or call].  One iteration arms the direction and waits, or performs
    the call. *)
Definition io_loop {A} (arm : pyM osE (option nat)) (clear : pyM osE unit)
    (call : pyM osE A) : pyM osE A :=
  ploop
    (let! waiter := arm in
     match waiter with
     | Some w => await_io w ;;; pret None
     | None => ptry_else call (on_transient clear) (fun ret => pret (Some ret))
     end).

Definition read_loop {A} (self : Socket) (call : pyM osE A) : pyM osE A :=
  io_loop (io_arm_r (so_io self)) (io_clear_r (so_io self)) call.

Definition write_loop {A} (self : Socket) (call : pyM osE A) : pyM osE A :=
  io_loop (io_arm_w (so_io self)) (io_clear_w (so_io self)) call.

Definition accept (self : Socket) : pyM osE (Socket * pyobj) :=
  let! ca := read_loop self (sys (sk_accept (so_sock self))) in
  let! s := from_stdlib_socket (fst ca) in
  pret (s, snd ca).

Definition recv (self : Socket) (bufsize flags : Z) : pyM osE bytes :=
  read_loop self (sys (sk_recv (so_sock self) bufsize flags)).

Definition recv_into (self : Socket) (buffer : nat) (nbytes flags : Z) : pyM osE Z :=
  read_loop self (sys (sk_recv_into (so_sock self) buffer nbytes flags)).

Definition recvfrom (self : Socket) (bufsize flags : Z) : pyM osE (bytes * pyobj) :=
  read_loop self (sys (sk_recvfrom (so_sock self) bufsize flags)).

Definition recvfrom_into (self : Socket) (buffer : nat) (nbytes flags : Z)
    : pyM osE (Z * pyobj) :=
  read_loop self (sys (sk_recvfrom_into (so_sock self) buffer nbytes flags)).

Definition recvmsg (self : Socket) (bufsize ancbufsize flags : Z)
    : pyM osE (bytes * pyobj) :=
  read_loop self (sys (sk_recvmsg (so_sock self) bufsize ancbufsize flags)).

Definition recvmsg_into (self : Socket) (buffers : nat) (ancbufsize flags : Z)
    : pyM osE (Z * pyobj) :=
  read_loop self (sys (sk_recvmsg_into (so_sock self) buffers ancbufsize flags)).

(** [try: return call() except BlockingIOError, InterruptedError: pass], then the loop. *)
Definition eager_write {A} (self : Socket) (call : pyM osE A) : pyM osE A :=
  ptry_else call
    (fun e => if is_transient e then Some (write_loop self call) else None)
    pret.

Definition send (self : Socket) (data : bytes) (flags : Z) : pyM osE Z :=
  match data with
  | [] => pret 0%Z
  | _ => eager_write self (sys (sk_send (so_sock self) data flags))
  end.

(** [None] for empty data. *)
Definition sendto (self : Socket) (data : bytes) (address : pyobj) : pyM osE (option Z) :=
  match data with
  | [] => pret None
  | _ =>
      let! address := Socket_resolve_address self address false in
      let! n := eager_write self (sys (sk_sendto (so_sock self) data address)) in
      pret (Some n)
  end.

Definition sendmsg (self : Socket) (buffers : list bytes) (ancdata : pyobj) (flags : Z)
    (address : pyobj) : pyM osE Z :=
  let! address := (if is_None address then pret address
                   else Socket_resolve_address self address false) in
  eager_write self (sys (sk_sendmsg (so_sock self) buffers ancdata flags address)).

(** One round of the completion check of [connect]. *)
Definition connect_check (self : Socket) : pyM osE (option unit) :=
  let! err := sys (sk_getsockopt (so_sock self) SOL_SOCKET SO_ERROR) in
  if negb (err =? 0)%Z then praise (os_error err)
  else
    ptry_else (sys (sk_getpeername (so_sock self)))
      (fun e => if is_OSError e then Some (io_clear_w (so_io self) ;;; pret None) else None)
      (fun _ => pret (Some tt)).

Definition connect_loop (self : Socket) : pyM osE unit :=
  ploop
    (let! waiter := io_arm_w (so_io self) in
     match waiter with
     | Some w => await_io w ;;; pret None
     | None => connect_check self
     end).

Definition connect (self : Socket) (address : pyobj) : pyM osE unit :=
  let! address := Socket_resolve_address self address false in
  ptry_else (sys (sk_connect (so_sock self) address))
    (fun e => if is_transient e then Some (connect_loop self) else None)
    pret.
