(* ===== verification/Streams.v ===== *)
(** * Socket streams and listeners

    [src/tonio/_net/_streams.py] and the base class of [src/tonio/_streams.py]. *)

From stdpp Require Import base numbers list strings gmap.
From Stdlib Require Import ZArith Lia.
From ITree Require Import ITree ITreeFacts.
From S2P Require Import Prelude Coro Os Socket.

Open Scope tonio_scope.

(** [memoryview(data)]: bytes-like objects only. *)
Definition memoryview (data : pyobj) : result bytes :=
  match data with
  | PBytes b => Ok b
  | _ => Err (TypeError "memoryview: a bytes-like object is required")
  end.

(** [with suppress(OSError): c]. *)
Definition suppress_OSError (c : pyM osE unit) : pyM osE unit :=
  ptry c (fun e => if is_OSError e then Some (pret tt) else None).

(** A [SocketStream] holds its socket.  [None] stands for an argument that is not a TonIO
    socket. *)
Record SocketStream := mkStream { st_socket : Socket }.

Definition SocketStream_init (socket : option Socket) : pyM osE SocketStream :=
  match socket with
  | None => praise (TypeError "SocketStream requires a TonIO socket object")
  | Some sock =>
      let! ty := type sock in
      if negb (ty =? SOCK_STREAM)%Z then
        praise (ValueError "SocketStream requires a SOCK_STREAM socket")
      else
        suppress_OSError (setsockopt sock IPPROTO_TCP TCP_NODELAY (PInt 1) None) ;;;
        suppress_OSError (setsockopt sock IPPROTO_TCP TCP_NOTSENT_LOWAT (PInt (2 ^ 14)) None) ;;;
        pret (mkStream sock)
  end.

(** The loop of [send_all] over the bytes sent so far. *)
Definition send_rest (self : SocketStream) (data : bytes) : Z -> pyM osE unit :=
  pwhile (fun total_sent =>
    if (total_sent <? Z.of_nat (length data))%Z then
      let! sent := send (st_socket self) (drop (Z.to_nat total_sent) data) 0 in
      pret (inl (total_sent + sent)%Z)
    else pret (inr tt)).

Definition send_all (self : SocketStream) (data : pyobj) : pyM osE unit :=
  let! eof := pop (EofGet (so_io (st_socket self))) in
  if (eof : bool) then praise (RuntimeError "can't send data after sending EOF")
  else
    match memoryview data with
    | Err e => praise e
    | Ok [] => pret tt
    | Ok b => send_rest self b 0
    end.

Definition send_eof (self : SocketStream) : pyM osE unit :=
  let! eof := pop (EofGet (so_io (st_socket self))) in
  if (eof : bool) then pret tt
  else Socket.shutdown (st_socket self) SHUT_WR.

(** [max_bytes or 65536]. *)
Definition or_default (max_bytes : option Z) : Z :=
  match max_bytes with
  | None => 65536
  | Some n => if (n =? 0)%Z then 65536 else n
  end.

Definition receive_some (self : SocketStream) (max_bytes : option Z) : pyM osE bytes :=
  recv (st_socket self) (or_default max_bytes) 0.

Definition SocketStream_close (self : SocketStream) : pyM osE unit := close (st_socket self).

(** [with stream: body] of [_Stream]: [__exit__] closes. *)
Definition with_stream {A} (self : SocketStream) (body : pyM osE A) : pyM osE A :=
  pfinally body (SocketStream_close self).

(** ** Listeners *)

(** [ECONNABORTED], [ECONNRESET], [EHOSTDOWN], [EHOSTUNREACH], [ENETDOWN], [ENETUNREACH],
    [ENONET], [ENOPROTOOPT], [ENOSR], [EOPNOTSUPP], [EPERM], [EPROTO], [EPROTONOSUPPORT],
    [ESOCKTNOSUPPORT], [ETIMEDOUT]. *)
Definition ignorable_accept_errnos : list Z :=
  [103; 104; 112; 113; 100; 101; 64; 92; 63; 95; 1; 71; 93; 94; 110]%Z.

Definition ignorable (e : exn) : bool :=
  match exn_errno e with Some n => bool_decide (n ∈ ignorable_accept_errnos) | None => false end.

Record SocketListener := mkListener { ls_socket : Socket }.

Definition SocketListener_init (socket : option Socket) : pyM osE SocketListener :=
  match socket with
  | None => praise (TypeError "SocketStream requires a TonIO socket object")
  | Some sock =>
      let! ty := type sock in
      if negb (ty =? SOCK_STREAM)%Z then
        praise (ValueError "SocketStream requires a SOCK_STREAM socket")
      else pret (mkListener sock)
  end.

Definition SocketListener_accept (self : SocketListener) : pyM osE SocketStream :=
  ploop
    (ptry_else (accept (ls_socket self))
       (fun e => if is_OSError e
                 then Some (if negb (ignorable e) then praise e else pret None) else None)
       (fun sa => let! st := SocketStream_init (Some (fst sa)) in pret (Some st))).

Definition SocketListener_close (self : SocketListener) : pyM osE unit :=
  close (ls_socket self).
