(* ===== verification/Fd.v ===== *)
(** * Descriptors and descriptor streams

    [src/tonio/_fd.py] with the native [Fd] of [src/src/fd.rs] and [ProcFd] of
    [src/src/proc.rs]. *)

From stdpp Require Import base numbers list strings gmap.
From Stdlib Require Import ZArith Lia.
From ITree Require Import ITree ITreeFacts.
From S2P Require Import Prelude Coro Os Socket Streams.

Open Scope tonio_scope.

(** ** [Fd] *)

Record Fd := mkFd { fd_io : nat }.

(** [Fd::new]: note the blocking mode, make the descriptor non-blocking, own it and
    register it. *)
Definition Fd_new (fd : Z) : pyM osE Fd :=
  let! blk := sys (os_get_blocking fd) in
  sys (os_set_blocking fd false) ;;;
  let! io := pcall (IoRegister fd) in
  pop (FdOwn io fd blk) ;;;
  pret (mkFd io).

(** [Fd::_drop]: give the descriptor up and restore its mode; an error is ignored. *)
Definition Fd_drop (self : Fd) : pyM osE unit :=
  let! inner := pop (FdTake (fd_io self)) in
  match inner with
  | Some (fd, blk) => ptry (sys (os_set_blocking fd blk)) (fun _ => Some (pret tt))
  | None => pret tt
  end.

Definition Fd_closed (self : Fd) : pyM osE bool :=
  let! fd := pop (FdGet (fd_io self)) in pret (fd =? -1)%Z.

Definition Fd_close (self : Fd) : pyM osE unit :=
  let! closed := Fd_closed self in
  if (closed : bool) then pret tt
  else
    let! fd := pop (FdGet (fd_io self)) in
    io_close (fd_io self) ;;;
    Fd_drop self ;;;
    sys (os_close fd).

(** ** [ProcFd]: a descriptor that becomes readable when a process exits *)

Definition ProcFd_drop (self : Fd) : pyM osE unit :=
  let! inner := pop (FdTake (fd_io self)) in
  pret tt.

Definition ProcFd_close (self : Fd) : pyM osE unit :=
  let! closed := Fd_closed self in
  if (closed : bool) then pret tt
  else
    let! fd := pop (FdGet (fd_io self)) in
    io_close (fd_io self) ;;;
    ProcFd_drop self ;;;
    sys (os_close fd).

(** [ProcFd::new]: the exit descriptor of the process, registered for reading. *)
Definition ProcFd_new (exit_fd : pyM osE Z) : pyM osE Fd :=
  let! fd := exit_fd in
  let! io := pcall (IoRegister fd) in
  pop (FdOwn io fd false) ;;;
  pret (mkFd io).

Definition open_proc_fd (exit_fd : pyM osE Z) : pyM osE (option Fd) :=
  ptry_else (ProcFd_new exit_fd)
    (fun e => match e with OSError ProcessLookupError _ => Some (pret None) | _ => None end)
    (fun p => pret (Some p)).

(** ** [FdStream] *)

Record FdStream := mkFdStream { fs_fd : Fd; fs_lock_r : nat; fs_lock_w : nat }.

Definition FdStream_init (fd : Z) : pyM osE FdStream :=
  let! f := Fd_new fd in
  let! lr := pop NewLock in
  let! lw := pop NewLock in
  pret (mkFdStream f lr lw).

Definition FdStream_fileno (self : FdStream) : pyM osE Z := pop (FdGet (fd_io (fs_fd self))).

(** [with lock.or_raise(): body]. *)
Definition with_or_raise {A} (l : nat) (body : pyM osE A) : pyM osE A :=
  pcall (TryLock l) ;;; pfinally body (pop (Unlock l)).

(** The clauses around [os.write]: as in the sockets, with a broken pipe reported as
    [ResourceBroken]. *)
Definition on_write_error (clear : pyM osE unit) (e : exn) : option (pyM osE (option Z)) :=
  if is_Interrupted e then Some (pret None)
  else if is_BlockingIO e then Some (clear ;;; pret None)
  else if is_BrokenPipe e then Some (praise (ResourceBroken (Some e)))
  else Some (praise e).

(** The inner loop: one write of the remaining bytes. *)
Definition fd_write_loop (io : nat) (fd : Z) (remaining : bytes) : pyM osE Z :=
  ploop
    (let! waiter := io_arm_w io in
     match waiter with
     | Some w => await_io w ;;; pret None
     | None =>
         ptry_else (sys (os_write fd remaining)) (on_write_error (io_clear_w io))
           (fun n => pret (Some n))
     end).

Definition fd_send_rest (io : nat) (fd : Z) (data : bytes) : Z -> pyM osE unit :=
  pwhile (fun sent =>
    if (sent <? Z.of_nat (length data))%Z then
      let! n := fd_write_loop io fd (drop (Z.to_nat sent) data) in
      pret (inl (sent + n)%Z)
    else pret (inr tt)).

Definition FdStream_send_all (self : FdStream) (data : pyobj) : pyM osE unit :=
  let! closed := Fd_closed (fs_fd self) in
  if (closed : bool) then praise (RuntimeError "file closed")
  else
    let! fd := FdStream_fileno self in
    with_or_raise (fs_lock_w self)
      (match memoryview data with
       | Err e => praise e
       | Ok [] => pret tt
       | Ok b => fd_send_rest (fd_io (fs_fd self)) fd b 0
       end).

Definition FdStream_receive_some (self : FdStream) (max_bytes : option Z) : pyM osE bytes :=
  let max_bytes := or_default max_bytes in
  let! closed := Fd_closed (fs_fd self) in
  if (closed : bool) then praise (RuntimeError "file closed")
  else
    let! fd := FdStream_fileno self in
    with_or_raise (fs_lock_r self)
      (io_loop (io_arm_r (fd_io (fs_fd self))) (io_clear_r (fd_io (fs_fd self)))
         (sys (os_read fd max_bytes))).

Definition FdStream_close (self : FdStream) : pyM osE unit := Fd_close (fs_fd self).
