(* ===== verification/ColoredSocket.v ===== *)
(** * Sockets of the [async] API

    [src/tonio/_colored/_net/_socket.py]: the class derives from the one of [Socket] and
    overrides the methods that wait; the rest is inherited. *)

From stdpp Require Import base numbers list strings gmap.
From Stdlib Require Import ZArith Lia.
From ITree Require Import ITree ITreeFacts.
From S2P Require Import Prelude Coro Os Socket.

Open Scope tonio_scope.

Definition from_stdlib_socket (sock : nat) : pyM osE Socket := Socket_new sock.

Definition socket (family type proto : Z) (fileno : option Z) : pyM osE Socket :=
  let! stdlib_socket := sys (sk_new family type proto fileno) in
  from_stdlib_socket stdlib_socket.

Definition dup (self : Socket) : pyM osE Socket :=
  let! s := sys (sk_dup (so_sock self)) in Socket_new s.

Definition getaddrinfo (host port : pyobj) (family type proto flags : Z)
    : pyM osE (list addrinfo) :=
  blocking (so_getaddrinfo host port family type proto flags).

Definition _resolve_address (type_ family proto : Z) (ipv6_v6only : bool)
    (address : pyobj) (local : bool) : pyM osE pyobj :=
  let! checked := check_address family address in
  match checked with
  | inr a => pret a
  | inl l =>
      match l with
      | host :: port :: _ =>
          let! numeric := is_numeric family host port in
          if numeric then pret address
          else
            let host := if eq_str host "" then PNone else host in
            let host := if eq_str host "<broadcast>" then PStr "255.255.255.255" else host in
            let! gai_res := getaddrinfo host port family type_ proto
                              (resolve_flags local family ipv6_v6only) in
            passert (1 <=? length gai_res) ;;;
            match gai_res with
            | ai :: _ =>
                let normed := ai_addr ai in
                if (family =? AF_INET6)%Z then
                  match is_tuple normed with
                  | Some nl =>
                      passert (length nl =? 4) ;;;
                      pret (PTuple (merge_ipv6 nl l))
                  | None => praise (TypeError "object is not iterable")
                  end
                else pret normed
            | [] => praise AssertionError
            end
      | _ => praise (ValueError "not enough values to unpack")
      end
  end.

Definition Socket_resolve_address (self : Socket) (address : pyobj) (local : bool)
    : pyM osE pyobj :=
  let! fam := family self in
  let! ipv6_v6only :=
    (if (fam =? AF_INET6)%Z then
       let! v := sys (sk_getsockopt (so_sock self) IPPROTO_IPV6 IPV6_V6ONLY) in
       pret (negb (v =? 0)%Z)
     else pret false) in
  let! ty := type self in
  let! fam := family self in
  let! pr := proto self in
  _resolve_address ty fam pr ipv6_v6only address local.

Definition bind (self : Socket) (address : pyobj) : pyM osE unit :=
  let! address := Socket_resolve_address self address true in
  blocking (sk_bind (so_sock self) address).

Definition accept (self : Socket) : pyM osE (Socket * pyobj) :=
  let! ca := read_loop self (sys (sk_accept (so_sock self))) in
  let! s := from_stdlib_socket (fst ca) in
  pret (s, snd ca).

Definition recv (self : Socket) (bufsize flags : Z) : pyM osE bytes :=
  read_loop self (sys (sk_recv (so_sock self) bufsize flags)).

Definition recv_into (self : Socket) (buffer : nat) (nbytes flags : Z) : pyM osE Z :=
  read_loop self (sys (sk_recv_into (so_sock self) buffer nbytes flags)).

Definition recvfrom (self : Socket) (bufsize flags : Z) : pyM osE (bytes * pyobj) :=
  read_loop self (sys (sk_recvfrom (so_sock self) bufsize flags)).

Definition recvfrom_into (self : Socket) (buffer : nat) (nbytes flags : Z)
    : pyM osE (Z * pyobj) :=
  read_loop self (sys (sk_recvfrom_into (so_sock self) buffer nbytes flags)).

Definition recvmsg (self : Socket) (bufsize ancbufsize flags : Z)
    : pyM osE (bytes * pyobj) :=
  read_loop self (sys (sk_recvmsg (so_sock self) bufsize ancbufsize flags)).

Definition recvmsg_into (self : Socket) (buffers : nat) (ancbufsize flags : Z)
    : pyM osE (Z * pyobj) :=
  read_loop self (sys (sk_recvmsg_into (so_sock self) buffers ancbufsize flags)).

Definition send (self : Socket) (data : bytes) (flags : Z) : pyM osE Z :=
  match data with
  | [] => pret 0%Z
  | _ => eager_write self (sys (sk_send (so_sock self) data flags))
  end.

Definition sendto (self : Socket) (data : bytes) (address : pyobj) : pyM osE (option Z) :=
  match data with
  | [] => pret None
  | _ =>
      let! address := Socket_resolve_address self address false in
      let! n := eager_write self (sys (sk_sendto (so_sock self) data address)) in
      pret (Some n)
  end.

Definition sendmsg (self : Socket) (buffers : list bytes) (ancdata : pyobj) (flags : Z)
    (address : pyobj) : pyM osE Z :=
  let! address := (if is_None address then pret address
                   else Socket_resolve_address self address false) in
  eager_write self (sys (sk_sendmsg (so_sock self) buffers ancdata flags address)).

Definition connect (self : Socket) (address : pyobj) : pyM osE unit :=
  let! address := Socket_resolve_address self address false in
  ptry_else (sys (sk_connect (so_sock self) address))
    (fun e => if is_transient e then Some (connect_loop self) else None)
    pret.

