(* ===== verification/ColoredStreams.v ===== *)
(** * Socket and descriptor streams of the [async] API

    [src/tonio/_colored/_net/_streams.py] and [src/tonio/_colored/_fd.py]. *)

From stdpp Require Import base numbers list strings gmap.
From Stdlib Require Import ZArith Lia.
From ITree Require Import ITree ITreeFacts.
From S2P Require Import Prelude Coro Os Socket Streams Fd ColoredSocket.

Open Scope tonio_scope.

Definition SocketStream_init (socket : option Socket) : pyM osE SocketStream :=
  match socket with
  | None => praise (TypeError "SocketStream requires a TonIO socket object")
  | Some sock =>
      let! ty := type sock in
      if negb (ty =? SOCK_STREAM)%Z then
        praise (ValueError "SocketStream requires a SOCK_STREAM socket")
      else
        suppress_OSError (setsockopt sock IPPROTO_TCP TCP_NODELAY (PInt 1) None) ;;;
        suppress_OSError (setsockopt sock IPPROTO_TCP TCP_NOTSENT_LOWAT (PInt (2 ^ 14)) None) ;;;
        pret (mkStream sock)
  end.

Definition send_rest (self : SocketStream) (data : bytes) : Z -> pyM osE unit :=
  pwhile (fun total_sent =>
    if (total_sent <? Z.of_nat (length data))%Z then
      let! sent := send (st_socket self) (drop (Z.to_nat total_sent) data) 0 in
      pret (inl (total_sent + sent)%Z)
    else pret (inr tt)).

Definition send_all (self : SocketStream) (data : pyobj) : pyM osE unit :=
  let! eof := pop (EofGet (so_io (st_socket self))) in
  if (eof : bool) then praise (RuntimeError "can't send data after sending EOF")
  else
    match memoryview data with
    | Err e => praise e
    | Ok [] => pret tt
    | Ok b => send_rest self b 0
    end.

Definition send_eof (self : SocketStream) : pyM osE unit :=
  let! eof := pop (EofGet (so_io (st_socket self))) in
  if (eof : bool) then pret tt
  else Socket.shutdown (st_socket self) SHUT_WR.

Definition receive_some (self : SocketStream) (max_bytes : option Z) : pyM osE bytes :=
  recv (st_socket self) (or_default max_bytes) 0.

Definition SocketStream_close (self : SocketStream) : pyM osE unit := close (st_socket self).

Definition SocketListener_init (socket : option Socket) : pyM osE SocketListener :=
  match socket with
  | None => praise (TypeError "SocketStream requires a TonIO socket object")
  | Some sock =>
      let! ty := type sock in
      if negb (ty =? SOCK_STREAM)%Z then
        praise (ValueError "SocketStream requires a SOCK_STREAM socket")
      else pret (mkListener sock)
  end.

Definition SocketListener_accept (self : SocketListener) : pyM osE SocketStream :=
  ploop
    (ptry_else (accept (ls_socket self))
       (fun e => if is_OSError e
                 then Some (if negb (ignorable e) then praise e else pret None) else None)
       (fun sa => let! st := SocketStream_init (Some (fst sa)) in pret (Some st))).

Definition SocketListener_close (self : SocketListener) : pyM osE unit :=
  close (ls_socket self).

Definition fd_write_loop (io : nat) (fd : Z) (remaining : bytes) : pyM osE Z :=
  ploop
    (let! waiter := io_arm_w io in
     match waiter with
     | Some w => await_io w ;;; pret None
     | None =>
         ptry_else (sys (os_write fd remaining)) (on_write_error (io_clear_w io))
           (fun n => pret (Some n))
     end).

Definition fd_send_rest (io : nat) (fd : Z) (data : bytes) : Z -> pyM osE unit :=
  pwhile (fun sent =>
    if (sent <? Z.of_nat (length data))%Z then
      let! n := fd_write_loop io fd (drop (Z.to_nat sent) data) in
      pret (inl (sent + n)%Z)
    else pret (inr tt)).

Definition FdStream_send_all (self : FdStream) (data : pyobj) : pyM osE unit :=
  let! closed := Fd_closed (fs_fd self) in
  if (closed : bool) then praise (RuntimeError "file closed")
  else
    let! fd := FdStream_fileno self in
    with_or_raise (fs_lock_w self)
      (match memoryview data with
       | Err e => praise e
       | Ok [] => pret tt
       | Ok b => fd_send_rest (fd_io (fs_fd self)) fd b 0
       end).

Definition FdStream_receive_some (self : FdStream) (max_bytes : option Z) : pyM osE bytes :=
  let max_bytes := or_default max_bytes in
  let! closed := Fd_closed (fs_fd self) in
  if (closed : bool) then praise (RuntimeError "file closed")
  else
    let! fd := FdStream_fileno self in
    with_or_raise (fs_lock_r self)
      (io_loop (io_arm_r (fd_io (fs_fd self))) (io_clear_r (fd_io (fs_fd self)))
         (sys (os_read fd max_bytes))).

