(* ===== verification/Tls.v ===== *)
(** * TLS streams

    [src/tonio/_net/_tls.py] ([_SSLProxy], [TLSStream], [TLSListener]) with the native
    state of [src/src/net/tls.rs].  The TLS engine ([ssl.SSLObject] and its memory BIOs)
    and the transport are operations; the fields of the Python object are shared state. *)

From stdpp Require Import base numbers list strings gmap.
From Stdlib Require Import ZArith Lia.
From ITree Require Import ITree ITreeFacts.
From S2P Require Import Prelude Coro Os.

Open Scope tonio_scope.

(** ** The native state *)

Definition Init : Z := 0.
Definition Handshake : Z := 1.
Definition Ready : Z := 2.
Definition Broken : Z := 3.
Definition Closed : Z := 4.

(** [compare_exchange] from one state to the next. *)
Definition handshake_pre (st : Z) : result unit * Z :=
  if (st =? Init)%Z then (Ok tt, Handshake)
  else (Err (RuntimeError "Invalid TLSStream state change"), st).

Definition handshake_post (st : Z) : result unit * Z :=
  if (st =? Handshake)%Z then (Ok tt, Ready)
  else (Err (RuntimeError "Invalid TLSStream state change"), st).

Definition set_broken (st : Z) : result unit * Z := (Ok tt, Broken).
Definition set_closed (st : Z) : result unit * Z := (Ok tt, Closed).
Definition check_ready (st : Z) : result unit * Z :=
  (if (st =? Ready)%Z then Ok tt else Err (RuntimeError "TLSStream in bad state"), st).

(** ** Operations *)

(** The methods of the engine. *)
Inductive ssl_op : Type :=
| SslRead (len : Z)
| SslWrite (data : bytes)
| SslDoHandshake
| SslUnwrap.

(** The mutable fields of the Python object. *)
Record tls_attrs := mkAttrs {
  at_egress_stack : bytes; at_recv_count : Z; at_recv_est_size : Z
}.

Variant tlsE : Type -> Type :=
| State (f : Z -> result unit * Z) : tlsE (result unit)
| GetState : tlsE Z
| Attrs {A} (f : tls_attrs -> A * tls_attrs) : tlsE A
| Compat : tlsE bool
| LockRecv : tlsE (result unit)
| UnlockRecv : tlsE unit
| LockSend : tlsE (result unit)
| UnlockSend : tlsE unit
| Engine (op : ssl_op) : tlsE (result bytes)
| EgressRead : tlsE bytes
| IngressWrite (data : bytes) : tlsE unit
| IngressWriteEof : tlsE unit
| IngressPending : tlsE Z
| ServerSide : tlsE bool
| Version : tlsE string
| TransportRecv : tlsE (result bytes)
| TransportSend (data : bytes) : tlsE (result unit)
| TransportClose : tlsE (result unit).

Definition state_op (f : Z -> result unit * Z) : pyM tlsE unit := pcall (State f).
Definition attrs_op {A} (f : tls_attrs -> A * tls_attrs) : pyM tlsE A := pop (Attrs f).

(** ** [_SSLProxy] *)

Definition is_SSLError (e : exn) : bool := match e with SSLError _ _ => true | _ => false end.
Definition is_WantRead (e : exn) : bool :=
  match e with SSLError SSLWantReadError _ => true | _ => false end.

(** [needle in text]. *)
Fixpoint contains (needle text : string) : bool :=
  String.prefix needle text ||
  match text with EmptyString => false | String _ t => contains needle t end.

Definition _is_eof (exc : option exn) : bool :=
  match exc with
  | Some (SSLError SSLEOFError _) => true
  | Some (SSLError _ strerror) => contains "UNEXPECTED_EOF_WHILE_READING" strerror
  | _ => false
  end.

(** [_step]: the answer ([None] with [want_read]), and what the engine wants sent. *)
Definition _step (fn : ssl_op) : pyM tlsE (option bytes * bool * bytes) :=
  ptry_else (pcall (Engine fn))
    (fun e => if is_WantRead e
              then Some (let! out := pop EgressRead in pret (None, true, out)) else None)
    (fun ret => let! out := pop EgressRead in pret (Some ret, false, out)).

Definition _read (max_bytes : Z) := _step (SslRead max_bytes).
Definition _write (data : bytes) := _step (SslWrite data).
Definition _do_handshake := _step SslDoHandshake.
Definition _unwrap := _step SslUnwrap.

(** ** [TLSStream] *)

Definition TLSStream_init : tls_attrs := mkAttrs [] 0 16384.

(** [with (yield lock()): body]. *)
Definition with_recv_lock (body : pyM tlsE unit) : pyM tlsE unit :=
  pcall LockRecv ;;; pfinally body (pop UnlockRecv).
Definition with_send_lock (body : pyM tlsE unit) : pyM tlsE unit :=
  pcall LockSend ;;; pfinally body (pop UnlockSend).

Definition recv_count : pyM tlsE Z := attrs_op (fun a => (at_recv_count a, a)).

Definition _recv : pyM tlsE unit :=
  let! count := recv_count in
  with_recv_lock
    (let! now := recv_count in
     if (count =? now)%Z then
       let! data := pcall TransportRecv in
       (match data with
        | [] => pop IngressWriteEof
        | _ =>
            attrs_op (fun a => (tt, mkAttrs (at_egress_stack a) (at_recv_count a)
                                      (Z.max (at_recv_est_size a) (Z.of_nat (length data))))) ;;;
            pop (IngressWrite data)
        end) ;;;
       attrs_op (fun a => (tt, mkAttrs (at_egress_stack a) (at_recv_count a + 1) (at_recv_est_size a)))
     else pret tt).

(** [self._egress_stack.extend(data)]. *)
Definition egress_extend (data : bytes) : pyM tlsE unit :=
  attrs_op (fun a => (tt, mkAttrs (at_egress_stack a ++ data) (at_recv_count a) (at_recv_est_size a))).

(** [data = bytes(stack); stack.clear()]. *)
Definition egress_take : pyM tlsE bytes :=
  let! data := attrs_op (fun a => (at_egress_stack a, a)) in
  attrs_op (fun a => (tt, mkAttrs [] (at_recv_count a) (at_recv_est_size a))) ;;;
  pret data.

Definition _send (data : bytes) : pyM tlsE unit :=
  with_send_lock
    (ptry
       (egress_extend data ;;;
        let! data := egress_take in
        pcall (TransportSend data))
       (fun e => Some (state_op set_broken ;;; praise e))).

(** [except (SSLError, CertificateError) as exc: self._set_broken(); raise ResourceBroken
    from exc]. *)
Definition broken_by {A} (e : exn) : option (pyM tlsE A) :=
  if is_SSLError e then Some (state_op set_broken ;;; praise (ResourceBroken (Some e))) else None.

Definition _ssl_dance (fn : ssl_op) : pyM tlsE bytes :=
  ploop
    (let! step := ptry (_step fn) broken_by in
     match step with
     | (ret, want_read, to_send) =>
         (match to_send with
          | [] => if want_read then _recv else pret tt
          | _ => _send to_send
          end) ;;;
         pret (if want_read then None else Some (default [] ret))
     end).

(** One round of the handshake; [true] when done. *)
Definition handshake_round : pyM tlsE bool :=
  let! step := ptry _do_handshake broken_by in
  match step with
  | (_, want_read, to_send) =>
      let! defer :=
        (if want_read then pret false
         else
           let! server := pop ServerSide in
           if (server : bool) then
             let! v := pop Version in pret (bool_decide (v = "TLSv1.3"%string))
           else pret false) in
      let! to_send :=
        (if (defer : bool) then egress_extend to_send ;;; pret [] else pret to_send) in
      (match to_send with
       | [] => if want_read then _recv else pret tt
       | _ => _send to_send
       end) ;;;
      pret (negb want_read)
  end.

Definition handshake : pyM tlsE unit :=
  state_op handshake_pre ;;;
  ploop (let! done := handshake_round in pret (if (done : bool) then Some tt else None)) ;;;
  state_op handshake_post.

Definition send_all (data : bytes) : pyM tlsE unit :=
  state_op check_ready ;;;
  match data with
  | [] => pret tt
  | _ => let! _ := _ssl_dance (SslWrite data) in pret tt
  end.

Definition receive_some (max_bytes : option Z) : pyM tlsE bytes :=
  state_op check_ready ;;;
  let! max_bytes :=
    (match max_bytes with
     | Some n => pret n
     | None =>
         let! est := attrs_op (fun a => (at_recv_est_size a, a)) in
         let! pending := pop IngressPending in
         pret (Z.max est pending)
     end) in
  ptry (_ssl_dance (SslRead max_bytes))
    (fun e => match e with
              | ResourceBroken cause =>
                  Some (let! compat := pop Compat in
                        if compat && _is_eof cause then pret [] else praise e)
              | _ => None
              end).

(** [with contextlib.suppress(ResourceBroken): c]. *)
Definition suppress_broken (c : pyM tlsE unit) : pyM tlsE unit :=
  ptry c (fun e => if is_ResourceBroken e then Some (pret tt) else None).

Definition transport_close : pyM tlsE unit := pcall TransportClose.

Definition close : pyM tlsE unit :=
  let! st := pop GetState in
  if (st =? Closed)%Z then pret tt
  else
    state_op set_closed ;;;
    let! st := pop GetState in
    let! compat := (if (st =? Broken)%Z then pret true else pop Compat) in
    if (compat : bool) then transport_close
    else
      pfinally
        (suppress_broken
           (let! step := ptry _unwrap broken_by in
            match step with
            | (_, _, []) => pret tt
            | (_, _, to_send) => _send to_send
            end))
        transport_close.

Definition TLSStream_exit : pyM tlsE unit :=
  let! st := pop GetState in
  if (st =? Closed)%Z then pret tt
  else
    let! compat := (if (st =? Broken)%Z then pret true else pop Compat) in
    if (compat : bool) then state_op set_closed ;;; transport_close
    else praise (RuntimeError "TLSStream needs to be manually closed").
