(* ===== verification/ColoredTls.v ===== *)
(** * TLS streams of the [async] API

    [src/tonio/_colored/_net/_tls.py]: [TLSStream] over the shared [_SSLProxy]. *)

From stdpp Require Import base numbers list strings gmap.
From Stdlib Require Import ZArith Lia.
From ITree Require Import ITree ITreeFacts.
From S2P Require Import Prelude Coro Os Tls.

Open Scope tonio_scope.

Definition TLSStream_init : tls_attrs := mkAttrs [] 0 16384.

Definition _recv : pyM tlsE unit :=
  let! count := recv_count in
  with_recv_lock
    (let! now := recv_count in
     if (count =? now)%Z then
       let! data := pcall TransportRecv in
       (match data with
        | [] => pop IngressWriteEof
        | _ =>
            attrs_op (fun a => (tt, mkAttrs (at_egress_stack a) (at_recv_count a)
                                      (Z.max (at_recv_est_size a) (Z.of_nat (length data))))) ;;;
            pop (IngressWrite data)
        end) ;;;
       attrs_op (fun a => (tt, mkAttrs (at_egress_stack a) (at_recv_count a + 1) (at_recv_est_size a)))
     else pret tt).

Definition _send (data : bytes) : pyM tlsE unit :=
  with_send_lock
    (ptry
       (egress_extend data ;;;
        let! data := egress_take in
        pcall (TransportSend data))
       (fun e => Some (state_op set_broken ;;; praise e))).

Definition _ssl_dance (fn : ssl_op) : pyM tlsE bytes :=
  ploop
    (let! step := ptry (_step fn) broken_by in
     match step with
     | (ret, want_read, to_send) =>
         (match to_send with
          | [] => if want_read then _recv else pret tt
          | _ => _send to_send
          end) ;;;
         pret (if want_read then None else Some (default [] ret))
     end).

Definition handshake_round : pyM tlsE bool :=
  let! step := ptry _do_handshake broken_by in
  match step with
  | (_, want_read, to_send) =>
      let! defer :=
        (if want_read then pret false
         else
           let! server := pop ServerSide in
           if (server : bool) then
             let! v := pop Version in pret (bool_decide (v = "TLSv1.3"%string))
           else pret false) in
      let! to_send :=
        (if (defer : bool) then egress_extend to_send ;;; pret [] else pret to_send) in
      (match to_send with
       | [] => if want_read then _recv else pret tt
       | _ => _send to_send
       end) ;;;
      pret (negb want_read)
  end.

Definition handshake : pyM tlsE unit :=
  state_op handshake_pre ;;;
  ploop (let! done := handshake_round in pret (if (done : bool) then Some tt else None)) ;;;
  state_op handshake_post.

Definition send_all (data : bytes) : pyM tlsE unit :=
  state_op check_ready ;;;
  match data with
  | [] => pret tt
  | _ => let! _ := _ssl_dance (SslWrite data) in pret tt
  end.

Definition receive_some (max_bytes : option Z) : pyM tlsE bytes :=
  state_op check_ready ;;;
  let! max_bytes :=
    (match max_bytes with
     | Some n => pret n
     | None =>
         let! est := attrs_op (fun a => (at_recv_est_size a, a)) in
         let! pending := pop IngressPending in
         pret (Z.max est pending)
     end) in
  ptry (_ssl_dance (SslRead max_bytes))
    (fun e => match e with
              | ResourceBroken cause =>
                  Some (let! compat := pop Compat in
                        if compat && _is_eof cause then pret [] else praise e)
              | _ => None
              end).

Definition close : pyM tlsE unit :=
  let! st := pop GetState in
  if (st =? Closed)%Z then pret tt
  else
    state_op set_closed ;;;
    let! st := pop GetState in
    let! compat := (if (st =? Broken)%Z then pret true else pop Compat) in
    if (compat : bool) then transport_close
    else
      pfinally
        (suppress_broken
           (let! step := ptry _unwrap broken_by in
            match step with
            | (_, _, []) => pret tt
            | (_, _, to_send) => _send to_send
            end))
        transport_close.

Definition TLSStream_exit : pyM tlsE unit :=
  let! st := pop GetState in
  if (st =? Closed)%Z then pret tt
  else
    let! compat := (if (st =? Broken)%Z then pret true else pop Compat) in
    if (compat : bool) then state_op set_closed ;;; transport_close
    else praise (RuntimeError "TLSStream needs to be manually closed").
