(* ===== verification/TlsProps.v ===== *)
(** * What TLS streams guarantee

    A [TLSStream] with a scripted engine and transport: what the engine produces goes to
    the transport once and in order, the handshake completes, the stream is used only when
    ready, and the transport is closed. *)

From stdpp Require Import base numbers list strings gmap.
From Stdlib Require Import ZArith Lia.
From ITree Require Import ITree ITreeFacts.
From S2P Require Import Prelude Coro Hoare Os Tls ColoredTls.

Open Scope tonio_scope.
#[local] Set Warnings "-clear-no-such-hyp".

(** ** The environment *)

(** The stream's state and fields; the engine's answers to come, each with what it writes
    to its egress BIO; the transport's answers to come; and what has been exchanged. *)
Record tworld := mkT {
  tw_st : Z; tw_at : tls_attrs; tw_compat : bool; tw_server : bool; tw_version : string;
  tw_engine : list (result bytes * bytes); tw_egress : bytes; tw_produced : bytes;
  tw_in : list (result bytes); tw_fed : list bytes; tw_eof : bool;
  tw_out : list (result unit); tw_sent : list bytes; tw_closed : nat;
  tw_lock_r : bool; tw_lock_s : bool
}.

Definition tls_handle (X : Type) (e : tlsE X) (w : tworld) : option (X * tworld) :=
  let '(mkT st at_ cp sv ver eng eg pr inp fed eof out sent cl lr ls) := w in
  match e in tlsE X return option (X * tworld) with
  | State f =>
      Some (fst (f st), mkT (snd (f st)) at_ cp sv ver eng eg pr inp fed eof out sent cl lr ls)
  | GetState => Some (st, w)
  | Attrs f =>
      Some (fst (f at_), mkT st (snd (f at_)) cp sv ver eng eg pr inp fed eof out sent cl lr ls)
  | Compat => Some (cp, w)
  | LockRecv =>
      if lr then None
      else Some (Ok tt, mkT st at_ cp sv ver eng eg pr inp fed eof out sent cl true ls)
  | UnlockRecv => Some (tt, mkT st at_ cp sv ver eng eg pr inp fed eof out sent cl false ls)
  | LockSend =>
      if ls then None
      else Some (Ok tt, mkT st at_ cp sv ver eng eg pr inp fed eof out sent cl lr true)
  | UnlockSend => Some (tt, mkT st at_ cp sv ver eng eg pr inp fed eof out sent cl lr false)
  | Engine _ =>
      match eng with
      | [] => None
      | (r, o) :: eng =>
          Some (r, mkT st at_ cp sv ver eng (eg ++ o) (pr ++ o) inp fed eof out sent cl lr ls)
      end
  | EgressRead => Some (eg, mkT st at_ cp sv ver eng [] pr inp fed eof out sent cl lr ls)
  | IngressWrite d =>
      Some (tt, mkT st at_ cp sv ver eng eg pr inp (fed ++ [d]) eof out sent cl lr ls)
  | IngressWriteEof => Some (tt, mkT st at_ cp sv ver eng eg pr inp fed true out sent cl lr ls)
  | IngressPending => Some (0%Z, w)
  | ServerSide => Some (sv, w)
  | Version => Some (ver, w)
  | TransportRecv =>
      match inp with
      | [] => None
      | r :: inp => Some (r, mkT st at_ cp sv ver eng eg pr inp fed eof out sent cl lr ls)
      end
  | TransportSend d =>
      Some (default (Ok tt) (head out),
            mkT st at_ cp sv ver eng eg pr inp fed eof (tail out) (sent ++ [d]) cl lr ls)
  | TransportClose => Some (Ok tt, mkT st at_ cp sv ver eng eg pr inp fed eof out sent (S cl) lr ls)
  end.

(** ** Records in order *)

(** What was handed to the transport, what is kept back, what is in the caller's hand and
    what the engine still holds make up what the engine produced. *)
Definition flow (hand : bytes) (w : tworld) : Prop :=
  concat (tw_sent w) ++ at_egress_stack (tw_at w) ++ hand ++ tw_egress w = tw_produced w.

Ltac tls_op :=
  intros s a s' Hs He; destruct s; simpl in He; repeat case_match; simplify_eq;
  unfold flow in *; simpl in *; try done.

Lemma flow_state f hand : keeps tls_handle (flow hand) (state_op f).
Proof. apply triple_pcall. tls_op. Qed.

Lemma step_flow op :
  triple tls_handle (flow []) (_step op)
    (fun r s => match r with Ok (_, _, out) => flow out s | Err _ => flow [] s end).
Proof.
  assert (triple tls_handle (flow []) (pop EgressRead)
    (fun r s => match r with Ok out => flow out s | Err _ => flow [] s end)) as Hread.
  { apply triple_pop. tls_op. by rewrite app_nil_r. }
  eapply (triple_ptry_else _ _ _ _ _ (fun _ => flow []) (fun _ => flow [])).
  - apply triple_pcall. intros s r s' Hs He. destruct s; simpl in He.
    destruct tw_engine0 as [|[r0 o] eng]; [done|]. simplify_eq. unfold flow in *. simpl in *.
    destruct r; by rewrite <- Hs, !app_assoc.
  - intros ret. eapply (triple_pbind _ _ _ _ flow); [exact Hread|].
    intros out. by apply triple_pret.
  - intros e d He. destruct (is_WantRead e); simplify_eq.
    eapply (triple_pbind _ _ _ _ flow); [exact Hread|]. intros out. by apply triple_pret.
  - done.
Qed.

Lemma egress_extend_flow d :
  triple tls_handle (flow d) (egress_extend d) (fun _ => flow []).
Proof. apply triple_pop. tls_op. by rewrite <- !app_assoc. Qed.

Lemma send_flow d : triple tls_handle (flow d) (_send d) (fun _ => flow []).
Proof.
  unfold _send, with_send_lock.
  eapply (triple_pbind _ _ _ _ (fun _ => flow d)); [apply triple_pcall; tls_op|intros _].
  eapply (triple_pfinally _ _ _ _ (fun _ => flow [])).
  2: { intros r. apply triple_pop. tls_op; destruct r; done. }
  eapply (triple_ptry_else _ _ _ _ _ (fun _ => flow []) (fun _ => flow [])); [| | |done].
  - eapply (triple_pbind _ _ _ _ (fun _ => flow [])); [eapply triple_conseq;
      [apply egress_extend_flow|done|by intros []]|intros _].
    eapply (triple_pbind _ _ _ _ (fun data s => concat (tw_sent s) ++ data ++ tw_egress s = tw_produced s
      /\ at_egress_stack (tw_at s) = [])).
    + unfold egress_take.
      eapply (triple_pbind _ _ _ _ (fun data s => flow [] s /\ at_egress_stack (tw_at s) = data));
        [apply triple_pop; tls_op|intros data].
      eapply (triple_pbind _ _ _ _ (fun _ s => concat (tw_sent s) ++ data ++ tw_egress s = tw_produced s
        /\ at_egress_stack (tw_at s) = [])); [apply triple_pop|intros _; by apply triple_pret].
      intros s a s' [Hs Hd] He. destruct s; simpl in He. simplify_eq. unfold flow in Hs. simpl in *.
      done.
    + intros data. apply triple_pcall. intros s r s' [Hs Hd] He. destruct s; simpl in He.
      simplify_eq. unfold flow. simpl in *. rewrite Hd, concat_app. simpl.
      destruct (default _ _); by rewrite app_nil_r, <- app_assoc.
  - intros []. by apply triple_pret.
  - intros e dd [= <-]. eapply (triple_pbind _ _ _ _ (fun _ => flow [])); [|intros _; by apply triple_praise].
    eapply triple_conseq; [apply flow_state|done|by intros []].
Qed.

Lemma recv_flow hand : keeps tls_handle (flow hand) _recv.
Proof.
  apply keeps_pbind; [apply triple_pop; tls_op|intros n].
  apply keeps_pbind; [apply triple_pcall; tls_op|intros _].
  apply keeps_pfinally; [|apply triple_pop; tls_op].
  apply keeps_pbind; [apply triple_pop; tls_op|intros m].
  destruct (n =? m)%Z; [|apply keeps_pret].
  apply keeps_pbind; [apply triple_pcall; tls_op|intros data].
  apply keeps_pbind; [|intros _; apply triple_pop; tls_op].
  destruct data; [apply triple_pop; tls_op|].
  apply keeps_pbind; [apply triple_pop; tls_op|intros _; apply triple_pop; tls_op].
Qed.

Lemma broken_flow {A} e (d : pyM tlsE A) : broken_by e = Some d ->
  triple tls_handle (flow []) d (fun r s => is_ok r = false /\ flow [] s).
Proof.
  unfold broken_by. destruct (is_SSLError e); intros [= <-].
  eapply (triple_pbind _ _ _ _ (fun _ => flow [])); [|intros _; by apply triple_praise].
  eapply triple_conseq; [apply flow_state|done|by intros []].
Qed.

(** A step of the engine with the clauses around it. *)
Lemma guarded_step_flow op :
  triple tls_handle (flow []) (ptry (_step op) broken_by)
    (fun r s => match r with Ok (_, _, out) => flow out s | Err _ => flow [] s end).
Proof.
  eapply (triple_ptry_else _ _ _ _ _
    (fun step => match step with (_, _, out) => flow out end) (fun _ => flow [])).
  - eapply triple_conseq; [apply step_flow|done|]. by intros [[[]]|].
  - intros [[ret want] out]. by apply triple_pret.
  - intros e d He. eapply triple_conseq; [by eapply broken_flow|done|]. by intros [] s [].
  - done.
Qed.

(** What is done with the output of a step. *)
Lemma forward_flow (out : bytes) (want : bool) :
  triple tls_handle (flow out)
    (match out with [] => if want then _recv else pret tt | _ => _send out end)
    (fun _ => flow []).
Proof.
  destruct out; [|apply send_flow].
  destruct want; [apply recv_flow|by apply triple_pret].
Qed.

Lemma dance_flow op : keeps tls_handle (flow []) (_ssl_dance op).
Proof.
  apply keeps_ploop.
  eapply (triple_pbind _ _ _ _ (fun step => match step with (_, _, out) => flow out end)).
  - eapply triple_conseq; [apply guarded_step_flow|done|]. by intros [[[]]|].
  - intros [[ret want] out]. eapply (triple_pbind _ _ _ _ (fun _ => flow [])).
    + eapply triple_conseq; [apply forward_flow|done|by intros []].
    + intros _. by apply triple_pret.
Qed.

Lemma handshake_round_flow : keeps tls_handle (flow []) handshake_round.
Proof.
  eapply (triple_pbind _ _ _ _ (fun step => match step with (_, _, out) => flow out end)).
  { eapply triple_conseq; [apply guarded_step_flow|done|]. by intros [[[]]|]. }
  intros [[ret want] out].
  eapply (triple_pbind _ _ _ _ (fun _ => flow out)).
  { destruct want; [by apply triple_pret|].
    eapply (triple_pbind _ _ _ _ (fun _ => flow out)); [apply triple_pop; tls_op|].
    intros []; [|by apply triple_pret].
    eapply (triple_pbind _ _ _ _ (fun _ => flow out)); [apply triple_pop; tls_op|].
    intros v. by apply triple_pret. }
  intros defer. eapply (triple_pbind _ _ _ _ flow).
  { destruct defer; [|by apply triple_pret].
    eapply (triple_pbind _ _ _ _ (fun _ => flow [])); [|intros _; by apply triple_pret].
    eapply triple_conseq; [apply egress_extend_flow|done|by intros []]. }
  intros out'. eapply (triple_pbind _ _ _ _ (fun _ => flow [])); [|intros _; by apply triple_pret].
  eapply triple_conseq; [apply forward_flow|done|by intros []].
Qed.

Lemma handshake_flow : keeps tls_handle (flow []) handshake.
Proof.
  apply keeps_pbind; [apply flow_state|intros _].
  apply keeps_pbind; [|intros _; apply flow_state].
  apply keeps_ploop, keeps_pbind; [apply handshake_round_flow|intros done; apply keeps_pret].
Qed.

Lemma close_flow : keeps tls_handle (flow []) close.
Proof.
  apply keeps_pbind; [apply triple_pop; tls_op|intros st].
  destruct (st =? Closed)%Z; [apply keeps_pret|].
  apply keeps_pbind; [apply flow_state|intros _].
  apply keeps_pbind; [apply triple_pop; tls_op|intros st'].
  apply keeps_pbind; [destruct (_ =? _)%Z; [apply keeps_pret|apply triple_pop; tls_op]|].
  assert (keeps tls_handle (flow []) transport_close) as Hclose by (apply triple_pcall; tls_op).
  intros []; [exact Hclose|]. apply keeps_pfinally; [|exact Hclose].
  eapply keeps_ptry_else; [|intros; apply keeps_pret|].
  2: { intros e d He. destruct (is_ResourceBroken e); simplify_eq. apply keeps_pret. }
  eapply (triple_pbind _ _ _ _ (fun step => match step with (_, _, out) => flow out end)).
  { eapply triple_conseq; [apply guarded_step_flow|done|]. by intros [[[]]|]. }
  intros [[ret want] [|b out]]; [by apply triple_pret|apply send_flow].
Qed.

Lemma send_all_flow data : keeps tls_handle (flow []) (send_all data).
Proof.
  apply keeps_pbind; [apply flow_state|intros _]. destruct data; [apply keeps_pret|].
  apply keeps_pbind; [apply dance_flow|intros ?; apply keeps_pret].
Qed.

Lemma receive_some_flow n : keeps tls_handle (flow []) (receive_some n).
Proof.
  apply keeps_pbind; [apply flow_state|intros _]. apply keeps_pbind.
  - destruct n; [apply keeps_pret|].
    apply keeps_pbind; [apply triple_pop; tls_op|intros est].
    apply keeps_pbind; [apply triple_pop; tls_op|intros p; apply keeps_pret].
  - intros m. apply keeps_ptry_else; [apply dance_flow|intros ?; apply keeps_pret|].
    intros [] d He; simplify_eq. apply keeps_pbind; [apply triple_pop; tls_op|intros c].
    destruct (c && _is_eof cause); [apply keeps_pret|apply keeps_praise].
Qed.

(** The operations of a stream, of either API. *)
Inductive tls_call : Type := CHandshake | CSend (data : bytes) | CReceive (n : option Z) | CClose.

Definition run_call (colored : bool) (c : tls_call) : pyM tlsE unit :=
  match c with
  | CHandshake => if colored then ColoredTls.handshake else Tls.handshake
  | CSend data => if colored then ColoredTls.send_all data else Tls.send_all data
  | CReceive n =>
      let! _ := (if colored then ColoredTls.receive_some n else Tls.receive_some n) in pret tt
  | CClose => if colored then ColoredTls.close else Tls.close
  end.

(** A session: calls one after the other, whatever each of them raises. *)
Fixpoint session (colored : bool) (l : list tls_call) : pyM tlsE unit :=
  match l with
  | [] => pret tt
  | c :: l => ptry (run_call colored c) (fun _ => Some (pret tt)) ;;; session colored l
  end.


(** A TLS 1.3 server: the handshake produces "a" (sent) and "b" (kept back), a write "c". *)
Definition demo_tls : tworld :=
  mkT Init TLSStream_init false true "TLSv1.3"
    [(Err (SSLError SSLWantReadError ""), [Byte.x61]); (Err (SSLError SSLWantReadError ""), []);
     (Ok [], [Byte.x62]); (Ok [], [Byte.x63])] [] []
    [Ok [Byte.x7a]] [] false [] [] 0 false false.


(** ** The handshake *)

(** The transport accepts what it is sent, nobody else uses the stream. *)
Definition quiet (w : tworld) : Prop :=
  tw_lock_r w = false /\ tw_lock_s w = false /\ tw_out w = [].

(** A step of the handshake leaves these alone. *)
Definition same (w w' : tworld) : Prop :=
  tw_st w' = tw_st w /\ tw_server w' = tw_server w /\ tw_version w' = tw_version w /\
  tw_engine w' = tw_engine w /\ tw_egress w' = tw_egress w /\ tw_produced w' = tw_produced w.

Lemma send_runs d w : quiet w ->
  exists w', runs tls_handle (_send d) w (Ok tt) w' /\ quiet w' /\ same w w' /\
    tw_in w' = tw_in w /\ at_egress_stack (tw_at w') = [].
Proof.
  intros (Hr & Hs & Ho). destruct w. simpl in *. subst. eexists. split.
  - apply runs_exec. exists 60. reflexivity.
  - unfold quiet, same. simpl. split_and!; done.
Qed.

(** Run straight-line code, operation by operation. *)
Ltac tls_runs :=
  repeat first [eapply runs_pop; reflexivity | eapply runs_pcall; reflexivity | apply runs_pret
               | eapply runs_pfinally | eapply runs_pbind | progress (simpl; rewrite ?Z.eqb_refl)].

Lemma recv_runs w data inp : quiet w -> tw_in w = Ok data :: inp ->
  exists w', runs tls_handle _recv w (Ok tt) w' /\ quiet w' /\ same w w' /\
    tw_in w' = inp /\ at_egress_stack (tw_at w') = at_egress_stack (tw_at w).
Proof.
  intros (Hr & Hs & Ho) Hin. destruct w as [? [stk n est]]. simpl in *. subst.
  destruct data; (eexists; split; [unfold _recv, with_recv_lock, recv_count; tls_runs|]);
    unfold quiet, same; simpl; split_and!; done.
Qed.

Definition want_read : exn := SSLError SSLWantReadError "".

(** The world after a step of the engine that wrote [out]. *)
Definition stepped (w w' : tworld) (out : bytes) (eng : list (result bytes * bytes)) : Prop :=
  tw_st w' = tw_st w /\ tw_server w' = tw_server w /\ tw_version w' = tw_version w /\
  tw_engine w' = eng /\ tw_egress w' = [] /\ tw_produced w' = tw_produced w ++ out /\
  tw_in w' = tw_in w /\ tw_at w' = tw_at w.

Lemma step_runs op w r out eng :
  quiet w -> tw_egress w = [] -> tw_engine w = (r, out) :: eng -> (forall e, r = Err e -> e = want_read) ->
  exists w', quiet w' /\ stepped w w' out eng /\
    runs tls_handle (ptry (_step op) broken_by) w
      (Ok (match r with Ok x => (Some x, false, out) | Err _ => (None, true, out) end)) w'.
Proof.
  intros (Hlr & Hls & Ho) Hegr Heng Hr. destruct w. simpl in *. subst. destruct r as [x|e].
  - eexists. split_and!; [| |eapply runs_ptry_else_ok; [|apply runs_pret];
      eapply runs_ptry_else_ok; [eapply runs_pcall; reflexivity|];
      eapply runs_pbind; [eapply runs_pop; reflexivity|apply runs_pret]]; by split_and!.
  - rewrite (Hr e eq_refl) in *. eexists. split_and!; [| |eapply runs_ptry_else_ok; [|apply runs_pret];
      eapply runs_ptry_else_catch; [eapply runs_pcall; reflexivity|reflexivity|];
      eapply runs_pbind; [eapply runs_pop; reflexivity|apply runs_pret]]; by split_and!.
Qed.

Definition is_nil (b : bytes) : bool := match b with [] => true | _ => false end.

(** The last flight of a TLS 1.3 server is kept back. *)
Definition deferred (w : tworld) : bool :=
  tw_server w && bool_decide (tw_version w = "TLSv1.3"%string).

Lemma round_want w out eng (inp : list bytes) :
  quiet w -> tw_egress w = [] -> tw_engine w = (Err want_read, out) :: eng ->
  tw_in w = Ok <$> inp -> at_egress_stack (tw_at w) = [] ->
  (is_nil out = true -> inp <> []) ->
  exists w', quiet w' /\ runs tls_handle handshake_round w (Ok false) w' /\
    tw_st w' = tw_st w /\ deferred w' = deferred w /\ tw_engine w' = eng /\ tw_egress w' = [] /\
    tw_produced w' = tw_produced w ++ out /\ at_egress_stack (tw_at w') = [] /\
    tw_in w' = Ok <$> (if is_nil out then tail inp else inp).
Proof.
  intros Hq Heg Heng Hin Hstk Hne.
  destruct (step_runs SslDoHandshake w (Err want_read) out eng Hq Heg Heng)
    as (w1 & Hq1 & (Hst & Hsv & Hv & He1 & Heg1 & Hp1 & Hin1 & Hat1) & Hr1); [naive_solver|].
  assert (exists w', quiet w' /\ same w1 w' /\ at_egress_stack (tw_at w') = [] /\
    tw_in w' = Ok <$> (if is_nil out then tail inp else inp) /\
    runs tls_handle (match out with [] => _recv | _ => _send out end) w1 (Ok tt) w')
    as (w2 & Hq2 & Hsame & Hstk2 & Hin2 & Hr2).
  { rewrite Hin in Hin1. destruct out as [|b out].
    - destruct inp as [|d inp]; [by destruct Hne|].
      destruct (recv_runs w1 d _ Hq1 Hin1) as (w2 & ? & ? & ? & ? & Hs2).
      exists w2. rewrite Hs2, Hat1. by split_and!.
    - destruct (send_runs (b :: out) w1 Hq1) as (w2 & ? & ? & ? & Hi2 & ?).
      exists w2. rewrite Hi2. by split_and!. }
  destruct Hsame as (S1 & S2 & S3 & S4 & S5 & S6). exists w2.
  split_and!; [done| |by rewrite S1| |by rewrite S4|by rewrite S5|by rewrite S6|done|done].
  - eapply runs_pbind; [exact Hr1|]. simpl.
    eapply runs_pbind; [apply runs_pret|]. simpl. eapply runs_pbind; [apply runs_pret|].
    eapply runs_pbind; [exact Hr2|apply runs_pret].
  - unfold deferred. by rewrite S2, S3, Hsv, Hv.
Qed.

Definition with_stack (d : bytes) (w : tworld) : tworld :=
  let '(mkT st at_ cp sv ver eng eg pr inp fed eof out sent cl lr ls) := w in
  mkT st (mkAttrs d (at_recv_count at_) (at_recv_est_size at_))
    cp sv ver eng eg pr inp fed eof out sent cl lr ls.

Lemma extend_runs d w :
  runs tls_handle (egress_extend d) w (Ok tt) (with_stack (at_egress_stack (tw_at w) ++ d) w).
Proof. destruct w. eapply runs_pop. reflexivity. Qed.

Lemma round_done w x last :
  quiet w -> tw_egress w = [] -> tw_engine w = [(Ok x, last)] -> at_egress_stack (tw_at w) = [] ->
  exists w', quiet w' /\ runs tls_handle handshake_round w (Ok true) w' /\
    tw_st w' = tw_st w /\ tw_egress w' = [] /\ tw_produced w' = tw_produced w ++ last /\
    at_egress_stack (tw_at w') = if deferred w then last else [].
Proof.
  intros Hq Heg Heng Hstk.
  destruct (step_runs SslDoHandshake w (Ok x) last [] Hq Heg Heng)
    as (w1 & Hq1 & (Hst & Hsv & Hv & He1 & Heg1 & Hp1 & Hin1 & Hat1) & Hr1); [done|].
  assert (runs tls_handle (let! server := pop ServerSide in
    if (server : bool) then let! v := pop Version in pret (bool_decide (v = "TLSv1.3"%string))
    else pret false) w1 (Ok (deferred w)) w1) as Hdef.
  { unfold deferred. rewrite <- Hsv, <- Hv. destruct w1. simpl.
    eapply runs_pbind; [eapply runs_pop; reflexivity|]. destruct tw_server0; [|apply runs_pret].
    eapply runs_pbind; [eapply runs_pop; reflexivity|apply runs_pret]. }
  destruct (deferred w) eqn:Hd.
  - pose proof (extend_runs last w1) as Hext. rewrite Hat1, Hstk in Hext. simpl in Hext.
    exists (with_stack last w1).
    split_and!; [by destruct w1| |by destruct w1|by destruct w1|by destruct w1|by destruct w1].
    eapply runs_pbind; [exact Hr1|]. simpl. eapply runs_pbind; [exact Hdef|]. simpl.
    eapply runs_pbind; [eapply runs_pbind; [exact Hext|apply runs_pret]|].
    eapply runs_pbind; [apply runs_pret|apply runs_pret].
  - assert (exists w', quiet w' /\ same w1 w' /\ at_egress_stack (tw_at w') = [] /\
      runs tls_handle (match last with [] => pret tt | _ => _send last end) w1 (Ok tt) w')
      as (w2 & Hq2 & (S1 & S2 & S3 & S4 & S5 & S6) & Hstk2 & Hr2).
    { destruct last as [|b last].
      - exists w1. rewrite Hat1. split_and!; try done. apply runs_pret.
      - destruct (send_runs (b :: last) w1 Hq1) as (w2 & ? & ? & ? & ? & ?). by exists w2. }
    exists w2. split_and!; [done| |by rewrite S1|by rewrite S5|by rewrite S6|done].
    eapply runs_pbind; [exact Hr1|]. simpl. eapply runs_pbind; [exact Hdef|]. simpl.
    eapply runs_pbind; [apply runs_pret|]. eapply runs_pbind; [exact Hr2|apply runs_pret].
Qed.

Lemma rounds_run outs x last : forall w (inp : list bytes),
  quiet w -> tw_egress w = [] -> at_egress_stack (tw_at w) = [] ->
  tw_engine w = ((fun o => (Err want_read, o)) <$> outs) ++ [(Ok x, last)] ->
  tw_in w = Ok <$> inp -> countb is_nil outs <= length inp ->
  exists w', quiet w' /\
    runs tls_handle
      (ploop (let! done := handshake_round in pret (if (done : bool) then Some tt else None)))
      w (Ok tt) w' /\
    tw_st w' = tw_st w /\ tw_egress w' = [] /\
    tw_produced w' = tw_produced w ++ concat outs ++ last /\
    at_egress_stack (tw_at w') = if deferred w then last else [].
Proof.
  induction outs as [|out outs IH]; intros w inp Hq Heg Hstk Heng Hin Hlen.
  - destruct (round_done w x last Hq Heg Heng Hstk) as (w' & Hq' & Hr & Hst & He & Hp & Hs).
    exists w'. split_and!; try done. apply runs_ploop_done.
    eapply runs_pbind; [exact Hr|apply runs_pret].
  - destruct (round_want w out (((fun o => (Err want_read, o)) <$> outs) ++ [(Ok x, last)]) inp)
      as (w1 & Hq1 & Hr1 & Hst1 & Hd1 & Heng1 & Heg1 & Hp1 & Hstk1 & Hin1); try done.
    { intros Hnil ->. simpl in Hlen. rewrite Hnil in Hlen. lia. }
    destruct (IH w1 (if is_nil out then tail inp else inp))
      as (w' & Hq' & Hr & Hst & He & Hp & Hs); try done.
    { simpl in Hlen. destruct (is_nil out); [|lia]. destruct inp; simpl in *; lia. }
    exists w'. split_and!; [done| |by rewrite Hst|done| |by rewrite <- Hd1].
    + eapply runs_ploop_next; [|exact Hr]. eapply runs_pbind; [exact Hr1|apply runs_pret].
    + rewrite Hp, Hp1. simpl. by rewrite <- !app_assoc.
Qed.



(** ** Use and close *)

(** A stream that is not ready (before the handshake, broken or closed) refuses to send
    and to receive, in both APIs, and nothing of it, of the engine or of the transport
    is touched. *)
Theorem not_ready_refused w data n :
  tw_st w <> Ready ->
  let e := RuntimeError "TLSStream in bad state" in
  runs tls_handle (Tls.send_all data) w (Err e) w /\
  runs tls_handle (ColoredTls.send_all data) w (Err e) w /\
  runs tls_handle (Tls.receive_some n) w (Err e) w /\
  runs tls_handle (ColoredTls.receive_some n) w (Err e) w.
Proof.
  intros Hst e.
  assert (runs tls_handle (state_op check_ready) w (Err e) w) as Hc.
  { apply runs_pcall. destruct w. simpl in *. unfold check_ready.
    by rewrite (proj2 (Z.eqb_neq _ _)). }
  split_and!; by apply runs_pbind_err.
Qed.

Lemma not_ready_refused_witness :
  runs tls_handle (Tls.send_all [Byte.x00]) demo_tls
    (Err (RuntimeError "TLSStream in bad state")) demo_tls.
Proof. exact (proj1 (not_ready_refused demo_tls [Byte.x00] None ltac:(done))). Defined.

(** A stream that is done with: closed, or broken while closing. *)
Definition over (n : nat) (w : tworld) : Prop :=
  tw_closed w = n /\ (tw_st w = Closed \/ tw_st w = Broken).

Lemma over_op {A} n (e : tlsE A) :
  (forall s, match e with
             | State f => snd (f s) = Closed \/ snd (f s) = Broken
             | TransportClose => False
             | _ => True
             end) ->
  forall s a s', over n s -> tls_handle A e s = Some (a, s') -> over n s'.
Proof.
  intros He s a s' [Hc Hst] Hh. destruct s; destruct e; simpl in *; repeat case_match;
    simplify_eq; unfold over; simpl; try done; try tauto; split; auto.
Qed.

Lemma over_pcall {A} n (e : tlsE (result A)) :
  (forall s, match e with
             | State f => snd (f s) = Closed \/ snd (f s) = Broken
             | TransportClose => False
             | _ => True
             end) -> keeps tls_handle (over n) (pcall e).
Proof. intros He. apply triple_pcall. by apply over_op. Qed.

Lemma over_pop {A} n (e : tlsE A) :
  (forall s, match e with
             | State f => snd (f s) = Closed \/ snd (f s) = Broken
             | TransportClose => False
             | _ => True
             end) -> keeps tls_handle (over n) (pop e).
Proof. intros He. apply triple_pop. by apply over_op. Qed.

Lemma over_broken {A} n e (d : pyM tlsE A) : broken_by e = Some d -> keeps tls_handle (over n) d.
Proof.
  unfold broken_by. destruct (is_SSLError e); intros [= <-].
  apply keeps_pbind; [apply over_pcall; by right|intros _; apply keeps_praise].
Qed.

Lemma over_send n d : keeps tls_handle (over n) (_send d).
Proof.
  apply keeps_pbind; [by apply over_pcall|intros _].
  apply keeps_pfinally; [|by apply over_pop].
  apply keeps_ptry_else; [|intros; apply keeps_pret|].
  - apply keeps_pbind; [by apply over_pop|intros _].
    apply keeps_pbind; [|intros; by apply over_pcall].
    apply keeps_pbind; [by apply over_pop|intros].
    apply keeps_pbind; [by apply over_pop|intros; apply keeps_pret].
  - intros e c [= <-]. apply keeps_pbind; [apply over_pcall; by right|intros; apply keeps_praise].
Qed.

Lemma over_unwrap n : keeps tls_handle (over n) (ptry _unwrap broken_by).
Proof.
  apply keeps_ptry_else; [|intros; apply keeps_pret|intros; by eapply over_broken].
  apply keeps_ptry_else; [by apply over_pcall| |].
  - intros. apply keeps_pbind; [by apply over_pop|intros; apply keeps_pret].
  - intros e d Hd. destruct (is_WantRead e); simplify_eq.
    apply keeps_pbind; [by apply over_pop|intros; apply keeps_pret].
Qed.

Lemma transport_close_over n :
  triple tls_handle (over n) transport_close
    (fun rf s => match rf with Ok _ => over (S n) s | Err _ => over (S n) s end).
Proof.
  apply triple_pcall. intros s r s' [Hc Hst] Hh. destruct s. simpl in *. simplify_eq.
  by split; simpl.
Qed.

Lemma close_open n :
  triple tls_handle (fun s => tw_closed s = n /\ tw_st s <> Closed) Tls.close
    (fun _ => over (S n)).
Proof.
  eapply (triple_pbind _ _ _ _ (fun st s => tw_closed s = n /\ st <> Closed)).
  { apply triple_pop. intros s a s' [Hc Hst] Hh. destruct s. simpl in *. by simplify_eq. }
  intros st. destruct (Z.eqb_spec st Closed) as [->|Hne]; [apply triple_pret; tauto|].
  eapply (triple_pbind _ _ _ _ (fun _ => over n)).
  { apply triple_pcall. intros s a s' [Hc _] Hh. destruct s. simpl in *. simplify_eq.
    simpl. unfold over. simpl. auto. }
  intros _. eapply (triple_pbind _ _ _ _ (fun _ => over n)).
  { apply triple_pop. intros s a s' Hs. by apply over_op. }
  intros st'. eapply (triple_pbind _ _ _ _ (fun _ => over n)).
  { destruct (_ =? _)%Z; [by apply triple_pret|].
    apply triple_pop. intros s a s' Hs. by apply over_op. }
  intros []; [eapply triple_conseq; [apply transport_close_over|done|by intros []]|].
  eapply (triple_pfinally _ _ _ _ (fun _ => over n)); [|intros r; apply transport_close_over].
  apply keeps_ptry_else; [|intros; apply keeps_pret|].
  - apply keeps_pbind; [apply over_unwrap|]. intros [[ret want] [|b out]]; [apply keeps_pret|apply over_send].
  - intros e d He. destruct (is_ResourceBroken e); simplify_eq. apply keeps_pret.
Qed.

(** Closing closes the transport exactly once, whatever the engine and the transport do
    (an error of either included), and leaves the stream closed or broken; closing a
    closed stream does nothing. *)
Theorem close_closes_transport w r w' :
  runs tls_handle Tls.close w r w' \/ runs tls_handle ColoredTls.close w r w' ->
  if decide (tw_st w = Closed) then r = Ok tt /\ w' = w
  else over (S (tw_closed w)) w'.
Proof.
  intros Hr. assert (runs tls_handle Tls.close w r w') as Hrun by (by destruct Hr).
  destruct (decide _) as [Hc|Hc]; [|by eapply (close_open (tw_closed w))].
  assert (runs tls_handle Tls.close w (Ok tt) w) as Hno.
  { eapply runs_pbind.
    - apply runs_pop. instantiate (1 := w). instantiate (1 := tw_st w). by destruct w.
    - rewrite Hc. apply runs_pret. }
  by destruct (runs_det _ _ _ _ _ _ _ Hrun Hno).
Qed.

(** Ready, with an engine whose [unwrap] fails. *)
Definition demo_close : tworld :=
  mkT Ready TLSStream_init false false "TLSv1.2" [(Err (SSLError SSLOther ""), [])] [] []
    [] [] false [] [] 0 false false.

Lemma close_closes_transport_witness :
  exists r w', runs tls_handle Tls.close demo_close r w' /\ over 1 w'.
Proof.
  assert (exists w', runs tls_handle Tls.close demo_close (Ok tt) w') as [w' Hr].
  { eexists. apply runs_exec. exists 60. vm_compute. reflexivity. }
  exists (Ok tt), w'. split; [exact Hr|].
  exact (close_closes_transport demo_close (Ok tt) w' (or_introl Hr)).
Defined.

(** The shortcut of [close] for a broken stream is never taken: the state is set to
    closed before it is compared with broken, so a broken stream still performs the TLS
    shutdown; when that fails the state goes from closed back to broken, and a second
    [close] closes the transport again. *)
Theorem close_broken_unwraps :
  exists w1 w2,
    runs tls_handle Tls.close
      (mkT Broken TLSStream_init false false "TLSv1.2"
         [(Err (SSLError SSLOther ""), []); (Err (SSLError SSLOther ""), [])] [] []
         [] [] false [] [] 0 false false) (Ok tt) w1 /\
    length (tw_engine w1) = 1 /\ tw_st w1 = Broken /\ tw_closed w1 = 1 /\
    runs tls_handle Tls.close w1 (Ok tt) w2 /\ tw_closed w2 = 2.
Proof.
  eexists _, _. split_and!.
  - apply runs_exec. exists 60. vm_compute. reflexivity.
  - reflexivity.
  - reflexivity.
  - reflexivity.
  - apply runs_exec. exists 60. vm_compute. reflexivity.
  - reflexivity.
Qed.

(** ** Two tasks on one stream *)

Definition tls_sem (X : Type) (tid : nat) (e : tlsE X) (s : tworld) (x : X) (s' : tworld) : Prop :=
  tls_handle X e s = Some (x, s').

Ltac tls_step i :=
  eapply reachable_step_l;
  [eapply (pstep_task _ i);
   [reflexivity|eapply tstep_vis; [observe_now|unfold tls_sem; reflexivity]]
  |cbn [insert list_insert]].

Definition demo_race : tworld :=
  mkT Ready TLSStream_init false false "TLSv1.3" [(Ok [], [Byte.x61]); (Ok [], [Byte.x62])] [] []
    [] [] false [] [] 0 false false.

(** The order of the records is not kept between tasks: the record of a write leaves the
    engine before the send lock is taken, so of two tasks that write concurrently
    the second may overtake the first, and the transport gets their records in the
    reverse of the order in which the engine encrypted them. *)
Theorem concurrent_writes_reorder :
  exists ts w', reachable tls_sem
      ([Tls.send_all [Byte.x00]; Tls.send_all [Byte.x01]], demo_race) (ts, w') /\
    (forall t, t ∈ ts -> t ≅ Ret (Ok tt)) /\
    tw_produced w' = [Byte.x61; Byte.x62] /\ concat (tw_sent w') = [Byte.x62; Byte.x61].
Proof.
  eexists _, _. split_and!.
  - do 3 tls_step 0. do 9 tls_step 1. do 6 tls_step 0. apply reachable_init.
  - intros t Ht. rewrite !elem_of_cons in Ht. destruct Ht as [->|[->|Ht]];
      [by apply eq_obs_Ret..|set_solver].
  - reflexivity.
  - reflexivity.
Qed.
