(* ===== verification/Hilvl.v ===== *)
(** * Opening and serving connections

    [src/tonio/_net/_hilvl.py]: the helpers that open streams and listeners and serve
    them, with [TLSListener] of [src/tonio/_net/_tls.py].  The sockets they use are
    operations here (the methods of [Socket] and [Streams]); what matters is which of them
    are opened, closed and handed out on every path. *)

From stdpp Require Import base numbers list strings gmap.
From Stdlib Require Import ZArith Lia.
From ITree Require Import ITree ITreeFacts.
From S2P Require Import Prelude Coro Os.

Open Scope tonio_scope.

(** ** Operations *)

(** [TLSListener]: the listening transport, the context and the flag its streams get. *)
Record TLSListener := mkTLSListener {
  tl_transport : nat; tl_ssl : option nat; tl_compat_https : bool
}.

(** A listener given to [serve_listeners]. *)
Inductive served_by := SocketListener (l : nat) | TlsListener (l : TLSListener).

(** Sockets and contexts are numbered; times are in microseconds; [HStream] and [HListener] are the constructors of the stream and
    listener classes over a socket.  The shared variables of [open_tcp_stream] (the set of
    open sockets, the winner and the errors), its scope and its events are operations
    as well.  Tasks are spawned by naming what they run: [HSpawnAttempt] runs
    [attempt_connect], and [HServe] awaits [spawn.without_results] of the
    [_listener_handler]s of the listeners. *)
Variant hlE : Type -> Type :=
| HSocket (family type proto : Z) : hlE (result nat)
| HSetsockopt (s : nat) (level optname : Z) (value : pyobj) : hlE (result unit)
| HBind (s : nat) (address : pyobj) : hlE (result unit)
| HConnect (s : nat) (address : pyobj) : hlE (result unit)
| HListen (s : nat) (backlog : Z) : hlE (result unit)
| HUnixBind (s : nat) (path : pyobj) (mode : option Z) : hlE (result unit)
| HStream (s : nat) : hlE (result unit)
| HListener (s : nat) : hlE (result unit)
| HClose (s : nat) : hlE (result unit)
| HGetaddrinfo (host port : pyobj) (type flags : Z) : hlE (result (list addrinfo))
| HAccept (l : nat) : hlE (result nat)
| HSleep : hlE (result unit)
| HSpawnHandler (stream : nat) : hlE unit
| HOpenAdd (s : nat) : hlE unit
| HOpenRemove (s : nat) : hlE unit
| HOpenAll : hlE (list nat)
| HSetWinner (s : nat) : hlE unit
| HGetWinner : hlE (option nat)
| HAddErr (e : exn) : hlE unit
| HErrs : hlE (list exn)
| HNewEvent : hlE nat
| HSetEvent (e : nat) : hlE unit
| HWaitEvent (e : nat) (timeout : Z) : hlE (result unit)
| HSpawnAttempt (local_address : option pyobj) (family type proto : Z) (addr : pyobj)
    (failed : nat) : hlE unit
| HScopeEnter : hlE (result unit)
| HScopeExit : hlE unit
| HScopeCancel : hlE unit
| HScopeJoin : hlE (result unit)
| HDefaultContext : hlE nat
| HReportUnexpectedEof (ctx : nat) : hlE unit
| HTlsStream (transport : nat) (ctx : option nat) (server_side : bool)
    (server_hostname : option pyobj) (https_compatible : bool) : hlE (result unit)
| HTlsHandshake (transport : nat) : hlE (result unit)
| HServe (listeners : list served_by) : hlE (result unit).

Definition close (s : nat) : pyM hlE unit := pcall (HClose s).

(** ** Context managers *)

(** [EMFILE], [ENFILE], [ENOMEM], [ENOBUFS]. *)
Definition accept_retry_errnos : list Z := [EMFILE; ENFILE; ENOMEM; ENOBUFS].

(** Close each socket, collecting what the closes raise. *)
Fixpoint close_each (socks : list nat) : pyM hlE (list exn) :=
  match socks with
  | [] => pret []
  | s :: socks =>
      let! err := ptry_else (close s) (fun e => Some (pret (Some e))) (fun _ => pret None) in
      let! errs := close_each socks in
      pret (match err with Some e => e :: errs | None => errs end)
  end.

(** The [finally] of [_close_all_sockets]. *)
Definition close_all : pyM hlE unit :=
  let! socks := pop HOpenAll in
  let! errs := close_each socks in
  match errs with
  | [] => pret tt
  | [e] => praise e
  | _ => praise (ExceptionGroup errs)
  end.

Definition with_close_all_sockets {A} (body : pyM hlE A) : pyM hlE A := pfinally body close_all.

Definition with_close_on_error {A} (s : nat) (body : pyM hlE A) : pyM hlE A :=
  ptry body (fun e => Some (close s ;;; praise e)).

(** ** Unix sockets *)

(** [not fspath]; [fspath.startswith(b'\0')] of a [bytes]. *)
Definition is_empty_path (p : pyobj) : bool :=
  match p with PStr "" | PBytes [] => true | _ => false end.
Definition is_abstract (p : pyobj) : bool :=
  match p with PBytes (Byte.x00 :: _) => true | _ => false end.

Definition unix_check_path (path : pyobj) (mode : option Z) : result pyobj :=
  match fspath path with
  | Err e => Err e
  | Ok p =>
      if is_empty_path p then Err (ValueError "path must not be empty")
      else
        match mode with
        | Some _ =>
            if is_abstract p
            then Err (ValueError "mode is not supported for abstract namespace sockets") else Ok p
        | None => Ok p
        end
  end.

(** [_unix_bind], run on the blocking pool. *)
Definition _unix_bind (sock : nat) (path : pyobj) (mode : option Z) : pyM osE unit :=
  ptry (sys (sk_bind sock path))
    (fun e => if is_OSError e
              then Some (if bool_decide (exn_errno e = Some EADDRINUSE)
                         then praise (os_error EADDRINUSE) else praise e)
              else None) ;;;
  match mode with
  | None => pret tt
  | Some m =>
      ptry (sys (os_chmod path m))
        (fun e =>
           Some (ptry (sys (os_unlink path))
                   (fun e' => if is_OSError e' then Some (pret tt) else None) ;;;
                 praise e))
  end.

(** ** Streams *)

(** [attempt_connect]: one connection attempt of [open_tcp_stream]. *)
Definition attempt_connect (local_address : option pyobj) (family type proto : Z)
    (sockaddr : pyobj) (failed : nat) : pyM hlE unit :=
  ptry
    (let! sock := pcall (HSocket family type proto) in
     pop (HOpenAdd sock) ;;;
     (match local_address with
      | Some a =>
          ptry (pcall (HBind sock (PTuple [a; PInt 0])))
            (fun e => if is_OSError e then Some (praise (OSError OSPlain None)) else None)
      | None => pret tt
      end) ;;;
     pcall (HConnect sock sockaddr) ;;;
     pop (HSetWinner sock) ;;;
     pop HScopeCancel)
    (fun e => if is_OSError e
              then Some (pop (HAddErr e) ;;; pop (HSetEvent failed)) else None).

Definition is_str_or_bytes (o : pyobj) : bool :=
  match o with PStr _ | PBytes _ => true | _ => false end.

(** 0.250 s. *)
Definition happy_eyeballs_default : Z := 250000.

(** The loop that starts an attempt for each address, staggered by the delay. *)
Definition spawn_attempts (delay : Z) (local_address : option pyobj) (targets : list addrinfo)
    : pyM hlE unit :=
  pfor targets (fun ai =>
    let! failed := pop HNewEvent in
    pop (HSpawnAttempt local_address (ai_family ai) (ai_type ai) (ai_proto ai) (ai_addr ai)
           failed) ;;;
    pcall (HWaitEvent failed delay)).

Definition open_tcp_stream (host port : pyobj) (happy_eyeballs_delay : option Z)
    (local_address : option pyobj) : pyM hlE nat :=
  if negb (is_str_or_bytes host) then praise (ValueError "host must be str or bytes")
  else if negb (is_int port) then praise (TypeError "port must be int")
  else
    let delay := default happy_eyeballs_default happy_eyeballs_delay in
    let! targets := pcall (HGetaddrinfo host port SOCK_STREAM 0) in
    with_close_all_sockets
      (pcall HScopeEnter ;;;
       pfinally (spawn_attempts delay local_address targets) (pop HScopeExit) ;;;
       pcall HScopeJoin ;;;
       let! winner := pop HGetWinner in
       match winner with
       | None =>
           let! errs := pop HErrs in
           passert (length errs =? length targets) ;;;
           praise (OSError OSPlain None)
       | Some s =>
           pcall (HStream s) ;;;
           pop (HOpenRemove s) ;;;
           pret s
       end).

Definition open_unix_socket (filename : pyobj) : pyM hlE nat :=
  let! sock := pcall (HSocket AF_UNIX SOCK_STREAM 0) in
  with_close_on_error sock
    (match fspath filename with
     | Ok p => pcall (HConnect sock p)
     | Err e => praise e
     end) ;;;
  pcall (HStream sock) ;;;
  pret sock.

(** ** Listeners *)

(** [min(backlog or 0xFFFF, 0xFFFF)]. *)
Definition backlog_of (backlog : option Z) : Z :=
  Z.min (match backlog with Some n => if (n =? 0)%Z then 65535 else n | None => 65535 end) 65535.

(** One address of [open_tcp_listeners]: [None] when the family is not supported. *)
Definition open_one (backlog : Z) (ai : addrinfo) : pyM hlE (option nat) :=
  let! sock :=
    ptry_else (pcall (HSocket (ai_family ai) (ai_type ai) (ai_proto ai)))
      (fun e => if is_OSError e
                then Some (if bool_decide (exn_errno e = Some EAFNOSUPPORT)
                           then pret None else praise e)
                else None)
      (fun s => pret (Some s)) in
  match sock with
  | None => pret None
  | Some s =>
      ptry
        (pcall (HSetsockopt s SOL_SOCKET SO_REUSEADDR (PInt 1)) ;;;
         (if (ai_family ai =? AF_INET6)%Z
          then pcall (HSetsockopt s IPPROTO_IPV6 IPV6_V6ONLY (PInt 1)) else pret tt) ;;;
         pcall (HBind s (ai_addr ai)) ;;;
         pcall (HListen s backlog) ;;;
         pcall (HListener s) ;;;
         pret (Some s))
        (fun e => Some (close s ;;; praise e))
  end.

Fixpoint close_listeners (l : list nat) : pyM hlE unit :=
  match l with
  | [] => pret tt
  | s :: l => close s ;;; close_listeners l
  end.

(** The loop over the addresses, with the listeners opened so far; anything raised closes
    them. *)
Definition open_listeners (backlog : Z) (addresses : list addrinfo)
    : pyM hlE (list nat * bool) :=
  pwhile (fun st : list addrinfo * list nat * bool =>
    let '(todo, listeners, unsupported) := st in
    match todo with
    | [] => pret (inr (listeners, unsupported))
    | ai :: todo =>
        ptry_else (open_one backlog ai)
          (fun e => Some (close_listeners listeners ;;; praise e))
          (fun o => pret (inl (match o with
                               | Some s => (todo, listeners ++ [s], unsupported)
                               | None => (todo, listeners, true)
                               end)))
    end) (addresses, [], false).

Definition open_tcp_listeners (port host : pyobj) (backlog : option Z) : pyM hlE (list nat) :=
  if negb (is_int port) then praise (TypeError "port must be an int")
  else
    let backlog := backlog_of backlog in
    let! addresses := pcall (HGetaddrinfo host port SOCK_STREAM AI_PASSIVE) in
    let! res := open_listeners backlog addresses in
    match res with
    | ([], true) => praise (os_error EAFNOSUPPORT)
    | (listeners, _) => pret listeners
    end.

Definition open_unix_listener (path : pyobj) (mode backlog : option Z) : pyM hlE nat :=
  match unix_check_path path mode with
  | Err e => praise e
  | Ok p =>
      let backlog := backlog_of backlog in
      let! sock := pcall (HSocket AF_UNIX SOCK_STREAM 0) in
      with_close_on_error sock
        (pcall (HUnixBind sock p mode) ;;;
         pcall (HListen sock backlog) ;;;
         pcall (HListener sock) ;;;
         pret sock)
  end.

(** ** Serving *)

(** One round of [_listener_handler]. *)
Definition serve_once (accept : pyM hlE nat) : pyM hlE unit :=
  ptry_else accept
    (fun e => if is_OSError e
              then Some (if match exn_errno e with
                            | Some n => bool_decide (n ∈ accept_retry_errnos) | None => false end
                         then pcall HSleep else praise e)
              else None)
    (fun stream => pop (HSpawnHandler stream)).

Definition _listener_handler (accept : pyM hlE nat) (close_listener : pyM hlE unit)
    : pyM hlE unit :=
  pfinally (ploop (serve_once accept ;;; pret None)) close_listener.

Definition socket_accept (listener : nat) : pyM hlE nat := pcall (HAccept listener).

(** [TLSListener.accept]: accept, wrap and shake hands. *)
Definition TLSListener_accept (self : TLSListener) : pyM hlE nat :=
  let! stream := socket_accept (tl_transport self) in
  pcall (HTlsStream stream (tl_ssl self) true None (tl_compat_https self)) ;;;
  pcall (HTlsHandshake stream) ;;;
  pret stream.

Definition TLSListener_close (self : TLSListener) : pyM hlE unit := close (tl_transport self).

(** The task that serves one listener. *)
Definition listener_task (l : served_by) : pyM hlE unit :=
  match l with
  | SocketListener l => _listener_handler (socket_accept l) (close l)
  | TlsListener l => _listener_handler (TLSListener_accept l) (TLSListener_close l)
  end.

(** The tasks are [listener_task] of each listener. *)
Definition serve_listeners (listeners : list served_by) : pyM hlE unit :=
  pcall (HServe listeners).

Definition serve_tcp (port host : pyobj) (backlog : option Z) : pyM hlE unit :=
  let! listeners := open_tcp_listeners port host backlog in
  serve_listeners (SocketListener <$> listeners).

Definition serve_unix (path : pyobj) (mode backlog : option Z) : pyM hlE unit :=
  let! listener := open_unix_listener path mode backlog in
  serve_listeners [SocketListener listener].

(** [create_default_context] with [OP_IGNORE_UNEXPECTED_EOF] cleared. *)
Definition default_context : pyM hlE nat :=
  let! ctx := pop HDefaultContext in
  pop (HReportUnexpectedEof ctx) ;;;
  pret ctx.

Definition open_tls_over_tcp_stream (host port : pyobj) (https_compatible : bool)
    (ssl_context : option nat) (happy_eyeballs_delay : option Z) : pyM hlE nat :=
  let! tcp_stream := open_tcp_stream host port happy_eyeballs_delay None in
  let! ctx := match ssl_context with Some c => pret c | None => default_context end in
  pcall (HTlsStream tcp_stream (Some ctx) false (Some host) https_compatible) ;;;
  pcall (HTlsHandshake tcp_stream) ;;;
  pret tcp_stream.

Definition open_tls_over_tcp_listeners (port : pyobj) (ssl_context : option nat) (host : pyobj)
    (https_compatible : bool) (backlog : option Z) : pyM hlE (list TLSListener) :=
  let! tcp_listeners := open_tcp_listeners port host backlog in
  pret ((fun l => mkTLSListener l ssl_context https_compatible) <$> tcp_listeners).

Definition serve_tls_over_tcp (port : pyobj) (ssl_context : option nat) (host : pyobj)
    (https_compatible : bool) (backlog : option Z) : pyM hlE unit :=
  let! listeners :=
    open_tls_over_tcp_listeners port ssl_context host https_compatible backlog in
  serve_listeners (TlsListener <$> listeners).
