(* ===== verification/ColoredHilvl.v ===== *)
(** * Opening and serving connections in the [async] API

    [src/tonio/_colored/_net/_hilvl.py], with [TLSListener] of
    [src/tonio/_colored/_net/_tls.py]; the context managers and the Unix helpers are those of
    [Hilvl].  The scope of [open_tcp_stream] is joined on leaving the [async with] block,
    also when the block raises. *)

From stdpp Require Import base numbers list strings gmap.
From Stdlib Require Import ZArith Lia.
From ITree Require Import ITree ITreeFacts.
From S2P Require Import Prelude Coro Os Hilvl.

Open Scope tonio_scope.

Definition attempt_connect (local_address : option pyobj) (family type proto : Z)
    (sockaddr : pyobj) (failed : nat) : pyM hlE unit :=
  ptry
    (let! sock := pcall (HSocket family type proto) in
     pop (HOpenAdd sock) ;;;
     (match local_address with
      | Some a =>
          ptry (pcall (HBind sock (PTuple [a; PInt 0])))
            (fun e => if is_OSError e then Some (praise (OSError OSPlain None)) else None)
      | None => pret tt
      end) ;;;
     pcall (HConnect sock sockaddr) ;;;
     pop (HSetWinner sock) ;;;
     pop HScopeCancel)
    (fun e => if is_OSError e
              then Some (pop (HAddErr e) ;;; pop (HSetEvent failed)) else None).

Definition spawn_attempts (delay : Z) (local_address : option pyobj) (targets : list addrinfo)
    : pyM hlE unit :=
  pfor targets (fun ai =>
    let! failed := pop HNewEvent in
    pop (HSpawnAttempt local_address (ai_family ai) (ai_type ai) (ai_proto ai) (ai_addr ai)
           failed) ;;;
    pcall (HWaitEvent failed delay)).

Definition open_tcp_stream (host port : pyobj) (happy_eyeballs_delay : option Z)
    (local_address : option pyobj) : pyM hlE nat :=
  if negb (is_str_or_bytes host) then praise (ValueError "host must be str or bytes")
  else if negb (is_int port) then praise (TypeError "port must be int")
  else
    let delay := default happy_eyeballs_default happy_eyeballs_delay in
    let! targets := pcall (HGetaddrinfo host port SOCK_STREAM 0) in
    with_close_all_sockets
      (pcall HScopeEnter ;;;
       pfinally (spawn_attempts delay local_address targets) (pop HScopeExit ;;; pcall HScopeJoin) ;;;
       let! winner := pop HGetWinner in
       match winner with
       | None =>
           let! errs := pop HErrs in
           passert (length errs =? length targets) ;;;
           praise (OSError OSPlain None)
       | Some s =>
           pcall (HStream s) ;;;
           pop (HOpenRemove s) ;;;
           pret s
       end).

Definition open_unix_socket (filename : pyobj) : pyM hlE nat :=
  let! sock := pcall (HSocket AF_UNIX SOCK_STREAM 0) in
  with_close_on_error sock
    (match fspath filename with
     | Ok p => pcall (HConnect sock p)
     | Err e => praise e
     end) ;;;
  pcall (HStream sock) ;;;
  pret sock.

Definition open_one (backlog : Z) (ai : addrinfo) : pyM hlE (option nat) :=
  let! sock :=
    ptry_else (pcall (HSocket (ai_family ai) (ai_type ai) (ai_proto ai)))
      (fun e => if is_OSError e
                then Some (if bool_decide (exn_errno e = Some EAFNOSUPPORT)
                           then pret None else praise e)
                else None)
      (fun s => pret (Some s)) in
  match sock with
  | None => pret None
  | Some s =>
      ptry
        (pcall (HSetsockopt s SOL_SOCKET SO_REUSEADDR (PInt 1)) ;;;
         (if (ai_family ai =? AF_INET6)%Z
          then pcall (HSetsockopt s IPPROTO_IPV6 IPV6_V6ONLY (PInt 1)) else pret tt) ;;;
         pcall (HBind s (ai_addr ai)) ;;;
         pcall (HListen s backlog) ;;;
         pcall (HListener s) ;;;
         pret (Some s))
        (fun e => Some (close s ;;; praise e))
  end.

Definition open_listeners (backlog : Z) (addresses : list addrinfo)
    : pyM hlE (list nat * bool) :=
  pwhile (fun st : list addrinfo * list nat * bool =>
    let '(todo, listeners, unsupported) := st in
    match todo with
    | [] => pret (inr (listeners, unsupported))
    | ai :: todo =>
        ptry_else (open_one backlog ai)
          (fun e => Some (close_listeners listeners ;;; praise e))
          (fun o => pret (inl (match o with
                               | Some s => (todo, listeners ++ [s], unsupported)
                               | None => (todo, listeners, true)
                               end)))
    end) (addresses, [], false).

Definition open_tcp_listeners (port host : pyobj) (backlog : option Z) : pyM hlE (list nat) :=
  if negb (is_int port) then praise (TypeError "port must be an int")
  else
    let backlog := backlog_of backlog in
    let! addresses := pcall (HGetaddrinfo host port SOCK_STREAM AI_PASSIVE) in
    let! res := open_listeners backlog addresses in
    match res with
    | ([], true) => praise (os_error EAFNOSUPPORT)
    | (listeners, _) => pret listeners
    end.

Definition open_unix_listener (path : pyobj) (mode backlog : option Z) : pyM hlE nat :=
  match unix_check_path path mode with
  | Err e => praise e
  | Ok p =>
      let backlog := backlog_of backlog in
      let! sock := pcall (HSocket AF_UNIX SOCK_STREAM 0) in
      with_close_on_error sock
        (pcall (HUnixBind sock p mode) ;;;
         pcall (HListen sock backlog) ;;;
         pcall (HListener sock) ;;;
         pret sock)
  end.

Definition serve_once (accept : pyM hlE nat) : pyM hlE unit :=
  ptry_else accept
    (fun e => if is_OSError e
              then Some (if match exn_errno e with
                            | Some n => bool_decide (n ∈ accept_retry_errnos) | None => false end
                         then pcall HSleep else praise e)
              else None)
    (fun stream => pop (HSpawnHandler stream)).

Definition _listener_handler (accept : pyM hlE nat) (close_listener : pyM hlE unit)
    : pyM hlE unit :=
  pfinally (ploop (serve_once accept ;;; pret None)) close_listener.

Definition TLSListener_accept (self : TLSListener) : pyM hlE nat :=
  let! stream := socket_accept (tl_transport self) in
  pcall (HTlsStream stream (tl_ssl self) true None (tl_compat_https self)) ;;;
  pcall (HTlsHandshake stream) ;;;
  pret stream.

Definition TLSListener_close (self : TLSListener) : pyM hlE unit := close (tl_transport self).

(** The task that serves one listener. *)
Definition listener_task (l : served_by) : pyM hlE unit :=
  match l with
  | SocketListener l => _listener_handler (socket_accept l) (close l)
  | TlsListener l => _listener_handler (TLSListener_accept l) (TLSListener_close l)
  end.

Definition serve_listeners (listeners : list served_by) : pyM hlE unit :=
  pcall (HServe listeners).

Definition serve_tcp (port host : pyobj) (backlog : option Z) : pyM hlE unit :=
  let! listeners := open_tcp_listeners port host backlog in
  serve_listeners (SocketListener <$> listeners).

Definition serve_unix (path : pyobj) (mode backlog : option Z) : pyM hlE unit :=
  let! listener := open_unix_listener path mode backlog in
  serve_listeners [SocketListener listener].

Definition open_tls_over_tcp_stream (host port : pyobj) (https_compatible : bool)
    (ssl_context : option nat) (happy_eyeballs_delay : option Z) : pyM hlE nat :=
  let! tcp_stream := open_tcp_stream host port happy_eyeballs_delay None in
  let! ctx := match ssl_context with Some c => pret c | None => default_context end in
  pcall (HTlsStream tcp_stream (Some ctx) false (Some host) https_compatible) ;;;
  pcall (HTlsHandshake tcp_stream) ;;;
  pret tcp_stream.

Definition open_tls_over_tcp_listeners (port : pyobj) (ssl_context : option nat) (host : pyobj)
    (https_compatible : bool) (backlog : option Z) : pyM hlE (list TLSListener) :=
  let! tcp_listeners := open_tcp_listeners port host backlog in
  pret ((fun l => mkTLSListener l ssl_context https_compatible) <$> tcp_listeners).

Definition serve_tls_over_tcp (port : pyobj) (ssl_context : option nat) (host : pyobj)
    (https_compatible : bool) (backlog : option Z) : pyM hlE unit :=
  let! listeners :=
    open_tls_over_tcp_listeners port ssl_context host https_compatible backlog in
  serve_listeners (TlsListener <$> listeners).
