(* ===== verification/HilvlProps.v ===== *)
(** * What opening and serving guarantee

    No socket is leaked when opening fails half-way, and a listener is served until a
    permanent error, in an environment that decides freely which calls fail. *)

From stdpp Require Import base numbers list strings gmap.
From Stdlib Require Import ZArith Lia.
From ITree Require Import ITree ITreeFacts.
From S2P Require Import Prelude Coro Hoare Os Hilvl ColoredHilvl.

Open Scope tonio_scope.
#[local] Set Warnings "-clear-no-such-hyp".

(** ** The environment *)

(** The open sockets, the next socket number, the outcome of the calls to come
    ([Ok] when exhausted), what [getaddrinfo] finds, the connections to come, and what the
    servers did: handlers spawned, pauses made, handshakes started. *)
Record hworld := mkH {
  hw_open : list nat; hw_next : nat; hw_res : list (result unit); hw_addrs : list addrinfo;
  hw_conns : list (result nat); hw_spawned : list nat; hw_slept : nat
}.

Definition next_result (w : hworld) : result unit := default (Ok tt) (head (hw_res w)).
Definition pop_result (w : hworld) : hworld :=
  mkH (hw_open w) (hw_next w) (tail (hw_res w)) (hw_addrs w) (hw_conns w) (hw_spawned w) (hw_slept w).
Definition with_open (l : list nat) (w : hworld) : hworld :=
  mkH l (hw_next w) (hw_res w) (hw_addrs w) (hw_conns w) (hw_spawned w) (hw_slept w).

Definition hl_handle (X : Type) (e : hlE X) (w : hworld) : option (X * hworld) :=
  match e in hlE X return option (X * hworld) with
  | HSocket _ _ _ =>
      match next_result w with
      | Ok _ => let w' := pop_result w in
                Some (Ok (hw_next w),
                      mkH (hw_next w :: hw_open w) (S (hw_next w)) (hw_res w') (hw_addrs w)
                        (hw_conns w) (hw_spawned w) (hw_slept w))
      | Err x => Some (Err x, pop_result w)
      end
  | HSetsockopt _ _ _ _ => Some (next_result w, pop_result w)
  | HBind _ _ => Some (next_result w, pop_result w)
  | HConnect _ _ => Some (next_result w, pop_result w)
  | HListen _ _ => Some (next_result w, pop_result w)
  | HUnixBind _ _ _ => Some (next_result w, pop_result w)
  | HListener _ => Some (next_result w, pop_result w)
  | HStream _ => Some (Ok tt, w)
  | HClose s => Some (Ok tt, with_open (filter (fun x => x <> s) (hw_open w)) w)
  | HGetaddrinfo _ _ _ _ =>
      Some (match next_result w with Ok _ => Ok (hw_addrs w) | Err x => Err x end, pop_result w)
  | HAccept _ =>
      match hw_conns w with
      | [] => None
      | c :: cs =>
          Some (c, mkH (hw_open w) (hw_next w) (hw_res w) (hw_addrs w) cs (hw_spawned w) (hw_slept w))
      end
  | HSleep =>
      Some (Ok tt, mkH (hw_open w) (hw_next w) (hw_res w) (hw_addrs w) (hw_conns w)
                     (hw_spawned w) (S (hw_slept w)))
  | HSpawnHandler s =>
      Some (tt, mkH (hw_open w) (hw_next w) (hw_res w) (hw_addrs w) (hw_conns w)
                  (hw_spawned w ++ [s]) (hw_slept w))
  | HTlsStream _ _ _ _ _ => Some (Ok tt, w)
  | HTlsHandshake _ => Some (next_result w, pop_result w)
  | _ => None
  end.

(** ** Nothing is leaked *)

(** The sockets [L] are open on top of those, [O], that were open before. *)
Definition opens (O L : list nat) (w : hworld) : Prop :=
  hw_open w ≡ₚ L ++ O /\ NoDup (hw_open w) /\ Forall (fun x => x < hw_next w) (hw_open w).

Lemma opens_result O L w : opens O L w -> opens O L (pop_result w).
Proof. done. Qed.

Lemma opens_call O L (e : hlE (result unit)) :
  (forall w, hl_handle _ e w = Some (next_result w, pop_result w)) ->
  keeps hl_handle (opens O L) (pcall e).
Proof. intros He. apply triple_pcall. intros w r w' Hw Hh. rewrite He in Hh. by simplify_eq. Qed.

Lemma opens_close O L s : triple hl_handle (opens O (L ++ [s])) (close s)
  (fun r w => r = Ok tt /\ opens O L w).
Proof.
  apply triple_pcall. intros w r w' (Hp & Hnd & Hlt) Hh. simpl in Hh. simplify_eq.
  assert (NoDup ((L ++ [s]) ++ O)) as Hnd' by by rewrite <- Hp.
  split; [done|]. split_and!; simpl.
  - rewrite Hp, !filter_app, filter_cons_False by tauto.
    rewrite filter_nil, app_nil_r. apply NoDup_app in Hnd' as (Hn1 & Hd & Hn2).
    apply NoDup_snoc in Hn1 as [_ Hs].
    rewrite !filter_ne_id; [done| |done]. intros Hin. apply (Hd s); [set_solver|done].
  - by apply NoDup_filter.
  - rewrite Forall_forall in *. intros x [_ Hx]%list_elem_of_filter. auto.
Qed.

Lemma opens_close_all O L : triple hl_handle (opens O L) (close_listeners (rev L))
  (fun r w => r = Ok tt /\ opens O [] w).
Proof.
  induction L as [|s L IH] using rev_ind; [by apply triple_pret|].
  rewrite rev_app_distr. simpl. eapply (triple_pbind _ _ _ _ (fun _ => opens O L)).
  - eapply triple_conseq; [apply opens_close|done|]. by intros [] w [].
  - intros _. apply IH.
Qed.

Lemma opens_perm O L L' w : L ≡ₚ L' -> opens O L w -> opens O L' w.
Proof. intros HL (Hp & ? & ?). split_and!; [by rewrite <- HL|done|done]. Qed.

Lemma opens_close_listeners O L : triple hl_handle (opens O L) (close_listeners L)
  (fun r w => r = Ok tt /\ opens O [] w).
Proof.
  pose proof (opens_close_all O (rev L)) as Hc. rewrite rev_involutive in Hc.
  eapply triple_conseq; [exact Hc| |done].
  intros w. apply opens_perm, Permutation_rev.
Qed.

(** A new socket, or none. *)
Lemma opens_socket O L f t p : triple hl_handle (opens O L) (pcall (HSocket f t p))
  (fun r w => match r with Ok s => opens O (L ++ [s]) w | Err _ => opens O L w end).
Proof.
  apply triple_pcall. intros w r w' (Hp & Hnd & Hlt) Hh. simpl in Hh.
  destruct (next_result w); simplify_eq; [|done]. split_and!; simpl.
  - rewrite Hp, <- app_assoc. simpl. by rewrite <- Permutation_middle.
  - constructor; [|done]. intros Hin. rewrite Forall_forall in Hlt. specialize (Hlt _ Hin). lia.
  - constructor; [lia|]. eapply Forall_impl; [exact Hlt|]. intros x Hx. simpl in *. lia.
Qed.

(** Close the socket and re-raise. *)
Lemma opens_close_raise {A} O L s e : triple hl_handle (opens O (L ++ [s]))
  (close s ;;; praise (A:=A) e) (fun r w => r = Err e /\ opens O L w).
Proof.
  eapply (triple_pbind _ _ _ _ (fun _ => opens O L)).
  - eapply triple_conseq; [apply opens_close|done|]. by intros [] w [].
  - intros _. by apply triple_praise.
Qed.

(** A call that opens and closes nothing, then the rest. *)
Lemma opens_then {A} O L (e : hlE (result unit)) (k : pyM hlE A) (Q : result A -> hworld -> Prop) :
  (forall w, hl_handle _ e w = Some (next_result w, pop_result w)) ->
  triple hl_handle (opens O L) k Q ->
  (forall x w, opens O L w -> Q (Err x) w) ->
  triple hl_handle (opens O L) (pcall e ;;; k) Q.
Proof.
  intros He Hk HQ. eapply (triple_pbind _ _ _ _ (fun _ => opens O L)); [|by intros _].
  eapply triple_conseq; [by apply (opens_call O L)|done|]. intros [] w Hw; [done|auto].
Qed.

Lemma open_one_opens O L backlog ai : triple hl_handle (opens O L) (open_one backlog ai)
  (fun r w => match r with
              | Ok (Some s) => opens O (L ++ [s]) w
              | Ok None | Err _ => opens O L w
              end).
Proof.
  eapply (triple_pbind _ _ _ _ (fun o w =>
    match o with Some s => opens O (L ++ [s]) w | None => opens O L w end)).
  - eapply (triple_ptry_else _ _ _ _ _ (fun s => opens O (L ++ [s])) (fun _ => opens O L));
      [apply opens_socket| | |done].
    + intros s. by apply triple_pret.
    + intros e d Hd. destruct (is_OSError e); simplify_eq.
      case_bool_decide; [by apply triple_pret|by apply triple_praise].
  - intros [s|]; [|by apply triple_pret].
    eapply (triple_ptry_else _ _ _ _ _ (fun o w => o = Some s /\ opens O (L ++ [s]) w)
      (fun _ => opens O (L ++ [s]))).
    + apply opens_then; [done| |done]. eapply (triple_pbind _ _ _ _ (fun _ => opens O (L ++ [s]))).
      { destruct (_ =? _)%Z; [|by apply triple_pret].
        eapply triple_conseq; [by apply (opens_call O (L ++ [s]))|done|by intros []]. }
      intros _. apply opens_then; [done| |done]. apply opens_then; [done| |done].
      apply opens_then; [done| |done]. by apply triple_pret.
    + intros o. apply triple_pret. by intros w [-> Hw].
    + intros e d [= <-]. eapply triple_conseq; [apply opens_close_raise|done|].
      by intros r w [-> Hw].
    + done.
Qed.

(** What is open when a function that opens sockets returns or raises. *)
Definition no_leak (O : list nat) (r : result (list nat)) (w : hworld) : Prop :=
  match r with Ok ls => opens O ls w | Err _ => opens O [] w end.

Lemma open_listeners_opens O backlog addrs :
  triple hl_handle (opens O []) (open_listeners backlog addrs)
    (fun r w => match r with Ok (ls, _) => opens O ls w | Err _ => opens O [] w end).
Proof.
  refine (triple_pwhile _ (fun st w => opens O (snd (fst st)) w) _ _ _ (addrs, [], false)).
  intros [[[|ai todo] L] u]; simpl; [by apply triple_pret|].
  eapply (triple_ptry_else _ _ _ _ _ (fun o w =>
    match o with Some s => opens O (L ++ [s]) w | None => opens O L w end) (fun _ => opens O L)).
  - eapply triple_conseq; [apply open_one_opens|done|]. by intros [[s|]|].
  - intros [s|]; by apply triple_pret.
  - intros e d [= <-]. eapply (triple_pbind _ _ _ _ (fun _ => opens O [])); [|intros _; by apply triple_praise].
    eapply triple_conseq; [apply opens_close_listeners|done|]. by intros [] w [].
  - done.
Qed.

Lemma open_tcp_listeners_opens O port host backlog :
  triple hl_handle (opens O []) (Hilvl.open_tcp_listeners port host backlog) (no_leak O).
Proof.
  unfold Hilvl.open_tcp_listeners. destruct (negb _); [by apply triple_praise|].
  eapply (triple_pbind _ _ _ _ (fun _ => opens O [])).
  { apply triple_pcall. intros w r w' Hw Hh. simpl in Hh. simplify_eq.
    by destruct (next_result w). }
  intros addrs. eapply (triple_pbind _ _ _ _ (fun res w => opens O (fst res) w)).
  - eapply triple_conseq; [apply open_listeners_opens|done|]. by intros [[]|].
  - intros [[|s ls] []]; by first [apply triple_praise|apply triple_pret].
Qed.

Lemma with_close_on_error_opens {A} O s (c : pyM hlE A) (Q : result A -> hworld -> Prop) :
  triple hl_handle (opens O [s]) c
    (fun r w => match r with Ok a => Q (Ok a) w | Err _ => opens O [s] w end) ->
  (forall e w, opens O [] w -> Q (Err e) w) ->
  triple hl_handle (opens O [s]) (with_close_on_error s c) Q.
Proof.
  intros Hc HQ. eapply (triple_ptry_else _ _ _ _ _ (fun a => Q (Ok a)) (fun _ => opens O [s]));
    [exact Hc|by intros a; apply triple_pret| |done].
  intros e d [= <-]. eapply triple_conseq; [apply (opens_close_raise O [])|done|].
  intros r w [-> Hw]. auto.
Qed.

Lemma open_unix_listener_opens O path mode backlog :
  triple hl_handle (opens O []) (Hilvl.open_unix_listener path mode backlog)
    (fun r => no_leak O (match r with Ok s => Ok [s] | Err e => Err e end)).
Proof.
  unfold Hilvl.open_unix_listener. destruct (unix_check_path path mode); [|by apply triple_praise].
  eapply (triple_pbind _ _ _ _ (fun s => opens O [s])).
  { eapply triple_conseq; [apply (opens_socket O [])|done|]. by intros []. }
  intros s. apply with_close_on_error_opens; [|done].
  do 3 (apply opens_then; [done| |done]). by apply triple_pret.
Qed.

Lemma open_unix_socket_opens O filename :
  triple hl_handle (opens O []) (Hilvl.open_unix_socket filename)
    (fun r => no_leak O (match r with Ok s => Ok [s] | Err e => Err e end)).
Proof.
  eapply (triple_pbind _ _ _ _ (fun s => opens O [s])).
  { eapply triple_conseq; [apply (opens_socket O [])|done|]. by intros []. }
  intros s. eapply (triple_pbind _ _ _ _ (fun _ => opens O [s])).
  - apply with_close_on_error_opens; [|done].
    destruct (fspath filename); [|by apply triple_praise].
    eapply triple_conseq; [by apply (opens_call O [s])|done|by intros []].
  - intros _. eapply (triple_pbind _ _ _ _ (fun _ => opens O [s])); [|intros _; by apply triple_pret].
    apply triple_pcall. intros w r w' Hw Hh. simpl in Hh. by simplify_eq.
Qed.

(** Every call of the environment but [accept] returns. *)
Lemma close_total s : total hl_handle (close s).
Proof. apply total_pcall. by eexists. Qed.

Ltac total_call := apply total_pcall; intros ?; simpl; repeat case_match; by eexists.

Lemma open_one_total backlog ai : total hl_handle (open_one backlog ai).
Proof.
  apply total_pbind.
  - apply total_ptry_else; [total_call| |by intros; apply total_pret].
    intros e d Hd. destruct (is_OSError e); simplify_eq.
    case_bool_decide; [apply total_pret|apply total_praise].
  - intros [s|]; [|apply total_pret]. apply total_ptry_else; [| |by intros; apply total_pret].
    + repeat (apply total_pbind; [|intros _]); try total_call; [|apply total_pret].
      case_match; [total_call|apply total_pret].
    + intros e d [= <-]. apply total_pbind; [apply close_total|intros; apply total_praise].
Qed.

Lemma close_listeners_total L : total hl_handle (close_listeners L).
Proof.
  induction L; simpl; [apply total_pret|]. apply total_pbind; [apply close_total|done].
Qed.

Lemma open_listeners_total backlog addrs : total hl_handle (open_listeners backlog addrs).
Proof.
  apply (total_pwhile _ (fun st : list addrinfo * list nat * bool => length (fst (fst st)))).
  intros [[[|ai todo] L] u] w; simpl.
  { eexists _, w. split; [apply runs_pret|]. by intros j Hj. }
  destruct (open_one_total backlog ai w) as ([o|e] & w1 & Hr).
  - do 2 eexists. split; [eapply runs_ptry_else_ok; [exact Hr|apply runs_pret]|].
    intros j Hj. destruct o; simplify_eq; simpl; lia.
  - destruct (close_listeners_total L w1) as ([u'|e'] & w2 & Hc).
    + exists (Err e), w2. split; [|done]. eapply runs_ptry_else_catch; [exact Hr|reflexivity|].
      eapply runs_pbind; [exact Hc|apply runs_praise].
    + exists (Err e'), w2. split; [|done].
      eapply runs_ptry_else_catch; [exact Hr|reflexivity|]. by apply runs_pbind_err.
Qed.

Lemma open_tcp_listeners_total port host backlog :
  total hl_handle (Hilvl.open_tcp_listeners port host backlog).
Proof.
  unfold Hilvl.open_tcp_listeners. case_match; [apply total_praise|].
  apply total_pbind; [total_call|]. intros addrs.
  apply total_pbind; [apply open_listeners_total|].
  intros [[|] []]; by first [apply total_praise|apply total_pret].
Qed.

Lemma with_close_on_error_total {A} s (c : pyM hlE A) :
  total hl_handle c -> total hl_handle (with_close_on_error s c).
Proof.
  intros Hc. apply total_ptry_else; [done| |intros; apply total_pret].
  intros e d [= <-]. apply total_pbind; [apply close_total|intros; apply total_praise].
Qed.

Lemma open_unix_listener_total path mode backlog :
  total hl_handle (Hilvl.open_unix_listener path mode backlog).
Proof.
  unfold Hilvl.open_unix_listener. case_match; [|apply total_praise].
  apply total_pbind; [total_call|]. intros s. apply with_close_on_error_total.
  repeat (apply total_pbind; [total_call|intros _]). apply total_pret.
Qed.

Lemma open_unix_socket_total filename : total hl_handle (Hilvl.open_unix_socket filename).
Proof.
  apply total_pbind; [total_call|]. intros s. apply total_pbind.
  - apply with_close_on_error_total. case_match; [total_call|apply total_praise].
  - intros _. apply total_pbind; [total_call|intros _; apply total_pret].
Qed.

(** [c] returns from [w] and, whether it returns or raises, leaks no socket. *)
Definition opens_safely {A} (O : list nat) (handed : A -> list nat) (c : pyM hlE A) (w : hworld)
    : Prop :=
  exists r w', runs hl_handle c w r w' /\
    no_leak O (match r with Ok a => Ok (handed a) | Err e => Err e end) w'.

Lemma opens_safely_intro {A} O (handed : A -> list nat) c w :
  opens O [] w -> total hl_handle c ->
  triple hl_handle (opens O []) c
    (fun r => no_leak O (match r with Ok a => Ok (handed a) | Err e => Err e end)) ->
  opens_safely O handed c w.
Proof.
  intros Hw Ht Hc. destruct (Ht w) as (r & w' & Hr). exists r, w'. split; [done|]. by eapply Hc.
Qed.

(** [C32] Opening never leaks.  Whatever call fails in the course of [open_tcp_listeners],
    [open_unix_listener] or [open_unix_socket] (of either API), it ends: when it returns
    exactly the sockets it hands out have been opened, and when it raises none is left open. *)
Theorem opening_never_leaks O w port host backlog path mode filename :
  opens O [] w ->
  opens_safely O id (Hilvl.open_tcp_listeners port host backlog) w /\
  opens_safely O id (ColoredHilvl.open_tcp_listeners port host backlog) w /\
  opens_safely O (fun s => [s]) (Hilvl.open_unix_listener path mode backlog) w /\
  opens_safely O (fun s => [s]) (ColoredHilvl.open_unix_listener path mode backlog) w /\
  opens_safely O (fun s => [s]) (Hilvl.open_unix_socket filename) w /\
  opens_safely O (fun s => [s]) (ColoredHilvl.open_unix_socket filename) w.
Proof.
  intros Hw. split_and!; apply opens_safely_intro; try done.
  1,3: apply open_tcp_listeners_total.
  1,2: eapply triple_conseq; [apply open_tcp_listeners_opens|done|by intros []].
  1,3: apply open_unix_listener_total.
  1,2: apply open_unix_listener_opens.
  1,3: apply open_unix_socket_total.
  all: apply open_unix_socket_opens.
Qed.

(** Two addresses; binding the second one fails. *)
Definition demo_listen : hworld :=
  mkH [7] 8 [Ok tt; Ok tt; Ok tt; Ok tt; Ok tt; Ok tt; Ok tt; Ok tt; Err (os_error EADDRINUSE)]
    [mkAi AF_INET SOCK_STREAM 6 "" PNone; mkAi AF_INET SOCK_STREAM 6 "" PNone] [] [] 0.

Lemma opening_never_leaks_witness :
  runs hl_handle (Hilvl.open_tcp_listeners (PInt 80) PNone None) demo_listen
    (Err (os_error EADDRINUSE)) (with_open [7] (mkH [] 10 [] (hw_addrs demo_listen) [] [] 0)) /\
  opens_safely [7] id (Hilvl.open_tcp_listeners (PInt 80) PNone None) demo_listen.
Proof.
  split; [apply runs_exec; exists 200; vm_compute; reflexivity|].
  refine (proj1 (opening_never_leaks [7] demo_listen (PInt 80) PNone None PNone None PNone _)).
  split_and!; simpl; [done|apply NoDup_singleton|]. repeat constructor.
Defined.

(** ** Serving a listener *)

(** An error after which the listener pauses and goes on. *)
Definition retryable (e : exn) : bool :=
  is_OSError e && match exn_errno e with
                  | Some n => bool_decide (n ∈ accept_retry_errnos) | None => false end.

(** The connections among the outcomes of [accept], and the pauses. *)
Definition streams_of (l : list (result nat)) : list nat :=
  omap (fun r => match r with Ok s => Some s | Err _ => None end) l.
Definition pauses_of (l : list (result nat)) : nat := countb (fun r => negb (is_ok r)) l.

Definition served (w w' : hworld) (l : list (result nat)) : Prop :=
  hw_spawned w' = hw_spawned w ++ streams_of l /\ hw_slept w' = hw_slept w + pauses_of l /\
  hw_open w' = hw_open w.

Lemma serve_round l w c cs :
  hw_conns w = c :: cs -> (forall e, c = Err e -> retryable e = true) ->
  exists w', runs hl_handle (serve_once (socket_accept l)) w (Ok tt) w' /\
    hw_conns w' = cs /\ served w w' [c].
Proof.
  intros Hc Hr. destruct w as [o n rs ad conns sp sl]. simpl in Hc. subst conns.
  destruct c as [s|e].
  - eexists. split.
    + eapply runs_ptry_else_ok; [eapply runs_pcall; reflexivity|eapply runs_pop; reflexivity].
    + split_and!; simpl; [done|]. unfold served. simpl. rewrite Nat.add_0_r. done.
  - specialize (Hr e eq_refl). unfold retryable in Hr. apply andb_prop in Hr as [He Hn].
    eexists. split.
    + eapply runs_ptry_else_catch; [eapply runs_pcall; reflexivity|by rewrite He, Hn|].
      eapply runs_pcall. reflexivity.
    + split_and!; simpl; [done|]. unfold served. simpl. rewrite app_nil_r. split_and!; [done| |done].
      unfold pauses_of. simpl. lia.
Qed.

Lemma serve_loop l cs e : retryable e = false -> forall w,
  hw_conns w = cs ++ [Err e] -> (forall x, Err x ∈ cs -> retryable x = true) ->
  exists w', runs hl_handle (ploop (serve_once (socket_accept l) ;;; pret (A:=option unit) None)) w (Err e) w' /\
    served w w' cs.
Proof.
  intros He. induction cs as [|c cs IH]; intros w Hw Hr.
  - destruct w as [o n rs ad conns sp sl]. simpl in Hw. subst conns.
    exists (mkH o n rs ad [] sp sl). split; [|unfold served; simpl; by rewrite app_nil_r, Nat.add_0_r].
    apply runs_ploop_err, runs_pbind_err. unfold retryable in He.
    destruct (is_OSError e) eqn:Hos; simpl in He.
    + eapply runs_ptry_else_catch; [eapply runs_pcall; reflexivity|by rewrite Hos, He|apply runs_praise].
    + eapply runs_ptry_else_pass; [eapply runs_pcall; reflexivity|by rewrite Hos].
  - destruct (serve_round l w c (cs ++ [Err e])) as (w1 & Hr1 & Hc1 & H1 & H2 & H3); [done| |].
    { intros x ->. apply Hr. set_solver. }
    destruct (IH w1 Hc1) as (w' & Hr' & H1' & H2' & H3'); [set_solver|].
    exists w'. split.
    + eapply runs_ploop_next; [|exact Hr']. eapply runs_pbind; [exact Hr1|apply runs_pret].
    + unfold served. rewrite H1', H1, H2', H2, H3', H3, <- app_assoc. split_and!.
      * f_equal. by destruct c.
      * unfold pauses_of. simpl. lia.
      * done.
Qed.

(** A listener is served until a permanent error, in both APIs: every connection gets
    its handler, in order; running out of descriptors or memory makes the listener pause and
    go on; any other error ends the loop, with the listener closed and the error raised. *)
Theorem listener_serves l cs e w :
  retryable e = false -> (forall x, Err x ∈ cs -> retryable x = true) ->
  hw_conns w = cs ++ [Err e] ->
  exists w', runs hl_handle (Hilvl.listener_task (SocketListener l)) w (Err e) w' /\
    runs hl_handle (ColoredHilvl.listener_task (SocketListener l)) w (Err e) w' /\
    hw_spawned w' = hw_spawned w ++ streams_of cs /\ hw_slept w' = hw_slept w + pauses_of cs /\
    l ∉ hw_open w'.
Proof.
  intros He Hr Hw. destruct (serve_loop l cs e He w Hw Hr) as (w1 & Hr1 & H1 & H2 & H3).
  set (w' := with_open (filter (fun x => x <> l) (hw_open w1)) w1).
  assert (runs hl_handle (Hilvl.listener_task (SocketListener l)) w (Err e) w') as Hrun.
  { eapply runs_pfinally; [exact Hr1|]. eapply runs_pcall. reflexivity. }
  exists w'. split_and!; try done. simpl. rewrite list_elem_of_filter. tauto.
Qed.

Lemma listener_serves_witness :
  exists w', runs hl_handle (Hilvl.listener_task (SocketListener 3))
      (mkH [3] 4 [] [] [Ok 10; Err (os_error EMFILE); Ok 11; Err (os_error EBADF)] [] 0)
      (Err (os_error EBADF)) w' /\
    hw_spawned w' = [10; 11] /\ hw_slept w' = 1 /\ 3 ∉ hw_open w'.
Proof.
  destruct (listener_serves 3 [Ok 10; Err (os_error EMFILE); Ok 11] (os_error EBADF)
    (mkH [3] 4 [] [] [Ok 10; Err (os_error EMFILE); Ok 11; Err (os_error EBADF)] [] 0))
    as (w' & Hr & _ & Hs & Hp & Hc); [done| |done|].
  { intros x. rewrite !elem_of_cons, elem_of_nil. by intros [?|[?|[?|?]]]; simplify_eq. }
  by exists w'.
Defined.

(** One client can stop a TLS server: the handshake is part of [TLSListener.accept], and
    its failure is a [ResourceBroken], which the accept loop does not expect; the loop ends,
    the listener is closed with connections still waiting, and the client's transport
    is left open. *)
Theorem tls_client_stops_server l s1 s2 cause :
  tl_transport l <> s1 ->
  exists w', runs hl_handle (Hilvl.listener_task (TlsListener l))
      (mkH [s1; tl_transport l] (S (tl_transport l + s1)) [Err (ResourceBroken cause)] []
        [Ok s1; Ok s2] [] 0)
      (Err (ResourceBroken cause)) w' /\
    hw_open w' = [s1] /\ hw_conns w' = [Ok s2] /\ hw_spawned w' = [].
Proof.
  intros Hne. eexists. split; [|split_and!].
  - eapply runs_pfinally.
    + apply runs_ploop_err, runs_pbind_err. eapply runs_ptry_else_pass; [|reflexivity].
      eapply runs_pbind; [eapply runs_pcall; reflexivity|].
      eapply runs_pbind; [eapply runs_pcall; reflexivity|].
      apply runs_pbind_err. eapply runs_pcall. reflexivity.
    + eapply runs_pcall. reflexivity.
  - simpl. rewrite filter_cons_True by done. by rewrite filter_cons_False by tauto.
  - done.
  - done.
Qed.

Lemma tls_client_stops_server_witness :
  exists w', runs hl_handle (Hilvl.listener_task (TlsListener (mkTLSListener 3 None false)))
      (mkH [4; 3] 8 [Err (ResourceBroken None)] [] [Ok 4; Ok 5] [] 0) (Err (ResourceBroken None)) w' /\
    hw_conns w' = [Ok 5].
Proof.
  destruct (tls_client_stops_server (mkTLSListener 3 None false) 4 5 None) as (w' & Hr & _ & Hc & _); [done|].
  by exists w'.
Defined.
