(* ===== verification/Driver.v ===== *)
(** * A descriptor, its kernel object and the poller

    An executable environment for the coroutines of the I/O layer.  The kernel object
    behind a descriptor changes on its own (data arrive, space frees up) and queues an
    edge for the poller; the poller dispatches queued edges, one at a time, to the
    entry of the driver ([ScheduledIO]); both may happen between any two operations of
    the task.  The theorem is that the arm/call/clear loop of the sockets and
    descriptors returns what the kernel has to give: it neither hangs nor spins. *)

From stdpp Require Import base numbers list gmap.
From Stdlib Require Import ZArith Lia.
From ITree Require Import ITree ITreeFacts.
From S2P Require Import Prelude Coro SchedIO Arming Os Socket.

Open Scope Z_scope.
#[local] Set Warnings "-clear-no-such-hyp".
Open Scope tonio_scope.

(** ** One direction of an entry *)

Definition arm_d (d : bool) (e : nat) (io : ScheduledIO) : option nat * ScheduledIO :=
  if d then arm_r e io else arm_w e io.
Definition clear_d (d : bool) (io : ScheduledIO) : ScheduledIO :=
  if d then clear_r io else clear_w io.
Definition tick_d (d : bool) (io : ScheduledIO) : Z := if d then tick_r io else tick_w io.

(** The poller's treatment of one edge: [set_readiness], [wake], and the events woken. *)
Definition dispatch (r : Z) (io : ScheduledIO) : list nat * ScheduledIO :=
  let '((a, b), io') := wake r (set_readiness r io) in
  (option_list a ++ option_list b, io').

Definition hits (d : bool) (r : Z) : bool := negb (Z.land r (dmask d) =? 0).

(** The direction is marked ready. *)
Definition bits (d : bool) (io : ScheduledIO) : bool :=
  ready_or_shutdown (dmask d) (readiness io).

Definition no_shutdown (io : ScheduledIO) : Prop := Z.land (readiness io) SHUTDOWN = 0.

Lemma arm_d_None d e io io1 :
  arm_d d e io = (None, io1) ->
  bits d io = true /\ readiness io1 = readiness io /\
  tick_d d io1 = tick_of (readiness io) /\
  reader io1 = reader io /\ writer io1 = writer io.
Proof.
  unfold bits. destruct d; simpl; unfold arm_r, arm_w, arm;
    destruct (ready_or_shutdown _ _) eqn:Hb; intros ?; by simplify_eq.
Qed.

Lemma arm_d_Some d e io x io1 :
  arm_d d e io = (Some x, io1) ->
  x = e /\ bits d io = false /\ io1 = set_slot (dmask d) e io.
Proof.
  unfold bits. destruct d; simpl; unfold arm_r, arm_w, arm;
    destruct (ready_or_shutdown _ _) eqn:Hb; intros ?; by simplify_eq.
Qed.

Lemma bits_split d io :
  bits d io = negb (Z.land (readiness io) (dmask d) =? 0)
              || negb (Z.land (readiness io) SHUTDOWN =? 0).
Proof.
  unfold bits, ready_or_shutdown. rewrite Z.land_lor_distr_r. apply eq_bool_prop_intro.
  rewrite orb_True, !negb_True, !Is_true_true, !Z.eqb_eq, Z.lor_eq_0_iff.
  destruct (Z.eq_dec (Z.land (readiness io) (dmask d)) 0),
    (Z.eq_dec (Z.land (readiness io) SHUTDOWN) 0); tauto.
Qed.

Lemma readiness_dispatch r io : readiness (snd (dispatch r io)) = bump r (readiness io).
Proof. done. Qed.

Lemma dispatch_bits d r io : edge_ok r ->
  bits d (snd (dispatch r io)) = bits d io || hits d r.
Proof.
  intros Hr. unfold bits, ready_or_shutdown, hits. rewrite readiness_dispatch.
  apply eq_bool_prop_intro.
  rewrite orb_True, !negb_True, !Is_true_true, !Z.eqb_eq.
  rewrite land_bump_0 by (done || apply dmask_bound).
  assert (Z.land r (Z.lor (dmask d) SHUTDOWN) = Z.land r (dmask d)) as ->.
  { rewrite Z.land_lor_distr_r. assert (Z.land r SHUTDOWN = 0) as ->; [|apply Z.lor_0_r].
    apply Z.bits_inj'. intros n Hn. rewrite Z.land_spec, Z.bits_0.
    destruct (Z.eq_dec n 5) as [->|Hne]; [by rewrite (testbit_small r 5)|].
    assert (Z.testbit SHUTDOWN n = false) as ->; [|by rewrite andb_false_r].
    change SHUTDOWN with (2 ^ 5). by apply Z.pow2_bits_false. }
  destruct (Z.eq_dec (Z.land (readiness io) (Z.lor (dmask d) SHUTDOWN)) 0),
    (Z.eq_dec (Z.land r (dmask d)) 0); tauto.
Qed.

Lemma dispatch_no_shutdown r io : edge_ok r -> no_shutdown io -> no_shutdown (snd (dispatch r io)).
Proof.
  intros Hr Hs. unfold no_shutdown. rewrite readiness_dispatch.
  apply land_bump_0; [by vm_compute|done|]. split; [done|].
  apply Z.bits_inj'. intros n Hn. rewrite Z.land_spec, Z.bits_0.
  destruct (Z.eq_dec n 5) as [->|Hne]; [by rewrite (testbit_small r 5)|].
  assert (Z.testbit SHUTDOWN n = false) as ->; [|by rewrite andb_false_r].
  change SHUTDOWN with (2 ^ 5). by apply Z.pow2_bits_false.
Qed.

Lemma dispatch_ticks d r io : edge_ok r ->
  tick_d d (snd (dispatch r io)) = tick_d d io /\
  tick_of (readiness (snd (dispatch r io))) = (tick_of (readiness io) + 1) mod 256.
Proof. intros Hr. split; [by destruct d|]. by apply bump_tick. Qed.

Lemma dispatch_slot d r io :
  slot_of d (snd (dispatch r io)) = if hits d r then None else slot_of d io.
Proof. unfold hits. by destruct d; simpl; destruct (_ =? 0). Qed.

Lemma dispatch_woken d r e io :
  slot_of d io = Some e -> hits d r = true -> e ∈ fst (dispatch r io).
Proof.
  unfold hits. intros Hs Hh. unfold dispatch. simpl. apply elem_of_app.
  destruct d; simpl in *; rewrite Hh, Hs; simpl; [left|right]; by apply list_elem_of_singleton.
Qed.

Lemma dispatch_woken_inv r e io :
  e ∈ fst (dispatch r io) -> reader io = Some e \/ writer io = Some e.
Proof.
  unfold dispatch. simpl. rewrite elem_of_app.
  destruct (negb _), (negb _); simpl; destruct (reader io), (writer io); simpl;
    rewrite ?list_elem_of_singleton, ?elem_of_nil; naive_solver.
Qed.

(** [clear] acts exactly when no edge was dispatched since the direction was armed. *)
Lemma clear_d_same d io :
  no_shutdown io -> tick_of (readiness io) = tick_d d io ->
  bits d (clear_d d io) = false /\ no_shutdown (clear_d d io).
Proof.
  intros Hs Ht. assert (clear_d d io = with_readiness (Z.ldiff (readiness io) (dmask d)) io) as ->.
  { destruct d; simpl in *; unfold clear_r, clear_w, clear; by rewrite Ht, Z.eqb_refl. }
  assert (no_shutdown (with_readiness (Z.ldiff (readiness io) (dmask d)) io)) as Hs'.
  { unfold no_shutdown in *. simpl. apply Z.bits_inj'. intros n Hn.
    apply (f_equal (fun z => Z.testbit z n)) in Hs. revert Hs.
    rewrite !Z.land_spec, Z.ldiff_spec, Z.bits_0.
    by destruct (Z.testbit (readiness io) n), (Z.testbit SHUTDOWN n), (Z.testbit (dmask d) n). }
  split; [|done]. rewrite bits_split. rewrite Hs'. simpl.
  assert (Z.land (Z.ldiff (readiness io) (dmask d)) (dmask d) = 0) as ->; [|done].
  apply Z.bits_inj'. intros n Hn. rewrite Z.land_spec, Z.ldiff_spec, Z.bits_0.
  by destruct (Z.testbit (readiness io) n), (Z.testbit (dmask d) n).
Qed.

Lemma clear_d_stale d io : tick_of (readiness io) <> tick_d d io -> clear_d d io = io.
Proof.
  intros Ht. destruct d; simpl in *; unfold clear_r, clear_w, clear;
    by (rewrite (proj2 (Z.eqb_neq _ _)) by done).
Qed.

Lemma clear_d_frame d io :
  reader (clear_d d io) = reader io /\ writer (clear_d d io) = writer io.
Proof. destruct d; simpl; unfold clear_r, clear_w, clear; by destruct (negb _). Qed.

(** ** The environment *)

(** A kernel object: what happens to it on its own ([kstep]), the edge that is queued
    for it ([kedge], 0 for none) and how it answers calls. *)
Class Kernel (K Ev : Type) := {
  kstep : Ev -> K -> K;
  kedge : Ev -> Z;
  ksys : forall A, syscall A -> K -> option (result A * K)
}.

(** The calls a signal may interrupt: those that transfer data or wait for a peer. *)
Definition interruptible {A} (c : syscall A) : bool :=
  match c with
  | sk_accept _ | sk_connect _ _ | sk_recv _ _ _ | sk_recv_into _ _ _ _ | sk_recvfrom _ _ _
  | sk_recvfrom_into _ _ _ _ | sk_recvmsg _ _ _ _ | sk_recvmsg_into _ _ _ _ | sk_send _ _ _
  | sk_sendto _ _ _ | sk_sendmsg _ _ _ _ _ | os_read _ _ | os_write _ _ => true
  | _ => false
  end.

(** The fields of the native objects: the [_eof] flag of a socket, the descriptor an [Fd]
    owns with its original mode, and the locks that are held. *)
Record objects := mkObj { o_eof : bool; o_fd : option (Z * bool); o_locks : list nat }.

Section World.
Context {K Ev : Type} `{Kernel K Ev}.

(** The kernel object, the edges queued for the poller, the entry, the events scheduled,
    the happenings to come ([Some ev] a change of the object, [None] a dispatch), how many
    of them precede each operation, and which calls a signal interrupts. *)
Record world := mkW {
  wk : K; wq : list Z; wio : ScheduledIO; wfired : list nat; wfresh : nat;
  wscript : list (option Ev); wsched : list nat; wirq : list bool; wobj : objects
}.

Definition happen (w : world) : world :=
  match wscript w with
  | [] => w
  | Some ev :: s =>
      mkW (kstep ev (wk w)) (if kedge ev =? 0 then wq w else wq w ++ [kedge ev])
        (wio w) (wfired w) (wfresh w) s (wsched w) (wirq w) (wobj w)
  | None :: s =>
      match wq w with
      | [] => mkW (wk w) [] (wio w) (wfired w) (wfresh w) s (wsched w) (wirq w) (wobj w)
      | r :: q =>
          let '(woken, io) := dispatch r (wio w) in
          mkW (wk w) q io (woken ++ wfired w) (wfresh w) s (wsched w) (wirq w) (wobj w)
      end
  end.

Definition with_io (io : ScheduledIO) (w : world) : world :=
  mkW (wk w) (wq w) io (wfired w) (wfresh w) (wscript w) (wsched w) (wirq w) (wobj w).
Definition bump_fresh (w : world) : world :=
  mkW (wk w) (wq w) (wio w) (wfired w) (S (wfresh w)) (wscript w) (wsched w) (wirq w) (wobj w).
Definition with_k (k : K) (w : world) : world :=
  mkW k (wq w) (wio w) (wfired w) (wfresh w) (wscript w) (wsched w) (wirq w) (wobj w).
Definition with_obj (o : objects) (w : world) : world :=
  mkW (wk w) (wq w) (wio w) (wfired w) (wfresh w) (wscript w) (wsched w) (wirq w) o.
Definition next_irq (w : world) : world :=
  mkW (wk w) (wq w) (wio w) (wfired w) (wfresh w) (wscript w) (wsched w) (tail (wirq w)) (wobj w).

(** What happens before the next operation. *)
Definition interleave (w : world) : world :=
  Nat.iter (default O (head (wsched w))) happen
    (mkW (wk w) (wq w) (wio w) (wfired w) (wfresh w) (wscript w) (tail (wsched w)) (wirq w) (wobj w)).

(** Wait until event [e] has been scheduled. *)
Fixpoint await_until (n : nat) (e : nat) (w : world) : option world :=
  if bool_decide (e ∈ wfired w) then Some w
  else match n with O => None | S n => await_until n e (happen w) end.

(** The operations on the entry number [i0]. *)
Definition handle (i0 : nat) (X : Type) (ev : osE X) (w : world) : option (X * world) :=
  let w := interleave w in
  match ev in osE X return option (X * world) with
  | IoArm d i =>
      if bool_decide (i = i0) then
        let '(r, io) := arm_d d (wfresh w) (wio w) in Some (r, bump_fresh (with_io io w))
      else None
  | IoClear d i =>
      if bool_decide (i = i0) then Some (tt, with_io (clear_d d (wio w)) w) else None
  | IoDeregister i =>
      if bool_decide (i = i0) then
        let '((a, b), io) := SchedIO.shutdown (wio w) in
        Some (tt, mkW (wk w) (wq w) io (option_list a ++ option_list b ++ wfired w) (wfresh w)
                    (wscript w) (wsched w) (wirq w) (wobj w))
      else None
  | AwaitIo e =>
      match await_until (length (wscript w)) e w with
      | Some w' => Some (Ok tt, w')
      | None => None
      end
  | Sys c =>
      if interruptible c then
        match wirq w with
        | true :: _ => Some (Err (os_error EINTR), next_irq w)
        | _ =>
            match ksys _ c (wk w) with
            | Some (r, k) => Some (r, with_k k (next_irq w))
            | None => None
            end
        end
      else
        match ksys _ c (wk w) with
        | Some (r, k) => Some (r, with_k k w)
        | None => None
        end
  | EofGet i => if bool_decide (i = i0) then Some (o_eof (wobj w), w) else None
  | EofSet i =>
      if bool_decide (i = i0)
      then Some (tt, with_obj (mkObj true (o_fd (wobj w)) (o_locks (wobj w))) w) else None
  | FdGet i =>
      if bool_decide (i = i0)
      then Some (match o_fd (wobj w) with Some (fd, _) => fd | None => -1 end, w) else None
  | TryLock l =>
      if bool_decide (l ∈ o_locks (wobj w)) then Some (Err WouldBlock, w)
      else Some (Ok tt, with_obj (mkObj (o_eof (wobj w)) (o_fd (wobj w)) (l :: o_locks (wobj w))) w)
  | Unlock l =>
      Some (tt, with_obj (mkObj (o_eof (wobj w)) (o_fd (wobj w))
                            (filter (fun x => x <> l) (o_locks (wobj w)))) w)
  | _ => None
  end.
End World.
Arguments world : clear implicits.

(** ** The environment as time passes *)

Section Time.
Context {K Ev : Type} `{Kernel K Ev}.
Implicit Types w : world K Ev.

(** The object after a list of happenings. *)
Definition k_end (k : K) (s : list (option Ev)) : K :=
  fold_left (fun k o => match o with Some ev => kstep ev k | None => k end) s k.

(** Every edge queued now or later is dispatched by the end of the script. *)
Fixpoint drains (q : list Z) (s : list (option Ev)) : bool :=
  match s with
  | [] => match q with [] => true | _ => false end
  | Some ev :: s => drains (if kedge ev =? 0 then q else q ++ [kedge ev]) s
  | None :: s => drains (tail q) s
  end.

Definition dispatched w : nat :=
  match wscript w with
  | None :: _ => match wq w with [] => 0 | _ => 1 end
  | _ => 0
  end.

Definition with_sched (l : list nat) w : world K Ev :=
  mkW (wk w) (wq w) (wio w) (wfired w) (wfresh w) (wscript w) l (wirq w) (wobj w).

(** [later w w' m]: [w'] is [w] after some happenings, [m] dispatches among them. *)
Inductive later w : world K Ev -> nat -> Prop :=
| later_refl l : later w (with_sched l w) 0
| later_step w' m : later w w' m -> wscript w' <> [] -> later w (happen w') (m + dispatched w').

Lemma later_iter n w w' m : later w w' m -> exists m', later w (Nat.iter n happen w') m'.
Proof.
  intros Hl. revert w' m Hl. induction n as [|n IH]; intros w' m Hl; [by eauto|].
  rewrite Nat.iter_succ_r. destruct (wscript w') eqn:Hs.
  - assert (happen w' = w') as -> by (unfold happen; by rewrite Hs). eauto.
  - eapply IH, later_step; [done|]. by rewrite Hs.
Qed.

Lemma later_interleave w : exists m, later w (interleave w) m.
Proof. eapply later_iter. apply later_refl. Qed.

Lemma happen_script w : wscript w <> [] -> exists o, wscript w = o :: wscript (happen w) /\
  wk (happen w) = k_end (wk w) [o] /\ (dispatched w <= 1)%nat.
Proof.
  unfold happen, dispatched. destruct (wscript w) as [|[ev|] s] eqn:Hs; [done|eauto|].
  intros _. exists None. destruct (wq w); simpl; eauto.
Qed.

Lemma later_script w w' m : later w w' m ->
  exists pre, wscript w = pre ++ wscript w' /\ wk w' = k_end (wk w) pre /\ (m <= length pre)%nat.
Proof.
  induction 1 as [l|w' m Hl (pre & Hs & Hk & Hm) Hne]; [by exists []|].
  destruct (happen_script w' Hne) as (o & Ho & Hk' & Hd). exists (pre ++ [o]).
  split_and!.
  - rewrite Hs, Ho. by rewrite <- app_assoc.
  - rewrite Hk', Hk. unfold k_end. by rewrite fold_left_app.
  - rewrite length_app. simpl. lia.
Qed.

Lemma later_frame w w' m : later w w' m -> wfresh w' = wfresh w /\ wirq w' = wirq w.
Proof.
  induction 1 as [l|w' m Hl [Hf Hi] Hne]; [done|]. rewrite <- Hf, <- Hi. unfold happen.
  destruct (wscript w') as [|[ev|] s]; [done|done|]. by destruct (wq w').
Qed.

Lemma later_obj w w' m : later w w' m -> wobj w' = wobj w.
Proof.
  induction 1 as [l|w' m Hl IH Hne]; [done|]. rewrite <- IH. unfold happen.
  destruct (wscript w') as [|[ev|] s]; [done|done|]. by destruct (wq w').
Qed.

(** Without a dispatch the entry and the scheduled events are untouched. *)
Lemma later_still w w' m : later w w' m -> m = O -> wio w' = wio w /\ wfired w' = wfired w.
Proof.
  induction 1 as [l|w' m Hl IH Hne]; [done|]. intros Hm. destruct IH as [Hio Hf]; [lia|].
  rewrite <- Hio, <- Hf. unfold happen, dispatched in *.
  destruct (wscript w') as [|[ev|] s]; [done|done|]. destruct (wq w'); [done|lia].
Qed.

Lemma later_same_script w w' m : later w w' m ->
  length (wscript w') = length (wscript w) -> m = O.
Proof.
  intros Hl Heq. destruct (later_script _ _ _ Hl) as (pre & Hs & _ & Hm).
  rewrite Hs, length_app in Heq. lia.
Qed.

Lemma later_trans w w1 w2 m m' : later w w1 m -> later w1 w2 m' -> later w w2 (m + m').
Proof.
  intros H1 H2. induction H2 as [l|w2 m' H2 IH Hne].
  - assert (exists l', w1 = with_sched l' w1) as [l' Hl'] by (exists (wsched w1); by destruct w1).
    rewrite Nat.add_0_r. clear -H1. induction H1 as [l'|w' m Hl IH Hne].
    + exact (later_refl _ l).
    + assert (with_sched l (happen w') = happen (with_sched l w')) as ->.
      { unfold happen. destruct w' as [k q io f n [|[ev|] s] l' i o]; simpl; [done|done|].
        destruct q; simpl; [done|]. done. }
      change (dispatched w') with (dispatched (with_sched l w')).
      by apply later_step.
  - rewrite Nat.add_assoc. by apply later_step.
Qed.
End Time.

(** ** The loop against the environment *)

Section Loop.
Context {K Ev : Type} `{Kernel K Ev}.
Implicit Types w : world K Ev.

(** The direction, the call and when the object is ready for it. *)
Variables (d : bool) (A : Type) (c : syscall A) (rdy : K -> bool).

(** Edges are readiness bits; an object that becomes ready is reported; and a call on an
    object that is not ready fails with [EAGAIN], while one that is ready is answered. *)
Record kernel_ok : Prop := {
  may_interrupt : interruptible c = true;
  edge_range : forall ev, edge_ok (kedge ev);
  edge_reported : forall ev k,
    rdy k = false -> rdy (kstep ev k) = true -> hits d (kedge ev) = true;
  call_blocks : forall k, rdy k = false -> ksys A c k = Some (Err (os_error EAGAIN), k);
  call_answers : forall k, rdy k = true -> exists r k', ksys A c k = Some (r, k') /\
    forall e, r = Err e -> is_transient e = false
}.

Hypothesis Hok : kernel_ok.

Definition hit_queued w : Prop := Exists (fun r => hits d r = true) (wq w).

Record good w : Prop := {
  g_q : Forall edge_ok (wq w);
  g_shut : no_shutdown (wio w);
  g_drains : drains (wq w) (wscript w) = true;
  g_end : rdy (k_end (wk w) (wscript w)) = true;
  g_seen : rdy (wk w) = true -> bits d (wio w) = true \/ hit_queued w;
  g_fired : forall e, e ∈ wfired w -> (e < wfresh w)%nat;
  g_slots : forall dd e, slot_of dd (wio w) = Some e -> (e < wfresh w)%nat
}.

Lemma happen_event w ev s :
  good w -> wscript w = Some ev :: s -> good (happen w).
Proof.
  intros [] Hs. pose proof (edge_range Hok ev) as Her. unfold happen. rewrite Hs in *.
  split; simpl; try done.
  - destruct (kedge ev =? 0); [done|]. apply Forall_app. split; [done|]. by constructor.
  - intros Hr. unfold hit_queued in *. simpl.
    destruct (rdy (wk w)) eqn:Hr0.
    + destruct (g_seen0 eq_refl) as [?|Hq]; [by left|right].
      destruct (kedge ev =? 0); [done|]. apply Exists_app. by left.
    + right. pose proof (edge_reported Hok ev _ Hr0 Hr) as Hh.
      destruct (Z.eqb_spec (kedge ev) 0) as [Hz|_]; [by rewrite Hz in Hh; destruct d|].
      apply Exists_app. right. by constructor.
Qed.

Lemma happen_dispatch w s :
  good w -> wscript w = None :: s -> good (happen w).
Proof.
  intros [] Hs. unfold happen. rewrite Hs in *. destruct (wq w) as [|r q] eqn:Hq.
  { split; simpl; try done. intros Hr. destruct (g_seen0 Hr) as [?|Hx]; [by left|].
    unfold hit_queued in Hx. rewrite Hq in Hx. by apply Exists_nil in Hx. }
  apply Forall_cons in g_q0 as [Hr Hq0].
  pose proof (dispatch_no_shutdown r (wio w) Hr g_shut0) as Hsh.
  pose proof (dispatch_bits d r (wio w) Hr) as Hb.
  pose proof (fun dd => dispatch_slot dd r (wio w)) as Hsl.
  pose proof (fun e => dispatch_woken_inv r e (wio w)) as Hwk.
  destruct (dispatch r (wio w)) as [woken io]. simpl in *. split; simpl; try done.
  - intros Hrd. rewrite Hb. destruct (g_seen0 Hrd) as [->|Hx]; [by left|].
    unfold hit_queued in *. rewrite Hq in Hx. apply Exists_cons in Hx as [Hx|Hx]; [|by right].
    left. rewrite Hx. by destruct (bits d (wio w)).
  - intros e [He|He]%elem_of_app; [|eauto]. destruct (Hwk e He) as [Hs1|Hs1].
    + by apply (g_slots0 true).
    + by apply (g_slots0 false).
  - intros dd e. rewrite Hsl. destruct (hits dd r); [done|]. eauto.
Qed.

Lemma happen_good w : good w -> good (happen w).
Proof.
  intros Hg. destruct (wscript w) as [|[ev|] s] eqn:Hs.
  - unfold happen. by rewrite Hs.
  - by eapply happen_event.
  - by eapply happen_dispatch.
Qed.

Lemma later_good w w' m : later w w' m -> good w -> good w'.
Proof. induction 1 as [l|w' m Hl IH Hne]; intros Hg; [by destruct Hg|]. by apply happen_good, IH. Qed.

(** How the ticks move with the dispatches. *)
Lemma later_ticks w w' m : later w w' m -> good w ->
  tick_d d (wio w') = tick_d d (wio w) /\
  tick_of (readiness (wio w')) = (tick_of (readiness (wio w)) + Z.of_nat m) mod 256.
Proof.
  induction 1 as [l|w' m Hl IH Hne]; intros Hg; simpl.
  { split; [done|]. rewrite Z.add_0_r, Z.mod_small; [done|apply tick_of_bound]. }
  destruct (IH Hg) as [Ht1 Ht2]. pose proof (g_q _ (later_good _ _ _ Hl Hg)) as Hq.
  rewrite <- Ht1. unfold happen, dispatched. destruct (wscript w') as [|[ev|] s]; [done| |].
  { simpl. by rewrite Nat.add_0_r. }
  destruct (wq w') as [|r q]; [simpl; by rewrite Nat.add_0_r|].
  apply Forall_cons in Hq as [Hr _]. destruct (dispatch_ticks d r (wio w') Hr) as [Hd1 Hd2].
  destruct (dispatch r (wio w')) as [woken io]. simpl in *. split; [done|].
  rewrite Hd2, Ht2, Zplus_mod_idemp_l. f_equal. lia.
Qed.

(** An object found not ready has its next edge still queued, as long as none was
    dispatched. *)
Lemma later_queued w w' m : later w w' m -> m = O ->
  (rdy (wk w) = true -> hit_queued w) -> rdy (wk w') = true -> hit_queued w'.
Proof.
  induction 1 as [l|w' m Hl IH Hne]; intros Hm Hw; [done|].
  assert (rdy (wk w') = true -> hit_queued w') as Hq by (intros; apply IH; [lia|done|done]).
  unfold happen, dispatched, hit_queued in *. destruct (wscript w') as [|[ev|] s]; [done| |].
  - simpl. intros Hr. destruct (rdy (wk w')) eqn:Hr0.
    + destruct (kedge ev =? 0); [auto|]. apply Exists_app. auto.
    + pose proof (edge_reported Hok ev _ Hr0 Hr) as Hh.
      destruct (Z.eqb_spec (kedge ev) 0) as [Hz|_]; [by rewrite Hz in Hh; destruct d|].
      apply Exists_app. right. by constructor.
  - destruct (wq w'); [done|]. lia.
Qed.

(** A task waits for event [e]: it is in the slot, and the direction is quiet. *)
Definition waiting (e : nat) w : Prop :=
  e ∈ wfired w \/ slot_of d (wio w) = Some e /\ bits d (wio w) = false.

Lemma happen_waiting e w : good w -> waiting e w -> waiting e (happen w).
Proof.
  intros Hg Hw. unfold happen. destruct (wscript w) as [|[ev|] s]; [done|done|].
  destruct (wq w) as [|r q] eqn:Hq; [done|].
  pose proof (g_q _ Hg) as Hqs. rewrite Hq in Hqs. apply Forall_cons in Hqs as [Hr _].
  pose proof (dispatch_bits d r (wio w) Hr) as Hb.
  pose proof (dispatch_slot d r (wio w)) as Hsl.
  pose proof (dispatch_woken d r e (wio w)) as Hwk.
  destruct (dispatch r (wio w)) as [woken io]. simpl in *. unfold waiting in *. simpl.
  rewrite elem_of_app. destruct Hw as [Hf|[Hs0 Hb0]]; [by left; right|].
  destruct (hits d r); [left; left; auto|]. right. rewrite Hsl, Hb, Hb0. done.
Qed.

Lemma later_waiting e w w' m : later w w' m -> good w -> waiting e w -> waiting e w'.
Proof.
  induction 1 as [l|w' m Hl IH Hne]; intros Hg Hw; [done|].
  apply happen_waiting; [by eapply later_good|auto].
Qed.

Lemma waiting_live e w : good w -> waiting e w -> e ∉ wfired w -> wscript w <> [].
Proof.
  intros Hg [Hw|[Hsl Hb]] Hf Hs; [done|].
  pose proof (g_end _ Hg) as Hend. rewrite Hs in Hend.
  pose proof (g_drains _ Hg) as Hd. rewrite Hs in Hd. simpl in Hd.
  destruct (g_seen _ Hg Hend) as [?|Hq]; [congruence|].
  unfold hit_queued in Hq. destruct (wq w); [by apply Exists_nil in Hq|done].
Qed.

(** The wait ends. *)
Lemma await_ok e n w0 w m :
  later w0 w m -> (length (wscript w) <= n)%nat -> good w -> waiting e w ->
  exists w' m', await_until n e w = Some w' /\ later w0 w' m' /\ good w' /\ e ∈ wfired w'.
Proof.
  revert w m. induction n as [|n IH]; intros w m Hl Hn Hg Hw; simpl;
    (case_bool_decide as Hf; [by exists w, m|]);
    pose proof (waiting_live e w Hg Hw Hf) as Hne.
  - destruct (wscript w); [done|simpl in Hn; lia].
  - destruct (happen_script w Hne) as (o & Ho & _). eapply IH.
    + by apply later_step.
    + rewrite Ho in Hn. simpl in Hn. lia.
    + by apply happen_good.
    + by apply happen_waiting.
Qed.

Variable i0 : nat.

(** The clauses around the call: retry after a signal, clear on [EAGAIN], raise anything
    else, possibly as another exception. *)
Variables (h : exn -> option (pyM osE (option A))) (conv : exn -> exn).

Record clauses_ok : Prop := {
  h_interrupted : forall e, is_Interrupted e = true -> h e = Some (pret None);
  h_blocked : forall e, is_Interrupted e = false -> is_BlockingIO e = true ->
    h e = Some (pop (IoClear d i0) ;;; pret None);
  h_other : forall e, is_transient e = false -> h e = Some (praise (conv e))
}.

Hypothesis Hcl : clauses_ok.

Definition loop_body : pyM osE (option A) :=
  let! waiter := pop (IoArm d i0) in
  match waiter with
  | Some w => await_io w ;;; pret None
  | None => ptry_else (sys c) h (fun ret => pret (Some ret))
  end.

Definition conv_result (r : result A) : result A :=
  match r with Ok a => Ok a | Err e => Err (conv e) end.

Definition measure w : nat :=
  2 * length (wscript w) + (if bits d (wio w) then 1 else 0) + length (wirq w).

(** [w'] comes after [w], with the object changed by the happenings only. *)
Definition passed w w' : Prop :=
  wobj w' = wobj w /\ exists pre, wscript w = pre ++ wscript w' /\ wk w' = k_end (wk w) pre.

Lemma passed_later w w' m : later w w' m -> passed w w'.
Proof.
  intros Hl. destruct (later_script _ _ _ Hl) as (pre & ? & ? & ?).
  split; [by eapply later_obj|by exists pre].
Qed.

Lemma passed_trans w1 w2 w3 : passed w1 w2 -> passed w2 w3 -> passed w1 w3.
Proof.
  intros [Ho1 (p1 & Hs1 & Hk1)] [Ho2 (p2 & Hs2 & Hk2)]. split; [congruence|]. exists (p1 ++ p2).
  rewrite Hs1, Hs2, Hk2, Hk1. unfold k_end. by rewrite fold_left_app, <- app_assoc.
Qed.

Lemma passed_length w w' : passed w w' -> (length (wscript w') <= length (wscript w))%nat.
Proof. intros [_ (p & -> & _)]. rewrite length_app. lia. Qed.

(** Armed: the bits were quiet, and the event is in the slot. *)
Lemma iteration_wait w x io1 :
  good w -> arm_d d (wfresh (interleave w)) (wio (interleave w)) = (Some x, io1) ->
  exists w', runs (handle i0) loop_body w (Ok None) w' /\ good w' /\ passed w w' /\
    (length (wscript w') < length (wscript w))%nat /\ length (wirq w') = length (wirq w).
Proof.
  intros Hg Harm. destruct (later_interleave w) as [m1 Hl1]. set (w1 := interleave w) in *.
  pose proof (later_good _ _ _ Hl1 Hg) as Hg1.
  destruct (arm_d_Some _ _ _ _ _ Harm) as (-> & Hb & ->). set (e := wfresh w1) in *.
  set (w2 := bump_fresh (with_io (set_slot (dmask d) e (wio w1)) w1)).
  assert (slot_of d (wio w2) = Some e) as Hsl.
  { simpl. by rewrite slot_set_slot, eqb_reflx. }
  assert (bits d (wio w2) = false) as Hb2.
  { unfold bits. simpl. by rewrite readiness_set_slot. }
  assert (good w2) as Hg2.
  { destruct Hg1. split; simpl; try done.
    - unfold no_shutdown. by rewrite readiness_set_slot.
    - intros Hr. unfold bits. simpl. rewrite readiness_set_slot. by apply g_seen0.
    - intros x Hx. specialize (g_fired0 x Hx). lia.
    - intros dd x. rewrite slot_set_slot. destruct (eqb dd d); [intros [= <-]; lia|].
      intros Hx. specialize (g_slots0 dd x Hx). lia. }
  destruct (later_interleave w2) as [m2 Hl2].
  destruct (await_ok e (length (wscript (interleave w2))) w2 (interleave w2) m2)
    as (w3 & m3 & Haw & Hl3 & Hg3 & Hf3); [done|done|by eapply later_good|
    by eapply later_waiting; [done|done|right]|].
  exists w3. split_and!; [|done| |..].
  - eapply runs_pbind; [apply runs_pop; simpl; rewrite bool_decide_true by done; fold w1; fold e;
      by rewrite Harm|].
    eapply runs_pbind; [|apply runs_pret]. apply runs_pcall. simpl. fold w2. by rewrite Haw.
  - eapply passed_trans; [by eapply passed_later|]. by eapply (passed_later w2).
  - pose proof (passed_length _ _ (passed_later _ _ _ Hl1)) as Hle1.
    pose proof (passed_length _ _ (passed_later _ _ _ Hl3)) as Hle2.
    change (length (wscript w2)) with (length (wscript w1)) in Hle2.
    destruct (Nat.eq_dec (length (wscript w3)) (length (wscript w2))) as [Heq|Hne];
      [|change (length (wscript w2)) with (length (wscript w1)) in Hne; lia].
    pose proof (later_same_script _ _ _ Hl3 Heq) as ->.
    destruct (later_still _ _ _ Hl3 eq_refl) as [_ Hfeq]. rewrite Hfeq in Hf3.
    pose proof (g_fired _ Hg1 e Hf3). subst e. lia.
  - destruct (later_frame _ _ _ Hl1) as [_ <-]. by destruct (later_frame _ _ _ Hl3) as [_ ->].
Qed.

(** Not armed: the state in which the call is made. *)
Lemma armed_ready w io1 :
  good w -> arm_d d (wfresh (interleave w)) (wio (interleave w)) = (None, io1) ->
  let w2 := bump_fresh (with_io io1 (interleave w)) in
  handle i0 _ (IoArm d i0) w = Some (None, w2) /\ good w2 /\ passed w w2 /\
  bits d (wio w2) = true /\ tick_d d (wio w2) = tick_of (readiness (wio w2)) /\
  wirq w2 = wirq w /\
  (length (wscript w2) = length (wscript w) -> bits d (wio w) = true).
Proof.
  intros Hg Harm w2. destruct (later_interleave w) as [m1 Hl1].
  pose proof (later_good _ _ _ Hl1 Hg) as Hg1.
  destruct (arm_d_None _ _ _ _ Harm) as (Hb & Hr & Ht & Hrd & Hwr).
  assert (bits d io1 = true) as Hb2 by (unfold bits in *; congruence).
  split_and!; try done.
  - simpl. rewrite bool_decide_true by done. by rewrite Harm.
  - destruct Hg1. split; simpl; try done.
    + unfold no_shutdown in *. congruence.
    + intros _. by left.
    + intros x Hx. specialize (g_fired0 x Hx). lia.
    + intros dd x Hx. assert (slot_of dd (wio (interleave w)) = Some x) as Hx'
        by (destruct dd; simpl in *; congruence). specialize (g_slots0 dd x Hx'). lia.
  - by eapply passed_later in Hl1.
  - simpl. congruence.
  - apply (later_frame _ _ _ Hl1).
  - intros Heq. simpl in Heq. pose proof (later_same_script _ _ _ Hl1 Heq) as ->.
    destruct (later_still _ _ _ Hl1 eq_refl) as [Hio _]. by rewrite <- Hio.
Qed.

Lemma good_irq w : good w -> good (next_irq w).
Proof. by intros []. Qed.

Lemma with_k_same w : with_k (wk w) w = w.
Proof. by destruct w. Qed.

(** [EAGAIN]: the clear takes effect, or an edge has arrived since the direction was
    found ready. *)
Lemma iteration_clear w2 w3 m3 :
  good w2 -> tick_d d (wio w2) = tick_of (readiness (wio w2)) ->
  (length (wscript w2) < 256)%nat -> later w2 w3 m3 -> rdy (wk w3) = false ->
  exists w5, handle i0 _ (IoClear d i0) (next_irq w3) = Some (tt, w5) /\ good w5 /\
    passed w3 w5 /\ wirq w5 = tail (wirq w3) /\
    (length (wscript w5) = length (wscript w2) -> bits d (wio w5) = false).
Proof.
  intros Hg2 Ht Hlen Hl3 Hnr. pose proof (later_good _ _ _ Hl3 Hg2) as Hg3.
  destruct (later_interleave (next_irq w3)) as [m4 Hl4].
  pose proof (later_good _ _ _ Hl4 (good_irq _ Hg3)) as Hg4.
  destruct (later_ticks _ _ _ Hl3 Hg2) as [Hd3 Ht3].
  destruct (later_ticks _ _ _ Hl4 (good_irq _ Hg3)) as [Hd4 Ht4].
  destruct (later_script _ _ _ Hl3) as (p3 & Hs3 & _ & Hm3).
  destruct (later_script _ _ _ Hl4) as (p4 & Hs4 & Hk4 & Hm4). simpl in Hs4, Hk4, Hd4, Ht4.
  assert (length (wscript w2) =
    length p3 + length p4 + length (wscript (interleave (next_irq w3))))%nat as Hsum.
  { by rewrite Hs3, Hs4, !length_app, Nat.add_assoc. }
  set (w4 := interleave (next_irq w3)) in *.
  exists (with_io (clear_d d (wio w4)) w4).
  assert (wirq w4 = tail (wirq w3)) as Hirq by apply (later_frame _ _ _ Hl4).
  assert (passed w3 (with_io (clear_d d (wio w4)) w4)) as Hp
    by (split; [by apply later_obj in Hl4|by exists p4]).
  assert (good (with_io (clear_d d (wio w4)) w4) /\
    (length (wscript w4) = length (wscript w2) -> bits d (clear_d d (wio w4)) = false))
    as [Hg5 Hb5]; last first.
  { split_and!; try done. simpl. by rewrite bool_decide_true. }
  pose proof (tick_of_bound (readiness (wio w2))) as Hb.
  destruct (decide (m3 + m4 = 0)%nat) as [Hz|Hnz].
  - assert (m3 = 0%nat /\ m4 = 0%nat) as [-> ->] by lia.
    destruct (later_still _ _ _ Hl3 eq_refl) as [Hio3 _].
    destruct (later_still _ _ _ Hl4 eq_refl) as [Hio4 _]. simpl in Hio4.
    assert (wio w4 = wio w2) as Hio by congruence.
    destruct (clear_d_same d (wio w4)) as [Hc1 Hc2]; [apply Hg4|by rewrite Hio|].
    split; [|done]. pose proof (later_queued _ _ _ Hl4 eq_refl) as Hlq. simpl in Hlq.
    destruct (clear_d_frame d (wio w4)) as [Hfr Hfw].
    destruct Hg4. split; simpl; try done.
    + intros Hr. right. apply Hlq; [by rewrite Hnr|done].
    + intros dd x Hx. apply (g_slots0 dd). destruct dd; simpl in *; congruence.
  - rewrite clear_d_stale; [split; [by destruct Hg4|lia]|].
    rewrite Hd4, Hd3, Ht, Ht4, Ht3, Zplus_mod_idemp_l, <- Z.add_assoc.
    apply tick_shifted; [done|lia].
Qed.

(** What one iteration leads to: another one, nearer to the end, or the answer of the
    kernel on a ready object. *)
Definition answered w r w' : Prop :=
  exists w0, good w0 /\ passed w w0 /\ rdy (wk w0) = true /\
    ksys A c (wk w0) = Some (r, wk w') /\ w' = with_k (wk w') w0.

Lemma answered_passed w w1 r w' : passed w w1 -> answered w1 r w' -> answered w r w'.
Proof.
  intros Hp (w0 & Hg & Hp0 & Hr & Hk & Heq). exists w0. split_and!; try done.
  by eapply passed_trans.
Qed.

(** The call and the clauses around it. *)
Definition loop_call : pyM osE (option A) :=
  ptry_else (sys c) h (fun ret => pret (Some ret)).

Lemma call_ready w2 w3 m3 :
  good w2 -> later w2 w3 m3 -> w3 = interleave w2 -> head (wirq w3) <> Some true -> rdy (wk w3) = true ->
  exists w' r, answered w2 r w' /\
    runs (handle i0) loop_call w2 (match r with Ok a => Ok (Some a) | Err e => Err (conv e) end) w'.
Proof.
  intros Hg2 Hl3 Heq Hq Hr3. destruct (call_answers Hok _ Hr3) as (r & k & Hk & Hnt).
  assert (handle i0 _ (Sys c) w2 = Some (r, with_k k (next_irq w3))) as Hsys.
  { simpl. rewrite <- Heq, (may_interrupt Hok). destruct (wirq w3) as [|[]]; [|done|]; by rewrite Hk. }
  exists (with_k k (next_irq w3)), r. split.
  { exists (next_irq w3). split_and!; try done; [by eapply good_irq, later_good|].
    by apply passed_later in Hl3. }
  destruct r as [a|e].
  - eapply runs_ptry_else_ok; [by apply runs_pcall|apply runs_pret].
  - eapply runs_ptry_else_catch; [by apply runs_pcall| |apply runs_praise].
    by apply (h_other Hcl), Hnt.
Qed.

Lemma iteration_call w2 :
  good w2 -> tick_d d (wio w2) = tick_of (readiness (wio w2)) -> (length (wscript w2) < 256)%nat ->
  (exists w', runs (handle i0) loop_call w2 (Ok None) w' /\ good w' /\ passed w2 w' /\
     (length (wirq w') <= length (wirq w2))%nat /\
     ((length (wirq w') < length (wirq w2))%nat \/
      (length (wscript w') = length (wscript w2) -> bits d (wio w') = false))) \/
  (exists w' r, answered w2 r w' /\
     runs (handle i0) loop_call w2 (match r with Ok a => Ok (Some a) | Err e => Err (conv e) end) w').
Proof.
  intros Hg2 Ht2 Hlen. destruct (later_interleave w2) as [m3 Hl3].
  remember (interleave w2) as w3 eqn:Hw3.
  destruct (later_frame _ _ _ Hl3) as [_ Hi3].
  destruct (decide (head (wirq w3) = Some true)) as [Hq|Hq].
  - left. exists (next_irq w3). destruct (wirq w3) as [|[] q] eqn:Hq3; [done| |done].
    assert (length (wirq (next_irq w3)) < length (wirq w2))%nat as Hdec
      by (simpl; rewrite Hq3, <- Hi3; simpl; lia).
    split_and!; [| | |lia|by left].
    + eapply runs_ptry_else_catch.
      * apply runs_pcall. simpl. rewrite <- Hw3, (may_interrupt Hok), Hq3. reflexivity.
      * by apply (h_interrupted Hcl).
      * apply runs_pret.
    + by eapply good_irq, later_good.
    + by apply passed_later in Hl3.
  - destruct (rdy (wk w3)) eqn:Hr3; [right; by eapply call_ready|left].
    destruct (iteration_clear w2 w3 m3) as (w5 & Hc & Hg5 & Hp5 & Hi5 & Hb5); try done.
    assert (length (tail (wirq w3)) <= length (wirq w2))%nat as Htl
      by (rewrite <- Hi3; destruct (wirq w3); simpl; lia).
    exists w5. split_and!; [|done| |by rewrite Hi5|by right].
    + eapply runs_ptry_else_catch.
      * apply runs_pcall. instantiate (1 := with_k (wk w3) (next_irq w3)).
        instantiate (1 := os_error EAGAIN).
        simpl. rewrite <- Hw3, (may_interrupt Hok), (call_blocks Hok _ Hr3). by destruct (wirq w3) as [|[]].
      * by apply (h_blocked Hcl).
      * assert (with_k (wk w3) (next_irq w3) = next_irq w3) as -> by (by destruct w3).
        eapply runs_pbind; [|apply runs_pret]. by apply runs_pop.
    + eapply passed_trans; [by eapply passed_later|done].
Qed.

Lemma iteration w : good w -> (length (wscript w) < 256)%nat ->
  (exists w', runs (handle i0) loop_body w (Ok None) w' /\ good w' /\ passed w w' /\
     (measure w' < measure w)%nat) \/
  (exists w' r, answered w r w' /\
     runs (handle i0) loop_body w (match r with Ok a => Ok (Some a) | Err e => Err (conv e) end) w').
Proof.
  intros Hg Hlen. unfold measure.
  destruct (arm_d d (wfresh (interleave w)) (wio (interleave w))) as [[x|] io1] eqn:Harm.
  { destruct (iteration_wait w x io1 Hg Harm) as (w' & Hr & Hg' & Hp & Hlt & Hirq).
    left. exists w'. split_and!; try done.
    rewrite Hirq. destruct (bits d (wio w)), (bits d (wio w')); lia. }
  destruct (armed_ready w io1 Hg Harm) as (Hh & Hg2 & Hp2 & Hb2 & Ht2 & Hi2 & Hsame).
  set (w2 := bump_fresh (with_io io1 (interleave w))) in *.
  pose proof (passed_length _ _ Hp2) as Hle2.
  assert (forall r w', runs (handle i0) loop_call w2 r w' -> runs (handle i0) loop_body w r w')
    as Hrun by (intros r w' Hr; eapply runs_pbind; [by apply runs_pop|done]).
  destruct (iteration_call w2 Hg2 Ht2) as [(w' & Hr & Hg' & Hp' & Hi' & Hdec)|(w' & r & Ha & Hr)];
    [lia|left|right].
  - exists w'. split_and!; [by apply Hrun|done|by eapply passed_trans|].
    pose proof (passed_length _ _ Hp') as Hle'. rewrite Hi2 in *.
    destruct (Nat.eq_dec (length (wscript w')) (length (wscript w))) as [Heq|Hne];
      [|destruct (bits d (wio w)), (bits d (wio w')); lia].
    rewrite Hsame by lia. destruct Hdec as [?|Hb]; [destruct (bits d (wio w')); lia|].
    rewrite Hb by lia. lia.
  - exists w', r. split; [by eapply answered_passed|by apply Hrun].
Qed.

(** The loop returns, with the kernel's answer on a ready object. *)
Lemma loop_answers w : good w -> (length (wscript w) < 256)%nat ->
  exists w' r, answered w r w' /\
    runs (handle i0) (ploop loop_body) w (conv_result r) w'.
Proof.
  remember (measure w) as n eqn:Hn. revert w Hn.
  induction n as [n IH] using lt_wf_ind. intros w -> Hg Hlen.
  destruct (iteration w Hg Hlen) as [(w' & Hr & Hg' & Hp & Hlt)|(w' & r & Ha & Hr)].
  - pose proof (passed_length _ _ Hp) as Hle.
    destruct (IH (measure w') Hlt w' eq_refl Hg') as (w2 & r & Ha & Hr2); [lia|].
    exists w2, r. split; [by eapply answered_passed|by eapply runs_ploop_next].
  - exists w', r. split; [done|]. destruct r; [by apply runs_ploop_done|by apply runs_ploop_err].
Qed.

End Loop.

(** The loops of the sockets. *)
Section SocketLoops.
Context {K Ev : Type} `{Kernel K Ev}.
Variables (d : bool) (A : Type) (c : syscall A) (rdy : K -> bool) (i0 : nat).
Hypothesis Hok : kernel_ok d A c rdy.
Implicit Types w : world K Ev.

Lemma on_transient_ok :
  clauses_ok d A i0 (on_transient (pop (IoClear d i0))) (fun e => e).
Proof.
  split; intros e; unfold on_transient, is_transient.
  - by intros ->.
  - by intros -> ->.
  - by intros [-> ->]%orb_false_elim.
Qed.

Lemma io_loop_answers w : good d rdy w -> (length (wscript w) < 256)%nat ->
  exists w' r, answered d A c rdy w r w' /\
    runs (handle i0) (io_loop (pop (IoArm d i0)) (pop (IoClear d i0)) (sys c)) w r w'.
Proof.
  intros Hg Hlen.
  destruct (loop_answers d A c rdy Hok i0 _ _ on_transient_ok w Hg Hlen) as (w' & r & Ha & Hr).
  exists w', r. split; [done|]. by destruct r.
Qed.

(** The writers try the call once before they arm. *)
Lemma eager_answers w : good d rdy w -> (length (wscript w) < 256)%nat ->
  exists w' r, answered d A c rdy w r w' /\
    runs (handle i0)
      (ptry_else (sys c)
         (fun e => if is_transient e
                   then Some (io_loop (pop (IoArm d i0)) (pop (IoClear d i0)) (sys c)) else None)
         pret) w r w'.
Proof.
  intros Hg Hlen. destruct (later_interleave w) as [m1 Hl].
  remember (interleave w) as w1 eqn:Hw1.
  pose proof (later_good d A c rdy Hok _ _ _ Hl Hg) as Hg1. pose proof (passed_later _ _ _ Hl) as Hp.
  pose proof (passed_length _ _ Hp) as Hle.
  assert (good d rdy (next_irq w1)) as Hgi by by apply good_irq.
  assert (forall e, handle i0 _ (Sys c) w = Some (Err e, next_irq w1) -> is_transient e = true ->
    exists w' r, answered d A c rdy w r w' /\ runs (handle i0)
      (ptry_else (sys c)
         (fun e => if is_transient e
                   then Some (io_loop (pop (IoArm d i0)) (pop (IoClear d i0)) (sys c)) else None)
         pret) w r w') as Hretry.
  { intros e He Ht. destruct (io_loop_answers (next_irq w1) Hgi) as (w' & r & Ha & Hr); [simpl; lia|].
    exists w', r. split; [by eapply answered_passed|].
    eapply runs_ptry_else_catch; [by apply runs_pcall|by rewrite Ht|done]. }
  destruct (decide (head (wirq w1) = Some true)) as [Hq|Hq].
  { apply (Hretry (os_error EINTR)); [|done]. simpl. rewrite <- Hw1, (may_interrupt _ _ _ _ Hok).
    by destruct (wirq w1) as [|[]]. }
  destruct (rdy (wk w1)) eqn:Hr1.
  - destruct (call_answers _ _ _ _ Hok _ Hr1) as (r & k & Hk & Hnt).
    assert (handle i0 _ (Sys c) w = Some (r, with_k k (next_irq w1))) as Hsys.
    { simpl. rewrite <- Hw1, (may_interrupt _ _ _ _ Hok). destruct (wirq w1) as [|[]]; [|done|]; by rewrite Hk. }
    exists (with_k k (next_irq w1)), r. split; [by exists (next_irq w1)|]. destruct r as [a|e].
    + eapply runs_ptry_else_ok; [by apply runs_pcall|apply runs_pret].
    + eapply runs_ptry_else_pass; [by apply runs_pcall|]. by rewrite Hnt.
  - apply (Hretry (os_error EAGAIN)); [|done]. simpl.
    rewrite <- Hw1, (may_interrupt _ _ _ _ Hok), (call_blocks _ _ _ _ Hok _ Hr1).
    assert (with_k (wk w1) (next_irq w1) = next_irq w1) as -> by (by destruct w1).
    by destruct (wirq w1) as [|[]].
Qed.
End SocketLoops.
