(* ===== verification/Delivery.v ===== *)
(** * Bytes through streams

    The socket and descriptor streams run against a stream-like kernel object (a
    connected socket or a pipe) in the environment of [Driver]: what arrives is received
    in order, and [send_all] delivers all of its data, whatever the interleaving with the
    poller, the partial writes and the interrupted calls. *)

From stdpp Require Import base numbers list gmap strings.
From Stdlib Require Import ZArith Lia.
From ITree Require Import ITree ITreeFacts.
From S2P Require Import Prelude Coro SchedIO Arming Os Socket Streams Fd.
From S2P Require Import ColoredSocket ColoredStreams Driver.

Open Scope nat_scope.
Open Scope tonio_scope.
#[local] Set Warnings "-clear-no-such-hyp".

(** ** A stream in the kernel *)

(** Bytes to read, end of input, room for writing, bytes accepted so far, and whether the descriptor
    has been closed; a closed socket is not used again by the programs that run here. *)
Record kstream := mkKs { s_in : bytes; s_eof : bool; s_space : nat; s_out : bytes; s_closed : bool }.

Inductive kev : Type :=
| EvData (b : bytes)
| EvEof
| EvSpace (n : nat).

Definition ks_step (ev : kev) (k : kstream) : kstream :=
  match ev with
  | EvData b => mkKs (s_in k ++ b) (s_eof k) (s_space k) (s_out k) (s_closed k)
  | EvEof => mkKs (s_in k) true (s_space k) (s_out k) (s_closed k)
  | EvSpace n => mkKs (s_in k) (s_eof k) (s_space k + n) (s_out k) (s_closed k)
  end.

Definition ks_edge (ev : kev) : Z :=
  match ev with
  | EvData [] => 0
  | EvData _ => READABLE
  | EvEof => Z.lor READABLE READ_CLOSED
  | EvSpace 0 => 0
  | EvSpace _ => WRITABLE
  end.

Definition readable (k : kstream) : bool :=
  match s_in k with [] => s_eof k | _ => true end.
Definition writable (k : kstream) : bool := match s_space k with 0 => false | _ => true end.

Definition ks_read (n : Z) (k : kstream) : result bytes * kstream :=
  if readable k then
    (Ok (take (Z.to_nat n) (s_in k)),
     mkKs (drop (Z.to_nat n) (s_in k)) (s_eof k) (s_space k) (s_out k) (s_closed k))
  else (Err (os_error EAGAIN), k).

Definition ks_write (data : bytes) (k : kstream) : result Z * kstream :=
  if writable k then
    let n := Nat.min (s_space k) (length data) in
    (Ok (Z.of_nat n), mkKs (s_in k) (s_eof k) (s_space k - n) (s_out k ++ take n data) (s_closed k))
  else (Err (os_error EAGAIN), k).

Definition ks_sys (A : Type) (c : syscall A) (k : kstream) : option (result A * kstream) :=
  match c in syscall A return option (result A * kstream) with
  | sk_recv _ n _ => Some (ks_read n k)
  | os_read _ n => Some (ks_read n k)
  | sk_send _ data _ => Some (ks_write data k)
  | os_write _ data => Some (ks_write data k)
  | sk_setsockopt _ _ _ _ => Some (Ok tt, k)
  | sk_fileno _ => Some (Ok (if s_closed k then -1 else 5)%Z, k)
  | sk_close _ => Some (Ok tt, mkKs (s_in k) (s_eof k) (s_space k) (s_out k) true)
  | _ => None
  end.

#[export] Instance stream_kernel : Kernel kstream kev :=
  { kstep := ks_step; kedge := ks_edge; ksys := ks_sys }.

Lemma ks_edge_ok ev : edge_ok (ks_edge ev).
Proof. by destruct ev as [[]| |[]]; vm_compute. Qed.

Lemma readable_edge ev k :
  readable k = false -> readable (ks_step ev k) = true -> hits true (ks_edge ev) = true.
Proof.
  unfold readable. destruct (s_in k) eqn:Hin; [|done]. intros He.
  destruct ev as [[]| |n]; simpl; rewrite ?Hin; simpl; congruence || done.
Qed.

Lemma writable_edge ev k :
  writable k = false -> writable (ks_step ev k) = true -> hits false (ks_edge ev) = true.
Proof.
  unfold writable. destruct (s_space k) eqn:Hsp; [|done]. intros _.
  destruct ev as [b| |[|n]]; simpl; rewrite ?Hsp; done.
Qed.

(** A call that reads, respectively writes, as the object does. *)
Lemma reads_ok (c : syscall bytes) n :
  interruptible c = true -> (forall k, ks_sys bytes c k = Some (ks_read n k)) -> kernel_ok true bytes c readable.
Proof.
  intros Hi Hc. split.
  - done.
  - apply ks_edge_ok.
  - apply readable_edge.
  - intros k Hk. simpl. rewrite Hc. unfold ks_read. by rewrite Hk.
  - intros k Hk. simpl. rewrite Hc. unfold ks_read. rewrite Hk.
    eexists _, _. by split; [reflexivity|].
Qed.

Lemma writes_ok (c : syscall Z) data :
  interruptible c = true -> (forall k, ks_sys Z c k = Some (ks_write data k)) -> kernel_ok false Z c writable.
Proof.
  intros Hi Hc. split.
  - done.
  - apply ks_edge_ok.
  - apply writable_edge.
  - intros k Hk. simpl. rewrite Hc. unfold ks_write. by rewrite Hk.
  - intros k Hk. simpl. rewrite Hc. unfold ks_write. rewrite Hk.
    eexists _, _. by split; [reflexivity|].
Qed.

(** ** Receiving *)

(** A world a reader (or writer) may start in: see [good]; the script is shorter than a
    turn of the entry's 8-bit tick. *)
Definition env_ok (d : bool) (rdy : kstream -> bool) (w : world kstream kev) : Prop :=
  good d rdy w /\ length (wscript w) < 256.

(** The data a read returned: what the object held, no more than asked, and empty only at
    the end of the input. *)
Definition received (n : Z) (data : bytes) (w w' : world kstream kev) : Prop :=
  exists pre post, wscript w = pre ++ post /\
    let k := k_end (wk w) pre in
    s_in k = data ++ s_in (wk w') /\ (Z.of_nat (length data) <= n)%Z /\
    (data = [] -> s_in k = [] /\ s_eof k = true).

Lemma read_loop_receives (c : syscall bytes) n io w :
  interruptible c = true -> (forall k, ks_sys bytes c k = Some (ks_read n k)) -> (0 < n)%Z -> env_ok true readable w ->
  exists data w', received n data w w' /\
    (exists w0, good true readable w0 /\ passed w w0 /\ w' = with_k (wk w') w0) /\
    runs (handle io) (io_loop (io_arm_r io) (io_clear_r io) (sys c)) w (Ok data) w'.
Proof.
  intros Hi Hc Hn [Hg Hlen].
  destruct (io_loop_answers true bytes c readable io (reads_ok c n Hi Hc) w Hg Hlen)
    as (w' & r & (w0 & Hg0 & Hp & Hr & Hk & Heq) & Hrun).
  pose proof Hp as [_ (pre & Hs & Hk0)].
  simpl in Hk. rewrite Hc in Hk. unfold ks_read in Hk. rewrite Hr in Hk. simplify_eq/=.
  exists (take (Z.to_nat n) (s_in (wk w0))), w'. split_and!; [|by exists w0|done].
  exists pre, (wscript w0). split; [done|]. simpl. rewrite <- Hk0.
  match goal with H : _ = wk w' |- _ => rewrite <- H end. simpl.
  split_and!; [by rewrite take_drop|rewrite length_take; lia|].
  intros Htake. unfold readable in Hr. destruct (s_in (wk w0)) as [|b l]; [done|].
  destruct (Z.to_nat n) eqn:Hz; [lia|done].
Qed.

(** [C9] [recv] on a connected socket returns the bytes that arrived, in both APIs.  The
    peer's data and end of stream, the poller's dispatches and interrupted calls interleave
    with the operations of the task in any way; as long as something does arrive and is
    reported, [recv] returns: never more than asked, a prefix of what the kernel
    held, the rest left for the next call, and the empty string only at end of stream. *)
Theorem recv_delivers (self : Socket) n fl w :
  (0 < n)%Z -> env_ok true readable w ->
  exists data w', received n data w w' /\
    runs (handle (so_io self)) (Socket.recv self n fl) w (Ok data) w' /\
    runs (handle (so_io self)) (ColoredSocket.recv self n fl) w (Ok data) w'.
Proof.
  intros Hn Hw.
  destruct (read_loop_receives (sk_recv (so_sock self) n fl) n (so_io self) w)
    as (data & w' & Hr & _ & Hrun); [done|done|done|done|]. by exists data, w'.
Qed.

(** A connected socket whose peer sends "hi" and closes: the first edge is stale, the data
    arrive while the task waits, and one call is interrupted. *)
Definition demo_read_world : world kstream kev :=
  mkW (mkKs [] false 0 [] false) [] (set_readiness WRITABLE (set_readiness READABLE (io_new 5))) [] 0
    [Some (EvSpace 3); None; Some (EvData [Byte.x68; Byte.x69]); None; Some EvEof; None]
    [0; 1] [false; true] (mkObj false None []).

Lemma demo_read_ok : env_ok true readable demo_read_world.
Proof.
  split; [|simpl; lia]. split; simpl; try done.
  - set_solver.
  - by intros [] e.
Qed.

Lemma recv_delivers_witness :
  exists data w', received 10 data demo_read_world w' /\
    runs (handle 0) (Socket.recv (mkSocket 3 0) 10 0) demo_read_world (Ok data) w'.
Proof.
  destruct (recv_delivers (mkSocket 3 0) 10 0 demo_read_world eq_refl demo_read_ok)
    as (data & w' & Hr & Hrun & _). by exists data, w'.
Defined.

Example demo_read_value :
  match exec (handle 0) 100 (Socket.recv (mkSocket 3 0) 10 0) demo_read_world with
  | Done r _ => r = Ok [Byte.x68; Byte.x69]
  | _ => False
  end.
Proof. by vm_compute. Qed.

(** ** Sending *)

(** The room for writing when the script is over, had nothing been written. *)
Definition space_end (w : world kstream kev) : nat := s_space (k_end (wk w) (wscript w)).

Definition ev_space (o : option kev) : nat := match o with Some (EvSpace n) => n | _ => 0 end.

Lemma k_end_space s k :
  s_space (k_end k s) = s_space k + foldr (fun o n => ev_space o + n) 0 s /\
  s_out (k_end k s) = s_out k.
Proof.
  revert k. induction s as [|o s IH]; intros k; simpl; [by rewrite Nat.add_0_r|].
  destruct (IH (match o with Some ev => ks_step ev k | None => k end)) as [Hs Ho].
  unfold k_end in *. rewrite Hs, Ho. destruct o as [[b| |n]|]; simpl; split; lia || done.
Qed.

Lemma passed_space w w' :
  passed w w' -> space_end w' = space_end w /\ s_out (wk w') = s_out (wk w).
Proof.
  intros [_ (pre & Hs & Hk)]. unfold space_end. rewrite Hs. unfold k_end at 2.
  rewrite fold_left_app. fold (k_end (wk w) pre). rewrite <- Hk. split; [done|].
  rewrite Hk. apply k_end_space.
Qed.

Lemma good_with_k d rdy w k :
  good d rdy w -> (rdy k = true -> rdy (wk w) = true) ->
  rdy (k_end k (wscript w)) = true -> good d rdy (with_k k w).
Proof.
  intros Hg Hk He. split; simpl; try apply Hg; [done|].
  intros Hr. apply (g_seen _ _ _ Hg). auto.
Qed.

Lemma writable_space w : 0 < space_end w -> writable (k_end (wk w) (wscript w)) = true.
Proof. unfold space_end, writable. by destruct (s_space _); [lia|]. Qed.

(** One accepted write of [rest]: progress, and a world to go on in. *)
Lemma write_progress (rest : bytes) w0 w' r :
  good false writable w0 -> writable (wk w0) = true -> rest <> [] ->
  ks_write rest (wk w0) = (r, wk w') -> w' = with_k (wk w') w0 ->
  length rest <= space_end w0 ->
  exists m, r = Ok (Z.of_nat m) /\ 0 < m <= length rest /\
    s_out (wk w') = s_out (wk w0) ++ take m rest /\
    length (drop m rest) <= space_end w' /\ wscript w' = wscript w0 /\ wobj w' = wobj w0 /\
    (drop m rest <> [] -> good false writable w').
Proof.
  intros Hg Hw Hne Hk Heq Hsp. unfold ks_write in Hk. rewrite Hw in Hk.
  set (m := Nat.min (s_space (wk w0)) (length rest)) in *.
  assert (0 < s_space (wk w0)) as Hpos by (unfold writable in Hw; destruct (s_space _); [done|lia]).
  assert (0 < length rest) as Hl by (destruct rest; [done|simpl; lia]).
  injection Hk as <- Hk. exists m.
  assert (wscript w' = wscript w0) as Hscr by by rewrite Heq.
  assert (space_end w' = space_end w0 - m) as Hend.
  { unfold space_end. rewrite Hscr, <- Hk.
    rewrite !(proj1 (k_end_space _ _)). simpl. lia. }
  assert (length (drop m rest) <= space_end w') as Hrest
    by (rewrite length_drop, Hend; lia).
  split_and!; try done; try lia.
  - by rewrite <- Hk.
  - by rewrite Heq.
  - intros Hd. rewrite Heq. apply good_with_k; [done|by rewrite Hw|].
    rewrite <- Hscr. apply writable_space.
    assert (0 < length (drop m rest)); [|lia]. destruct (drop m rest); [done|simpl; lia].
Qed.

(** A loop that writes the rest of [data] from an offset, one accepted write per round. *)
Lemma send_loop_delivers io (data : bytes) (wr : bytes -> pyM osE Z) :
  (forall rest w, rest <> [] -> good false writable w -> length (wscript w) < 256 ->
     exists w0 w' r, good false writable w0 /\ passed w w0 /\ writable (wk w0) = true /\
       ks_write rest (wk w0) = (r, wk w') /\ w' = with_k (wk w') w0 /\
       runs (handle io) (wr rest) w r w') ->
  forall n off w, length data - off <= n -> off <= length data ->
    (drop off data <> [] -> good false writable w) -> length (wscript w) < 256 ->
    length (drop off data) <= space_end w ->
    exists w', s_out (wk w') = s_out (wk w) ++ drop off data /\ wobj w' = wobj w /\
      runs (handle io)
        (pwhile (fun total_sent =>
           if (total_sent <? Z.of_nat (length data))%Z then
             let! sent := wr (drop (Z.to_nat total_sent) data) in
             pret (inl (total_sent + sent)%Z)
           else pret (inr tt)) (Z.of_nat off)) w (Ok tt) w'.
Proof.
  intros Hwr n. induction n as [|n IH]; intros off w Hn Hoff Hg Hlen Hsp.
  { assert (off = length data) as -> by lia. exists w.
    rewrite drop_all, app_nil_r. split_and!; [done|done|]. apply runs_pwhile_done.
    rewrite Z.ltb_irrefl. apply runs_pret. }
  destruct (decide (off = length data)) as [->|Hne].
  { exists w. rewrite drop_all, app_nil_r. split_and!; [done|done|]. apply runs_pwhile_done.
    rewrite Z.ltb_irrefl. apply runs_pret. }
  assert (drop off data <> []) as Hd.
  { intros Hd%(f_equal length). rewrite length_drop in Hd. simpl in Hd. lia. }
  destruct (Hwr _ w Hd (Hg Hd) Hlen) as (w0 & w1 & r & Hg0 & Hp & Hw & Hk & Heq & Hrun).
  destruct (passed_space _ _ Hp) as [Hse Hout]. pose proof (passed_length _ _ Hp) as Hle.
  pose proof (proj1 Hp) as Hob. destruct (write_progress (drop off data) w0 w1 r)
    as (m & -> & Hm & Hout1 & Hsp1 & Hscr & Hob1 & Hg1); try done; [lia|].
  rewrite length_drop in Hm. rewrite drop_drop in Hsp1, Hg1.
  destruct (IH (off + m) w1) as (w' & Hout' & Hob' & Hrun'); [lia|lia|done|rewrite Hscr; lia|done|].
  exists w'. split_and!; [|congruence|].
  - rewrite Hout', Hout1, Hout, <- app_assoc. f_equal.
    by rewrite <- drop_drop, take_drop.
  - eapply runs_pwhile_next.
    + rewrite (proj2 (Z.ltb_lt _ _)) by lia. rewrite Nat2Z.id.
      eapply runs_pbind; [done|]. apply runs_pret.
    + by rewrite <- Nat2Z.inj_add.
Qed.


(** [Socket.send] of a non-empty buffer accepts some of it. *)
Lemma send_answers (self : Socket) rest w :
  rest <> [] -> good false writable w -> length (wscript w) < 256 ->
  exists w0 w' r, good false writable w0 /\ passed w w0 /\ writable (wk w0) = true /\
    ks_write rest (wk w0) = (r, wk w') /\ w' = with_k (wk w') w0 /\
    runs (handle (so_io self)) (Socket.send self rest 0) w r w'.
Proof.
  intros Hne Hg Hlen. destruct rest as [|b rest]; [done|].
  destruct (eager_answers false Z (sk_send (so_sock self) (b :: rest) 0) writable (so_io self)
    (writes_ok (sk_send (so_sock self) (b :: rest) 0) (b :: rest) eq_refl (fun _ => eq_refl)) w Hg Hlen)
    as (w' & r & (w0 & Hg0 & Hp & Hr & Hk & Heq) & Hrun).
  exists w0, w', r. injection Hk as Hk. by split_and!.
Qed.

(** [C14] [SocketStream.send_all] delivers everything, once and in order, in both APIs: if
    the kernel makes room for the data in the course of the script, the call returns and
    the kernel has accepted exactly the data, however small the writes it accepts at
    a time, whatever calls are interrupted and however the poller interleaves. *)
Theorem send_all_delivers (self : Socket) (data : bytes) w :
  o_eof (wobj w) = false -> env_ok false writable w -> length data <= space_end w ->
  exists w', s_out (wk w') = s_out (wk w) ++ data /\
    runs (handle (so_io self)) (Streams.send_all (mkStream self) (PBytes data)) w (Ok tt) w' /\
    runs (handle (so_io self)) (ColoredStreams.send_all (mkStream self) (PBytes data)) w (Ok tt) w'.
Proof.
  intros Heof [Hg Hlen] Hsp. destruct (later_interleave w) as [m Hl].
  pose proof (passed_later _ _ _ Hl) as Hp. destruct (passed_space _ _ Hp) as [Hse Hout].
  pose proof (passed_length _ _ Hp) as Hle. pose proof (proj1 Hp) as Hob.
  assert (good false writable (interleave w)) as Hg1.
  { eapply later_good; [|done|done]. by apply (writes_ok (sk_send 0 [] 0) []). }
  assert (forall (c : pyM osE unit) w',
    runs (handle (so_io self)) c (interleave w) (Ok tt) w' ->
    runs (handle (so_io self))
      (let! eof := pop (EofGet (so_io self)) in
       if (eof : bool) then praise (RuntimeError "can't send data after sending EOF") else c)
      w (Ok tt) w') as Hfirst.
  { intros c w' Hc. eapply runs_pbind.
    - apply runs_pop. simpl. rewrite bool_decide_true, Hob, Heof by done. reflexivity.
    - exact Hc. }
  destruct data as [|b data].
  { exists (interleave w). rewrite app_nil_r. split; [done|]. split; apply Hfirst, runs_pret. }
  destruct (send_loop_delivers (so_io self) (b :: data) (fun rest => Socket.send self rest 0)
    (send_answers self) (length (b :: data)) 0 (interleave w))
    as (w' & Hout' & _ & Hrun); [lia|lia|done|lia|by rewrite Hse|].
  exists w'. split; [by rewrite Hout', Hout|]. split; by apply Hfirst.
Qed.

Definition demo_write_world : world kstream kev :=
  mkW (mkKs [] false 1 [] false) [] (set_readiness WRITABLE (io_new 5)) [] 0
    [Some (EvSpace 1); None; Some (EvData [Byte.x00]); Some (EvSpace 2); None; None]
    [0; 1] [false; true] (mkObj false (Some (5%Z, true)) []).

Lemma demo_write_ok : env_ok false writable demo_write_world.
Proof.
  split; [|simpl; lia]. split; simpl; try done.
  - intros _. by left.
  - set_solver.
  - by intros [] e.
Qed.

Lemma send_all_delivers_witness :
  exists w', s_out (wk w') = [Byte.x61; Byte.x62; Byte.x63] /\
    runs (handle 0) (Streams.send_all (mkStream (mkSocket 3 0)) (PBytes [Byte.x61; Byte.x62; Byte.x63]))
      demo_write_world (Ok tt) w'.
Proof.
  destruct (send_all_delivers (mkSocket 3 0) [Byte.x61; Byte.x62; Byte.x63] demo_write_world
    eq_refl demo_write_ok) as (w' & Hout & Hrun & _); [vm_compute; lia|].
  by exists w'.
Defined.

(** ** Descriptor streams *)

(** The exception [FdStream.send_all] raises for one of [os.write]. *)
Definition fd_conv (e : exn) : exn := if is_BrokenPipe e then ResourceBroken (Some e) else e.

Lemma on_write_error_ok io :
  clauses_ok false Z io (on_write_error (pop (IoClear false io))) fd_conv.
Proof.
  split; intros e; unfold on_write_error, is_transient, fd_conv.
  - by intros ->.
  - by intros -> ->.
  - intros [-> ->]%orb_false_elim. by destruct (is_BrokenPipe e).
Qed.

Lemma fd_write_answers io fd rest w :
  rest <> [] -> good false writable w -> length (wscript w) < 256 ->
  exists w0 w' r, good false writable w0 /\ passed w w0 /\ writable (wk w0) = true /\
    ks_write rest (wk w0) = (r, wk w') /\ w' = with_k (wk w') w0 /\
    runs (handle io) (Fd.fd_write_loop io fd rest) w r w'.
Proof.
  intros Hne Hg Hlen.
  destruct (loop_answers false Z (os_write fd rest) writable
    (writes_ok (os_write fd rest) rest eq_refl (fun _ => eq_refl)) io _ _ (on_write_error_ok io) w Hg Hlen)
    as (w' & r & (w0 & Hg0 & Hp & Hr & Hk & Heq) & Hrun).
  injection Hk as Hk. exists w0, w', r. split_and!; try done.
  unfold ks_write in Hk. rewrite Hr in Hk. by destruct r.
Qed.

(** An operation on the native objects: time passes, the objects change. *)
Lemma obj_step w o :
  good false writable w -> let w1 := with_obj o (interleave w) in
  good false writable w1 /\ space_end w1 = space_end w /\ s_out (wk w1) = s_out (wk w) /\
  length (wscript w1) <= length (wscript w) /\ wobj (interleave w) = wobj w.
Proof.
  intros Hg w1. destruct (later_interleave w) as [m Hl].
  pose proof (passed_later _ _ _ Hl) as Hp. destruct (passed_space _ _ Hp) as [Hse Hout].
  pose proof (passed_length _ _ Hp) as Hle. pose proof (proj1 Hp) as Hob.
  assert (good false writable (interleave w)) as Hg1.
  { eapply later_good; [|done|done]. by apply (writes_ok (sk_send 0 [] 0) []). }
  split_and!; try done. destruct Hg1. by split.
Qed.

Lemma with_obj_same (w : world kstream kev) : with_obj (wobj w) w = w.
Proof. by destruct w. Qed.

Lemma runs_get io w (c : Z -> pyM osE unit) r w' fd b :
  o_fd (wobj (interleave w)) = Some (fd, b) ->
  runs (handle io) (c fd) (interleave w) r w' ->
  runs (handle io) (let! x := pop (FdGet io) in c x) w r w'.
Proof.
  intros Ho Hr. eapply runs_pbind; [apply runs_pop|exact Hr].
  simpl. by rewrite bool_decide_true, Ho by done.
Qed.

Lemma runs_open (self : Fd) w fd b (c : pyM osE unit) r w' :
  o_fd (wobj w) = Some (fd, b) -> fd <> (-1)%Z -> good false writable w ->
  runs (handle (fd_io self)) c (interleave w) r w' ->
  runs (handle (fd_io self))
    (let! closed := Fd_closed self in
     if (closed : bool) then praise (RuntimeError "file closed") else c) w r w'.
Proof.
  intros Ho Hfd Hg Hc. destruct (obj_step w (wobj w) Hg) as (_ & _ & _ & _ & Hob).
  eapply runs_pbind.
  - eapply runs_pbind; [|apply runs_pret]. apply runs_pop. simpl.
    rewrite bool_decide_true, Hob, Ho by done. reflexivity.
  - by rewrite (proj2 (Z.eqb_neq _ _)).
Qed.

(** [FdStream.send_all] (both APIs) writes everything to the descriptor, once and in
    order, when the kernel makes room for it, and releases its write lock; the lock must be
    free, otherwise nothing is written and [WouldBlock] is raised. *)
Theorem fd_send_all_delivers (self : FdStream) (data : bytes) w fd b :
  o_fd (wobj w) = Some (fd, b) -> fd <> (-1)%Z -> env_ok false writable w ->
  length data <= space_end w ->
  exists w' r,
    runs (handle (fd_io (fs_fd self))) (Fd.FdStream_send_all self (PBytes data)) w r w' /\
    runs (handle (fd_io (fs_fd self))) (ColoredStreams.FdStream_send_all self (PBytes data)) w r w' /\
    if decide (fs_lock_w self ∈ o_locks (wobj w))
    then r = Err WouldBlock /\ s_out (wk w') = s_out (wk w)
    else r = Ok tt /\ s_out (wk w') = s_out (wk w) ++ data /\ fs_lock_w self ∉ o_locks (wobj w').
Proof.
  intros Ho Hfd [Hg Hlen] Hsp. set (io := fd_io (fs_fd self)).
  pose proof (fun c r w' => runs_open (fs_fd self) w fd b c r w' Ho Hfd Hg) as Hopen.
  destruct (obj_step w (wobj w) Hg) as (Hg1 & Hse1 & Hout1 & Hle1 & Hob1).
  rewrite <- Hob1, with_obj_same in Hg1, Hse1, Hout1, Hle1. set (w1 := interleave w) in *.
  destruct (obj_step w1 (wobj w1) Hg1) as (Hg2 & Hse2 & Hout2 & Hle2 & Hob2).
  rewrite <- Hob2, with_obj_same in Hg2, Hse2, Hout2, Hle2.
  pose proof (fun c r w' => runs_get io w1 c r w' fd b) as Hfile.
  rewrite Hob2, Hob1 in Hfile. set (w2 := interleave w1) in *.
  set (o := mkObj (o_eof (wobj w)) (o_fd (wobj w)) (fs_lock_w self :: o_locks (wobj w))).
  destruct (obj_step w2 o Hg2) as (Hg3 & Hse3 & Hout3 & Hle3 & Hob3).
  destruct (decide _) as [Hin|Hnin].
  { exists (interleave w2), (Err WouldBlock).
    assert (runs (handle io) (pcall (TryLock (fs_lock_w self))) w2 (Err WouldBlock) (interleave w2))
      as Htry.
    { apply runs_pcall. simpl. rewrite Hob3, Hob2, Hob1. by rewrite bool_decide_true. }
    split_and!; [| |done|simpl in Hout3; congruence]; apply Hopen, Hfile; [done| |done|];
      by apply runs_pbind_err. }
  set (w3 := with_obj o (interleave w2)) in *.
  assert (runs (handle io) (pcall (TryLock (fs_lock_w self))) w2 (Ok tt) w3) as Htry.
  { apply runs_pcall. simpl. rewrite Hob3, Hob2, Hob1. by rewrite bool_decide_false. }
  assert (exists w4, s_out (wk w4) = s_out (wk w) ++ data /\
    runs (handle io) (match memoryview (PBytes data) with
       | Err e => praise e | Ok [] => pret tt | Ok b => Fd.fd_send_rest io fd b 0 end) w3 (Ok tt) w4)
    as (w4 & Hout4 & Hrun4).
  { destruct data as [|x data].
    { exists w3. rewrite app_nil_r. split; [by rewrite Hout3, Hout2|apply runs_pret]. }
    destruct (send_loop_delivers io (x :: data) (Fd.fd_write_loop io fd) (fd_write_answers io fd)
      (length (x :: data)) 0 w3) as (w4 & Hout4 & _ & Hrun); [lia|lia|done|lia|simpl in *; lia|].
    exists w4. split; [by rewrite Hout4, Hout3, Hout2, Hout1|done]. }
  set (w5 := with_obj (mkObj (o_eof (wobj (interleave w4))) (o_fd (wobj (interleave w4)))
    (filter (fun x => x <> fs_lock_w self) (o_locks (wobj (interleave w4))))) (interleave w4)).
  exists w5, (Ok tt). split_and!.
  1,2: apply Hopen, Hfile; [done|]; eapply runs_pbind; [exact Htry|];
    eapply runs_pfinally; [exact Hrun4|by apply runs_pop].
  - done.
  - destruct (later_interleave w4) as [m Hl]. destruct (passed_space _ _ (passed_later _ _ _ Hl)).
    unfold w5. simpl. congruence.
  - unfold w5. simpl. rewrite list_elem_of_filter. tauto.
Qed.

Lemma fd_send_all_delivers_witness :
  exists w', s_out (wk w') = [Byte.x61; Byte.x62; Byte.x63] /\
    runs (handle 0) (Fd.FdStream_send_all (mkFdStream (mkFd 0) 1 2) (PBytes [Byte.x61; Byte.x62; Byte.x63]))
      demo_write_world (Ok tt) w'.
Proof.
  destruct (fd_send_all_delivers (mkFdStream (mkFd 0) 1 2) [Byte.x61; Byte.x62; Byte.x63]
    demo_write_world 5 true eq_refl) as (w' & r & Hrun & _ & Hr);
    [done|exact demo_write_ok|vm_compute; lia|].
  destruct (decide _) as [Hin|_]; [by apply elem_of_nil in Hin|].
  destruct Hr as (-> & Hout & _). exists w'. split; [exact Hout|exact Hrun].
Defined.
