(* ===== verification/Echo.v ===== *)
(** * An echo server on the sockets

    The echo servers of [src/bench/impl/tonio_yi/sock.py] and [src/bench/impl/tonio_aw/sock.py]: a
    program that uses both directions of a connection.  Run against the environment of [Driver] and
    the stream of [Delivery], a client's connection is answered with what it sent, and closed. *)

From stdpp Require Import base numbers list gmap strings.
From Stdlib Require Import ZArith Lia.
From ITree Require Import ITree ITreeFacts.
From S2P Require Import Prelude Coro Hoare SchedIO Arming Os Socket ColoredSocket Driver Delivery.

Open Scope nat_scope.
Open Scope tonio_scope.

(** ** The programs *)

(** [tonio_yi/sock.py]. *)
Definition _send_all (sock : Socket) (buf : bytes) : pyM osE unit :=
  pwhile (fun buf =>
    match buf with
    | [] => pret (inr tt)
    | _ => let! sent := Socket.send sock buf 0 in pret (inl (drop (Z.to_nat sent) buf))
    end) buf.

(** The [try] around [setsockopt]; the constants it names exist, so there is no [NameError]. *)
Definition no_delay (conn : Socket) : pyM osE unit :=
  ptry_else (Socket.setsockopt conn IPPROTO_TCP TCP_NODELAY (PInt 1) None)
    (fun e => if is_OSError e then Some (pret tt) else None) pret.

Definition echo_client (conn : Socket) : pyM osE unit :=
  no_delay conn ;;;
  with_socket conn
    (ploop
       (let! data := Socket.recv conn 102400 0 in
        match data with
        | [] => pret (Some tt)
        | _ => _send_all conn data ;;; pret None
        end)).

(** [spawn] is [tonio.spawn.without_tracking]. *)
Definition echo_server (spawn : pyM osE unit -> pyM osE unit) (address : pyobj) : pyM osE unit :=
  let! sock := Socket.socket AF_INET SOCK_STREAM 0 None in
  with_socket sock
    (Socket.bind sock address ;;;
     Socket.listen sock None ;;;
     ploop
       (let! client := Socket.accept sock in
        spawn (echo_client (fst client)) ;;; pret None)).

(** [tonio_aw/sock.py]. *)
Module ColoredEcho.
Definition _send_all (sock : Socket) (buf : bytes) : pyM osE unit :=
  pwhile (fun buf =>
    match buf with
    | [] => pret (inr tt)
    | _ => let! sent := ColoredSocket.send sock buf 0 in pret (inl (drop (Z.to_nat sent) buf))
    end) buf.

Definition echo_client (conn : Socket) : pyM osE unit :=
  no_delay conn ;;;
  with_socket conn
    (ploop
       (let! data := ColoredSocket.recv conn 102400 0 in
        match data with
        | [] => pret (Some tt)
        | _ => _send_all conn data ;;; pret None
        end)).

Definition echo_server (spawn : pyM osE unit -> pyM osE unit) (address : pyobj) : pyM osE unit :=
  let! sock := ColoredSocket.socket AF_INET SOCK_STREAM 0 None in
  with_socket sock
    (ColoredSocket.bind sock address ;;;
     Socket.listen sock None ;;;
     ploop
       (let! client := ColoredSocket.accept sock in
        spawn (echo_client (fst client)) ;;; pret None)).
End ColoredEcho.

(** ** The direction that is not used *)

(** The bits of a direction that the other one does not clear. *)
Definition own_mask (d : bool) : Z := if d then Z.lor READABLE READ_CLOSED else Z.lor WRITABLE WRITE_CLOSED.
Definition meets (m x : Z) : bool := negb (Z.land x m =? 0)%Z.

Definition ready_for (d : bool) (k : kstream) : bool := if d then readable k else writable k.

(** There are no errors, and an object that is ready is known to be, to the entry or to the
    poller. *)
Definition no_error (x : Z) : Prop := Z.land x ERROR = 0%Z.
Record seen (d : bool) (w : world kstream kev) : Prop := {
  sn_q : Forall edge_ok (wq w);
  sn_err : no_error (readiness (wio w)) /\ Forall no_error (wq w);
  sn_ready : ready_for d (wk w) = true ->
    meets (own_mask d) (readiness (wio w)) = true \/ Exists (fun r => meets (own_mask d) r = true) (wq w)
}.

Lemma own_mask_bound d : (0 <= own_mask d < 64)%Z.
Proof. destruct d; vm_compute; done. Qed.

Lemma meets_bump d r x : edge_ok r -> meets (own_mask d) (bump r x) = meets (own_mask d) x || meets (own_mask d) r.
Proof.
  intros Hr. unfold meets. pose proof (land_bump_0 (own_mask d) r x (own_mask_bound d) Hr) as Hb.
  destruct (Z.eqb_spec (Z.land (bump r x) (own_mask d)) 0),
    (Z.eqb_spec (Z.land x (own_mask d)) 0), (Z.eqb_spec (Z.land r (own_mask d)) 0); simpl; tauto.
Qed.

Lemma ready_edge d ev k :
  ready_for d k = false -> ready_for d (ks_step ev k) = true -> meets (own_mask d) (ks_edge ev) = true.
Proof.
  destruct d; simpl; unfold readable, writable.
  - destruct (s_in k) eqn:Hin; [|done]. intros He.
    destruct ev as [[]| |n]; simpl; rewrite ?Hin; simpl; congruence || done.
  - destruct (s_space k) eqn:Hsp; [|done]. intros _. destruct ev as [b| |[|n]]; simpl; rewrite ?Hsp; done.
Qed.

Lemma happen_seen d w : seen d w -> seen d (happen w).
Proof.
  intros [Hq [Hi He] Hr]. unfold happen. destruct (wscript w) as [|[ev|] s]; [done| |].
  - split; simpl.
    + destruct (ks_edge ev =? 0)%Z; [done|]. apply Forall_app. split; [done|]. constructor; [apply ks_edge_ok|done].
    + split; [done|]. destruct (ks_edge ev =? 0)%Z; [done|]. apply Forall_app. split; [done|].
      constructor; [|done]. by destruct ev as [[]| |[]]; vm_compute.
    + intros Hrd. destruct (ready_for d (wk w)) eqn:Hr0.
      * destruct (Hr eq_refl) as [|Hx]; [by left|right]. destruct (ks_edge ev =? 0)%Z; [done|].
        apply Exists_app. by left.
      * right. pose proof (ready_edge d ev _ Hr0 Hrd) as Hm.
        destruct (Z.eqb_spec (ks_edge ev) 0) as [Hz|_]; [by rewrite Hz in Hm; destruct d|].
        apply Exists_app. right. by constructor.
  - destruct (wq w) as [|r q] eqn:Hwq; [by split|]. apply Forall_cons in Hq as [Hre Hq].
    apply Forall_cons in He as [Hre' He].
    split; simpl; [done|split; [|done]; by apply land_bump_0|]. intros Hrd. rewrite meets_bump by done.
    destruct (Hr Hrd) as [->|Hx]; [by left|]. apply Exists_cons in Hx as [->|Hx]; [|by right].
    left. by rewrite orb_true_r.
Qed.

Lemma interleave_seen d w : seen d w -> seen d (interleave w).
Proof.
  intros Hs. unfold interleave.
  assert (seen d (mkW (wk w) (wq w) (wio w) (wfired w) (wfresh w) (wscript w) (tail (wsched w))
    (wirq w) (wobj w))) as H0 by (by destruct Hs).
  induction (default 0 (head (wsched w))) as [|n IH]; simpl; [done|]. by apply happen_seen.
Qed.

Lemma await_seen d n e w w' : seen d w -> await_until n e w = Some w' -> seen d w'.
Proof.
  revert w. induction n as [|n IH]; intros w Hs; simpl; case_bool_decide; intros Hw; simplify_eq; try done.
  eapply IH; [|exact Hw]. by apply happen_seen.
Qed.

(** The entry changes, but not the bits of the direction. *)
Lemma with_io_seen d io w :
  seen d w -> meets (own_mask d) (readiness io) = meets (own_mask d) (readiness (wio w)) ->
  (no_error (readiness (wio w)) -> no_error (readiness io)) -> seen d (with_io io w).
Proof. intros [Hq [Hi He] Hr] Hm Hn. split; simpl; [done|auto|]. by rewrite Hm. Qed.

Lemma clear_other d io :
  meets (own_mask d) (readiness (clear_d (negb d) io)) = meets (own_mask d) (readiness io).
Proof.
  assert (forall m x, Z.land m (own_mask d) = 0%Z -> meets (own_mask d) (Z.ldiff x m) = meets (own_mask d) x) as Hd.
  { intros m x Hm. unfold meets. f_equal. f_equal. apply Z.bits_inj'. intros n Hn.
    apply (f_equal (fun z => Z.testbit z n)) in Hm. revert Hm.
    rewrite !Z.land_spec, Z.ldiff_spec, Z.bits_0.
    by destruct (Z.testbit m n), (Z.testbit (own_mask d) n), (Z.testbit x n). }
  destruct d; simpl; unfold clear_r, clear_w, clear; destruct (negb _); try done; by apply Hd.
Qed.

Lemma clear_no_error d io : no_error (readiness io) -> no_error (readiness (clear_d d io)).
Proof.
  assert (forall m x, no_error x -> no_error (Z.ldiff x m)) as Hd.
  { intros m x Hx. unfold no_error in *. apply Z.bits_inj'. intros n Hn.
    apply (f_equal (fun z => Z.testbit z n)) in Hx. revert Hx.
    rewrite !Z.land_spec, Z.ldiff_spec, Z.bits_0.
    by destruct (Z.testbit m n), (Z.testbit ERROR n), (Z.testbit x n). }
  intros Hx. destruct d; simpl; unfold clear_r, clear_w, clear; destruct (negb _); simpl; auto.
Qed.

Section Keeps.
Variables (d : bool) (i0 : nat).

Lemma keeps_arm d2 : keeps (handle i0) (seen d) (pop (IoArm d2 i0)).
Proof.
  apply triple_pop. intros w r w' Hs Hh. simpl in Hh. rewrite bool_decide_true in Hh by done.
  pose proof (interleave_seen _ _ Hs) as Hi.
  destruct (arm_d d2 (wfresh (interleave w)) (wio (interleave w))) as [x io] eqn:Ha. simplify_eq/=.
  assert (readiness io = readiness (wio (interleave w))) as Heq.
  { destruct r as [x|]; [apply arm_d_Some in Ha as (_ & _ & ->); apply readiness_set_slot|].
    by apply arm_d_None in Ha as (_ & -> & _). }
  pose proof (with_io_seen d io _ Hi ltac:(by rewrite Heq) ltac:(by rewrite Heq)) as [Hq He Hr]. by split.
Qed.

Lemma keeps_clear : keeps (handle i0) (seen d) (pop (IoClear (negb d) i0)).
Proof.
  apply triple_pop. intros w r w' Hs Hh. simpl in Hh. rewrite bool_decide_true in Hh by done.
  simplify_eq. apply with_io_seen; [by apply interleave_seen|apply clear_other|apply clear_no_error].
Qed.

Lemma keeps_await e : keeps (handle i0) (seen d) (await_io e).
Proof.
  apply triple_pcall. intros w r w' Hs Hh. simpl in Hh.
  destruct (await_until _ _ _) as [w1|] eqn:Ha; simplify_eq.
  by eapply await_seen, Ha; apply interleave_seen.
Qed.

(** A call that does not make the object ready in this direction. *)
Definition harmless {A} (c : syscall A) : Prop :=
  forall k r k', ksys A c k = Some (r, k') -> ready_for d k' = true -> ready_for d k = true.

Lemma keeps_sys {A} (c : syscall A) : harmless c -> keeps (handle i0) (seen d) (sys c).
Proof.
  intros Hc. apply triple_pcall. intros w r w' Hs Hh. simpl in Hh.
  destruct (interleave_seen _ _ Hs) as [Hq He Hr]. set (w1 := interleave w) in *.
  assert (forall k, ksys A c (wk w1) = Some (r, k) -> seen d (with_k k (next_irq w1))) as Hk.
  { intros k Hk. split; simpl; [done..|]. intros Hrd. apply Hr. by eapply Hc. }
  assert (forall k, ksys A c (wk w1) = Some (r, k) -> seen d (with_k k w1)) as Hk'
    by (intros k [Q1 Q2 Q3]%Hk; by split).
  destruct (interruptible c); [destruct (wirq w1) as [|[] l]; simplify_eq; [|by split|]|];
    (destruct (ks_sys A c (wk w1)) as [[x k]|] eqn:Hx; simplify_eq; by auto).
Qed.

Lemma keeps_io_loop {A} (c : syscall A) :
  harmless c -> keeps (handle i0) (seen d) (io_loop (pop (IoArm (negb d) i0)) (pop (IoClear (negb d) i0)) (sys c)).
Proof.
  intros Hc. pose proof keeps_arm. pose proof keeps_clear. pose proof keeps_await. pose proof (keeps_sys c Hc).
  apply keeps_ploop, keeps_pbind; [done|]. intros [e|].
  - apply keeps_pbind; [done|]. intros _. apply keeps_pret.
  - apply keeps_ptry_else; [done|intros a; apply keeps_pret|]. intros e t. unfold on_transient.
    destruct (is_Interrupted e); [intros [= <-]; apply keeps_pret|].
    destruct (is_BlockingIO e); intros [= <-]; [|apply keeps_praise].
    apply keeps_pbind; [done|]. intros _. apply keeps_pret.
Qed.
End Keeps.

Lemma recv_harmless s n fl : harmless false (sk_recv s n fl).
Proof.
  intros k r k' Hk. simpl in Hk. unfold ks_read in Hk. destruct (readable k); by simplify_eq.
Qed.

Lemma send_harmless s data fl : harmless true (sk_send s data fl).
Proof.
  intros k r k' Hk. simpl in Hk. unfold ks_write in Hk. destruct (writable k); by simplify_eq.
Qed.

Lemma keeps_recv (conn : Socket) n fl : keeps (handle (so_io conn)) (seen false) (Socket.recv conn n fl).
Proof. apply (keeps_io_loop false (so_io conn)), recv_harmless. Qed.

Lemma keeps_send (conn : Socket) data fl : keeps (handle (so_io conn)) (seen true) (Socket.send conn data fl).
Proof.
  destruct data as [|b data]; [apply keeps_pret|].
  apply keeps_ptry_else; [apply keeps_sys, send_harmless|intros a; apply keeps_pret|].
  intros e t He. destruct (is_transient e); [|done]. injection He as <-.
  apply (keeps_io_loop true (so_io conn)), send_harmless.
Qed.

(** ** Both directions *)

Record duplex (w : world kstream kev) : Prop := {
  du_shut : no_shutdown (wio w);
  du_drains : drains (wq w) (wscript w) = true;
  du_len : length (wscript w) < 256;
  du_fired : forall e, e ∈ wfired w -> e < wfresh w;
  du_slots : forall dd e, slot_of dd (wio w) = Some e -> e < wfresh w;
  du_seen : forall d, seen d w
}.

Lemma meets_hits d x : no_error x -> meets (own_mask d) x = hits d x.
Proof.
  intros Hx. unfold meets, hits. f_equal. f_equal.
  assert (dmask d = Z.lor (own_mask d) ERROR) as -> by (by destruct d).
  rewrite Z.land_lor_distr_r, Hx. by rewrite Z.lor_0_r.
Qed.

Lemma meets_bits d io : no_error (readiness io) -> no_shutdown io ->
  meets (own_mask d) (readiness io) = bits d io.
Proof.
  intros He Hs. rewrite bits_split. unfold no_shutdown in Hs. rewrite Hs. simpl. rewrite orb_false_r.
  by apply meets_hits.
Qed.

Lemma duplex_good d rdy w :
  duplex w -> (forall k, rdy k = ready_for d k) -> rdy (k_end (wk w) (wscript w)) = true -> good d rdy w.
Proof.
  intros [Hs Hd Hl Hf Hsl Hse] Hrdy He. destruct (Hse d) as [Hq [Hi Hn] Hr]. split; try done.
  intros Hk. rewrite Hrdy in Hk. destruct (Hr Hk) as [Hm|Hx].
  - left. by rewrite <- meets_bits.
  - right. unfold hit_queued. apply Exists_exists in Hx as (r & Hin & Hm). apply Exists_exists. exists r.
    split; [done|]. rewrite Forall_forall in Hn. by rewrite <- meets_hits by auto.
Qed.

(** After a call that was answered on a ready object. *)
Lemma good_duplex d rdy w0 k :
  good d rdy w0 -> rdy (wk w0) = true -> length (wscript w0) < 256 -> seen (negb d) (with_k k w0) ->
  duplex (with_k k w0).
Proof.
  intros [Gq Gs Gd Ge Gn Gf Gl] Hr Hlen Hse. pose proof (sn_err _ _ Hse) as [Hi Hn]. simpl in Hi, Hn.
  split; simpl; try done. intros d'. destruct (decide (d' = d)) as [->|Hne];
    [|by replace d' with (negb d) by (by destruct d, d')].
  split; simpl; [done..|]. intros _. destruct (Gn Hr) as [Hb|Hx].
  - left. by rewrite meets_bits.
  - right. unfold hit_queued in Hx. apply Exists_exists in Hx as (r & Hin & Hm). apply Exists_exists. exists r.
    split; [done|]. rewrite Forall_forall in Hn. by rewrite meets_hits by auto.
Qed.

(** ** What the script brings *)

Definition ev_data (o : option kev) : bytes := match o with Some (EvData b) => b | _ => [] end.
Definition data_of (s : list (option kev)) : bytes := flat_map ev_data s.
Definition ends (s : list (option kev)) : bool :=
  existsb (fun o => match o with Some EvEof => true | _ => false end) s.

(** No data after the end of the input. *)
Fixpoint orderly (eof : bool) (s : list (option kev)) : bool :=
  match s with
  | [] => true
  | Some (EvData b) :: s => (negb eof || bool_decide (b = [])) && orderly eof s
  | Some EvEof :: s => orderly true s
  | _ :: s => orderly eof s
  end.

(** All that is still to be read. *)
Definition incoming (w : world kstream kev) : bytes := s_in (wk w) ++ data_of (wscript w).
Definition will_end (w : world kstream kev) : bool := s_eof (wk w) || ends (wscript w).

Lemma k_end_in s k :
  s_in (k_end k s) = s_in k ++ data_of s /\ s_eof (k_end k s) = s_eof k || ends s /\
  s_closed (k_end k s) = s_closed k.
Proof.
  revert k. induction s as [|o s IH]; intros k; simpl; [by rewrite app_nil_r, orb_false_r|].
  destruct (IH (match o with Some ev => ks_step ev k | None => k end)) as (Hi & He & Hc).
  unfold k_end in *. rewrite Hi, He, Hc. unfold data_of. simpl.
  destruct o as [[b| |n]|]; simpl; rewrite <- ?app_assoc; split_and!; try done. by destruct (s_eof k).
Qed.

Lemma orderly_app s1 s2 eof : orderly eof (s1 ++ s2) = true -> orderly (eof || ends s1) s2 = true.
Proof.
  revert eof. induction s1 as [|o s1 IH]; intros eof; simpl; [by rewrite orb_false_r|].
  destruct o as [[b| |n]|]; simpl; try apply IH.
  - intros [_ H]%andb_true_iff. by apply IH.
  - intros H. apply IH in H. by rewrite orb_true_r.
Qed.

Lemma orderly_ended s : orderly true s = true -> data_of s = [].
Proof.
  induction s as [|o s IH]; simpl; [done|]. destruct o as [[b| |n]|]; simpl; try done.
  intros [Hb Hs]%andb_true_iff. apply bool_decide_eq_true in Hb as ->. by apply IH.
Qed.

(** What a call leaves of the environment. *)
Record same_course (w w' : world kstream kev) : Prop := {
  sc_end : will_end w' = will_end w;
  sc_orderly : orderly (s_eof (wk w)) (wscript w) = true -> orderly (s_eof (wk w')) (wscript w') = true;
  sc_closed : s_closed (wk w') = s_closed (wk w)
}.

Lemma same_course_trans w1 w2 w3 : same_course w1 w2 -> same_course w2 w3 -> same_course w1 w3.
Proof. intros [] []. split; [congruence|auto|congruence]. Qed.

Lemma passed_course w w' : passed w w' -> same_course w w' /\ incoming w' = incoming w.
Proof.
  intros [_ (pre & Hs & Hk)]. destruct (k_end_in pre (wk w)) as (Hi & He & Hc).
  split; [split|].
  - unfold will_end. rewrite Hk, He, Hs. unfold ends. by rewrite existsb_app, orb_assoc.
  - intros Ho. rewrite Hs in Ho. rewrite Hk, He. by apply orderly_app.
  - by rewrite Hk, Hc.
  - unfold incoming. rewrite Hs, Hk, Hi. unfold data_of. by rewrite flat_map_app, app_assoc.
Qed.

(** ** One read, one write, the loop *)

Lemma recv_step (conn : Socket) n w :
  (0 < n)%Z -> duplex w -> will_end w = true -> orderly (s_eof (wk w)) (wscript w) = true ->
  exists data w', runs (handle (so_io conn)) (Socket.recv conn n 0) w (Ok data) w' /\
    duplex w' /\ same_course w w' /\ incoming w = data ++ incoming w' /\
    (data = [] -> incoming w' = []) /\ space_end w' = space_end w /\ s_out (wk w') = s_out (wk w).
Proof.
  intros Hn Hdu Hend Hord.
  assert (good true readable w) as Hg.
  { apply duplex_good; [done..|]. unfold readable. destruct (k_end_in (wscript w) (wk w)) as (_ & -> & _).
    unfold will_end in Hend. rewrite Hend. by destruct (s_in _). }
  destruct (io_loop_answers true bytes (sk_recv (so_sock conn) n 0) readable (so_io conn)
    (reads_ok (sk_recv (so_sock conn) n 0) n eq_refl (fun _ => eq_refl)) w Hg (du_len _ Hdu)) as (w' & r & (w0 & Hg0 & Hp & Hr & Hk & Heq) & Hrun).
  destruct (passed_course _ _ Hp) as [Hc Hin]. destruct (passed_space _ _ Hp) as [Hse Hout].
  pose proof (passed_length _ _ Hp) as Hle. pose proof (du_len _ Hdu) as Hlen.
  pose proof (keeps_recv conn n 0 w r w' (du_seen _ Hdu false) Hrun) as Hseen.
  simpl in Hk. unfold ks_read in Hk. rewrite Hr in Hk. injection Hk as <- Hk.
  assert (duplex w') as Hdu'.
  { rewrite Heq in Hseen |- *. apply (good_duplex true readable); [done..|lia|done]. }
  assert (wscript w' = wscript w0) as Hscr by (by rewrite Heq).
  exists (take (Z.to_nat n) (s_in (wk w0))), w'. split_and!; try done.
  - apply (same_course_trans _ w0); [done|]. split; unfold will_end; rewrite ?Hscr, <- ?Hk; done.
  - rewrite <- Hin. unfold incoming. rewrite Hscr, <- Hk. simpl. by rewrite app_assoc, take_drop.
  - intros Ht. unfold incoming. rewrite Hscr, <- Hk. simpl.
    assert (s_in (wk w0) = [] /\ s_eof (wk w0) = true) as [Hnil Heof].
    { unfold readable in Hr. destruct (s_in (wk w0)); [done|]. destruct (Z.to_nat n) eqn:?; [lia|done]. }
    rewrite Hnil, drop_nil. simpl. apply orderly_ended.
    pose proof (sc_orderly _ _ Hc Hord) as Ho0. by rewrite Heof in Ho0.
  - rewrite <- Hse. unfold space_end. rewrite !(proj1 (k_end_space _ _)), Hscr, <- Hk. done.
  - rewrite <- Hout, <- Hk. done.
Qed.

Lemma send_step (conn : Socket) buf w :
  buf <> [] -> duplex w -> length buf < space_end w ->
  exists m w', runs (handle (so_io conn)) (Socket.send conn buf 0) w (Ok (Z.of_nat m)) w' /\
    0 < m <= length buf /\ duplex w' /\ same_course w w' /\ incoming w' = incoming w /\
    space_end w' + m = space_end w /\ s_out (wk w') = s_out (wk w) ++ take m buf.
Proof.
  intros Hne Hdu Hsp. assert (good false writable w) as Hg.
  { apply duplex_good; [done..|]. apply writable_space. lia. }
  destruct (send_answers conn buf w Hne Hg (du_len _ Hdu)) as (w0 & w' & r & Hg0 & Hp & Hw & Hk & Heq & Hrun).
  destruct (passed_course _ _ Hp) as [Hc Hin]. destruct (passed_space _ _ Hp) as [Hse Hout].
  pose proof (passed_length _ _ Hp) as Hle. pose proof (du_len _ Hdu) as Hlen.
  pose proof (keeps_send conn buf 0 w r w' (du_seen _ Hdu true) Hrun) as Hseen.
  assert (duplex w') as Hdu'.
  { rewrite Heq in Hseen |- *. apply (good_duplex false writable); [done..|lia|done]. }
  assert (wscript w' = wscript w0) as Hscr by (by rewrite Heq).
  unfold ks_write in Hk. rewrite Hw in Hk. injection Hk as <- Hk.
  assert (0 < s_space (wk w0)) as Hpos by (unfold writable in Hw; destruct (s_space _); [done|lia]).
  assert (0 < length buf) as Hlb by (destruct buf; [done|simpl; lia]).
  eexists _, w'. split_and!; try done; try lia.
  - apply (same_course_trans _ w0); [done|]. split; unfold will_end; rewrite ?Hscr, <- ?Hk; done.
  - rewrite <- Hin. unfold incoming. by rewrite Hscr, <- Hk.
  - rewrite <- Hse. unfold space_end. rewrite !(proj1 (k_end_space _ _)), Hscr, <- Hk. simpl. lia.
  - rewrite <- Hout, <- Hk. done.
Qed.

Lemma send_all_step (conn : Socket) buf w :
  duplex w -> length buf < space_end w ->
  exists w', runs (handle (so_io conn)) (_send_all conn buf) w (Ok tt) w' /\
    duplex w' /\ same_course w w' /\ incoming w' = incoming w /\
    space_end w' + length buf = space_end w /\ s_out (wk w') = s_out (wk w) ++ buf.
Proof.
  remember (length buf) as n eqn:Hn. revert buf w Hn.
  induction n as [n IH] using lt_wf_ind. intros buf w -> Hdu Hsp.
  destruct buf as [|b buf].
  { exists w. rewrite app_nil_r, Nat.add_0_r. split_and!; try done. apply runs_pwhile_done, runs_pret. }
  destruct (send_step conn (b :: buf) w) as (m & w1 & Hr1 & Hm & Hd1 & Hc1 & Hi1 & Hs1 & Ho1); [done..|].
  destruct (IH (length (drop m (b :: buf)))) with (buf := drop m (b :: buf)) (w := w1)
    as (w2 & Hr2 & Hd2 & Hc2 & Hi2 & Hs2 & Ho2); [rewrite length_drop; lia|done|done|rewrite length_drop; lia|].
  exists w2. rewrite length_drop in Hs2. split_and!; try done.
  - eapply runs_pwhile_next; [|exact Hr2]. eapply runs_pbind; [exact Hr1|]. rewrite Nat2Z.id. apply runs_pret.
  - by eapply same_course_trans.
  - congruence.
  - simpl in *. lia.
  - rewrite Ho2, Ho1, <- app_assoc. by rewrite take_drop.
Qed.

(** The body of the connection: everything that comes in goes out. *)
Lemma echo_loop_echoes (conn : Socket) w :
  duplex w -> will_end w = true -> orderly (s_eof (wk w)) (wscript w) = true ->
  length (incoming w) < space_end w ->
  exists w', s_out (wk w') = s_out (wk w) ++ incoming w /\ s_closed (wk w') = s_closed (wk w) /\
    runs (handle (so_io conn))
      (ploop
         (let! data := Socket.recv conn 102400 0 in
          match data with
          | [] => pret (Some tt)
          | _ => _send_all conn data ;;; pret None
          end)) w (Ok tt) w'.
Proof.
  remember (length (incoming w)) as n eqn:Hn. revert w Hn.
  induction n as [n IH] using lt_wf_ind. intros w -> Hdu Hend Hord Hsp.
  destruct (recv_step conn 102400 w) as (data & w1 & Hr1 & Hd1 & Hc1 & Hi1 & Hz1 & Hs1 & Ho1); [done..|].
  destruct data as [|b data].
  { exists w1. rewrite Hi1, (Hz1 eq_refl), app_nil_r. split_and!; [done|apply Hc1|].
    apply runs_ploop_done. eapply runs_pbind; [exact Hr1|]. apply runs_pret. }
  rewrite Hi1, length_app in Hsp. destruct (send_all_step conn (b :: data) w1)
    as (w2 & Hr2 & Hd2 & Hc2 & Hi2 & Hs2 & Ho2); [done|lia|].
  pose proof (same_course_trans _ _ _ Hc1 Hc2) as Hc.
  destruct (IH (length (incoming w2))) with (w := w2) as (w3 & Ho3 & Hcl3 & Hr3);
    [rewrite Hi1, length_app, Hi2; simpl; lia|done|done|by rewrite (sc_end _ _ Hc)|by apply Hc|rewrite Hi2; simpl in *; lia|].
  exists w3. split_and!.
  - rewrite Ho3, Ho2, Ho1, Hi1, Hi2. by rewrite <- app_assoc.
  - rewrite Hcl3. apply Hc.
  - eapply runs_ploop_next; [|exact Hr3]. eapply runs_pbind; [exact Hr1|]. simpl.
    eapply runs_pbind; [exact Hr2|]. apply runs_pret.
Qed.

(** ** The whole connection *)

Lemma interleave_keeps (w : world kstream kev) :
  s_out (wk (interleave w)) = s_out (wk w) /\ s_closed (wk (interleave w)) = s_closed (wk w).
Proof.
  destruct (later_interleave w) as [m Hl]. pose proof (passed_later _ _ _ Hl) as Hp.
  split; [apply (passed_space _ _ Hp)|]. apply (sc_closed _ _ (proj1 (passed_course _ _ Hp))).
Qed.

Lemma interleave_duplex w : duplex w -> will_end w = true -> duplex (interleave w).
Proof.
  intros Hdu Hend. destruct (later_interleave w) as [m Hl].
  assert (good true readable w) as Hg.
  { apply duplex_good; [done..|]. unfold readable. destruct (k_end_in (wscript w) (wk w)) as (_ & -> & _).
    unfold will_end in Hend. rewrite Hend. by destruct (s_in _). }
  destruct (later_good true bytes (sk_recv 0 1 0) readable (reads_ok (sk_recv 0 1 0) 1 eq_refl (fun _ => eq_refl)) _ _ _ Hl Hg).
  pose proof (passed_length _ _ (passed_later _ _ _ Hl)). pose proof (du_len _ Hdu).
  split; [done..|lia|done|done|]. intros d. apply interleave_seen, Hdu.
Qed.

Lemma close_closes (conn : Socket) w :
  s_closed (wk w) = false ->
  exists w', s_out (wk w') = s_out (wk w) /\ s_closed (wk w') = true /\
    runs (handle (so_io conn)) (Socket.close conn) w (Ok tt) w'.
Proof.
  intros Hc. destruct (interleave_keeps w) as [Ho1 Hc1]. set (w1 := with_k (wk (interleave w)) (interleave w)).
  destruct (interleave_keeps w1) as [Ho2 Hc2].
  eexists. split_and!; last first.
  - eapply runs_pbind; [apply runs_pcall; simpl; by rewrite Hc1, Hc|]. simpl.
    eapply runs_pbind; [apply runs_pop; simpl; by rewrite bool_decide_true by done|].
    apply runs_pcall. simpl. done.
  - done.
  - simpl. match goal with |- s_out (wk (interleave ?x)) = _ => rewrite (proj1 (interleave_keeps x)) end.
    simpl. fold w1. rewrite Ho2. unfold w1. simpl. by rewrite Ho1.
Qed.

Lemma echo_client_runs (conn : Socket) w :
  duplex w -> will_end w = true -> orderly (s_eof (wk w)) (wscript w) = true ->
  s_closed (wk w) = false -> length (incoming w) < space_end w ->
  exists w', s_out (wk w') = s_out (wk w) ++ incoming w /\ s_closed (wk w') = true /\
    runs (handle (so_io conn)) (echo_client conn) w (Ok tt) w'.
Proof.
  intros Hdu Hend Hord Hcl Hsp. destruct (later_interleave w) as [m Hl].
  pose proof (passed_later _ _ _ Hl) as Hp. destruct (passed_course _ _ Hp) as [Hc Hin].
  destruct (passed_space _ _ Hp) as [Hse Hout]. set (w1 := interleave w) in *.
  assert (runs (handle (so_io conn)) (no_delay conn) w (Ok tt) w1) as Hopt.
  { eapply runs_ptry_else_ok; [|apply runs_pret]. apply runs_pcall. simpl. by rewrite with_k_same. }
  destruct (echo_loop_echoes conn w1) as (w2 & Ho2 & Hc2 & Hr2);
    [by apply interleave_duplex|by rewrite (sc_end _ _ Hc)|by apply Hc|by rewrite Hin, Hse|].
  destruct (close_closes conn w2) as (w3 & Ho3 & Hc3 & Hr3); [by rewrite Hc2, (sc_closed _ _ Hc)|].
  exists w3. split_and!; [by rewrite Ho3, Ho2, Hin, Hout|done|].
  eapply runs_pbind; [exact Hopt|]. by eapply runs_pfinally.
Qed.


(** "hi" arrives in two pieces and room for it comes one byte at a time, while one call of each kind
    is interrupted. *)
Definition demo_echo_world : world kstream kev :=
  mkW (mkKs [] false 0 [] false) [] (io_new 5) [] 0
    [Some (EvData [Byte.x68]); None; Some (EvSpace 1); None; Some (EvData [Byte.x69]); Some EvEof; None; None;
     Some (EvSpace 2); None]
    [0; 1; 0; 2] [false; true; false; true] (mkObj false None []).

Lemma demo_echo_duplex : duplex demo_echo_world.
Proof.
  split; simpl; try done.
  - lia.
  - set_solver.
  - by intros [] e.
  - intros d. split; simpl; [constructor|by vm_compute|by destruct d].
Qed.

