(* ===== verification/Spawn.v ===== *)
(** * Spawning and joining tasks

    [spawn], [spawn.without_results], [spawn.without_tracking], [map] and [map_blocking] of
    [src/tonio/_ctl.py] and [src/tonio/_colored/_ctl.py], over the [Result] of
    [src/src/events.rs] and the [Barrier] of [src/src/sync.rs] and [src/tonio/_sync.py].
    The wrappers of the children and the joining coroutine are tasks of one pool, interleaved
    at every access to the barrier, the results and the list of errors. *)

From stdpp Require Import base numbers list strings.
From Stdlib Require Import ZArith Lia.
From ITree Require Import ITree ITreeFacts.
From S2P Require Import Prelude Coro Os.

Open Scope tonio_scope.
Open Scope nat_scope.
#[local] Set Warnings "-clear-no-such-hyp".

(** ** [Result]: a fixed number of slots *)

Record ResultHolder := mkResult { rh_size : nat; rh_data : list pyobj }.

Definition ResultHolder_new (size : nat) : ResultHolder := mkResult size (replicate size PNone).

(** [store]; an index out of range panics. *)
Definition ResultHolder_store (value : pyobj) (index : option nat) (self : ResultHolder)
    : option ResultHolder :=
  let index := default 0 index in
  if index <? length (rh_data self)
  then Some (mkResult (rh_size self) (<[index:=value]> (rh_data self))) else None.

(** [fetch]: the value of a single slot, the list of the values otherwise. *)
Definition ResultHolder_fetch (self : ResultHolder) : pyobj :=
  match rh_size self with
  | 1 => default PNone (head (rh_data self))
  | _ => PList (rh_data self)
  end.

(** ** The operations of the tasks *)

(** [CAwait i] is [yield coro] of child [i]: it answers with what the coroutine returns or
    raises.  The barrier's counter and event are accessed separately. *)
Variant ctlE : Type -> Type :=
| CAwait (i : nat) : ctlE (result pyobj)
| CStore (value : pyobj) (index : option nat) : ctlE unit
| CFetch : ctlE pyobj
| CAppendErr (e : exn) : ctlE unit
| CErrs : ctlE (list exn)
| CFetchAdd : ctlE nat
| CSetEvent : ctlE unit
| CWait : ctlE (result unit).

(** ** [Barrier] *)

Definition Barrier_ack (value : nat) : pyM ctlE nat :=
  let! count := pop CFetchAdd in
  (if value <=? count + 1 then pop CSetEvent else pret tt) ;;;
  pret count.

Definition Barrier_wait (value : nat) : pyM ctlE nat :=
  let! count := Barrier_ack value in
  pcall CWait ;;;
  pret count.

(** ** [spawn] *)

Module Spawn.
Definition wrapper (value idx : nat) : pyM ctlE pyobj :=
  pfinally
    (ptry (let! ret := pcall (CAwait idx) in pop (CStore ret (Some idx)) ;;; pret PNone)
       (fun e => if is_Exception e then Some (pop (CAppendErr e) ;;; pret PNone) else None))
    (Barrier_ack value ;;; pret tt).

Definition raise_errs : pyM ctlE unit :=
  let! errs := pop CErrs in
  match errs with [] => pret tt | _ => praise (ExceptionGroup errs) end.

Definition join (value : nat) : pyM ctlE pyobj :=
  Barrier_wait value ;;; raise_errs ;;; pop CFetch.

(** The tasks given to the runtime and the coroutine returned. *)
Definition call (n : nat) : list (pyM ctlE pyobj) * pyM ctlE pyobj :=
  let value := n + 1 in
  (wrapper value <$> seq 0 n, join value).

Definition wrapper_without_results (value idx : nat) : pyM ctlE pyobj :=
  pfinally
    (ptry (pcall (CAwait idx) ;;; pret PNone)
       (fun e => if is_Exception e then Some (pop (CAppendErr e) ;;; pret PNone) else None))
    (Barrier_ack value ;;; pret tt).

Definition join_without_results (value : nat) : pyM ctlE pyobj :=
  Barrier_wait value ;;; raise_errs ;;; pret PNone.

Definition without_results (n : nat) : list (pyM ctlE pyobj) * pyM ctlE pyobj :=
  let value := n + 1 in
  (wrapper_without_results value <$> seq 0 n, join_without_results value).

Definition without_tracking (n : nat) : list (pyM ctlE pyobj) :=
  (fun i => pcall (CAwait i)) <$> seq 0 n.

(** [map(fn, xs)]: child [i] is [fn(xs[i])]; [map_blocking]: it is [spawn_blocking(fn, xs[i])]. *)
Definition map_join (n : nat) (join : pyM ctlE pyobj) : pyM ctlE pyobj :=
  let! ret := join in
  pret (if n =? 1 then PList [ret] else ret).

Definition map (n : nat) : list (pyM ctlE pyobj) * pyM ctlE pyobj :=
  let '(tasks, join) := call n in (tasks, map_join n join).
Definition map_blocking (n : nat) : list (pyM ctlE pyobj) * pyM ctlE pyobj :=
  let '(tasks, join) := call n in (tasks, map_join n join).
End Spawn.

Module ColoredSpawn.
Definition wrapper (value idx : nat) : pyM ctlE pyobj :=
  pfinally
    (ptry (let! ret := pcall (CAwait idx) in pop (CStore ret (Some idx)) ;;; pret PNone)
       (fun e => if is_Exception e then Some (pop (CAppendErr e) ;;; pret PNone) else None))
    (Barrier_ack value ;;; pret tt).

(** [Barrier.wait] of the [async] API. *)
Definition ColoredBarrier_wait (value : nat) : pyM ctlE nat :=
  let! count := Barrier_ack value in
  pcall CWait ;;;
  pret count.

Definition SpawnJoinCollect_wait (value : nat) : pyM ctlE pyobj :=
  ColoredBarrier_wait value ;;; Spawn.raise_errs ;;; pop CFetch.

Definition SpawnJoin_wait (value : nat) : pyM ctlE pyobj :=
  ColoredBarrier_wait value ;;; Spawn.raise_errs ;;; pret PNone.

Definition call (n : nat) : list (pyM ctlE pyobj) * pyM ctlE pyobj :=
  let value := n + 1 in
  (wrapper value <$> seq 0 n, SpawnJoinCollect_wait value).

Definition wrapper_without_results (value idx : nat) : pyM ctlE pyobj :=
  pfinally
    (ptry (pcall (CAwait idx) ;;; pret PNone)
       (fun e => if is_Exception e then Some (pop (CAppendErr e) ;;; pret PNone) else None))
    (Barrier_ack value ;;; pret tt).

Definition without_results (n : nat) : list (pyM ctlE pyobj) * pyM ctlE pyobj :=
  let value := n + 1 in
  (wrapper_without_results value <$> seq 0 n, SpawnJoin_wait value).

Definition without_tracking (n : nat) : list (pyM ctlE pyobj) :=
  (fun i => pcall (CAwait i)) <$> seq 0 n.

Definition map (n : nat) : list (pyM ctlE pyobj) * pyM ctlE pyobj :=
  let '(tasks, join) := call n in (tasks, Spawn.map_join n join).
Definition map_blocking (n : nat) : list (pyM ctlE pyobj) * pyM ctlE pyobj :=
  let '(tasks, join) := call n in (tasks, Spawn.map_join n join).
End ColoredSpawn.
