(* ===== verification/SpawnProps.v ===== *)
(** * Joining spawned tasks: every interleaving

    A pool of the wrappers of the children and the joining coroutine.  The invariant ties
    the barrier, the result slots and the list of errors to where every task stands; from it
    follow what a join returns and that it returns. *)

From stdpp Require Import base numbers list strings.
From Stdlib Require Import ZArith Lia.
From ITree Require Import ITree ITreeFacts.
From S2P Require Import Prelude Coro Os Spawn.

Open Scope tonio_scope.
Open Scope nat_scope.
#[local] Set Warnings "-clear-no-such-hyp".

(** ** The shared state *)

Record spawn_state := mkSp {
  sp_count : nat; sp_event : bool; sp_res : ResultHolder; sp_errs : list exn
}.

Definition spawn_init (n : nat) : spawn_state := mkSp 0 false (ResultHolder_new n) [].

(** [outs] gives how each child's coroutine ends ([None]: it never does).  The wait for the
    barrier ends when its event is set or, where cancellation may strike ([canc]), with
    [CancelledError] at any time. *)
Definition spawn_sem (canc : bool) (outs : list (option (result pyobj))) (X : Type) (tid : nat) (e : ctlE X)
    (s : spawn_state) (x : X) (s' : spawn_state) : Prop :=
  match e in ctlE X return X -> Prop with
  | CAwait i => fun x => outs !! i = Some (Some x) /\ s' = s
  | CStore v idx => fun _ =>
      exists res, ResultHolder_store v idx (sp_res s) = Some res /\
        s' = mkSp (sp_count s) (sp_event s) res (sp_errs s)
  | CFetch => fun x => x = ResultHolder_fetch (sp_res s) /\ s' = s
  | CAppendErr e => fun _ => s' = mkSp (sp_count s) (sp_event s) (sp_res s) (sp_errs s ++ [e])
  | CErrs => fun x => x = sp_errs s /\ s' = s
  | CFetchAdd => fun x => x = sp_count s /\
      s' = mkSp (S (sp_count s)) (sp_event s) (sp_res s) (sp_errs s)
  | CSetEvent => fun _ => s' = mkSp (sp_count s) true (sp_res s) (sp_errs s)
  | CWait => fun x => (x = Ok tt /\ sp_event s = true \/ canc = true /\ x = Err CancelledError) /\ s' = s
  end x.

(** ** The pools *)

Inductive kind := Collect | NoResults | Map.
#[export] Instance kind_eq_dec : EqDecision kind.
Proof. solve_decision. Defined.

Definition pool_of (p : list (pyM ctlE pyobj) * pyM ctlE pyobj) : list (pyM ctlE pyobj) :=
  p.1 ++ [p.2].

Definition spawn_pool (k : kind) (n : nat) : list (pyM ctlE pyobj) :=
  pool_of (match k with
           | Collect => Spawn.call n | NoResults => Spawn.without_results n | Map => Spawn.map n
           end).
Definition colored_spawn_pool (k : kind) (n : nat) : list (pyM ctlE pyobj) :=
  pool_of (match k with
           | Collect => ColoredSpawn.call n | NoResults => ColoredSpawn.without_results n
           | Map => ColoredSpawn.map n
           end).

Definition wrap (k : kind) (n i : nat) : pyM ctlE pyobj :=
  match k with
  | NoResults => Spawn.wrapper_without_results (n + 1) i | _ => Spawn.wrapper (n + 1) i
  end.
Definition joiner (k : kind) (n : nat) : pyM ctlE pyobj :=
  match k with
  | Collect => Spawn.join (n + 1) | NoResults => Spawn.join_without_results (n + 1)
  | Map => Spawn.map_join n (Spawn.join (n + 1))
  end.

Lemma spawn_pool_eq k n : spawn_pool k n = (wrap k n <$> seq 0 n) ++ [joiner k n].
Proof. by destruct k. Qed.

(** ** Control points *)

(** What a wrapper ends with, and the value of its slot. *)
Definition ret_of (o : result pyobj) : result pyobj :=
  match o with Err e => if is_Exception e then Ok PNone else Err e | Ok _ => Ok PNone end.

Inductive sphase : Type :=
| W0 (i : nat)
| W1 (i : nat) (v : pyobj)
| W2 (e : exn)
| W3 (o : result pyobj)
| W4 (o : result pyobj)
| WF (o : result pyobj)
| J0 | J1 | J2 | J3 | J4
| JF (r : result pyobj).

Section Pool.
Context (k : kind) (n : nat).

Definition finish (o : result pyobj) : pyM ctlE pyobj :=
  Vis CFetchAdd (fun c => if n + 1 <=? c + 1 then Vis CSetEvent (fun _ => Ret (ret_of o))
                          else Ret (ret_of o)).

Definition fetched (v : pyobj) : pyobj :=
  match k with Map => if n =? 1 then PList [v] else v | _ => v end.

Definition j3 : pyM ctlE pyobj := Vis CFetch (fun v => Ret (Ok (fetched v))).
Definition j2 : pyM ctlE pyobj :=
  Vis CErrs (fun errs =>
    match errs with
    | [] => match k with NoResults => Ret (Ok PNone) | _ => j3 end
    | _ => Ret (Err (ExceptionGroup errs))
    end).
Definition j1 : pyM ctlE pyobj :=
  Vis CWait (fun r => match r with Ok _ => j2 | Err x => Ret (Err x) end).

Definition sp_tree (p : sphase) : pyM ctlE pyobj :=
  match p with
  | W0 i => wrap k n i
  | W1 i v => Vis (CStore v (Some i)) (fun _ => finish (Ok v))
  | W2 e => Vis (CAppendErr e) (fun _ => finish (Err e))
  | W3 o => finish o
  | W4 o => Vis CSetEvent (fun _ => Ret (ret_of o))
  | WF o => Ret (ret_of o)
  | J0 => joiner k n
  | J1 => j1
  | J2 => j2
  | J3 => j3
  | J4 => Vis CSetEvent (fun _ => j1)
  | JF r => Ret r
  end.

(** The rest of a wrapper whose coroutine ended with [o]. *)
Definition after (i : nat) (o : result pyobj) : sphase :=
  match o with
  | Ok v => match k with NoResults => W3 (Ok v) | _ => W1 i v end
  | Err e => if is_Exception e then W2 e else W3 (Err e)
  end.

End Pool.

Lemma ack_finish n o :
  ITree.bind (Barrier_ack (n + 1) ;;; pret tt)
    (fun rf => match rf with Ok _ => Ret (ret_of o) | Err x => Ret (Err x) end) ≅ finish n o.
Proof.
  unfold Barrier_ack, finish. rewrite pbind_assoc, pbind_pop, bind_vis.
  apply eqit_Vis. intros c. destruct (_ <=? _).
  - rewrite pbind_assoc, pbind_pop, bind_vis. apply eqit_Vis. intros [].
    rewrite pbind_pret. unfold pret. by rewrite bind_ret_l.
  - rewrite !pbind_pret. unfold pret. by rewrite bind_ret_l.
Qed.

Lemma wrap_eq k n i : wrap k n i ≅ Vis (CAwait i) (fun o => sp_tree k n (after k i o)).
Proof.
  assert (forall e, is_Exception e = true ->
    ITree.bind (pop (CAppendErr e) ;;; pret PNone) (fun r =>
      ITree.bind (Barrier_ack (n + 1) ;;; pret tt)
        (fun rf => match rf with Ok _ => Ret r | Err x => Ret (Err x) end)) ≅ sp_tree k n (W2 e)) as He.
  { intros e He. rewrite pbind_pop, bind_vis. apply eqit_Vis. intros []. unfold pret.
    rewrite bind_ret_l. etransitivity; [|apply (ack_finish n (Err e))]. simpl. by rewrite He. }
  assert (wrap k n i = match k with NoResults => Spawn.wrapper_without_results (n + 1) i
                       | _ => Spawn.wrapper (n + 1) i end) as -> by done.
  destruct k; unfold Spawn.wrapper, Spawn.wrapper_without_results, pfinally, ptry, ptry_else;
    rewrite pbind_pcall, !bind_vis; apply eqit_Vis; intros [v|e]; simpl.
  2,4,6: unfold praise; rewrite bind_ret_l; destruct (is_Exception e) eqn:Hx;
    [by apply He|rewrite bind_ret_l; etransitivity; [|apply (ack_finish n (Err e))];
     simpl; by rewrite Hx].
  2: unfold pret; rewrite !bind_ret_l; apply (ack_finish n (Ok v)).
  all: rewrite pbind_pop, !bind_vis; apply eqit_Vis; intros []; unfold pret;
    rewrite !bind_ret_l; apply (ack_finish n (Ok v)).
Qed.

Lemma wait_eq n {A} (c : pyM ctlE A) :
  Barrier_wait (n + 1) ;;; c ≅
  Vis CFetchAdd (fun x =>
    let w := Vis CWait (fun r => match r with Ok _ => c | Err x => Ret (Err x) end) in
    if n + 1 <=? x + 1 then Vis CSetEvent (fun _ => w) else w).
Proof.
  unfold Barrier_wait, Barrier_ack. rewrite !pbind_assoc, pbind_pop. apply eqit_Vis. intros x.
  assert (forall y : nat, (let! count := pret y in pcall CWait ;;; pret count) ;;; c ≅
    Vis CWait (fun r => match r with Ok _ => c | Err x => Ret (Err x) end)) as Hw.
  { intros y. rewrite pbind_pret, pbind_assoc, pbind_pcall. apply eqit_Vis.
    intros [u|e]; [by rewrite pbind_pret|done]. }
  simpl. destruct (_ <=? _).
  - rewrite !pbind_assoc, pbind_pop. apply eqit_Vis. intros [].
    by rewrite <- (Hw x), pbind_assoc.
  - rewrite !pbind_assoc, pbind_pret. by rewrite <- (Hw x), pbind_assoc.
Qed.

Lemma errs_eq {A} (c : pyM ctlE A) :
  Spawn.raise_errs ;;; c ≅
  Vis CErrs (fun errs => match errs with [] => c | _ => Ret (Err (ExceptionGroup errs)) end).
Proof.
  unfold Spawn.raise_errs. rewrite pbind_assoc, pbind_pop. apply eqit_Vis.
  intros [|e errs]; [by rewrite pbind_pret|by rewrite pbind_praise].
Qed.

Lemma joiner_eq k n : joiner k n ≅
  Vis CFetchAdd (fun x => if n + 1 <=? x + 1 then Vis CSetEvent (fun _ => j1 k n) else j1 k n).
Proof.
  assert (forall c, c ≅ j2 k n -> Barrier_wait (n + 1) ;;; c ≅
    Vis CFetchAdd (fun x => if n + 1 <=? x + 1 then Vis CSetEvent (fun _ => j1 k n) else j1 k n))
    as Hj.
  { intros c Hc. rewrite wait_eq. apply eqit_Vis. intros x. simpl.
    destruct (_ <=? _); repeat (apply eqit_Vis; intros ?); by case_match. }
  destruct k; simpl; unfold Spawn.join, Spawn.join_without_results, Spawn.map_join.
  - apply Hj. rewrite errs_eq. apply eqit_Vis. intros [|]; [|done].
    apply bind_trigger.
  - apply Hj. rewrite errs_eq. apply eqit_Vis. by intros [|].
  - rewrite pbind_assoc. apply Hj. rewrite pbind_assoc, errs_eq. apply eqit_Vis.
    intros [|]; [|done]. unfold j3. rewrite pbind_pop. apply eqit_Vis. done.
Qed.

(** ** Steps between control points *)

Section Steps.
Context (canc : bool) (k : kind) (n : nat) (outs : list (option (result pyobj))).

Definition incr (s : spawn_state) : spawn_state :=
  mkSp (S (sp_count s)) (sp_event s) (sp_res s) (sp_errs s).
Definition with_event (s : spawn_state) : spawn_state :=
  mkSp (sp_count s) true (sp_res s) (sp_errs s).
Definition last_ack (s : spawn_state) : bool := n + 1 <=? sp_count s + 1.

Definition after_errs (errs : list exn) : sphase :=
  match errs with
  | [] => match k with NoResults => JF (Ok PNone) | _ => J3 end
  | _ => JF (Err (ExceptionGroup errs))
  end.

Inductive sp_step (s : spawn_state) : sphase -> sphase -> spawn_state -> Prop :=
| sp_W0 i o : outs !! i = Some (Some o) -> sp_step s (W0 i) (after k i o) s
| sp_W1 i v res : ResultHolder_store v (Some i) (sp_res s) = Some res ->
    sp_step s (W1 i v) (W3 (Ok v)) (mkSp (sp_count s) (sp_event s) res (sp_errs s))
| sp_W2 e : sp_step s (W2 e) (W3 (Err e))
    (mkSp (sp_count s) (sp_event s) (sp_res s) (sp_errs s ++ [e]))
| sp_W3 o : sp_step s (W3 o) (if last_ack s then W4 o else WF o) (incr s)
| sp_W4 o : sp_step s (W4 o) (WF o) (with_event s)
| sp_J0 : sp_step s J0 (if last_ack s then J4 else J1) (incr s)
| sp_J4 : sp_step s J4 J1 (with_event s)
| sp_J1_ok : sp_event s = true -> sp_step s J1 J2 s
| sp_J1_cancel : canc = true -> sp_step s J1 (JF (Err CancelledError)) s
| sp_J2 : sp_step s J2 (after_errs (sp_errs s)) s
| sp_J3 : sp_step s J3 (JF (Ok (fetched k n (ResultHolder_fetch (sp_res s))))) s.

(** The operation at the head of a control point. *)
Definition sp_head (p : sphase) : option {X : Type & (ctlE X * (X -> pyM ctlE pyobj))%type} :=
  match p with
  | W0 i => Some (existT _ (CAwait i, fun o => sp_tree k n (after k i o)))
  | W1 i v => Some (existT _ (CStore v (Some i), fun _ => finish n (Ok v)))
  | W2 e => Some (existT _ (CAppendErr e, fun _ => finish n (Err e)))
  | W3 o => Some (existT _ (CFetchAdd, fun c => sp_tree k n (if n + 1 <=? c + 1 then W4 o else WF o)))
  | W4 o => Some (existT _ (CSetEvent, fun _ => sp_tree k n (WF o)))
  | J0 => Some (existT _ (CFetchAdd, fun c => sp_tree k n (if n + 1 <=? c + 1 then J4 else J1)))
  | J1 => Some (existT _ (CWait, fun r => match r with Ok _ => j2 k n | Err x => Ret (Err x) end))
  | J2 => Some (existT _ (CErrs, fun errs => sp_tree k n (after_errs errs)))
  | J3 => Some (existT _ (CFetch, fun v => Ret (Ok (fetched k n v))))
  | J4 => Some (existT _ (CSetEvent, fun _ => j1 k n))
  | WF _ | JF _ => None
  end.

Lemma sp_head_eq p X (e : ctlE X) c :
  sp_head p = Some (existT X (e, c)) -> sp_tree k n p ≅ Vis e c.
Proof.
  destruct p; intros Hh; simpl in Hh; try done; injection Hh; intros; subst;
    repeat match goal with
    H : existT _ _ = existT _ _ |- _ => apply Eqdep.EqdepTheory.inj_pair2 in H; simplify_eq end;
    simpl.
  - apply wrap_eq.
  - done.
  - done.
  - apply eqit_Vis. intros c. by destruct (_ <=? _).
  - done.
  - rewrite joiner_eq. apply eqit_Vis. intros c. by destruct (_ <=? _).
  - done.
  - apply eqit_Vis. intros [|]; [|done]. simpl. by destruct k.
  - done.
  - done.
Qed.

Lemma sp_tree_step p i t s t' s' :
  t ≅ sp_tree k n p -> tstep (spawn_sem canc outs) i t s t' s' ->
  exists p', t' ≅ sp_tree k n p' /\ sp_step s p p' s'.
Proof.
  intros Ht Hs.
  assert (forall X (e : ctlE X) c, sp_head p = Some (existT X (e, c)) ->
    exists x, t' ≅ c x /\ spawn_sem canc outs X i e s x s') as Hvis.
  { intros X e c He%sp_head_eq. eapply (tstep_Vis_inv _ i t); [by etransitivity|done]. }
  destruct p as [j|j v|e|o|o|o| | | | | |r]; simpl in Hvis;
    try (edestruct Hvis as (x & Hk & Hsem); [reflexivity|]; simpl in Hsem, Hk).
  - destruct Hsem as [Ho ->]. exists (after k j x). split; [done|by constructor].
  - destruct Hsem as (res & Hr & ->). exists (W3 (Ok v)). split; [done|by constructor].
  - subst s'. exists (W3 (Err e)). split; [done|constructor].
  - destruct Hsem as [-> ->]. eexists. split; [exact Hk|constructor].
  - subst s'. exists (WF o). split; [done|constructor].
  - exfalso. by eapply tstep_Ret_inv.
  - destruct Hsem as [-> ->]. eexists. split; [exact Hk|constructor].
  - destruct Hsem as [[[-> He]|[Hc ->]] ->]; [exists J2|exists (JF (Err CancelledError))];
      (split; [done|by constructor]).
  - destruct Hsem as [-> ->]. eexists. split; [exact Hk|constructor].
  - destruct Hsem as [-> ->].
    exists (JF (Ok (fetched k n (ResultHolder_fetch (sp_res s))))). split; [done|constructor].
  - subst s'. exists J1. split; [done|constructor].
  - exfalso. by eapply tstep_Ret_inv.
Qed.

(** Every step moves a task closer to its end. *)
Definition rank (p : sphase) : nat :=
  match p with
  | W0 _ => 4 | W1 _ _ | W2 _ => 3 | W3 _ => 2 | W4 _ => 1 | WF _ => 0
  | J0 => 5 | J4 => 4 | J1 => 3 | J2 => 2 | J3 => 1 | JF _ => 0
  end.

Lemma sp_step_rank s p p' s' : sp_step s p p' s' -> rank p' < rank p.
Proof.
  destruct 1 as [i o Ho| | | | | | | | | |]; unfold after, after_errs;
    repeat case_match; simpl; lia.
Qed.

(** ** The invariant *)

(** Of a child at a control point: has it acknowledged, is it about to set the event, what
    has it stored, which error has it recorded. *)
Definition acked (p : sphase) : bool := match p with W4 _ | WF _ => true | _ => false end.
Definition slot_of (o : result pyobj) : pyobj :=
  match k, o with NoResults, _ => PNone | _, Ok v => v | _, Err _ => PNone end.
Definition stored (p : sphase) : pyobj :=
  match p with W3 o | W4 o | WF o => slot_of o | _ => PNone end.
Definition exception_of (o : result pyobj) : option exn :=
  match o with Err e => if is_Exception e then Some e else None | Ok _ => None end.
Definition recorded (p : sphase) : option exn :=
  match p with W3 o | W4 o | WF o => exception_of o | _ => None end.

(** Child [i] stands at a point that fits how its coroutine ends. *)
Definition child_at (i : nat) (p : sphase) : Prop :=
  match p with
  | W0 j => j = i
  | W1 j v => j = i /\ outs !! i = Some (Some (Ok v)) /\ k <> NoResults
  | W2 e => outs !! i = Some (Some (Err e)) /\ is_Exception e = true
  | W3 o | W4 o | WF o => outs !! i = Some (Some o)
  | _ => False
  end.

(** What the join returns when it is not cancelled. *)
Definition join_result (s : spawn_state) : result pyobj :=
  match sp_errs s with
  | [] => Ok (match k with NoResults => PNone | _ => fetched k n (ResultHolder_fetch (sp_res s)) end)
  | errs => Err (ExceptionGroup errs)
  end.

Definition joiner_at (p : sphase) (s : spawn_state) : Prop :=
  match p with
  | J0 | J1 | J4 => True
  | J2 => sp_event s = true
  | J3 => sp_event s = true /\ sp_errs s = [] /\ k <> NoResults
  | JF r => canc = true /\ r = Err CancelledError \/ sp_event s = true /\ r = join_result s
  | _ => False
  end.

Definition joined (j : sphase) : nat := match j with J0 => 0 | _ => 1 end.

Definition pending (p : sphase) : bool := match p with W4 _ | J4 => true | _ => false end.

(** The children stand at [cs] and the joining coroutine at [j]. *)
Record sp_inv (cs : list sphase) (j : sphase) (s : spawn_state) : Prop := {
  inv_len : length cs = n;
  inv_child : forall i p, cs !! i = Some p -> child_at i p;
  inv_joiner : joiner_at j s;
  inv_count : sp_count s = countb acked cs + joined j;
  inv_res : sp_res s = mkResult n (stored <$> cs);
  inv_errs : sp_errs s ≡ₚ omap recorded cs;
  inv_event : sp_event s = true -> sp_count s = n + 1;
  inv_pending : forall i p, (cs ++ [j]) !! i = Some p -> pending p = true -> sp_count s = n + 1;
  inv_set : sp_count s = n + 1 -> sp_event s = true \/
    exists i p, (cs ++ [j]) !! i = Some p /\ pending p = true
}.

Lemma inv_all_acked cs j s : sp_inv cs j s -> sp_count s = n + 1 ->
  forall i p, cs !! i = Some p -> acked p = true.
Proof.
  intros Hi Hc i p Hp. destruct (acked p) eqn:Ha; [done|exfalso].
  pose proof (inv_count _ _ _ Hi) as Hn. pose proof (inv_len _ _ _ Hi) as Hl.
  pose proof (countb_lt_length _ _ _ _ Hp Ha) as Hlt. destruct j; simpl in Hn; lia.
Qed.

(** While a child has not acknowledged, the event is not set and nobody is about to set it. *)
Lemma inv_early cs j s i p : sp_inv cs j s -> cs !! i = Some p -> acked p = false ->
  sp_count s <> n + 1 /\ sp_event s = false /\
  (forall i p, (cs ++ [j]) !! i = Some p -> pending p = false) /\
  (match j with J0 | J1 => True | JF r => canc = true /\ r = Err CancelledError | _ => False end).
Proof.
  intros Hi Hp Ha.
  assert (sp_count s <> n + 1) as Hc.
  { intros Hc. pose proof (inv_all_acked _ _ _ Hi Hc _ _ Hp). congruence. }
  assert (sp_event s = false) as He.
  { destruct (sp_event s) eqn:He; [|done]. by apply (inv_event _ _ _ Hi) in He. }
  assert (forall i p, (cs ++ [j]) !! i = Some p -> pending p = false) as Hpe.
  { intros i' p' Hp'. destruct (pending p') eqn:Hpp; [|done].
    exfalso. by eapply Hc, (inv_pending _ _ _ Hi). }
  split_and!; try done. pose proof (inv_joiner _ _ _ Hi) as Hj.
  assert ((cs ++ [j]) !! length cs = Some j) as Hlast.
  { by rewrite lookup_app_r, Nat.sub_diag by lia. }
  apply Hpe in Hlast. destruct j; simpl in *; try done; rewrite He in Hj; naive_solver.
Qed.

(** A step of a child that has not acknowledged yet and does not acknowledge. *)
Lemma inv_child_quiet cs j s i p p' s' : sp_inv cs j s -> cs !! i = Some p ->
  acked p = false -> acked p' = false -> child_at i p' ->
  sp_count s' = sp_count s -> sp_event s' = sp_event s ->
  sp_res s' = mkResult n (<[i:=stored p']> (stored <$> cs)) ->
  sp_errs s' ≡ₚ omap recorded (<[i:=p']> cs) ->
  sp_inv (<[i:=p']> cs) j s'.
Proof.
  intros Hi Hp Ha Ha' Hc Hcnt Hev Hres Herr.
  destruct (inv_early _ _ _ _ _ Hi Hp Ha) as (Hn & He & Hpe & Hj).
  pose proof (lookup_lt_Some _ _ _ Hp) as Hlt.
  assert (forall x q, (<[i:=p']> cs ++ [j]) !! x = Some q -> pending q = false) as Hpe'.
  { intros x q Hq. rewrite <- insert_app_l in Hq by done.
    destruct (decide (x = i)) as [->|Hne].
    - rewrite list_lookup_insert_eq in Hq by (rewrite length_app; lia). simplify_eq.
      by destruct q.
    - rewrite list_lookup_insert_ne in Hq by done. by eapply Hpe. }
  constructor.
  - rewrite length_insert. apply Hi.
  - intros x q Hq. destruct (decide (x = i)) as [->|Hne].
    + rewrite list_lookup_insert_eq in Hq by done. by simplify_eq.
    + rewrite list_lookup_insert_ne in Hq by done. by apply (inv_child _ _ _ Hi).
  - destruct j; simpl; naive_solver.
  - pose proof (countb_insert acked _ _ _ p' Hp) as Hcb. rewrite Ha, Ha' in Hcb.
    rewrite Hcnt, (inv_count _ _ _ Hi). lia.
  - by rewrite Hres, list_fmap_insert.
  - done.
  - rewrite Hev, He. done.
  - intros x q Hq Hpq. by rewrite (Hpe' _ _ Hq) in Hpq.
  - rewrite Hcnt. done.
Qed.

Lemma inv_bound cs j s : sp_inv cs j s -> sp_count s <= n + 1.
Proof.
  intros Hi. pose proof (inv_count _ _ _ Hi). pose proof (inv_len _ _ _ Hi).
  pose proof (countb_le_length acked cs). destruct j; simpl in *; lia.
Qed.

Lemma stored_insert_id (cs : list sphase) i p p' : cs !! i = Some p -> stored p' = stored p ->
  <[i:=stored p']> (stored <$> cs) = stored <$> cs.
Proof. intros Hp ->. apply list_insert_id. by rewrite list_lookup_fmap, Hp. Qed.

Lemma lookup_pool (cs : list sphase) i (p' j : sphase) x q : i < length cs ->
  (<[i:=p']> cs ++ [j]) !! x = Some q -> x = i /\ q = p' \/ x <> i /\ (cs ++ [j]) !! x = Some q.
Proof.
  intros Hlt Hq. rewrite <- insert_app_l in Hq by done. destruct (decide (x = i)) as [->|Hne].
  - rewrite list_lookup_insert_eq in Hq by (rewrite length_app; lia). naive_solver.
  - rewrite list_lookup_insert_ne in Hq by done. naive_solver.
Qed.

(** A child acknowledges. *)
Lemma inv_child_ack cs j s i o : sp_inv cs j s -> cs !! i = Some (W3 o) ->
  sp_inv (<[i:=if last_ack s then W4 o else WF o]> cs) j (incr s).
Proof.
  intros Hi Hp. destruct (inv_early _ _ _ _ _ Hi Hp eq_refl) as (Hn & He & Hpe & Hj).
  pose proof (lookup_lt_Some _ _ _ Hp) as Hlt. pose proof (inv_bound _ _ _ Hi) as Hb.
  set (p' := if last_ack s then W4 o else WF o).
  assert (stored p' = stored (W3 o) /\ recorded p' = recorded (W3 o) /\ acked p' = true) as
    (Hs & Hr & Ha) by (unfold p'; by destruct (last_ack s)).
  assert (pending p' = true <-> sp_count (incr s) = n + 1) as Hlast.
  { unfold p', last_ack. simpl. destruct (Nat.leb_spec (n + 1) (sp_count s + 1)); simpl; lia. }
  constructor.
  - rewrite length_insert. apply Hi.
  - intros x q Hq. destruct (decide (x = i)) as [->|Hne].
    + rewrite list_lookup_insert_eq in Hq by done. injection Hq as <-.
      pose proof (inv_child _ _ _ Hi _ _ Hp) as Hc. unfold p'. by destruct (last_ack s).
    + rewrite list_lookup_insert_ne in Hq by done. by apply (inv_child _ _ _ Hi).
  - destruct j; simpl; naive_solver.
  - pose proof (countb_insert acked _ _ _ p' Hp) as Hcb. rewrite Ha in Hcb. simpl in *.
    rewrite (inv_count _ _ _ Hi). lia.
  - simpl. rewrite (inv_res _ _ _ Hi). f_equal.
    by rewrite list_fmap_insert, (stored_insert_id _ _ _ _ Hp).
  - simpl. rewrite (omap_insert_same _ _ _ _ _ Hp) by done. apply Hi.
  - simpl. by rewrite He.
  - intros x q [[-> ->]|[_ Hq]]%lookup_pool Hpq; [by apply Hlast| |done].
    by rewrite (Hpe _ _ Hq) in Hpq.
  - intros Hc%Hlast. right. exists i, p'. split; [|done].
    rewrite lookup_app_l by (by rewrite length_insert). by apply list_lookup_insert_eq.
Qed.

(** The child that acknowledged last sets the event. *)
Lemma inv_child_set cs j s i o : sp_inv cs j s -> cs !! i = Some (W4 o) ->
  sp_inv (<[i:=WF o]> cs) j (with_event s).
Proof.
  intros Hi Hp. pose proof (lookup_lt_Some _ _ _ Hp) as Hlt.
  assert (sp_count s = n + 1) as Hc.
  { eapply (inv_pending _ _ _ Hi i (W4 o)); [|done]. by rewrite lookup_app_l. }
  constructor.
  - rewrite length_insert. apply Hi.
  - intros x q Hq. destruct (decide (x = i)) as [->|Hne].
    + rewrite list_lookup_insert_eq in Hq by done. simplify_eq. apply (inv_child _ _ _ Hi _ _ Hp).
    + rewrite list_lookup_insert_ne in Hq by done. by apply (inv_child _ _ _ Hi).
  - pose proof (inv_joiner _ _ _ Hi) as Hj. destruct j; simpl in *; naive_solver.
  - pose proof (countb_insert acked _ _ _ (WF o) Hp) as Hcb. simpl in *.
    rewrite (inv_count _ _ _ Hi). lia.
  - simpl. rewrite (inv_res _ _ _ Hi). f_equal.
    by rewrite list_fmap_insert, (stored_insert_id _ _ _ _ Hp).
  - simpl. rewrite (omap_insert_same _ _ _ _ _ Hp) by done. apply Hi.
  - done.
  - done.
  - by left.
Qed.

Lemma inv_child_step cs j s i p p' s' : sp_inv cs j s -> cs !! i = Some p ->
  sp_step s p p' s' -> sp_inv (<[i:=p']> cs) j s'.
Proof.
  intros Hi Hp Hs. pose proof (inv_child _ _ _ Hi _ _ Hp) as Hc.
  pose proof (inv_res _ _ _ Hi) as Hres. pose proof (inv_errs _ _ _ Hi) as Herr.
  destruct Hs as [x o Ho|x v res Hr|e|o|o| | | | | |]; simpl in Hc; try done.
  - subst x.
    assert (acked (after k i o) = false /\ stored (after k i o) = PNone /\
      recorded (after k i o) = None /\ child_at i (after k i o)) as (? & Hst & Hrec & ?).
    { destruct o as [v|e]; simpl; [destruct k eqn:Hk; simpl; unfold slot_of; rewrite ?Hk; naive_solver|].
      destruct (is_Exception e) eqn:He; simpl; [naive_solver|].
      unfold slot_of. rewrite He. by destruct k. }
    eapply inv_child_quiet; try done.
    + by rewrite Hres, (stored_insert_id _ _ _ _ Hp).
    + by rewrite (omap_insert_same _ _ _ _ _ Hp).
  - destruct Hc as (-> & Ho & Hk). unfold ResultHolder_store in Hr. rewrite Hres in Hr. simpl in Hr.
    case_match; simplify_eq. eapply inv_child_quiet; try done.
    + simpl. unfold slot_of. by destruct k.
    + by rewrite (omap_insert_same _ _ _ _ _ Hp).
  - destruct Hc as (Ho & He). eapply inv_child_quiet; try done.
    + simpl. rewrite Hres. f_equal. symmetry.
      apply (stored_insert_id _ _ _ (W3 (Err e)) Hp). simpl. unfold slot_of. by destruct k.
    + simpl. rewrite (omap_insert_new _ _ _ _ (W3 (Err e)) e Hp); [|done|simpl; by rewrite He].
      by rewrite Herr, Permutation_app_comm.
  - by apply inv_child_ack.
  - by apply inv_child_set.
Qed.

(** The joining coroutine moves on without touching the counter. *)
Lemma inv_joiner_move cs j j' s s' : sp_inv cs j s -> joined j = 1 -> joined j' = 1 ->
  pending j' = false -> joiner_at j' s' ->
  sp_count s' = sp_count s -> sp_res s' = sp_res s -> sp_errs s' = sp_errs s ->
  (sp_event s' = true -> sp_count s = n + 1) ->
  (sp_event s' = true \/ pending j = false /\ sp_event s' = sp_event s) ->
  sp_inv cs j' s'.
Proof.
  intros Hi Hj Hj' Hp Hat Hc Hr He Hev Hor. constructor; rewrite ?Hc, ?Hr, ?He; try apply Hi.
  - done.
  - rewrite Hj', <- Hj. apply Hi.
  - done.
  - intros x q Hq Hpq. apply lookup_snoc_Some in Hq as [[Hx Hq]|[_ <-]]; [|congruence].
    apply (inv_pending _ _ _ Hi x q); [by rewrite lookup_app_l|done].
  - intros Hn. destruct Hor as [Ht|[Hpj Heq]]; [by left|].
    destruct (inv_set _ _ _ Hi Hn) as [Ht|(x & q & Hq & Hpq)]; [left; congruence|].
    apply lookup_snoc_Some in Hq as [[Hx Hq]|[_ <-]]; [|congruence].
    right. exists x, q. by rewrite lookup_app_l.
Qed.

(** The joining coroutine acknowledges. *)
Lemma inv_joiner_ack cs s : sp_inv cs J0 s ->
  sp_inv cs (if last_ack s then J4 else J1) (incr s).
Proof.
  intros Hi. pose proof (inv_count _ _ _ Hi) as Hc. pose proof (inv_len _ _ _ Hi) as Hl.
  pose proof (countb_le_length acked cs) as Hle. simpl in Hc.
  assert (sp_event s = false) as He.
  { destruct (sp_event s) eqn:He; [|done]. apply (inv_event _ _ _ Hi) in He. lia. }
  assert (forall x q, cs !! x = Some q -> pending q = false) as Hpe.
  { intros x q Hq. destruct (pending q) eqn:Hpq; [|done]. exfalso.
    enough (sp_count s = n + 1) by lia. eapply (inv_pending _ _ _ Hi x q); [|done].
    rewrite lookup_app_l; [done|]. by eapply lookup_lt_Some. }
  set (j := if last_ack s then J4 else J1).
  assert (pending j = true <-> sp_count (incr s) = n + 1) as Hlast.
  { unfold j, last_ack. simpl. destruct (Nat.leb_spec (n + 1) (sp_count s + 1)); simpl; lia. }
  constructor; simpl; try apply Hi.
  - unfold j. by destruct (last_ack s).
  - assert (joined j = 1) as -> by (unfold j; by destruct (last_ack s)). lia.
  - by rewrite He.
  - intros x q Hq Hpq. apply lookup_snoc_Some in Hq as [[Hx Hq]|[_ <-]]; [|by apply Hlast].
    by rewrite (Hpe _ _ Hq) in Hpq.
  - intros Hn. right. exists (length cs), j. split; [|by apply Hlast].
    by rewrite lookup_app_r, Nat.sub_diag by lia.
Qed.

Lemma inv_joiner_step cs j j' s s' : sp_inv cs j s -> sp_step s j j' s' -> sp_inv cs j' s'.
Proof.
  intros Hi Hs. pose proof (inv_joiner _ _ _ Hi) as Hj. pose proof (inv_event _ _ _ Hi) as Hev.
  destruct Hs; simpl in Hj; try done.
  - by apply inv_joiner_ack.
  - eapply inv_joiner_move; try done; [|by left]. intros _.
    apply (inv_pending _ _ _ Hi (length cs) J4); [|done]. by rewrite lookup_app_r, Nat.sub_diag by lia.
  - eapply inv_joiner_move; try done. by right.
  - eapply inv_joiner_move; try done; [by left|by right].
  - assert (joiner_at (after_errs (sp_errs s)) s) as Hat.
    { unfold after_errs. destruct (sp_errs s) eqn:He; [|right; unfold join_result; by rewrite He].
      destruct k eqn:Hk; simpl; rewrite ?Hk; [done| |done].
      right. unfold join_result. by rewrite He, Hk. }
    eapply inv_joiner_move; try done; [| |by right]; unfold after_errs; by repeat case_match.
  - destruct Hj as (He & Hn & Hk). eapply inv_joiner_move; try done; [|by right].
    right. split; [done|]. unfold join_result. rewrite Hn. by destruct k.
Qed.

Definition sp_pool_inv (ps : list sphase) (s : spawn_state) : Prop :=
  exists cs j, ps = cs ++ [j] /\ sp_inv cs j s.

Lemma sp_pool_inv_step ps s i p p' s' :
  sp_pool_inv ps s -> ps !! i = Some p -> sp_step s p p' s' -> sp_pool_inv (<[i:=p']> ps) s'.
Proof.
  intros (cs & j & -> & Hi) Hp Hs. apply lookup_snoc_Some in Hp as [[Hlt Hp]|[-> <-]].
  - exists (<[i:=p']> cs), j. split; [by rewrite insert_app_l|]. by eapply inv_child_step.
  - exists cs, p'. split; [|by eapply inv_joiner_step].
    rewrite insert_app_r_alt, Nat.sub_diag by lia. done.
Qed.
End Steps.

(** Only the final control points return. *)
Lemma sp_ret_final k n p r : Ret r ≅ sp_tree k n p ->
  r = match p with WF o => ret_of o | JF r' => r' | _ => r end /\ sp_head k n p = None.
Proof.
  intros Hr. destruct (sp_head k n p) as [[X [e c]]|] eqn:Hh.
  - exfalso. eapply eq_Ret_Vis. rewrite Hr. by apply (sp_head_eq _ _ p).
  - destruct p; try done; apply eq_Ret_inj in Hr; by subst.
Qed.

(** ** What a join returns *)

Definition slot (o : result pyobj) : pyobj := match o with Ok v => v | Err _ => PNone end.

(** The value of a join when no child raised an [Exception]: [spawn] returns the one result
    of a single child and the list of the results otherwise, [map] always the list; a child
    that ended with another [BaseException] leaves [None]. *)
Definition join_value (k : kind) (os : list (result pyobj)) : pyobj :=
  match k, os with
  | NoResults, _ => PNone
  | Collect, [o] => slot o
  | _, _ => PList (slot <$> os)
  end.

Definition joins_with (k : kind) (os : list (result pyobj)) (r : result pyobj) : Prop :=
  match omap exception_of os with
  | [] => r = Ok (join_value k os)
  | excs => exists errs, errs ≡ₚ excs /\ r = Err (ExceptionGroup errs)
  end.

Section Results.
Context (canc : bool) (k : kind) (outs : list (option (result pyobj))).
Let n := length outs.

Definition sp_start : list sphase := (W0 <$> seq 0 n) ++ [J0].

Lemma sp_start_trees : spawn_pool k n = sp_tree k n <$> sp_start.
Proof.
  rewrite spawn_pool_eq. unfold sp_start. rewrite fmap_app. f_equal.
  by rewrite <- list_fmap_compose.
Qed.

Lemma sp_start_inv : sp_pool_inv canc k n outs sp_start (spawn_init n).
Proof.
  exists (W0 <$> seq 0 n), J0. split; [done|]. constructor.
  - by rewrite length_fmap, length_seq.
  - intros i p Hp. rewrite list_lookup_fmap in Hp.
    destruct (seq 0 n !! i) as [x|] eqn:Hx; simplify_eq/=.
    apply lookup_seq in Hx as [-> _]. done.
  - done.
  - simpl. rewrite countb_none; [done|]. intros i p Hp. rewrite list_lookup_fmap in Hp.
    by destruct (seq 0 n !! i); simplify_eq/=.
  - simpl. unfold ResultHolder_new. f_equal. generalize 0. induction n as [|m IH]; intros x; [done|].
    simpl. by rewrite (IH (S x)).
  - simpl. symmetry. assert (forall l, omap (M:=list) recorded (W0 <$> l) = []) as ->; [|done].
    induction l; simpl; [done|]. done.
  - done.
  - intros i p Hp. apply lookup_snoc_Some in Hp as [[_ Hp]|[_ <-]]; [|done].
    rewrite list_lookup_fmap in Hp. by destruct (seq 0 n !! i); simplify_eq/=.
  - simpl. lia.
Qed.

(** When the event is set every child has ended, and the state is final. *)
Lemma inv_final cs j s : sp_inv canc k n outs cs j s -> sp_count s = n + 1 ->
  exists os, outs = Some <$> os /\
    sp_res s = mkResult n (slot_of k <$> os) /\ sp_errs s ≡ₚ omap exception_of os.
Proof.
  intros Hi Hc. pose proof (inv_all_acked _ _ _ _ _ _ _ Hi Hc) as Hack.
  set (out p := match p with W4 o | WF o => o | _ => Ok PNone end).
  assert (forall i p, cs !! i = Some p -> outs !! i = Some (Some (out p)) /\
    stored k p = slot_of k (out p) /\ recorded p = exception_of (out p)) as Hout.
  { intros i p Hp. pose proof (Hack i p Hp) as Ha. pose proof (inv_child _ _ _ _ _ _ _ Hi i p Hp).
    by destruct p. }
  exists (out <$> cs). rewrite (inv_res _ _ _ _ _ _ _ Hi), (inv_errs _ _ _ _ _ _ _ Hi).
  pose proof (inv_len _ _ _ _ _ _ _ Hi) as Hl. clear Hi Hc Hack. unfold n in *. clear n.
  revert outs Hout Hl. induction cs as [|p cs IH]; intros [|o os] Hout Hl; simplify_eq/=; [done|].
  destruct (Hout 0 p eq_refl) as (Ho & Hs & Hr). simplify_eq/=.
  destruct (IH os) as (-> & Hs' & Hr'); [intros i; apply (Hout (S i))|done|].
  split_and!; [done| |].
  - rewrite Hs. simpl in *. congruence.
  - rewrite Hr. simpl. destruct (exception_of (out p)); by rewrite ?Hr'.
Qed.

Lemma fetch_value os : length os = n -> k <> NoResults ->
  fetched k n (ResultHolder_fetch (mkResult n (slot_of k <$> os))) = join_value k os.
Proof.
  intros Hl Hk. assert (slot_of k <$> os = slot <$> os) as ->.
  { apply list_fmap_ext. intros i o _. by destruct k, o. }
  unfold ResultHolder_fetch, fetched. simpl. rewrite <- Hl.
  destruct k, os as [|o [|o' os]]; done.
Qed.

Lemma final_result cs j s : sp_inv canc k n outs cs j s -> sp_count s = n + 1 ->
  exists os, outs = Some <$> os /\ joins_with k os (join_result k n s).
Proof.
  intros Hi Hc. destruct (inv_final _ _ _ Hi Hc) as (os & Ho & Hr & He).
  exists os. split; [done|]. unfold joins_with, join_result.
  destruct (omap exception_of os) as [|x xs] eqn:Hx.
  - apply Permutation_nil_r in He. rewrite He. f_equal.
    destruct (decide (k = NoResults)) as [->|Hk]; [done|]. rewrite Hr.
    rewrite fetch_value; [by destruct k| |done]. unfold n. by rewrite Ho, length_fmap.
  - exists (sp_errs s). split; [done|]. by destruct (sp_errs s) as [|? ?]; [apply Permutation_nil_l in He|].
Qed.

Lemma reachable_phases ts s :
  reachable (spawn_sem canc outs) (sp_tree k n <$> sp_start, spawn_init n) (ts, s) ->
  exists ps, at_phases (sp_tree k n) ts ps /\ sp_pool_inv canc k n outs ps s.
Proof.
  apply (phases_invariant _ _ _ (sp_tree_step canc k n outs) (sp_pool_inv canc k n outs)).
  - apply sp_start_inv.
  - intros ps s' i p p' s''. apply sp_pool_inv_step.
Qed.

Lemma joined_result ts s t r :
  reachable (spawn_sem canc outs) (spawn_pool k n, spawn_init n) (ts, s) ->
  ts !! n = Some t -> t ≅ Ret r ->
  canc = true /\ r = Err CancelledError \/ exists os, outs = Some <$> os /\ joins_with k os r.
Proof.
  intros Hr Ht Hret. rewrite sp_start_trees in Hr.
  destruct (reachable_phases _ _ Hr) as (ps & Hat & cs & j & -> & Hi).
  destruct (at_phases_lookup _ _ _ _ _ Hat Ht) as (p & Hp & Htp).
  rewrite <- (inv_len _ _ _ _ _ _ _ Hi), lookup_app_r, Nat.sub_diag in Hp by done. simplify_eq/=.
  rewrite Hret in Htp. apply sp_ret_final in Htp as [Hr' Hh].
  pose proof (inv_joiner _ _ _ _ _ _ _ Hi) as Hj. destruct p; try done. subst r.
  destruct Hj as [Hc|[He ->]]; [by left|right]. eapply final_result; [done|]. by apply (inv_event _ _ _ _ _ _ _ Hi).
Qed.

(** ** A join ends *)

Definition enabled (i : nat) (p : sphase) (s : spawn_state) : Prop :=
  exists X (e : ctlE X) c x s', sp_head k n p = Some (existT X (e, c)) /\
    spawn_sem canc outs X i e s x s'.

Lemma enabled_step ts ps i p s :
  at_phases (sp_tree k n) ts ps -> ps !! i = Some p -> enabled i p s ->
  exists c', pstep (spawn_sem canc outs) (ts, s) c'.
Proof.
  intros Hat Hp (X & e & c & x & s' & Hh & Hs).
  destruct (at_phases_lookup_r _ _ _ _ _ Hat Hp) as (t & Ht & Htp).
  destruct (tstep_Vis (spawn_sem canc outs) i t X e c s x s') as [t' Hst]; [|done|].
  - rewrite Htp. by apply (sp_head_eq _ _ p).
  - eexists. by eapply pstep_task.
Qed.

Lemma child_enabled cs j s i p : (exists os, outs = Some <$> os) -> sp_inv canc k n outs cs j s ->
  cs !! i = Some p -> (exists o, p = WF o) \/ enabled i p s.
Proof.
  intros [os Hos] Hi Hp. pose proof (inv_child _ _ _ _ _ _ _ Hi _ _ Hp) as Hc.
  pose proof (lookup_lt_Some _ _ _ Hp) as Hlt. pose proof (inv_len _ _ _ _ _ _ _ Hi) as Hl.
  destruct p as [x|x v|e|o|o|o| | | | | |]; simpl in Hc; try done; [| | | | |by eauto]; right.
  - subst x. destruct (os !! i) as [o|] eqn:Ho.
    + do 5 eexists. split; [reflexivity|]. simpl. split; [|done].
      by rewrite Hos, list_lookup_fmap, Ho.
    + apply lookup_ge_None in Ho. unfold n in Hl. rewrite Hos, length_fmap in Hl. lia.
  - destruct Hc as (-> & _). do 3 eexists. exists tt. eexists. split; [reflexivity|]. simpl.
    eexists. split; [|done]. unfold ResultHolder_store. simpl. rewrite (inv_res _ _ _ _ _ _ _ Hi).
    simpl. rewrite length_fmap. by destruct (Nat.ltb_spec i (length cs)); [|lia].
  - do 3 eexists. exists tt. eexists. split; [reflexivity|]. simpl. done.
  - do 5 eexists. split; [reflexivity|]. simpl. done.
  - do 3 eexists. exists tt. eexists. split; [reflexivity|]. simpl. done.
Qed.

(** A pool that can make no step has joined. *)
Lemma stuck_joined ts ps s : (exists os, outs = Some <$> os) ->
  at_phases (sp_tree k n) ts ps -> sp_pool_inv canc k n outs ps s ->
  (forall c', ~ pstep (spawn_sem canc outs) (ts, s) c') ->
  exists t r, ts !! n = Some t /\ t ≅ Ret r.
Proof.
  intros Hos Hat (cs & j & -> & Hi) Hstuck.
  assert (forall i p, (cs ++ [j]) !! i = Some p -> ~ enabled i p s) as Hdis.
  { intros i p Hp He. destruct (enabled_step _ _ _ _ _ Hat Hp He) as [c' Hc']. by eapply Hstuck. }
  assert (forall i p, cs !! i = Some p -> exists o, p = WF o) as Hall.
  { intros i p Hp. destruct (child_enabled _ _ _ _ _ Hos Hi Hp) as [?|He]; [done|exfalso].
    eapply Hdis; [|exact He]. rewrite lookup_app_l; [done|]. by eapply lookup_lt_Some. }
  assert ((cs ++ [j]) !! n = Some j) as Hlast.
  { rewrite <- (inv_len _ _ _ _ _ _ _ Hi). by rewrite lookup_app_r, Nat.sub_diag by lia. }
  pose proof (inv_joiner _ _ _ _ _ _ _ Hi) as Hj.
  destruct (at_phases_lookup_r _ _ _ _ _ Hat Hlast) as (t & Ht & Htj).
  destruct j as [| | | | | | | | | | |r]; simpl in Hj; try done; [exfalso..|].
  - eapply Hdis; [exact Hlast|]. do 5 eexists. split; [reflexivity|]. simpl. done.
  - assert (sp_count s = n + 1) as Hc.
    { rewrite (inv_count _ _ _ _ _ _ _ Hi). simpl.
      assert (countb acked cs = length cs) as ->; [|by rewrite (inv_len _ _ _ _ _ _ _ Hi)].
      destruct (Nat.lt_ge_cases (countb acked cs) (length cs)) as [Hlt|Hge].
      - destruct (countb_lt_inv _ _ Hlt) as (i & p & Hp & Ha).
        destruct (Hall i p Hp) as [o ->]. done.
      - pose proof (countb_le_length acked cs). lia. }
    eapply Hdis; [exact Hlast|]. do 5 eexists. split; [reflexivity|]. simpl. split; [|done].
    left. split; [done|]. destruct (inv_set _ _ _ _ _ _ _ Hi Hc) as [?|(x & q & Hq & Hpq)]; [done|].
    apply lookup_snoc_Some in Hq as [[_ Hq]|[_ <-]]; [|done].
    by destruct (Hall _ _ Hq) as [o ->].
  - eapply Hdis; [exact Hlast|]. do 5 eexists. split; [reflexivity|]. simpl. done.
  - eapply Hdis; [exact Hlast|]. do 5 eexists. split; [reflexivity|]. simpl. done.
  - eapply Hdis; [exact Hlast|]. do 3 eexists. exists tt. eexists. split; [reflexivity|]. simpl. done.
  - eauto.
Qed.
End Results.

(** [C15] What a join returns.  Under every interleaving of the children and the join, and
    whether or not the join may be cancelled, a join that is not cancelled returns only after
    every child has ended, with the children's results in the order of the arguments, or
    with an [ExceptionGroup] of exactly the exceptions the children raised.  Holds for
    [spawn], [spawn.without_results] and [map] of both APIs. *)
Theorem spawn_joins canc k outs ts s t r :
  (reachable (spawn_sem canc outs) (spawn_pool k (length outs), spawn_init (length outs)) (ts, s) \/
   reachable (spawn_sem canc outs)
     (colored_spawn_pool k (length outs), spawn_init (length outs)) (ts, s)) ->
  ts !! length outs = Some t -> t ≅ Ret r ->
  canc = true /\ r = Err CancelledError \/
  exists os, outs = Some <$> os /\ joins_with k os r.
Proof.
  intros [Hr|Hr] Ht Hret; by eapply joined_result.
Qed.

(** [C20] A join ends: when every child's coroutine ends (and the join is not cancelled), every
    execution is finite, and when nothing can move any more the join has returned, with the
    results of the children or the group of their exceptions. *)
Theorem spawn_completes k os :
  let outs := Some <$> os in
  let n := length outs in
  let c0 := (spawn_pool k n, spawn_init n) in
  Acc (flip (pstep (spawn_sem false outs))) c0 /\
  forall ts s, reachable (spawn_sem false outs) c0 (ts, s) ->
    (forall c', ~ pstep (spawn_sem false outs) (ts, s) c') ->
    exists t r, ts !! n = Some t /\ t ≅ Ret r /\ joins_with k os r.
Proof.
  intros outs n c0. unfold c0, n. rewrite sp_start_trees. split.
  - eapply (phases_terminate _ _ _ (sp_tree_step false k _ outs) rank).
    + intros i s p p' s'. apply sp_step_rank.
    + apply Forall2_fmap_l, Forall_Forall2_diag, Forall_true. intros p. simpl. reflexivity.
  - intros ts s Hr Hstuck. destruct (reachable_phases _ _ _ _ _ Hr) as (ps & Hat & Hi).
    destruct (stuck_joined false k outs ts ps s) as (t & r & Ht & Hret); [by eexists|done..|].
    exists t, r. split_and!; [done|done|]. rewrite <- sp_start_trees in Hr.
    destruct (joined_result _ _ _ _ _ _ _ Hr Ht Hret) as [[? _]|(os' & Ho & Hj)]; [done|].
    by apply (inj (fmap Some)) in Ho as <-.
Qed.

(** One step of task [i] of a concrete pool, the operation answering [x]. *)
Ltac spawn_step i x :=
  eapply reachable_step_l;
  [eapply (pstep_task _ i);
   [reflexivity
   |eapply (tstep_vis _ _ _ _ _ _ _ x); [observe_now|cbn]]
  |cbn [insert list_insert fmap list_fmap]].

Lemma spawn_joins_witness :
  exists ts s t, reachable (spawn_sem true [Some (Ok (PInt 7)); Some (Err (UserError 1))])
      (spawn_pool Collect 2, spawn_init 2) (ts, s) /\ ts !! 2 = Some t /\
    t ≅ Ret (Err (ExceptionGroup [UserError 1])) /\
    exists os, [Some (Ok (PInt 7)); Some (Err (UserError 1))] = Some <$> os.
Proof.
  assert (exists ts s t, reachable (spawn_sem true [Some (Ok (PInt 7)); Some (Err (UserError 1))])
      (spawn_pool Collect 2, spawn_init 2) (ts, s) /\ ts !! 2 = Some t /\
    t ≅ Ret (Err (ExceptionGroup [UserError 1]))) as (ts & s & t & Hr & Ht & Hret).
  { do 3 eexists. split.
    - spawn_step 1 (Err (A:=pyobj) (UserError 1)); [by split|].
      spawn_step 2 0; [by split|].
      spawn_step 0 (Ok (PInt 7)); [by split|].
      spawn_step 0 tt; [by eexists|].
      spawn_step 1 tt; [done|].
      spawn_step 1 1; [by split|].
      spawn_step 0 2; [by split|].
      spawn_step 0 tt; [done|].
      spawn_step 2 (Ok tt); [by split; [left|]|].
      spawn_step 2 [UserError 1]; [by split|].
      apply reachable_init.
    - split; [reflexivity|]. by apply eq_obs_Ret. }
  exists ts, s, t. split_and!; [exact Hr|exact Ht|exact Hret|].
  destruct (spawn_joins true Collect [Some (Ok (PInt 7)); Some (Err (UserError 1))] ts s t
    (Err (ExceptionGroup [UserError 1])) (or_introl Hr) Ht Hret) as [[_ ?]|(os & Hos & _)]; [done|].
  by exists os.
Defined.
