(* ===== verification/Scope.v ===== *)
(** * Scopes

    [PyGenScope] and [PyAsyncGenScope] of [src/src/scope.rs] and the [Scope] classes of
    [src/tonio/_scope.py] and [src/tonio/_colored/_scope.py]: tasks spawned within a scope
    are awaited, or cancelled, when the scope is left.  Every access to the scope's fields
    and to the events of its children is a step of its own. *)

From stdpp Require Import base numbers list gmap strings.
From Stdlib Require Import ZArith Lia.
From ITree Require Import ITree ITreeFacts.
From S2P Require Import Prelude Coro.

Open Scope tonio_scope.
Open Scope nat_scope.

(** ** The scope's fields *)

(** A child is named by a number, which stands for its event and its waiter. *)
Record Scope := mkScope {
  sc_stack : list nat; sc_waiter : option (list nat); sc_consumed : nat; sc_cancelled : bool
}.

Definition Scope_new : Scope := mkScope [] None 0 false.

(** [_incr]: a compare-and-exchange of [consumed]. *)
Definition Scope_incr (from : nat) (self : Scope) : bool * Scope :=
  if sc_consumed self =? from
  then (true, mkScope (sc_stack self) (sc_waiter self) (from + 1) (sc_cancelled self))
  else (false, self).

(** The guard and the push of [_track]. *)
Definition Scope_tracking (self : Scope) : bool := negb (1 <? sc_consumed self).
Definition Scope_push (child : nat) (self : Scope) : Scope :=
  mkScope (sc_stack self ++ [child]) (sc_waiter self) (sc_consumed self) (sc_cancelled self).

(** The start and the end of [_exit]: the stack is taken out, the waiter is kept. *)
Definition Scope_take (self : Scope) : result (list nat) * Scope :=
  match sc_waiter self with
  | Some _ => (Err (RuntimeError "Scope already consumed"), self)
  | None => (Ok (sc_stack self), mkScope [] None (sc_consumed self) (sc_cancelled self))
  end.
Definition Scope_keep (waiter : list nat) (self : Scope) : Scope :=
  mkScope (sc_stack self) (Some waiter) (sc_consumed self) (sc_cancelled self).

Definition Scope_cancel (self : Scope) : bool * Scope :=
  (negb (sc_cancelled self),
   mkScope (sc_stack self) (sc_waiter self) (sc_consumed self) true).

(** ** Operations of the tasks *)

(** [ScCheckpoint c] suspends child [c] on its checkpoint waiter, [ScAwait c] is [yield coro],
    [ScBody] whatever the body of the [with] block waits for, [ScWait cs] the waiter over the
    events of [cs], [ScStart c] the moment a worker first runs the task of [c]. *)
Variant scopeE : Type -> Type :=
| ScIncr (from : nat) : scopeE bool
| ScTracking : scopeE bool
| ScPush (c : nat) : scopeE unit
| ScSpawn (c : nat) : scopeE unit
| ScTake : scopeE (result (list nat))
| ScKeep (cs : list nat) : scopeE unit
| ScCancelled : scopeE bool
| ScCancel : scopeE bool
| ScIsSet (c : nat) : scopeE bool
| ScSet (c : nat) : scopeE bool
| ScAbort (c : nat) : scopeE unit
| ScWait (cs : list nat) : scopeE (result unit)
| ScYieldNow : scopeE (result unit)
| ScBody : scopeE (result unit)
| ScStart (c : nat) : scopeE unit
| ScCheckpoint (c : nat) : scopeE (result unit)
| ScAwait (c : nat) : scopeE (result unit).

(** ** The tasks *)

(** [inner] and [wrapper] of [Scope.spawn]. *)
Definition inner (c : nat) : pyM scopeE unit :=
  pcall (ScCheckpoint c) ;;;
  pcall (ScAwait c).

Definition wrapper (c : nat) : pyM scopeE unit :=
  pfinally
    (ptry (inner c) (fun e => if is_Cancelled e then Some (pret tt) else Some (praise e)))
    (pop (ScSet c) ;;; pret tt).

(** [Scope.spawn]: [_track], then the runtime's [_spawn_pygen]. *)
Definition Scope_spawn (c : nat) : pyM scopeE unit :=
  let! tracking := pop ScTracking in
  if tracking then pop (ScPush c) ;;; pop (ScSpawn c) else pret tt.

Definition Scope_enter : pyM scopeE unit :=
  let! ok := pop (ScIncr 0) in
  if ok then pret tt else praise (RuntimeError "Cannot enter the same scope multiple times.").

(** The loop of [_exit]: cancel the children that have not ended. *)
Definition sweep (cancelled : bool) (cs : list nat) : pyM scopeE unit :=
  pfor cs (fun c =>
    if cancelled
    then let! done := pop (ScIsSet c) in
         if done then pret tt else pop (ScSet c) ;;; pop (ScAbort c)
    else pret tt).

Definition Scope_exit : pyM scopeE (list nat) :=
  let! cs := pcall ScTake in
  let! cancelled := pop ScCancelled in
  sweep cancelled cs ;;;
  pop (ScKeep cs) ;;;
  pret cs.

(** [Scope.__call__]. *)
Definition Scope_call : pyM scopeE unit :=
  let! waiter := Scope_exit in
  pcall (ScWait waiter).

Definition Scope___exit__ : pyM scopeE unit := pop (ScIncr 1) ;;; pret tt.

Definition Scope_aenter : pyM scopeE unit :=
  let! ok := pop (ScIncr 0) in
  if ok then pret tt else praise (RuntimeError "Cannot enter the same scope multiple times.").

Definition Scope_aexit : pyM scopeE unit :=
  pop (ScIncr 1) ;;;
  pcall ScYieldNow ;;;
  let! waiter := Scope_exit in
  pcall (ScWait waiter).

(** ** Programs that use a scope *)

(** The body of the block: children are numbered in the order they are spawned. *)
Inductive act := ASpawn | ACancel | ABody.

Fixpoint body (acts : list act) (next : nat) : pyM scopeE unit :=
  match acts with
  | [] => pret tt
  | ASpawn :: acts => Scope_spawn next ;;; body acts (S next)
  | ACancel :: acts => pop ScCancel ;;; body acts next
  | ABody :: acts => pcall ScBody ;;; body acts next
  end.

Module ColoredScope.
Definition inner (c : nat) : pyM scopeE unit :=
  pcall (ScCheckpoint c) ;;;
  pcall (ScAwait c).

Definition wrapper (c : nat) : pyM scopeE unit :=
  pfinally
    (ptry (inner c) (fun e => if is_Cancelled e then Some (pret tt) else Some (praise e)))
    (pop (ScSet c) ;;; pret tt).

(** [_track], then the runtime's [_spawn_pyasyncgen]. *)
Definition Scope_spawn (c : nat) : pyM scopeE unit :=
  let! tracking := pop ScTracking in
  if tracking then pop (ScPush c) ;;; pop (ScSpawn c) else pret tt.

Fixpoint body (acts : list act) (next : nat) : pyM scopeE unit :=
  match acts with
  | [] => pret tt
  | ASpawn :: acts => Scope_spawn next ;;; body acts (S next)
  | ACancel :: acts => pop ScCancel ;;; body acts next
  | ABody :: acts => pcall ScBody ;;; body acts next
  end.

Definition child (c : nat) : pyM scopeE unit := pop (ScStart c) ;;; wrapper c.
End ColoredScope.

(** [with scope() as s: ...] followed by [yield s()], and [async with scope() as s: ...]. *)
Definition with_scope (acts : list act) : pyM scopeE unit :=
  Scope_enter ;;;
  pfinally (body acts 0) Scope___exit__ ;;;
  Scope_call.

Definition async_with_scope (acts : list act) : pyM scopeE unit :=
  Scope_aenter ;;;
  pfinally (ColoredScope.body acts 0) Scope_aexit.

(** The task of child [c], from the moment the runtime starts it. *)
Definition child (c : nat) : pyM scopeE unit := pop (ScStart c) ;;; wrapper c.
