(* ===== verification/ScopeProps.v ===== *)
(** * What a scope guarantees

    The children of a scope and the task that opened it, under every interleaving: leaving
    the scope waits for the children, or cancels those that have not ended. *)

From stdpp Require Import base numbers list gmap sets strings.
From Stdlib Require Import ZArith Lia.
From ITree Require Import ITree ITreeFacts.
From S2P Require Import Prelude Coro Scope.

Open Scope tonio_scope.
Open Scope nat_scope.
#[local] Set Warnings "-clear-no-such-hyp".

(** ** The shared state *)

(** The scope, the events that are set, the children whose waiter was aborted, and the
    children given to the runtime. *)
Record sc_state := mkSc {
  scope : Scope; events : gset nat; aborted : gset nat; started : gset nat
}.

Definition sc_init : sc_state := mkSc Scope_new ∅ ∅ ∅.

Definition with_scope_state (sc : Scope) (s : sc_state) : sc_state :=
  mkSc sc (events s) (aborted s) (started s).

(** A coroutine and the body of the block answer anything; a waiter over events returns when
    all of them are set, and any suspension of the task that opened the scope may be
    cancelled from outside; a child's checkpoint raises only when the child was aborted. *)
Definition scope_sem (X : Type) (tid : nat) (e : scopeE X) (s : sc_state) (x : X) (s' : sc_state)
    : Prop :=
  match e in scopeE X return X -> Prop with
  | ScIncr from => fun x => x = fst (Scope_incr from (scope s)) /\
      s' = with_scope_state (snd (Scope_incr from (scope s))) s
  | ScTracking => fun x => x = Scope_tracking (scope s) /\ s' = s
  | ScPush c => fun _ => s' = with_scope_state (Scope_push c (scope s)) s
  | ScSpawn c => fun _ => s' = mkSc (scope s) (events s) (aborted s) ({[c]} ∪ started s)
  | ScTake => fun x => x = fst (Scope_take (scope s)) /\
      s' = with_scope_state (snd (Scope_take (scope s))) s
  | ScKeep cs => fun _ => s' = with_scope_state (Scope_keep cs (scope s)) s
  | ScCancelled => fun x => x = sc_cancelled (scope s) /\ s' = s
  | ScCancel => fun x => x = fst (Scope_cancel (scope s)) /\
      s' = with_scope_state (snd (Scope_cancel (scope s))) s
  | ScIsSet c => fun x => x = bool_decide (c ∈ events s) /\ s' = s
  | ScSet c => fun x => x = bool_decide (c ∉ events s) /\
      s' = mkSc (scope s) ({[c]} ∪ events s) (aborted s) (started s)
  | ScAbort c => fun _ => s' = mkSc (scope s) (events s) ({[c]} ∪ aborted s) (started s)
  | ScWait cs => fun x => (x = Ok tt /\ (forall c, c ∈ cs -> c ∈ events s) \/
                           x = Err CancelledError) /\ s' = s
  | ScYieldNow => fun x => (x = Ok tt \/ x = Err CancelledError) /\ s' = s
  | ScBody => fun _ => s' = s
  | ScStart c => fun _ => c ∈ started s /\ s' = s
  | ScCheckpoint c => fun x => (x = Ok tt \/ c ∈ aborted s /\ x = Err CancelledError) /\ s' = s
  | ScAwait c => fun _ => s' = s
  end x.

(** ** Control points *)

Inductive scphase : Type :=
| C0 (c : nat) | C1 (c : nat) | C2 (c : nat) | C3 (c : nat) (r : result unit)
| CF (r : result unit)
| P0 (acts : list act)
| PG (acts : list act) (i : nat)
| PP (acts : list act) (i : nat)
| PQ (acts : list act) (i : nat)
| PN (acts : list act) (i : nat)
| PM (acts : list act) (i : nat)
| PX (r : result unit)
| PY (r : result unit)
| PT (r : result unit)
| PC (r : result unit) (l : list nat)
| PI (r : result unit) (l : list nat) (c : nat) (todo : list nat)
| PS (r : result unit) (l : list nat) (c : nat) (todo : list nat)
| PA (r : result unit) (l : list nat) (c : nat) (todo : list nat)
| PK (r : result unit) (l : list nat)
| PW (r : result unit) (l : list nat)
| PF (r : result unit).

(** What a child's wrapper ends with when its coroutine ended with [r]. *)
Definition absorbed (r : result unit) : result unit :=
  match r with Err e => if is_Cancelled e then Ok tt else Err e | Ok _ => r end.

(** [col]: the [async] API. *)
Section Points.
Context (col : bool).

Definition body_at (acts : list act) (i : nat) : scphase :=
  match acts with
  | [] => PX (Ok tt)
  | ASpawn :: acts => PG acts i
  | ACancel :: acts => PN acts i
  | ABody :: acts => PM acts i
  end.
Definition loop_at (r : result unit) (l todo : list nat) : scphase :=
  match todo with [] => PK r l | c :: todo => PI r l c todo end.

Definition sc_head (p : scphase) (K : forall X, scopeE X -> (X -> scphase) -> Prop) : Prop :=
  match p with
  | C0 c => K _ (ScStart c) (fun _ => C1 c)
  | C1 c => K _ (ScCheckpoint c)
              (fun x => match x with Ok _ => C2 c | Err e => C3 c (absorbed (Err e)) end)
  | C2 c => K _ (ScAwait c) (fun x => C3 c (absorbed x))
  | C3 c r => K _ (ScSet c) (fun _ => CF r)
  | P0 acts => K _ (ScIncr 0) (fun ok => if ok then body_at acts 0 else
      PF (Err (RuntimeError "Cannot enter the same scope multiple times.")))
  | PG acts i => K _ ScTracking (fun b => if b then PP acts i else body_at acts (S i))
  | PP acts i => K _ (ScPush i) (fun _ => PQ acts i)
  | PQ acts i => K _ (ScSpawn i) (fun _ => body_at acts (S i))
  | PN acts i => K _ ScCancel (fun _ => body_at acts i)
  | PM acts i => K _ ScBody (fun x => match x with Ok _ => body_at acts i | Err e => PX (Err e) end)
  | PX r => K _ (ScIncr 1) (fun _ => if col then PY r else
      match r with Ok _ => PT r | Err e => PF (Err e) end)
  | PY r => K _ ScYieldNow (fun x => match x with Ok _ => PT r | Err e => PF (Err e) end)
  | PT r => K _ ScTake (fun x => match x with Ok l => PC r l | Err e => PF (Err e) end)
  | PC r l => K _ ScCancelled (fun b => if b then loop_at r l l else PK r l)
  | PI r l c todo => K _ (ScIsSet c) (fun d : bool => if d then loop_at r l todo else PS r l c todo)
  | PS r l c todo => K _ (ScSet c) (fun _ => PA r l c todo)
  | PA r l c todo => K _ (ScAbort c) (fun _ => loop_at r l todo)
  | PK r l => K _ (ScKeep l) (fun _ => PW r l)
  | PW r l => K _ (ScWait l) (fun x => match x with Ok _ => PF r | Err e => PF (Err e) end)
  | CF _ | PF _ => False
  end.

(** The rest of the code at a control point. *)
Definition ends (r x : result unit) : pyM scopeE unit :=
  match x with Ok _ => Ret r | Err e => Ret (Err e) end.
Definition at_keep (r : result unit) (l : list nat) : pyM scopeE unit :=
  Vis (ScKeep l) (fun _ => Vis (ScWait l) (ends r)).
Fixpoint at_loop (r : result unit) (l todo : list nat) : pyM scopeE unit :=
  match todo with
  | [] => at_keep r l
  | c :: todo =>
      Vis (ScIsSet c) (fun d : bool =>
        if d then at_loop r l todo
        else Vis (ScSet c) (fun _ => Vis (ScAbort c) (fun _ => at_loop r l todo)))
  end.
Definition at_read (r : result unit) (l : list nat) : pyM scopeE unit :=
  Vis ScCancelled (fun b : bool => if b then at_loop r l l else at_keep r l).
Definition at_take (r : result unit) : pyM scopeE unit :=
  Vis ScTake (fun x : result (list nat) => match x with Ok l => at_read r l | Err e => Ret (Err e) end).
Definition at_yield (r : result unit) : pyM scopeE unit :=
  Vis ScYieldNow (fun x : result unit => match x with Ok _ => at_take r | Err e => Ret (Err e) end).
Definition at_exit (r : result unit) : pyM scopeE unit :=
  Vis (ScIncr 1) (fun _ =>
    if col then at_yield r else match r with Ok _ => at_take r | Err e => Ret (Err e) end).
Fixpoint at_body (acts : list act) (i : nat) : pyM scopeE unit :=
  match acts with
  | [] => at_exit (Ok tt)
  | ASpawn :: acts =>
      Vis ScTracking (fun b : bool =>
        if b then Vis (ScPush i) (fun _ => Vis (ScSpawn i) (fun _ => at_body acts (S i)))
        else at_body acts (S i))
  | ACancel :: acts => Vis ScCancel (fun _ => at_body acts i)
  | ABody :: acts =>
      Vis ScBody (fun x : result unit => match x with Ok _ => at_body acts i | Err e => at_exit (Err e) end)
  end.

Definition sc_tree (p : scphase) : pyM scopeE unit :=
  match p with
  | C0 c => child c
  | C1 c => wrapper c
  | C2 c => Vis (ScAwait c) (fun x => Vis (ScSet c) (fun _ => Ret (absorbed x)))
  | C3 c r => Vis (ScSet c) (fun _ => Ret r)
  | CF r | PF r => Ret r
  | P0 acts => if col then async_with_scope acts else Scope.with_scope acts
  | PG acts i => at_body (ASpawn :: acts) i
  | PP acts i => Vis (ScPush i) (fun _ => Vis (ScSpawn i) (fun _ => at_body acts (S i)))
  | PQ acts i => Vis (ScSpawn i) (fun _ => at_body acts (S i))
  | PN acts i => at_body (ACancel :: acts) i
  | PM acts i => at_body (ABody :: acts) i
  | PX r => at_exit r
  | PY r => at_yield r
  | PT r => at_take r
  | PC r l => at_read r l
  | PI r l c todo => at_loop r l (c :: todo)
  | PS r l c todo => Vis (ScSet c) (fun _ => Vis (ScAbort c) (fun _ => at_loop r l todo))
  | PA r l c todo => Vis (ScAbort c) (fun _ => at_loop r l todo)
  | PK r l => at_keep r l
  | PW r l => Vis (ScWait l) (ends r)
  end.

Lemma body_at_tree acts i : sc_tree (body_at acts i) = at_body acts i.
Proof. by destruct acts as [|[] acts]. Qed.
Lemma loop_at_tree r l todo : sc_tree (loop_at r l todo) = at_loop r l todo.
Proof. by destruct todo. Qed.
End Points.

(** ** The code at its control points *)

Lemma sweep_eq r l cs (k : result unit -> pyM scopeE unit) :
  k (Ok tt) ≅ at_keep r l -> ITree.bind (sweep true cs) k ≅ at_loop r l cs.
Proof.
  intros Hk. induction cs as [|c cs IH]; simpl.
  - unfold sweep. simpl. unfold pret. by rewrite bind_ret_l.
  - unfold sweep. simpl. rewrite pbind_assoc, pbind_pop, bind_vis. apply eqit_Vis. intros [].
    + by rewrite pbind_pret.
    + rewrite pbind_assoc, pbind_pop, bind_vis. apply eqit_Vis. intros _.
      rewrite pbind_pop, bind_vis. by apply eqit_Vis.
Qed.

Lemma sweep_not_eq cs : sweep false cs ≅ pret tt.
Proof. induction cs as [|c cs IH]; simpl; [done|]. unfold sweep. simpl. by rewrite pbind_pret. Qed.

Lemma call_eq r : ITree.bind Scope_call (ends r) ≅ at_take r.
Proof.
  unfold Scope_call, Scope_exit. rewrite pbind_assoc, pbind_pcall, bind_vis.
  apply eqit_Vis. intros [l|e]; [|unfold praise; by rewrite bind_ret_l].
  rewrite pbind_assoc, pbind_pop, bind_vis. apply eqit_Vis.
  assert (forall k : result unit -> pyM scopeE unit, k = (fun x =>
      ITree.bind match x with
        | Ok _ => pbind (pop (ScKeep l) ;;; pret l) (fun waiter => pcall (ScWait waiter))
        | Err e => Ret (Err e)
        end (ends r)) -> k (Ok tt) ≅ at_keep r l) as Hk.
  { intros k ->. rewrite pbind_assoc, pbind_pop, bind_vis. apply eqit_Vis. intros [].
    rewrite pbind_pret. unfold pcall. rewrite bind_trigger. done. }
  intros [].
  - rewrite pbind_assoc. unfold pbind at 1. rewrite bind_bind. apply sweep_eq. by apply (Hk _ eq_refl).
  - rewrite sweep_not_eq, pbind_assoc, pbind_pret. by apply (Hk _ eq_refl).
Qed.

Lemma call_eq_ok : Scope_call ≅ at_take (Ok tt).
Proof.
  rewrite <- call_eq. rewrite <- (bind_ret_r Scope_call) at 1. apply eqit_bind; [reflexivity|].
  by intros [[]|e].
Qed.

Lemma body_eq col acts i (k : result unit -> pyM scopeE unit) :
  (forall r, k r ≅ at_exit col r) -> ITree.bind (body acts i) k ≅ at_body col acts i.
Proof.
  intros Hk. revert i. induction acts as [|[] acts IH]; intros i; simpl.
  - unfold pret. by rewrite bind_ret_l.
  - unfold Scope_spawn. rewrite pbind_assoc, pbind_pop, bind_vis. apply eqit_Vis. intros [].
    + rewrite pbind_assoc, pbind_pop, bind_vis. apply eqit_Vis. intros _.
      rewrite pbind_pop, bind_vis. apply eqit_Vis. intros ?. apply IH.
    + rewrite pbind_pret. apply IH.
  - rewrite pbind_pop, bind_vis. apply eqit_Vis. intros ?. apply IH.
  - rewrite pbind_pcall, bind_vis. apply eqit_Vis. intros [u|e]; [apply IH|].
    unfold praise. rewrite bind_ret_l. apply Hk.
Qed.

Lemma with_scope_eq acts : Scope.with_scope acts ≅
  Vis (ScIncr 0) (fun ok : bool => if ok then at_body false acts 0 else
    Ret (Err (RuntimeError "Cannot enter the same scope multiple times."))).
Proof.
  unfold Scope.with_scope, Scope_enter. rewrite pbind_assoc, pbind_pop. apply eqit_Vis.
  intros []; [|by rewrite pbind_praise]. rewrite pbind_pret. unfold pfinally, pbind at 1.
  rewrite bind_bind. apply body_eq. intros r. unfold Scope___exit__.
  rewrite pbind_pop, !bind_vis. apply eqit_Vis. intros []; unfold pret; rewrite !bind_ret_l;
    (destruct r as [[]|e]; [apply call_eq_ok|done]).
Qed.

Lemma async_with_scope_eq acts : async_with_scope acts ≅
  Vis (ScIncr 0) (fun ok : bool => if ok then at_body true acts 0 else
    Ret (Err (RuntimeError "Cannot enter the same scope multiple times."))).
Proof.
  unfold async_with_scope, Scope_aenter. rewrite pbind_assoc, pbind_pop. apply eqit_Vis.
  intros []; [|by rewrite pbind_praise]. rewrite pbind_pret. apply body_eq. intros r.
  unfold Scope_aexit. rewrite pbind_pop, bind_vis. apply eqit_Vis. intros [];
    (rewrite pbind_pcall, bind_vis; apply eqit_Vis; intros [u|e];
     [apply call_eq|unfold praise; by rewrite bind_ret_l]).
Qed.

Lemma child_wrapper_eq c : wrapper c ≅
  Vis (ScCheckpoint c) (fun x => match x with
    | Ok _ => Vis (ScAwait c) (fun x => Vis (ScSet c) (fun _ => Ret (absorbed x)))
    | Err e => Vis (ScSet c) (fun _ => Ret (absorbed (Err e))) end).
Proof.
  assert (forall r, ITree.bind (pop (ScSet c) ;;; pret tt) (ends r) ≅
    Vis (ScSet c) (fun _ => Ret r)) as Hset.
  { intros r. rewrite pbind_pop, bind_vis. apply eqit_Vis. intros b. unfold pret.
    by rewrite bind_ret_l. }
  assert (forall e, ITree.bind (if is_Cancelled e then pret tt else praise e) (fun r =>
    ITree.bind (pop (ScSet c) ;;; pret tt) (ends r)) ≅
    Vis (ScSet c) (fun _ => Ret (absorbed (Err e)))) as He.
  { intros e. rewrite <- Hset. simpl. destruct (is_Cancelled e); unfold pret, praise;
      by rewrite bind_ret_l. }
  unfold wrapper, inner, pfinally, ptry, ptry_else. rewrite pbind_pcall, !bind_vis.
  apply eqit_Vis. intros [u|e].
  - unfold pcall. rewrite bind_bind, bind_trigger. apply eqit_Vis. intros [[]|e].
    + unfold pret at 1. rewrite bind_ret_l. apply Hset.
    + rewrite <- He. by destruct (is_Cancelled e).
  - unfold praise at 1. rewrite bind_ret_l, <- He. by destruct (is_Cancelled e).
Qed.

Lemma sc_heads col p : heads_ok (sc_tree col) (sc_head col) p.
Proof.
  destruct p; try (left; eexists; split; [simpl; reflexivity|by intros K HK]); right; do 3 eexists;
    (split; [|by intros K; split; intros HK; exact HK]); simpl.
  - apply pbind_pop.
  - rewrite child_wrapper_eq. apply eqit_Vis. by intros [].
  - done.
  - done.
  - destruct col; [rewrite async_with_scope_eq|rewrite with_scope_eq];
      (apply eqit_Vis; intros []; [by rewrite body_at_tree|done]).
  - apply eqit_Vis. intros []; [done|by rewrite body_at_tree].
  - done.
  - apply eqit_Vis. intros []. by rewrite body_at_tree.
  - apply eqit_Vis. intros x. by rewrite body_at_tree.
  - apply eqit_Vis. intros []; [by rewrite body_at_tree|done].
  - apply eqit_Vis. intros x. destruct col; [done|]. by destruct r.
  - apply eqit_Vis. by intros [].
  - apply eqit_Vis. by intros [].
  - apply eqit_Vis. intros []; [by rewrite loop_at_tree|done].
  - apply eqit_Vis. intros []; [by rewrite loop_at_tree|done].
  - done.
  - apply eqit_Vis. intros []. by rewrite loop_at_tree.
  - done.
  - apply eqit_Vis. by intros [].
Qed.

(** ** The invariant *)

Section Invariant.
Context (col : bool).

(** The children given to the runtime are the first [m]. *)
Definition first (m : nat) (s : sc_state) : Prop := started s = set_seq 0 m.

(** The scope before it is taken: [m] children on the stack. *)
Definition fresh (consumed m : nat) (s : sc_state) : Prop :=
  sc_consumed (scope s) = consumed /\ sc_waiter (scope s) = None /\ sc_stack (scope s) = seq 0 m.

(** Where the task that opened the scope stands. *)
Definition parent_at (p : scphase) (s : sc_state) : Prop :=
  match p with
  | P0 _ => fresh 0 0 s /\ first 0 s
  | PG _ i | PN _ i | PM _ i | PP _ i => fresh 1 i s /\ first i s
  | PQ _ i => fresh 1 (S i) s /\ first i s
  | PX _ => exists m, fresh 1 m s /\ first m s
  | PY _ => exists m, fresh 2 m s /\ first m s
  | PT r => exists m, fresh 2 m s /\ first m s
  | PC _ l => exists m, l = seq 0 m /\ first m s
  | PI _ l c todo | PS _ l c todo =>
      (exists m, l = seq 0 m /\ first m s) /\ sc_cancelled (scope s) = true /\
      forall x, x ∈ l -> x ∈ events s \/ x = c \/ x ∈ todo
  | PA _ l c todo =>
      (exists m, l = seq 0 m /\ first m s) /\ sc_cancelled (scope s) = true /\
      forall x, x ∈ l -> x ∈ events s \/ x ∈ todo
  | PK _ l | PW _ l =>
      (exists m, l = seq 0 m /\ first m s) /\
      (sc_cancelled (scope s) = true -> forall x, x ∈ l -> x ∈ events s)
  | PF r => r = Err CancelledError \/ (col = false /\ r <> Ok tt) \/ started s ⊆ events s
  | _ => False
  end.

(** The child the parent is about to abort. *)
Definition aborting (p : scphase) : option nat :=
  match p with PA _ _ c _ => Some c | _ => None end.

Definition child_at (c : nat) (p : scphase) : Prop :=
  match p with C0 d | C1 d | C2 d | C3 d _ => d = c | CF _ => True | _ => False end.

(** An event is set when its child has ended or has been cancelled, and children are only
    cancelled when the scope is. *)
Record sc_inv (cs : list scphase) (p : scphase) (s : sc_state) : Prop := {
  sc_children : forall c q, cs !! c = Some q -> child_at c q;
  sc_parent : parent_at p s;
  sc_events : forall c q, c ∈ events s -> cs !! c = Some q ->
    (exists r, q = CF r) \/ c ∈ aborted s \/ aborting p = Some c;
  sc_aborts : forall c, c ∈ aborted s -> sc_cancelled (scope s) = true
}.

(** A child's step leaves the scope alone and sets at most its own event. *)
Lemma child_step_inv cs p s i q q' s' : sc_inv cs p s -> cs !! i = Some q ->
  head_step scope_sem (sc_head col) i s q q' s' -> sc_inv (<[i:=q']> cs) p s'.
Proof.
  intros Hi Hq Hs. pose proof (sc_children _ _ _ Hi _ _ Hq) as Hc.
  assert (child_at i q' /\ scope s' = scope s /\ aborted s' = aborted s /\ started s' = started s /\
    (events s' = events s /\ (forall r, q <> CF r) \/
     events s' = {[i]} ∪ events s /\ exists r, q' = CF r)) as (Hc' & E1 & E2 & E3 & E4).
  { destruct q; simpl in Hc; try done; destruct Hs as (x & Hsem & ->); simpl in Hsem; subst.
    - destruct Hsem as [_ ->]. split_and!; try done. by left.
    - destruct Hsem as [_ ->]. split_and!; try done; [by destruct x|]. by left.
    - split_and!; try done. by left.
    - destruct Hsem as [_ ->]. split_and!; try done. right. by eauto. }
  assert (events s ⊆ events s') as Hsub by (destruct E4 as [[-> _]|[-> _]]; set_solver).
  pose proof (sc_parent _ _ _ Hi) as Hp. constructor.
  - intros c x Hx. destruct (decide (c = i)) as [->|Hne].
    + rewrite list_lookup_insert_eq in Hx by (by eapply lookup_lt_Some). by simplify_eq.
    + rewrite list_lookup_insert_ne in Hx by done. by apply (sc_children _ _ _ Hi).
  - destruct p; simpl in *; unfold fresh, first in *; rewrite ?E1, ?E3; try done.
    + destruct Hp as (? & ? & Hx). split_and!; try done. intros x Hin. destruct (Hx x Hin); set_solver.
    + destruct Hp as (? & ? & Hx). split_and!; try done. intros x Hin. destruct (Hx x Hin); set_solver.
    + destruct Hp as (? & ? & Hx). split_and!; try done. intros x Hin. destruct (Hx x Hin); set_solver.
    + destruct Hp as (? & Hx). split; [done|]. intros Hcn x Hin. specialize (Hx Hcn x Hin). set_solver.
    + destruct Hp as (? & Hx). split; [done|]. intros Hcn x Hin. specialize (Hx Hcn x Hin). set_solver.
    + destruct Hp as [?|[?|?]]; [by left|by right; left|right; right; set_solver].
  - intros c x Hev Hx. rewrite E2. destruct (decide (c = i)) as [->|Hne].
    + rewrite list_lookup_insert_eq in Hx by (by eapply lookup_lt_Some). simplify_eq.
      destruct E4 as [[E4 Hncf]|[_ Hcf]]; [|by left]. rewrite E4 in Hev.
      destruct (sc_events _ _ _ Hi _ _ Hev Hq) as [[r ->]|?]; [by destruct (Hncf r)|by right].
    + rewrite list_lookup_insert_ne in Hx by done. apply (sc_events _ _ _ Hi); [|done].
      destruct E4 as [[E4 _]|[E4 _]]; rewrite E4 in Hev; set_solver.
  - intros c. rewrite E1, E2. apply (sc_aborts _ _ _ Hi).
Qed.

Lemma parent_body acts i s : fresh 1 i s -> first i s ->
  parent_at (body_at acts i) s /\ aborting (body_at acts i) = None.
Proof. intros Hf Hm. destruct acts as [|[] acts]; simpl; eauto. Qed.

Lemma parent_loop r l todo s : (exists m, l = seq 0 m /\ first m s) ->
  sc_cancelled (scope s) = true -> (forall x, x ∈ l -> x ∈ events s \/ x ∈ todo) ->
  parent_at (loop_at r l todo) s /\ aborting (loop_at r l todo) = None.
Proof.
  intros Hl Hc Hx. destruct todo as [|c todo]; simpl.
  - split_and!; try done. intros _ x Hin. destruct (Hx x Hin); [done|set_solver].
  - split_and!; try done. intros x Hin. destruct (Hx x Hin) as [?|Hin']; [by left|].
    apply elem_of_cons in Hin'. tauto.
Qed.

(** Solve the parts of the invariant a step of the parent touches. *)
Ltac scs := simpl in *; unfold fresh, first in *; simpl in *; split_and!; try naive_solver; try set_solver.

(** A step of the parent: what it leaves alone decides that the rest of the invariant holds. *)
Lemma parent_step_inv cs p s i p' s' : sc_inv cs p s ->
  head_step scope_sem (sc_head col) i s p p' s' -> sc_inv cs p' s'.
Proof.
  intros Hi Hs. pose proof (sc_parent _ _ _ Hi) as Hp.
  assert (parent_at p' s' /\
    (forall c, c ∈ events s' -> c ∈ events s \/ aborting p' = Some c) /\
    (forall c, c ∈ aborted s \/ aborting p = Some c -> c ∈ aborted s' \/ aborting p' = Some c) /\
    (forall c, c ∈ aborted s' -> c ∈ aborted s \/ sc_cancelled (scope s') = true) /\
    (sc_cancelled (scope s) = true -> sc_cancelled (scope s') = true)) as (H1 & H2 & H3 & H4 & H5).
  { destruct s as [[st wt co cn] ev ab sd].
    destruct p; simpl in Hp; try done; destruct Hs as (x & Hsem & ->); simpl in Hsem;
      unfold fresh, first in Hp; simpl in Hp.
    - destruct Hp as ((-> & -> & ->) & ->), Hsem as [-> ->]. simpl.
      destruct (parent_body acts 0 (mkSc (mkScope [] None 1 cn) ev ab (set_seq 0 0))) as [Hb Ha]; [done..|].
      rewrite Ha. scs.
    - destruct Hp as ((-> & -> & ->) & ->), Hsem as [-> ->]. scs.
    - destruct Hp as ((-> & -> & ->) & ->). subst s'. pose proof (seq_S i0 0). scs.
    - destruct Hp as ((-> & -> & ->) & ->). subst s'. simpl.
      destruct (parent_body acts (S i0) (mkSc (mkScope (seq 0 (S i0)) None 1 cn) ev ab
        ({[i0]} ∪ set_seq 0 i0))) as [Hb Ha]; [done| |].
      { unfold first. cbn [started]. by rewrite set_seq_S_end_union_L. }
      rewrite Ha. scs.
    - destruct Hp as ((-> & -> & ->) & ->), Hsem as [-> ->]. simpl.
      destruct (parent_body acts i0 (mkSc (mkScope (seq 0 i0) None 1 true) ev ab (set_seq 0 i0))) as [Hb Ha]; [done..|].
      unfold Scope_cancel, with_scope_state; simpl. rewrite Ha. scs.
    - subst s'. destruct Hp as ((-> & -> & ->) & ->). destruct x.
      + destruct (parent_body acts i0 (mkSc (mkScope (seq 0 i0) None 1 cn) ev ab (set_seq 0 i0))) as [Hb Ha]; [done..|].
        rewrite Ha. scs.
      + simpl. unfold fresh, first. simpl. scs.
    - destruct Hp as (m & (-> & -> & ->) & ->), Hsem as [-> ->]. simpl. unfold with_scope_state. simpl.
      destruct col eqn:Hcol; [|destruct r as [[]|e]]; simpl; unfold fresh, first; simpl; rewrite ?Hcol;
        scs.
    - destruct Hp as (m & (-> & -> & ->) & ->), Hsem as [[->| ->] ->]; simpl; unfold fresh, first; simpl;
        scs.
    - destruct Hp as (m & (-> & -> & ->) & ->), Hsem as [-> ->]. simpl. unfold first. simpl.
      scs.
    - destruct Hp as (m & -> & ->), Hsem as [-> ->]. simpl. destruct cn.
      + destruct (parent_loop r (seq 0 m) (seq 0 m) (mkSc (mkScope st wt co true) ev ab (set_seq 0 m)))
          as [Hb Ha]; [by exists m|done|by right|]. rewrite Ha. scs.
      + simpl. unfold first. simpl. scs.
    - destruct Hp as (Hl & -> & Hx), Hsem as [-> ->]. simpl. case_bool_decide as Hev.
      + destruct (parent_loop r l todo (mkSc (mkScope st wt co true) ev ab sd)) as [Hb Ha]; [done|done| |].
        { simpl. naive_solver. }
        rewrite Ha. scs.
      + simpl. unfold first. simpl. scs.
    - destruct Hp as (Hl & -> & Hx), Hsem as [-> ->]. simpl. unfold first. simpl.
      scs.
    - destruct Hp as (Hl & -> & Hx). subst s'. simpl.
      destruct (parent_loop r l todo (mkSc (mkScope st wt co true) ev ({[c]} ∪ ab) sd)) as [Hb Ha]; [done..|].
      rewrite Ha. scs.
    - destruct Hp as (Hl & Hx). subst s'. simpl. unfold first. simpl. scs.
    - destruct Hp as ((m & -> & ->) & Hx), Hsem as [[[-> Hall]| ->] ->]; simpl.
      + split_and!; [|by left|done|by left|done]. right; right. intros x Hin. apply Hall.
        apply elem_of_seq. apply elem_of_set_seq in Hin. lia.
      + scs. }
  constructor; [apply Hi|done| |].
  - intros c q Hev Hq. destruct (H2 c Hev) as [Hev'|Ha]; [|by auto].
    destruct (sc_events _ _ _ Hi c q Hev' Hq) as [?|?]; [by left|]. right. by apply H3.
  - intros c Hc. destruct (H4 c Hc) as [Hc'|?]; [|done]. by eapply H5, (sc_aborts _ _ _ Hi).
Qed.
End Invariant.

(** ** The guarantees *)

(** The tasks of [n] children, and the task that opens the scope. *)
Definition scope_pool (col : bool) (n : nat) (acts : list act) : list (pyM scopeE unit) :=
  ((if col then ColoredScope.child else child) <$> seq 0 n) ++ [if col then async_with_scope acts else Scope.with_scope acts].

Definition sc_pool_inv (col : bool) (n : nat) (ps : list scphase) (s : sc_state) : Prop :=
  exists cs p, ps = cs ++ [p] /\ length cs = n /\ sc_inv col cs p s.

Lemma scope_phases col n acts ts s :
  reachable scope_sem (scope_pool col n acts, sc_init) (ts, s) ->
  exists ps, at_phases (sc_tree col) ts ps /\ sc_pool_inv col n ps s.
Proof.
  assert (scope_pool col n acts = sc_tree col <$> ((C0 <$> seq 0 n) ++ [P0 acts])) as ->.
  { rewrite fmap_app. unfold scope_pool. f_equal. rewrite <- list_fmap_compose. by destruct col. }
  apply (phases_invariant _ _ _ (head_tree_step scope_sem _ _ (sc_heads col))).
  - exists (C0 <$> seq 0 n), (P0 acts). split_and!; [done|by rewrite length_fmap, length_seq|].
    constructor; [|done|set_solver|set_solver].
    intros c q Hq. rewrite list_lookup_fmap in Hq.
    destruct (seq 0 n !! c) as [x|] eqn:Hx; simplify_eq/=. by apply lookup_seq in Hx as [-> _].
  - intros ps s' i p p' s'' (cs & pp & -> & Hn & Hi) Hp Hst.
    apply lookup_snoc_Some in Hp as [[Hlt Hp]|[-> <-]].
    + exists (<[i:=p']> cs), pp. rewrite insert_app_l, length_insert by done.
      split_and!; [done|done|]. by eapply child_step_inv.
    + exists cs, p'. rewrite insert_app_r_alt, Nat.sub_diag by lia. split_and!; [done|done|].
      by eapply parent_step_inv.
Qed.

(** Only the last control points return. *)
Lemma sc_ret_final col p r : sc_tree col p ≅ Ret r ->
  (p = CF r \/ p = PF r) /\ forall K, ~ sc_head col p K.
Proof.
  intros Hr. destruct (sc_heads col p) as [(x & Hx & Hno)|(X & e & k & Hv & _)].
  - split; [|done]. destruct p; try (exfalso; by eapply (Hno (fun _ _ _ => True)));
      symmetry in Hr; apply eq_Ret_inj in Hr as <-; eauto.
  - exfalso. rewrite Hr in Hv. by eapply eq_Ret_Vis.
Qed.

(** The children whose events a suspended task waits for. *)
Definition waits_for {R} (t : itree scopeE R) : option (list nat) :=
  match observe t with
  | VisF e _ => match e with ScWait l => Some l | _ => None end
  | _ => None
  end.
#[export] Instance waits_for_proper {R} : Proper (eq_itree eq ==> eq) (@waits_for R).
Proof.
  intros t t' Ht. unfold waits_for.
  by destruct (eq_itree_head _ _ Ht) as
    [(? & -> & ->)|[(? & ? & -> & ->)|(? & ? & ? & ? & -> & ->)]].
Qed.

Lemma waits_for_phase col p l : waits_for (sc_tree col p) = Some l -> exists r, p = PW r l.
Proof.
  intros Hw. destruct (sc_heads col p) as [(x & Hx & _)|(X & e & k & Hv & Hk)].
  - by rewrite Hx in Hw.
  - rewrite Hv in Hw. destruct e; try done. injection Hw as ->.
    specialize (Hk (fun X e _ => match e with ScWait l' => l' = l | _ => False end)).
    pose proof (proj2 Hk eq_refl) as Hp. destruct p; simpl in Hp; try done. subst. eauto.
Qed.


(** Cancelling releases the join: once a scope has been cancelled in its block, the task
    that leaves it never waits for a child that has not ended: every event of the waiter is
    set before it suspends. *)
Theorem scope_cancel_releases col n acts ts s t l c :
  reachable scope_sem (scope_pool col n acts, sc_init) (ts, s) ->
  ts !! n = Some t -> waits_for t = Some l -> sc_cancelled (scope s) = true -> c ∈ l ->
  c ∈ events s.
Proof.
  intros Hr Ht Hw Hcn Hc.
  destruct (scope_phases _ _ _ _ _ Hr) as (ps & Hat & cs & p & -> & Hn & Hi).
  destruct (at_phases_lookup _ _ _ _ _ Hat Ht) as (q & Hq & Htq).
  rewrite <- Hn, lookup_app_r, Nat.sub_diag in Hq by done. simplify_eq/=.
  rewrite Htq in Hw. apply waits_for_phase in Hw as [r ->].
  destruct (sc_parent _ _ _ _ Hi) as [_ Hx]. by apply Hx.
Qed.

(** The child whose coroutine a task is suspended in. *)
Definition in_coroutine {R} (t : itree scopeE R) : option nat :=
  match observe t with
  | VisF e _ => match e with ScAwait c => Some c | _ => None end
  | _ => None
  end.

(** One step of task [i] of a concrete pool, the operation answering [x]. *)
Ltac scope_step i x :=
  eapply reachable_step_l;
  [eapply (pstep_task _ i);
   [reflexivity
   |eapply (tstep_vis _ _ _ _ _ _ _ x); [observe_now|cbn]]
  |cbn [insert list_insert fmap list_fmap]].


Lemma scope_cancel_releases_witness :
  exists ts s t, reachable scope_sem (scope_pool true 1 [ASpawn; ACancel], sc_init) (ts, s) /\
    ts !! 1 = Some t /\ waits_for t = Some [0] /\ 0 ∈ events s.
Proof.
  assert (exists ts s t, reachable scope_sem (scope_pool true 1 [ASpawn; ACancel], sc_init) (ts, s) /\
    ts !! 1 = Some t /\ waits_for t = Some [0] /\ sc_cancelled (scope s) = true)
    as (ts & s & t & Hr & Ht & Hw & Hc).
  { do 3 eexists. split.
    - scope_step 1 true; [by split|]. scope_step 1 true; [by split|].
      scope_step 1 tt; [done|]. scope_step 1 tt; [done|]. scope_step 1 true; [by split|].
      scope_step 1 true; [by split|]. scope_step 1 (Ok tt); [by split; [left|]|].
      scope_step 1 (Ok [0]); [by split|]. scope_step 1 true; [by split|].
      scope_step 1 false; [by split|]. scope_step 1 true; [by split|].
      scope_step 1 tt; [done|]. scope_step 1 tt; [done|].
      apply reachable_init.
    - by split_and!. }
  exists ts, s, t. split_and!; try done.
  exact (scope_cancel_releases true 1 [ASpawn; ACancel] ts s t [0] 0 Hr Ht Hw Hc ltac:(set_solver)).
Defined.

(** Leaving a cancelled scope does not wait for its children: there is an execution where
    the task that cancelled the scope is past the join while the child is still inside its
    coroutine. *)
Theorem scope_cancelled_not_awaited :
  exists ts s t tc, reachable scope_sem (scope_pool false 1 [ASpawn; ACancel], sc_init) (ts, s) /\
    ts !! 1 = Some t /\ t ≅ Ret (Ok tt) /\
    ts !! 0 = Some tc /\ in_coroutine tc = Some 0.
Proof.
  do 4 eexists. split.
  - scope_step 1 true; [by split|]. scope_step 1 true; [by split|].
    scope_step 1 tt; [done|]. scope_step 1 tt; [done|].
    scope_step 0 tt; [by split; [set_solver|]|]. scope_step 0 (Ok tt); [by split; [left|]|].
    scope_step 1 true; [by split|].
    scope_step 1 true; [by split|].
    scope_step 1 (Ok [0]); [by split|]. scope_step 1 true; [by split|].
    scope_step 1 false; [by split|]. scope_step 1 true; [by split|].
    scope_step 1 tt; [done|]. scope_step 1 tt; [done|].
    scope_step 1 (Ok tt); [split; [left; split; [done|set_solver]|done]|].
    apply reachable_init.
  - split_and!; [reflexivity|by apply eq_obs_Ret|reflexivity|reflexivity].
Qed.

(** A task spawned while the scope is being left can escape it: [_track] tests whether the
    scope is still open before it pushes the child, and [_exit] may take the stack in between.
    The join returns, nothing was cancelled, and the child starts afterwards. *)
Theorem scope_spawn_escapes :
  exists ts s t tc, reachable scope_sem
      ([child 0; Scope_spawn 0; Scope.with_scope []], sc_init) (ts, s) /\
    ts !! 2 = Some t /\ t ≅ Ret (Ok tt) /\ sc_stack (scope s) = [0] /\ aborted s = ∅ /\
    ts !! 0 = Some tc /\ in_coroutine tc = Some 0.
Proof.
  do 4 eexists. split.
  - scope_step 2 true; [by split|]. scope_step 1 true; [by split|].
    scope_step 2 true; [by split|]. scope_step 2 (Ok (@nil nat)); [by split|].
    scope_step 2 false; [by split|]. scope_step 2 tt; [done|].
    scope_step 2 (Ok tt); [split; [left; split; [done|set_solver]|done]|].
    scope_step 1 tt; [done|]. scope_step 1 tt; [done|].
    scope_step 0 tt; [by split; [set_solver|]|]. scope_step 0 (Ok tt); [by split; [left|]|].
    apply reachable_init.
  - split_and!; [reflexivity|by apply eq_obs_Ret|reflexivity..].
Qed.
