(* ===== verification/Blocking.v ===== *)
(** * Running a function on the blocking pool

    [spawn_blocking] of [src/tonio/_ctl.py] and [src/tonio/_colored/_ctl.py] and the
    [BlockingTask] of [src/src/blocking.rs]: the coroutine and the thread that runs the
    function share the task's state word, the thread's identity, a [Result] of two slots and
    an event.  Every access to one of them is a step of its own. *)

From stdpp Require Import base numbers list strings.
From Stdlib Require Import ZArith Lia.
From ITree Require Import ITree ITreeFacts.
From S2P Require Import Prelude Coro Os Spawn.

Open Scope tonio_scope.
Open Scope nat_scope.

Inductive TaskState := Queued | Running | Cancelled | Done.
#[export] Instance TaskState_eq_dec : EqDecision TaskState.
Proof. solve_decision. Defined.

(** [BTransition] is the compare-and-exchange, [BSetTid] publishes or clears the thread
    identity and [BTid] tells whether one is published, [BInterrupt] is
    [PyThreadState_SetAsyncExc], [BCall] the call of the function. *)
Variant blockE : Type -> Type :=
| BTransition (from to : TaskState) : blockE bool
| BState (st : TaskState) : blockE unit
| BIs (st : TaskState) : blockE bool
| BSetTid (b : bool) : blockE unit
| BTid : blockE bool
| BStore (value : pyobj) (index : nat) : blockE unit
| BFetch : blockE pyobj
| BNotify : blockE unit
| BInterrupt : blockE unit
| BCall : blockE (result pyobj)
| BWait : blockE (result unit).

(** ** [BlockingTaskCtl] *)

Definition store_ok (value : pyobj) : pyM blockE unit :=
  pop (BStore (PBool false) 0) ;;; pop (BStore value 1).

Definition store_err (err : exn) : pyM blockE unit :=
  pop (BStore (PBool true) 0) ;;; pop (BStore (PExn err) 1).

Definition begin : pyM blockE bool :=
  pop (BSetTid true) ;;;
  let! ok := pop (BTransition Queued Running) in
  if ok then pret true else pop (BSetTid false) ;;; pret false.

Definition finish : pyM blockE unit :=
  pop (BSetTid false) ;;; pop (BState Done).

Definition abort : pyM blockE unit :=
  let! queued := pop (BTransition Queued Cancelled) in
  if queued then store_err CancelledError ;;; pop BNotify
  else
    let! running := pop (BIs Running) in
    if running then
      let! tid := pop BTid in
      if tid then pop BInterrupt else pret tt
    else pret tt.

(** ** [BlockingTask::run] *)

Definition try_call : pyM blockE (result pyobj) :=
  ITree.bind (ITree.trigger BCall) (fun res => pret res).

Definition run : pyM blockE unit :=
  let! started := begin in
  if started then
    let! res := try_call in
    match res with Ok v => store_ok v | Err e => store_err e end ;;;
    finish ;;;
    pop BNotify
  else pret tt.

(** ** [spawn_blocking] *)

(** [err, val = res.fetch()]. *)
Definition fetch2 : pyM blockE (pyobj * pyobj) :=
  let! res := pop BFetch in
  match res with
  | PList [err; val] => pret (err, val)
  | _ => praise (ValueError "not enough values to unpack")
  end.

(** [raise val]. *)
Definition raise_value {A} (val : pyobj) : pyM blockE A :=
  match val with
  | PExn e => praise e
  | _ => praise (TypeError "exceptions must derive from BaseException")
  end.

Definition return_or_raise (err val : pyobj) : pyM blockE pyobj :=
  match err with PBool true => raise_value val | _ => pret val end.

Definition suppress_cancelled (c : pyM blockE unit) : pyM blockE unit :=
  ptry c (fun e => if is_Cancelled e then Some (pret tt) else None).

Definition spawn_blocking : pyM blockE pyobj :=
  suppress_cancelled (pcall BWait) ;;;
  let! ev := fetch2 in
  let! ev :=
    match fst ev with
    | PNone => abort ;;; pcall BWait ;;; fetch2
    | _ => pret ev
    end in
  return_or_raise (fst ev) (snd ev).

Module ColoredBlocking.
Definition spawn_blocking : pyM blockE pyobj :=
  suppress_cancelled (pcall BWait) ;;;
  let! ev := fetch2 in
  let! ev :=
    match fst ev with
    | PNone => abort ;;; pcall BWait ;;; fetch2
    | _ => pret ev
    end in
  return_or_raise (fst ev) (snd ev).
End ColoredBlocking.
