(* ===== verification/BlockingProps.v ===== *)
(** * What [spawn_blocking] returns

    The coroutine and the thread of the pool, under every interleaving, with and without a
    cancellation of the coroutine. *)

From stdpp Require Import base numbers list strings.
From Stdlib Require Import ZArith Lia.
From ITree Require Import ITree ITreeFacts.
From S2P Require Import Prelude Coro Os Spawn Blocking.

Open Scope tonio_scope.
Open Scope nat_scope.
#[local] Set Warnings "-clear-no-such-hyp".

(** ** The shared state *)

(** The state word, whether a thread identity is published, the slots, the event, whether the
    thread was interrupted, and (for the statements) what the call of the function ended with. *)
Record bstate := mkB {
  b_st : TaskState; b_tid : bool; b_res : ResultHolder; b_event : bool; b_interrupted : bool;
  b_ran : option (result pyobj)
}.

Definition block_init : bstate := mkB Queued false (ResultHolder_new 2) false false None.

(** [canc]: the coroutine may be cancelled where it waits.  [out]: what the function returns or
    raises when nobody interrupts it. *)
Definition block_sem (canc : bool) (out : result pyobj) (X : Type) (tid : nat) (e : blockE X)
    (s : bstate) (x : X) (s' : bstate) : Prop :=
  match e in blockE X return X -> Prop with
  | BTransition from to => fun x => x = bool_decide (b_st s = from) /\
      s' = mkB (if bool_decide (b_st s = from) then to else b_st s) (b_tid s) (b_res s) (b_event s)
             (b_interrupted s) (b_ran s)
  | BState st => fun _ => s' = mkB st (b_tid s) (b_res s) (b_event s) (b_interrupted s) (b_ran s)
  | BIs st => fun x => x = bool_decide (b_st s = st) /\ s' = s
  | BSetTid b => fun _ => s' = mkB (b_st s) b (b_res s) (b_event s) (b_interrupted s) (b_ran s)
  | BTid => fun x => x = b_tid s /\ s' = s
  | BStore v i => fun _ => exists res, ResultHolder_store v (Some i) (b_res s) = Some res /\
      s' = mkB (b_st s) (b_tid s) res (b_event s) (b_interrupted s) (b_ran s)
  | BFetch => fun x => x = ResultHolder_fetch (b_res s) /\ s' = s
  | BNotify => fun _ => s' = mkB (b_st s) (b_tid s) (b_res s) true (b_interrupted s) (b_ran s)
  | BInterrupt => fun _ => s' = mkB (b_st s) (b_tid s) (b_res s) (b_event s) true (b_ran s)
  | BCall => fun x => (b_interrupted s = false -> x = out) /\
      s' = mkB (b_st s) (b_tid s) (b_res s) (b_event s) (b_interrupted s) (Some x)
  | BWait => fun x => (x = Ok tt /\ b_event s = true \/ canc = true /\ x = Err CancelledError) /\ s' = s
  end x.

(** ** Control points *)

Inductive bphase : Type :=
| B0 | B1 | B2 | B3 | B4 | B5 | B6 | B7 | B8 | B9 | B10 | BF (r : result pyobj)
| K0 | K1 | K2 | K3 (x : result pyobj) | K4 (x : result pyobj) | K5 (x : result pyobj)
| K6 (x : result pyobj) | K7 (x : result pyobj) | K8 (x : result pyobj) | K9 | KF.

Definition raised (val : pyobj) : result pyobj :=
  match val with
  | PExn e => Err e
  | _ => Err (TypeError "exceptions must derive from BaseException")
  end.
Definition returned (err val : pyobj) : result pyobj :=
  match err with PBool true => raised val | _ => Ok val end.
Definition unpack_error : exn := ValueError "not enough values to unpack".

Definition after_first (v : pyobj) : bphase :=
  match v with
  | PList [err; val] => match err with PNone => B2 | _ => BF (returned err val) end
  | _ => BF (Err unpack_error)
  end.
Definition after_second (v : pyobj) : bphase :=
  match v with PList [err; val] => BF (returned err val) | _ => BF (Err unpack_error) end.

Definition flag_of (x : result pyobj) : pyobj :=
  match x with Ok _ => PBool false | Err _ => PBool true end.
Definition val_of (x : result pyobj) : pyobj := match x with Ok v => v | Err e => PExn e end.

Definition b_head (p : bphase) (K : forall X, blockE X -> (X -> bphase) -> Prop) : Prop :=
  match p with
  | B0 => K _ BWait (fun x => match x with
                              | Ok _ => B1
                              | Err e => if is_Cancelled e then B1 else BF (Err e) end)
  | B1 => K _ BFetch after_first
  | B2 => K _ (BTransition Queued Cancelled) (fun b => if b then B3 else B6)
  | B3 => K _ (BStore (PBool true) 0) (fun _ => B4)
  | B4 => K _ (BStore (PExn CancelledError) 1) (fun _ => B5)
  | B5 => K _ BNotify (fun _ => B9)
  | B6 => K _ (BIs Running) (fun b => if b then B7 else B9)
  | B7 => K _ BTid (fun b => if b then B8 else B9)
  | B8 => K _ BInterrupt (fun _ => B9)
  | B9 => K _ BWait (fun x => match x with Ok _ => B10 | Err e => BF (Err e) end)
  | B10 => K _ BFetch after_second
  | K0 => K _ (BSetTid true) (fun _ => K1)
  | K1 => K _ (BTransition Queued Running) (fun b => if b then K2 else K9)
  | K9 => K _ (BSetTid false) (fun _ => KF)
  | K2 => K _ BCall K3
  | K3 x => K _ (BStore (flag_of x) 0) (fun _ => K4 x)
  | K4 x => K _ (BStore (val_of x) 1) (fun _ => K5 x)
  | K5 x => K _ (BSetTid false) (fun _ => K6 x)
  | K6 x => K _ (BState Done) (fun _ => K7 x)
  | K7 x => K _ BNotify (fun _ => K8 x)
  | BF _ | K8 _ | KF => False
  end.

(** The rest of the code at a control point, from the end backwards. *)
Definition bfinal (p : bphase) : pyM blockE pyobj :=
  match p with BF r => Ret r | _ => Ret (Ok PNone) end.
Definition t_b10 : pyM blockE pyobj := Vis BFetch (fun v => bfinal (after_second v)).
Definition t_b9 : pyM blockE pyobj :=
  Vis BWait (fun x : result unit => match x with Ok _ => t_b10 | Err e => Ret (Err e) end).
Definition t_b8 : pyM blockE pyobj := Vis BInterrupt (fun _ => t_b9).
Definition t_b7 : pyM blockE pyobj := Vis BTid (fun b : bool => if b then t_b8 else t_b9).
Definition t_b6 : pyM blockE pyobj := Vis (BIs Running) (fun b : bool => if b then t_b7 else t_b9).
Definition t_b5 : pyM blockE pyobj := Vis BNotify (fun _ => t_b9).
Definition t_b4 : pyM blockE pyobj := Vis (BStore (PExn CancelledError) 1) (fun _ => t_b5).
Definition t_b3 : pyM blockE pyobj := Vis (BStore (PBool true) 0) (fun _ => t_b4).
Definition t_b2 : pyM blockE pyobj :=
  Vis (BTransition Queued Cancelled) (fun b : bool => if b then t_b3 else t_b6).
Definition t_b1 : pyM blockE pyobj :=
  Vis BFetch (fun v => match after_first v with B2 => t_b2 | p => bfinal p end).
Definition t_k7 : pyM blockE pyobj := Vis BNotify (fun _ => Ret (Ok PNone)).
Definition t_k6 : pyM blockE pyobj := Vis (BState Done) (fun _ => t_k7).
Definition t_k5 : pyM blockE pyobj := Vis (BSetTid false) (fun _ => t_k6).
Definition t_k4 (x : result pyobj) : pyM blockE pyobj := Vis (BStore (val_of x) 1) (fun _ => t_k5).
Definition t_k3 (x : result pyobj) : pyM blockE pyobj := Vis (BStore (flag_of x) 0) (fun _ => t_k4 x).
Definition t_k2 : pyM blockE pyobj := Vis BCall t_k3.
Definition t_k9 : pyM blockE pyobj := Vis (BSetTid false) (fun _ => Ret (Ok PNone)).
Definition t_k1 : pyM blockE pyobj :=
  Vis (BTransition Queued Running) (fun b : bool => if b then t_k2 else t_k9).

(** The thread of the pool that takes the task. *)
Definition worker : pyM blockE pyobj := run ;;; pret PNone.

Definition b_tree (p : bphase) : pyM blockE pyobj :=
  match p with
  | B0 => spawn_blocking | B1 => t_b1 | B2 => t_b2 | B3 => t_b3 | B4 => t_b4 | B5 => t_b5
  | B6 => t_b6 | B7 => t_b7 | B8 => t_b8 | B9 => t_b9 | B10 => t_b10 | BF r => Ret r
  | K0 => worker | K1 => t_k1 | K2 => t_k2 | K3 x => t_k3 x | K4 x => t_k4 x | K5 _ => t_k5
  | K6 _ => t_k6 | K7 _ => t_k7 | K9 => t_k9 | K8 _ | KF => Ret (Ok PNone)
  end.

(** ** The code at its control points *)

Lemma pret_bind {A R} (a : A) (k : result A -> itree blockE R) : ITree.bind (pret a) k ≅ k (Ok a).
Proof. unfold pret. by rewrite bind_ret_l. Qed.

(** Normalise the head of a sequence. *)
Ltac norm := rewrite ?pbind_assoc, ?pbind_pop, ?pbind_pret, ?pbind_pcall, ?pbind_praise.
Ltac norm_vis := norm; apply eqit_Vis; intros ?.

Lemma fetch2_eq {A} (k : pyobj * pyobj -> pyM blockE A) :
  pbind fetch2 k ≅ Vis BFetch (fun v => match v with
    | PList [err; val] => k (err, val) | _ => praise unpack_error end).
Proof.
  unfold fetch2. norm_vis.
  repeat match goal with |- context [match ?x with _ => _ end] => is_var x; destruct x end;
    by rewrite ?pbind_pret, ?pbind_praise.
Qed.

Lemma return_or_raise_eq err val : return_or_raise err val = Ret (returned err val).
Proof. destruct err as [|[]| | | | | | | |]; try done. by destruct val. Qed.

Lemma second_eq : (let! ev := (pcall BWait ;;; fetch2) in return_or_raise (fst ev) (snd ev)) ≅ t_b9.
Proof.
  norm_vis. match goal with |- context [match ?x with _ => _ end] => destruct x end; [|done].
  rewrite fetch2_eq. apply eqit_Vis. intros v.
  destruct v as [| | | | | |l| | |]; try done. destruct l as [|err [|val [|]]]; try done.
  by rewrite return_or_raise_eq.
Qed.

Lemma abort_eq :
  (let! ev := (abort ;;; pcall BWait ;;; fetch2) in return_or_raise (fst ev) (snd ev)) ≅ t_b2.
Proof.
  rewrite pbind_assoc. unfold abort, store_err. norm_vis.
  match goal with |- context [if ?x then _ else _] => destruct x end.
  - norm_vis. norm_vis. norm_vis. apply second_eq.
  - norm_vis. match goal with |- context [if ?x then _ else _] => destruct x end.
    + norm_vis. match goal with |- context [if ?x then _ else _] => destruct x end.
      * norm_vis. apply second_eq.
      * rewrite pbind_pret. apply second_eq.
    + rewrite pbind_pret. apply second_eq.
Qed.

Lemma first_eq :
  (let! ev := fetch2 in
   let! ev := match fst ev with PNone => abort ;;; pcall BWait ;;; fetch2 | _ => pret ev end in
   return_or_raise (fst ev) (snd ev)) ≅ t_b1.
Proof.
  rewrite fetch2_eq. apply eqit_Vis. intros v.
  destruct v as [| | | | | |l| | |]; try done. destruct l as [|err [|val [|]]]; try done.
  destruct err as [|[]| | | | | | | |]; simpl; rewrite ?pbind_pret; simpl;
    rewrite ?return_or_raise_eq; try done; [|].
  - apply abort_eq.
  - by destruct val.
Qed.

Lemma spawn_blocking_eq : spawn_blocking ≅
  Vis BWait (fun x => b_tree match x with
    | Ok _ => B1 | Err e => if is_Cancelled e then B1 else BF (Err e) end).
Proof.
  unfold spawn_blocking, suppress_cancelled, ptry.
  rewrite ptry_else_pcall, pbind_vis. apply eqit_Vis. intros [[]|e].
  - rewrite pbind_pret. apply first_eq.
  - destruct (is_Cancelled e); [rewrite pbind_pret; apply first_eq|by rewrite pbind_praise].
Qed.

Lemma run_rest_eq x :
  (match x with Ok v => store_ok v | Err e => store_err e end ;;; finish ;;; pop BNotify) ;;;
  pret PNone ≅ t_k3 x.
Proof.
  destruct x as [v|e]; unfold store_ok, store_err, finish; do 5 norm_vis; done.
Qed.

Lemma worker_eq : worker ≅ Vis (BSetTid true) (fun _ => t_k1).
Proof.
  unfold worker, run, begin. norm_vis. norm_vis.
  match goal with |- context [if ?x then _ else _] => destruct x end.
  - rewrite pbind_pret. unfold try_call. unfold pbind at 1 2. rewrite bind_bind, bind_trigger, bind_vis.
    apply eqit_Vis. intros x. rewrite pret_bind. apply run_rest_eq.
  - norm_vis. by rewrite !pbind_pret.
Qed.

Lemma b_heads p : heads_ok b_tree b_head p.
Proof.
  destruct p; try (left; eexists; split; [simpl; reflexivity|by intros K HK]); right; do 3 eexists;
    (split; [|by intros K; split; intros HK; exact HK]); simpl.
  - apply spawn_blocking_eq.
  - apply eqit_Vis. intros v. unfold after_first. by repeat case_match.
  - apply eqit_Vis. by intros [].
  - done.
  - done.
  - done.
  - apply eqit_Vis. by intros [].
  - apply eqit_Vis. by intros [].
  - done.
  - apply eqit_Vis. by intros [].
  - apply eqit_Vis. intros v. unfold after_second. by repeat case_match.
  - apply worker_eq.
  - apply eqit_Vis. by intros [].
  - done.
  - done.
  - done.
  - done.
  - done.
  - done.
  - done.
Qed.

(** ** The invariant *)

Section Invariant.
Context (canc : bool) (out : result pyobj).

(** The two slots: written by whoever settled the task. *)
Definition slots (c w : bphase) (st : TaskState) : list pyobj :=
  match st with
  | Cancelled =>
      match c with
      | B3 => [PNone; PNone] | B4 => [PBool true; PNone]
      | _ => [PBool true; PExn CancelledError]
      end
  | _ =>
      match w with
      | K4 x => [flag_of x; PNone]
      | K5 x | K6 x | K7 x | K8 x => [flag_of x; val_of x]
      | _ => [PNone; PNone]
      end
  end.

Definition worker_at (w : bphase) (s : bstate) : Prop :=
  match w with
  | K0 | K1 => (b_st s = Queued \/ b_st s = Cancelled) /\ b_ran s = None
  | K9 | KF => b_st s = Cancelled /\ b_ran s = None
  | K2 => b_st s = Running /\ b_ran s = None
  | K3 x | K4 x | K5 x | K6 x => b_st s = Running /\ b_ran s = Some x
  | K7 x | K8 x => b_st s = Done /\ b_ran s = Some x
  | _ => False
  end.

(** What the coroutine may end with: the outcome of the call or, only where it was cancelled,
    [CancelledError] or a result of which it saw the first slot only. *)
Definition torn (r : result pyobj) : Prop := r = Ok PNone \/ r = raised PNone.
Definition settled (r : result pyobj) (s : bstate) : Prop :=
  b_ran s = Some r \/ canc = true /\ (r = Err CancelledError \/ torn r).

Definition client_at (c : bphase) (s : bstate) : Prop :=
  match c with
  | B0 => b_st s <> Cancelled
  | B1 => b_st s <> Cancelled /\ (b_event s = true \/ canc = true)
  | B2 | B6 | B7 | B8 => b_st s <> Cancelled /\ canc = true
  | B3 | B4 | B5 => b_st s = Cancelled /\ canc = true
  | B9 => canc = true
  | B10 => canc = true /\ b_event s = true
  | BF r => settled r s
  | _ => False
  end.

(** The coroutine is past the point where its own abort set the event. *)
Definition past_abort (c : bphase) : bool :=
  match c with B9 | B10 | BF _ => true | _ => false end.
Definition notified (c w : bphase) (s : bstate) : Prop :=
  match b_st s with Cancelled => past_abort c = true | _ => exists x, w = K8 x end.

Record binv (c w : bphase) (s : bstate) : Prop := {
  bi_worker : worker_at w s;
  bi_client : client_at c s;
  bi_slots : b_res s = mkResult 2 (slots c w (b_st s));
  bi_event : b_event s = true <-> notified c w s;
  bi_int : b_interrupted s = true -> canc = true;
  bi_out : forall x, canc = false -> b_ran s = Some x -> x = out
}.

Lemma returned_full x : returned (flag_of x) (val_of x) = x.
Proof. by destruct x. Qed.
Lemma returned_torn x : torn (returned (flag_of x) PNone).
Proof. destruct x; [by left|by right]. Qed.

(** What the coroutine does with the slots it fetched. *)
Lemma fetch_first w s : binv B1 w s ->
  match after_first (ResultHolder_fetch (b_res s)) with
  | B2 => canc = true | BF r => settled r s | _ => False end.
Proof.
  intros Hi. rewrite (bi_slots _ _ _ Hi). destruct (bi_client _ _ _ Hi) as [Hst Hev].
  pose proof (bi_worker _ _ _ Hi) as Hw.
  assert (canc = true \/ exists x, w = K8 x) as Hc.
  { destruct Hev as [Hev|]; [|by left]. apply (bi_event _ _ _ Hi) in Hev.
    unfold notified in Hev. destruct (b_st s); naive_solver. }
  destruct w as [| | | | | | | | | | | | | | |x|x|x|x|x|x| |]; simpl in Hw; try done;
    destruct Hw as [Hst' Hran]; try (destruct Hst' as [Hst'|Hst']); rewrite Hst' in *; try done;
    unfold ResultHolder_fetch, after_first; simpl; try (destruct Hc as [Hc|[? ?]]; done).
  - destruct Hc as [Hc|[? ?]]; [|done]. destruct x; simpl; right; (split; [done|]); right; [by left|by right].
  - destruct x; left; by rewrite Hran.
  - destruct x; left; by rewrite Hran.
  - destruct x; left; by rewrite Hran.
  - destruct x; left; by rewrite Hran.
Qed.

Lemma fetch_second w s : binv B10 w s ->
  exists r, after_second (ResultHolder_fetch (b_res s)) = BF r /\ settled r s.
Proof.
  intros Hi. rewrite (bi_slots _ _ _ Hi). destruct (bi_client _ _ _ Hi) as [Hc Hev].
  apply (bi_event _ _ _ Hi) in Hev. unfold notified in Hev. pose proof (bi_worker _ _ _ Hi) as Hw.
  unfold ResultHolder_fetch, after_second, settled. simpl.
  destruct (b_st s) eqn:Hst; simpl.
  1,2,4: destruct Hev as [x ->]; simpl in Hw; destruct Hw as [Hst' Hran]; try congruence;
    exists x; rewrite Hran, returned_full; by split; [|left].
  eexists. split; [done|]. right. by split; [|left].
Qed.

(** The steps of the coroutine. *)
Lemma client_step_inv c w s i c' s' : binv c w s -> ~ worker_at c s ->
  head_step (block_sem canc out) b_head i s c c' s' -> binv c' w s'.
Proof.
  intros Hi Hn Hs. pose proof Hi as [Hw Hc Hsl Hev Hint Hout].
  destruct s as [st tid res ev intr ran]. simpl in *.
  destruct c; simpl in Hc; try done; destruct Hs as (x & Hsem & ->); simpl in Hsem.
  - destruct Hsem as [[[-> He]|[Hcn ->]] ->]; simpl; constructor; simpl; auto; by destruct st.
  - destruct Hsem as [-> ->]. pose proof (fetch_first _ _ Hi) as Hf. destruct Hc as [Hst _].
    destruct (after_first _) as [| | | | | | | | | | |r| | | | | | | | | | |] eqn:Ha; try done;
      constructor; simpl; try done; by destruct st.
  - destruct Hc as [Hst Hc], Hsem as [-> ->]. case_bool_decide as Hq.
    + subst st. destruct w; simpl in Hw; try (by destruct Hw); destruct Hw as [_ Hran];
        (constructor; simpl; try done; [by auto|]; unfold notified in *; simpl in *;
         split; [by intros [? ?]%Hev|done]).
    + constructor; simpl; try done; by destruct st.
  - destruct Hc as [-> Hc], Hsem as (r & Hr & ->). rewrite Hsl in Hr.
    unfold ResultHolder_store in Hr. simpl in Hr. injection Hr as <-.
    constructor; simpl; try done.
  - destruct Hc as [-> Hc], Hsem as (r & Hr & ->). rewrite Hsl in Hr.
    unfold ResultHolder_store in Hr. simpl in Hr. injection Hr as <-.
    constructor; simpl; try done.
  - destruct Hc as [-> Hc]. subst s'. constructor; simpl; try done.
  - destruct Hc as [Hst Hc], Hsem as [-> ->]. case_bool_decide; constructor; simpl; try done; by destruct st.
  - destruct Hc as [Hst Hc], Hsem as [-> ->]. destruct tid; constructor; simpl; try done; by destruct st.
  - destruct Hc as [Hst Hc]. subst s'. constructor; simpl; try done; by destruct st.
  - destruct Hsem as [[[-> He]|[Hcn ->]] ->]; simpl; constructor; simpl; try done.
    right. by split; [|left].
  - destruct Hsem as [-> ->]. destruct (fetch_second _ _ Hi) as (r & Ha & Hr). simpl in Ha. rewrite Ha.
    by constructor.
Qed.

(** What the coroutine relies on is kept by the thread. *)
Lemma client_mono c s s' : client_at c s ->
  (b_st s' = Cancelled <-> b_st s = Cancelled) -> (b_event s = true -> b_event s' = true) ->
  (forall r, b_ran s = Some r -> b_ran s' = Some r) -> client_at c s'.
Proof.
  intros Hc Hst Hev Hran. destruct c; simpl in *; try tauto. unfold settled in *. naive_solver.
Qed.

(** The event while the thread owns the task. *)
Lemma owned_event c w w' s s' : (b_event s = true <-> notified c w s) ->
  b_st s <> Cancelled -> b_st s' <> Cancelled -> b_event s' = b_event s ->
  (forall x, w <> K8 x) -> (forall x, w' <> K8 x) -> (b_event s' = true <-> notified c w' s').
Proof.
  intros Hev Hst Hst' -> Hw Hw'. rewrite Hev. unfold notified. split; intros Hn; exfalso.
  - assert (exists x, w = K8 x) as [x Hx] by by destruct (b_st s). by apply (Hw x).
  - assert (exists x, w' = K8 x) as [x Hx] by by destruct (b_st s'). by apply (Hw' x).
Qed.

(** The steps of the thread. *)
Lemma worker_step_inv c w s i w' s' : binv c w s -> ~ client_at w s ->
  head_step (block_sem canc out) b_head i s w w' s' -> binv c w' s'.
Proof.
  intros Hi Hn Hs. pose proof Hi as [Hw Hc Hsl Hev Hint Hout].
  destruct w; simpl in Hw; try done; destruct Hs as (x' & Hsem & ->); simpl in Hsem;
    destruct Hw as [Hst Hran].
  - subst s'. constructor; [simpl; by auto| |simpl| |exact Hint|exact Hout].
    + eapply client_mono; [exact Hc|done..].
    + rewrite Hsl. by destruct (b_st s).
    + simpl. rewrite Hev. unfold notified. simpl. destruct (b_st s); try reflexivity; by split; intros [? ?].
  - destruct Hsem as [-> ->]. case_bool_decide as Hq; [|destruct Hst as [?|Hst]; [done|]].
    + constructor; [simpl; by auto| |simpl| |exact Hint|exact Hout].
      * eapply client_mono; [exact Hc| |done..]. simpl. by rewrite Hq.
      * by rewrite Hsl, Hq.
      * eapply owned_event; [exact Hev|..]; simpl; congruence.
    + constructor; [simpl; by auto| |simpl| |exact Hint|exact Hout].
      * eapply client_mono; [exact Hc|done..].
      * by rewrite Hsl, Hst.
      * simpl. rewrite Hev. unfold notified. simpl. by rewrite Hst.
  - destruct Hsem as [Hx ->]. constructor; [simpl; by auto| |simpl| |exact Hint|].
    + eapply client_mono; [exact Hc|done|done|]. simpl. by rewrite Hran.
    + by rewrite Hsl, Hst.
    + eapply owned_event; [exact Hev|..]; simpl; congruence.
    + simpl. intros x Hcn [= ->]. apply Hx. destruct (b_interrupted s); [|done]. by rewrite Hint in Hcn.
  - destruct Hsem as (r & Hr & ->). rewrite Hsl, Hst in Hr.
    unfold ResultHolder_store in Hr. simpl in Hr. injection Hr as <-. constructor; [simpl; by auto| |simpl| |exact Hint|exact Hout].
    + eapply client_mono; [exact Hc|done..].
    + by rewrite Hst.
    + eapply owned_event; [exact Hev|..]; simpl; congruence.
  - destruct Hsem as (r & Hr & ->). rewrite Hsl, Hst in Hr.
    unfold ResultHolder_store in Hr. simpl in Hr. injection Hr as <-. constructor; [simpl; by auto| |simpl| |exact Hint|exact Hout].
    + eapply client_mono; [exact Hc|done..].
    + by rewrite Hst.
    + eapply owned_event; [exact Hev|..]; simpl; congruence.
  - subst s'. constructor; [simpl; by auto| |simpl| |exact Hint|exact Hout].
    + eapply client_mono; [exact Hc|done..].
    + by rewrite Hsl, Hst.
    + eapply owned_event; [exact Hev|..]; simpl; congruence.
  - subst s'. constructor; [simpl; by auto| |simpl| |exact Hint|exact Hout].
    + eapply client_mono; [exact Hc| |done..]. simpl. by rewrite Hst.
    + by rewrite Hsl, Hst.
    + eapply owned_event; [exact Hev|..]; simpl; congruence.
  - subst s'. constructor; [simpl; by auto| |simpl| |exact Hint|exact Hout].
    + eapply client_mono; [exact Hc|done..].
    + by rewrite Hsl, Hst.
    + unfold notified. simpl. rewrite Hst. split; [by eexists|done].
  - subst s'. constructor; [simpl; by auto| |simpl| |exact Hint|exact Hout].
    + eapply client_mono; [exact Hc|done..].
    + by rewrite Hsl, Hst.
    + simpl. rewrite Hev. unfold notified. simpl. by rewrite Hst.
Qed.

Definition b_pool_inv (ps : list bphase) (s : bstate) : Prop :=
  exists c w, ps = [c; w] /\ binv c w s.
End Invariant.

(** ** The guarantees *)

Definition block_pool (col : bool) : list (pyM blockE pyobj) :=
  [if col then ColoredBlocking.spawn_blocking else spawn_blocking; worker].

Lemma block_phases canc out col ts s :
  reachable (block_sem canc out) (block_pool col, block_init) (ts, s) ->
  exists c w t tw, ts = [t; tw] /\ t ≅ b_tree c /\ tw ≅ b_tree w /\ binv canc out c w s.
Proof.
  assert (block_pool col = b_tree <$> [B0; K0]) as -> by by destruct col.
  intros Hr. destruct (phases_invariant _ _ _ (head_tree_step (block_sem canc out) _ _ b_heads)
    (b_pool_inv canc out) [B0; K0] block_init ts s) as (ps & Hat & c & w & -> & Hi); [| |exact Hr|].
  - exists B0, K0. split; [done|]. constructor; simpl; try done; [by auto|].
    unfold notified. simpl. by split; [|intros [? ?]].
  - intros ps s' i p p' s'' (c & w & -> & Hi) Hp Hst.
    assert (forall p, worker_at p s' -> client_at canc p s' -> False) as Hdis by by intros [].
    destruct i as [|[|i]]; simplify_eq/=.
    + exists p', w. split; [done|]. eapply client_step_inv; [done| |done].
      intros Hw. by eapply Hdis, (bi_client _ _ _ _ _ Hi).
    + exists c, p'. split; [done|]. eapply worker_step_inv; [done| |done].
      intros Hc. by eapply Hdis; [apply (bi_worker _ _ _ _ _ Hi)|].
  - inv Hat as [|t ? ts' ? Ht Hat']. inv Hat' as [|tw ? ts'' ? Htw Hat'']. inv Hat''. eauto 10.
Qed.

Lemma b_ret_final p r : b_tree p ≅ Ret r -> p = BF r \/ r = Ok PNone /\ (exists x, p = K8 x) \/ r = Ok PNone /\ p = KF.
Proof.
  intros Hr. destruct (b_heads p) as [(x & Hx & Hno)|(X & e & k & Hv & _)].
  - destruct p; try (exfalso; by eapply (Hno (fun _ _ _ => True)));
      symmetry in Hr; apply eq_Ret_inj in Hr as ->; eauto.
  - exfalso. rewrite Hr in Hv. by eapply eq_Ret_Vis.
Qed.

Lemma client_final canc out c w s r : binv canc out c w s -> b_tree c ≅ Ret r -> settled canc r s.
Proof.
  intros Hi Hr. pose proof (bi_client _ _ _ _ _ Hi) as Hc.
  destruct (b_ret_final _ _ Hr) as [->|[[_ [x ->]]|[_ ->]]]; done.
Qed.

(** Every step leads closer to the end. *)
Definition b_rank (p : bphase) : nat :=
  match p with
  | B0 => 11 | B1 => 10 | B2 => 9 | B3 => 8 | B4 => 7 | B5 => 6 | B6 => 5 | B7 => 4 | B8 => 3
  | B9 => 2 | B10 => 1 | BF _ => 0
  | K0 => 9 | K1 => 8 | K2 => 7 | K3 _ => 6 | K4 _ => 5 | K5 _ => 4 | K6 _ => 3 | K7 _ => 2
  | K9 => 1 | K8 _ | KF => 0
  end.

Lemma b_step_rank canc out i s p p' s' :
  head_step (block_sem canc out) b_head i s p p' s' -> b_rank p' < b_rank p.
Proof.
  destruct p; intros Hs; try done; destruct Hs as (x' & _ & ->);
    unfold after_first, after_second; repeat case_match; simpl; lia.
Qed.

(** The thread is never blocked, and the coroutine only while the event is not set. *)
Lemma worker_enabled canc out c w s : binv canc out c w s -> b_rank w <> 0 ->
  exists w' s', head_step (block_sem canc out) b_head 1 s w w' s'.
Proof.
  intros Hi Hr. pose proof (bi_worker _ _ _ _ _ Hi) as Hw. pose proof (bi_slots _ _ _ _ _ Hi) as Hs.
  destruct w; simpl in Hw, Hr; try done; unfold head_step; simpl.
  - do 2 eexists. exists tt. done.
  - do 2 eexists. eexists. done.
  - do 2 eexists. exists out. done.
  - destruct Hw as [Hst _]. rewrite Hst in Hs. do 2 eexists. exists tt. split; [|done].
    eexists. split; [|done]. by rewrite Hs.
  - destruct Hw as [Hst _]. rewrite Hst in Hs. do 2 eexists. exists tt. split; [|done].
    eexists. split; [|done]. by rewrite Hs.
  - do 2 eexists. exists tt. done.
  - do 2 eexists. exists tt. done.
  - do 2 eexists. exists tt. done.
  - do 2 eexists. exists tt. done.
Qed.

(** [C21] [spawn_blocking] (of either API) returns what the function returns and raises what it
    raises: where the coroutine is not cancelled, every execution is finite, and when nothing
    can move any more the coroutine has ended with the outcome of the call; it can have ended
    with nothing else before. *)
Theorem blocking_returns col out :
  let c0 := (block_pool col, block_init) in
  Acc (flip (pstep (block_sem false out))) c0 /\
  forall ts s, reachable (block_sem false out) c0 (ts, s) ->
    (forall t r, ts !! 0 = Some t -> t ≅ Ret r -> r = out /\ b_ran s = Some out) /\
    ((forall c', ~ pstep (block_sem false out) (ts, s) c') ->
       exists t, ts !! 0 = Some t /\ t ≅ Ret out).
Proof.
  intros c0. split.
  { eapply (phases_terminate _ _ _ (head_tree_step (block_sem false out) _ _ b_heads) b_rank).
    - intros i s p p' s'. apply b_step_rank.
    - assert (block_pool col = b_tree <$> [B0; K0]) as -> by by destruct col.
      apply Forall2_fmap_l, Forall_Forall2_diag, Forall_true. intros p. simpl. reflexivity. }
  intros ts s Hr. destruct (block_phases _ _ _ _ _ Hr) as (c & w & t & tw & -> & Ht & Htw & Hi).
  assert (forall r, b_tree c ≅ Ret r -> r = out /\ b_ran s = Some out) as Hend.
  { intros r Hret. destruct (client_final _ _ _ _ _ _ Hi Hret) as [Hran|[? _]]; [|done].
    pose proof (bi_out _ _ _ _ _ Hi r eq_refl Hran) as ->. done. }
  split; [intros t' r [= <-] Hret; apply Hend; by rewrite <- Ht|].
  intros Hstuck. exists t. split; [done|].
  assert (b_rank w = 0) as Hw.
  { destruct (decide (b_rank w = 0)) as [?|Hne]; [done|exfalso].
    destruct (worker_enabled _ _ _ _ _ Hi Hne) as (w' & s' & Hs).
    destruct (head_step_enabled _ _ _ b_heads _ _ _ _ _ _ Htw Hs) as [t' Ht'].
    eapply Hstuck. by eapply (pstep_task _ 1). }
  assert (forall c' s', ~ head_step (block_sem false out) b_head 0 s c c' s') as Hcs.
  { intros c' s' Hs. destruct (head_step_enabled _ _ _ b_heads _ _ _ _ _ _ Ht Hs) as [t' Ht'].
    eapply Hstuck. by eapply (pstep_task _ 0). }
  pose proof (bi_client _ _ _ _ _ Hi) as Hc. pose proof (bi_worker _ _ _ _ _ Hi) as Hwk.
  destruct c as [| | | | | | | | | | |r| | | | | | | | | | |]; simpl in Hc; try (by destruct Hc); try done.
  - exfalso. eapply Hcs. exists (Ok tt). split; [|reflexivity]. split; [left; split; [done|]|reflexivity].
    apply (bi_event _ _ _ _ _ Hi). unfold notified.
    destruct w; simpl in Hw, Hwk; try done; destruct Hwk as [Hst ?]; rewrite Hst in *; [by eexists|done].
  - exfalso. eapply Hcs. eexists. split; [by split|reflexivity].
  - rewrite Ht. simpl. destruct (Hend r) as [-> _]; [done|reflexivity].
Qed.

(** [C35] A cancelled [spawn_blocking]: the coroutine ends with the outcome of the call, with
    [CancelledError], or with a torn result; and when the task was withdrawn from the queue the
    function has not been called and never will be. *)
Theorem blocking_cancelled col out ts s t r :
  reachable (block_sem true out) (block_pool col, block_init) (ts, s) ->
  ts !! 0 = Some t -> t ≅ Ret r ->
  (b_ran s = Some r \/ r = Err CancelledError \/ torn r) /\
  (b_st s = Cancelled -> b_ran s = None).
Proof.
  intros Hr Ht Hret. destruct (block_phases _ _ _ _ _ Hr) as (c & w & t' & tw & -> & Htc & Htw & Hi).
  simplify_eq/=. split.
  - rewrite Hret in Htc. destruct (client_final _ _ _ _ _ r Hi) as [?|[_ ?]]; [by symmetry| |]; tauto.
  - intros Hst. pose proof (bi_worker _ _ _ _ _ Hi) as Hw.
    destruct w; simpl in Hw; try done; destruct Hw; congruence.
Qed.

(** One step of task [i] of the pool, the operation answering [x]. *)
Ltac block_step i x :=
  eapply reachable_step_l;
  [eapply (pstep_task _ i);
   [reflexivity
   |eapply (tstep_vis _ _ _ _ _ _ _ x); [observe_now|cbn]]
  |cbn [insert list_insert fmap list_fmap]].

(** Withdrawn from the queue: the thread finds the task cancelled. *)
Lemma blocking_cancelled_witness :
  exists ts s t, reachable (block_sem true (Ok (PInt 5))) (block_pool false, block_init) (ts, s) /\
    ts !! 0 = Some t /\ t ≅ Ret (Err CancelledError) /\ b_st s = Cancelled /\ b_ran s = None.
Proof.
  assert (exists ts s t, reachable (block_sem true (Ok (PInt 5))) (block_pool false, block_init) (ts, s) /\
    ts !! 0 = Some t /\ t ≅ Ret (Err CancelledError) /\ b_st s = Cancelled)
    as (ts & s & t & Hr & Ht & Hret & Hst).
  { do 3 eexists. split.
    - block_step 0 (Err (A:=unit) CancelledError); [by split; [right|]|].
      block_step 0 (PList [PNone; PNone]); [by split|].
      block_step 1 tt; [done|]. block_step 0 true; [by split|].
      block_step 0 tt; [by eexists|]. block_step 0 tt; [by eexists|]. block_step 0 tt; [done|].
      block_step 1 false; [by split|]. block_step 1 tt; [done|].
      block_step 0 (Ok tt); [by split; [left|]|].
      block_step 0 (PList [PBool true; PExn CancelledError]); [by split|].
      apply reachable_init.
    - split_and!; [reflexivity|by apply eq_obs_Ret|reflexivity]. }
  exists ts, s, t. split_and!; try done.
  exact (proj2 (blocking_cancelled false (Ok (PInt 5)) ts s t (Err CancelledError) Hr Ht Hret) Hst).
Defined.

(** A torn result: the thread stores the two slots one after the other, and a coroutine
    cancelled in between fetches the first only.  It returns [None] although the function
    returned 5, and the cancellation is lost as well. *)
Theorem blocking_torn :
  exists ts s t, reachable (block_sem true (Ok (PInt 5))) (block_pool false, block_init) (ts, s) /\
    ts !! 0 = Some t /\ t ≅ Ret (Ok PNone) /\ b_ran s = Some (Ok (PInt 5)).
Proof.
  do 3 eexists. split.
  - block_step 1 tt; [done|]. block_step 1 true; [by split|].
    block_step 1 (Ok (PInt 5)); [by split|]. block_step 1 tt; [by eexists|].
    block_step 0 (Err (A:=unit) CancelledError); [by split; [right|]|].
    block_step 0 (PList [PBool false; PNone]); [by split|].
    apply reachable_init.
  - split_and!; [reflexivity|by apply eq_obs_Ret|reflexivity].
Qed.

(** Whether a task is about to interrupt the thread. *)
Definition interrupts {R} (t : itree blockE R) : bool :=
  match observe t with VisF e _ => match e with BInterrupt => true | _ => false end | _ => false end.

(** A late interrupt: [abort] reads the state and the thread's identity before it
    interrupts the thread, and the task may have ended in the meantime.  The exception
    is then raised in whatever the thread runs next. *)
Theorem blocking_late_interrupt :
  exists ts s t tw, reachable (block_sem true (Ok (PInt 5))) (block_pool false, block_init) (ts, s) /\
    ts !! 0 = Some t /\ interrupts t = true /\ b_st s = Done /\
    ts !! 1 = Some tw /\ tw ≅ Ret (Ok PNone).
Proof.
  do 4 eexists. split.
  - block_step 1 tt; [done|]. block_step 1 true; [by split|].
    block_step 0 (Err (A:=unit) CancelledError); [by split; [right|]|].
    block_step 0 (PList [PNone; PNone]); [by split|].
    block_step 0 false; [by split|]. block_step 0 true; [by split|]. block_step 0 true; [by split|].
    block_step 1 (Ok (PInt 5)); [by split|]. block_step 1 tt; [by eexists|]. block_step 1 tt; [by eexists|].
    block_step 1 tt; [done|]. block_step 1 tt; [done|]. block_step 1 tt; [done|].
    apply reachable_init.
  - split_and!; [reflexivity|reflexivity|reflexivity|reflexivity|by apply eq_obs_Ret].
Qed.
