(* ===== verification/Timing.v ===== *)
(** * Time

    [src/tonio/_time.py], [src/tonio/_events.py] and their twins of the [async] API: the
    conversion of timeouts, intervals, [sleep] and [timeout].  Times are microseconds. *)

From stdpp Require Import base numbers list strings.
From Stdlib Require Import ZArith QArith Qround Lia.
From ITree Require Import ITree ITreeFacts.
From S2P Require Import Prelude Coro Os Spawn.

Open Scope tonio_scope.

(** ** Conversions *)

(** [round(x)]: to the nearest integer, ties to the even one. *)
Definition py_round (q : Q) : Z :=
  let f := Qfloor q in
  match Qcompare (q - inject_Z f) (1 # 2) with
  | Lt => f
  | Gt => (f + 1)%Z
  | Eq => if Z.even f then f else (f + 1)%Z
  end.

(** [max(0, x)]. *)
Definition py_max0 (q : Q) : Q := if Qle_bool q 0 then 0 else q.

(** [round(max(0, seconds * 1_000_000))]; the product is taken exactly. *)
Definition to_micros (seconds : Q) : Z := py_round (py_max0 (seconds * 1000000)).

(** The timeout [Event.wait] hands to [waiter]. *)
Definition Event_wait (timeout : option Q) : option Z :=
  match timeout with Some t => Some (to_micros t) | None => None end.

Definition sleep (timeout : Q) : option Z := Event_wait (Some timeout).

(** ** Intervals *)

Open Scope Z_scope.

Record Interval := mkInterval { deadline : Z; len : Z }.

(** [_Interval._poll] at time [now]: the delay, and the interval after it. *)
Definition Interval_poll (now : Z) (self : Interval) : Z * Interval :=
  let '(next, delay) :=
    if deadline self <=? now then (now + len self, 0)
    else (deadline self + len self, deadline self - now) in
  (delay, mkInterval next (len self)).

(** [Interval.tick]: the timeout of the event it waits for. *)
Definition Interval_tick (now : Z) (self : Interval) : option Z * Interval :=
  let '(timeout, self) := Interval_poll now self in (Some timeout, self).

(** [time()], of the runtime's clock. *)
Definition time (clock : Z) : Q := inject_Z clock / 1000000.

(** [interval(period, at)], where [time()] is [now] seconds: [at or time()]. *)
Definition interval (now period : Q) (at_ : option Q) : Interval :=
  let start := match at_ with Some a => if Qeq_bool a 0 then now else a | None => now end in
  mkInterval (py_round (start * 1000000)) (to_micros period).

(** ** [timeout] *)

(** [TSpawn] gives [wrapper] to the runtime, [TCheckpoint] is [yield checkpoint], [TAwait] is
    [yield coro], [TWait] is [done.wait(timeout)] and [TUnwind] aborts the checkpoint. *)
Variant timeE : Type -> Type :=
| TSpawn : timeE unit
| TStart : timeE unit
| TCheckpoint : timeE (result unit)
| TAwait : timeE (result pyobj)
| TStore (v : pyobj) : timeE unit
| TFetch : timeE pyobj
| TSetDone : timeE bool
| TWait (timeout : option Z) : timeE (result unit)
| TIsSet : timeE bool
| TUnwind : timeE unit.

Definition glue : pyM timeE pyobj :=
  pcall TCheckpoint ;;;
  pcall TAwait.

Definition wrapper : pyM timeE pyobj :=
  pfinally
    (ptry (let! ret := glue in pop (TStore (PTuple [PBool false; ret])) ;;; pret PNone)
       (fun e => if is_Cancelled e then Some (pret PNone)
                 else if is_Exception e
                 then Some (pop (TStore (PTuple [PBool true; PExn e])) ;;; pret PNone) else None))
    (pop TSetDone ;;; pret tt).

(** [is_err, ret = res.fetch()], then [raise ret] or [return ret, True]. *)
Definition unpack_result (v : pyobj) : result pyobj :=
  match v with
  | PTuple [PBool true; PExn e] => Err e
  | PTuple [_; ret] => Ok (PTuple [ret; PBool true])
  | _ => Err (TypeError "cannot unpack non-iterable NoneType object")
  end.

Definition timeout (t : Q) : pyM timeE pyobj :=
  pop TSpawn ;;;
  pcall (TWait (Event_wait (Some t))) ;;;
  let! set := pop TIsSet in
  if negb set then pop TUnwind ;;; pret (PTuple [PNone; PBool false])
  else
    let! v := pop TFetch in
    match unpack_result v with Ok r => pret r | Err e => praise e end.

Module ColoredTiming.
Definition Interval_tick (now : Z) (self : Interval) : option Z * Interval :=
  let '(timeout, self) := Interval_poll now self in (Some timeout, self).

Definition Event_wait (timeout : option Q) : option Z :=
  match timeout with Some t => Some (to_micros t) | None => None end.

Definition sleep (timeout : Q) : option Z := Event_wait (Some timeout).

Definition glue : pyM timeE pyobj :=
  pcall TCheckpoint ;;;
  pcall TAwait.

Definition wrapper : pyM timeE pyobj :=
  pfinally
    (ptry (let! ret := glue in pop (TStore (PTuple [PBool false; ret])) ;;; pret PNone)
       (fun e => if is_Cancelled e then Some (pret PNone)
                 else if is_Exception e
                 then Some (pop (TStore (PTuple [PBool true; PExn e])) ;;; pret PNone) else None))
    (pop TSetDone ;;; pret tt).

Definition timeout (t : Q) : pyM timeE pyobj :=
  pop TSpawn ;;;
  pcall (TWait (Event_wait (Some t))) ;;;
  let! set := pop TIsSet in
  if negb set then pop TUnwind ;;; pret (PTuple [PNone; PBool false])
  else
    let! v := pop TFetch in
    match unpack_result v with Ok r => pret r | Err e => praise e end.

Definition interval (now period : Q) (at_ : option Q) : Interval :=
  let start := match at_ with Some a => if Qeq_bool a 0 then now else a | None => now end in
  mkInterval (py_round (start * 1000000)) (to_micros period).
End ColoredTiming.
