(* ===== verification/TimingProps.v ===== *)
(** * What timeouts and intervals guarantee

    The rounding of timeouts, the schedule of an interval, and what [timeout] ends with under every
    interleaving with the coroutine and the timer. *)

From stdpp Require Import base numbers list strings.
From Stdlib Require Import ZArith QArith Qround Lqa Lia.
From ITree Require Import ITree ITreeFacts.
From S2P Require Import Prelude Coro Os Spawn Timing.

Open Scope tonio_scope.
#[local] Set Warnings "-clear-no-such-hyp".

(** ** Conversions *)

Lemma py_round_near q :
  (- (1 # 2) <= q - inject_Z (py_round q))%Q /\ (q - inject_Z (py_round q) <= 1 # 2)%Q.
Proof.
  unfold py_round. pose proof (Qfloor_le q) as H1. pose proof (Qlt_floor q) as H2.
  rewrite inject_Z_plus in H2. change (inject_Z 1) with 1%Q in H2.
  assert (inject_Z (Qfloor q + 1) == inject_Z (Qfloor q) + 1)%Q as Hs by by rewrite inject_Z_plus.
  destruct (Qcompare_spec (q - inject_Z (Qfloor q)) (1 # 2)) as [Hc|Hc|Hc];
    [destruct (Z.even _)| |]; rewrite ?Hs; split; lra.
Qed.

#[export] Instance py_round_proper : Proper (Qeq ==> eq) py_round.
Proof.
  intros p q Hpq. unfold py_round. rewrite (Qfloor_comp _ _ Hpq).
  rewrite (Qcompare_comp (p - inject_Z (Qfloor q)) (q - inject_Z (Qfloor q)) ltac:(by rewrite Hpq)
    (1 # 2) (1 # 2) ltac:(reflexivity))%Q. done.
Qed.

Lemma py_round_Z z : py_round (inject_Z z) = z.
Proof.
  unfold py_round. rewrite Qfloor_Z.
  destruct (Qcompare_spec (inject_Z z - inject_Z z) (1 # 2)) as [Hc|Hc|Hc]; [exfalso; lra|done|exfalso; lra].
Qed.

Lemma py_max0_spec q : (0 <= py_max0 q)%Q /\ ((0 <= q)%Q -> py_max0 q == q)%Q.
Proof.
  unfold py_max0. destruct (Qle_bool q 0) eqn:Hq.
  - apply Qle_bool_iff in Hq. split; [lra|]. intros. lra.
  - assert (~ (q <= 0)%Q) as Hn by (rewrite <- Qle_bool_iff; congruence).
    split; [lra|]. reflexivity.
Qed.

(** [us] is the integer nearest to [q]. *)
Definition nearest (us : Z) (q : Q) : Prop :=
  (- (1 # 2) <= q - inject_Z us)%Q /\ (q - inject_Z us <= 1 # 2)%Q.

(** A timeout is handed to the runtime as the nearest number of microseconds, in either
    API: never negative, off by at most half a microsecond, and exact when the timeout is a
    whole number of them. *)
Theorem timeout_nearest t :
  (exists us, Event_wait (Some t) = Some us /\ ColoredTiming.Event_wait (Some t) = Some us /\
     (0 <= us)%Z /\
     ((0 <= t)%Q -> nearest us (t * 1000000)%Q)) /\
  (forall us, (0 <= us)%Z -> Event_wait (Some (us # 1000000)) = Some us).
Proof.
  split.
  - eexists. split_and!; [reflexivity|reflexivity| |].
    + unfold to_micros. pose proof (py_round_near (py_max0 (t * 1000000))) as [H1 H2].
      destruct (py_max0_spec (t * 1000000)) as [H3 _].
      assert (- 1 < inject_Z (py_round (py_max0 (t * 1000000))))%Q as Hlt by lra.
      change (-1)%Q with (inject_Z (-1)) in Hlt. rewrite <- Zlt_Qlt in Hlt. lia.
    + intros Ht. unfold nearest, to_micros. pose proof (py_round_near (py_max0 (t * 1000000))) as [H1 H2].
      destruct (py_max0_spec (t * 1000000)) as [_ H4]. specialize (H4 ltac:(lra)). lra.
  - intros us Hus. unfold Event_wait, to_micros. f_equal.
    rewrite <- (py_round_Z us) at 2. f_equiv.
    assert ((us # 1000000) * 1000000 == inject_Z us)%Q as He.
    { unfold Qeq. simpl. lia. }
    rewrite <- He. apply py_max0_spec. rewrite He. change 0%Q with (inject_Z 0). by rewrite <- Zle_Qle.
Qed.

(** ** Intervals *)

Open Scope Z_scope.

(** The times at which an interval polled at [nows] fires. *)
Fixpoint fires (nows : list Z) (self : Interval) : list Z :=
  match nows with
  | [] => []
  | now :: nows =>
      let '(delay, self) := Interval_poll now self in
      now + delay :: fires nows self
  end.

(** [n] deadlines, [l] apart. *)
Fixpoint schedule (d l : Z) (n : nat) : list Z :=
  match n with O => [] | S n => d :: schedule (d + l) l n end.

(** Every poll happens by its deadline. *)
Fixpoint on_time (nows : list Z) (d l : Z) : Prop :=
  match nows with [] => True | now :: nows => now <= d /\ on_time nows (d + l) l end.

(** Consecutive elements are at least [l] apart. *)
Fixpoint spaced (l : Z) (ts : list Z) : Prop :=
  match ts with
  | t :: (u :: _) as ts' => t + l <= u /\ spaced l ts'
  | _ => True
  end.

Lemma poll_fires now i : let '(delay, i') := Interval_poll now i in
  0 <= delay /\ now + delay = Z.max now (deadline i) /\
  deadline i' = now + delay + len i /\ len i' = len i.
Proof.
  unfold Interval_poll. destruct (Z.leb_spec (deadline i) now); simpl; lia.
Qed.

(** An interval does not drift and does not burst: polled on time it fires exactly at its
    start and then every period, whatever time the work between the ticks takes; however
    late it is polled, it never fires early, and two ticks are at least a period apart. *)
Theorem interval_schedule i nows :
  (on_time nows (deadline i) (len i) ->
     fires nows i = schedule (deadline i) (len i) (length nows)) /\
  spaced (len i) (fires nows i) /\
  (forall t, head (fires nows i) = Some t -> deadline i <= t).
Proof.
  revert i. induction nows as [|now nows IH]; intros i; simpl; [done|].
  pose proof (poll_fires now i) as Hp. destruct (Interval_poll now i) as [delay i'] eqn:Hi.
  destruct Hp as (Hd & Hf & Hd' & Hl). destruct (IH i') as (IH1 & IH2 & IH3). simpl. split_and!.
  - intros [Hn Hon]. assert (now + delay = deadline i) as He by lia. rewrite He in *.
    f_equal. rewrite IH1, Hd', Hl; [done|]. by rewrite Hd', Hl.
  - destruct (fires nows i') as [|u us] eqn:Hfi; [done|]. split.
    + rewrite <- Hd'. by apply IH3.
    + by rewrite <- Hl.
  - intros t [= <-]. lia.
Qed.

(** ** [timeout] *)

Open Scope nat_scope.

(** Whether the wrapper was given to the runtime, whether its checkpoint was aborted, the
    result, the event, and (for the statements) what the coroutine ended with. *)
Record tstate := mkT {
  t_spawned : bool; t_aborted : bool; t_res : ResultHolder; t_done : bool;
  t_ran : option (result pyobj)
}.

Definition time_init : tstate := mkT false false (ResultHolder_new 1) false None.

(** [out]: what the coroutine ends with when it is not aborted.  The wait may end at any time:
    the event is set or the timer fires, or the waiting task is cancelled. *)
Definition time_sem (out : result pyobj) (X : Type) (tid : nat) (e : timeE X) (s : tstate) (x : X)
    (s' : tstate) : Prop :=
  match e in timeE X return X -> Prop with
  | TSpawn => fun _ => s' = mkT true (t_aborted s) (t_res s) (t_done s) (t_ran s)
  | TStart => fun _ => t_spawned s = true /\ s' = s
  | TCheckpoint => fun x => (x = Ok tt \/ t_aborted s = true /\ x = Err CancelledError) /\ s' = s
  | TAwait => fun x => (t_aborted s = false -> x = out) /\
      s' = mkT (t_spawned s) (t_aborted s) (t_res s) (t_done s) (Some x)
  | TStore v => fun _ => exists res, ResultHolder_store v None (t_res s) = Some res /\
      s' = mkT (t_spawned s) (t_aborted s) res (t_done s) (t_ran s)
  | TFetch => fun x => x = ResultHolder_fetch (t_res s) /\ s' = s
  | TSetDone => fun x => x = negb (t_done s) /\
      s' = mkT (t_spawned s) (t_aborted s) (t_res s) true (t_ran s)
  | TWait _ => fun x => (x = Ok tt \/ x = Err CancelledError) /\ s' = s
  | TIsSet => fun x => x = t_done s /\ s' = s
  | TUnwind => fun _ => s' = mkT (t_spawned s) true (t_res s) (t_done s) (t_ran s)
  end x.

Inductive tphase : Type :=
| M0 | M1 | M2 | M3 | M4 | MF (r : result pyobj)
| W0 | W1 | W2 | W3 (o : result pyobj) | W4 (r : result pyobj) | WF (r : result pyobj).

(** What the wrapper stores. *)
Definition stored (o : result pyobj) : pyobj :=
  match o with
  | Ok v => PTuple [PBool false; v]
  | Err e => if is_Exception e then PTuple [PBool true; PExn e] else PNone
  end.
Definition storable (o : result pyobj) : bool :=
  match o with Ok _ => true | Err e => is_Exception e end.
Definition left_over (o : result pyobj) : result pyobj :=
  match o with Ok _ => Ok PNone | Err e => if is_Cancelled e then Ok PNone else Err e end.

(** The wrapper after the coroutine ended with [o]. *)
Definition after (o : result pyobj) : tphase := if storable o then W3 o else W4 (left_over o).

Section Timeout.
Context (d : Q).

Definition t_head (p : tphase) (K : forall X, timeE X -> (X -> tphase) -> Prop) : Prop :=
  match p with
  | M0 => K _ TSpawn (fun _ => M1)
  | M1 => K _ (TWait (Event_wait (Some d)))
            (fun x => match x with Ok _ => M2 | Err e => MF (Err e) end)
  | M2 => K _ TIsSet (fun b => if b then M4 else M3)
  | M3 => K _ TUnwind (fun _ => MF (Ok (PTuple [PNone; PBool false])))
  | M4 => K _ TFetch (fun v => MF (unpack_result v))
  | W0 => K _ TStart (fun _ => W1)
  | W1 => K _ TCheckpoint (fun x => match x with Ok _ => W2 | Err e => after (Err e) end)
  | W2 => K _ TAwait after
  | W3 o => K _ (TStore (stored o)) (fun _ => W4 (Ok PNone))
  | W4 r => K _ TSetDone (fun _ => WF r)
  | MF _ | WF _ => False
  end.

Definition u4 (r : result pyobj) : pyM timeE pyobj := Vis TSetDone (fun _ => Ret r).
Definition u3 (o : result pyobj) : pyM timeE pyobj := Vis (TStore (stored o)) (fun _ => u4 (Ok PNone)).
Definition u_after (o : result pyobj) : pyM timeE pyobj :=
  if storable o then u3 o else u4 (left_over o).
Definition m2 : pyM timeE pyobj :=
  Vis TIsSet (fun b : bool => if b then Vis TFetch (fun v => Ret (unpack_result v))
                       else Vis TUnwind (fun _ => Ret (Ok (PTuple [PNone; PBool false])))).
Definition m1 : pyM timeE pyobj :=
  Vis (TWait (Event_wait (Some d))) (fun x : result unit => match x with Ok _ => m2 | Err e => Ret (Err e) end).

Definition t_tree (p : tphase) : pyM timeE pyobj :=
  match p with
  | M0 => timeout d
  | M1 => m1
  | M2 => m2
  | M3 => Vis TUnwind (fun _ => Ret (Ok (PTuple [PNone; PBool false])))
  | M4 => Vis TFetch (fun v => Ret (unpack_result v))
  | MF r | WF r => Ret r
  | W0 => pop TStart ;;; wrapper
  | W1 => wrapper
  | W2 => Vis TAwait u_after
  | W3 o => u3 o
  | W4 r => u4 r
  end.

Lemma timeout_eq : timeout d ≅ Vis TSpawn (fun _ => m1).
Proof.
  unfold timeout. rewrite pbind_pop. apply eqit_Vis. intros _. rewrite pbind_pcall.
  apply eqit_Vis. intros [u|e]; [|done]. rewrite pbind_pop. apply eqit_Vis. intros []; simpl.
  - rewrite pbind_pop. apply eqit_Vis. intros v. by destruct (unpack_result v).
  - rewrite pbind_pop. by apply eqit_Vis.
Qed.

Lemma set_done_eq r : ITree.bind (pop TSetDone ;;; pret tt)
  (fun rf => match rf with Ok _ => Ret r | Err x => Ret (Err x) end) ≅ u4 r.
Proof.
  rewrite pbind_pop, bind_vis. apply eqit_Vis. intros b. unfold pret. by rewrite bind_ret_l.
Qed.

Lemma Cancelled_not_Exception e : is_Cancelled e = true -> is_Exception e = false.
Proof. by destruct e. Qed.

Lemma timed_wrapper_eq : wrapper ≅ Vis TCheckpoint (fun x : result unit =>
  match x with Ok _ => Vis TAwait u_after | Err e => u_after (Err e) end).
Proof.
  set (f := fun r : result pyobj => ITree.bind (pop TSetDone ;;; pret tt)
    (fun rf => match rf with Ok _ => Ret r | Err x => Ret (Err x) end)).
  assert (forall e, ITree.bind (if is_Cancelled e then pret PNone
      else if is_Exception e then pop (TStore (PTuple [PBool true; PExn e])) ;;; pret PNone
      else praise e) f ≅ u_after (Err e)) as He.
  { intros e. unfold u_after. simpl. destruct (is_Cancelled e) eqn:Hc.
    - rewrite (Cancelled_not_Exception _ Hc). unfold pret. rewrite bind_ret_l. apply set_done_eq.
    - destruct (is_Exception e) eqn:Hx.
      + unfold u3. simpl. rewrite Hx. rewrite pbind_pop, bind_vis. apply eqit_Vis. intros [].
        unfold pret. rewrite bind_ret_l. apply set_done_eq.
      + unfold praise. rewrite bind_ret_l. apply set_done_eq. }
  assert (forall e, ITree.bind (match (if is_Cancelled e then Some (pret PNone)
      else if is_Exception e then Some (pop (TStore (PTuple [PBool true; PExn e])) ;;; pret PNone)
      else None) with Some d => d | None => Ret (Err e) end) f ≅ u_after (Err e)) as He'.
  { intros e. rewrite <- He. destruct (is_Cancelled e); [done|]. by destruct (is_Exception e). }
  unfold wrapper, glue, pfinally, ptry, ptry_else. rewrite pbind_assoc, pbind_pcall, !bind_vis.
  apply eqit_Vis. intros [u|e].
  - rewrite pbind_pcall, !bind_vis. apply eqit_Vis. intros [v|e].
    + rewrite pbind_pop, !bind_vis. apply eqit_Vis. intros []. unfold pret.
      rewrite !bind_ret_l. apply set_done_eq.
    + unfold praise. rewrite bind_ret_l. apply He'.
  - unfold praise. rewrite bind_ret_l. apply He'.
Qed.

Lemma after_tree o : t_tree (after o) = u_after o.
Proof. unfold after, u_after. by destruct (storable o). Qed.

Lemma t_heads p : heads_ok t_tree t_head p.
Proof.
  destruct p; try (left; eexists; split; [simpl; reflexivity|by intros K HK]); right; do 3 eexists;
    (split; [|by intros K; split; intros HK; exact HK]); simpl; try done.
  - apply timeout_eq.
  - apply eqit_Vis. by intros [].
  - apply eqit_Vis. by intros [].
  - apply pbind_pop.
  - rewrite timed_wrapper_eq. apply eqit_Vis. intros [u|e]; [done|by rewrite after_tree].
  - apply eqit_Vis. intros o. by rewrite after_tree.
Qed.
End Timeout.

Section TimeoutInv.
Context (d : Q) (out : result pyobj).

(** What [timeout] ends with when the coroutine ended with [o] in time.  A [BaseException]
    that is no [Exception] is not stored, and unpacking the empty result raises. *)
Definition in_time (o : result pyobj) : result pyobj :=
  match o with
  | Ok v => Ok (PTuple [v; PBool true])
  | Err e => if is_Exception e then Err e
             else Err (TypeError "cannot unpack non-iterable NoneType object")
  end.

Definition slot_is (v : pyobj) (s : tstate) : Prop := t_res s = mkResult 1 [v].

(** The wrapper has settled the result: it stored what the coroutine ended with, or it was
    aborted. *)
Definition settled (s : tstate) : Prop :=
  t_aborted s = true \/ exists o, t_ran s = Some o /\ slot_is (stored o) s.

Definition wrapper_at (p : tphase) (s : tstate) : Prop :=
  match p with
  | W0 | W1 | W2 => slot_is PNone s /\ t_done s = false /\ t_ran s = None
  | W3 o => slot_is PNone s /\ t_done s = false /\ (t_ran s = Some o \/ t_aborted s = true)
  | W4 _ => settled s /\ t_done s = false
  | WF _ => settled s
  | _ => False
  end.

Definition main_at (p : tphase) (s : tstate) : Prop :=
  match p with
  | M0 | M1 | M2 | M3 => t_aborted s = false
  | M4 => t_aborted s = false /\ t_done s = true
  | MF r => r = Err CancelledError \/
      (r = Ok (PTuple [PNone; PBool false]) /\ t_aborted s = true) \/
      (r = in_time out /\ t_ran s = Some out)
  | _ => False
  end.

Record t_inv (m w : tphase) (s : tstate) : Prop := {
  ti_main : main_at m s;
  ti_wrapper : wrapper_at w s;
  ti_out : forall o, t_aborted s = false -> t_ran s = Some o -> o = out
}.

Lemma unpack_stored o : unpack_result (stored o) = in_time o.
Proof. destruct o as [v|e]; [done|]. simpl. by destruct (is_Exception e). Qed.

Lemma t_main_step m w s i m' s' : t_inv m w s -> ~ wrapper_at m s ->
  head_step (time_sem out) (t_head d) i s m m' s' -> t_inv m' w s'.
Proof.
  intros Hi Hn Hs. pose proof Hi as [Hm Hw Ho].
  destruct m; simpl in Hm; try done; destruct Hs as (x & Hsem & ->); simpl in Hsem.
  - subst s'. constructor; simpl; [done| |done]. by destruct w.
  - destruct Hsem as [[->| ->] ->]; constructor; simpl; try done. by left.
  - destruct Hsem as [-> ->]. destruct (t_done s) eqn:Hd; by constructor.
  - subst s'. constructor; simpl; [by right; left| |done].
    destruct w; simpl in *; unfold settled, slot_is in *; simpl; naive_solver.
  - destruct Hsem as [-> ->]. destruct Hm as [Ha Hd]. constructor; [|done|done]. simpl. right; right.
    destruct w; simpl in Hw; try done; try (destruct Hw as (_ & Hw & _); congruence);
      try (destruct Hw as [_ Hw]; congruence).
    destruct Hw as [?|(o & Hran & Hsl)]; [congruence|].
    assert (o = out) by auto. subst o. split; [|done]. rewrite Hsl. apply unpack_stored.
Qed.

Lemma t_wrapper_step m w s i w' s' : t_inv m w s -> ~ main_at w s ->
  head_step (time_sem out) (t_head d) i s w w' s' -> t_inv m w' s'.
Proof.
  intros Hi Hn Hs. pose proof Hi as [Hm Hw Ho].
  destruct w; simpl in Hw; try done; destruct Hs as (x & Hsem & ->); simpl in Hsem.
  - destruct Hsem as [_ ->]. by constructor.
  - destruct Hsem as [[->|[Ha ->]] ->]; constructor; try done. simpl. split; [by left|]. tauto.
  - destruct Hsem as [Hx ->]. destruct Hw as (Hsl & Hd & Hran). constructor; simpl.
    + destruct m; simpl in *; naive_solver.
    + unfold after. destruct (storable x) eqn:Hst; simpl; [by split_and!; [..|left]|].
      split; [|done]. right. exists x. split; [done|].
      destruct x as [|e]; simpl in *; [done|]. by rewrite Hst.
    + intros o Ha [= ->]. by apply Hx.
  - destruct Hsem as (r & Hr & ->). destruct Hw as (Hsl & Hd & Hran). rewrite Hsl in Hr.
    unfold ResultHolder_store in Hr. simpl in Hr. injection Hr as <-. constructor; simpl.
    + by destruct m.
    + split; [|done]. destruct Hran as [Hran|?]; [right; by exists o|by left].
    + done.
  - destruct Hsem as [_ ->]. destruct Hw as [Hset Hd]. constructor; simpl; [destruct m; simpl in *; tauto| |done].
    by destruct Hset as [?|?]; [left|right].
Qed.
End TimeoutInv.

Definition timeout_pool (col : bool) (d : Q) : list (pyM timeE pyobj) :=
  if col then [ColoredTiming.timeout d; pop TStart ;;; ColoredTiming.wrapper]
  else [timeout d; pop TStart ;;; wrapper].


(** One step of task [i] of the pool, the operation answering [x]. *)
Ltac time_step i x :=
  eapply reachable_step_l;
  [eapply (pstep_task _ i);
   [reflexivity
   |eapply (tstep_vis _ _ _ _ _ _ _ x); [observe_now|cbn]]
  |cbn [insert list_insert fmap list_fmap]].


(** A coroutine that ends with [CancelledError] (or another [BaseException]) of its own
    makes [timeout] raise [TypeError]: the wrapper stores nothing, and the empty result does not
    unpack. *)
Theorem timeout_loses_cancellation :
  exists ts s t, reachable (time_sem (Err CancelledError)) (timeout_pool false (1 # 10), time_init) (ts, s) /\
    ts !! 0 = Some t /\ t_aborted s = false /\
    t ≅ Ret (Err (TypeError "cannot unpack non-iterable NoneType object")).
Proof.
  do 3 eexists. split.
  - time_step 0 tt; [done|]. time_step 1 tt; [by split|]. time_step 1 (Ok tt); [by split; [left|]|].
    time_step 1 (Err (A:=pyobj) CancelledError); [by split|]. time_step 1 true; [by split|].
    time_step 0 (Ok tt); [by split; [left|]|]. time_step 0 true; [by split|].
    time_step 0 PNone; [by split|]. apply reachable_init.
  - split_and!; [reflexivity|reflexivity|]. by apply eq_obs_Ret.
Qed.
