(* ===== verification/Channel.v ===== *)
(** * Channels

    The bounded and unbounded channels of [src/src/sync.rs] and the coroutines of
    [src/tonio/_sync.py] and [src/tonio/_colored/_sync.py].  A step is an access to an
    atomic field or a section under the mutex of the queue. *)

From stdpp Require Import base numbers list gmap sets strings.
From Stdlib Require Import ZArith Lia.
From ITree Require Import ITree ITreeFacts.
From S2P Require Import Prelude Coro Os.

Open Scope tonio_scope.
Open Scope nat_scope.

(** What a look at the queue finds: a message with the event of the sender that waits for it to
    be taken, a closed channel, or nothing. *)
Inductive pulled := Got (m : pyobj) (want_pull : option nat) | IsClosed | Empty.

(** [ChPush] appends a message and takes the first waiter, [ChTryPull] and [ChPullOrWait] are
    the two sections of [pull]; the latter queues the event when it finds nothing. [ChCas] and
    [ChTake] are the two steps of [close]; [ChTxSub] and [ChRxSub] lower the numbers of senders
    and of receivers, and answer what they were. *)
Variant chanE : Type -> Type :=
| ChClosed : chanE bool
| ChLenAdd : chanE nat
| ChLenSub : chanE unit
| ChNewEvent : chanE nat
| ChPush (m : pyobj) (want_pull : option nat) : chanE (option nat)
| ChTryPull : chanE pulled
| ChPullOrWait (e : nat) : chanE pulled
| ChSet (e : nat) : chanE unit
| ChTxSub : chanE nat
| ChRxSub : chanE nat
| ChCas : chanE bool
| ChTake : chanE (list nat)
| ChAwait (e : nat) : chanE (result unit).

(** The fields of a channel, the events that are set and the next new event. *)
Record chst := mkCh {
  c_len : nat; c_queue : list (pyobj * option nat); c_waiters : list nat; c_closed : bool;
  c_tx : nat; c_rx : nat; c_flags : gset nat; c_next : nat
}.

(** [_Channel(size)] and [_UnboundedChannel()]; a sender and a receiver count themselves. *)
Definition Channel_new : chst := mkCh 0 [] [] false 0 0 ∅ 0.
Definition tx_add (s : chst) : chst :=
  mkCh (c_len s) (c_queue s) (c_waiters s) (c_closed s) (S (c_tx s)) (c_rx s) (c_flags s) (c_next s).
Definition rx_add (s : chst) : chst :=
  mkCh (c_len s) (c_queue s) (c_waiters s) (c_closed s) (c_tx s) (S (c_rx s)) (c_flags s) (c_next s).

(** The channel of a fresh pair of ends. *)
Definition channel : chst := rx_add (tx_add Channel_new).
Definition unbounded_channel : chst := rx_add (tx_add Channel_new).

Definition broken_pipe : exn := OSError BrokenPipeError None.

Definition set_opt (e : option nat) : pyM chanE unit :=
  match e with Some e => pop (ChSet e) | None => pret tt end.

(** ** The bounded channel *)

Section Channel.
Context (size : nat).

Definition Channel_push (message : pyobj) : pyM chanE (option nat) :=
  let! len := pop ChLenAdd in
  let! want_pull :=
    (if size <=? len then let! e := pop ChNewEvent in pret (Some e) else pret None) in
  let! want_push := pop (ChPush message want_pull) in
  set_opt want_push ;;;
  pret want_pull.

Definition Channel_got (message : pyobj) (want_pull : option nat)
    : pyM chanE (option nat * option pyobj) :=
  pop ChLenSub ;;;
  set_opt want_pull ;;;
  pret (None, Some message).

Definition Channel_pull : pyM chanE (option nat * option pyobj) :=
  let! fast := pop ChTryPull in
  match fast with
  | Got m w => Channel_got m w
  | IsClosed => pret (None, None)
  | Empty =>
      let! want_push := pop ChNewEvent in
      let! slow := pop (ChPullOrWait want_push) in
      match slow with
      | Got m w => Channel_got m w
      | IsClosed => pret (None, None)
      | Empty => pret (Some want_push, None)
      end
  end.

Definition Channel_close : pyM chanE unit :=
  let! closed := pop ChCas in
  if closed then
    let! waiters := pop ChTake in
    pfor waiters (fun e => pop (ChSet e))
  else pret tt.

(** Dropping a sender or a receiver: the last one closes the channel. *)
Definition Channel_tx_rem : pyM chanE unit :=
  let! n := pop ChTxSub in
  if n =? 1 then Channel_close else pret tt.

Definition Channel_rx_rem : pyM chanE unit :=
  let! n := pop ChRxSub in
  if n =? 1 then Channel_close else pret tt.

Definition ChannelSender__send (message : pyobj) : pyM chanE (option nat) :=
  let! closed := pop ChClosed in
  if closed then praise broken_pipe else Channel_push message.

(** The event to wait for, whether the call has to wait, the message. *)
Definition ChannelReceiver__receive : pyM chanE (option nat * bool * option pyobj) :=
  let! r := Channel_pull in
  match r with
  | (Some e, None) => pret (Some e, true, None)
  | (None, Some m) => pret (None, false, Some m)
  | _ => praise broken_pipe
  end.

Definition ChannelSender_send (message : pyobj) : pyM chanE pyobj :=
  let! event := ChannelSender__send message in
  match event with
  | Some e => pcall (ChAwait e) ;;; pret PNone
  | None => pret PNone
  end.

(** One round of [receive]. *)
Definition receive_round (r : option nat * bool * option pyobj) : pyM chanE (option pyobj) :=
  let '(event, blocking, message) := r in
  if negb blocking then pret (Some (default PNone message))
  else
    match event with
    | Some e => pcall (ChAwait e) ;;; pret None
    | None => praise (AttributeError "waiter")
    end.

Definition ChannelReceiver_receive : pyM chanE pyobj :=
  ploop (let! r := ChannelReceiver__receive in receive_round r).
End Channel.

(** ** The unbounded channel *)

Definition UnboundedChannel_push (message : pyobj) : pyM chanE unit :=
  let! want_push := pop (ChPush message None) in
  set_opt want_push.

Definition UnboundedChannel_pull : pyM chanE (option nat * option pyobj) :=
  let! fast := pop ChTryPull in
  match fast with
  | Got m _ => pret (None, Some m)
  | IsClosed => pret (None, None)
  | Empty =>
      let! want_push := pop ChNewEvent in
      let! slow := pop (ChPullOrWait want_push) in
      match slow with
      | Got m _ => pret (None, Some m)
      | IsClosed => pret (None, None)
      | Empty => pret (Some want_push, None)
      end
  end.

Definition UnboundedChannel_close : pyM chanE unit :=
  let! closed := pop ChCas in
  if closed then
    let! waiters := pop ChTake in
    pfor waiters (fun e => pop (ChSet e))
  else pret tt.

Definition UnboundedChannel_tx_rem : pyM chanE unit :=
  let! n := pop ChTxSub in
  if n =? 1 then UnboundedChannel_close else pret tt.

Definition UnboundedChannel_rx_rem : pyM chanE unit :=
  let! n := pop ChRxSub in
  if n =? 1 then UnboundedChannel_close else pret tt.

Definition UnboundedChannelSender_send (message : pyobj) : pyM chanE pyobj :=
  let! closed := pop ChClosed in
  if closed then praise broken_pipe else UnboundedChannel_push message ;;; pret PNone.

Definition UnboundedChannelReceiver__receive : pyM chanE (option nat * bool * option pyobj) :=
  let! r := UnboundedChannel_pull in
  match r with
  | (Some e, None) => pret (Some e, true, None)
  | (None, Some m) => pret (None, false, Some m)
  | _ => praise broken_pipe
  end.

Definition UnboundedChannelReceiver_receive : pyM chanE pyobj :=
  ploop (let! r := UnboundedChannelReceiver__receive in receive_round r).

(** ** The [async] API *)

Module ColoredChannel.
Definition channel : chst := rx_add (tx_add Channel_new).
Definition unbounded_channel : chst := rx_add (tx_add Channel_new).

Definition ChannelSender_send (size : nat) (message : pyobj) : pyM chanE pyobj :=
  let! event := ChannelSender__send size message in
  match event with
  | Some e => pcall (ChAwait e) ;;; pret PNone
  | None => pret PNone
  end.

Definition ChannelReceiver_receive : pyM chanE pyobj :=
  ploop (let! r := ChannelReceiver__receive in receive_round r).

Definition UnboundedChannelReceiver_receive : pyM chanE pyobj :=
  ploop (let! r := UnboundedChannelReceiver__receive in receive_round r).
End ColoredChannel.
