(* ===== verification/ChannelProps.v ===== *)
(** * What channels guarantee

    Any number of tasks send, receive and close, interleaved in any way and cancelled where they
    wait.  The control points of the three coroutines, and the refinement of an abstract queue:
    messages are delivered once and in order. *)

From stdpp Require Import base numbers list gmap sets strings.
From Stdlib Require Import ZArith Lia.
From ITree Require Import ITree ITreeFacts.
From S2P Require Import Prelude Coro Os Channel.

Open Scope tonio_scope.
Open Scope nat_scope.
#[local] Set Warnings "-clear-no-such-hyp".

(** ** The shared state *)

(** What a look at the queue finds. *)
Definition look (s : chst) : pulled :=
  match c_queue s with
  | (m, w) :: _ => Got m w
  | [] => if c_closed s then IsClosed else Empty
  end.
(** The state after a look: a message found is taken. *)
Definition looked (s : chst) : chst :=
  mkCh (c_len s) (tail (c_queue s)) (c_waiters s) (c_closed s) (c_tx s) (c_rx s) (c_flags s) (c_next s).
Definition enqueue (e : nat) (s : chst) : chst :=
  mkCh (c_len s) (c_queue s) (c_waiters s ++ [e]) (c_closed s) (c_tx s) (c_rx s) (c_flags s) (c_next s).
Definition set_event (e : nat) (s : chst) : chst :=
  mkCh (c_len s) (c_queue s) (c_waiters s) (c_closed s) (c_tx s) (c_rx s)
    ({[e]} ∪ c_flags s) (c_next s).
Definition new_event (s : chst) : chst :=
  mkCh (c_len s) (c_queue s) (c_waiters s) (c_closed s) (c_tx s) (c_rx s) (c_flags s) (S (c_next s)).
Definition set_len (n : nat) (s : chst) : chst :=
  mkCh n (c_queue s) (c_waiters s) (c_closed s) (c_tx s) (c_rx s) (c_flags s) (c_next s).
Definition push_state (m : pyobj) (w : option nat) (s : chst) : chst :=
  mkCh (c_len s) (c_queue s ++ [(m, w)]) (tail (c_waiters s)) (c_closed s) (c_tx s) (c_rx s) (c_flags s) (c_next s).

Definition shut (s : chst) : chst :=
  mkCh (c_len s) (c_queue s) (c_waiters s) true (c_tx s) (c_rx s) (c_flags s) (c_next s).
Definition no_waiters (s : chst) : chst :=
  mkCh (c_len s) (c_queue s) [] (c_closed s) (c_tx s) (c_rx s) (c_flags s) (c_next s).

Definition one_less (tx : bool) (s : chst) : chst :=
  mkCh (c_len s) (c_queue s) (c_waiters s) (c_closed s) (if tx then c_tx s - 1 else c_tx s)
    (if tx then c_rx s else c_rx s - 1) (c_flags s) (c_next s).

(** [canc]: a task may be cancelled where it waits. *)
Definition chan_sem (canc : bool) (X : Type) (tid : nat) (e : chanE X) (s : chst) (x : X) (s' : chst)
    : Prop :=
  match e in chanE X return X -> Prop with
  | ChClosed => fun x => x = c_closed s /\ s' = s
  | ChLenAdd => fun x => x = c_len s /\ s' = set_len (S (c_len s)) s
  | ChLenSub => fun _ => s' = set_len (c_len s - 1) s
  | ChNewEvent => fun x => x = c_next s /\ s' = new_event s
  | ChPush m w => fun x => x = head (c_waiters s) /\ s' = push_state m w s
  | ChTryPull => fun x => x = look s /\ s' = looked s
  | ChPullOrWait e => fun x => x = look s /\
      s' = match look s with Empty => enqueue e s | _ => looked s end
  | ChSet e => fun _ => s' = set_event e s
  | ChTxSub => fun x => x = c_tx s /\ s' = one_less true s
  | ChRxSub => fun x => x = c_rx s /\ s' = one_less false s
  | ChCas => fun x => x = negb (c_closed s) /\ s' = shut s
  | ChTake => fun x => x = c_waiters s /\ s' = no_waiters s
  | ChAwait e => fun x =>
      (x = Ok tt /\ e ∈ c_flags s \/ canc = true /\ x = Err CancelledError) /\ s' = s
  end x.

(** ** Control points *)

(** A sender carries its message; [S3 e m w] is about to set the receiver's event [e]. *)
Inductive cphase : Type :=
| S0 (m : pyobj) | S1 (m : pyobj) | SE (m : pyobj) | S2 (m : pyobj) (w : option nat)
| S3 (e : nat) (m : pyobj) (w : option nat) | S4 (m : pyobj) (e : nat)
| SF (m : pyobj) (r : result pyobj)
| R0 | R1 | R2 (e : nat) | R3 (m : pyobj) (w : option nat) | R4 (m : pyobj) (e : nat)
| R5 (e : nat) | R6 | RF (r : result pyobj)
| XD (tx : bool) | X0 (d : option bool) | X1 (d : option bool) | X2 (d : option bool) (e : nat) (l : list nat)
| XF (d : option bool).

(** [bd]: the channel is bounded, by [size]. *)
Section Points.
Context (bd : bool) (size : nat).

Definition pushed_at (m : pyobj) (w : option nat) : cphase :=
  match w with Some e => S4 m e | None => SF m (Ok PNone) end.
Definition got_at (m : pyobj) (w : option nat) : cphase := if bd then R3 m w else RF (Ok m).
Definition taken_at (m : pyobj) (w : option nat) : cphase :=
  match w with Some e => R4 m e | None => RF (Ok m) end.
Definition closing_at (d : option bool) (l : list nat) : cphase :=
  match l with [] => XF d | e :: l => X2 d e l end.

Definition c_head (p : cphase) (K : forall X, chanE X -> (X -> cphase) -> Prop) : Prop :=
  match p with
  | S0 m => K _ ChClosed (fun b => if b then SF m (Err broken_pipe) else if bd then S1 m else S2 m None)
  | S1 m => K _ ChLenAdd (fun n => if size <=? n then SE m else S2 m None)
  | SE m => K _ ChNewEvent (fun e => S2 m (Some e))
  | S2 m w => K _ (ChPush m w) (fun x => match x with Some e => S3 e m w | None => pushed_at m w end)
  | S3 e m w => K _ (ChSet e) (fun _ => pushed_at m w)
  | S4 m e => K _ (ChAwait e) (fun x => SF m (match x with Ok _ => Ok PNone | Err e => Err e end))
  | R0 => K _ ChTryPull (fun x => match x with
      | Got m w => got_at m w | IsClosed => RF (Err broken_pipe) | Empty => R1 end)
  | R1 => K _ ChNewEvent R2
  | R2 e => K _ (ChPullOrWait e) (fun x => match x with
      | Got m w => got_at m w | IsClosed => RF (Err broken_pipe) | Empty => R5 e end)
  | R3 m w => K _ ChLenSub (fun _ => taken_at m w)
  | R4 m e => K _ (ChSet e) (fun _ => RF (Ok m))
  | R5 e => K _ (ChAwait e) (fun x => match x with Ok _ => R6 | Err e => RF (Err e) end)
  | XD true => K _ ChTxSub (fun n => if n =? 1 then X0 (Some true) else XF (Some true))
  | XD false => K _ ChRxSub (fun n => if n =? 1 then X0 (Some false) else XF (Some false))
  | X0 d => K _ ChCas (fun b => if b then X1 d else XF d)
  | X1 d => K _ ChTake (closing_at d)
  | X2 d e l => K _ (ChSet e) (fun _ => closing_at d l)
  | R6 | SF _ _ | RF _ | XF _ => False
  end.

Definition c_jump (p : cphase) : option cphase := match p with R6 => Some R0 | _ => None end.

(** The rest of the code at a control point. *)
Definition send_prog (m : pyobj) : pyM chanE pyobj :=
  if bd then ChannelSender_send size m else UnboundedChannelSender_send m.
Definition receive_prog : pyM chanE pyobj :=
  if bd then ChannelReceiver_receive else UnboundedChannelReceiver_receive.
Definition close_prog : pyM chanE pyobj :=
  (if bd then Channel_close else UnboundedChannel_close) ;;; pret PNone.

Definition drop_prog (tx : bool) : pyM chanE pyobj :=
  (if bd then if tx then Channel_tx_rem else Channel_rx_rem
   else if tx then UnboundedChannel_tx_rem else UnboundedChannel_rx_rem) ;;; pret PNone.

Definition v_pushed (w : option nat) : pyM chanE pyobj :=
  match w with
  | Some e => Vis (ChAwait e) (fun x : result unit => Ret (match x with Ok _ => Ok PNone | Err e => Err e end))
  | None => Ret (Ok PNone)
  end.
Definition v_s2 (m : pyobj) (w : option nat) : pyM chanE pyobj :=
  Vis (ChPush m w) (fun x : option nat =>
    match x with Some e => Vis (ChSet e) (fun _ => v_pushed w) | None => v_pushed w end).
Definition v_se (m : pyobj) : pyM chanE pyobj := Vis ChNewEvent (fun e => v_s2 m (Some e)).
Definition v_s1 (m : pyobj) : pyM chanE pyobj :=
  Vis ChLenAdd (fun n => if size <=? n then v_se m else v_s2 m None).
Definition v_taken (m : pyobj) (w : option nat) : pyM chanE pyobj :=
  match w with Some e => Vis (ChSet e) (fun _ => Ret (Ok m)) | None => Ret (Ok m) end.
Definition v_got (m : pyobj) (w : option nat) : pyM chanE pyobj :=
  if bd then Vis ChLenSub (fun _ => v_taken m w) else Ret (Ok m).
Definition v_r5 (e : nat) : pyM chanE pyobj :=
  Vis (ChAwait e) (fun x : result unit => match x with Ok _ => Tau receive_prog | Err e => Ret (Err e) end).
Definition v_r2 (e : nat) : pyM chanE pyobj :=
  Vis (ChPullOrWait e) (fun x => match x with
    | Got m w => v_got m w | IsClosed => Ret (Err broken_pipe) | Empty => v_r5 e end).
Definition v_r1 : pyM chanE pyobj := Vis ChNewEvent v_r2.
Fixpoint v_closing (l : list nat) : pyM chanE pyobj :=
  match l with [] => Ret (Ok PNone) | e :: l => Vis (ChSet e) (fun _ => v_closing l) end.

Definition c_tree (p : cphase) : pyM chanE pyobj :=
  match p with
  | S0 m => send_prog m | S1 m => v_s1 m | SE m => v_se m | S2 m w => v_s2 m w
  | S3 e m w => Vis (ChSet e) (fun _ => v_pushed w) | S4 m e => v_pushed (Some e) | SF _ r => Ret r
  | R0 => receive_prog | R1 => v_r1 | R2 e => v_r2 e | R3 m w => Vis ChLenSub (fun _ => v_taken m w)
  | R4 m e => v_taken m (Some e) | R5 e => v_r5 e | R6 => Tau receive_prog | RF r => Ret r
  | XD tx => drop_prog tx
  | X0 _ => close_prog | X1 _ => Vis ChTake v_closing | X2 _ e l => v_closing (e :: l)
  | XF _ => Ret (Ok PNone)
  end.
End Points.

(** ** The code at its control points *)

Lemma set_opt_eq {A} e (k : pyM chanE A) :
  set_opt e ;;; k ≅ match e with Some e => Vis (ChSet e) (fun _ => k) | None => k end.
Proof. destruct e as [e|]; simpl; [apply pbind_pop|apply pbind_pret]. Qed.

Lemma sent_eq w : match w with Some e => pcall (ChAwait e) ;;; pret PNone | None => pret PNone end
  ≅ v_pushed w.
Proof.
  destruct w as [e|]; simpl; [|done]. rewrite pbind_pcall. apply eqit_Vis. by intros [].
Qed.

Lemma push_eq size m :
  (let! event := Channel_push size m in
   match event with Some e => pcall (ChAwait e) ;;; pret PNone | None => pret PNone end)
  ≅ v_s1 size m.
Proof.
  assert (forall w, (let! want_push := pop (ChPush m w) in
     let! event := (set_opt want_push ;;; pret w) in
     match event with Some e => pcall (ChAwait e) ;;; pret PNone | None => pret PNone end)
    ≅ v_s2 m w) as H2.
  { intros w. rewrite pbind_pop. apply eqit_Vis. intros x. rewrite pbind_assoc, set_opt_eq.
    destruct x as [e|]; [apply eqit_Vis; intros []|]; rewrite pbind_pret; apply sent_eq. }
  unfold Channel_push. rewrite pbind_assoc, pbind_pop. apply eqit_Vis. intros n.
  destruct (size <=? n).
  - rewrite !pbind_assoc, pbind_pop. apply eqit_Vis. intros e.
    rewrite pbind_pret, pbind_assoc. apply H2.
  - rewrite pbind_assoc, pbind_pret, pbind_assoc. apply H2.
Qed.

Lemma send_eq bd size m : send_prog bd size m ≅
  Vis ChClosed (fun b : bool => if b then Ret (Err broken_pipe)
                         else if bd then v_s1 size m else v_s2 m None).
Proof.
  destruct bd; simpl; unfold ChannelSender_send, ChannelSender__send, UnboundedChannelSender_send.
  - rewrite pbind_assoc, pbind_pop. apply eqit_Vis. intros []; [by rewrite pbind_praise|].
    apply push_eq.
  - rewrite pbind_pop. apply eqit_Vis. intros []; [done|]. unfold UnboundedChannel_push.
    rewrite pbind_assoc, pbind_pop. apply eqit_Vis. intros x. by rewrite set_opt_eq.
Qed.

(** One round of a receiver: [c] is the pull, [k] what follows. *)
Definition received (r : option nat * option pyobj) : pyM chanE (option nat * bool * option pyobj) :=
  match r with
  | (Some e, None) => pret (Some e, true, None)
  | (None, Some m) => pret (None, false, Some m)
  | _ => praise broken_pipe
  end.

Definition loop_back (bd : bool) (r : result (option pyobj)) : pyM chanE pyobj :=
  match r with
  | Ok (Some a) => Ret (Ok a) | Ok None => Tau (receive_prog bd) | Err e => Ret (Err e)
  end.

(** What a receiver does with the outcome of a pull. *)
Definition after_pull (bd : bool) (r : option nat * option pyobj) : pyM chanE pyobj :=
  match r with
  | (Some e, None) => v_r5 bd e
  | (None, Some m) => Ret (Ok m)
  | _ => Ret (Err broken_pipe)
  end.

Lemma after_pull_eq bd r :
  ITree.bind (let! x := received r in receive_round x) (loop_back bd) ≅ after_pull bd r.
Proof.
  destruct r as [[e|] [m|]]; simpl; rewrite ?pbind_pret, ?pbind_praise; simpl.
  - unfold praise. by rewrite bind_ret_l.
  - rewrite pbind_pcall, bind_vis. apply eqit_Vis. intros [u|x]; unfold pret, praise;
      by rewrite bind_ret_l.
  - unfold pret. by rewrite bind_ret_l.
  - unfold praise. by rewrite bind_ret_l.
Qed.

(** The rest of a receiver that is in the middle of a pull. *)
Definition pulling (bd : bool) (c : pyM chanE (option nat * option pyobj)) : pyM chanE pyobj :=
  ITree.bind (let! x := (let! r := c in received r) in receive_round x) (loop_back bd).

#[local] Instance pulling_proper bd : Proper (eq_itree eq ==> eq_itree eq) (pulling bd).
Proof. intros c c' Hc. unfold pulling. by rewrite Hc. Qed.

Lemma pulling_ret bd r : pulling bd (pret r) ≅ after_pull bd r.
Proof. unfold pulling. rewrite pbind_pret. apply after_pull_eq. Qed.

Lemma pulling_pop bd {X} (e : chanE X) k :
  pulling bd (pbind (pop e) k) ≅ Vis e (fun x => pulling bd (k x)).
Proof.
  unfold pulling. rewrite pbind_assoc, pbind_assoc, pbind_pop, bind_vis. apply eqit_Vis.
  intros x. by rewrite pbind_assoc.
Qed.

Lemma pulling_got bd m w :
  pulling bd (if bd then Channel_got m w else pret (None, Some m)) ≅ v_got bd m w.
Proof.
  destruct bd; [|apply pulling_ret]. unfold Channel_got, v_got. rewrite pulling_pop.
  apply eqit_Vis. intros []. destruct w as [e|]; simpl.
  - rewrite pulling_pop. apply eqit_Vis. intros []. apply pulling_ret.
  - rewrite pbind_pret. apply pulling_ret.
Qed.

Lemma receive_eq bd : receive_prog bd ≅
  Vis ChTryPull (fun x => match x with
    | Got m w => v_got bd m w | IsClosed => Ret (Err broken_pipe) | Empty => v_r1 bd end).
Proof.
  assert (receive_prog bd ≅ pulling bd (if bd then Channel_pull else UnboundedChannel_pull)) as ->.
  { destruct bd; apply ploop_unfold. }
  assert (forall x, pulling bd (match x with
     | Got m w => if bd then Channel_got m w else pret (None, Some m)
     | IsClosed => pret (None, None)
     | Empty =>
         let! e := pop ChNewEvent in
         let! y := pop (ChPullOrWait e) in
         match y with
         | Got m w => if bd then Channel_got m w else pret (None, Some m)
         | IsClosed => pret (None, None)
         | Empty => pret (Some e, None)
         end
     end) ≅ match x with
    | Got m w => v_got bd m w | IsClosed => Ret (Err broken_pipe) | Empty => v_r1 bd end) as Hx.
  { intros [m w| |]; [apply pulling_got|apply pulling_ret|]. rewrite pulling_pop.
    apply eqit_Vis. intros e. rewrite pulling_pop. apply eqit_Vis.
    intros [m w| |]; [apply pulling_got|apply pulling_ret|apply pulling_ret]. }
  destruct bd; unfold Channel_pull, UnboundedChannel_pull; rewrite pulling_pop; apply eqit_Vis;
    intros x; apply Hx.
Qed.

Lemma closing_eq l : pfor l (fun e => pop (ChSet e)) ;;; pret PNone ≅ v_closing l.
Proof.
  induction l as [|e l IH]; cbn [pfor v_closing]; [by rewrite pbind_pret|].
  rewrite pbind_assoc, pbind_pop. apply eqit_Vis. by intros [].
Qed.

Lemma close_eq bd : close_prog bd ≅
  Vis ChCas (fun b : bool => if b then Vis ChTake v_closing else Ret (Ok PNone)).
Proof.
  unfold close_prog. assert ((if bd then Channel_close else UnboundedChannel_close) = Channel_close)
    as -> by by destruct bd.
  unfold Channel_close. rewrite pbind_assoc, pbind_pop. apply eqit_Vis.
  intros []; [|by rewrite pbind_pret]. rewrite pbind_assoc, pbind_pop. apply eqit_Vis. apply closing_eq.
Qed.

Lemma drop_eq bd tx : drop_prog bd tx ≅
  (if tx then Vis ChTxSub (fun n => if n =? 1 then close_prog bd else Ret (Ok PNone))
   else Vis ChRxSub (fun n => if n =? 1 then close_prog bd else Ret (Ok PNone))).
Proof.
  destruct bd, tx; unfold drop_prog, Channel_tx_rem, Channel_rx_rem, UnboundedChannel_tx_rem,
    UnboundedChannel_rx_rem; rewrite pbind_assoc, pbind_pop; apply eqit_Vis; intros n;
    (destruct (n =? 1); [done|by rewrite pbind_pret]).
Qed.

Lemma pushed_at_tree bd size m w : c_tree bd size (pushed_at m w) = v_pushed w.
Proof. by destruct w. Qed.
Lemma got_at_tree bd size m w : c_tree bd size (got_at bd m w) = v_got bd m w.
Proof. by destruct bd. Qed.
Lemma taken_at_tree bd size m w : c_tree bd size (taken_at m w) = v_taken m w.
Proof. by destruct w. Qed.
Lemma closing_at_tree bd size d l : c_tree bd size (closing_at d l) = v_closing l.
Proof. by destruct l. Qed.

Lemma c_loops bd size p : loops_ok (c_tree bd size) (c_head bd size) c_jump p.
Proof.
  destruct p as [| | | | | | | | | | | | | | |[]| | | |]; unfold loops_ok; simpl; try reflexivity;
    try (left; eexists; split; [simpl; reflexivity|by intros K HK]); right; do 3 eexists;
    (split; [|by intros K; split; intros HK; exact HK]); simpl.
  - rewrite send_eq. apply eqit_Vis. intros []; [done|by destruct bd].
  - apply eqit_Vis. intros n. by destruct (size <=? n).
  - done.
  - apply eqit_Vis. intros [e|]; [done|by rewrite pushed_at_tree].
  - apply eqit_Vis. intros u. by rewrite pushed_at_tree.
  - done.
  - rewrite receive_eq. apply eqit_Vis. intros [m w| |]; [by rewrite got_at_tree|done..].
  - done.
  - apply eqit_Vis. intros [m w| |]; [by rewrite got_at_tree|done..].
  - apply eqit_Vis. intros u. by rewrite taken_at_tree.
  - done.
  - apply eqit_Vis. by intros [].
  - rewrite drop_eq. apply eqit_Vis. intros n. by destruct (n =? 1).
  - rewrite drop_eq. apply eqit_Vis. intros n. by destruct (n =? 1).
  - rewrite close_eq. apply eqit_Vis. by intros [].
  - apply eqit_Vis. intros l. by rewrite closing_at_tree.
  - apply eqit_Vis. intros u. by rewrite closing_at_tree.
Qed.

(** ** The pools *)

(** Closing: by a call, or ([Some]) by dropping a sender or a receiver. *)
Inductive role := Snd (m : pyobj) | Rcv | Cls (d : option bool).

(** The coroutine of a task, in the API chosen by [col]. *)
Definition role_prog (col bd : bool) (size : nat) (r : role) : pyM chanE pyobj :=
  match r, bd with
  | Snd m, true => if col then ColoredChannel.ChannelSender_send size m else ChannelSender_send size m
  | Snd m, false => UnboundedChannelSender_send m
  | Rcv, true => if col then ColoredChannel.ChannelReceiver_receive else ChannelReceiver_receive
  | Rcv, false =>
      if col then ColoredChannel.UnboundedChannelReceiver_receive else UnboundedChannelReceiver_receive
  | Cls None, true => Channel_close ;;; pret PNone
  | Cls None, false => UnboundedChannel_close ;;; pret PNone
  | Cls (Some tx), true => (if tx then Channel_tx_rem else Channel_rx_rem) ;;; pret PNone
  | Cls (Some tx), false =>
      (if tx then UnboundedChannel_tx_rem else UnboundedChannel_rx_rem) ;;; pret PNone
  end.

Definition start (r : role) : cphase :=
  match r with Snd m => S0 m | Rcv => R0 | Cls None => X0 None | Cls (Some tx) => XD tx end.
Definition role_of (p : cphase) : role :=
  match p with
  | S0 m | S1 m | SE m | S2 m _ | S3 _ m _ | S4 m _ | SF m _ => Snd m
  | R0 | R1 | R2 _ | R3 _ _ | R4 _ _ | R5 _ | R6 | RF _ => Rcv
  | XD tx => Cls (Some tx)
  | X0 d | X1 d | X2 d _ _ | XF d => Cls d
  end.

Lemma role_prog_start col bd size (roles : list role) :
  role_prog col bd size <$> roles = c_tree bd size <$> (start <$> roles).
Proof.
  rewrite <- list_fmap_compose. apply list_fmap_ext. intros _ [m| |[tx|]] _; by destruct col, bd.
Qed.

(** The steps between control points. *)
Inductive cstep (canc bd : bool) (size : nat) (s : chst) : cphase -> cphase -> chst -> Prop :=
| cs_refuse m (Hc : c_closed s = true) : cstep canc bd size s (S0 m) (SF m (Err broken_pipe)) s
| cs_open m (Hc : c_closed s = false) : cstep canc bd size s (S0 m) (if bd then S1 m else S2 m None) s
| cs_full m (Hl : size <= c_len s) : cstep canc bd size s (S1 m) (SE m) (set_len (S (c_len s)) s)
| cs_room m (Hl : c_len s < size) : cstep canc bd size s (S1 m) (S2 m None) (set_len (S (c_len s)) s)
| cs_event m : cstep canc bd size s (SE m) (S2 m (Some (c_next s))) (new_event s)
| cs_push m w (Hw : c_waiters s = []) : cstep canc bd size s (S2 m w) (pushed_at m w) (push_state m w s)
| cs_push_wake m w e ws (Hw : c_waiters s = e :: ws) :
    cstep canc bd size s (S2 m w) (S3 e m w) (push_state m w s)
| cs_wake e m w : cstep canc bd size s (S3 e m w) (pushed_at m w) (set_event e s)
| cs_sent m e (He : e ∈ c_flags s) : cstep canc bd size s (S4 m e) (SF m (Ok PNone)) s
| cs_sent_cancelled m e (Hcn : canc = true) : cstep canc bd size s (S4 m e) (SF m (Err CancelledError)) s
| cs_try_got m w q (Hq : c_queue s = (m, w) :: q) : cstep canc bd size s R0 (got_at bd m w) (looked s)
| cs_try_end (Hq : c_queue s = []) (Hc : c_closed s = true) :
    cstep canc bd size s R0 (RF (Err broken_pipe)) s
| cs_try_empty (Hq : c_queue s = []) (Hc : c_closed s = false) : cstep canc bd size s R0 R1 s
| cs_new : cstep canc bd size s R1 (R2 (c_next s)) (new_event s)
| cs_got e m w q (Hq : c_queue s = (m, w) :: q) : cstep canc bd size s (R2 e) (got_at bd m w) (looked s)
| cs_end e (Hq : c_queue s = []) (Hc : c_closed s = true) :
    cstep canc bd size s (R2 e) (RF (Err broken_pipe)) s
| cs_wait e (Hq : c_queue s = []) (Hc : c_closed s = false) :
    cstep canc bd size s (R2 e) (R5 e) (enqueue e s)
| cs_sub m w : cstep canc bd size s (R3 m w) (taken_at m w) (set_len (c_len s - 1) s)
| cs_release m e : cstep canc bd size s (R4 m e) (RF (Ok m)) (set_event e s)
| cs_woken e (He : e ∈ c_flags s) : cstep canc bd size s (R5 e) R6 s
| cs_cancelled e (Hcn : canc = true) : cstep canc bd size s (R5 e) (RF (Err CancelledError)) s
| cs_again : cstep canc bd size s R6 R0 s
| cs_drop_last tx : cstep canc bd size s (XD tx) (X0 (Some tx)) (one_less tx s)
| cs_drop tx : cstep canc bd size s (XD tx) (XF (Some tx)) (one_less tx s)
| cs_close d (Hc : c_closed s = false) : cstep canc bd size s (X0 d) (X1 d) (shut s)
| cs_close_again d (Hc : c_closed s = true) : cstep canc bd size s (X0 d) (XF d) (shut s)
| cs_take d : cstep canc bd size s (X1 d) (closing_at d (c_waiters s)) (no_waiters s)
| cs_set d e l : cstep canc bd size s (X2 d e l) (closing_at d l) (set_event e s).

Lemma looked_nil s : c_queue s = [] -> looked s = s.
Proof. destruct s. simpl. intros ->. done. Qed.

(** A pull at [p], where [p'] is where it goes from an empty queue. *)
Lemma look_step canc bd size (s s' : chst) p p' q :
  (forall m w l, c_queue s = (m, w) :: l -> cstep canc bd size s p (got_at bd m w) (looked s)) ->
  (c_queue s = [] -> c_closed s = true -> cstep canc bd size s p (RF (Err broken_pipe)) s) ->
  (c_queue s = [] -> c_closed s = false -> cstep canc bd size s p q s') ->
  p' = match look s with
       | Got m w => got_at bd m w | IsClosed => RF (Err broken_pipe) | Empty => q end ->
  cstep canc bd size s p p' (match look s with Empty => s' | _ => looked s end).
Proof.
  intros Hg Hc He ->. unfold look. destruct (c_queue s) as [|[m w] l] eqn:Hq; [|by eapply Hg].
  destruct (c_closed s) eqn:Hcl; [|by apply He]. rewrite looked_nil by done. by apply Hc.
Qed.

Lemma chan_step canc bd size i s p p' s' :
  loop_step (chan_sem canc) (c_head bd size) c_jump i s p p' s' -> cstep canc bd size s p p' s'.
Proof.
  intros Hs. destruct p; unfold loop_step, head_step in Hs; simpl in Hs; try done;
    try (destruct Hs as (x & Hx & Hp')).
  - destruct Hx as [-> ->]. subst p'. destruct (c_closed s) eqn:Hc; by constructor.
  - destruct Hx as [-> ->]. subst p'. destruct (Nat.leb_spec size (c_len s)); by constructor.
  - destruct Hx as [-> ->]. subst p'. constructor.
  - destruct Hx as [-> ->]. subst p'. destruct (c_waiters s) eqn:Hw; [by constructor|by econstructor].
  - subst. constructor.
  - destruct Hx as [[[-> He]|[-> ->]] ->]; subst p'; by constructor.
  - destruct Hx as [-> ->]. replace (looked s) with (match look s with Empty => s | _ => looked s end).
    { eapply look_step; [by econstructor..|done]. }
    unfold look. destruct (c_queue s) eqn:Hq; [|by destruct p]. destruct (c_closed s); [done|].
    by rewrite looked_nil.
  - destruct Hx as [-> ->]. subst p'. constructor.
  - destruct Hx as [-> ->]. eapply look_step; [by econstructor..|done].
  - subst. constructor.
  - subst. constructor.
  - destruct Hx as [[[-> He]|[-> ->]] ->]; subst p'; by constructor.
  - destruct Hs as [-> ->]. constructor.
  - destruct tx, Hs as (x & [-> ->] & Hp'); subst p'; destruct (_ =? 1); constructor.
  - destruct Hx as [-> ->]. subst p'. destruct (c_closed s) eqn:Hc; by constructor.
  - destruct Hx as [-> ->]. subst p'. constructor.
  - subst. constructor.
Qed.

Lemma chan_invariant canc col bd size (I : list cphase -> chst -> Prop) roles ts s :
  I (start <$> roles) channel ->
  (forall ps s i p p' s', I ps s -> ps !! i = Some p -> cstep canc bd size s p p' s' ->
     I (<[i:=p']> ps) s') ->
  reachable (chan_sem canc) (role_prog col bd size <$> roles, channel) (ts, s) ->
  exists ps, at_phases (c_tree bd size) ts ps /\ I ps s.
Proof.
  rewrite role_prog_start. intros H0 Hstep.
  apply (phases_invariant _ _ _ (loop_tree_step (chan_sem canc) _ _ _ (c_loops bd size))); [done|].
  intros ps s1 i p p' s' HI Hp Hs. eapply Hstep; [done..|]. by eapply chan_step.
Qed.

(** A task that has returned stands at a final control point. *)
Lemma c_ret bd size t p r : t ≅ c_tree bd size p -> t ≅ Ret r ->
  p = RF r \/ (exists m, p = SF m r) \/ (exists d, p = XF d) /\ r = Ok PNone.
Proof.
  intros Hp Hr. rewrite Hr in Hp. pose proof (loop_ret _ _ _ (c_loops bd size) p r (symmetry Hp)) as [Hj Hn].
  destruct p as [| | | | | | | | | | | | | | |[]| | | |]; simpl in *; try done; try (exfalso; by apply (Hn (fun _ _ _ => True)));
    apply eq_Ret_inj in Hp as ->; eauto.
Qed.

(** ** The abstract queue *)

Inductive fate := Pending | Accepted | Refused | Received (m : pyobj) | Cancelled.

(** The tasks and what became of them, the messages in the queue, and the messages that were
    accepted and delivered, in that order. *)
Record fifo := mkFifo {
  f_tasks : list (role * fate); f_queue : list pyobj; f_closed : bool;
  f_sent : list pyobj; f_received : list pyobj
}.

Definition fifo_init (roles : list role) : fifo :=
  mkFifo ((fun r => (r, Pending)) <$> roles) [] false [] [].

(** Each task takes one step.  A task that drops its end may or may not be the last one.  A message may be accepted as the channel is being closed
    by another task; a receiver is refused only when nothing is left. *)
Inductive fifo_step (canc : bool) : fifo -> fifo -> Prop :=
| fifo_accept i m ts q c snt rcv : ts !! i = Some (Snd m, Pending) ->
    fifo_step canc (mkFifo ts q c snt rcv)
      (mkFifo (<[i:=(Snd m, Accepted)]> ts) (q ++ [m]) c (snt ++ [m]) rcv)
| fifo_refuse i m ts q snt rcv : ts !! i = Some (Snd m, Pending) ->
    fifo_step canc (mkFifo ts q true snt rcv) (mkFifo (<[i:=(Snd m, Refused)]> ts) q true snt rcv)
| fifo_deliver i m ts q c snt rcv : ts !! i = Some (Rcv, Pending) ->
    fifo_step canc (mkFifo ts (m :: q) c snt rcv)
      (mkFifo (<[i:=(Rcv, Received m)]> ts) q c snt (rcv ++ [m]))
| fifo_end i ts snt rcv : ts !! i = Some (Rcv, Pending) ->
    fifo_step canc (mkFifo ts [] true snt rcv) (mkFifo (<[i:=(Rcv, Refused)]> ts) [] true snt rcv)
| fifo_cancel i ts q c snt rcv : canc = true -> ts !! i = Some (Rcv, Pending) ->
    fifo_step canc (mkFifo ts q c snt rcv) (mkFifo (<[i:=(Rcv, Cancelled)]> ts) q c snt rcv)
| fifo_close i d ts q c snt rcv : ts !! i = Some (Cls d, Pending) ->
    fifo_step canc (mkFifo ts q c snt rcv) (mkFifo (<[i:=(Cls d, Accepted)]> ts) q true snt rcv)
| fifo_drop i tx ts q c snt rcv : ts !! i = Some (Cls (Some tx), Pending) ->
    fifo_step canc (mkFifo ts q c snt rcv) (mkFifo (<[i:=(Cls (Some tx), Accepted)]> ts) q c snt rcv).

Definition fifo_reachable (canc : bool) (roles : list role) (f : fifo) : Prop :=
  rtc (fifo_step canc) (fifo_init roles) f.

(** What a task of a given fate may return: a sender whose message was accepted may still be
    cancelled while it waits for a receiver. *)
Definition agrees (o : fate) (r : result pyobj) : Prop :=
  match o with
  | Pending => False
  | Accepted => r = Ok PNone \/ r = Err CancelledError
  | Refused => r = Err broken_pipe
  | Received m => r = Ok m
  | Cancelled => r = Err CancelledError
  end.

(** ** The refinement *)

Definition fate_of (p : cphase) : fate :=
  match p with
  | S0 _ | S1 _ | SE _ | S2 _ _ | R0 | R1 | R2 _ | R5 _ | R6 | XD _ | X0 _ => Pending
  | S3 _ _ _ | S4 _ _ | SF _ (Ok _) | X1 _ | X2 _ _ _ | XF _ => Accepted
  | SF _ (Err e) => if is_Cancelled e then Accepted else Refused
  | R3 m _ | R4 m _ | RF (Ok m) => Received m
  | RF (Err e) => if is_Cancelled e then Cancelled else Refused
  end.

Definition final_ok (p : cphase) : Prop :=
  match p with SF _ r | RF r => agrees (fate_of p) r | _ => True end.

(** The abstract state of a pool. *)
Definition tasks_of (ps : list cphase) : list (role * fate) := (fun p => (role_of p, fate_of p)) <$> ps.
Definition abs (ps : list cphase) (s : chst) (snt rcv : list pyobj) : fifo :=
  mkFifo (tasks_of ps) (fst <$> c_queue s) (c_closed s) snt rcv.

Lemma tasks_of_lookup ps i p : ps !! i = Some p -> tasks_of ps !! i = Some (role_of p, fate_of p).
Proof. intros Hp. unfold tasks_of. by rewrite list_lookup_fmap, Hp. Qed.

Lemma tasks_of_insert ps i p : tasks_of (<[i:=p]> ps) = <[i:=(role_of p, fate_of p)]> (tasks_of ps).
Proof. unfold tasks_of. by rewrite list_fmap_insert. Qed.

(** A step that leaves the task pending, or its fate settled, is no step of the queue. *)
Lemma abs_stutter ps s i p p' s' snt rcv :
  ps !! i = Some p -> role_of p' = role_of p -> fate_of p' = fate_of p ->
  c_queue s' = c_queue s -> c_closed s' = c_closed s ->
  abs (<[i:=p']> ps) s' snt rcv = abs ps s snt rcv.
Proof.
  intros Hp Hr Hf Hq Hc. unfold abs. rewrite tasks_of_insert, Hr, Hf, Hq, Hc.
  by rewrite list_insert_id by by apply tasks_of_lookup.
Qed.

Lemma fate_pushed m w : role_of (pushed_at m w) = Snd m /\ fate_of (pushed_at m w) = Accepted.
Proof. by destruct w. Qed.
Lemma fate_taken m w : role_of (taken_at m w) = Rcv /\ fate_of (taken_at m w) = Received m.
Proof. by destruct w. Qed.
Lemma fate_got bd m w : role_of (got_at bd m w) = Rcv /\ fate_of (got_at bd m w) = Received m.
Proof. by destruct bd. Qed.
Lemma fate_closing d l : role_of (closing_at d l) = Cls d /\ fate_of (closing_at d l) = Accepted.
Proof. by destruct l. Qed.

#[local] Hint Resolve fate_pushed fate_taken fate_got fate_closing : core.

Section Refinement.
Context (canc bd : bool) (size : nat).

Lemma cstep_final s p p' s' : cstep canc bd size s p p' s' -> final_ok p'.
Proof. 
  intros Hs. destruct Hs; unfold got_at, taken_at, pushed_at, closing_at; simpl; eauto;
    split_match; simpl; eauto.
Qed.

Lemma chan_sim ps s i p p' s' snt rcv :
  ps !! i = Some p -> cstep canc bd size s p p' s' ->
  exists snt' rcv', rtc (fifo_step canc) (abs ps s snt rcv) (abs (<[i:=p']> ps) s' snt' rcv').
Proof.
  intros Hp Hs. pose proof (tasks_of_lookup ps i p Hp) as Hi.
  assert (role_of p' = role_of p -> fate_of p' = fate_of p -> c_queue s' = c_queue s ->
    c_closed s' = c_closed s ->
    exists snt' rcv', rtc (fifo_step canc) (abs ps s snt rcv) (abs (<[i:=p']> ps) s' snt' rcv')) as Hst.
  { intros. exists snt, rcv. by erewrite abs_stutter by done. }
  destruct Hs; simpl in Hi;
    try (by (apply Hst; try done; first [apply fate_pushed|apply fate_taken|apply fate_closing|destruct bd])).
  all: unfold abs; setoid_rewrite tasks_of_insert.
  - rewrite Hc. do 2 eexists. apply rtc_once. by eapply fifo_refuse.
  - destruct (fate_pushed m w) as [-> ->]. simpl. rewrite fmap_app. do 2 eexists.
    apply rtc_once. by eapply fifo_accept.
  - simpl. rewrite fmap_app. do 2 eexists. apply rtc_once. by eapply fifo_accept.
  - destruct (fate_got bd m w) as [-> ->]. simpl. rewrite Hq. do 2 eexists.
    apply rtc_once. by eapply fifo_deliver.
  - rewrite Hq, Hc. do 2 eexists. apply rtc_once. by eapply fifo_end.
  - destruct (fate_got bd m w) as [-> ->]. simpl. rewrite Hq. do 2 eexists.
    apply rtc_once. by eapply fifo_deliver.
  - rewrite Hq, Hc. do 2 eexists. apply rtc_once. by eapply fifo_end.
  - do 2 eexists. apply rtc_once. by eapply fifo_cancel.
  - do 2 eexists. apply rtc_once. by eapply fifo_drop.
  - do 2 eexists. apply rtc_once. by eapply fifo_close.
  - do 2 eexists. apply rtc_once. by eapply fifo_close.
Qed.

Lemma cstep_role s p p' s' : cstep canc bd size s p p' s' -> role_of p' = role_of p.
Proof.
  intros Hs. destruct Hs; try done; first [apply fate_pushed|apply fate_taken|apply fate_closing|apply fate_got|by destruct bd].
Qed.

Lemma start_roles (roles : list role) : role_of <$> (start <$> roles) = roles.
Proof.
  rewrite <- list_fmap_compose. rewrite <- (list_fmap_id roles) at 2.
  apply list_fmap_ext. intros _ [m| |[tx|]] _; done.
Qed.

Lemma roles_step (ps : list cphase) i p p' s s' (roles : list role) : role_of <$> ps = roles -> ps !! i = Some p ->
  cstep canc bd size s p p' s' -> role_of <$> <[i:=p']> ps = roles.
Proof.
  intros Hro Hp Hs. rewrite list_fmap_insert, (cstep_role _ _ _ _ Hs), Hro.
  apply list_insert_id. by rewrite <- Hro, list_lookup_fmap, Hp.
Qed.

Lemma final_agrees p r : p = RF r \/ (exists m, p = SF m r) \/ (exists d, p = XF d) /\ r = Ok PNone ->
  final_ok p -> agrees (fate_of p) r.
Proof. intros [->|[[m ->]|[[d ->] ->]]]; simpl; eauto. Qed.

Lemma chan_refined col roles ts s :
  reachable (chan_sem canc) (role_prog col bd size <$> roles, channel) (ts, s) ->
  exists ps snt rcv, at_phases (c_tree bd size) ts ps /\
    fifo_reachable canc roles (abs ps s snt rcv) /\ role_of <$> ps = roles /\ Forall final_ok ps.
Proof.
  intros Hr. destruct (chan_invariant canc col bd size
    (fun ps s => (exists snt rcv, fifo_reachable canc roles (abs ps s snt rcv)) /\
       role_of <$> ps = roles /\ Forall final_ok ps) roles ts s) as (ps & Hat & (snt & rcv & Hf) & Hro & Hfin).
  - split_and!.
    + exists [], []. unfold fifo_reachable, abs, fifo_init, tasks_of. simpl.
      rewrite <- list_fmap_compose. erewrite (list_fmap_ext _ _ roles); [done|].
      intros _ [m| |[tx|]] _; done.
    + apply start_roles.
    + apply Forall_fmap, Forall_true. by intros [| |[]].
  - intros ps s1 i p p' s' ((snt & rcv & Hf) & Hro & Hfin) Hp Hs. split_and!.
    + destruct (chan_sim _ _ _ _ _ _ snt rcv Hp Hs) as (snt' & rcv' & Hs').
      exists snt', rcv'. unfold fifo_reachable in *. by etrans.
    + by eapply roles_step.
    + apply Forall_insert; [done|by eapply cstep_final].
  - done.
  - eauto 10.
Qed.
End Refinement.

(** *** The queue keeps every message, in order *)

Definition accepted (x : role * fate) : option pyobj :=
  match x with (Snd m, Accepted) => Some m | _ => None end.
Definition delivered (x : role * fate) : option pyobj :=
  match x with (_, Received m) => Some m | _ => None end.

Lemma fifo_conserves canc roles f : fifo_reachable canc roles f ->
  f_sent f = f_received f ++ f_queue f /\
  omap accepted (f_tasks f) ≡ₚ f_sent f /\ omap delivered (f_tasks f) ≡ₚ f_received f.
Proof.
  intros Hr. pattern f. eapply rtc_ind_r; [| |exact Hr]; clear f Hr.
  - simpl. induction roles as [|r roles IH]; [done|]. simpl. by destruct r.
  - intros f f' _ Hs (Hq & Ha & Hd). destruct Hs; simpl in *;
      try (by erewrite !omap_insert_same by done); split_and!.
    + by rewrite Hq, app_assoc.
    + erewrite omap_insert_new by done. by rewrite Ha, Permutation_cons_append.
    + by erewrite omap_insert_same.
    + by rewrite Hq, <- app_assoc.
    + by erewrite omap_insert_same.
    + erewrite omap_insert_new by done. by rewrite Hd, Permutation_cons_append.
Qed.

(** [C16] Channels refine a queue.  Any number of tasks send, receive and close on a bounded or
    unbounded channel, in either API, interleaved in any way and (with [canc]) cancelled
    where they wait.  What they do is an execution of the abstract queue: it
    holds the same messages, is closed at the same time, and every task that has returned
    returned what the queue decided: [None] for a message accepted, [BrokenPipeError] for one
    refused and for a receiver that found the channel closed and empty, the message for a
    receiver it was delivered to. *)
Theorem channel_refines_fifo canc col bd size roles ts s :
  reachable (chan_sem canc) (role_prog col bd size <$> roles, channel) (ts, s) ->
  exists f, fifo_reachable canc roles f /\
    f_queue f = fst <$> c_queue s /\ f_closed f = c_closed s /\
    forall i t r, ts !! i = Some t -> t ≅ Ret r ->
      exists ro o, f_tasks f !! i = Some (ro, o) /\ roles !! i = Some ro /\ agrees o r.
Proof.
  intros Hr. destruct (chan_refined canc bd size col roles ts s Hr)
    as (ps & snt & rcv & Hat & Hf & Hro & Hfin).
  exists (abs ps s snt rcv). split_and!; [done..|]. intros i t r Ht Hret.
  destruct (at_phases_lookup _ _ _ _ _ Hat Ht) as (p & Hp & Hpt).
  exists (role_of p), (fate_of p). split_and!.
  - by apply tasks_of_lookup.
  - by rewrite <- Hro, list_lookup_fmap, Hp.
  - eapply final_agrees; [by eapply c_ret|]. by eapply (Forall_lookup_1 final_ok).
Qed.

(** *** Exactly once *)

(** What a task that returned [r] says of a message: a sender that was not refused has passed
    it on. *)
Definition was_accepted (x : role * result pyobj) : option pyobj :=
  match x with
  | (Snd m, Ok _) => Some m
  | (Snd m, Err e) => if is_Cancelled e then Some m else None
  | _ => None
  end.
Definition was_delivered (x : role * result pyobj) : option pyobj :=
  match x with (Rcv, Ok m) => Some m | _ => None end.

Lemma returned_fates bd size ts ps rs :
  at_phases (c_tree bd size) ts ps -> Forall2 (fun t r => t ≅ Ret r) ts rs ->
  omap accepted (tasks_of ps) = omap was_accepted (zip (role_of <$> ps) rs) /\
  omap delivered (tasks_of ps) = omap was_delivered (zip (role_of <$> ps) rs).
Proof.
  intros Hat. revert rs. induction Hat as [|t p ts ps Hp _ IH]; intros rs Hrs.
  - by inv Hrs.
  - inv Hrs as [|? r ? rs' Hr Hrs']. destruct (IH _ Hrs') as [Ha Hd].
    change (tasks_of (p :: ps)) with ((role_of p, fate_of p) :: tasks_of ps).
    rewrite fmap_cons. cbn [zip zip_with omap list_omap]. rewrite Ha, Hd. destruct (c_ret _ _ _ _ _ Hp Hr) as [->|[[m ->]|[[d ->] ->]]];
      [destruct r as [v|e]; [done|]..|done]; simpl; by destruct (is_Cancelled e).
Qed.

(** Once every task on a channel has returned, the messages of the senders that were not
    refused are, each as often as it was sent, those the receivers returned and those left in the
    queue: no message is lost, duplicated or made up.  This holds whatever the interleaving, and
    with tasks cancelled where they wait. *)
Theorem channel_exactly_once canc col bd size roles ts s rs :
  reachable (chan_sem canc) (role_prog col bd size <$> roles, channel) (ts, s) ->
  Forall2 (fun t r => t ≅ Ret r) ts rs ->
  omap was_accepted (zip roles rs) ≡ₚ omap was_delivered (zip roles rs) ++ (fst <$> c_queue s).
Proof.
  intros Hr Hrs. destruct (chan_refined canc bd size col roles ts s Hr)
    as (ps & snt & rcv & Hat & Hf & Hro & _).
  destruct (fifo_conserves _ _ _ Hf) as (Hq & Ha & Hd). simpl in *.
  destruct (returned_fates _ _ _ _ _ Hat Hrs) as [Ha' Hd']. rewrite Hro in Ha', Hd'.
  by rewrite <- Ha', Ha, Hq, <- Hd', Hd.
Qed.

(** A message sent, then received. *)
Lemma one_message_run canc : exists ts s,
  reachable (chan_sem canc) (role_prog false true 1 <$> [Snd (PInt 7); Rcv], channel) (ts, s) /\
  Forall2 (fun t r => t ≅ Ret r) ts [Ok PNone; Ok (PInt 7)].
Proof.
  do 2 eexists. split.
  - do 3 pool_step 0. do 2 pool_step 1. apply reachable_init.
  - repeat constructor; apply eq_obs_Ret; reflexivity.
Defined.

Lemma channel_refines_fifo_witness : exists (ts : list (pyM chanE pyobj)) s f,
  fifo_reachable true [Snd (PInt 7); Rcv] f /\ f_queue f = fst <$> c_queue s /\
  f_closed f = c_closed s /\
  forall i t r, ts !! i = Some t -> t ≅ Ret r ->
    exists ro o, f_tasks f !! i = Some (ro, o) /\ [Snd (PInt 7); Rcv] !! i = Some ro /\ agrees o r.
Proof.
  destruct (one_message_run true) as (ts & s & Hr & _). exists ts, s.
  exact (channel_refines_fifo true false true 1 [Snd (PInt 7); Rcv] ts s Hr).
Defined.

Lemma channel_exactly_once_witness : exists s : chst,
  [PInt 7] ≡ₚ [PInt 7] ++ (fst <$> c_queue s).
Proof.
  destruct (one_message_run true) as (ts & s & Hr & Hrs). exists s.
  exact (channel_exactly_once true false true 1 [Snd (PInt 7); Rcv] ts s _ Hr Hrs).
Defined.
