(* ===== verification/ChannelLive.v ===== *)
(** * Channels: nobody sleeps for nothing

    Tasks that are not cancelled.  The invariant ties the events of the receivers that wait to
    the queue: while anybody waits there are at least as many receivers on their way to the queue
    as there are messages in it.  Every execution ends, and where it ends the only tasks left are
    receivers of an empty open channel or senders nobody receives from. *)

From stdpp Require Import base numbers list gmap sets strings.
From Stdlib Require Import ZArith Lia.
From ITree Require Import ITree ITreeFacts.
From S2P Require Import Prelude Coro Os Channel ChannelProps.

Open Scope tonio_scope.
Open Scope nat_scope.
#[local] Set Warnings "-clear-no-such-hyp".

(** ** Events *)

(** The events of receivers and of senders that a control point names. *)
Definition rcv_evs (p : cphase) : list nat :=
  match p with R2 e | R5 e | S3 e _ _ => [e] | X2 _ e l => e :: l | _ => [] end.
Definition want (w : option nat) : list nat := match w with Some e => [e] | None => [] end.
Definition snd_evs (p : cphase) : list nat :=
  match p with
  | S2 _ w | S3 _ _ w | R3 _ w => want w
  | S4 _ e | R4 _ e => [e]
  | _ => []
  end.
(** The events a task is about to set. *)
Definition to_set (p : cphase) : list nat :=
  match p with S3 e _ _ | R4 _ e => [e] | X2 _ e l => e :: l | _ => [] end.

Definition woken (ps : list cphase) (s : chst) (e : nat) : Prop :=
  e ∈ c_flags s \/ exists j q, ps !! j = Some q /\ e ∈ to_set q.

(** On its way to the queue. *)
Definition active (ws : list nat) (p : cphase) : bool :=
  match p with
  | R0 | R1 | R2 _ | R6 => true
  | R5 e => bool_decide (e ∉ ws)
  | _ => false
  end.

(** The receivers' event a control point owns. *)
Definition own (p : cphase) : option nat := match p with R2 e | R5 e => Some e | _ => None end.

(** The message and event of a sender that waits for it to be taken. *)
Definition sleeping (p : cphase) : option (pyobj * nat) :=
  match p with S3 _ m (Some e) | S4 m e => Some (m, e) | _ => None end.

Definition in_push (p : cphase) : bool := match p with S1 _ | SE _ => true | _ => false end.

(** [K] tells receivers' events from senders'. *)
Record kinds_ok (bd : bool) (K : nat -> bool) (ps : list cphase) (s : chst) : Prop := {
  k_rcv : forall j q e, ps !! j = Some q -> e ∈ rcv_evs q -> K e = true /\ e < c_next s;
  k_snd : forall j q e, ps !! j = Some q -> e ∈ snd_evs q ->
    K e = false /\ e < c_next s /\ bd = true;
  k_queue : forall m e, (m, Some e) ∈ c_queue s -> K e = false /\ e < c_next s /\ bd = true;
  k_bounded : forall j q, ps !! j = Some q -> in_push q = true -> bd = true;
  k_waiters : forall e, e ∈ c_waiters s -> K e = true /\ e < c_next s;
  k_flags : forall e, e ∈ c_flags s -> e < c_next s
}.

Record live (bd : bool) (ps : list cphase) (s : chst) : Prop := {
  l_kinds : exists K, kinds_ok bd K ps s;
  l_distinct : forall i j p q e, ps !! i = Some p -> ps !! j = Some q ->
    own p = Some e -> own q = Some e -> i = j;
  l_nodup : NoDup (c_waiters s);
  l_waits : forall e, e ∈ c_waiters s -> exists i, ps !! i = Some (R5 e);
  l_idle : forall e, e ∈ c_waiters s \/ (exists i, ps !! i = Some (R2 e)) -> ~ woken ps s e;
  l_sleep : forall i e, ps !! i = Some (R5 e) -> e ∈ c_waiters s \/ woken ps s e;
  l_enough : c_waiters s = [] \/ length (c_queue s) <= countb (active (c_waiters s)) ps;
  l_closed : c_closed s = true -> c_waiters s = [] \/ exists j d, ps !! j = Some (X1 d);
  l_senders : forall i p m e, ps !! i = Some p -> sleeping p = Some (m, e) ->
    e ∈ c_flags s \/ (m, Some e) ∈ c_queue s \/
    exists j, ps !! j = Some (R3 m (Some e)) \/ ps !! j = Some (R4 m e)
}.

Section Live.
Context (bd : bool) (size : nat).

#[local] Abbreviation step := (cstep false bd size).

Lemma snd_pushed m w : rcv_evs (pushed_at m w) = [] /\ snd_evs (pushed_at m w) = want w /\
  to_set (pushed_at m w) = [] /\ own (pushed_at m w) = None /\ in_push (pushed_at m w) = false.
Proof. by destruct w. Qed.
Lemma snd_taken m w : rcv_evs (taken_at m w) = [] /\ snd_evs (taken_at m w) = want w /\
  to_set (taken_at m w) = want w /\ own (taken_at m w) = None /\ in_push (taken_at m w) = false.
Proof. by destruct w. Qed.
Lemma snd_got m w : rcv_evs (got_at bd m w) = [] /\ (forall e, e ∈ snd_evs (got_at bd m w) -> w = Some e) /\
  to_set (got_at bd m w) = [] /\ own (got_at bd m w) = None /\ in_push (got_at bd m w) = false.
Proof.
  destruct bd; simpl; split_and!; try done.
  - destruct w; simpl; [by intros e' ->%list_elem_of_singleton|by intros ? []%not_elem_of_nil].
  - by intros ? []%not_elem_of_nil.
Qed.
Lemma rcv_closing d l : rcv_evs (closing_at d l) = l /\ snd_evs (closing_at d l) = [] /\
  to_set (closing_at d l) = l /\ own (closing_at d l) = None /\ in_push (closing_at d l) = false.
Proof. by destruct l. Qed.

(** Where the events of a control point come from. *)
Lemma step_rcv_evs s p p' s' e : step s p p' s' -> e ∈ rcv_evs p' ->
  e ∈ rcv_evs p \/ e ∈ c_waiters s \/ p = R1 /\ e = c_next s /\ c_next s' = S (c_next s).
Proof.
  intros Hs. destruct Hs; simpl; rewrite ?(proj1 (snd_pushed _ _)), ?(proj1 (snd_taken _ _)),
    ?(proj1 (snd_got _ _)), ?(proj1 (rcv_closing _ _)); try set_solver.
  - destruct bd; set_solver.
  - rewrite Hw. set_solver.
Qed.

Lemma step_snd_evs s p p' s' e : step s p p' s' -> e ∈ snd_evs p' ->
  e ∈ snd_evs p \/ (exists m, (m, Some e) ∈ c_queue s) \/ in_push p = true /\ e = c_next s /\ c_next s' = S (c_next s).
Proof.
  intros Hs.
  assert (forall m w q, c_queue s = (m, w) :: q -> e ∈ snd_evs (got_at bd m w) ->
    exists m, (m, Some e) ∈ c_queue s) as Hgot.
  { intros m w q Hq He. exists m. apply snd_got in He as ->. rewrite Hq. by left. }
  destruct Hs; simpl; rewrite ?(proj1 (proj2 (snd_pushed _ _))), ?(proj1 (proj2 (snd_taken _ _))),
    ?(proj1 (proj2 (rcv_closing _ _))); try set_solver; [|eauto..].
  destruct bd; set_solver.
Qed.

Lemma step_in_push s p p' s' : step s p p' s' -> in_push p' = true -> in_push p = true \/ bd = true.
Proof.
  intros Hs. destruct Hs; try (by simpl; eauto).
  - destruct bd; simpl; eauto.
  - by rewrite (proj2 (proj2 (proj2 (proj2 (snd_pushed _ _))))).
  - by rewrite (proj2 (proj2 (proj2 (proj2 (snd_pushed _ _))))).
  - by rewrite (proj2 (proj2 (proj2 (proj2 (snd_got _ _))))).
  - by rewrite (proj2 (proj2 (proj2 (proj2 (snd_got _ _))))).
  - by rewrite (proj2 (proj2 (proj2 (proj2 (snd_taken _ _))))).
  - by rewrite (proj2 (proj2 (proj2 (proj2 (rcv_closing _ _))))).
  - by rewrite (proj2 (proj2 (proj2 (proj2 (rcv_closing _ _))))).
Qed.

Lemma step_queue s p p' s' m e : step s p p' s' -> (m, Some e) ∈ c_queue s' ->
  (m, Some e) ∈ c_queue s \/ p = S2 m (Some e).
Proof.
  intros Hs. destruct Hs; simpl; try (by eauto);
    try (rewrite elem_of_app, list_elem_of_singleton; intros [?|[= -> ->]]; by eauto);
    rewrite Hq; simpl; intros ?; left; by right.
Qed.

Lemma step_waiters s p p' s' e : step s p p' s' -> e ∈ c_waiters s' ->
  e ∈ c_waiters s \/ p = R2 e /\ p' = R5 e.
Proof.
  intros Hs. destruct Hs; simpl; try (by eauto); try set_solver.
  - rewrite Hw. by intros ?%elem_of_nil.
  - rewrite Hw. intros ?. left. by right.
Qed.

Lemma step_flags s p p' s' e : step s p p' s' -> e ∈ c_flags s' -> e ∈ c_flags s \/ e ∈ to_set p.
Proof. intros Hs. destruct Hs; simpl; set_solver. Qed.

Lemma step_next s p p' s' : step s p p' s' ->
  c_next s' = c_next s \/ c_next s' = S (c_next s).
Proof. intros Hs. destruct Hs; simpl; eauto. Qed.

Lemma to_set_evs p e : e ∈ to_set p -> e ∈ rcv_evs p \/ e ∈ snd_evs p.
Proof. destruct p; set_solver. Qed.

(** An entry of the pool after a step. *)
Lemma insert_inv (ps : list cphase) i p' j q : <[i:=p']> ps !! j = Some q ->
  j = i /\ q = p' \/ j <> i /\ ps !! j = Some q.
Proof. intros [(-> & -> & _)|[]]%list_lookup_insert_Some; eauto. Qed.

Lemma kinds_step K ps s i p p' s' :
  kinds_ok bd K ps s -> ps !! i = Some p -> step s p p' s' ->
  exists K', kinds_ok bd K' (<[i:=p']> ps) s' /\ forall e, e < c_next s -> K' e = K e.
Proof.
  intros Hk Hp Hs. pose proof (step_next _ _ _ _ Hs) as Hn.
  set (K' e := if decide (e = c_next s) then negb (in_push p) else K e).
  assert (forall e, e < c_next s -> K' e = K e) as HK.
  { intros e He. unfold K'. by rewrite decide_False by lia. }
  assert (forall b e, K e = b /\ e < c_next s -> K' e = b /\ e < c_next s') as Hold.
  { intros b e [He Hlt]. rewrite HK by done. split; [done|lia]. }
  destruct Hk as [Hr Hsd Hq Hb Hw Hf].
  assert (forall b e, K e = b /\ e < c_next s /\ bd = true -> K' e = b /\ e < c_next s' /\ bd = true) as Hold'.
  { intros b e (? & ? & ?). destruct (Hold b e) as [? ?]; eauto. }
  exists K'. split; [|done]. split.
  - intros j q e [[-> ->]|[_ Hj]]%insert_inv He; [|eauto].
    destruct (step_rcv_evs _ _ _ _ _ Hs He) as [?|[?|(-> & -> & Hnx)]]; [eauto..|].
    unfold K'. rewrite decide_True by done. split; [done|lia].
  - intros j q e [[-> ->]|[_ Hj]]%insert_inv He; [|eauto].
    destruct (step_snd_evs _ _ _ _ _ Hs He) as [?|[[m ?]|(Hin & -> & Hnx)]]; [eauto..|].
    unfold K'. rewrite decide_True, Hin by done. split_and!; [done|lia|eauto].
  - intros m e He. destruct (step_queue _ _ _ _ _ _ Hs He) as [?| ->]; [eauto|].
    apply Hold', (Hsd i _ e Hp). by left.
  - intros j q [[-> ->]|[_ Hj]]%insert_inv He; [|eauto].
    destruct (step_in_push _ _ _ _ Hs He); eauto.
  - intros e He. destruct (step_waiters _ _ _ _ _ Hs He) as [?|[-> _]]; [eauto|].
    apply Hold, (Hr i _ e Hp). by left.
  - intros e He. destruct (step_flags _ _ _ _ _ Hs He) as [?%Hf|Hts]; [lia|].
    destruct (to_set_evs _ _ Hts) as [?|?]; [destruct (Hr i p e)|destruct (Hsd i p e)]; eauto; lia.
Qed.

(** Every event that is set, or about to be, stays so. *)
Lemma woken_step ps s i p p' s' e :
  ps !! i = Some p -> step s p p' s' -> woken ps s e -> woken (<[i:=p']> ps) s' e.
Proof.
  intros Hp Hs [He|(j & q & Hj & He)].
  - left. destruct Hs; simpl; set_solver.
  - destruct (decide (j = i)) as [->|Hne].
    + simplify_eq. assert (e ∈ c_flags s' \/ e ∈ to_set p') as [?|?]; [|by left|].
      * destruct Hs; simpl in *; try set_solver. rewrite (proj1 (proj2 (proj2 (rcv_closing _ _)))). set_solver.
      * right. exists i, p'. rewrite list_lookup_insert_eq by (by eapply lookup_lt_Some). done.
    + right. exists j, q. by rewrite list_lookup_insert_ne.
Qed.

(** An event is newly woken when it leaves the waiters, or is a sender's. *)
Lemma woken_new ps s i p p' s' e :
  ps !! i = Some p -> step s p p' s' -> NoDup (c_waiters s) -> woken (<[i:=p']> ps) s' e ->
  woken ps s e \/ e ∈ c_waiters s /\ e ∉ c_waiters s' \/ e ∈ snd_evs p.
Proof.
  intros Hp Hs Hnd [He|(j & q & [[-> ->]|[_ Hj]]%insert_inv & He)].
  - destruct (step_flags _ _ _ _ _ Hs He) as [?|?]; [by left; left|]. left. right. eauto.
  - destruct (decide (e ∈ to_set p)) as [?|Hn]; [by left; right; eauto|]. right.
    destruct Hs; simpl in *; rewrite ?(proj1 (proj2 (proj2 (snd_pushed _ _)))),
      ?(proj1 (proj2 (proj2 (snd_taken _ _)))), ?(proj1 (proj2 (proj2 (snd_got _ _)))),
      ?(proj1 (proj2 (proj2 (rcv_closing _ _)))) in He; try set_solver.
    + destruct bd; set_solver.
    + rewrite Hw in *. apply NoDup_cons in Hnd as [? ?]. set_solver.
  - left. right. eauto.
Qed.

Lemma step_own s p p' s' e : step s p p' s' -> own p' = Some e ->
  own p = Some e \/ p = R1 /\ p' = R2 e /\ e = c_next s.
Proof.
  intros Hs. destruct Hs; simpl; rewrite ?(proj1 (proj2 (proj2 (proj2 (snd_pushed _ _))))),
    ?(proj1 (proj2 (proj2 (proj2 (snd_taken _ _))))), ?(proj1 (proj2 (proj2 (proj2 (snd_got _ _))))),
    ?(proj1 (proj2 (proj2 (proj2 (rcv_closing _ _))))); try done; [by destruct bd| |by left].
  intros [= <-]. by right.
Qed.

Lemma step_R5 s p s' e : step s p (R5 e) s' -> p = R2 e /\ s' = enqueue e s.
Proof.
  intros Hs. inv Hs; try done; unfold pushed_at, got_at, taken_at, closing_at in *; by split_matches.
Qed.

Lemma step_from_R5 s p' s' e : step s (R5 e) p' s' -> p' = R6 /\ s' = s /\ e ∈ c_flags s.
Proof. intros Hs. by inv Hs. Qed.

Lemma live_distinct ps s i p p' s' : live bd ps s -> ps !! i = Some p -> step s p p' s' ->
  forall j k q r e, <[i:=p']> ps !! j = Some q -> <[i:=p']> ps !! k = Some r ->
    own q = Some e -> own r = Some e -> j = k.
Proof.
  intros Hl Hp Hs. destruct (l_kinds _ _ _ Hl) as [K HK].
  assert (forall k r, ps !! k = Some r -> own r = Some (c_next s) -> False) as Hnew.
  { intros k r Hr He. destruct (k_rcv _ _ _ _ HK k r (c_next s) Hr); [|lia].
    destruct r; simplify_eq/=; by left. }
  intros j k q r e [[-> ->]|[Hj Hq]]%insert_inv [[-> ->]|[Hk Hr]]%insert_inv Heq Her; [done| | |].
  - destruct (step_own _ _ _ _ _ Hs Heq) as [?|(-> & -> & ->)]; [|by destruct (Hnew k r)].
    by eapply (l_distinct _ _ _ Hl).
  - destruct (step_own _ _ _ _ _ Hs Her) as [?|(-> & -> & ->)]; [|by destruct (Hnew j q)].
    by eapply (l_distinct _ _ _ Hl).
  - by eapply (l_distinct _ _ _ Hl).
Qed.

(** A receiver that has drawn its event is not among the waiters. *)
Lemma live_R2_fresh ps s i e : live bd ps s -> ps !! i = Some (R2 e) -> e ∉ c_waiters s.
Proof.
  intros Hl Hp He. destruct (l_waits _ _ _ Hl e He) as [j Hj].
  assert (i = j) as -> by by eapply (l_distinct _ _ _ Hl). simplify_eq.
Qed.

Lemma live_nodup ps s i p p' s' : live bd ps s -> ps !! i = Some p -> step s p p' s' ->
  NoDup (c_waiters s').
Proof.
  intros Hl Hp Hs. pose proof (l_nodup _ _ _ Hl) as Hnd.
  destruct Hs; simpl; try done.
  - rewrite Hw. constructor.
  - rewrite Hw in *. by apply NoDup_cons in Hnd as [_ ?].
  - apply NoDup_snoc. split; [done|]. by eapply live_R2_fresh.
  - constructor.
Qed.

Lemma live_waits ps s i p p' s' e : live bd ps s -> ps !! i = Some p -> step s p p' s' ->
  e ∈ c_waiters s' -> exists j, <[i:=p']> ps !! j = Some (R5 e).
Proof.
  intros Hl Hp Hs He. pose proof (lookup_lt_Some _ _ _ Hp) as Hlt.
  destruct (step_waiters _ _ _ _ _ Hs He) as [Hw|[-> ->]].
  - destruct (l_waits _ _ _ Hl e Hw) as [j Hj]. exists j.
    rewrite list_lookup_insert_ne; [done|]. intros ->. simplify_eq.
    destruct (step_from_R5 _ _ _ _ Hs) as (_ & _ & Hf).
    apply (l_idle _ _ _ Hl e); [by left|by left].
  - exists i. by rewrite list_lookup_insert_eq.
Qed.

Lemma live_idle ps s i p p' s' e : live bd ps s -> ps !! i = Some p -> step s p p' s' ->
  e ∈ c_waiters s' \/ (exists j, <[i:=p']> ps !! j = Some (R2 e)) -> ~ woken (<[i:=p']> ps) s' e.
Proof.
  intros Hl Hp Hs Hid Hwk. destruct (l_kinds _ _ _ Hl) as [K HK].
  pose proof (l_nodup _ _ _ Hl) as Hnd. pose proof (lookup_lt_Some _ _ _ Hp) as Hlt.
  assert (e ∈ c_waiters s \/ (exists j, ps !! j = Some (R2 e)) \/ e = c_next s) as Hid0.
  { destruct Hid as [[?|[-> _]]%(step_waiters _ _ _ _ _ Hs)|[j [[-> <-]|[_ ?]]%insert_inv]]; eauto.
    destruct (step_own _ _ _ _ e Hs eq_refl) as [Ho|(_ & _ & ->)]; [|by eauto].
    destruct p; simplify_eq/=; [by eauto|]. by inv Hs. }
  assert (woken ps s e -> e < c_next s) as Hlt'.
  { intros [?|(k & q & Hk & [?|?]%to_set_evs)]; [by eapply k_flags|..].
    - by destruct (k_rcv _ _ _ _ HK k q e).
    - by destruct (k_snd _ _ _ _ HK k q e) as (_ & ? & _). }
  destruct (woken_new _ _ _ _ _ _ _ Hp Hs Hnd Hwk) as [Hw|[[Hw Hw']|Hsnd]].
  - destruct Hid0 as [?|[?| ->]]; [by apply (l_idle _ _ _ Hl e); eauto..|]. specialize (Hlt' Hw). lia.
  - destruct Hid as [?|[j [[-> Hp']|[Hj ?]]%insert_inv]]; [done|..].
    + subst p'. destruct (step_own _ _ _ _ e Hs eq_refl) as [Ho|(_ & _ & ->)].
      * destruct p; simplify_eq/=; by inv Hs.
      * destruct (k_waiters _ _ _ _ HK _ Hw). lia.
    + by eapply live_R2_fresh.
  - destruct (k_snd _ _ _ _ HK i p e Hp Hsnd) as (Hf & Hlt2 & _).
    destruct Hid0 as [?|[[j Hj]| ->]]; [| |lia].
    + destruct (k_waiters _ _ _ _ HK e); congruence.
    + destruct (k_rcv _ _ _ _ HK j _ e Hj); [by left|congruence].
Qed.

Lemma live_sleep ps s i p p' s' j e : live bd ps s -> ps !! i = Some p -> step s p p' s' ->
  <[i:=p']> ps !! j = Some (R5 e) -> e ∈ c_waiters s' \/ woken (<[i:=p']> ps) s' e.
Proof.
  intros Hl Hp Hs [[-> <-]|[Hj Hq]]%insert_inv.
  - apply step_R5 in Hs as [-> ->]. left. simpl. set_solver.
  - destruct (l_sleep _ _ _ Hl j e Hq) as [He|He]; [|by right; eapply woken_step].
    destruct (decide (e ∈ c_waiters s')) as [?|Hn]; [by left|]. right.
    pose proof (lookup_lt_Some _ _ _ Hp) as Hlt. right. exists i, p'.
    rewrite list_lookup_insert_eq by done. split; [done|].
    destruct Hs; simpl in *; try done; try (rewrite Hw in *); try set_solver.
    rewrite (proj1 (proj2 (proj2 (rcv_closing _ _)))). done.
Qed.

(** The receivers on their way do not change, or a message is taken by one of them. *)
Lemma enough_same ps s i p p' s' :
  ps !! i = Some p -> c_waiters s' = c_waiters s ->
  length (c_queue s') + (if active (c_waiters s) p then 1 else 0) <=
    length (c_queue s) + (if active (c_waiters s) p' then 1 else 0) ->
  c_waiters s = [] \/ length (c_queue s) <= countb (active (c_waiters s)) ps ->
  c_waiters s' = [] \/ length (c_queue s') <= countb (active (c_waiters s')) (<[i:=p']> ps).
Proof.
  intros Hp Hw Hle [?|He]; [left; congruence|]. right. rewrite Hw.
  pose proof (countb_insert (active (c_waiters s)) ps i p p' Hp). lia.
Qed.

Lemma active_pushed ws m w : active ws (pushed_at m w) = false.
Proof. by destruct w. Qed.
Lemma active_taken ws m w : active ws (taken_at m w) = false.
Proof. by destruct w. Qed.
Lemma active_got ws m w : active ws (got_at bd m w) = false.
Proof. by destruct bd. Qed.
Lemma active_closing ws d l : active ws (closing_at d l) = false.
Proof. by destruct l. Qed.

(** The push that wakes a receiver puts it on its way. *)
Lemma enough_push ps s i m w e ws :
  live bd ps s -> ps !! i = Some (S2 m w) -> c_waiters s = e :: ws ->
  length (c_queue s) <= countb (active (c_waiters s)) ps ->
  S (length (c_queue s)) <= countb (active ws) (<[i:=S3 e m w]> ps).
Proof.
  intros Hl Hp Hw Hle. destruct (l_waits _ _ _ Hl e) as [j Hj]; [rewrite Hw; by left|].
  pose proof (l_nodup _ _ _ Hl) as Hnd. rewrite Hw in *. apply NoDup_cons in Hnd as [He _].
  pose proof (countb_insert (active ws) ps i _ (S3 e m w) Hp) as Hc. simpl in Hc.
  rewrite (countb_flip (active (e :: ws)) (active ws) ps j (R5 e)) in Hc; [lia|done|..]; simpl.
  - apply bool_decide_false. set_solver.
  - by apply bool_decide_true.
  - intros k q Hk Hne. destruct q; try done. simpl. apply bool_decide_ext.
    rewrite not_elem_of_cons. split; [by intros []|]. intros ?. split; [|done]. intros ->.
    apply Hne. by eapply (l_distinct _ _ _ Hl).
Qed.

Lemma live_enough ps s i p p' s' : live bd ps s -> ps !! i = Some p -> step s p p' s' ->
  c_waiters s' = [] \/ length (c_queue s') <= countb (active (c_waiters s')) (<[i:=p']> ps).
Proof.
  intros Hl Hp Hs. pose proof (l_enough _ _ _ Hl) as He.
  destruct Hs; try (eapply (enough_same ps s i); [done|done| |done]; simpl;
      rewrite ?active_pushed, ?active_taken, ?active_got, ?active_closing; simpl;
      try (rewrite Hq; simpl); lia);
    try (right; simpl; rewrite Hq; simpl; lia).
  - left. simpl. by rewrite Hw.
  - right. simpl. rewrite Hw, length_app, Nat.add_1_r. simpl.
    destruct He as [?|He]; [congruence|]. by eapply enough_push.
  - eapply (enough_same ps s i); [done|done| |done]. cbn [active].
    rewrite bool_decide_true; [lia|].
    intros Hin. apply (l_idle _ _ _ Hl e); [by left|by left].
  - by left.
Qed.

Lemma live_closed ps s i p p' s' : live bd ps s -> ps !! i = Some p -> step s p p' s' ->
  c_closed s' = true -> c_waiters s' = [] \/ exists j d, <[i:=p']> ps !! j = Some (X1 d).
Proof.
  intros Hl Hp Hs Hc'. pose proof (lookup_lt_Some _ _ _ Hp) as Hlt.
  assert (forall j d, ps !! j = Some (X1 d) -> (forall d, p <> X1 d) -> <[i:=p']> ps !! j = Some (X1 d)) as Hj.
  { intros j d Hj Hne. rewrite list_lookup_insert_ne; [done|]. intros ->. destruct (Hne d). congruence. }
  pose proof (l_closed _ _ _ Hl) as Hc0.
  destruct Hs; simpl in *; try congruence;
    try (destruct (Hc0 Hc') as [?|(j & x & ?)]; [by left|right; exists j, x; by apply Hj]);
    try (by destruct (Hc0 Hc') as [?|(j & x & ?)]; [left; by rewrite Hw|right; exists j, x; by apply Hj]).
  - destruct (Hc0 Hc') as [?|(j & x & ?)]; [congruence|]. right. exists j, x. by apply Hj.
  - right. exists i, d. by rewrite list_lookup_insert_eq.
  - destruct (Hc0 Hc) as [?|(j & x & ?)]; [by left|]. right. exists j, x. by apply Hj.
  - by left.
Qed.

(** A sender that waits: its message is in the queue, or in the hands of a receiver that will
    set its event. *)
Lemma live_senders ps s i p p' s' j q m e : live bd ps s -> ps !! i = Some p -> step s p p' s' ->
  <[i:=p']> ps !! j = Some q -> sleeping q = Some (m, e) ->
  e ∈ c_flags s' \/ (m, Some e) ∈ c_queue s' \/
  exists k, <[i:=p']> ps !! k = Some (R3 m (Some e)) \/ <[i:=p']> ps !! k = Some (R4 m e).
Proof.
  intros Hl Hp Hs Hj He. pose proof (lookup_lt_Some _ _ _ Hp) as Hlt.
  destruct (l_kinds _ _ _ Hl) as [K HK].
  assert ((exists k q0, ps !! k = Some q0 /\ sleeping q0 = Some (m, e)) \/ p = S2 m (Some e) /\
    s' = push_state m (Some e) s) as [(k & q0 & Hk & Hq0)|[-> ->]].
  { apply insert_inv in Hj as [[-> ->]|[_ Hj]]; [|by eauto]. destruct Hs; simpl in *; try done.
    - by destruct bd.
    - destruct w; simplify_eq/=. by right.
    - destruct w; simplify_eq/=. by right.
    - destruct w; simplify_eq/=. left. by eexists i, _.
    - by destruct bd.
    - by destruct bd.
    - by destruct w.
    - by destruct (c_waiters s).
    - by destruct l. }
  2: { right. left. simpl. apply elem_of_app. right. by left. }
  destruct (l_senders _ _ _ Hl k q0 m e Hk Hq0) as [Hf|[Hq|(a & Ha)]].
  - left. destruct Hs; simpl; set_solver.
  - assert ((m, Some e) ∈ c_queue s' \/ p' = got_at bd m (Some e)) as [?|Hg].
    { destruct Hs; simpl in *; try (by left); try (left; set_solver);
        rewrite Hq1 in *; apply elem_of_cons in Hq as [[= <- <-]|?]; eauto. }
    + by right; left.
    + right; right. exists i. left. destruct (k_queue _ _ _ _ HK m e Hq) as (_ & _ & ->).
      rewrite list_lookup_insert_eq by done. by rewrite Hg.
  - destruct (decide (a = i)) as [->|Hne].
    2: { right; right. exists a. by rewrite list_lookup_insert_ne. }
    destruct Ha as [Ha|Ha]; simplify_eq; inv Hs.
    + right; right. exists i. right. by rewrite list_lookup_insert_eq.
    + left. simpl. set_solver.
Qed.

Lemma live_step ps s i p p' s' : live bd ps s -> ps !! i = Some p -> step s p p' s' ->
  live bd (<[i:=p']> ps) s'.
Proof.
  intros Hl Hp Hs. split.
  - destruct (l_kinds _ _ _ Hl) as [K HK]. destruct (kinds_step K _ _ _ _ _ _ HK Hp Hs) as (? & ? & _).
    eauto.
  - by eapply live_distinct.
  - by eapply live_nodup.
  - intros e. by eapply live_waits.
  - intros e. by eapply live_idle.
  - intros j e. by eapply live_sleep.
  - by eapply live_enough.
  - by eapply live_closed.
  - intros j q m e. by eapply live_senders.
Qed.

Lemma live_init roles : live bd (start <$> roles) channel.
Proof.
  assert (forall j q, (start <$> roles) !! j = Some q -> (exists m, q = S0 m) \/ q = R0 \/ (exists d, q = X0 d) \/ exists tx, q = XD tx) as Hq.
  { intros j q (r & -> & _)%list_lookup_fmap_Some. destruct r as [| |[]]; simpl; eauto 10. }
  split; simpl.
  - exists (fun _ => true). split; try set_solver;
      intros j q; intros; destruct (Hq j q) as [[? ->]|[->|[[? ->]|[? ->]]]]; set_solver.
  - intros i j p q e Hi Hj. destruct (Hq i p) as [[? ->]|[->|[[? ->]|[? ->]]]]; done.
  - constructor.
  - set_solver.
  - intros e [?|[i Hi]]; [set_solver|]. destruct (Hq _ _ Hi) as [[? ?]|[?|[[? ?]|[? ?]]]]; done.
  - intros i e Hi. destruct (Hq _ _ Hi) as [[? ?]|[?|[[? ?]|[? ?]]]]; done.
  - by left.
  - done.
  - intros i p m e Hi. destruct (Hq i p) as [[? ->]|[->|[[? ->]|[? ->]]]]; done.
Qed.

(** ** Every execution ends *)

(** The steps a task may take before it waits again or returns.  A sender pays for the receiver
    it wakes, the task that closes for all. *)
Definition weight (ws : list nat) (n : nat) (p : cphase) : nat :=
  match p with
  | S0 _ => 12 | S1 _ => 11 | SE _ => 10 | S2 _ _ => 9 | S3 _ _ _ => 2 | S4 _ _ => 1 | SF _ _ => 0
  | R0 => 5 | R1 => 4 | R2 _ => 3 | R3 _ _ => 2 | R4 _ _ => 1 | R6 => 6 | RF _ => 0
  | R5 e => if bool_decide (e ∈ ws) then 1 else 7
  | XD _ => 7 * n + 3 | X0 _ => 7 * n + 2 | X1 _ => 7 * n + 1 | X2 _ _ l => S (length l) | XF _ => 0
  end.

Definition measure (ps : list cphase) (s : chst) : nat :=
  sum_list_with (weight (c_waiters s) (length ps)) ps.

Lemma weight_closing ws n d l : weight ws n (closing_at d l) = length l.
Proof. by destruct l. Qed.

(** The waiters become [ws'], the other tasks' weights grow by at most [c] in all. *)
Lemma measure_lt ps s i p p' s' c : ps !! i = Some p ->
  sum_list_with (weight (c_waiters s') (length ps)) ps <= measure ps s + c ->
  weight (c_waiters s') (length ps) p' + c < weight (c_waiters s') (length ps) p ->
  measure (<[i:=p']> ps) s' < measure ps s.
Proof.
  intros Hp Hc Hlt. unfold measure at 1. rewrite length_insert.
  pose proof (sum_list_with_insert (weight (c_waiters s') (length ps)) ps i p p' Hp). lia.
Qed.

Lemma waiters_bound ps s : live bd ps s -> length (c_waiters s) <= length ps.
Proof.
  intros Hl. etrans; [|apply (length_omap_le own)]. apply submseteq_length, NoDup_submseteq.
  - apply (l_nodup _ _ _ Hl).
  - intros e (i & Hi)%(l_waits _ _ _ Hl). apply list_elem_of_omap. exists (R5 e).
    split; [by eapply list_elem_of_lookup_2|done].
Qed.

Lemma measure_step ps s i p p' s' : live bd ps s -> ps !! i = Some p -> step s p p' s' ->
  measure (<[i:=p']> ps) s' < measure ps s.
Proof.
  intros Hl Hp Hs.
  assert (forall ws n m w, weight ws n (pushed_at m w) <= 1) as Hpu by (intros ? ? ? []; simpl; lia).
  assert (forall ws n m w, weight ws n (taken_at m w) <= 1) as Hta by (intros ? ? ? []; simpl; lia).
  assert (forall ws n m w, weight ws n (got_at bd m w) <= 2) as Hgo
    by (intros; destruct bd; simpl; lia).
  assert (c_waiters s' = c_waiters s ->
    weight (c_waiters s) (length ps) p' < weight (c_waiters s) (length ps) p ->
    measure (<[i:=p']> ps) s' < measure ps s) as Hsame.
  { intros Hw Hlt. apply (measure_lt ps s i p p' s' 0); [done|rewrite Hw..]; [unfold measure; lia|lia]. }
  destruct Hs; try (apply Hsame; [done|]; simpl; rewrite ?weight_closing; simpl; try done;
    try (eapply Nat.le_lt_trans; [first [apply Hpu|apply Hta|apply Hgo]|lia]); lia).
  - apply Hsame; [done|]. destruct bd; simpl; lia.
  - apply Hsame; [by simpl; rewrite Hw|]. simpl. specialize (Hpu (c_waiters s) (length ps) m w). lia.
  - pose proof (l_nodup _ _ _ Hl) as Hnd. destruct (l_waits _ _ _ Hl e) as [j Hj]; [rewrite Hw; by left|].
    eapply (measure_lt ps s i _ _ _ 6); [done| |simpl; lia]. unfold measure. simpl. rewrite Hw. simpl.
    apply (sum_list_with_one _ _ 6 ps j (R5 e)); [done|simpl; repeat case_bool_decide; lia|].
    intros k q Hk Hne. destruct q; try (simpl; lia). simpl.
    repeat case_bool_decide; try lia. assert (e0 = e) as -> by set_solver. destruct Hne.
    by eapply (l_distinct _ _ _ Hl).
  - eapply (measure_lt ps s i _ _ _ 0); [done| |].
    + rewrite Nat.add_0_r. apply sum_list_with_mono. intros k q _. destruct q; simpl; try lia.
      repeat case_bool_decide; set_solver by lia.
    + simpl. rewrite bool_decide_true by set_solver. lia.
  - apply Hsame; [done|]. simpl. rewrite bool_decide_false; [lia|].
    intros Hin. apply (l_idle _ _ _ Hl e); [by left|by left].
  - pose proof (waiters_bound _ _ Hl). eapply (measure_lt ps s i _ _ _ (6 * length ps)); [done| |].
    + unfold measure. cbn [c_waiters no_waiters]. apply sum_list_with_le. intros k q _. destruct q; simpl; try lia.
      case_bool_decide; lia.
    + rewrite weight_closing. simpl. lia.
Qed.

(** ** Where it ends *)

(** A task that has not returned can step, unless it waits for an event that is not set. *)
Definition waits_on (p : cphase) : option nat := match p with S4 _ e | R5 e => Some e | _ => None end.

Lemma c_enabled i s p : (forall e, waits_on p = Some e -> e ∈ c_flags s) ->
  (forall m r, p <> SF m r) -> (forall r, p <> RF r) -> (forall d, p <> XF d) ->
  exists p' s', loop_step (chan_sem false) (c_head bd size) c_jump i s p p' s'.
Proof.
  intros Hw Hs Hr Hx. destruct p; try (by destruct (Hs m r)); try (by destruct (Hr r)); try (by destruct (Hx d));
    try (destruct tx);
    unfold loop_step, head_step; simpl;
    try (by do 2 eexists); try (do 3 eexists; split; [split; reflexivity|reflexivity]);
    try (do 2 eexists; exists tt; split; reflexivity);
    (do 2 eexists; exists (Ok tt); split; [split; [left; split; [done|by apply Hw]|reflexivity]|reflexivity]).
Qed.

Definition stuck (c : list (pyM chanE pyobj) * chst) : Prop := forall c', ~ pstep (chan_sem false) c c'.

(** In a stuck pool every task has returned or waits for an event that is not set. *)
Lemma stuck_task ps ts s i p : stuck (ts, s) -> at_phases (c_tree bd size) ts ps -> ps !! i = Some p ->
  (exists m r, p = SF m r) \/ (exists r, p = RF r) \/ (exists d, p = XF d) \/
  exists e, waits_on p = Some e /\ e ∉ c_flags s.
Proof.
  intros Hst Hat Hp. destruct (at_phases_lookup_r _ _ _ _ _ Hat Hp) as (t & Ht & Hpt).
  assert (~ exists p' s', loop_step (chan_sem false) (c_head bd size) c_jump i s p p' s') as Hno.
  { intros (p' & s' & Hs).
    destruct (loop_step_enabled _ _ _ _ (c_loops bd size) _ _ _ _ _ _ Hpt Hs) as [t' Ht'].
    eapply Hst, pstep_task; eauto. }
  destruct (waits_on p) as [e|] eqn:Hw.
  - destruct (decide (e ∈ c_flags s)) as [He|He]; [|by eauto 10].
    destruct Hno. destruct p; simplify_eq/=; eapply c_enabled; try done; by intros ? [= <-].
  - destruct p; eauto 10; destruct Hno; eapply c_enabled; done.
Qed.

Lemma stuck_sleeping ps ts s e : live bd ps s -> stuck (ts, s) -> at_phases (c_tree bd size) ts ps ->
  woken ps s e -> e ∈ c_flags s.
Proof.
  intros Hl Hst Hat [He|(j & q & Hj & He)]; [done|].
  destruct (stuck_task _ _ _ _ _ Hst Hat Hj) as [(m & r & ->)|[(r & ->)|[[? ->]|(x & Hx & _)]]];
    [set_solver..|]. destruct q; simplify_eq/=; set_solver.
Qed.

Lemma stuck_receiver ps ts s i e : live bd ps s -> stuck (ts, s) ->
  at_phases (c_tree bd size) ts ps -> ps !! i = Some (R5 e) -> c_queue s = [] /\ c_closed s = false.
Proof.
  intros Hl Hst Hat Hi.
  assert (forall j x, ps !! j = Some (R5 x) -> x ∈ c_waiters s) as Hall.
  { intros j x Hj. destruct (l_sleep _ _ _ Hl j x Hj) as [?|Hw]; [done|].
    destruct (stuck_task _ _ _ _ _ Hst Hat Hj) as [(m & r & ?)|[(r & ?)|[[? ?]|(y & [= <-] & Hy)]]]; try done.
    destruct Hy. by eapply stuck_sleeping. }
  assert (c_waiters s <> []) as Hne by (intros Hn; specialize (Hall i e Hi); rewrite Hn in Hall; set_solver).
  split.
  - destruct (l_enough _ _ _ Hl) as [?|Hle]; [done|].
    rewrite countb_none in Hle; [by apply nil_length_inv; lia|].
    intros j q Hj. destruct (stuck_task _ _ _ _ _ Hst Hat Hj) as [(m & r & ->)|[(r & ->)|[[? ->]|(x & Hx & _)]]];
      [done..|]. destruct q; simplify_eq/=; [done|]. apply bool_decide_false. by eauto.
  - destruct (c_closed s) eqn:Hc; [|done]. destruct (l_closed _ _ _ Hl Hc) as [?|(j & d & Hj)]; [done|].
    by destruct (stuck_task _ _ _ _ _ Hst Hat Hj) as [(m & r & ?)|[(r & ?)|[[? ?]|(x & ? & _)]]].
Qed.

Lemma stuck_sender ps ts s i m e : live bd ps s -> stuck (ts, s) ->
  at_phases (c_tree bd size) ts ps -> ps !! i = Some (S4 m e) -> m ∈ (fst <$> c_queue s).
Proof.
  intros Hl Hst Hat Hi.
  destruct (stuck_task _ _ _ _ _ Hst Hat Hi) as [(? & r & ?)|[(r & ?)|[[? ?]|(x & [= <-] & Hx)]]]; try done.
  destruct (l_senders _ _ _ Hl i _ m e Hi eq_refl) as [?|[Hq|(j & [Hj|Hj])]]; [done|..].
  - apply list_elem_of_fmap. by exists (m, Some e).
  - by destruct (stuck_task _ _ _ _ _ Hst Hat Hj) as [(? & r & ?)|[(r & ?)|[[? ?]|(y & ? & _)]]].
  - by destruct (stuck_task _ _ _ _ _ Hst Hat Hj) as [(? & r & ?)|[(r & ?)|[[? ?]|(y & ? & _)]]].
Qed.

Lemma live_reachable col roles ts s :
  reachable (chan_sem false) (role_prog col bd size <$> roles, channel) (ts, s) ->
  exists ps, at_phases (c_tree bd size) ts ps /\ live bd ps s /\ role_of <$> ps = roles.
Proof.
  apply (chan_invariant false col bd size (fun ps s => live bd ps s /\ role_of <$> ps = roles)).
  - split; [apply live_init|apply start_roles].
  - intros ps s1 i p p' s' [Hl Hro] Hp Hs. split; [by eapply live_step|].
    by eapply roles_step.
Qed.

Lemma live_terminates ps ts s : live bd ps s -> at_phases (c_tree bd size) ts ps ->
  Acc (flip (pstep (chan_sem false))) (ts, s).
Proof.
  apply (phases_terminate_inv _ _ _ (loop_tree_step (chan_sem false) _ _ _ (c_loops bd size))
    (live bd) measure).
  intros ps1 s1 i p p' s' Hl Hp Hs%chan_step.
  split; [by eapply live_step|by eapply measure_step].
Qed.
End Live.

(** [C18] Nobody sleeps for nothing.  Tasks that are not cancelled send, receive and close on a
    channel, bounded or not.  Every execution is finite; and where it ends, a task that has not
    returned is a receiver of a channel that is empty and still open, or a sender whose message
    is still in the queue of a bounded channel while every receiver has returned. *)
Theorem channel_live col bd size roles ts s :
  reachable (chan_sem false) (role_prog col bd size <$> roles, channel) (ts, s) ->
  Acc (flip (pstep (chan_sem false))) (ts, s) /\
  (stuck (ts, s) -> forall i t, ts !! i = Some t ->
    (exists r, t ≅ Ret r) \/
    (roles !! i = Some Rcv /\ c_queue s = [] /\ c_closed s = false) \/
    (exists m, roles !! i = Some (Snd m) /\ m ∈ (fst <$> c_queue s) /\
       forall j u, roles !! j = Some Rcv -> ts !! j = Some u -> exists r, u ≅ Ret r)).
Proof.
  intros Hr. destruct (live_reachable bd size col roles ts s Hr) as (ps & Hat & Hl & Hro).
  split; [by eapply live_terminates|]. intros Hst.
  assert (forall i t, ts !! i = Some t -> (exists r, t ≅ Ret r) \/
    exists p e, ps !! i = Some p /\ roles !! i = Some (role_of p) /\ waits_on p = Some e) as Hcase.
  { intros i t Ht. destruct (at_phases_lookup _ _ _ _ _ Hat Ht) as (p & Hp & Hpt).
    assert (roles !! i = Some (role_of p)) as Hri by by rewrite <- Hro, list_lookup_fmap, Hp.
    destruct (stuck_task bd size _ _ _ _ _ Hst Hat Hp) as [(m & r & ->)|[(r & ->)|[[? ->]|(e & He & _)]]];
      eauto 10. }
  intros i t Ht. destruct (Hcase i t Ht) as [?|(p & e & Hp & Hri & He)]; [by left|right].
  destruct p as [| | | | |m x| | | | | | |x| | | | | | |]; simplify_eq/=.
  - right. exists m. pose proof (stuck_sender bd size _ _ _ _ _ _ Hl Hst Hat Hp) as Hq.
    split_and!; [done|done|]. intros j u Hrj Hu.
    destruct (Hcase j u Hu) as [?|(q & x & Hq' & Hrj' & Hx)]; [done|exfalso].
    destruct q; simplify_eq/=; try congruence.
    destruct (stuck_receiver bd size _ _ _ _ _ Hl Hst Hat Hq') as [Hn _]. rewrite Hn in Hq. set_solver.
  - left. split; [done|]. by eapply stuck_receiver.
Qed.

Lemma channel_live_witness : exists ts s,
  Forall2 (fun t r => t ≅ Ret r) ts [Ok PNone; Ok (PInt 7)] /\
  Acc (flip (pstep (chan_sem false))) (ts, s).
Proof.
  destruct (one_message_run false) as (ts & s & Hr & Hrs). exists ts, s. split; [exact Hrs|].
  exact (proj1 (channel_live false true 1 [Snd (PInt 7); Rcv] ts s Hr)).
Defined.

(** ** Backpressure *)

(** Holding a place of the bounded channel without a message in the queue: the counter has been
    raised and the message not pushed yet, or the message taken and the counter not lowered. *)
Definition places (p : cphase) : bool := match p with SE _ | S2 _ _ | R3 _ _ => true | _ => false end.
Definition free_places (p : cphase) : bool :=
  match p with S2 _ None | R3 _ None => true | _ => false end.
(** A message whose sender did not have to wait. *)
Definition let_go (x : pyobj * option nat) : bool := match x.2 with None => true | Some _ => false end.

Record counted (size : nat) (ps : list cphase) (s : chst) : Prop := {
  n_len : c_len s = length (c_queue s) + countb places ps;
  n_free : countb let_go (c_queue s) + countb free_places ps <= size
}.

Lemma places_pushed m w : places (pushed_at m w) = false /\ free_places (pushed_at m w) = false.
Proof. by destruct w. Qed.
Lemma places_taken m w : places (taken_at m w) = false /\ free_places (taken_at m w) = false.
Proof. by destruct w. Qed.
Lemma places_closing d l : places (closing_at d l) = false /\ free_places (closing_at d l) = false.
Proof. by destruct l. Qed.

Lemma counted_step canc size ps s i p p' s' :
  counted size ps s -> ps !! i = Some p -> cstep canc true size s p p' s' ->
  counted size (<[i:=p']> ps) s'.
Proof.
  intros [Hlen Hfree] Hp Hs.
  pose proof (countb_insert places ps i p p' Hp) as Hc.
  pose proof (countb_insert free_places ps i p p' Hp) as Hf.
  pose proof (countb_mono free_places places ps) as Hle.
  assert (countb free_places ps <= countb places ps) as Hfp.
  { apply Hle. intros j q _. by destruct q as [| | |? []| | | | | | |? []| | | | | | | | |]. }
  pose proof (countb_le_length let_go (c_queue s)) as Hlg.
  destruct Hs; simpl in Hc, Hf;
    try (destruct (places_pushed m w) as [Hx Hy]; rewrite Hx in Hc; rewrite Hy in Hf);
    try (destruct (places_taken m w) as [Hx Hy]; rewrite Hx in Hc; rewrite Hy in Hf);
    try (destruct (places_closing d l) as [Hx Hy]; rewrite Hx in Hc; rewrite Hy in Hf);
    try (destruct (places_closing d (c_waiters s)) as [Hx Hy]; rewrite Hx in Hc; rewrite Hy in Hf);
    split; simpl; rewrite ?length_app, ?countb_app; simpl; try rewrite Hq in *; simpl in *;
    unfold let_go in *; simpl in *; try (destruct w; simpl in *); lia.
Qed.

(** [C26] Backpressure of the bounded channel: at any time, with any interleaving and
    cancellation, at most [size] messages are in the queue whose senders did not have to wait; the
    counter never falls below the length of the queue (so its decrement does not wrap around), and
    it is the length of the queue again once every task has returned. *)
Theorem channel_backpressure canc col size roles ts s :
  reachable (chan_sem canc) (role_prog col true size <$> roles, channel) (ts, s) ->
  countb let_go (c_queue s) <= size /\ length (c_queue s) <= c_len s /\
  ((forall i t, ts !! i = Some t -> exists r, t ≅ Ret r) -> c_len s = length (c_queue s)).
Proof.
  intros Hr. destruct (chan_invariant canc col true size (counted size) roles ts s) as (ps & Hat & Hn).
  - assert (forall j p, (start <$> roles) !! j = Some p -> places p = false /\ free_places p = false) as Hst.
    { intros j p (r & -> & _)%list_lookup_fmap_Some. by destruct r as [| |[]]. }
    split; simpl; rewrite countb_none; [done| |lia|]; intros j p Hj; by eapply Hst.
  - intros ps s1 i p p' s'. apply counted_step.
  - done.
  - destruct Hn as [Hlen Hfree]. split_and!; [lia..|]. intros Hall.
    rewrite countb_none in Hlen; [lia|]. intros j p Hj.
    destruct (at_phases_lookup_r _ _ _ _ _ Hat Hj) as (t & Ht & Hpt).
    destruct (Hall j t Ht) as [r Hret].
    by destruct (c_ret _ _ _ _ _ Hpt Hret) as [->|[[m ->]|[[d ->] _]]].
Qed.

Lemma channel_backpressure_witness : exists s,
  countb let_go (c_queue s) <= 1 /\ length (c_queue s) <= c_len s.
Proof.
  destruct (one_message_run true) as (ts & s & Hr & _). exists s.
  destruct (channel_backpressure true false 1 [Snd (PInt 7); Rcv] ts s Hr) as (? & ? & _).
  split; assumption.
Defined.

(** ** Who is left behind *)

(** A pool all of whose tasks have returned or wait for an event that is not set. *)
Lemma stuck_pool ts s :
  Forall (fun t : pyM chanE pyobj => (exists r, observe t = RetF r) \/
    exists e k, observe t = VisF (ChAwait e) k /\ e ∉ c_flags s) ts ->
  stuck (ts, s).
Proof.
  intros Hall c' Hs. inv Hs as [i ? t t' ? s' Hi Ht].
  destruct (Forall_lookup_1 _ _ _ _ Hall Hi) as [[r Hr]|(e & k & Hv & He)].
  - by eapply (tstep_Ret_inv _ _ _ _ _ _ _ (eq_obs_Ret _ _ Hr)).
  - inv Ht as [? ? ? Ho|? ? ? ? ? x ? Ho Hsem]; rewrite Hv in Ho; [done|].
    inversion Ho; subst. repeat match goal with
      H : existT _ _ = existT _ _ |- _ => apply Eqdep.EqdepTheory.inj_pair2 in H; subst end.
    destruct Hsem as [[[_ ?]|[? _]] _]; done.
Qed.

(** Closing a bounded channel wakes the receivers only.  Two senders on a channel of size
    one; the second waits for its message to be taken when the last receiver is dropped, which
    closes the channel: nothing can happen any more, and the second sender never returns. *)
Theorem channel_close_strands_sender : exists ts s,
  reachable (chan_sem false)
    (role_prog false true 1 <$> [Snd (PInt 7); Snd (PInt 8); Cls (Some false)], channel) (ts, s) /\
  stuck (ts, s) /\ c_closed s = true /\ (exists t, ts !! 1 = Some t /\ ~ exists r, t ≅ Ret r).
Proof.
  do 2 eexists. split; [|split; [|split]].
  - do 3 pool_step 0. do 4 pool_step 1. do 3 pool_step 2. apply reachable_init.
  - apply stuck_pool. repeat apply Forall_cons_2;
      [left; eexists; reflexivity| |left; eexists; reflexivity|apply Forall_nil_2].
    right. do 2 eexists. split; [observe_now|]. simpl. set_solver.
  - reflexivity.
  - eexists. split; [reflexivity|]. intros [r Hr%eqitree_inv_Ret_r]. discriminate Hr.
Qed.

(** A receiver that is cancelled while it waits stays in the queue of waiters, and the next
    message wakes it instead of a receiver that is alive: the first receiver is cancelled, the
    second waits, a message is pushed, and nothing can happen any more although the message is
    there to be received. *)
Theorem channel_cancel_loses_wakeup : exists ts s,
  reachable (chan_sem true)
    (role_prog false false 0 <$> [Rcv; Rcv; Snd (PInt 7)], channel) (ts, s) /\
  stuck (ts, s) /\ fst <$> c_queue s = [PInt 7] /\ (exists t, ts !! 1 = Some t /\ ~ exists r, t ≅ Ret r).
Proof.
  do 2 eexists. split; [|split; [|split]].
  - do 3 pool_step 0.
    eapply reachable_step_l; [eapply (pstep_task _ 0); [reflexivity|]|].
    { eapply (tstep_vis _ _ _ (result unit) _ _ _ (Err CancelledError)); [observe_now|cbn].
      split; [by right|reflexivity]. }
    cbn [insert list_insert fmap list_fmap]. do 3 pool_step 1. do 3 pool_step 2. apply reachable_init.
  - apply stuck_pool. repeat apply Forall_cons_2;
      [left; eexists; reflexivity| |left; eexists; reflexivity|apply Forall_nil_2].
    right. do 2 eexists. split; [observe_now|]. simpl. set_solver.
  - reflexivity.
  - eexists. split; [reflexivity|]. intros [r Hr%eqitree_inv_Ret_r]. discriminate Hr.
Qed.
