(* ===== verification/Select.v ===== *)
(** * Racing and bridging: [select], [block_on], [as_completed]

    The rest of [src/tonio/_ctl.py] and [src/tonio/_colored/_ctl.py].  [select] is written over
    the operations of a scope, whose own code is in [Scope]; [block_on] waits in a thread outside
    the runtime. *)

From stdpp Require Import base numbers list strings.
From Stdlib Require Import ZArith Lia.
From ITree Require Import ITree ITreeFacts.
From S2P Require Import Prelude Coro Os Spawn.

Open Scope tonio_scope.
Open Scope nat_scope.

(** [SelStart i] is the moment the runtime first runs the wrapper of child [i], [SelAwait i] is
    its [yield coro]; [SelStore] and [SelFetch] access the shared [Result], [SelSet] and [SelWait]
    the sentinel; the others are the operations of the scope. *)
Variant selE : Type -> Type :=
| SelStart (i : nat) : selE unit
| SelAwait (i : nat) : selE (result pyobj)
| SelStore (v : pyobj) : selE unit
| SelFetch : selE pyobj
| SelSet : selE unit
| SelWait : selE (result unit)
| SelEnter : selE (result unit)
| SelSpawn (i : nat) : selE unit
| SelCancel : selE unit
| SelExit : selE (result unit)
| SelJoin : selE (result unit).

(** [is_err, ret = res.fetch()]. *)
Definition unpack2 (v : pyobj) : result (pyobj * pyobj) :=
  match v with
  | PTuple [a; b] => Ok (a, b)
  | _ => Err (TypeError "cannot unpack non-iterable NoneType object")
  end.

Definition truthy (v : pyobj) : bool := match v with PNone | PBool false => false | _ => true end.

(** [if is_err: raise ret], [return ret]. *)
Definition raise_or_return (x : pyobj * pyobj) : result pyobj :=
  if truthy x.1
  then Err (match x.2 with PExn e => e | _ => TypeError "exceptions must derive from BaseException" end)
  else Ok x.2.

Definition plift {E : Type -> Type} {A} (r : result A) : pyM E A := Ret r.

Module Select.
Definition wrapper (i : nat) : pyM selE pyobj :=
  pfinally
    (ptry (let! ret := pcall (SelAwait i) in
           pop (SelStore (PTuple [PBool false; ret])) ;;; pret PNone)
       (fun e => if is_Exception e
                 then Some (pop (SelStore (PTuple [PBool true; PExn e])) ;;; pret PNone) else None))
    (pop SelSet ;;; pret tt).

Definition select (n : nat) : pyM selE pyobj :=
  pcall SelEnter ;;;
  pfinally
    (pfor (seq 0 n) (fun i => pop (SelSpawn i)) ;;;
     pcall SelWait ;;;
     pop SelCancel)
    (pcall SelExit) ;;;
  let! v := pop SelFetch in
  let! x := plift (unpack2 v) in
  pcall SelJoin ;;;
  plift (raise_or_return x).

Definition block_on_wrapper : pyM selE pyobj :=
  pfinally
    (ptry (let! ret := pcall (SelAwait 0) in
           pop (SelStore (PTuple [PBool false; ret])) ;;; pret PNone)
       (fun e => if is_Exception e
                 then Some (pop (SelStore (PTuple [PBool true; PExn e])) ;;; pret PNone) else None))
    (pop SelSet ;;; pret tt).

Definition block_on : pyM selE pyobj :=
  pop (SelSpawn 0) ;;;
  pcall SelWait ;;;
  let! v := pop SelFetch in
  let! x := plift (unpack2 v) in
  plift (raise_or_return x).
End Select.

Module ColoredSelect.
Definition wrapper (i : nat) : pyM selE pyobj :=
  pfinally
    (ptry (let! ret := pcall (SelAwait i) in
           pop (SelStore (PTuple [PBool false; ret])) ;;; pret PNone)
       (fun e => if is_Exception e
                 then Some (pop (SelStore (PTuple [PBool true; PExn e])) ;;; pret PNone) else None))
    (pop SelSet ;;; pret tt).

(** The result is taken within the block; leaving it awaits the children. *)
Definition select (n : nat) : pyM selE pyobj :=
  pcall SelEnter ;;;
  let! x := pfinally
    (pfor (seq 0 n) (fun i => pop (SelSpawn i)) ;;;
     pcall SelWait ;;;
     let! v := pop SelFetch in
     let! x := plift (unpack2 v) in
     pop SelCancel ;;;
     pret x)
    (pcall SelExit) in
  plift (raise_or_return x).

Definition block_on_wrapper : pyM selE pyobj :=
  pfinally
    (ptry (let! ret := pcall (SelAwait 0) in
           pop (SelStore (PTuple [PBool false; ret])) ;;; pret PNone)
       (fun e => if is_Exception e
                 then Some (pop (SelStore (PTuple [PBool true; PExn e])) ;;; pret PNone) else None))
    (pop SelSet ;;; pret tt).

Definition block_on : pyM selE pyobj :=
  pop (SelSpawn 0) ;;;
  pcall SelWait ;;;
  let! v := pop SelFetch in
  let! x := plift (unpack2 v) in
  plift (raise_or_return x).
End ColoredSelect.

(** ** [as_completed] *)

(** The targets are numbered in the order they are yielded; [AcPop] is [glues.pop()]. *)
Variant acE : Type -> Type :=
| AcAwait (i : nat) : acE (result pyobj)
| AcPop : acE (result nat)
| AcStore (k : nat) (v : pyobj) : acE unit
| AcSet (k : nat) : acE unit
| AcWait (k : nat) : acE (result unit)
| AcFetch (k : nat) : acE pyobj.

Definition ac_glues (n : nat) : list nat := reverse (seq 0 n).

(** [list.pop]. *)
Definition list_pop (l : list nat) : result nat * list nat :=
  match last l with
  | Some x => (Ok x, take (length l - 1) l)
  | None => (Err (IndexError "pop from empty list"), l)
  end.

Module AsCompleted.
Definition wrapper (i : nat) : pyM acE pyobj :=
  let! ret := pcall (AcAwait i) in
  let! k := pcall AcPop in
  pop (AcStore k ret) ;;;
  pop (AcSet k) ;;;
  pret PNone.

Definition loader (k : nat) : pyM acE pyobj :=
  pcall (AcWait k) ;;;
  pop (AcFetch k).

(** [for coro in as_completed(..): results.append((yield coro))]: the loaders in turn. *)
Fixpoint consume (ks : list nat) (vs : list pyobj) : pyM acE pyobj :=
  match ks with
  | [] => pret (PList vs)
  | k :: ks => let! v := loader k in consume ks (vs ++ [v])
  end.

Definition as_completed (n : nat) : list (pyM acE pyobj) * pyM acE pyobj :=
  (wrapper <$> seq 0 n, consume (seq 0 n) []).
End AsCompleted.

Module ColoredAsCompleted.
Definition wrapper (i : nat) : pyM acE pyobj :=
  let! ret := pcall (AcAwait i) in
  let! k := pcall AcPop in
  pop (AcStore k ret) ;;;
  pop (AcSet k) ;;;
  pret PNone.

Definition loader (k : nat) : pyM acE pyobj :=
  pcall (AcWait k) ;;;
  pop (AcFetch k).

(** [async for result in as_completed(..)]. *)
Fixpoint consume (ks : list nat) (vs : list pyobj) : pyM acE pyobj :=
  match ks with
  | [] => pret (PList vs)
  | k :: ks => let! v := loader k in consume ks (vs ++ [v])
  end.

Definition as_completed (n : nat) : list (pyM acE pyobj) * pyM acE pyobj :=
  (wrapper <$> seq 0 n, consume (seq 0 n) []).
End ColoredAsCompleted.
