(* ===== verification/SelectProps.v ===== *)
(** * What [select], [block_on] and [as_completed] return

    The wrappers of the coroutines and the task (or thread) that waits for them, under every
    interleaving. *)

From stdpp Require Import base numbers list sets strings.
From Stdlib Require Import ZArith Lia.
From ITree Require Import ITree ITreeFacts.
From S2P Require Import Prelude Coro Os Spawn Select.

Open Scope tonio_scope.
Open Scope nat_scope.
#[local] Set Warnings "-clear-no-such-hyp".

(** ** The shared state *)

(** The shared [Result], whether the sentinel is set, and (for the statements) what the
    coroutines that have ended ended with. *)
Record sel_state := mkSel {
  sl_res : ResultHolder; sl_set : bool; sl_ran : list (nat * result pyobj)
}.

Definition sel_init : sel_state := mkSel (ResultHolder_new 1) false [].

(** A coroutine ends with anything.  The wait ends when the sentinel is set or, where
    cancellation may strike ([canc]), with [CancelledError]; so may leaving the scope. *)
Definition sel_sem (canc : bool) (X : Type) (tid : nat) (e : selE X) (s : sel_state) (x : X)
    (s' : sel_state) : Prop :=
  match e in selE X return X -> Prop with
  | SelAwait i => fun x => s' = mkSel (sl_res s) (sl_set s) (sl_ran s ++ [(i, x)])
  | SelStore v => fun _ => exists res, ResultHolder_store v None (sl_res s) = Some res /\
      s' = mkSel res (sl_set s) (sl_ran s)
  | SelFetch => fun x => x = ResultHolder_fetch (sl_res s) /\ s' = s
  | SelSet => fun _ => s' = mkSel (sl_res s) true (sl_ran s)
  | SelWait => fun x => (x = Ok tt /\ sl_set s = true \/ canc = true /\ x = Err CancelledError) /\ s' = s
  | SelEnter => fun x => x = Ok tt /\ s' = s
  | SelExit | SelJoin => fun x => (x = Ok tt \/ canc = true /\ x = Err CancelledError) /\ s' = s
  | SelStart _ | SelSpawn _ | SelCancel => fun _ => s' = s
  end x.

(** ** Control points *)

Inductive how := ByYield | ByAsync | ByThread.

(** [MC]/[MX] cancel and leave the scope before the result is taken, [MD]/[MY] after. *)
Inductive selphase : Type :=
| W0 (i : nat) | W1 (i : nat) | W2 (o : result pyobj) | W3 (r : result pyobj) | WF (r : result pyobj)
| ME (l : list nat) | MS (i : nat) (l : list nat) | MW | MC | MX (r : result unit)
| MR | MJ (x : pyobj * pyobj) | MD (x : pyobj * pyobj) | MY (r : result (pyobj * pyobj))
| MF (r : result pyobj).

(** What a wrapper stores for an outcome, and whether it stores anything. *)
Definition packed (o : result pyobj) : pyobj :=
  match o with
  | Ok v => PTuple [PBool false; v]
  | Err e => PTuple [PBool true; PExn e]
  end.
Definition keepable (o : result pyobj) : bool :=
  match o with Ok _ => true | Err e => is_Exception e end.
Definition ended (o : result pyobj) : selphase :=
  if keepable o then W2 o else W3 (match o with Err e => Err e | Ok _ => Ok PNone end).

Fixpoint spawn_tree {R} (l : list nat) (k : itree selE R) : itree selE R :=
  match l with [] => k | i :: l => Vis (SelSpawn i) (fun _ => spawn_tree l k) end.

Section Points.
Context (h : how).

Definition spawning (l : list nat) : selphase := match l with [] => MW | i :: l => MS i l end.
Definition left_with (r : result (pyobj * pyobj)) : result pyobj :=
  match r with Ok x => raise_or_return x | Err e => Err e end.

Definition sel_head (p : selphase) (K : forall X, selE X -> (X -> selphase) -> Prop) : Prop :=
  match p with
  | W0 i => K _ (SelStart i) (fun _ => W1 i)
  | W1 i => K _ (SelAwait i) ended
  | W2 o => K _ (SelStore (packed o)) (fun _ => W3 (Ok PNone))
  | W3 r => K _ SelSet (fun _ => WF r)
  | ME l => K _ SelEnter (fun x => match x with Ok _ => spawning l | Err e => MF (Err e) end)
  | MS i l => K _ (SelSpawn i) (fun _ => spawning l)
  | MW => K _ SelWait (fun x => match h, x with
      | ByYield, Ok _ => MC | ByYield, Err e => MX (Err e)
      | ByAsync, Ok _ => MR | ByAsync, Err e => MY (Err e)
      | ByThread, Ok _ => MR | ByThread, Err e => MF (Err e)
      end)
  | MC => K _ SelCancel (fun _ => MX (Ok tt))
  | MX r => K _ SelExit (fun x => match x, r with
      | Ok _, Ok _ => MR | Err e, _ => MF (Err e) | Ok _, Err e => MF (Err e) end)
  | MR => K _ SelFetch (fun v => match h, unpack2 v with
      | ByYield, Ok x => MJ x | ByYield, Err e => MF (Err e)
      | ByAsync, Ok x => MD x | ByAsync, Err e => MY (Err e)
      | ByThread, x => MF (left_with x)
      end)
  | MJ x => K _ SelJoin (fun r => match r with Ok _ => MF (raise_or_return x) | Err e => MF (Err e) end)
  | MD x => K _ SelCancel (fun _ => MY (Ok x))
  | MY r => K _ SelExit (fun x => match x with Ok _ => MF (left_with r) | Err e => MF (Err e) end)
  | WF _ | MF _ => False
  end.

(** The rest of the code at a control point. *)
Definition t_w3 (r : result pyobj) : pyM selE pyobj := Vis SelSet (fun _ => Ret r).
Definition t_w2 (o : result pyobj) : pyM selE pyobj := Vis (SelStore (packed o)) (fun _ => t_w3 (Ok PNone)).
Definition t_ended (o : result pyobj) : pyM selE pyobj :=
  if keepable o then t_w2 o else t_w3 (match o with Err e => Err e | Ok _ => Ok PNone end).
Definition t_y (r : result (pyobj * pyobj)) : pyM selE pyobj :=
  Vis SelExit (fun x : result unit => match x with Ok _ => Ret (left_with r) | Err e => Ret (Err e) end).
Definition t_d (x : pyobj * pyobj) : pyM selE pyobj := Vis SelCancel (fun _ => t_y (Ok x)).
Definition t_j (x : pyobj * pyobj) : pyM selE pyobj :=
  Vis SelJoin (fun r : result unit => match r with Ok _ => Ret (raise_or_return x) | Err e => Ret (Err e) end).
Definition t_r : pyM selE pyobj :=
  Vis SelFetch (fun v => match h, unpack2 v with
    | ByYield, Ok x => t_j x | ByYield, Err e => Ret (Err e)
    | ByAsync, Ok x => t_d x | ByAsync, Err e => t_y (Err e)
    | ByThread, x => Ret (left_with x)
    end).
Definition t_x (r : result unit) : pyM selE pyobj :=
  Vis SelExit (fun x : result unit => match x, r with
    | Ok _, Ok _ => t_r | Err e, _ => Ret (Err e) | Ok _, Err e => Ret (Err e) end).
Definition t_c : pyM selE pyobj := Vis SelCancel (fun _ => t_x (Ok tt)).
Definition t_w : pyM selE pyobj :=
  Vis SelWait (fun x : result unit => match h, x with
    | ByYield, Ok _ => t_c | ByYield, Err e => t_x (Err e)
    | ByAsync, Ok _ => t_r | ByAsync, Err e => t_y (Err e)
    | ByThread, Ok _ => t_r | ByThread, Err e => Ret (Err e)
    end).
Definition t_s (l : list nat) : pyM selE pyobj := spawn_tree l t_w.
Definition t_e (l : list nat) : pyM selE pyobj :=
  Vis SelEnter (fun x : result unit => match x with Ok _ => t_s l | Err e => Ret (Err e) end).

Definition sel_tree (p : selphase) : pyM selE pyobj :=
  match p with
  | W0 i => Vis (SelStart i) (fun _ => Vis (SelAwait i) t_ended)
  | W1 i => Vis (SelAwait i) t_ended
  | W2 o => t_w2 o | W3 r => t_w3 r
  | ME l => t_e l | MS i l => t_s (i :: l) | MW => t_w | MC => t_c | MX r => t_x r
  | MR => t_r | MJ x => t_j x | MD x => t_d x | MY r => t_y r
  | WF r | MF r => Ret r
  end.

Lemma ended_tree o : sel_tree (ended o) = t_ended o.
Proof. unfold ended, t_ended. by destruct (keepable o). Qed.
Lemma spawning_tree l : sel_tree (spawning l) = t_s l.
Proof. by destruct l. Qed.

Lemma sel_heads p : heads_ok sel_tree sel_head p.
Proof.
  destruct p; try (left; eexists; split; [simpl; reflexivity|by intros K HK]); right; do 3 eexists;
    (split; [|by intros K; split; intros HK; exact HK]); simpl; try done; apply eqit_Vis.
  - intros o. by rewrite ended_tree.
  - intros [u|e]; [by rewrite spawning_tree|done].
  - intros []. by rewrite spawning_tree.
  - by intros [u|e]; destruct h.
  - intros [u|e]; [|done]. by destruct r.
  - intros v. by destruct h, (unpack2 v).
  - by intros [u|e].
  - by intros [u|e].
Qed.
End Points.

(** ** The code at its control points *)

Lemma set_eq r : ITree.bind (pop SelSet ;;; pret tt)
  (fun rf => match rf with Ok _ => Ret r | Err x => Ret (Err x) end) ≅ t_w3 r.
Proof.
  rewrite pbind_pop, bind_vis. apply eqit_Vis. intros b. unfold pret. by rewrite bind_ret_l.
Qed.

Lemma select_wrapper_eq i : Select.wrapper i ≅ Vis (SelAwait i) t_ended.
Proof.
  unfold Select.wrapper, pfinally, ptry, ptry_else. rewrite pbind_pcall, !bind_vis.
  apply eqit_Vis. intros [v|e].
  - rewrite pbind_pop, !bind_vis. apply eqit_Vis. intros []. unfold pret.
    rewrite !bind_ret_l. apply set_eq.
  - unfold praise. rewrite bind_ret_l. unfold t_ended. simpl. destruct (is_Exception e).
    + rewrite pbind_pop, bind_vis. apply eqit_Vis. intros []. unfold pret.
      rewrite bind_ret_l. apply set_eq.
    + rewrite bind_ret_l. apply set_eq.
Qed.

Lemma spawn_all_eq {A} l (k : pyM selE A) :
  pfor l (fun i => pop (SelSpawn i)) ;;; k ≅ spawn_tree l k.
Proof.
  induction l as [|i l IH]; cbn [pfor spawn_tree]; [by rewrite pbind_pret|].
  rewrite pbind_assoc, pbind_pop. apply eqit_Vis. by intros [].
Qed.

Lemma spawn_tree_bind {R S} l (k : itree selE R) (f : R -> itree selE S) :
  ITree.bind (spawn_tree l k) f ≅ spawn_tree l (ITree.bind k f).
Proof.
  induction l as [|i l IH]; simpl; [done|]. rewrite bind_vis. apply eqit_Vis. by intros [].
Qed.

Lemma spawn_tree_eq {R} l (k k' : itree selE R) : k ≅ k' -> spawn_tree l k ≅ spawn_tree l k'.
Proof. intros Hk. induction l as [|i l IH]; simpl; [done|]. apply eqit_Vis. by intros []. Qed.

Lemma bind_pcall {A R} (e : selE (result A)) (k : result A -> itree selE R) :
  ITree.bind (pcall e) k ≅ Vis e k.
Proof. unfold pcall. by rewrite bind_trigger. Qed.

Lemma select_eq n : Select.select n ≅ t_e ByYield (seq 0 n).
Proof.
  unfold Select.select, t_e. rewrite pbind_pcall. apply eqit_Vis. intros [[]|e]; [|done].
  unfold pfinally. rewrite spawn_all_eq. unfold pbind at 1. rewrite bind_bind, spawn_tree_bind.
  apply spawn_tree_eq. unfold t_w. rewrite pbind_pcall, bind_vis. apply eqit_Vis. intros [[]|e].
  - rewrite bind_pop. apply eqit_Vis. intros []. rewrite bind_bind, bind_pcall. apply eqit_Vis.
    intros [[]|e]; rewrite bind_ret_l; [|done]. rewrite pbind_pop. apply eqit_Vis. intros v.
    unfold plift. destruct (unpack2 v) as [x|e]; unfold pbind; rewrite bind_ret_l; [|done].
    rewrite bind_pcall. done.
  - unfold praise. rewrite bind_ret_l, bind_bind, bind_pcall. apply eqit_Vis.
    intros [[]|x]; by rewrite bind_ret_l.
Qed.

Lemma colored_select_eq n : ColoredSelect.select n ≅ t_e ByAsync (seq 0 n).
Proof.
  unfold ColoredSelect.select, t_e. rewrite pbind_pcall. apply eqit_Vis. intros [[]|e]; [|done].
  assert (forall r : result (pyobj * pyobj),
    ITree.bind (ITree.bind (pcall SelExit) (fun rf : result unit =>
      match rf with Ok _ => Ret r | Err x => Ret (Err x) end))
      (fun r => match r with Ok x => plift (raise_or_return x) | Err e => Ret (Err e) end) ≅ t_y r) as Hy.
  { intros r. rewrite bind_bind, bind_pcall. apply eqit_Vis.
    intros [[]|x]; rewrite bind_ret_l; [by destruct r|done]. }
  unfold pfinally. rewrite spawn_all_eq. unfold pbind at 1. rewrite bind_bind, spawn_tree_bind.
  apply spawn_tree_eq. unfold t_w. rewrite pbind_pcall, bind_vis. apply eqit_Vis. intros [[]|e].
  - rewrite pbind_pop, bind_vis. apply eqit_Vis. intros v. unfold plift at 1.
    destruct (unpack2 v) as [x|e]; unfold pbind at 1; rewrite bind_ret_l.
    + rewrite pbind_pop, bind_vis. apply eqit_Vis. intros []. unfold pret. rewrite bind_ret_l. apply Hy.
    + rewrite bind_ret_l. apply Hy.
  - unfold praise. rewrite bind_ret_l. apply Hy.
Qed.

Lemma block_on_eq : Select.block_on ≅ t_s ByThread [0].
Proof.
  unfold Select.block_on. simpl. rewrite pbind_pop. apply eqit_Vis. intros [].
  rewrite pbind_pcall. apply eqit_Vis. intros [[]|e]; [|done]. rewrite pbind_pop. apply eqit_Vis.
  intros v. unfold plift, pbind. rewrite bind_ret_l. by destruct (unpack2 v).
Qed.

(** ** The invariant *)

(** The coroutine of some child ended with [o]. *)
Definition ran (o : result pyobj) (s : sel_state) : Prop := exists i, (i, o) ∈ sl_ran s.

(** The result is an outcome, or a coroutine ended with an exception that is not kept. *)
Definition settled (s : sel_state) : Prop :=
  (exists o, ran o s /\ keepable o = true /\ sl_res s = mkResult 1 [packed o]) \/
  (exists o, ran o s /\ keepable o = false).

Definition unpack_error : exn := TypeError "cannot unpack non-iterable NoneType object".

Definition outcome_ok (canc : bool) (s : sel_state) (r : result pyobj) : Prop :=
  (canc = true /\ r = Err CancelledError) \/ (ran r s /\ keepable r = true) \/
  (r = Err unpack_error /\ exists e, ran (Err e) s /\ is_Exception e = false).

Definition at_ok (canc : bool) (p : selphase) (s : sel_state) : Prop :=
  match p with
  | W2 o => ran o s /\ keepable o = true
  | W3 _ | MC | MX (Ok _) | MR => settled s
  | MX (Err e) | MY (Err e) => outcome_ok canc s (Err e)
  | MJ x | MD x | MY (Ok x) => exists o, ran o s /\ keepable o = true /\ packed o = PTuple [x.1; x.2]
  | MF r => outcome_ok canc s r
  | _ => True
  end.

Definition is_main (p : selphase) : bool :=
  match p with W0 _ | W1 _ | W2 _ | W3 _ | WF _ => false | _ => true end.

Record sel_inv (canc : bool) (ps : list selphase) (s : sel_state) : Prop := {
  si_slot : exists v, sl_res s = mkResult 1 [v] /\
    (v = PNone \/ exists o, ran o s /\ keepable o = true /\ v = packed o);
  si_set : sl_set s = true -> settled s;
  si_at : forall i p, ps !! i = Some p -> at_ok canc p s;
  si_main : forall i p, ps !! i = Some p -> is_main p = bool_decide (S i = length ps)
}.

(** What a later state keeps. *)
Definition later (s s' : sel_state) : Prop :=
  (forall o, ran o s -> ran o s') /\ (settled s -> settled s').

Lemma outcome_later canc s s' r : later s s' -> outcome_ok canc s r -> outcome_ok canc s' r.
Proof. intros [Hr _] [?|[[? ?]|(? & e & ? & ?)]]; [by left|right; left|right; right]; eauto. Qed.

Lemma at_later canc p s s' : later s s' -> at_ok canc p s -> at_ok canc p s'.
Proof.
  intros Hl Hp. pose proof Hl as [Hr Hs].
  destruct p as [| | | | | | | | |[]| | | |[]|]; simpl in *; try done; eauto;
    try (by eapply outcome_later); try (destruct Hp as (o & ? & ? & ?); by eauto);
    destruct Hp; eauto.
Qed.

Lemma unpack_packed o x : packed o = PTuple [x.1; x.2] -> raise_or_return x = o.
Proof. destruct o as [v|e], x as [a b]; simpl; intros [= <- <-]; done. Qed.

(** Taking the result once it is settled. *)
Lemma fetch_settled canc ps s : sel_inv canc ps s -> settled s ->
  match unpack2 (ResultHolder_fetch (sl_res s)) with
  | Ok x => exists o, ran o s /\ keepable o = true /\ packed o = PTuple [x.1; x.2]
  | Err e => outcome_ok canc s (Err e)
  end.
Proof.
  intros Hi Hs. destruct (si_slot _ _ _ Hi) as (v & Hv & Hw). rewrite Hv. cbn.
  assert (forall o, packed o = v -> exists x, unpack2 v = Ok x /\ packed o = PTuple [x.1; x.2]) as Hp.
  { intros o <-. destruct o as [a|e]; simpl; eexists (_, _); done. }
  destruct Hw as [->|(o & Ho & Hk & ->)].
  - destruct Hs as [(o & _ & _ & Ho)|(o & Ho & Hk)]; [rewrite Hv in Ho; by destruct o|].
    right; right. split; [done|]. destruct o; [done|]. eauto.
  - destruct (Hp o eq_refl) as (x & -> & Hx). eauto.
Qed.

Section SelInv.
Context (canc : bool) (h : how).

#[local] Abbreviation step := (head_step (sel_sem canc) (sel_head h)).

Lemma later_refl s : later s s.
Proof. by split. Qed.

Lemma later_ran i o s : later s (mkSel (sl_res s) (sl_set s) (sl_ran s ++ [(i, o)])).
Proof.
  assert (forall x, ran x s -> ran x (mkSel (sl_res s) (sl_set s) (sl_ran s ++ [(i, o)]))) as Hr.
  { intros x [j Hj]. exists j. simpl. set_solver. }
  split; [done|]. intros [(x & ? & ? & ?)|(x & ? & ?)]; [left|right]; eauto.
Qed.

Lemma later_set s : later s (mkSel (sl_res s) true (sl_ran s)).
Proof. by split. Qed.

(** A store settles the result. *)
Lemma stored_settled s v o res : sl_res s = mkResult 1 [v] -> ran o s -> keepable o = true ->
  ResultHolder_store (packed o) None (sl_res s) = Some res ->
  res = mkResult 1 [packed o] /\ settled (mkSel res (sl_set s) (sl_ran s)) /\
  later s (mkSel res (sl_set s) (sl_ran s)).
Proof.
  intros Hv Ho Hk Hs. rewrite Hv in Hs. cbn in Hs. injection Hs as <-.
  assert (settled (mkSel (mkResult 1 [packed o]) (sl_set s) (sl_ran s))) by (left; eauto).
  by split_and!.
Qed.

(** Every step keeps the slot well-formed, moves on, and establishes what the next control point
    relies on. *)
Lemma sel_step_ok ps s i p p' s' : sel_inv canc ps s -> at_ok canc p s -> step i s p p' s' ->
  later s s' /\ at_ok canc p' s' /\ is_main p' = is_main p /\ (sl_set s' = true -> settled s') /\
  (exists v, sl_res s' = mkResult 1 [v] /\
     (v = PNone \/ exists o, ran o s' /\ keepable o = true /\ v = packed o)).
Proof.
  intros Hi Hp Hs. pose proof (si_slot _ _ _ Hi) as Hslot. pose proof (si_set _ _ _ Hi) as Hset.
  assert (forall l, at_ok canc (spawning l) s /\ is_main (spawning l) = true) as Hspawn by by intros [].
  destruct p; unfold head_step in Hs; simpl in Hs; try done; destruct Hs as (a & Hx & Hp').
  - subst. by split_and!.
  - subst. pose proof (later_ran i0 a s) as Hl. pose proof Hl as [Hr Hst].
    assert (ran a (mkSel (sl_res s) (sl_set s) (sl_ran s ++ [(i0, a)]))) as Hx.
    { exists i0. simpl. set_solver. }
    split_and!; [done| | |by eauto|].
    + unfold ended. destruct (keepable a) eqn:Hk; simpl; [by eauto|]. right. eauto.
    + unfold ended. by destruct (keepable a).
    + destruct Hslot as (v & Hv & [?|(o & ? & ? & ?)]); exists v; eauto 10.
  - destruct Hx as (res & Hst & ->). subst p'. destruct Hslot as (v & Hv & _), Hp as [Ho Hk].
    destruct (stored_settled _ _ _ _ Hv Ho Hk Hst) as (-> & Hset' & Hl).
    split_and!; [done..|]. eexists. split; [done|]. right. by exists o.
  - subst. by split_and!.
  - destruct Hx as [-> ->]. subst p'. destruct (Hspawn l). by split_and!.
  - subst. destruct (Hspawn l). by split_and!.
  - destruct Hx as [[[-> Hx]|[-> ->]] ->]; subst p'; destruct h; split_and!; simpl; eauto using later_refl;
      by left.
  - subst. by split_and!.
  - destruct Hx as [[->|[-> ->]] ->]; subst p'; destruct r as [[]|e]; split_and!; simpl;
      eauto using later_refl; by left.
  - destruct Hx as [-> ->]. subst p'. pose proof (fetch_settled _ _ _ Hi Hp) as Hf.
    destruct (unpack2 _) as [y|e]; destruct h; split_and!; simpl; eauto using later_refl.
    simpl. destruct Hf as (o & Ho & Hk & Hy). rewrite (unpack_packed o y Hy). right. by left.
  - destruct Hx as [[->|[-> ->]] ->]; subst p'; split_and!; simpl; eauto using later_refl; [|by left].
    simpl. destruct Hp as (o & Ho & Hk & Hy). rewrite (unpack_packed o _ Hy). right. by left.
  - subst. by split_and!.
  - destruct Hx as [[->|[-> ->]] ->]; subst p'; split_and!; simpl; eauto using later_refl; [|by left].
    simpl. destruct r as [y|e]; [|done]. destruct Hp as (o & Ho & Hk & Hy).
    simpl. rewrite (unpack_packed o _ Hy). right. by left.
Qed.

Lemma sel_inv_step ps s i p p' s' : sel_inv canc ps s -> ps !! i = Some p -> step i s p p' s' ->
  sel_inv canc (<[i:=p']> ps) s'.
Proof.
  intros Hi Hp Hs.
  destruct (sel_step_ok _ _ _ _ _ _ Hi (si_at _ _ _ Hi _ _ Hp) Hs) as (Hl & Hat & Hm & Hset & Hslot).
  split; [done|done| |].
  - intros j q [(-> & -> & _)|[_ Hj]]%list_lookup_insert_Some; [done|].
    eapply at_later; [done|]. by eapply (si_at _ _ _ Hi).
  - intros j q. rewrite length_insert. intros [(-> & -> & _)|[_ Hj]]%list_lookup_insert_Some.
    + rewrite Hm. by apply (si_main _ _ _ Hi).
    + by apply (si_main _ _ _ Hi).
Qed.
End SelInv.

(** The tasks: the wrappers of the coroutines and, last, what waits for them. *)
Definition select_pool (h : how) (n : nat) : list (pyM selE pyobj) :=
  match h with
  | ByYield => ((fun i => pop (SelStart i) ;;; Select.wrapper i) <$> seq 0 n) ++ [Select.select n]
  | ByAsync =>
      ((fun i => pop (SelStart i) ;;; ColoredSelect.wrapper i) <$> seq 0 n) ++ [ColoredSelect.select n]
  | ByThread => [pop (SelStart 0) ;;; Select.block_on_wrapper; Select.block_on]
  end.

Definition pool_phases (h : how) (n : nat) : list selphase :=
  match h with ByThread => [W0 0; MS 0 []] | _ => (W0 <$> seq 0 n) ++ [ME (seq 0 n)] end.

Lemma child_eq h i : pop (SelStart i) ;;; Select.wrapper i ≅ sel_tree h (W0 i).
Proof. rewrite pbind_pop. apply eqit_Vis. intros []. apply select_wrapper_eq. Qed.

Lemma select_pool_at h n : at_phases (sel_tree h) (select_pool h n) (pool_phases h n).
Proof.
  assert (forall hh, Forall2 (fun t p => t ≅ sel_tree hh p)
    ((fun i => pop (SelStart i) ;;; Select.wrapper i) <$> seq 0 n) (W0 <$> seq 0 n)) as Hw.
  { intros hh. apply Forall2_fmap, Forall_Forall2_diag, Forall_true. intros i. apply child_eq. }
  unfold at_phases. destruct h; simpl.
  - apply Forall2_app; [apply Hw|]. repeat constructor. apply select_eq.
  - apply Forall2_app; [apply Hw|]. repeat constructor. apply colored_select_eq.
  - constructor; [apply (child_eq ByThread 0)|]. repeat constructor. apply block_on_eq.
Qed.

Lemma sel_inv_init canc h n : sel_inv canc (pool_phases h n) sel_init.
Proof.
  assert (forall l, (forall i p, l !! i = Some p -> exists k, p = W0 k) ->
    forall q, at_ok canc q sel_init -> is_main q = true -> sel_inv canc (l ++ [q]) sel_init) as Hgen.
  { intros l Hl q Hq Hm. split; [exists PNone; by split; [|left]|done| |].
    - intros i p [Hi|[_ Hi]]%lookup_app_Some; [by destruct (Hl _ _ Hi) as [k ->]|].
      by apply list_lookup_singleton_Some in Hi as [_ <-].
    - intros i p Hi. rewrite length_app. simpl. apply lookup_app_Some in Hi as [Hi|[Hge Hi]].
      + pose proof (lookup_lt_Some _ _ _ Hi). destruct (Hl _ _ Hi) as [k ->]. simpl.
        rewrite bool_decide_false; [done|lia].
      + apply list_lookup_singleton_Some in Hi as [Hi <-]. rewrite Hm, bool_decide_true; [done|lia]. }
  destruct h; simpl.
  - apply Hgen; [|done..]. intros i p (k & -> & _)%list_lookup_fmap_Some. eauto.
  - apply Hgen; [|done..]. intros i p (k & -> & _)%list_lookup_fmap_Some. eauto.
  - apply (Hgen [W0 0]); [|done..]. intros [|i] p Hi; [|done]. simplify_eq/=. eauto.
Qed.

(** [C34] What races return.  [select] (in both APIs) and [block_on] end, under every interleaving
    with the coroutines they started, with the outcome of one of those coroutines that really
    ended: the value it returned or the exception it raised.  The only other ends are the
    cancellation of the waiting task itself, and a [TypeError] when some coroutine ended with an
    exception that is not an [Exception] (such as [CancelledError]). *)
Theorem select_outcome canc h n ts s t r :
  reachable (sel_sem canc) (select_pool h n, sel_init) (ts, s) ->
  last ts = Some t -> t ≅ Ret r ->
  (canc = true /\ r = Err CancelledError) \/
  (exists i, (i, r) ∈ sl_ran s /\ keepable r = true) \/
  (r = Err (TypeError "cannot unpack non-iterable NoneType object") /\
   exists i e, (i, Err e) ∈ sl_ran s /\ is_Exception e = false).
Proof.
  intros Hr Ht Hret.
  destruct (phases_invariant_at _ _ _ (head_tree_step (sel_sem canc) _ _ (sel_heads h))
    (sel_inv canc) _ _ _ _ _ (select_pool_at h n) (sel_inv_init canc h n)
    (fun ps s i p p' s' => sel_inv_step canc h ps s i p p' s') Hr) as (ps & Hat & Hi).
  rewrite last_lookup in Ht. destruct (at_phases_lookup _ _ _ _ _ Hat Ht) as (p & Hp & Hpt).
  pose proof (si_main _ _ _ Hi _ _ Hp) as Hm. rewrite bool_decide_true in Hm.
  2: { rewrite <- (Forall2_length _ _ _ Hat). apply lookup_lt_Some in Ht. lia. }
  assert (p = MF r) as ->.
  { rewrite Hret in Hpt. destruct (sel_heads h p) as [(x & Hx & Hn)|(X & e & k & Hv & _)].
    - destruct p; simpl in Hn; try done; try (by destruct (Hn (fun _ _ _ => True))).
      by apply eq_Ret_inj in Hpt as ->.
    - rewrite Hv in Hpt. by apply eq_Ret_Vis in Hpt. }
  pose proof (si_at _ _ _ Hi _ _ Hp) as [?|[[[i ?] ?]|(-> & e & [i ?] & ?)]]; eauto 10.
Qed.

(** A race of one coroutine that returns. *)
Lemma race_run : exists ts s t,
  reachable (sel_sem false) (select_pool ByYield 1, sel_init) (ts, s) /\
  last ts = Some t /\ t ≅ Ret (Ok (PInt 7)).
Proof.
  do 3 eexists. split; [|split].
  - unfold select_pool. cbn [seq fmap list_fmap app].
    pool_answer 1 (Ok tt : result unit). pool_step 1.
    pool_step 0. pool_answer 0 (Ok (PInt 7) : result pyobj). pool_answer 0 tt. pool_step 0.
    pool_answer 1 (Ok tt : result unit). pool_step 1. pool_answer 1 (Ok tt : result unit).
    pool_step 1. pool_answer 1 (Ok tt : result unit). apply reachable_init.
  - reflexivity.
  - apply eq_obs_Ret. reflexivity.
Qed.

Lemma select_outcome_witness : exists s : sel_state,
  (false = true /\ Ok (PInt 7) = Err CancelledError) \/
  (exists i, (i, Ok (PInt 7)) ∈ sl_ran s /\ keepable (Ok (PInt 7)) = true) \/
  (Ok (PInt 7) = Err (TypeError "cannot unpack non-iterable NoneType object") /\
   exists i e, (i, Err e) ∈ sl_ran s /\ is_Exception e = false).
Proof.
  destruct race_run as (ts & s & t & Hr & Ht & Hret). exists s.
  exact (select_outcome false ByYield 1 ts s t (Ok (PInt 7)) Hr Ht Hret).
Defined.

(** A coroutine that ends with [CancelledError] of its own makes [block_on] raise [TypeError]. *)
Theorem block_on_loses_cancellation : exists ts s t,
  reachable (sel_sem false) (select_pool ByThread 1, sel_init) (ts, s) /\
  sl_ran s = [(0, Err CancelledError)] /\
  last ts = Some t /\ t ≅ Ret (Err (TypeError "cannot unpack non-iterable NoneType object")).
Proof.
  do 3 eexists. split; [|split; [|split]].
  - unfold select_pool. pool_step 1.
    pool_step 0. pool_answer 0 (Err CancelledError : result pyobj). pool_step 0.
    pool_answer 1 (Ok tt : result unit). pool_step 1. apply reachable_init.
  - reflexivity.
  - reflexivity.
  - apply eq_obs_Ret. reflexivity.
Qed.
