(* ===== verification/CompletedProps.v ===== *)
(** * [as_completed]: results in the order of completion

    The wrappers of the coroutines and the consumer of the loaders, under every interleaving. *)

From stdpp Require Import base numbers list gmap sets strings.
From Stdlib Require Import ZArith Lia.
From ITree Require Import ITree ITreeFacts.
From S2P Require Import Prelude Coro Os Spawn Select.

Open Scope tonio_scope.
Open Scope nat_scope.
#[local] Set Warnings "-clear-no-such-hyp".

(** ** The shared state *)

(** The targets not yet handed out, the results and events of the targets, and (for the
    statements) the tasks in the order they took a target. *)
Record ac_state := mkAc {
  a_glues : list nat; a_res : list ResultHolder; a_evs : gset nat; a_log : list nat
}.

Definition ac_init (n : nat) : ac_state :=
  mkAc (ac_glues n) (replicate n (ResultHolder_new 1)) ∅ [].

(** [outs]: what each coroutine ends with. *)
Definition ac_sem (outs : list (result pyobj)) (X : Type) (tid : nat) (e : acE X) (s : ac_state)
    (x : X) (s' : ac_state) : Prop :=
  match e in acE X return X -> Prop with
  | AcAwait i => fun x => outs !! i = Some x /\ s' = s
  | AcPop => fun x => x = fst (list_pop (a_glues s)) /\
      s' = mkAc (snd (list_pop (a_glues s))) (a_res s) (a_evs s) (a_log s ++ [tid])
  | AcStore k v => fun _ => exists r r', a_res s !! k = Some r /\ ResultHolder_store v None r = Some r' /\
      s' = mkAc (a_glues s) (<[k:=r']> (a_res s)) (a_evs s) (a_log s)
  | AcSet k => fun _ => s' = mkAc (a_glues s) (a_res s) ({[k]} ∪ a_evs s) (a_log s)
  | AcWait k => fun x => x = Ok tt /\ k ∈ a_evs s /\ s' = s
  | AcFetch k => fun x => exists r, a_res s !! k = Some r /\ x = ResultHolder_fetch r /\ s' = s
  end x.

(** ** Control points *)

Inductive acphase : Type :=
| A0 (i : nat) | A1 (v : pyobj) | A2 (k : nat) (v : pyobj) | A3 (k : nat) | AF (r : result pyobj)
| CW (k : nat) (ks : list nat) (vs : list pyobj) | CR (k : nat) (ks : list nat) (vs : list pyobj)
| CF (r : result pyobj).

Definition consuming (ks : list nat) (vs : list pyobj) : acphase :=
  match ks with [] => CF (Ok (PList vs)) | k :: ks => CW k ks vs end.

Definition ac_head (p : acphase) (K : forall X, acE X -> (X -> acphase) -> Prop) : Prop :=
  match p with
  | A0 i => K _ (AcAwait i) (fun x => match x with Ok v => A1 v | Err e => AF (Err e) end)
  | A1 v => K _ AcPop (fun x => match x with Ok k => A2 k v | Err e => AF (Err e) end)
  | A2 k v => K _ (AcStore k v) (fun _ => A3 k)
  | A3 k => K _ (AcSet k) (fun _ => AF (Ok PNone))
  | CW k ks vs => K _ (AcWait k) (fun x => match x with Ok _ => CR k ks vs | Err e => CF (Err e) end)
  | CR k ks vs => K _ (AcFetch k) (fun v => consuming ks (vs ++ [v]))
  | AF _ | CF _ => False
  end.

Definition t_a3 (k : nat) : pyM acE pyobj := Vis (AcSet k) (fun _ => Ret (Ok PNone)).
Definition t_a2 (k : nat) (v : pyobj) : pyM acE pyobj := Vis (AcStore k v) (fun _ => t_a3 k).
Definition t_a1 (v : pyobj) : pyM acE pyobj :=
  Vis AcPop (fun x : result nat => match x with Ok k => t_a2 k v | Err e => Ret (Err e) end).

Definition ac_tree (p : acphase) : pyM acE pyobj :=
  match p with
  | A0 i => AsCompleted.wrapper i
  | A1 v => t_a1 v | A2 k v => t_a2 k v | A3 k => t_a3 k
  | CW k ks vs => AsCompleted.consume (k :: ks) vs
  | CR k ks vs => Vis (AcFetch k) (fun v => AsCompleted.consume ks (vs ++ [v]))
  | AF r | CF r => Ret r
  end.

Lemma ac_heads p : heads_ok ac_tree ac_head p.
Proof.
  assert (forall ks vs, AsCompleted.consume ks vs ≅ ac_tree (consuming ks vs)) as Hc by by intros [].
  destruct p; try (left; eexists; split; [simpl; reflexivity|by intros K HK]); right; do 3 eexists;
    (split; [|by intros K; split; intros HK; exact HK]); simpl; try done.
  - unfold AsCompleted.wrapper. rewrite pbind_pcall. apply eqit_Vis. intros [v|e]; [|done].
    rewrite pbind_pcall. apply eqit_Vis. intros [k|e]; [|done].
    rewrite pbind_pop. apply eqit_Vis. intros []. rewrite pbind_pop. done.
  - apply eqit_Vis. by intros [].
  - unfold AsCompleted.loader. rewrite pbind_assoc, pbind_pcall. apply eqit_Vis.
    intros [u|e]; [|done]. simpl. by rewrite pbind_pop.
  - apply eqit_Vis. intros v. apply Hc.
Qed.

(** ** The invariant *)

(** A task that has taken a target. *)
Definition took (p : acphase) : option nat := match p with A2 k _ | A3 k => Some k | _ => None end.

(** The value of the task that took target [k]. *)
Definition value (outs : list (result pyobj)) (log : list nat) (k : nat) (v : pyobj) : Prop :=
  exists i, log !! k = Some i /\ outs !! i = Some (Ok v).

Definition filled (v : pyobj) (k : nat) (s : ac_state) : Prop := a_res s !! k = Some (mkResult 1 [v]).

(** What holds where task [i] stands. *)
Definition ac_at (outs : list (result pyobj)) (i : nat) (p : acphase) (s : ac_state) : Prop :=
  match p with
  | A0 j => j = i /\ i ∉ a_log s
  | A1 v => outs !! i = Some (Ok v) /\ i ∉ a_log s
  | A2 k v => outs !! i = Some (Ok v) /\ a_log s !! k = Some i
  | A3 k => a_log s !! k = Some i /\ exists v, outs !! i = Some (Ok v) /\ filled v k s
  | AF r => (exists k, a_log s !! k = Some i /\ k ∈ a_evs s) \/
      ((i ∉ a_log s) /\ exists e, outs !! i = Some (Err e))
  | CW k ks vs | CR k ks vs => k :: ks = drop (length vs) (seq 0 (length outs)) /\
      (forall j v, vs !! j = Some v -> value outs (a_log s) j v) /\
      (match p with CR _ _ _ => k ∈ a_evs s | _ => True end)
  | CF r => exists vs, r = Ok (PList vs) /\ length vs = length outs /\
      forall j v, vs !! j = Some v -> value outs (a_log s) j v
  end.

Definition is_consumer (p : acphase) : bool :=
  match p with CW _ _ _ | CR _ _ _ | CF _ => true | _ => false end.

Record ac_inv (outs : list (result pyobj)) (ps : list acphase) (s : ac_state) : Prop := {
  ai_length : length ps = S (length outs);
  ai_res : length (a_res s) = length outs /\ Forall (fun r => exists v, r = mkResult 1 [v]) (a_res s);
  ai_glues : a_glues s = reverse (seq (length (a_log s)) (length outs - length (a_log s)));
  ai_log : NoDup (a_log s) /\ forall i, i ∈ a_log s -> i < length outs;
  ai_evs : forall k, k ∈ a_evs s -> exists v, value outs (a_log s) k v /\ filled v k s;
  ai_at : forall i p, ps !! i = Some p -> ac_at outs i p s;
  ai_main : forall i p, ps !! i = Some p -> is_consumer p = bool_decide (i = length outs)
}.

Lemma list_pop_glues m k : list_pop (reverse (seq m (S k))) = (Ok m, reverse (seq (S m) k)).
Proof.
  unfold list_pop. simpl. rewrite reverse_cons, last_snoc, length_app. simpl.
  rewrite Nat.add_sub, take_app_length. done.
Qed.

(** There is a target for every task. *)
Lemma log_room outs ps s i : ac_inv outs ps s -> i < length outs -> i ∉ a_log s ->
  length (a_log s) < length outs.
Proof.
  intros Hi Hlt Hn. destruct (ai_log _ _ _ Hi) as [Hnd Hb].
  assert (length (i :: a_log s) <= length (seq 0 (length outs))) as Hle; [|rewrite length_seq in Hle; simpl in Hle; lia].
  apply submseteq_length, NoDup_submseteq; [by constructor|].
  intros j [->|?]%elem_of_cons; apply elem_of_seq; [lia|]. specialize (Hb j). naive_solver lia.
Qed.

Section AcInv.
Context (outs : list (result pyobj)).

#[local] Abbreviation step := (head_step (ac_sem outs) ac_head).

(** What a later state keeps, for tasks other than [i]. *)
Record ac_later (i : nat) (s s' : ac_state) : Prop := {
  al_log : exists l, a_log s' = a_log s ++ l /\ forall j, j ∈ l -> j = i;
  al_evs : a_evs s ⊆ a_evs s';
  al_res : forall k v, value outs (a_log s) k v -> filled v k s -> filled v k s'
}.

Lemma ac_later_same i s : ac_later i s s.
Proof. split; [exists []; split; [by rewrite app_nil_r|set_solver]|done|done]. Qed.

Lemma later_lookup i s s' k j : ac_later i s s' -> a_log s !! k = Some j -> a_log s' !! k = Some j.
Proof. intros [(l & -> & _) _ _] Hk. by apply lookup_app_l_Some. Qed.

Lemma later_value i s s' k v : ac_later i s s' -> value outs (a_log s) k v -> value outs (a_log s') k v.
Proof. intros Hl (j & Hj & Ho). exists j. split; [by eapply later_lookup|done]. Qed.

Lemma later_fresh i j s s' : ac_later i s s' -> j <> i -> j ∉ a_log s -> j ∉ a_log s'.
Proof. intros [(l & -> & Hl) _ _] Hne Hj [?|?%Hl]%elem_of_app; done. Qed.

Lemma ac_at_later i j p s s' : ac_later i s s' -> j <> i -> ac_at outs j p s -> ac_at outs j p s'.
Proof.
  intros Hl Hne Hp. pose proof (al_evs _ _ _ Hl) as He.
  destruct p; simpl in *.
  - destruct Hp. split; [done|by eapply later_fresh].
  - destruct Hp. split; [done|by eapply later_fresh].
  - destruct Hp. split; [done|by eapply later_lookup].
  - destruct Hp as (Hk & v & Hv & Hf). split; [by eapply later_lookup|]. exists v. split; [done|].
    eapply al_res; [done| |done]. by exists j.
  - destruct Hp as [(k & Hk & Hke)|[Hj He']]; [left; exists k; split; [by eapply later_lookup|set_solver]|].
    right. split; [by eapply later_fresh|done].
  - destruct Hp as (? & Hv & _). split_and!; [done| |done]. intros k' v Hk'. eapply later_value; eauto.
  - destruct Hp as (? & Hv & ?). split_and!; [done| |set_solver]. intros k' v Hk'. eapply later_value; eauto.
  - destruct Hp as (vs & -> & ? & Hv). exists vs. split_and!; [done..|].
    intros k' v Hk'. eapply later_value; eauto.
Qed.

Lemma value_unique ps s k v v' : ac_inv outs ps s ->
  value outs (a_log s) k v -> value outs (a_log s) k v' -> v = v'.
Proof. intros _ (i & Hi & Hv) (j & Hj & Hv'). simplify_eq. done. Qed.

(** The invariant after a step of task [i] to [p'] in [s']. *)
Lemma ac_inv_intro ps s i p p' s' :
  ac_inv outs ps s -> ps !! i = Some p -> ac_later i s s' -> is_consumer p' = is_consumer p ->
  ac_at outs i p' s' ->
  length (a_res s') = length outs /\ Forall (fun r => exists v, r = mkResult 1 [v]) (a_res s') ->
  a_glues s' = reverse (seq (length (a_log s')) (length outs - length (a_log s'))) ->
  NoDup (a_log s') /\ (forall j, j ∈ a_log s' -> j < length outs) ->
  (forall k, k ∈ a_evs s' -> exists v, value outs (a_log s') k v /\ filled v k s') ->
  ac_inv outs (<[i:=p']> ps) s'.
Proof.
  intros Hi Hp Hl Hm Hat Hres Hgl Hlog Hev. split; [|done..| |].
  - rewrite length_insert. apply (ai_length _ _ _ Hi).
  - intros j q [(-> & -> & _)|[Hne Hj]]%list_lookup_insert_Some; [done|].
    eapply ac_at_later; [done|by intros ->|by eapply (ai_at _ _ _ Hi)].
  - intros j q [(-> & -> & _)|[Hne Hj]]%list_lookup_insert_Some; [rewrite Hm|];
      by eapply (ai_main _ _ _ Hi).
Qed.

(** Steps that leave the shared state alone. *)
Lemma ac_inv_move ps s i p p' :
  ac_inv outs ps s -> ps !! i = Some p -> is_consumer p' = is_consumer p -> ac_at outs i p' s ->
  ac_inv outs (<[i:=p']> ps) s.
Proof.
  intros Hi Hp Hm Hat. pose proof Hi as []. eapply ac_inv_intro; eauto using ac_later_same.
Qed.

Lemma consuming_at s i vs ks v k :
  k :: ks = drop (length vs) (seq 0 (length outs)) ->
  (forall j v, vs !! j = Some v -> value outs (a_log s) j v) -> value outs (a_log s) k v ->
  ac_at outs i (consuming ks (vs ++ [v])) s /\ is_consumer (consuming ks (vs ++ [v])) = true.
Proof.
  intros Hks Hvs Hv. rewrite drop_seq, Nat.add_0_l in Hks.
  destruct (length outs - length vs) as [|m] eqn:Hm; [done|]. simpl in Hks. injection Hks as -> ->.
  assert (forall j w, (vs ++ [v]) !! j = Some w -> value outs (a_log s) j w) as Hvs'.
  { intros j w [Hj|[Hge Hj]]%lookup_app_Some; [by apply Hvs|].
    apply list_lookup_singleton_Some in Hj as [Hj <-]. replace j with (length vs) by lia. done. }
  destruct m as [|m]; simpl.
  - split; [|done]. exists (vs ++ [v]). rewrite length_app. simpl. split_and!; [done|lia|done].
  - split; [|done]. rewrite length_app, drop_seq. simpl.
    replace (length outs - (length vs + 1)) with (S m) by lia. rewrite Nat.add_1_r. by split_and!.
Qed.

Lemma ac_step ps s i p p' s' : ac_inv outs ps s -> ps !! i = Some p -> step i s p p' s' ->
  ac_inv outs (<[i:=p']> ps) s'.
Proof.
  intros Hi Hp Hs. pose proof (ai_at _ _ _ Hi _ _ Hp) as Hat. pose proof Hi as [].
  destruct p; unfold head_step in Hs; simpl in Hs; try done; destruct Hs as (a & Ha & Hp').
  - destruct Hat as [-> Hn], Ha as [Ho ->]. subst p'. destruct a as [v|e];
      (eapply ac_inv_move; [done|done|done|]); simpl; [done|right; eauto].
  - destruct Hat as [Ho Hn], Ha as [-> ->]. subst p'.
    assert (length (a_log s) < length outs) as Hlt by (eapply log_room; eauto using lookup_lt_Some).
    destruct (length outs - length (a_log s)) as [|m] eqn:Hm; [lia|].
    rewrite ai_glues0, list_pop_glues. simpl. eapply ac_inv_intro; eauto; simpl.
    + split; [exists [i]; split; [done|set_solver]|done|done].
    + split; [done|]. by rewrite lookup_app_r, Nat.sub_diag by lia.
    + rewrite length_app. simpl. rewrite Nat.add_1_r. do 2 f_equal. lia.
    + destruct ai_log0 as [Hnd Hb]. split; [by apply NoDup_snoc|].
      intros j [?| ->%list_elem_of_singleton]%elem_of_app; [by apply Hb|by eapply lookup_lt_Some].
    + intros k Hk. destruct (ai_evs0 k Hk) as (w & (j & Hj & Hw) & Hf). exists w. split; [|done].
      exists j. split; [by apply lookup_app_l_Some|done].
  - destruct Hat as [Ho Hk], Ha as (r & r' & Hr & Hst & ->). subst p'.
    destruct ai_res0 as [Hlen Hall]. destruct (Forall_lookup_1 _ _ _ _ Hall Hr) as [w ->].
    cbn in Hst. injection Hst as <-. pose proof (lookup_lt_Some _ _ _ Hr) as Hlt.
    assert (forall j u, value outs (a_log s) j u -> filled u j s ->
      filled u j (mkAc (a_glues s) (<[k:=mkResult 1 [v]]> (a_res s)) (a_evs s) (a_log s))) as Hkeep.
    { intros j u Hu Hf. unfold filled. simpl. destruct (decide (j = k)) as [->|Hne].
      - rewrite list_lookup_insert_eq by done. do 3 f_equal. eapply value_unique; [done| |done]. by exists i.
      - by rewrite list_lookup_insert_ne. }
    eapply ac_inv_intro; eauto; simpl.
    + split; [exists []; split; [by rewrite app_nil_r|set_solver]|done|done].
    + split; [done|]. exists v. split; [done|]. unfold filled. simpl. by rewrite list_lookup_insert_eq.
    + split; [by rewrite length_insert|]. apply Forall_insert; [done|eauto].
    + intros j Hj. destruct (ai_evs0 j Hj) as (u & Hu & Hf). exists u. eauto.
  - destruct Hat as (Hk & v & Hv & Hf). subst. eapply ac_inv_intro; eauto; simpl.
    + split; [exists []; split; [by rewrite app_nil_r|set_solver]|set_solver|done].
    + left. exists k. split; [done|set_solver].
    + intros j [->%elem_of_singleton|Hj]%elem_of_union; [exists v; split; [by exists i|done]|by apply ai_evs0].
  - destruct Hat as (Hks & Hvs & _), Ha as (-> & Hke & ->). subst p'.
    eapply ac_inv_move; [done|done|done|]. simpl. by split_and!.
  - destruct Hat as (Hks & Hvs & Hke), Ha as (r & Hr & -> & ->). subst p'.
    destruct (ai_evs0 k Hke) as (v & Hv & Hf). unfold filled in Hf. simplify_eq. cbn.
    destruct (consuming_at s i vs ks v k Hks Hvs Hv) as [? ?]. by eapply ac_inv_move.
Qed.

Lemma ac_inv_init : ac_inv outs ((A0 <$> seq 0 (length outs)) ++ [consuming (seq 0 (length outs)) []])
  (ac_init (length outs)).
Proof.
  split; simpl.
  - rewrite length_app, length_fmap, length_seq. simpl. lia.
  - rewrite length_replicate. split; [done|]. apply Forall_replicate. by exists PNone.
  - by rewrite Nat.sub_0_r.
  - split; [constructor|set_solver].
  - set_solver.
  - intros i p [(j & -> & Hj)%list_lookup_fmap_Some|[Hge Hp]]%lookup_app_Some.
    + apply lookup_seq in Hj as [-> _]. simpl. split; [done|set_solver].
    + apply list_lookup_singleton_Some in Hp as [_ <-]. destruct outs as [|o l]; simpl; [|done].
      by exists [].
  - intros i p [Hp|[Hge Hp]]%lookup_app_Some.
    + pose proof (lookup_lt_Some _ _ _ Hp) as Hlt. rewrite length_fmap, length_seq in Hlt.
      apply list_lookup_fmap_Some in Hp as (j & -> & _). rewrite bool_decide_false; [done|lia].
    + rewrite length_fmap, length_seq in *. apply list_lookup_singleton_Some in Hp as [Hz <-].
      rewrite bool_decide_true by lia. by destruct outs.
Qed.
End AcInv.

(** ** The theorem *)

Definition completed_pool (col : bool) (n : nat) : list (pyM acE pyobj) :=
  let '(tasks, consumer) := if col then ColoredAsCompleted.as_completed n else AsCompleted.as_completed n in
  tasks ++ [consumer].

Definition ac_rank (p : acphase) : nat :=
  match p with
  | A0 _ => 4 | A1 _ => 3 | A2 _ _ => 2 | A3 _ => 1 | AF _ => 0
  | CW _ ks _ => 2 + 2 * length ks | CR _ ks _ => 1 + 2 * length ks | CF _ => 0
  end.

Lemma ac_rank_step outs i s p p' s' : head_step (ac_sem outs) ac_head i s p p' s' -> ac_rank p' < ac_rank p.
Proof.
  destruct p; unfold head_step; simpl; try done; intros (a & Ha & ->).
  - destruct a; simpl; lia.
  - destruct a; simpl; lia.
  - simpl. lia.
  - simpl. lia.
  - destruct Ha as [-> _]. simpl. lia.
  - destruct ks; simpl; lia.
Qed.

Lemma completed_pool_at col n :
  at_phases ac_tree (completed_pool col n) ((A0 <$> seq 0 n) ++ [consuming (seq 0 n) []]).
Proof.
  assert (completed_pool col n = (AsCompleted.wrapper <$> seq 0 n) ++ [AsCompleted.consume (seq 0 n) []]) as ->
    by by destruct col.
  apply Forall2_app.
  - apply Forall2_fmap, Forall_Forall2_diag, Forall_true. intros i. simpl. reflexivity.
  - constructor; [|constructor]. by destruct n.
Qed.

Section Completed.
Context (outs : list (result pyobj)).

Definition ac_stuck (c : list (pyM acE pyobj) * ac_state) : Prop := forall c', ~ pstep (ac_sem outs) c c'.

(** Every task but a consumer that waits can step until it has returned. *)
Lemma ac_enabled ps s i p : ac_inv outs ps s -> ps !! i = Some p -> ac_rank p <> 0 ->
  (forall k ks vs, p = CW k ks vs -> k ∈ a_evs s) ->
  exists p' s', head_step (ac_sem outs) ac_head i s p p' s'.
Proof.
  intros Hi Hp Hr Hw. pose proof (ai_at _ _ _ Hi _ _ Hp) as Hat. pose proof Hi as [].
  assert (forall k, k < length (a_log s) -> exists r, a_res s !! k = Some r) as Hres.
  { intros k Hk. apply lookup_lt_is_Some. destruct ai_res0 as [-> _], ai_log0 as [Hnd Hb].
    enough (length (a_log s) <= length (seq 0 (length outs))) by (rewrite length_seq in *; lia).
    apply submseteq_length, NoDup_submseteq; [done|]. intros j ?%Hb. apply elem_of_seq. lia. }
  destruct p; unfold head_step; simpl in *; try done.
  - destruct Hat as [-> _]. pose proof (ai_main0 _ _ Hp) as Hm. simpl in Hm.
    pose proof (lookup_lt_Some _ _ _ Hp). case_bool_decide; [done|].
    destruct (lookup_lt_is_Some_2 outs i) as [x Hx]; [lia|]. do 2 eexists. exists x. by split.
  - do 2 eexists. eexists. split; [split; reflexivity|reflexivity].
  - destruct Hat as [_ Hk]. destruct (Hres k) as [r Hr']; [by eapply lookup_lt_Some|].
    destruct (Forall_lookup_1 _ _ _ _ (proj2 ai_res0) Hr') as [w ->].
    do 2 eexists. exists tt. split; [|done]. do 2 eexists. split_and!; [done|reflexivity|done].
  - do 2 eexists. exists tt. by split.
  - do 2 eexists. exists (Ok tt). split; [|done]. split_and!; [done|by eapply Hw|done].
  - destruct Hat as (_ & _ & Hk). destruct (ai_evs0 k Hk) as (v & (j & Hj & _) & Hf).
    do 2 eexists. eexists. split; [by eexists|done].
Qed.

Lemma ac_stuck_task ps ts s i p : ac_stuck (ts, s) -> ac_inv outs ps s -> at_phases ac_tree ts ps ->
  ps !! i = Some p -> ac_rank p = 0 \/ exists k ks vs, p = CW k ks vs /\ k ∉ a_evs s.
Proof.
  intros Hst Hi Hat Hp. destruct (at_phases_lookup_r _ _ _ _ _ Hat Hp) as (t & Ht & Hpt).
  assert (~ exists p' s', head_step (ac_sem outs) ac_head i s p p' s') as Hno.
  { intros (p' & s' & Hs). destruct (head_step_enabled _ _ _ ac_heads _ _ _ _ _ _ Hpt Hs) as [t' Ht'].
    eapply Hst, pstep_task; eauto. }
  destruct (decide (ac_rank p = 0)) as [?|Hr]; [by left|]. right.
  destruct p; try (by destruct Hno; eapply ac_enabled).
  do 3 eexists. split; [done|]. intros Hk. destruct Hno. eapply ac_enabled; [done|done|done|].
  by intros ? ? ? [= <- <- <-].
Qed.

(** Once all wrappers have ended well, every target is set. *)
Lemma all_set ps ts s : ac_stuck (ts, s) -> ac_inv outs ps s -> at_phases ac_tree ts ps ->
  (forall i r, outs !! i = Some r -> is_ok r = true) -> forall k, k < length outs -> k ∈ a_evs s.
Proof.
  intros Hst Hi Hat Hok. pose proof Hi as [].
  assert (forall i, i < length outs -> exists k, a_log s !! k = Some i /\ k ∈ a_evs s) as Hend.
  { intros i Hlt. destruct (lookup_lt_is_Some_2 ps i) as [p Hp]; [lia|].
    pose proof (ai_main0 _ _ Hp) as Hm. rewrite bool_decide_false in Hm by lia.
    destruct (ac_stuck_task _ _ _ _ _ Hst Hi Hat Hp) as [Hr|(k & ks & vs & -> & _)]; [|done].
    pose proof (ai_at0 _ _ Hp) as Ha. destruct p; simplify_eq/=. destruct Ha as [?|[_ [e He]]]; [done|].
    by specialize (Hok _ _ He). }
  intros k Hk. destruct (lookup_lt_is_Some_2 (a_log s) k) as [i Hik].
  { enough (length (seq 0 (length outs)) <= length (a_log s)) by (rewrite length_seq in *; lia).
    apply submseteq_length, NoDup_submseteq; [apply NoDup_seq|].
    intros j Hj%elem_of_seq. destruct (Hend j) as (x & Hx & _); [lia|]. by eapply list_elem_of_lookup_2. }
  destruct ai_log0 as [Hnd Hb]. destruct (Hend i) as (k' & Hk' & ?).
  { eapply Hb, list_elem_of_lookup_2, Hik. }
  by rewrite (NoDup_lookup _ _ _ _ Hnd Hik Hk').
Qed.

Lemma consumer_done t p r : t ≅ ac_tree p -> t ≅ Ret r -> is_consumer p = true -> p = CF r.
Proof.
  intros Hp Hr Hm. rewrite Hr in Hp. destruct (ac_heads p) as [(x & Hx & Hn)|(X & e & k & Hv & _)].
  - destruct p; simpl in Hn; try done; try (by destruct (Hn (fun _ _ _ => True))).
    by apply eq_Ret_inj in Hp as ->.
  - rewrite Hv in Hp. by apply eq_Ret_Vis in Hp.
Qed.

Lemma consumed ps s i r : ac_inv outs ps s -> ps !! i = Some (CF r) ->
  a_log s ≡ₚ seq 0 (length outs) /\
  exists vs, r = Ok (PList vs) /\ Forall2 (fun i v => outs !! i = Some (Ok v)) (a_log s) vs.
Proof.
  intros Hi Hp. destruct (ai_at _ _ _ Hi _ _ Hp) as (vs & -> & Hlen & Hv).
  destruct (ai_log _ _ _ Hi) as [Hnd Hb].
  assert (a_log s ⊆+ seq 0 (length outs)) as Hsub.
  { apply NoDup_submseteq; [done|]. intros j ?%Hb. apply elem_of_seq. lia. }
  assert (length outs <= length (a_log s)) as Hge.
  { destruct (decide (length outs = 0)) as [->|Hne]; [lia|].
    destruct (lookup_lt_is_Some_2 vs (length outs - 1)) as [v Hj]; [lia|].
    destruct (Hv _ _ Hj) as (x & Hx & _). apply lookup_lt_Some in Hx. lia. }
  pose proof (submseteq_length _ _ Hsub) as Hle. rewrite length_seq in Hle. split.
  - apply submseteq_length_Permutation; [done|]. by rewrite length_seq.
  - exists vs. split; [done|]. apply Forall2_same_length_lookup_2; [lia|].
    intros j x v Hx Hvj. destruct (Hv _ _ Hvj) as (y & Hy & ?). by simplify_eq.
Qed.
End Completed.

(** [C33] [as_completed] yields results in the order of completion: when the consumer of its
    loaders is done, it has received the values of all the coroutines, each once, in the order in
    which their tasks took a target.  Every execution is finite, and where it ends the consumer is
    done if no coroutine raised. *)
Theorem as_completed_order col outs ts s :
  reachable (ac_sem outs) (completed_pool col (length outs), ac_init (length outs)) (ts, s) ->
  (forall t r, last ts = Some t -> t ≅ Ret r ->
    a_log s ≡ₚ seq 0 (length outs) /\
    exists vs, r = Ok (PList vs) /\ Forall2 (fun i v => outs !! i = Some (Ok v)) (a_log s) vs) /\
  Acc (flip (pstep (ac_sem outs))) (ts, s) /\
  ((forall i r, outs !! i = Some r -> is_ok r = true) -> ac_stuck outs (ts, s) ->
    exists t r, last ts = Some t /\ t ≅ Ret r).
Proof.
  intros Hr. destruct (phases_invariant_at _ _ _ (head_tree_step (ac_sem outs) _ _ ac_heads)
    (ac_inv outs) _ _ _ _ _ (completed_pool_at col _) (ac_inv_init outs) (ac_step outs) Hr)
    as (ps & Hat & Hi).
  pose proof (ai_length _ _ _ Hi) as Hlen.
  assert (length ts = S (length outs)) as Hlt by by rewrite (Forall2_length _ _ _ Hat).
  rewrite !last_lookup, Hlt. simpl. split_and!.
  - intros t r Ht Hret. destruct (at_phases_lookup _ _ _ _ _ Hat Ht) as (p & Hp & Hpt).
    pose proof (ai_main _ _ _ Hi _ _ Hp) as Hm. rewrite bool_decide_true in Hm by done.
    assert (p = CF r) as -> by (eapply consumer_done; eauto).
    by eapply consumed.
  - eapply (phases_terminate _ _ _ (head_tree_step (ac_sem outs) _ _ ac_heads) ac_rank); [|done].
    apply ac_rank_step.
  - intros Hok Hst. destruct (lookup_lt_is_Some_2 ps (length outs)) as [p Hp]; [lia|].
    destruct (at_phases_lookup_r _ _ _ _ _ Hat Hp) as (t & Ht & Hpt).
    pose proof (ai_main _ _ _ Hi _ _ Hp) as Hm. rewrite bool_decide_true in Hm by done.
    destruct (ac_stuck_task _ _ _ _ _ _ Hst Hi Hat Hp) as [Hz|(k & ks & vs & -> & Hk)].
    + destruct p; simplify_eq/=. eauto.
    + destruct Hk. eapply all_set; eauto. pose proof (ai_at _ _ _ Hi _ _ Hp) as (Hks & _).
      assert (k ∈ seq 0 (length outs)) as Hin%elem_of_seq; [|lia].
      rewrite <- (take_drop (length vs) (seq 0 (length outs))), <- Hks. set_solver.
Qed.

(** Two coroutines; the second one completes first. *)
Lemma completed_run : exists ts s t,
  reachable (ac_sem [Ok (PInt 1); Ok (PInt 2)]) (completed_pool false 2, ac_init 2) (ts, s) /\
  last ts = Some t /\ t ≅ Ret (Ok (PList [PInt 2; PInt 1])).
Proof.
  do 3 eexists. split; [|split].
  - unfold completed_pool. cbn [AsCompleted.as_completed seq fmap list_fmap app].
    pool_answer 1 (Ok (PInt 2) : result pyobj). pool_answer 0 (Ok (PInt 1) : result pyobj).
    pool_answer 1 (Ok 0 : result nat). pool_answer 0 (Ok 1 : result nat).
    do 2 pool_answer 1 tt. do 2 pool_answer 0 tt.
    pool_answer 2 (Ok tt : result unit).
    pool_answer 2 (PInt 2).
    pool_answer 2 (Ok tt : result unit).
    pool_answer 2 (PInt 1). apply reachable_init.
  - reflexivity.
  - apply eq_obs_Ret. reflexivity.
Qed.

Lemma as_completed_order_witness : exists s,
  a_log s ≡ₚ [0; 1] /\
  exists vs, Ok (PList [PInt 2; PInt 1]) = Ok (PList vs) /\
    Forall2 (fun i v => [Ok (PInt 1); Ok (PInt 2)] !! i = Some (Ok v)) (a_log s) vs.
Proof.
  destruct completed_run as (ts & s & t & Hr & Ht & Hret). exists s.
  exact (proj1 (as_completed_order false [Ok (PInt 1); Ok (PInt 2)] ts s Hr) t _ Ht Hret).
Defined.

(** A coroutine that raises never fills a target: the consumer of two coroutines, the first of
    which raises, receives the value of the second and then waits for ever. *)
Theorem as_completed_strands : exists ts s t,
  reachable (ac_sem [Err (UserError 1); Ok (PInt 2)]) (completed_pool false 2, ac_init 2) (ts, s) /\
  ac_stuck [Err (UserError 1); Ok (PInt 2)] (ts, s) /\ last ts = Some t /\ ~ exists r, t ≅ Ret r.
Proof.
  do 3 eexists. split; [|split; [|split]].
  - unfold completed_pool. cbn [AsCompleted.as_completed seq fmap list_fmap app].
    pool_answer 0 (Err (UserError 1) : result pyobj). pool_answer 1 (Ok (PInt 2) : result pyobj).
    pool_answer 1 (Ok 0 : result nat). do 2 pool_answer 1 tt.
    pool_answer 2 (Ok tt : result unit).
    pool_answer 2 (PInt 2). apply reachable_init.
  - intros c' Hs. inv Hs as [i ? t t' ? s' Hi Ht].
    destruct i as [|[|[|i]]]; simplify_eq/=.
    + refine (tstep_blocked _ _ _ _ _ _ _ Ht). exact I.
    + refine (tstep_blocked _ _ _ _ _ _ _ Ht). exact I.
    + refine (tstep_blocked _ _ _ _ _ _ _ Ht). intros x s'' (_ & Hk & _). simpl in Hk. set_solver.
  - reflexivity.
  - intros [r Hr%eqitree_inv_Ret_r]. discriminate Hr.
Qed.
