(* ===== verification/Subprocess.v ===== *)
(** * Child processes

    [src/tonio/_subprocess.py] and [src/tonio/_colored/_subprocess.py]: [open_process] with its
    clean-up of pipe ends, [Process], and [run_process].  Descriptor streams and the exit
    descriptor, whose own code is in [Fd], are used through their operations. *)

From stdpp Require Import base numbers list gmap strings pretty.
From Stdlib Require Import ZArith Lia.
From ITree Require Import ITree ITreeFacts.
From S2P Require Import Prelude Coro Os.

Open Scope tonio_scope.

(** ** Operations *)

(** Constants of the [subprocess] module. *)
Definition PIPE : pyobj := PInt (-1).
Definition STDOUT : pyobj := PInt (-2).

Definition options := gmap string pyobj.

(** The two background readers and the writer of [run_process]. *)
Inductive ptask := FeedInput (stream : nat) (data : pyobj) | ReadOutput (stream : nat) (err : bool).

(** Streams, processes, exit descriptors and waiters are named by numbers.  [PPopen] is
    [spawn_blocking(partial(subprocess.Popen, ..))]; [PGetPidfd] and [PSetPidfd] access the
    attribute [_pidfd] of a process, [PReturncode] the attribute of its [Popen]; [PAppend] and
    [PChunks] the lists of chunks. *)
Variant prE : Type -> Type :=
| PPipe : prE (result (Z * Z))
| PFdStream (fd : Z) : prE (result nat)
| PCloseFd (fd : Z) : prE (result unit)
| PCloseStream (s : nat) : prE (result unit)
| PPopen (command stdin stdout stderr : pyobj) (opts : options) : prE (result nat)
| POpenProcFd (p : nat) : prE (result (option nat))
| PPoll (p : nat) : prE (option Z)
| PPopenWait (p : nat) : prE (result Z)
| PReturncode (p : nat) : prE (option Z)
| PGetPidfd (p : nat) : prE (option nat)
| PSetPidfd (p : nat) (fd : option nat) : prE unit
| PProcFdClose (fd : nat) : prE unit
| PArm (fd : nat) : prE (option nat)
| PAwait (w : nat) : prE (result unit)
| PLock (p : nat) : prE (result unit)
| PUnlock (p : nat) : prE unit
| PSignal (p : nat) (sig : Z) : prE (result unit)
| PSend (s : nat) (data : pyobj) : prE (result unit)
| PReceive (s : nat) : prE (result bytes)
| PAppend (err : bool) (chunk : bytes) : prE unit
| PChunks (err : bool) : prE (list bytes)
| PSpawn (tasks : list ptask) : prE nat
| PJoin (h : nat) : prE (result unit).

(** ** [contextlib.ExitStack] *)

Inductive cleanup := CloseFd (fd : Z) | CloseStream (s : nat).

Definition run_cleanup (c : cleanup) : pyM prE unit :=
  match c with CloseFd fd => pcall (PCloseFd fd) | CloseStream s => pcall (PCloseStream s) end.

(** Leaving a stack: the last callback first, each of them whatever the others did; an exception
    of a callback replaces the outcome. *)
Fixpoint leave {A} (stack : list cleanup) (r : result A) : pyM prE A :=
  match stack with
  | [] => Ret r
  | c :: stack =>
      ITree.bind (run_cleanup c) (fun rc => leave stack (match rc with Ok _ => r | Err e => Err e end))
  end.

(** The two stacks of [open_process], threaded through its body. *)
Record stacks := mkStacks { always_cleanup : list cleanup; cleanup_on_fail : list cleanup }.
Definition stM (A : Type) : Type := stacks -> itree prE (result A * stacks).

Definition sret {A} (a : A) : stM A := fun st => Ret (Ok a, st).
Definition slift {A} (c : pyM prE A) : stM A := fun st => ITree.bind c (fun r => Ret (r, st)).
Definition sbind {A B} (c : stM A) (k : A -> stM B) : stM B := fun st =>
  ITree.bind (c st) (fun x => match x with
    | (Ok a, st) => k a st
    | (Err e, st) => Ret (Err e, st)
    end).
Definition always (c : cleanup) : stM unit := fun st =>
  Ret (Ok tt, mkStacks (c :: always_cleanup st) (cleanup_on_fail st)).
Definition on_fail (c : cleanup) : stM unit := fun st =>
  Ret (Ok tt, mkStacks (always_cleanup st) (c :: cleanup_on_fail st)).
Definition pop_all : stM unit := fun st => Ret (Ok tt, mkStacks (always_cleanup st) []).

(** [with ExitStack() as always_cleanup, ExitStack() as cleanup_on_fail: body]. *)
Definition with_stacks {A} (body : stM A) : pyM prE A :=
  ITree.bind (body (mkStacks [] [])) (fun x =>
    ITree.bind (leave (cleanup_on_fail x.2) x.1) (fun r => leave (always_cleanup x.2) r)).

Notation "'let@' x ':=' c 'in' k" := (sbind c (fun x => k))
  (at level 10, x binder, k at level 200) : tonio_scope.

(** ** [Process] *)

Record Process := mkProcess {
  p_popen : nat; p_stdin : option nat; p_stdout : option nat; p_stderr : option nat;
  p_stdio : option (nat * nat)
}.

Definition Process_init (popen : nat) (stdin stdout stderr : option nat) : pyM prE Process :=
  let stdio := match stdin, stdout with Some i, Some o => Some (i, o) | _, _ => None end in
  let! pidfd := pcall (POpenProcFd popen) in
  pop (PSetPidfd popen pidfd) ;;;
  pret (mkProcess popen stdin stdout stderr stdio).

Definition close_pidfd (p : nat) : pyM prE unit :=
  let! fd := pop (PGetPidfd p) in
  match fd with
  | Some fd => pop (PProcFdClose fd) ;;; pop (PSetPidfd p None)
  | None => pret tt
  end.

Definition Process_returncode (p : nat) : pyM prE (option Z) :=
  let! result := pop (PPoll p) in
  (match result with Some _ => close_pidfd p | None => pret tt end) ;;;
  pret result.

Definition Process_poll (p : nat) : pyM prE (option Z) := Process_returncode p.

(** The status part of [__repr__]. *)
Definition Process_status (pid : Z) (returncode : option Z) : string :=
  match returncode with
  | None => "running with PID " +:+ pretty pid
  | Some r =>
      if (r <? 0)%Z then "exited with signal " +:+ pretty (- r)%Z
      else "exited with status " +:+ pretty r
  end.

Definition Process_repr (pid : Z) (args : string) (returncode : option Z) : string :=
  "<tonio.Process " +:+ args +:+ ": " +:+ Process_status pid returncode +:+ ">".

(** The body of [wait] under the lock. *)
Definition wait_exit (p : nat) : pyM prE unit :=
  let! rc := Process_poll p in
  match rc with
  | Some _ => pret tt
  | None =>
      let! pidfd := pop (PGetPidfd p) in
      match pidfd with
      | None => praise (AttributeError "_io_arm_r")
      | Some fd =>
          let! waiter := pop (PArm fd) in
          (match waiter with Some w => pcall (PAwait w) | None => pret tt end) ;;;
          pcall (PPopenWait p) ;;;
          close_pidfd p
      end
  end.

Definition Process_wait (p : nat) : pyM prE (option Z) :=
  pcall (PLock p) ;;;
  pfinally (wait_exit p) (pop (PUnlock p)) ;;;
  pop (PReturncode p).

Definition Process_send_signal (p : nat) (sig : Z) : pyM prE unit := pcall (PSignal p sig).
Definition Process_terminate (p : nat) : pyM prE unit := pcall (PSignal p 15).
Definition Process_kill (p : nat) : pyM prE unit := pcall (PSignal p 9).

(** ** [open_process] *)

Definition pipe_to_child_stdin : pyM prE (nat * Z) :=
  let! fds := pcall PPipe in
  let! s := pcall (PFdStream fds.2) in
  pret (s, fds.1).

Definition pipe_from_child_output : pyM prE (nat * Z) :=
  let! fds := pcall PPipe in
  let! s := pcall (PFdStream fds.1) in
  pret (s, fds.2).

(** [options.get(key)] as a condition. *)
Definition is_true (v : pyobj) : bool :=
  match v with
  | PNone | PBool false => false
  | PInt z => negb (z =? 0)%Z
  | PStr s => negb (String.eqb s "")
  | PBytes [] | PTuple [] | PList [] => false
  | _ => true
  end.
Definition opt_set (opts : options) (key : string) : bool :=
  match opts !! key with Some v => is_true v | None => false end.

Definition is_text (command : pyobj) : bool :=
  match command with PStr _ | PBytes _ => true | _ => false end.

Definition unsupported : list string := ["universal_newlines"; "text"; "encoding"; "errors"; "bufsize"].

(** The checks before any descriptor is opened (on a POSIX system). *)
Definition check_command (command : pyobj) (opts : options) : option exn :=
  match filter (fun key => opt_set opts key = true) unsupported with
  | key :: _ => Some (TypeError ("tonio.Process only supports communicating over unbuffered byte streams; the '"
                                 +:+ key +:+ "' option is not supported"))
  | [] =>
      if is_text command && negb (opt_set opts "shell") then
        Some (TypeError "command must be a sequence (not a string or bytes) if shell=False on UNIX systems")
      else if negb (is_text command) && opt_set opts "shell" then
        Some (TypeError "command must be a string or bytes (not a sequence) if shell=True on UNIX systems")
      else None
  end.

Definition eq_int (v : pyobj) (n : pyobj) : bool :=
  match v, n with PInt a, PInt b => (a =? b)%Z | _, _ => false end.

(** A standard stream that is to be piped: the parent's end, and the child's end in place of the
    constant. *)
Definition pipe_if (b : bool) (make : pyM prE (nat * Z)) (fd : pyobj) : stM (option nat * pyobj) :=
  if b then
    let@ ends := slift make in
    let@ _ := always (CloseFd ends.2) in
    let@ _ := on_fail (CloseStream ends.1) in
    sret (Some ends.1, PInt ends.2)
  else sret (None, fd).

Definition open_process_body (command stdin stdout stderr : pyobj) (opts : options)
    : stM (nat * option nat * option nat * option nat) :=
  let@ i := pipe_if (eq_int stdin PIPE) pipe_to_child_stdin stdin in
  let@ o := pipe_if (eq_int stdout PIPE) pipe_from_child_output stdout in
  let@ e :=
    (if eq_int stderr STDOUT then sret (None, if is_None o.2 then stderr else o.2)
     else pipe_if (eq_int stderr PIPE) pipe_from_child_output stderr) in
  let@ popen := slift (pcall (PPopen command i.2 o.2 e.2 opts)) in
  let@ _ := pop_all in
  sret (popen, i.1, o.1, e.1).

Definition open_process (command stdin stdout stderr : pyobj) (opts : options) : pyM prE Process :=
  match check_command command opts with
  | Some e => praise e
  | None =>
      let! x := with_stacks (open_process_body command stdin stdout stderr opts) in
      let '(popen, wstdin, wstdout, wstderr) := x in
      Process_init popen wstdin wstdout wstderr
  end.

(** ** [run_process] *)

(** [with stream: ..] closes the stream at the end. *)
Definition feed_input (stream : nat) (input : pyobj) : pyM prE unit :=
  pfinally
    (ptry (pcall (PSend stream input))
       (fun e => if is_ResourceBroken e then Some (pret tt) else None))
    (pcall (PCloseStream stream)).

Definition read_output (stream : nat) (err : bool) : pyM prE unit :=
  pfinally
    (ploop
       (let! chunk := pcall (PReceive stream) in
        match chunk with
        | [] => pret (Some tt)
        | _ => pop (PAppend err chunk) ;;; pret None
        end))
    (pcall (PCloseStream stream)).

Definition run_task (t : ptask) : pyM prE unit :=
  match t with FeedInput s data => feed_input s data | ReadOutput s err => read_output s err end.

Record CompletedProcess := mkCompleted {
  cp_returncode : option Z; cp_stdout : option bytes; cp_stderr : option bytes
}.

(** [isinstance(stdin, (bytes, bytearray, memoryview))]. *)
Definition is_bytes (v : pyobj) : bool := match v with PBytes _ => true | _ => false end.

(** The checks of the arguments: what is fed to the child, and the options for [open_process]. *)
Definition run_options (stdin : pyobj) (capture_stdout capture_stderr : bool) (opts : options)
    : result (option pyobj * options) :=
  match stdin with
  | PStr _ => Err UnicodeError
  | _ =>
      let input := if is_bytes stdin then Some stdin else None in
      let opts := <["stdin" := if is_bytes stdin then PIPE else stdin]> opts in
      match capture_stdout, opts !! "stdout" with
      | true, Some _ => Err (ValueError "can't specify both stdout and capture_stdout")
      | _, _ =>
          let opts := if capture_stdout then <["stdout" := PIPE]> opts else opts in
          match capture_stderr, opts !! "stderr" with
          | true, Some _ => Err (ValueError "can't specify both stderr and capture_stderr")
          | _, _ => Ok (input, if capture_stderr then <["stderr" := PIPE]> opts else opts)
          end
      end
  end.

(** [open_process(command, **options)]. *)
Definition open_with (command : pyobj) (opts : options) : pyM prE Process :=
  let get key := default PNone (opts !! key) in
  open_process command (get "stdin") (get "stdout") (get "stderr")
    (delete "stdin" (delete "stdout" (delete "stderr" opts))).

(** The tasks that talk to the child; a stream that is not there is an error of the task. *)
Definition run_tasks (input : option pyobj) (capture_stdout capture_stderr : bool) (proc : Process)
    : list ptask :=
  (match input, p_stdin proc with Some d, Some s => [FeedInput s d] | _, _ => [] end) ++
  (match capture_stdout, p_stdout proc with true, Some s => [ReadOutput s false] | _, _ => [] end) ++
  (match capture_stderr, p_stderr proc with true, Some s => [ReadOutput s true] | _, _ => [] end).

(** [b''.join(chunks)] of a captured stream. *)
Definition captured (b : bool) (err : bool) : pyM prE (option bytes) :=
  if b then let! chunks := pop (PChunks err) in pret (Some (concat chunks)) else pret None.

(** Everything after the child was started. *)
Definition communicate (proc : Process) (input : option pyobj)
    (capture_stdout capture_stderr check : bool) : pyM prE CompletedProcess :=
  let! tasks := pop (PSpawn (run_tasks input capture_stdout capture_stderr proc)) in
  Process_wait (p_popen proc) ;;;
  pcall (PJoin tasks) ;;;
  let! stdout := captured capture_stdout false in
  let! stderr := captured capture_stderr true in
  let! rc := Process_returncode (p_popen proc) in
  match rc with
  | Some code =>
      if negb (code =? 0)%Z && check then
        let! rc := Process_returncode (p_popen proc) in
        praise (CalledProcessError (default 0%Z rc) stdout stderr)
      else
        let! rc := Process_returncode (p_popen proc) in
        pret (mkCompleted rc stdout stderr)
  | None =>
      let! rc := Process_returncode (p_popen proc) in
      pret (mkCompleted rc stdout stderr)
  end.

Definition run_process (command stdin : pyobj) (capture_stdout capture_stderr check : bool)
    (opts : options) : pyM prE CompletedProcess :=
  match run_options stdin capture_stdout capture_stderr opts with
  | Err e => praise e
  | Ok (input, opts) =>
      let! proc := open_with command opts in
      communicate proc input capture_stdout capture_stderr check
  end.

(** ** The [async] API *)

Module ColoredSubprocess.
Definition Process_init (popen : nat) (stdin stdout stderr : option nat) : pyM prE Process :=
  let stdio := match stdin, stdout with Some i, Some o => Some (i, o) | _, _ => None end in
  let! pidfd := pcall (POpenProcFd popen) in
  pop (PSetPidfd popen pidfd) ;;;
  pret (mkProcess popen stdin stdout stderr stdio).

Definition wait_exit (p : nat) : pyM prE unit :=
  let! rc := Process_poll p in
  match rc with
  | Some _ => pret tt
  | None =>
      let! pidfd := pop (PGetPidfd p) in
      match pidfd with
      | None => praise (AttributeError "_io_arm_r")
      | Some fd =>
          let! waiter := pop (PArm fd) in
          (match waiter with Some w => pcall (PAwait w) | None => pret tt end) ;;;
          pcall (PPopenWait p) ;;;
          close_pidfd p
      end
  end.

Definition Process_wait (p : nat) : pyM prE (option Z) :=
  pcall (PLock p) ;;;
  pfinally (wait_exit p) (pop (PUnlock p)) ;;;
  pop (PReturncode p).

Definition pipe_to_child_stdin : pyM prE (nat * Z) :=
  let! fds := pcall PPipe in
  let! s := pcall (PFdStream fds.2) in
  pret (s, fds.1).

Definition pipe_from_child_output : pyM prE (nat * Z) :=
  let! fds := pcall PPipe in
  let! s := pcall (PFdStream fds.1) in
  pret (s, fds.2).

Definition check_command (command : pyobj) (opts : options) : option exn :=
  match filter (fun key => opt_set opts key = true) unsupported with
  | key :: _ => Some (TypeError ("tonio.Process only supports communicating over unbuffered byte streams; the '"
                                 +:+ key +:+ "' option is not supported"))
  | [] =>
      if is_text command && negb (opt_set opts "shell") then
        Some (TypeError "command must be a sequence (not a string or bytes) if shell=False on UNIX systems")
      else if negb (is_text command) && opt_set opts "shell" then
        Some (TypeError "command must be a string or bytes (not a sequence) if shell=True on UNIX systems")
      else None
  end.

Definition open_process_body (command stdin stdout stderr : pyobj) (opts : options)
    : stM (nat * option nat * option nat * option nat) :=
  let@ i := pipe_if (eq_int stdin PIPE) pipe_to_child_stdin stdin in
  let@ o := pipe_if (eq_int stdout PIPE) pipe_from_child_output stdout in
  let@ e :=
    (if eq_int stderr STDOUT then sret (None, if is_None o.2 then stderr else o.2)
     else pipe_if (eq_int stderr PIPE) pipe_from_child_output stderr) in
  let@ popen := slift (pcall (PPopen command i.2 o.2 e.2 opts)) in
  let@ _ := pop_all in
  sret (popen, i.1, o.1, e.1).

Definition open_process (command stdin stdout stderr : pyobj) (opts : options) : pyM prE Process :=
  match check_command command opts with
  | Some e => praise e
  | None =>
      let! x := with_stacks (open_process_body command stdin stdout stderr opts) in
      let '(popen, wstdin, wstdout, wstderr) := x in
      Process_init popen wstdin wstdout wstderr
  end.

Definition feed_input (stream : nat) (input : pyobj) : pyM prE unit :=
  pfinally
    (ptry (pcall (PSend stream input))
       (fun e => if is_ResourceBroken e then Some (pret tt) else None))
    (pcall (PCloseStream stream)).

Definition read_output (stream : nat) (err : bool) : pyM prE unit :=
  pfinally
    (ploop
       (let! chunk := pcall (PReceive stream) in
        match chunk with
        | [] => pret (Some tt)
        | _ => pop (PAppend err chunk) ;;; pret None
        end))
    (pcall (PCloseStream stream)).

Definition run_options (stdin : pyobj) (capture_stdout capture_stderr : bool) (opts : options)
    : result (option pyobj * options) :=
  match stdin with
  | PStr _ => Err UnicodeError
  | _ =>
      let input := if is_bytes stdin then Some stdin else None in
      let opts := <["stdin" := if is_bytes stdin then PIPE else stdin]> opts in
      match capture_stdout, opts !! "stdout" with
      | true, Some _ => Err (ValueError "can't specify both stdout and capture_stdout")
      | _, _ =>
          let opts := if capture_stdout then <["stdout" := PIPE]> opts else opts in
          match capture_stderr, opts !! "stderr" with
          | true, Some _ => Err (ValueError "can't specify both stderr and capture_stderr")
          | _, _ => Ok (input, if capture_stderr then <["stderr" := PIPE]> opts else opts)
          end
      end
  end.

Definition open_with (command : pyobj) (opts : options) : pyM prE Process :=
  let get key := default PNone (opts !! key) in
  open_process command (get "stdin") (get "stdout") (get "stderr")
    (delete "stdin" (delete "stdout" (delete "stderr" opts))).

Definition run_tasks (input : option pyobj) (capture_stdout capture_stderr : bool) (proc : Process)
    : list ptask :=
  (match input, p_stdin proc with Some d, Some s => [FeedInput s d] | _, _ => [] end) ++
  (match capture_stdout, p_stdout proc with true, Some s => [ReadOutput s false] | _, _ => [] end) ++
  (match capture_stderr, p_stderr proc with true, Some s => [ReadOutput s true] | _, _ => [] end).

Definition captured (b : bool) (err : bool) : pyM prE (option bytes) :=
  if b then let! chunks := pop (PChunks err) in pret (Some (concat chunks)) else pret None.

Definition communicate (proc : Process) (input : option pyobj)
    (capture_stdout capture_stderr check : bool) : pyM prE CompletedProcess :=
  let! tasks := pop (PSpawn (run_tasks input capture_stdout capture_stderr proc)) in
  Process_wait (p_popen proc) ;;;
  pcall (PJoin tasks) ;;;
  let! stdout := captured capture_stdout false in
  let! stderr := captured capture_stderr true in
  let! rc := Process_returncode (p_popen proc) in
  match rc with
  | Some code =>
      if negb (code =? 0)%Z && check then
        let! rc := Process_returncode (p_popen proc) in
        praise (CalledProcessError (default 0%Z rc) stdout stderr)
      else
        let! rc := Process_returncode (p_popen proc) in
        pret (mkCompleted rc stdout stderr)
  | None =>
      let! rc := Process_returncode (p_popen proc) in
      pret (mkCompleted rc stdout stderr)
  end.

Definition run_process (command stdin : pyobj) (capture_stdout capture_stderr check : bool)
    (opts : options) : pyM prE CompletedProcess :=
  match run_options stdin capture_stdout capture_stderr opts with
  | Err e => praise e
  | Ok (input, opts) =>
      let! proc := open_with command opts in
      communicate proc input capture_stdout capture_stderr check
  end.
End ColoredSubprocess.
