(* ===== verification/SubprocessProps.v ===== *)
(** * Starting a child leaks no descriptor

    [open_process] against every choice of the calls that may fail: opening a pipe, and starting
    the child (which covers a cancellation of that call). *)

From stdpp Require Import base numbers list gmap sets strings.
From Stdlib Require Import ZArith Lia.
From ITree Require Import ITree ITreeFacts.
From S2P Require Import Prelude Coro Os Subprocess.

Open Scope tonio_scope.
#[local] Set Warnings "-clear-no-such-hyp".

(** The descriptors the program holds as numbers, the streams that own one, and the next names. *)
Record pfs := mkPfs {
  pf_tick : nat; pf_fds : gset Z; pf_streams : gset nat; pf_next : Z; pf_nexts : nat
}.

Definition tick (s : pfs) : pfs :=
  mkPfs (S (pf_tick s)) (pf_fds s) (pf_streams s) (pf_next s) (pf_nexts s).

(** [fail n]: whether the [n]-th call that may fail does, and with what. *)
Definition fd_handler (fail : nat -> option exn) (X : Type) (e : prE X) (s : pfs) : option (X * pfs) :=
  match e in prE X return option (X * pfs) with
  | PPipe => Some (match fail (pf_tick s) with
      | Some x => (Err x, tick s)
      | None => (Ok (pf_next s, pf_next s + 1)%Z,
          mkPfs (S (pf_tick s)) ({[pf_next s]} ∪ {[(pf_next s + 1)%Z]} ∪ pf_fds s) (pf_streams s)
            (pf_next s + 2) (pf_nexts s))
      end)
  | PFdStream fd => Some (Ok (pf_nexts s),
      mkPfs (pf_tick s) (pf_fds s ∖ {[fd]}) ({[pf_nexts s]} ∪ pf_streams s) (pf_next s) (S (pf_nexts s)))
  | PCloseFd fd => Some (Ok tt, mkPfs (pf_tick s) (pf_fds s ∖ {[fd]}) (pf_streams s) (pf_next s) (pf_nexts s))
  | PCloseStream x => Some (Ok tt, mkPfs (pf_tick s) (pf_fds s) (pf_streams s ∖ {[x]}) (pf_next s) (pf_nexts s))
  | PPopen _ _ _ _ _ => Some (match fail (pf_tick s) with Some x => (Err x, tick s) | None => (Ok 0, tick s) end)
  | POpenProcFd _ => Some (Ok (Some 0), s)
  | PSetPidfd _ _ => Some (tt, s)
  | _ => None
  end.

(** Names still to be given out are fresh. *)
Definition fresh (s : pfs) : Prop :=
  (forall fd, fd ∈ pf_fds s -> (fd < pf_next s)%Z) /\ (forall x, x ∈ pf_streams s -> x < pf_nexts s).

Definition raw (c : cleanup) : option Z := match c with CloseFd fd => Some fd | _ => None end.
Definition owned (c : cleanup) : option nat := match c with CloseStream x => Some x | _ => None end.
Definition raws (l : list cleanup) : gset Z := list_to_set (omap raw l).
Definition owneds (l : list cleanup) : gset nat := list_to_set (omap owned l).

Section Open.
Context (fail : nat -> option exn).

#[local] Abbreviation run := (runs (fd_handler fail)).

(** Leaving a stack closes what it holds, and nothing else. *)
Lemma leave_runs {A} (stack : list cleanup) (r : result A) s : exists s',
  run (leave stack r) s r s' /\ pf_fds s' = pf_fds s ∖ raws stack /\
  pf_streams s' = pf_streams s ∖ owneds stack.
Proof.
  revert s. induction stack as [|c stack IH]; intros s; simpl.
  - exists s. split; [apply runs_ret|]. unfold raws, owneds. simpl. set_solver.
  - destruct c as [fd|x].
    + edestruct IH as (s' & Hr & Hf & Hs). exists s'. split.
      * eapply runs_bind; [by apply runs_pcall|]. exact Hr.
      * rewrite Hf, Hs. unfold raws, owneds. simpl. set_solver.
    + edestruct IH as (s' & Hr & Hf & Hs). exists s'. split.
      * eapply runs_bind; [by apply runs_pcall|]. exact Hr.
      * rewrite Hf, Hs. unfold raws, owneds. simpl. set_solver.
Qed.

(** In the body of [open_process]: what was opened since [s0] is exactly what the stacks hold. *)
Record holds (s0 : pfs) (st : stacks) (s : pfs) : Prop := {
  h_fresh : fresh s;
  h_next : (pf_next s0 <= pf_next s)%Z /\ pf_nexts s0 <= pf_nexts s;
  h_fds : pf_fds s = pf_fds s0 ∪ raws (always_cleanup st);
  h_streams : pf_streams s = pf_streams s0 ∪ owneds (cleanup_on_fail st);
  h_raws : forall fd, fd ∈ raws (always_cleanup st) -> (pf_next s0 <= fd)%Z;
  h_owneds : forall x, x ∈ owneds (cleanup_on_fail st) -> pf_nexts s0 <= x;
  h_kinds : owneds (always_cleanup st) = ∅ /\ raws (cleanup_on_fail st) = ∅
}.

(** A pipe with one end wrapped: nothing is opened, or one descriptor and one stream. *)
Definition pipe_made (s : pfs) (r : result (nat * Z)) (s' : pfs) : Prop :=
  match r with
  | Err _ => s' = tick s
  | Ok (x, fd) => x = pf_nexts s /\ (pf_next s <= fd < pf_next s + 2)%Z /\
      pf_fds s' = {[fd]} ∪ pf_fds s /\ pf_streams s' = {[x]} ∪ pf_streams s /\
      pf_next s' = (pf_next s + 2)%Z /\ pf_nexts s' = S (pf_nexts s)
  end.

Lemma pipe_runs make s : make = pipe_to_child_stdin \/ make = pipe_from_child_output -> fresh s ->
  exists r s', run make s r s' /\ pipe_made s r s'.
Proof.
  intros Hm [Hf _]. destruct (fail (pf_tick s)) as [x|] eqn:Hx.
  - exists (Err x), (tick s). split; [|done].
    destruct Hm as [->| ->]; (eapply runs_pbind_err, runs_pcall; simpl; by rewrite Hx).
  - assert (forall fd : Z, fd ∈ pf_fds s -> fd <> pf_next s /\ fd <> (pf_next s + 1)%Z) as Hn.
    { intros fd Hfd. specialize (Hf fd Hfd). lia. }
    destruct Hm as [->| ->]; do 2 eexists; (split; [eapply runs_pbind;
      [eapply runs_pcall; simpl; by rewrite Hx|]; eapply runs_pbind; [by eapply runs_pcall|]; apply runs_pret|]);
      simpl; (split_and!; [done|lia|lia| |done|done|done]).
    + apply set_eq. intros fd. specialize (Hn fd). set_unfold. naive_solver lia.
    + apply set_eq. intros fd. specialize (Hn fd). set_unfold. naive_solver lia.
Qed.

Lemma holds_tick s0 st s : holds s0 st s -> holds s0 st (tick s).
Proof. by intros []. Qed.

(** A standard stream set up by the body. *)
Lemma pipe_if_runs s0 b make v st s : make = pipe_to_child_stdin \/ make = pipe_from_child_output ->
  holds s0 st s -> exists r st' s', run (pipe_if b make v st) s (r, st') s' /\ holds s0 st' s' /\
    match r with
    | Ok (w, _) => cleanup_on_fail st' = (CloseStream <$> option_list w) ++ cleanup_on_fail st
    | Err _ => True
    end.
Proof.
  intros Hm Hh. unfold pipe_if. destruct b.
  2: { do 3 eexists. split; [apply runs_ret|by split]. }
  destruct (pipe_runs make s Hm (h_fresh _ _ _ Hh)) as ([[x fd]|e] & s' & Hr & Hp).
  - destruct Hp as (-> & Hfd & Hf & Hs & Hn & Hns). do 3 eexists. split; [|split].
    + unfold sbind, slift. eapply runs_bind; [eapply runs_bind; [exact Hr|apply runs_ret]|].
      simpl. eapply runs_bind; [apply runs_ret|]. simpl. eapply runs_bind; [apply runs_ret|].
      simpl. apply runs_ret.
    + destruct Hh as [[Hf1 Hf2] [Hn1 Hn2] Hfds Hst Hra Ho [Hk1 Hk2]].
      split; simpl; unfold raws, owneds in *; simpl.
      * split; [rewrite Hf, Hn|rewrite Hs, Hns]; intros y Hy; set_unfold;
          destruct Hy as [->|Hy]; [lia|apply Hf1 in Hy; lia|lia|apply Hf2 in Hy; lia].
      * lia.
      * rewrite Hf, Hfds. set_solver.
      * rewrite Hs, Hst. set_solver.
      * intros y [->%elem_of_singleton|Hy]%elem_of_union; [lia|by apply Hra].
      * intros y [->%elem_of_singleton|Hy]%elem_of_union; [lia|by apply Ho].
      * done.
    + done.
  - simpl in Hp. subst s'. exists (Err e), st, (tick s). split; [|split; [by apply holds_tick|done]].
    unfold sbind, slift. eapply runs_bind; [eapply runs_bind; [exact Hr|apply runs_ret]|]. apply runs_ret.
Qed.

(** The streams of a process. *)
Definition proc_streams (i o e : option nat) : gset nat :=
  list_to_set (option_list e ++ option_list o ++ option_list i).

Lemma owneds_streams (l : list nat) : owneds (CloseStream <$> l) = list_to_set l.
Proof. unfold owneds. induction l as [|x l IH]; simpl; [done|]. by rewrite <- IH. Qed.

Lemma body_runs s command i o e opts : fresh s ->
  exists r st s', run (open_process_body command i o e opts (mkStacks [] [])) s (r, st) s' /\
    match r with
    | Err _ => holds s st s'
    | Ok (_, wi, wo, we) => cleanup_on_fail st = [] /\
        holds s (mkStacks (always_cleanup st) (CloseStream <$> (option_list we ++ option_list wo ++ option_list wi))) s'
    end.
Proof.
  intros Hfr. assert (holds s (mkStacks [] []) s) as H0.
  { split; simpl; unfold raws, owneds; simpl; try done; set_solver. }
  unfold open_process_body.
  destruct (pipe_if_runs s (eq_int i PIPE) _ i _ _ (or_introl eq_refl) H0) as ([[wi vi]|x] & st1 & s1 & R1 & H1 & E1).
  2: { do 3 eexists. split; [unfold sbind at 1; eapply runs_bind; [exact R1|apply runs_ret]|done]. }
  destruct (pipe_if_runs s (eq_int o PIPE) _ o _ _ (or_intror eq_refl) H1) as ([[wo vo]|x] & st2 & s2 & R2 & H2 & E2).
  2: { do 3 eexists. split; [unfold sbind at 1; eapply runs_bind; [exact R1|];
         unfold sbind at 1; eapply runs_bind; [exact R2|apply runs_ret]|done]. }
  assert (exists r st3 s3, run ((if eq_int e STDOUT then sret (None, if is_None vo then e else vo)
      else pipe_if (eq_int e PIPE) pipe_from_child_output e) st2) s2 (r, st3) s3 /\ holds s st3 s3 /\
    match r with
    | Ok (w, _) => cleanup_on_fail st3 = (CloseStream <$> option_list w) ++ cleanup_on_fail st2
    | Err _ => True
    end) as ([[we ve]|x] & st3 & s3 & R3 & H3 & E3).
  { destruct (eq_int e STDOUT); [do 3 eexists; split; [apply runs_ret|by split]|].
    apply pipe_if_runs; [by right|done]. }
  2: { do 3 eexists. split; [unfold sbind at 1; eapply runs_bind; [exact R1|];
         unfold sbind at 1; eapply runs_bind; [exact R2|];
         unfold sbind at 1; eapply runs_bind; [exact R3|apply runs_ret]|done]. }
  destruct (fail (pf_tick s3)) as [x|] eqn:Hx.
  - exists (Err x), st3, (tick s3). split; [|by apply holds_tick].
    unfold sbind at 1; eapply runs_bind; [exact R1|]. unfold sbind at 1; eapply runs_bind; [exact R2|].
    unfold sbind at 1; eapply runs_bind; [exact R3|]. unfold sbind at 1, slift.
    eapply runs_bind; [eapply runs_bind; [apply runs_pcall; simpl; by rewrite Hx|apply runs_ret]|apply runs_ret].
  - eexists (Ok (0, wi, wo, we)), _, (tick s3). split.
    + unfold sbind at 1; eapply runs_bind; [exact R1|]. unfold sbind at 1; eapply runs_bind; [exact R2|].
      unfold sbind at 1; eapply runs_bind; [exact R3|]. unfold sbind at 1, slift.
      eapply runs_bind; [eapply runs_bind; [apply runs_pcall; simpl; by rewrite Hx|apply runs_ret]|].
      simpl. unfold sbind. eapply runs_bind; apply runs_ret.
    + split; [done|]. simpl. apply holds_tick. rewrite E2, E1 in E3. simpl in E3.
      rewrite app_nil_r in E3. rewrite !fmap_app, <- E3. by destruct st3.
Qed.

(** Closing what the stacks hold leads back to where the body started. *)
Lemma holds_close_all s0 st s : fresh s0 -> holds s0 st s ->
  pf_fds s ∖ raws (cleanup_on_fail st) ∖ raws (always_cleanup st) = pf_fds s0 /\
  pf_streams s ∖ owneds (cleanup_on_fail st) ∖ owneds (always_cleanup st) = pf_streams s0 ∪ ∅.
Proof.
  intros [Hf1 Hf2] [_ _ Hfds Hst Hra Ho [Hk1 Hk2]]. rewrite Hfds, Hst, Hk1, Hk2.
  assert (forall y, y ∈ pf_fds s0 -> y ∉ raws (always_cleanup st)).
  { intros y Hy%Hf1 Hin%Hra. lia. }
  assert (forall y, y ∈ pf_streams s0 -> y ∉ owneds (cleanup_on_fail st)).
  { intros y Hy%Hf2 Hin%Ho. lia. }
  split; set_solver.
Qed.

Lemma holds_close_always s0 st l s : fresh s0 -> holds s0 (mkStacks (always_cleanup st) (CloseStream <$> l)) s ->
  pf_fds s ∖ raws [] ∖ raws (always_cleanup st) = pf_fds s0 /\
  pf_streams s ∖ owneds [] ∖ owneds (always_cleanup st) = pf_streams s0 ∪ list_to_set l.
Proof.
  intros [Hf1 Hf2] [_ _ Hfds Hst Hra Ho [Hk1 Hk2]]. simpl in *. rewrite Hfds, Hst, Hk1, owneds_streams.
  assert (forall y, y ∈ pf_fds s0 -> y ∉ raws (always_cleanup st)).
  { intros y Hy%Hf1 Hin%Hra. lia. }
  unfold raws at 2, owneds. simpl. split; set_solver.
Qed.

End Open.

