(* ===== verification/ProcessWait.v ===== *)
(** * Waiting for a child

    Any number of tasks wait for the same process, interleaved in any way and cancelled where they
    wait: each gets the exit status, the exit descriptor is closed once, and the blocking
    [Popen.wait] is only called when the child has exited. *)

From stdpp Require Import base numbers list gmap sets strings.
From Stdlib Require Import ZArith Lia.
From ITree Require Import ITree ITreeFacts.
From S2P Require Import Prelude Coro Os Subprocess.

Open Scope tonio_scope.
Open Scope nat_scope.
#[local] Set Warnings "-clear-no-such-hyp".

(** ** The shared state *)

(** Whether the child has exited, what [Popen] has recorded, the attribute [_pidfd], how often the
    descriptor was closed, and whether the lock is held. *)
Record wst := mkW {
  w_exit : bool; w_rc : option Z; w_pidfd : option nat; w_closes : nat; w_held : bool
}.

Definition w_init : wst := mkW false None (Some 0) 0 false.

Definition exited (s : wst) : wst := mkW true (w_rc s) (w_pidfd s) (w_closes s) (w_held s).
Definition reaped (code : Z) (s : wst) : wst :=
  mkW true (Some code) (w_pidfd s) (w_closes s) (w_held s).
Definition with_lock_held (b : bool) (s : wst) : wst :=
  mkW (w_exit s) (w_rc s) (w_pidfd s) (w_closes s) b.

(** The child exits with [code] at some moment: an operation that looks may be the first to find
    it has.  [Popen.wait] blocks the thread until then. *)
Definition wait_sem (canc : bool) (code : Z) (X : Type) (tid : nat) (e : prE X) (s : wst) (x : X)
    (s' : wst) : Prop :=
  match e in prE X return X -> Prop with
  | PPoll _ => fun x => x = Some code /\ s' = reaped code s \/
      x = None /\ w_rc s = None /\ w_exit s = false /\ s' = s
  | PPopenWait _ => fun x => w_exit s = true /\ x = Ok code /\ s' = reaped code s
  | PReturncode _ => fun x => x = w_rc s /\ s' = s
  | PGetPidfd _ => fun x => x = w_pidfd s /\ s' = s
  | PSetPidfd _ fd => fun _ => s' = mkW (w_exit s) (w_rc s) fd (w_closes s) (w_held s)
  | PProcFdClose _ => fun _ => s' = mkW (w_exit s) (w_rc s) (w_pidfd s) (S (w_closes s)) (w_held s)
  | PArm _ => fun x => (exists w, x = Some w) /\ s' = s \/ x = None /\ s' = exited s
  | PAwait _ => fun x => x = Ok tt /\ s' = exited s \/ canc = true /\ x = Err CancelledError /\ s' = s
  | PLock _ => fun x => x = Ok tt /\ w_held s = false /\ s' = with_lock_held true s \/
      canc = true /\ x = Err CancelledError /\ s' = s
  | PUnlock _ => fun _ => s' = with_lock_held false s
  | _ => fun _ => False
  end x.

(** ** Control points *)

Inductive wphase : Type :=
| K0 | K1 | K2 | K3 (fd : nat) | K4 | K5 | K6 (fd : nat) | K7 (w : nat) | K8
| K9 (r : result unit) | K10 | KF (r : result (option Z)).

Definition unlocked (r : result unit) : wphase := match r with Ok _ => K10 | Err e => KF (Err e) end.

Definition w_head (p : wphase) (K : forall X, prE X -> (X -> wphase) -> Prop) : Prop :=
  match p with
  | K0 => K _ (PLock 0) (fun x => match x with Ok _ => K1 | Err e => KF (Err e) end)
  | K1 => K _ (PPoll 0) (fun x => match x with Some _ => K2 | None => K5 end)
  | K2 => K _ (PGetPidfd 0) (fun x => match x with Some fd => K3 fd | None => K9 (Ok tt) end)
  | K3 fd => K _ (PProcFdClose fd) (fun _ => K4)
  | K4 => K _ (PSetPidfd 0 None) (fun _ => K9 (Ok tt))
  | K5 => K _ (PGetPidfd 0) (fun x => match x with
      | Some fd => K6 fd | None => K9 (Err (AttributeError "_io_arm_r")) end)
  | K6 fd => K _ (PArm fd) (fun x => match x with Some w => K7 w | None => K8 end)
  | K7 w => K _ (PAwait w) (fun x => match x with Ok _ => K8 | Err e => K9 (Err e) end)
  | K8 => K _ (PPopenWait 0) (fun x => match x with Ok _ => K2 | Err e => K9 (Err e) end)
  | K9 r => K _ (PUnlock 0) (fun _ => unlocked r)
  | K10 => K _ (PReturncode 0) (fun x => KF (Ok x))
  | KF _ => False
  end.

Definition k10 : pyM prE (option Z) := Vis (PReturncode 0) (fun x => Ret (Ok x)).
Definition k9 (r : result unit) : pyM prE (option Z) :=
  Vis (PUnlock 0) (fun _ => match r with Ok _ => k10 | Err e => Ret (Err e) end).
Definition k4 : pyM prE (option Z) := Vis (PSetPidfd 0 None) (fun _ => k9 (Ok tt)).
Definition k3 (fd : nat) : pyM prE (option Z) := Vis (PProcFdClose fd) (fun _ => k4).
Definition k2 : pyM prE (option Z) :=
  Vis (PGetPidfd 0) (fun x : option nat => match x with Some fd => k3 fd | None => k9 (Ok tt) end).
Definition k8 : pyM prE (option Z) :=
  Vis (PPopenWait 0) (fun x : result Z => match x with Ok _ => k2 | Err e => k9 (Err e) end).
Definition k7 (w : nat) : pyM prE (option Z) :=
  Vis (PAwait w) (fun x : result unit => match x with Ok _ => k8 | Err e => k9 (Err e) end).
Definition k6 (fd : nat) : pyM prE (option Z) :=
  Vis (PArm fd) (fun x : option nat => match x with Some w => k7 w | None => k8 end).
Definition k5 : pyM prE (option Z) :=
  Vis (PGetPidfd 0) (fun x : option nat => match x with
    | Some fd => k6 fd | None => k9 (Err (AttributeError "_io_arm_r")) end).
Definition k1 : pyM prE (option Z) :=
  Vis (PPoll 0) (fun x : option Z => match x with Some _ => k2 | None => k5 end).

Definition w_tree (p : wphase) : pyM prE (option Z) :=
  match p with
  | K0 => Process_wait 0
  | K1 => k1 | K2 => k2 | K3 fd => k3 fd | K4 => k4 | K5 => k5 | K6 fd => k6 fd | K7 w => k7 w
  | K8 => k8 | K9 r => k9 r | K10 => k10 | KF r => Ret r
  end.

(** What is left when the body of the [with] block stands at [c]. *)
Definition under_lock (c : pyM prE unit) : pyM prE (option Z) :=
  pfinally c (pop (PUnlock 0)) ;;; pop (PReturncode 0).

Lemma under_lock_ret r : under_lock (Ret r) ≅ k9 r.
Proof.
  unfold under_lock, pfinally, pbind. rewrite bind_ret_l, bind_bind, bind_pop. apply eqit_Vis.
  intros []. rewrite bind_ret_l. destruct r; [|done]. unfold pop. by rewrite bind_trigger.
Qed.

Lemma under_lock_pop {X} (e : prE X) k :
  under_lock (pbind (pop e) k) ≅ Vis e (fun x => under_lock (k x)).
Proof.
  unfold under_lock, pfinally. rewrite pbind_pop, bind_vis. unfold pbind at 1. by rewrite bind_vis.
Qed.

Lemma under_lock_pcall {A} (e : prE (result A)) k :
  under_lock (pbind (pcall e) k) ≅
  Vis e (fun r : result A => match r with Ok a => under_lock (k a) | Err x => under_lock (praise x) end).
Proof.
  unfold under_lock, pfinally. rewrite pbind_pcall, bind_vis. unfold pbind at 1. rewrite bind_vis.
  apply eqit_Vis. by intros [].
Qed.

#[local] Instance under_lock_proper : Proper (eq_itree eq ==> eq_itree eq) under_lock.
Proof. intros c c' Hc. unfold under_lock, pfinally. by rewrite Hc. Qed.

Lemma close_pidfd_eq : under_lock (close_pidfd 0) ≅ k2.
Proof.
  unfold close_pidfd. rewrite under_lock_pop. apply eqit_Vis. intros [fd|]; [|apply under_lock_ret].
  rewrite under_lock_pop. apply eqit_Vis. intros [].
  assert (pop (PSetPidfd 0 None) ≅ pop (PSetPidfd 0 None) ;;; pret tt) as ->.
  { rewrite pbind_pop. unfold pop. rewrite bind_trigger. apply eqit_Vis. by intros []. }
  rewrite under_lock_pop. apply eqit_Vis. intros []. apply under_lock_ret.
Qed.

Lemma close_then_eq {A} (a : A) (k : A -> pyM prE unit) : k a ≅ pret tt ->
  under_lock (let! x := (close_pidfd 0 ;;; pret a) in k x) ≅ k2.
Proof.
  intros Hk. rewrite <- close_pidfd_eq. apply under_lock_proper.
  unfold close_pidfd. rewrite pbind_assoc, pbind_assoc. rewrite !pbind_pop.
  apply eqit_Vis. intros [fd|].
  - rewrite pbind_assoc. rewrite (pbind_pop _ (fun _ => pop (PSetPidfd 0 None))), pbind_pop.
    apply eqit_Vis. intros [].
    rewrite pbind_pop. unfold pop. rewrite bind_trigger. apply eqit_Vis. intros [].
    by rewrite pbind_pret, Hk.
  - by rewrite pbind_pret, pbind_pret, Hk.
Qed.

Lemma process_wait_eq : Process_wait 0 ≅
  Vis (PLock 0) (fun x : result unit => match x with Ok _ => k1 | Err e => Ret (Err e) end).
Proof.
  unfold Process_wait. rewrite pbind_pcall. apply eqit_Vis. intros [[]|e]; [|done].
  change (under_lock (wait_exit 0) ≅ k1). unfold wait_exit, Process_poll, Process_returncode.
  rewrite pbind_assoc, under_lock_pop. apply eqit_Vis. intros [c|].
  - by apply close_then_eq.
  - do 2 rewrite pbind_pret. rewrite under_lock_pop. apply eqit_Vis.
    intros [fd|]; [|apply under_lock_ret]. rewrite under_lock_pop. apply eqit_Vis.
    assert (under_lock (pcall (PPopenWait 0) ;;; close_pidfd 0) ≅ k8) as H8.
    { rewrite under_lock_pcall. apply eqit_Vis. intros [c|e]; [apply close_pidfd_eq|apply under_lock_ret]. }
    intros [w|].
    + rewrite under_lock_pcall. apply eqit_Vis. intros [[]|e]; [apply H8|apply under_lock_ret].
    + rewrite pbind_pret. apply H8.
Qed.

Lemma unlocked_tree r : w_tree (unlocked r) = match r with Ok _ => k10 | Err e => Ret (Err e) end.
Proof. by destruct r. Qed.

Lemma w_heads p : heads_ok w_tree w_head p.
Proof.
  destruct p; try (left; eexists; split; [simpl; reflexivity|by intros K HK]); right; do 3 eexists;
    (split; [|by intros K; split; intros HK; exact HK]); simpl; try done.
  - rewrite process_wait_eq. apply eqit_Vis. by intros [].
  - apply eqit_Vis. by intros [].
  - apply eqit_Vis. by intros [].
  - apply eqit_Vis. by intros [].
  - apply eqit_Vis. by intros [].
  - apply eqit_Vis. by intros [].
  - apply eqit_Vis. by intros [].
  - apply eqit_Vis. intros []. by rewrite unlocked_tree.
Qed.

(** ** The invariant *)

(** Holding the lock. *)
Definition inside (p : wphase) : bool :=
  match p with K0 | K10 | KF _ => false | _ => true end.

Definition w_at (canc : bool) (code : Z) (p : wphase) (s : wst) : Prop :=
  match p with
  | K0 | K1 => True
  | K2 => w_rc s = Some code
  | K3 fd => w_rc s = Some code /\ w_pidfd s = Some fd /\ w_closes s = 0
  | K4 => w_rc s = Some code /\ is_Some (w_pidfd s) /\ w_closes s = 1
  | K5 | K6 _ | K7 _ => w_rc s = None /\ is_Some (w_pidfd s)
  | K8 => w_exit s = true /\ is_Some (w_pidfd s)
  | K9 r => match r with Ok _ => w_rc s = Some code | Err e => canc = true /\ e = CancelledError end
  | K10 => w_rc s = Some code
  | KF r => r = Ok (Some code) \/ canc = true /\ r = Err CancelledError
  end.

Record w_inv (canc : bool) (code : Z) (ps : list wphase) (s : wst) : Prop := {
  wi_lock : countb inside ps = if w_held s then 1 else 0;
  wi_rc : w_rc s = None \/ w_rc s = Some code /\ w_exit s = true;
  wi_closed : w_pidfd s = None -> w_rc s = Some code;
  wi_closes : w_closes s <= 1 /\ (is_Some (w_pidfd s) -> (forall i, ps !! i <> Some K4) -> w_closes s = 0);
  wi_at : forall i p, ps !! i = Some p -> w_at canc code p s
}.

Section WaitInv.
Context (canc : bool) (code : Z).

#[local] Abbreviation step := (head_step (wait_sem canc code) w_head).

(** Tasks outside the lock do not touch what those inside rely on. *)
Lemma w_inside_unique ps s i j p q : w_inv canc code ps s -> ps !! i = Some p -> ps !! j = Some q ->
  inside p = true -> inside q = true -> i = j.
Proof.
  intros Hi Hp Hq Hip Hiq. eapply (countb_le1_unique inside ps); eauto.
  rewrite (wi_lock _ _ _ _ Hi). destruct (w_held s); lia.
Qed.

Lemma w_held_inside ps s i p : w_inv canc code ps s -> ps !! i = Some p -> inside p = true -> w_held s = true.
Proof.
  intros Hi Hp Hip. pose proof (countb_lookup_pos inside ps i p Hp Hip) as Hc.
  rewrite (wi_lock _ _ _ _ Hi) in Hc. destruct (w_held s); [done|lia].
Qed.

Lemma w_at_outside q s s' : inside q = false -> (w_rc s = Some code -> w_rc s' = Some code) ->
  w_at canc code q s -> w_at canc code q s'.
Proof. destruct q; simpl; intros; try done; auto. Qed.

(** A step taken under the lock. *)
Lemma w_inside_step ps s i p p' s' :
  w_inv canc code ps s -> ps !! i = Some p -> inside p = true ->
  w_held s' = inside p' -> (w_rc s = Some code -> w_rc s' = Some code) ->
  (w_rc s' = None \/ w_rc s' = Some code /\ w_exit s' = true) ->
  (w_pidfd s' = None -> w_rc s' = Some code) ->
  (w_closes s' <= 1 /\ (is_Some (w_pidfd s') -> p' <> K4 -> w_closes s' = 0)) ->
  w_at canc code p' s' -> w_inv canc code (<[i:=p']> ps) s'.
Proof.
  intros Hi Hp Hin Hh Hrc Hrc' Hcl [Hc1 Hc2] Hat. pose proof (lookup_lt_Some _ _ _ Hp) as Hlt.
  split; [|done|done| |].
  - pose proof (countb_insert inside ps i p p' Hp) as Hc. pose proof (w_held_inside _ _ _ _ Hi Hp Hin) as Hh0.
    rewrite (wi_lock _ _ _ _ Hi), Hh0, Hin in Hc. rewrite Hh. destruct (inside p'); lia.
  - split; [done|]. intros Hs Hno. apply Hc2; [done|]. intros ->. apply (Hno i).
    by rewrite list_lookup_insert_eq.
  - intros j q [(-> & -> & _)|[Hne Hj]]%list_lookup_insert_Some; [done|].
    eapply w_at_outside; [|exact Hrc|by eapply (wi_at _ _ _ _ Hi)].
    destruct (inside q) eqn:Hq; [|done]. destruct Hne. by eapply w_inside_unique.
Qed.

(** A step taken outside the lock: to take it, or to look at the status. *)
Lemma w_outside_step ps s i p p' (b : bool) :
  w_inv canc code ps s -> ps !! i = Some p -> p <> K4 -> p' <> K4 ->
  (if b then 1 else 0) + (if inside p then 1 else 0) = countb inside ps + (if inside p' then 1 else 0) ->
  w_at canc code p' s -> w_inv canc code (<[i:=p']> ps) (with_lock_held b s).
Proof.
  intros Hi Hp Hk Hk' Hb Hat. pose proof (lookup_lt_Some _ _ _ Hp) as Hlt.
  assert (forall q, w_at canc code q s -> w_at canc code q (with_lock_held b s)) as Hheld by by intros [].
  destruct Hi as [Hlo Hrc Hcl [Hc1 Hc2] Hall]. split; [|done|done| |].
  - pose proof (countb_insert inside ps i p p' Hp). simpl. lia.
  - split; [done|]. intros Hs Hno. apply Hc2; [done|]. intros j Hj. apply (Hno j).
    rewrite list_lookup_insert_ne; [done|]. intros ->. congruence.
  - intros j q [(-> & -> & _)|[Hne Hj]]%list_lookup_insert_Some; [by apply Hheld|]. by eapply Hheld, Hall.
Qed.

Lemma w_closes_at ps s i p : w_inv canc code ps s -> ps !! i = Some p -> inside p = true -> p <> K4 ->
  is_Some (w_pidfd s) -> w_closes s = 0.
Proof.
  intros Hi Hp Hin Hne Hs. apply (wi_closes _ _ _ _ Hi); [done|]. intros j Hj.
  assert (i = j) as -> by by eapply w_inside_unique. congruence.
Qed.

Lemma w_inv_step ps s i p p' s' : w_inv canc code ps s -> ps !! i = Some p -> step i s p p' s' ->
  w_inv canc code (<[i:=p']> ps) s'.
Proof.
  intros Hi Hp Hs. pose proof (wi_at _ _ _ _ Hi _ _ Hp) as Hat.
  pose proof (w_held_inside _ _ _ _ Hi Hp) as Hh. pose proof (w_closes_at _ _ _ _ Hi Hp) as Hcl.
  pose proof Hi as [Hlo Hrc Hcd [Hc1 _] _].
  destruct p; unfold head_step in Hs; simpl in Hs; try done; destruct Hs as (a & Ha & Hp'); simpl in *.
  - destruct Ha as [(-> & Hf & ->)|(Hc & -> & ->)]; subst p'.
    + eapply w_outside_step; [done|done|done|done| |done]. rewrite Hlo, Hf. done.
    + replace s with (with_lock_held (w_held s) s) by by destruct s.
      eapply w_outside_step; [done|done|done|done| |by right]. simpl. rewrite Hlo. lia.
  - destruct Ha as [(-> & ->)|(-> & Hn & He & ->)]; subst p'.
    + eapply w_inside_step; [done|done|done|..]; simpl; eauto.
    + eapply w_inside_step; [done|done|done|..]; simpl; eauto.
      split; [done|]. destruct (w_pidfd s); [by eexists|]. by specialize (Hcd eq_refl); congruence.
  - destruct Ha as [-> ->]. subst p'. destruct (w_pidfd s) as [fd|] eqn:Hfd;
      (eapply w_inside_step; [done|done|done|..]); simpl; rewrite ?Hfd; eauto.
  - subst. destruct Hat as (? & Hfd & Hz).
    eapply w_inside_step; [done|done|done|..]; simpl; eauto.
    all: first [split; [lia|done]|split_and!; [done|rewrite Hfd; by eexists|lia]].
  - subst. destruct Hat as (? & Hfd & Hz). eapply w_inside_step; [done|done|done|..]; simpl; eauto.
    split; [lia|]. by intros [].
  - destruct Ha as [-> ->], Hat as [? [fd Hfd]]. subst p'. rewrite Hfd.
    eapply w_inside_step; [done|done|done|..]; simpl; eauto.
  - destruct Ha as [[(w & ->) ->]|[-> ->]], Hat as [? ?]; subst p';
      (eapply w_inside_step; [done|done|done|..]); simpl; eauto.
  - destruct Ha as [[-> ->]|(? & -> & ->)], Hat as [? ?]; subst p';
      (eapply w_inside_step; [done|done|done|..]); simpl; eauto.
  - destruct Ha as (? & -> & ->), Hat as [? ?]. subst p'.
    eapply w_inside_step; [done|done|done|..]; simpl; eauto.
  - subst. assert (countb inside ps = 1) as H1 by by rewrite Hlo, Hh.
    eapply w_outside_step; [done|done|done|by destruct r| |].
    + rewrite H1. by destruct r.
    + destruct r as [[]|e]; simpl; [done|]. destruct Hat as [? ->]. by right.
  - destruct Ha as [-> ->]. subst p'. replace s with (with_lock_held (w_held s) s) at 2 by by destruct s.
    eapply w_outside_step; [done|done|done|done| |]; [simpl; rewrite Hlo; lia|]. left. by rewrite Hat.
Qed.
End WaitInv.

(** ** The theorem *)

Definition w_rank (p : wphase) : nat :=
  match p with
  | K0 => 11 | K1 => 10 | K5 => 9 | K6 _ => 8 | K7 _ => 7 | K8 => 6 | K2 => 5 | K3 _ => 4 | K4 => 3
  | K9 _ => 2 | K10 => 1 | KF _ => 0
  end.

Lemma w_rank_step canc code i s p p' s' :
  head_step (wait_sem canc code) w_head i s p p' s' -> w_rank p' < w_rank p.
Proof.
  destruct p; unfold head_step; simpl; try done; intros (a & Ha & ->);
    try (destruct a; simpl; lia); simpl; try lia. destruct r; simpl; lia.
Qed.

Lemma w_enabled canc code ps s i p : w_inv canc code ps s -> ps !! i = Some p ->
  (forall r, p <> KF r) -> (p = K0 -> w_held s = false) ->
  exists p' s', head_step (wait_sem canc code) w_head i s p p' s'.
Proof.
  intros Hi Hp Hf Hl. pose proof (wi_at _ _ _ _ Hi _ _ Hp) as Hat.
  destruct p; unfold head_step; simpl in *; try (by destruct (Hf r)).
  - do 2 eexists. exists (Ok tt). split; [left; by split_and!; [|apply Hl|]|done].
  - do 2 eexists. exists (Some code). split; [by left|done].
  - do 2 eexists. eexists. by split.
  - do 2 eexists. exists tt. by split.
  - do 2 eexists. exists tt. by split.
  - do 2 eexists. eexists. by split.
  - do 2 eexists. exists None. split; [by right|done].
  - do 2 eexists. exists (Ok tt). split; [by left|done].
  - destruct Hat. do 2 eexists. exists (Ok code). by split_and!.
  - do 2 eexists. exists tt. by split.
  - do 2 eexists. eexists. by split.
Qed.

Definition wait_stuck (canc : bool) (code : Z) (c : list (pyM prE (option Z)) * wst) : Prop :=
  forall c', ~ pstep (wait_sem canc code) c c'.

Lemma w_stuck_done canc code ps ts s : w_inv canc code ps s -> at_phases w_tree ts ps ->
  wait_stuck canc code (ts, s) -> forall i p, ps !! i = Some p -> exists r, p = KF r.
Proof.
  intros Hi Hat Hst.
  assert (forall i p, ps !! i = Some p -> (p = K0 -> w_held s = false) -> exists r, p = KF r) as Hone.
  { intros i p Hp Hl. destruct (at_phases_lookup_r _ _ _ _ _ Hat Hp) as (t & Ht & Hpt).
    destruct p; eauto; exfalso;
      (destruct (w_enabled canc code ps s i _ Hi Hp) as (p' & s' & Hs); [done|done|];
       destruct (head_step_enabled _ _ _ w_heads _ _ _ _ _ _ Hpt Hs) as [t' Ht'];
       eapply Hst, pstep_task; eauto). }
  intros i p Hp. apply (Hone i p Hp). intros ->. pose proof (wi_lock _ _ _ _ Hi) as Hlo.
  destruct (w_held s) eqn:Hh; [|done]. destruct (countb_pos_inv inside ps) as (j & q & Hj & Hq); [lia|].
  destruct (Hone j q Hj) as [r ->]; [by intros ->|done].
Qed.

(** The control point at the blocking call. *)
Definition at_blocking {R T} (o : itreeF prE R T) : bool :=
  match o with VisF e _ => match e with PPopenWait _ => true | _ => false end | _ => false end.

Lemma at_popen_wait p k : w_tree p ≅ Vis (PPopenWait 0) k -> p = K8.
Proof.
  intros (k' & Ho & _)%eqitree_inv_Vis_r. apply (f_equal at_blocking) in Ho.
  destruct p; first [done|discriminate Ho].
Qed.


(** Two tasks wait; the child exits while the first one is suspended. *)
Lemma process_wait_run : exists ts s,
  reachable (wait_sem false 3) (replicate 2 (Process_wait 0), w_init) (ts, s) /\
  Forall (fun t => t ≅ Ret (Ok (Some 3%Z))) ts.
Proof.
  do 2 eexists. split.
  - cbn [replicate]. pool_answer 0 (Ok tt : result unit). pool_answer 0 (None : option Z).
    pool_step 0. pool_answer 0 (Some 0 : option nat). pool_answer 0 (Ok tt : result unit).
    pool_answer 0 (Ok 3%Z : result Z). do 5 pool_step 0.
    pool_answer 1 (Ok tt : result unit). pool_answer 1 (Some 3%Z : option Z). do 3 pool_step 1.
    apply reachable_init.
  - repeat apply Forall_cons_2; [..|apply Forall_nil_2]; apply eq_obs_Ret; reflexivity.
Qed.


(** [poll] (or [returncode]) in another task: it may find that the child has exited, and take the
    exit descriptor away, between the moment [wait] found it running and the moment it arms the
    descriptor; [wait] then raises [AttributeError]. *)
Theorem process_wait_races_poll : exists ts s,
  reachable (wait_sem false 3) ([Process_wait 0; Process_poll 0], w_init) (ts, s) /\
  exists t, ts !! 0 = Some t /\ t ≅ Ret (Err (AttributeError "_io_arm_r")).
Proof.
  do 2 eexists. split.
  - pool_answer 0 (Ok tt : result unit). pool_answer 0 (None : option Z).
    pool_answer 1 (Some 3%Z : option Z). do 3 pool_step 1. do 2 pool_step 0. apply reachable_init.
  - eexists. split; [reflexivity|]. apply eq_obs_Ret. reflexivity.
Qed.
