(* ===== verification/RunProcess.v ===== *)
(** * What [run_process] returns

    The tasks that feed and read the child, and what is made of their results. *)

From stdpp Require Import base numbers list gmap sets strings.
From Stdlib Require Import ZArith Lia.
From ITree Require Import ITree ITreeFacts.
From S2P Require Import Prelude Coro Os Subprocess.

Open Scope tonio_scope.
#[local] Set Warnings "-clear-no-such-hyp".

(** ** A child *)

(** What the child will still write to each output, what was collected of it, what it was fed, the
    streams that were closed, the tasks given to [spawn], and the status [Popen] has recorded. *)
Record child := mkChild {
  ch_out : list bytes; ch_err : list bytes; ch_got_out : list bytes; ch_got_err : list bytes;
  ch_fed : list pyobj; ch_closed : list nat; ch_tasks : list ptask; ch_rc : option Z
}.

Definition left (err : bool) (c : child) : list bytes := if err then ch_err c else ch_out c.
Definition got (err : bool) (c : child) : list bytes := if err then ch_got_err c else ch_got_out c.

Definition set_left (err : bool) (l : list bytes) (c : child) : child :=
  if err then mkChild (ch_out c) l (ch_got_out c) (ch_got_err c) (ch_fed c) (ch_closed c) (ch_tasks c) (ch_rc c)
  else mkChild l (ch_err c) (ch_got_out c) (ch_got_err c) (ch_fed c) (ch_closed c) (ch_tasks c) (ch_rc c).
Definition set_got (err : bool) (l : list bytes) (c : child) : child :=
  if err then mkChild (ch_out c) (ch_err c) (ch_got_out c) l (ch_fed c) (ch_closed c) (ch_tasks c) (ch_rc c)
  else mkChild (ch_out c) (ch_err c) l (ch_got_err c) (ch_fed c) (ch_closed c) (ch_tasks c) (ch_rc c).
Definition fed (d : pyobj) (c : child) : child :=
  mkChild (ch_out c) (ch_err c) (ch_got_out c) (ch_got_err c) (ch_fed c ++ [d]) (ch_closed c) (ch_tasks c) (ch_rc c).
Definition closed (x : nat) (c : child) : child :=
  mkChild (ch_out c) (ch_err c) (ch_got_out c) (ch_got_err c) (ch_fed c) (ch_closed c ++ [x]) (ch_tasks c) (ch_rc c).
Definition set_tasks (l : list ptask) (c : child) : child :=
  mkChild (ch_out c) (ch_err c) (ch_got_out c) (ch_got_err c) (ch_fed c) (ch_closed c) l (ch_rc c).
Definition set_rc (n : Z) (c : child) : child :=
  mkChild (ch_out c) (ch_err c) (ch_got_out c) (ch_got_err c) (ch_fed c) (ch_closed c) (ch_tasks c) (Some n).

(** What a task does to the child and the lists of chunks; [broken]: the child closed its input. *)
Definition task_effect (broken : bool) (t : ptask) (c : child) : child :=
  match t with
  | FeedInput s d => closed s (if broken then c else fed d c)
  | ReadOutput s err => closed s (set_left err [] (set_got err (got err c ++ left err c) c))
  end.

(** Stream 2 carries the standard error, stream 1 the standard output.  The child exits with
    [code]; the first look at it finds it running when [early] is false.  The tasks given to
    [spawn] have done their work when the join returns. *)
Definition run_handler (code : Z) (early broken : bool) (X : Type) (e : prE X) (c : child)
    : option (X * child) :=
  match e in prE X return option (X * child) with
  | PSend _ d => Some (if broken then (Err (ResourceBroken None), c) else (Ok tt, fed d c))
  | PReceive s => Some (
      let err := (s =? 2)%nat in
      match left err c with [] => (Ok [], c) | b :: l => (Ok b, set_left err l c) end)
  | PAppend err b => Some (tt, set_got err (got err c ++ [b]) c)
  | PChunks err => Some (got err c, c)
  | PCloseStream s => Some (Ok tt, closed s c)
  | PSpawn l => Some (0, set_tasks l c)
  | PJoin _ => Some (Ok tt, foldl (fun c t => task_effect broken t c) c (ch_tasks c))
  | PPoll _ => Some (
      match ch_rc c with
      | Some n => (Some n, c)
      | None => if early then (Some code, set_rc code c) else (None, c)
      end)
  | PPopenWait _ => Some (Ok code, set_rc code c)
  | PReturncode _ => Some (ch_rc c, c)
  | PGetPidfd _ => Some (Some 0, c)
  | PSetPidfd _ _ => Some (tt, c)
  | PProcFdClose _ => Some (tt, c)
  | PArm _ => Some (Some 0, c)
  | PAwait _ => Some (Ok tt, c)
  | PLock _ => Some (Ok tt, c)
  | PUnlock _ => Some (tt, c)
  | _ => None
  end.

(** A reader of the right stream, and chunks as [os.read] gives them: empty only at the end. *)
Definition task_ok (t : ptask) : Prop :=
  match t with FeedInput _ _ => True | ReadOutput s err => (s =? 2)%nat = err end.
Definition chunks_ok (c : child) : Prop := forall err b, b ∈ left err c -> b <> [].

Section Run.
Context (code : Z) (early broken : bool).

#[local] Abbreviation run := (runs (run_handler code early broken)).

(** The loop of [read_output] collects everything up to the end of the stream. *)
Lemma read_loop_runs s err c : (s =? 2)%nat = err -> chunks_ok c ->
  run (ploop
       (let! chunk := pcall (PReceive s) in
        match chunk with
        | [] => pret (Some tt)
        | _ => pop (PAppend err chunk) ;;; pret None
        end)) c (Ok tt) (set_left err [] (set_got err (got err c ++ left err c) c)).
Proof.
  intros Hs. remember (left err c) as l eqn:Hl. revert c Hl.
  induction l as [|b l IH]; intros c Hl Hok.
  - assert (set_left err [] (set_got err (got err c ++ []) c) = c) as ->.
    { rewrite app_nil_r. destruct c, err; simpl in *; by subst. }
    eapply runs_ploop_done, runs_pbind; [apply runs_pcall; simpl; rewrite Hs, <- Hl; reflexivity|].
    apply runs_pret.
  - assert (b <> []) as Hb by (apply (Hok err); rewrite <- Hl; by left).
    set (c1 := set_got err (got err c ++ [b]) (set_left err l c)).
    assert (set_left err [] (set_got err (got err c ++ b :: l) c) =
      set_left err [] (set_got err (got err c1 ++ left err c1) c1)) as ->.
    { unfold c1. destruct c, err; simpl; by rewrite <- app_assoc. }
    eapply runs_ploop_next; [eapply runs_pbind; [apply runs_pcall; simpl; rewrite Hs, <- Hl; reflexivity|]|].
    + destruct b as [|x b]; [done|]. eapply runs_pbind; [by apply runs_pop|]. apply runs_pret.
    + replace (set_got err _ _) with c1 by (unfold c1; destruct c, err; done).
      assert (left err c1 = l) as Hl1 by (unfold c1; destruct c, err; done).
      rewrite Hl1. apply IH; [done|]. intros err' b' Hb'. apply (Hok err').
      destruct (decide (err' = err)) as [->|Hne]; [rewrite <- Hl; right; by rewrite <- Hl1|].
      destruct c, err, err'; done.
Qed.

Lemma run_task_runs t c : task_ok t -> chunks_ok c -> run (run_task t) c (Ok tt) (task_effect broken t c).
Proof.
  intros Ht Hok. destruct t as [s d|s err]; simpl in *.
  - unfold feed_input. eapply runs_pfinally; [|by apply runs_pcall].
    destruct broken.
    + eapply runs_ptry_else_catch; [by apply runs_pcall|done|apply runs_pret].
    + eapply runs_ptry_else_ok; [by apply runs_pcall|apply runs_pret].
  - unfold read_output. eapply runs_pfinally; [by apply read_loop_runs|]. by apply runs_pcall.
Qed.

Lemma close_pidfd_runs p c : run (close_pidfd p) c (Ok tt) c.
Proof.
  eapply runs_pbind; [by apply runs_pop|]. eapply runs_pbind; by apply runs_pop.
Qed.

Lemma returncode_runs p c : ch_rc c = Some code -> run (Process_returncode p) c (Ok (Some code)) c.
Proof.
  intros Hc. eapply runs_pbind; [apply runs_pop; simpl; rewrite Hc; reflexivity|].
  eapply runs_pbind; [apply close_pidfd_runs|apply runs_pret].
Qed.

Lemma wait_runs p c : ch_rc c = None -> run (Process_wait p) c (Ok (Some code)) (set_rc code c).
Proof.
  intros Hc. eapply runs_pbind; [by apply runs_pcall|].
  eapply (runs_pbind _ _ _ _ tt (set_rc code c)); [|by apply runs_pop].
  eapply (runs_pfinally _ _ _ _ _ (set_rc code c) tt); [|by apply runs_pop]. unfold wait_exit, Process_poll, Process_returncode.
  assert (early = true \/ early = false) as [He|He] by (destruct early; auto).
  - eapply runs_pbind; [eapply runs_pbind; [apply runs_pop; simpl; rewrite Hc, He; reflexivity|];
      eapply runs_pbind; [apply close_pidfd_runs|apply runs_pret]|]. apply runs_pret.
  - eapply runs_pbind; [eapply runs_pbind; [apply runs_pop; simpl; rewrite Hc, He; reflexivity|];
      eapply runs_pbind; [apply runs_pret|apply runs_pret]|].
    eapply runs_pbind; [by apply runs_pop|]. eapply runs_pbind; [by apply runs_pop|].
    eapply runs_pbind; [by apply runs_pcall|]. eapply runs_pbind; [by apply runs_pcall|].
    apply close_pidfd_runs.
Qed.

Lemma captured_runs b err c :
  run (captured b err) c (Ok (if b then Some (concat (got err c)) else None)) c.
Proof.
  unfold captured. destruct b; [|apply runs_pret].
  eapply runs_pbind; [by apply runs_pop|apply runs_pret].
Qed.
End Run.

(** What [run_process] makes of the child's outputs and status. *)
Definition completed (code : Z) (check : bool) (stdout stderr : option bytes) : result CompletedProcess :=
  if negb (code =? 0)%Z && check then Err (CalledProcessError code stdout stderr)
  else Ok (mkCompleted (Some code) stdout stderr).


