(* ===== verification/File.v ===== *)
(** * Files

    [src/tonio/_fs/_file.py] and [src/tonio/_colored/_fs/_file.py]: the wrapper that gives a Python
    file object asynchronous methods, with the types declared for it, [open_file] with its
    overloads, and [wrap_file].  The file objects themselves are Python's: which attributes an
    object has, and which of them are callable, is a parameter. *)

From stdpp Require Import base numbers list gmap sets strings.
From Stdlib Require Import ZArith Lia Ascii.
From ITree Require Import ITree ITreeFacts.
From S2P Require Import Prelude Coro Os.

Open Scope tonio_scope.
Open Scope string_scope.

(** ** Which attributes are forwarded *)

Definition FILE_SYNC_ATTRS : list string :=
  ["closed"; "encoding"; "errors"; "fileno"; "isatty"; "newlines"; "readable"; "seekable"; "writable";
   "buffer"; "raw"; "line_buffering"; "closefd"; "name"; "mode"; "getvalue"; "getbuffer"].

Definition FILE_ASYNC_METHODS : list string :=
  ["close"; "flush"; "read"; "read1"; "readall"; "readinto"; "readline"; "readlines"; "seek"; "tell";
   "truncate"; "write"; "writelines"; "readinto1"; "peek"].

(** ** Operations on files *)

(** Calls of Python functions on the thread-pool: [io.open] and the methods of a file object. *)
Inductive fcall :=
| IoOpen (args : list pyobj)
| Meth (f : nat) (name : string) (args : list pyobj) (kwargs : list (string * pyobj)).

(** What such a call returns: a value, or a file object. *)
Inductive fret := RObj (o : pyobj) | RFile (f : nat).

(** [FBlocking c] is [yield spawn_blocking(..)]; [FGetAttr] reads an attribute of a file object;
    [FCall] calls one of its methods on the current thread. *)
Variant fileE : Type -> Type :=
| FBlocking (c : fcall) : fileE (result fret)
| FGetAttr (f : nat) (name : string) : fileE (result pyobj)
| FCall (f : nat) (name : string) (args : list pyobj) : fileE (result fret).

Section Files.
(** [attr f name]: whether object [f] has the attribute, and whether it is callable. *)
Context (attr : nat -> string -> option bool).

Definition hasattr (f : nat) (name : string) : bool := bool_decide (is_Some (attr f name)).

(** ** [IOWrapper] *)

(** The object wrapped, and the entries of the wrapper's own [__dict__]. *)
Record IOWrapper := mkIOWrapper { _wrapped : nat; cached : gset string }.

Definition IOWrapper_init (file : nat) : IOWrapper := mkIOWrapper file ∅.
Definition IOWrapper_wrapped (self : IOWrapper) : nat := _wrapped self.

(** What an attribute of a wrapper is: the file's own, or a function that runs the file's method
    on the thread-pool. *)
Inductive attrval := SyncAttr (f : nat) (name : string) | AsyncMeth (f : nat) (name : string).
#[global] Instance attrval_eq_dec : EqDecision attrval.
Proof. solve_decision. Defined.

(** [__getattr__], which Python calls when the name is not found otherwise. *)
Definition IOWrapper_getattr (self : IOWrapper) (name : string) : result attrval * IOWrapper :=
  if bool_decide (name ∈ FILE_SYNC_ATTRS) then
    (if hasattr (_wrapped self) name then Ok (SyncAttr (_wrapped self) name)
     else Err (AttributeError name), self)
  else if bool_decide (name ∈ FILE_ASYNC_METHODS) then
    if hasattr (_wrapped self) name then
      (Ok (AsyncMeth (_wrapped self) name), mkIOWrapper (_wrapped self) ({[name]} ∪ cached self))
    else (Err (AttributeError name), self)
  else (Err (AttributeError name), self).

(** Attribute access: the wrapper's [__dict__] first. *)
Definition access (self : IOWrapper) (name : string) : result attrval * IOWrapper :=
  if bool_decide (name ∈ cached self) then (Ok (AsyncMeth (_wrapped self) name), self)
  else IOWrapper_getattr self name.

(** Calling what [__getattr__] returned for an asynchronous method. *)
Definition call_method (f : nat) (name : string) (args : list pyobj) (kwargs : list (string * pyobj))
    : pyM fileE fret :=
  pcall (FBlocking (Meth f name args kwargs)).

(** [__dir__]: [base] is what the class itself defines. *)
Definition IOWrapper_dir (base : gset string) (self : IOWrapper) : gset string :=
  base ∪ list_to_set (filter (fun a => hasattr (_wrapped self) a = true) FILE_SYNC_ATTRS)
       ∪ list_to_set (filter (fun a => hasattr (_wrapped self) a = true) FILE_ASYNC_METHODS).

(** ** [wrap_file] and [open_file] *)

Definition has (file : nat) (a : string) : bool :=
  match attr file a with Some callable => callable | None => false end.

Definition wrap_file (file : nat) : result IOWrapper :=
  if negb (has file "close" && (has file "read" || has file "write"))
  then Err (TypeError "does not implement required duck-file methods: close and (read or write)")
  else Ok (IOWrapper_init file).

(** What a blocking call that gives a file object gives. *)
Definition as_file (r : fret) : result nat :=
  match r with RFile f => Ok f | RObj _ => Err (TypeError "does not implement required duck-file methods: close and (read or write)") end.

Definition wrap_ret (r : fret) : result IOWrapper :=
  match as_file r with Ok f => wrap_file f | Err e => Err e end.

Definition IOWrapper_detach (self : IOWrapper) : pyM fileE IOWrapper :=
  let! raw := pcall (FBlocking (Meth (_wrapped self) "detach" [] [])) in
  Ret (wrap_ret raw).

Definition open_file (file mode buffering encoding errors newline closefd opener : pyobj)
    : pyM fileE IOWrapper :=
  let! file_ := pcall (FBlocking (IoOpen [file; mode; buffering; encoding; errors; newline; closefd; opener])) in
  Ret (wrap_ret file_).

(** [with wrapper as f: ..] does not close the file. *)
Definition IOWrapper_enter (self : IOWrapper) : IOWrapper := self.
Definition IOWrapper_exit (self : IOWrapper) : unit := tt.
End Files.

(** ** The [async] API *)

Module ColoredFile.
Section ColoredFiles.
Context (attr : nat -> string -> option bool).

Definition IOWrapper_getattr (self : IOWrapper) (name : string) : result attrval * IOWrapper :=
  if bool_decide (name ∈ FILE_SYNC_ATTRS) then
    (if hasattr attr (_wrapped self) name then Ok (SyncAttr (_wrapped self) name)
     else Err (AttributeError name), self)
  else if bool_decide (name ∈ FILE_ASYNC_METHODS) then
    if hasattr attr (_wrapped self) name then
      (Ok (AsyncMeth (_wrapped self) name), mkIOWrapper (_wrapped self) ({[name]} ∪ cached self))
    else (Err (AttributeError name), self)
  else (Err (AttributeError name), self).

Definition access (self : IOWrapper) (name : string) : result attrval * IOWrapper :=
  if bool_decide (name ∈ cached self) then (Ok (AsyncMeth (_wrapped self) name), self)
  else IOWrapper_getattr self name.

(** A method of the wrapper: looked up, then called. *)
Definition call (self : IOWrapper) (name : string) (args : list pyobj) : pyM fileE fret :=
  match fst (access self name) with
  | Ok (AsyncMeth f n) => call_method f n args []
  | Ok (SyncAttr f n) => pcall (FCall f n args)
  | Err e => praise e
  end.

Definition IOWrapper_aenter (self : IOWrapper) : pyM fileE IOWrapper := pret self.
Definition IOWrapper_aexit (self : IOWrapper) : pyM fileE unit :=
  call self "close" [] ;;; pret tt.
Definition IOWrapper_aiter (self : IOWrapper) : IOWrapper := self.

(** A line that is empty ends the iteration. *)
Definition is_line (r : fret) : bool :=
  match r with
  | RObj (PStr s) => negb (String.eqb s "")
  | RObj (PBytes b) => bool_decide (b <> [])
  | RObj PNone => false
  | _ => true
  end.

Definition IOWrapper_anext (self : IOWrapper) : pyM fileE fret :=
  let! line := call self "readline" [] in
  if is_line line then pret line else praise StopAsyncIteration.

(** [async for line in wrapper: lines.append(line)]. *)
Definition async_for (self : IOWrapper) : list fret -> pyM fileE (list fret) :=
  pwhile (fun lines =>
    ptry_else (IOWrapper_anext (IOWrapper_aiter self))
      (fun e => match e with StopAsyncIteration => Some (pret (inr lines)) | _ => None end)
      (fun line => pret (inl (lines ++ [line])%list))).

(** [async with wrapper: body]. *)
Definition async_with {A} (self : IOWrapper) (body : pyM fileE A) : pyM fileE A :=
  IOWrapper_aenter self ;;; pfinally body (IOWrapper_aexit self).

Definition wrap_file (file : nat) : result IOWrapper :=
  if negb (has attr file "close" && (has attr file "read" || has attr file "write"))
  then Err (TypeError "does not implement required duck-file methods: close and (read or write)")
  else Ok (IOWrapper_init file).

Definition wrap_ret (r : fret) : result IOWrapper :=
  match as_file r with Ok f => wrap_file f | Err e => Err e end.

Definition IOWrapper_detach (self : IOWrapper) : pyM fileE IOWrapper :=
  let! raw := pcall (FBlocking (Meth (_wrapped self) "detach" [] [])) in
  Ret (wrap_ret raw).

Definition open_file (file mode buffering encoding errors newline closefd opener : pyobj)
    : pyM fileE IOWrapper :=
  let! file_ := pcall (FBlocking (IoOpen [file; mode; buffering; encoding; errors; newline; closefd; opener])) in
  Ret (wrap_ret file_).
End ColoredFiles.
End ColoredFile.
