(* ===== verification/FileTypes.v ===== *)
(** * The types declared for files

    The typing declarations of [src/tonio/_fs/_file.py], [src/tonio/_colored/_fs/_file.py] and
    [src/tonio/_fs/_path.py] as data: the protocols a wrapped object may satisfy, the signatures
    declared for the wrapper, and the overloads of [open_file] and [Path.open]; with what a type
    means for the values at run time. *)

From stdpp Require Import base numbers list gmap sets strings.
From Stdlib Require Import ZArith Lia Ascii.
From ITree Require Import ITree ITreeFacts.
From S2P Require Import Prelude Coro Os File.

Open Scope tonio_scope.
Open Scope string_scope.

(** ** Types *)

Inductive pytype :=
| TNone | TBool | TInt | TStr | TBytes | TAny
| TClass (c : string)
| TOpt (t : pytype)
| TList (t : pytype)
| TIterable (t : pytype)
| TVar (v : string).
#[global] Instance pytype_eq_dec : EqDecision pytype.
Proof. solve_decision. Defined.

(** A parameter: its type, and whether it has a default. *)
Inductive member :=
| Property (t : pytype)
| Method (params : list (pytype * bool)) (t : pytype).

(** ** Protocols *)

Record Protocol := mkProtocol {
  p_name : string; p_var : option string; p_attr : string; p_member : member
}.

Definition PROTOCOLS : list Protocol := [
  mkProtocol "_HasClosed" None "closed" (Property TBool);
  mkProtocol "_HasEncoding" None "encoding" (Property TStr);
  mkProtocol "_HasErrors" None "errors" (Property (TOpt TStr));
  mkProtocol "_HasFileNo" None "fileno" (Method [] TInt);
  mkProtocol "_HasIsATTY" None "isatty" (Method [] TBool);
  mkProtocol "_HasNewlines" (Some "T_co") "newlines" (Property (TVar "T_co"));
  mkProtocol "_HasReadable" None "readable" (Method [] TBool);
  mkProtocol "_HasSeekable" None "seekable" (Method [] TBool);
  mkProtocol "_HasWritable" None "writable" (Method [] TBool);
  mkProtocol "_HasBuffer" None "buffer" (Property (TClass "BinaryIO"));
  mkProtocol "_HasRaw" None "raw" (Property (TClass "io.RawIOBase"));
  mkProtocol "_HasLineBuffering" None "line_buffering" (Property TBool);
  mkProtocol "_HasCloseFD" None "closefd" (Property TBool);
  mkProtocol "_HasName" None "name" (Property TStr);
  mkProtocol "_HasMode" None "mode" (Property TStr);
  mkProtocol "_CanGetValue" (Some "AnyStr_co") "getvalue" (Method [] (TVar "AnyStr_co"));
  mkProtocol "_CanGetBuffer" None "getbuffer" (Method [] (TClass "memoryview"));
  mkProtocol "_CanFlush" None "flush" (Method [] TNone);
  mkProtocol "_CanRead" (Some "AnyStr_co") "read" (Method [(TOpt TInt, true)] (TVar "AnyStr_co"));
  mkProtocol "_CanRead1" None "read1" (Method [(TOpt TInt, true)] TBytes);
  mkProtocol "_CanReadAll" (Some "AnyStr_co") "readall" (Method [] (TVar "AnyStr_co"));
  mkProtocol "_CanReadInto" None "readinto" (Method [(TAny, false)] (TOpt TInt));
  mkProtocol "_CanReadInto1" None "readinto1" (Method [(TAny, false)] TInt);
  mkProtocol "_CanReadLine" (Some "AnyStr_co") "readline" (Method [(TInt, true)] (TVar "AnyStr_co"));
  mkProtocol "_CanReadLines" (Some "AnyStr") "readlines" (Method [(TInt, true)] (TList (TVar "AnyStr")));
  mkProtocol "_CanSeek" None "seek" (Method [(TInt, false); (TInt, true)] TInt);
  mkProtocol "_CanTell" None "tell" (Method [] TInt);
  mkProtocol "_CanTruncate" None "truncate" (Method [(TOpt TInt, true)] TInt);
  mkProtocol "_CanWrite" (Some "T_contra") "write" (Method [(TVar "T_contra", false)] TInt);
  mkProtocol "_CanWriteLines" (Some "T_contra") "writelines" (Method [(TIterable (TVar "T_contra"), false)] TNone);
  mkProtocol "_CanPeek" (Some "AnyStr_co") "peek" (Method [(TInt, true)] (TVar "AnyStr_co"));
  mkProtocol "_CanDetach" (Some "T_co") "detach" (Method [] (TVar "T_co"));
  mkProtocol "_CanClose" None "close" (Method [] TNone)].

(** ** The signatures of the wrapper *)

(** [def s_name(self: IOWrapper[s_self[s_inst]], ..)]; the result of an asynchronous method is
    what its coroutine returns. *)
Record Stub := mkStub {
  s_name : string; s_self : string; s_inst : option string; s_member : member
}.

Definition SYNC_STUBS : list Stub := [
  mkStub "closed" "_HasClosed" None (Property TBool);
  mkStub "encoding" "_HasEncoding" None (Property TStr);
  mkStub "errors" "_HasErrors" None (Property (TOpt TStr));
  mkStub "newlines" "_HasNewlines" (Some "T") (Property (TVar "T"));
  mkStub "buffer" "_HasBuffer" None (Property (TClass "BinaryIO"));
  mkStub "raw" "_HasRaw" None (Property (TClass "io.RawIOBase"));
  mkStub "line_buffering" "_HasLineBuffering" None (Property TInt);
  mkStub "closefd" "_HasCloseFD" None (Property TBool);
  mkStub "name" "_HasName" None (Property TStr);
  mkStub "mode" "_HasMode" None (Property TStr);
  mkStub "fileno" "_HasFileNo" None (Method [] TInt);
  mkStub "isatty" "_HasIsATTY" None (Method [] TBool);
  mkStub "readable" "_HasReadable" None (Method [] TBool);
  mkStub "seekable" "_HasSeekable" None (Method [] TBool);
  mkStub "writable" "_HasWritable" None (Method [] TBool);
  mkStub "getvalue" "_CanGetValue" (Some "AnyStr") (Method [] (TVar "AnyStr"));
  mkStub "getbuffer" "_CanGetBuffer" None (Method [] (TClass "memoryview"))].

Definition ASYNC_STUBS : list Stub := [
  mkStub "close" "_CanClose" None (Method [] TNone);
  mkStub "flush" "_CanFlush" None (Method [] TNone);
  mkStub "read" "_CanRead" (Some "AnyStr") (Method [(TOpt TInt, true)] (TVar "AnyStr"));
  mkStub "read1" "_CanRead1" None (Method [(TOpt TInt, true)] TBytes);
  mkStub "readall" "_CanReadAll" (Some "AnyStr") (Method [] (TVar "AnyStr"));
  mkStub "readinto" "_CanReadInto" None (Method [(TAny, false)] (TOpt TInt));
  mkStub "readline" "_CanReadLine" (Some "AnyStr") (Method [(TInt, true)] (TVar "AnyStr"));
  mkStub "readlines" "_CanReadLines" (Some "AnyStr") (Method [] (TList (TVar "AnyStr")));
  mkStub "seek" "_CanSeek" None (Method [(TInt, false); (TInt, true)] TInt);
  mkStub "tell" "_CanTell" None (Method [] TInt);
  mkStub "truncate" "_CanTruncate" None (Method [(TOpt TInt, true)] TInt);
  mkStub "write" "_CanWrite" (Some "T") (Method [(TVar "T", false)] TInt);
  mkStub "writelines" "_CanWriteLines" (Some "T") (Method [(TIterable (TVar "T"), false)] TNone);
  mkStub "readinto1" "_CanReadInto1" None (Method [(TAny, false)] TInt);
  mkStub "peek" "_CanPeek" (Some "AnyStr") (Method [(TInt, true)] (TVar "AnyStr"))].

Definition COLORED_ASYNC_STUBS : list Stub := [
  mkStub "close" "_CanClose" None (Method [] TNone);
  mkStub "flush" "_CanFlush" None (Method [] TNone);
  mkStub "read" "_CanRead" (Some "AnyStr") (Method [(TOpt TInt, true)] (TVar "AnyStr"));
  mkStub "read1" "_CanRead1" None (Method [(TOpt TInt, true)] TBytes);
  mkStub "readall" "_CanReadAll" (Some "AnyStr") (Method [] (TVar "AnyStr"));
  mkStub "readinto" "_CanReadInto" None (Method [(TAny, false)] (TOpt TInt));
  mkStub "readline" "_CanReadLine" (Some "AnyStr") (Method [(TInt, true)] (TVar "AnyStr"));
  mkStub "readlines" "_CanReadLines" (Some "AnyStr") (Method [] (TList (TVar "AnyStr")));
  mkStub "seek" "_CanSeek" None (Method [(TInt, false); (TInt, true)] TInt);
  mkStub "tell" "_CanTell" None (Method [] TInt);
  mkStub "truncate" "_CanTruncate" None (Method [(TOpt TInt, true)] TInt);
  mkStub "write" "_CanWrite" (Some "T") (Method [(TVar "T", false)] TInt);
  mkStub "writelines" "_CanWriteLines" (Some "T") (Method [(TIterable (TVar "T"), false)] TNone);
  mkStub "readinto1" "_CanReadInto1" None (Method [(TAny, false)] TInt);
  mkStub "peek" "_CanPeek" (Some "AnyStr") (Method [(TInt, true)] (TVar "AnyStr"))].

(** ** Overloads of [open] *)

(** The mode literals are those of [_typeshed]; [AnyMode] is [str]. *)
Inductive modeset :=
| OpenTextMode | OpenBinaryMode | OpenBinaryModeUpdating | OpenBinaryModeWriting | OpenBinaryModeReading
| AnyMode.
#[global] Instance modeset_eq_dec : EqDecision modeset.
Proof. solve_decision. Defined.

(** [None]: [int]; [Some l]: [Literal[l]]. *)
Definition buftype := option (list Z).

Inductive ioclass := TextIOWrapper | FileIO | BufferedRandom | BufferedWriter | BufferedReader.
#[global] Instance ioclass_eq_dec : EqDecision ioclass.
Proof. solve_decision. Defined.

Inductive iotype := TIo (c : ioclass) | TBinaryIO | TIO.
#[global] Instance iotype_eq_dec : EqDecision iotype.
Proof. solve_decision. Defined.

(** The type of the mode and its default, that of the buffering and its default, whether encoding,
    errors and newline may be strings, and the object wrapped. *)
Record Overload := mkOverload {
  o_mode : modeset; o_mode_default : option string;
  o_buffering : buftype; o_buffering_default : option Z;
  o_text : bool; o_ret : iotype
}.

Definition open_file_overloads : list Overload := [
  mkOverload OpenTextMode (Some "r") None (Some (-1)%Z) true (TIo TextIOWrapper);
  mkOverload OpenBinaryMode None (Some [0%Z]) None false (TIo FileIO);
  mkOverload OpenBinaryModeUpdating None (Some [(-1)%Z; 1%Z]) (Some (-1)%Z) false (TIo BufferedRandom);
  mkOverload OpenBinaryModeWriting None (Some [(-1)%Z; 1%Z]) (Some (-1)%Z) false (TIo BufferedWriter);
  mkOverload OpenBinaryModeReading None (Some [(-1)%Z; 1%Z]) (Some (-1)%Z) false (TIo BufferedReader);
  mkOverload OpenBinaryMode None None None false TBinaryIO;
  mkOverload AnyMode None None (Some (-1)%Z) true TIO].

Definition colored_open_file_overloads : list Overload := [
  mkOverload OpenTextMode (Some "r") None (Some (-1)%Z) true (TIo TextIOWrapper);
  mkOverload OpenBinaryMode None (Some [0%Z]) None false (TIo FileIO);
  mkOverload OpenBinaryModeUpdating None (Some [(-1)%Z; 1%Z]) (Some (-1)%Z) false (TIo BufferedRandom);
  mkOverload OpenBinaryModeWriting None (Some [(-1)%Z; 1%Z]) (Some (-1)%Z) false (TIo BufferedWriter);
  mkOverload OpenBinaryModeReading None (Some [(-1)%Z; 1%Z]) (Some (-1)%Z) false (TIo BufferedReader);
  mkOverload OpenBinaryMode None None None false TBinaryIO;
  mkOverload AnyMode None None (Some (-1)%Z) true TIO].

(** Of [Path.open]. *)
Definition path_open_overloads : list Overload := [
  mkOverload OpenTextMode (Some "r") None (Some (-1)%Z) true (TIo TextIOWrapper);
  mkOverload OpenBinaryMode None (Some [0%Z]) None false (TIo FileIO);
  mkOverload OpenBinaryModeUpdating None (Some [(-1)%Z; 1%Z]) (Some (-1)%Z) false (TIo BufferedRandom);
  mkOverload OpenBinaryModeWriting None (Some [(-1)%Z; 1%Z]) (Some (-1)%Z) false (TIo BufferedWriter);
  mkOverload OpenBinaryModeReading None (Some [(-1)%Z; 1%Z]) (Some (-1)%Z) false (TIo BufferedReader);
  mkOverload OpenBinaryMode None None (Some (-1)%Z) false TBinaryIO;
  mkOverload AnyMode None None (Some (-1)%Z) true TIO].

Definition colored_path_open_overloads : list Overload := [
  mkOverload OpenTextMode (Some "r") None (Some (-1)%Z) true (TIo TextIOWrapper);
  mkOverload OpenBinaryMode None (Some [0%Z]) None false (TIo FileIO);
  mkOverload OpenBinaryModeUpdating None (Some [(-1)%Z; 1%Z]) (Some (-1)%Z) false (TIo BufferedRandom);
  mkOverload OpenBinaryModeWriting None (Some [(-1)%Z; 1%Z]) (Some (-1)%Z) false (TIo BufferedWriter);
  mkOverload OpenBinaryModeReading None (Some [(-1)%Z; 1%Z]) (Some (-1)%Z) false (TIo BufferedReader);
  mkOverload OpenBinaryMode None None (Some (-1)%Z) false TBinaryIO;
  mkOverload AnyMode None None (Some (-1)%Z) true TIO].

(** ** What [io.open] makes *)

Definition has_char (c : ascii) (m : string) : bool := existsb (Ascii.eqb c) (String.list_ascii_of_string m).
Definition mode_chars : list ascii := ["a"; "x"; "r"; "w"; "b"; "+"; "t"]%char.
Fixpoint no_dup (l : list ascii) : bool :=
  match l with [] => true | c :: l => negb (existsb (Ascii.eqb c) l) && no_dup l end.
Definition valid_mode (m : string) : bool :=
  forallb (fun c => existsb (Ascii.eqb c) mode_chars) (String.list_ascii_of_string m) &&
  no_dup (String.list_ascii_of_string m).

(** How many of [x], [r], [w], [a] the mode has. *)
Definition mode_kinds (m : string) : nat :=
  length (List.filter (fun c => has_char c m) ["x"; "r"; "w"; "a"]%char).

(** The class of the object [io.open] returns; the file itself may still fail to open. *)
Definition io_open_class (mode : string) (buffering : Z) (encoding errors newline : option string)
    : result ioclass :=
  let binary := has_char "b" mode in
  if negb (valid_mode mode) then Err (ValueError "invalid mode")
  else if has_char "t" mode && binary then Err (ValueError "can't have text and binary mode at once")
  else if negb (mode_kinds mode =? 1)%nat
  then Err (ValueError "must have exactly one of create/read/write/append mode")
  else if binary && bool_decide (is_Some encoding)
  then Err (ValueError "binary mode doesn't take an encoding argument")
  else if binary && bool_decide (is_Some errors)
  then Err (ValueError "binary mode doesn't take an errors argument")
  else if binary && bool_decide (is_Some newline)
  then Err (ValueError "binary mode doesn't take a newline argument")
  else if (buffering =? 0)%Z then
    if binary then Ok FileIO else Err (ValueError "can't have unbuffered text I/O")
  else if negb binary then Ok TextIOWrapper
  else if has_char "+" mode then Ok BufferedRandom
  else if has_char "x" mode || has_char "w" mode || has_char "a" mode then Ok BufferedWriter
  else Ok BufferedReader.

(** ** What a type means *)

Section Meaning.
(** The instances of a class, and what iterating an object gives. *)
Context (isa : string -> pyobj -> Prop) (yields : pyobj -> pyobj -> Prop).

Fixpoint inhab (rho : string -> pyobj -> Prop) (t : pytype) (v : pyobj) {struct t} : Prop :=
  match t with
  | TNone => v = PNone
  | TBool => exists b, v = PBool b
  | TInt => (exists z, v = PInt z) \/ (exists b, v = PBool b)
  | TStr => exists s, v = PStr s
  | TBytes => exists b, v = PBytes b
  | TAny => True
  | TClass c => isa c v
  | TOpt t => v = PNone \/ inhab rho t v
  | TList t => exists l, v = PList l /\ forall x, x ∈ l -> inhab rho t x
  | TIterable t => forall x, yields v x -> inhab rho t x
  | TVar a => rho a v
  end.

Definition inhab_ret (rho : string -> pyobj -> Prop) (t : pytype) (r : fret) : Prop :=
  match r with RObj v => inhab rho t v | RFile _ => False end.

(** Arguments a parameter list accepts. *)
Fixpoint fits (rho : string -> pyobj -> Prop) (ps : list (pytype * bool)) (args : list pyobj) : Prop :=
  match ps, args with
  | _, [] => Forall (fun p => snd p = true) ps
  | (t, _) :: ps, v :: args => inhab rho t v /\ fits rho ps args
  | [], _ :: _ => False
  end.

(** File objects: what their attributes hold and their methods do, in any state. *)
Context {S : Type} (H : forall X, fileE X -> S -> option (X * S)) (attr : nat -> string -> option bool).

Definition reads (f : nat) (name : string) (v : pyobj) : Prop :=
  exists s s', H _ (FGetAttr f name) s = Some (Ok v, s').
Definition calls (f : nat) (name : string) (args : list pyobj) (r : fret) : Prop :=
  exists s s', H _ (FCall f name args) s = Some (Ok r, s') \/
               H _ (FBlocking (Meth f name args [])) s = Some (Ok r, s').

(** Object [f] has a member [name] as the protocol declares it. *)
Definition has_member (rho : string -> pyobj -> Prop) (f : nat) (name : string) (m : member) : Prop :=
  match m with
  | Property t => is_Some (attr f name) /\ forall v, reads f name v -> inhab rho t v
  | Method ps t => attr f name = Some true /\
      forall args r, fits rho ps args -> calls f name args r -> inhab_ret rho t r
  end.
Definition conforms (rho : string -> pyobj -> Prop) (f : nat) (p : Protocol) : Prop :=
  has_member rho f (p_attr p) (p_member p).
End Meaning.

(** The protocol's variable stands for the one the signature names. *)
Definition instantiate (rho : string -> pyobj -> Prop) (p : Protocol) (s : Stub) : string -> pyobj -> Prop :=
  fun a => if bool_decide (p_var p = Some a) then rho (default a (s_inst s)) else rho a.
