(* ===== verification/FileProps.v ===== *)
(** * Files: attribute lookup, declared types, iteration

    The wrapper's cache of methods cannot be observed, the signatures and overloads declared for
    files hold of what runs, and [async with] and [async for] read a file to its end and close it. *)

From stdpp Require Import base numbers list gmap sets strings.
From Stdlib Require Import ZArith Lia Ascii.
From ITree Require Import ITree ITreeFacts.
From S2P Require Import Prelude Coro Hoare Os File FileTypes.

Open Scope tonio_scope.
Open Scope string_scope.
#[local] Set Warnings "-clear-no-such-hyp".

(** ** The cache *)

(** A history of attribute accesses, with what each gave. *)
Fixpoint accesses (attr : nat -> string -> option bool) (w : IOWrapper) (names : list string)
    : list (result attrval) * IOWrapper :=
  match names with
  | [] => ([], w)
  | n :: names =>
      let '(r, w1) := access attr w n in
      let '(rs, w2) := accesses attr w1 names in (r :: rs, w2)
  end.

(** The entries of a wrapper are methods that run on the thread-pool and that the object has. *)
Definition cache_ok (attr : nat -> string -> option bool) (w : IOWrapper) : Prop :=
  forall n, n ∈ cached w -> n ∈ FILE_ASYNC_METHODS /\ hasattr attr (_wrapped w) n = true.

Lemma sync_async_disjoint n : n ∈ FILE_ASYNC_METHODS -> n ∈ FILE_SYNC_ATTRS -> False.
Proof.
  intros Ha Hs. assert (Forall (fun n => n ∉ FILE_SYNC_ATTRS) FILE_ASYNC_METHODS) as HF
    by (apply (bool_decide_unpack _); vm_compute; exact I).
  rewrite Forall_forall in HF. by eapply HF.
Qed.

Section Cache.
Context (attr : nat -> string -> option bool).

Lemma init_ok f : cache_ok attr (IOWrapper_init f).
Proof. intros n Hn. set_solver. Qed.

(** What a name gives does not depend on the entries. *)
Lemma access_getattr w n : cache_ok attr w ->
  fst (access attr w n) = fst (IOWrapper_getattr attr (IOWrapper_init (_wrapped w)) n).
Proof.
  intros Hok. unfold access. case_bool_decide as Hc; [|unfold IOWrapper_getattr; simpl; by repeat case_match].
  destruct (Hok _ Hc) as [Ha Hh]. unfold IOWrapper_getattr. simpl.
  rewrite bool_decide_false by (intros Hs; by eapply sync_async_disjoint).
  by rewrite bool_decide_true, Hh.
Qed.

Lemma access_keeps w n : cache_ok attr w ->
  cache_ok attr (snd (access attr w n)) /\ _wrapped (snd (access attr w n)) = _wrapped w.
Proof.
  intros Hok. unfold access. case_bool_decide as Hc; [done|]. unfold IOWrapper_getattr.
  case_bool_decide as Hs; [done|]. case_bool_decide as Ha; [|done].
  destruct (hasattr attr (_wrapped w) n) eqn:Hh; [|done]. simpl. split; [|done].
  intros m [->%elem_of_singleton|Hm]%elem_of_union; [done|by apply Hok].
Qed.

Lemma accesses_getattr w names : cache_ok attr w ->
  fst (accesses attr w names) =
    List.map (fun n => fst (IOWrapper_getattr attr (IOWrapper_init (_wrapped w)) n)) names /\
  cache_ok attr (snd (accesses attr w names)) /\ _wrapped (snd (accesses attr w names)) = _wrapped w.
Proof.
  revert w. induction names as [|n names IH]; intros w Hok; [done|]. simpl.
  pose proof (access_getattr w n Hok) as Hr. destruct (access_keeps w n Hok) as [Hok1 Hw1].
  destruct (access attr w n) as [r w1]. simpl in *. destruct (IH w1 Hok1) as (H1 & H2 & H3).
  destruct (accesses attr w1 names) as [rs w2]. simpl in *. rewrite Hw1 in H1, H3. by subst.
Qed.

(** What [getattr] finds are the forwarded names the object has. *)
Lemma getattr_finds f n :
  (exists v, fst (IOWrapper_getattr attr (IOWrapper_init f) n) = Ok v) <->
  (n ∈ FILE_SYNC_ATTRS \/ n ∈ FILE_ASYNC_METHODS) /\ hasattr attr f n = true.
Proof.
  unfold IOWrapper_getattr. simpl.
  case_bool_decide; [|case_bool_decide]; destruct (hasattr attr f n); simpl;
    (split; [intros [v Hv]|intros [[Hn|Hn] Hh]]); try done; try (by eexists); auto.
Qed.
End Cache.

(** The wrapper keeps the methods it has handed out in its own [__dict__]; nobody can tell.
    Whatever attributes of a new wrapper were read before, in whatever order, each access gives
    what a wrapper without entries gives: the file's own attribute, a function that runs the
    file's method on the thread-pool, or [AttributeError]; and [__dir__] lists, besides what the
    class defines, exactly the names for which an access succeeds.  The [async] API looks
    attributes up in the same way. *)
Theorem access_cached_equiv attr f names base :
  let w := snd (accesses attr (IOWrapper_init f) names) in
  fst (accesses attr (IOWrapper_init f) names) =
    List.map (fun n => fst (IOWrapper_getattr attr (IOWrapper_init f) n)) names /\
  (forall n, fst (access attr w n) = fst (IOWrapper_getattr attr (IOWrapper_init f) n)) /\
  (forall n, n ∈ IOWrapper_dir attr base w <-> n ∈ base \/ exists v, fst (access attr w n) = Ok v) /\
  (forall n, ColoredFile.access attr w n = access attr w n).
Proof.
  intros w. destruct (accesses_getattr attr (IOWrapper_init f) names (init_ok attr f)) as (H1 & H2 & H3).
  simpl in H3. assert (forall n, fst (access attr w n) = fst (IOWrapper_getattr attr (IOWrapper_init f) n)) as Ha.
  { intros n. unfold w. by rewrite access_getattr, H3. }
  split; [done|]. split; [done|]. split; [|done].
  intros n. rewrite Ha, getattr_finds. unfold IOWrapper_dir.
  rewrite !elem_of_union, !elem_of_list_to_set, !list_elem_of_filter. unfold w. rewrite H3. tauto.
Qed.

(** ** Declared types *)

(** [sub a b]: every value of type [a] has type [b]. *)
Fixpoint sub (a b : pytype) : bool :=
  bool_decide (a = b) ||
  match b with
  | TAny => true
  | TInt => bool_decide (a = TBool)
  | TOpt b' => bool_decide (a = TNone) || sub a b'
  | _ => false
  end.

Fixpoint subst_var (x y : string) (t : pytype) : pytype :=
  match t with
  | TVar a => TVar (if bool_decide (x = a) then y else a)
  | TOpt t => TOpt (subst_var x y t)
  | TList t => TList (subst_var x y t)
  | TIterable t => TIterable (subst_var x y t)
  | _ => t
  end.

(** The types of a protocol with its variable replaced. *)
Definition inst_type (p : Protocol) (s : Stub) (t : pytype) : pytype :=
  match p_var p with Some x => subst_var x (default x (s_inst s)) t | None => t end.

(** Parameters the signature declares are accepted where the protocol's are. *)
Fixpoint params_ok (p : Protocol) (s : Stub) (declared accepted : list (pytype * bool)) : bool :=
  match declared, accepted with
  | [], _ => forallb snd accepted
  | (t, d) :: declared, (t', d') :: accepted =>
      sub t (inst_type p s t') && implb d (d' && forallb snd accepted) && params_ok p s declared accepted
  | _ :: _, [] => false
  end.

Definition stub_ok (p : Protocol) (s : Stub) : bool :=
  bool_decide (p_attr p = s_name s) &&
  match s_member s, p_member p with
  | Property t, Property t' => sub (inst_type p s t') t
  | Method ps t, Method ps' t' => params_ok p s ps ps' && sub (inst_type p s t') t
  | _, _ => false
  end.

Definition protocol_of (s : Stub) : option Protocol :=
  List.find (fun p => bool_decide (p_name p = s_self s)) PROTOCOLS.

Definition stub_checks (s : Stub) : bool :=
  match protocol_of s with Some p => stub_ok p s | None => false end.

Section Sound.
Context (isa : string -> pyobj -> Prop) (yields : pyobj -> pyobj -> Prop).

Lemma sub_sound rho a b v : sub a b = true -> inhab isa yields rho a v -> inhab isa yields rho b v.
Proof.
  induction b; simpl; intros [?%bool_decide_eq_true|Hs]%orb_true_iff Hv; subst; try done; try (by subst).
  - apply bool_decide_eq_true in Hs. subst. by right.
  - apply orb_true_iff in Hs as [Hs|Hs]; [apply bool_decide_eq_true in Hs; subst; by left|].
    right. by apply IHb.
Qed.

Lemma inst_inhab rho p s t v :
  inhab isa yields rho (inst_type p s t) v <-> inhab isa yields (instantiate rho p s) t v.
Proof.
  unfold inst_type, instantiate. destruct (p_var p) as [x|].
  - revert v. induction t as [| | | | | |c|t IHt|t IHt|t IHt|a]; intros v; simpl; try done.
    + by rewrite IHt.
    + by setoid_rewrite IHt.
    + by setoid_rewrite IHt.
    + case_bool_decide as H1; [rewrite bool_decide_true by congruence; by subst|].
      rewrite bool_decide_false by congruence. done.
  - revert v. induction t as [| | | | | |c|t IHt|t IHt|t IHt|a]; intros v; simpl; try done; try (by rewrite <- IHt || by setoid_rewrite <- IHt).
Qed.

Lemma ret_sound rho p s t t' r : sub (inst_type p s t') t = true ->
  inhab_ret isa yields (instantiate rho p s) t' r -> inhab_ret isa yields rho t r.
Proof. destruct r as [x|]; [|done]. intros Hs Hr. eapply sub_sound; [exact Hs|]. by apply inst_inhab. Qed.

Lemma all_defaults (ps : list (pytype * bool)) : forallb snd ps = true -> Forall (fun p => snd p = true) ps.
Proof.
  induction ps as [|p ps IH]; simpl; [constructor|]. intros [Hp Hps]%andb_true_iff.
  constructor; auto.
Qed.

Lemma params_sound rho p s ps ps' args : params_ok p s ps ps' = true ->
  fits isa yields rho ps args -> fits isa yields (instantiate rho p s) ps' args.
Proof.
  revert ps' args. induction ps as [|[t d] ps IH]; intros ps' args Hp Hf.
  - destruct args; [|done]. apply all_defaults in Hp. by destruct ps' as [|[]].
  - destruct ps' as [|[t' d'] ps']; [done|]. simpl in Hp. rewrite !andb_true_iff in Hp.
    destruct Hp as [[Hs Hd] Hp]. destruct args as [|v args]; simpl in *.
    + apply Forall_cons in Hf as [Hd1 _]. simpl in Hd1. subst d. simpl in Hd.
      apply andb_true_iff in Hd as [-> Hd]. constructor; [done|]. by apply all_defaults.
    + destruct Hf as [Hv Hf]. split; [|by apply IH]. apply inst_inhab. by eapply sub_sound.
Qed.
End Sound.

(** What the signature promises of a use of the wrapper [w]: reading the attribute, or calling the
    method, on the current thread or on the thread-pool. *)
Definition stub_holds (isa : string -> pyobj -> Prop) (yields : pyobj -> pyobj -> Prop) {S : Type}
    (H : forall X, fileE X -> S -> option (X * S)) (attr : nat -> string -> option bool)
    (rho : string -> pyobj -> Prop) (w : IOWrapper) (st : Stub) : Prop :=
  exists v, fst (access attr w (s_name st)) = Ok v /\
  match v, s_member st with
  | SyncAttr f n, Property t => forall s s' x,
      runs H (pcall (FGetAttr f n)) s (Ok x) s' -> inhab isa yields rho t x
  | SyncAttr f n, Method ps t => forall args s s' r, fits isa yields rho ps args ->
      runs H (pcall (FCall f n args)) s (Ok r) s' -> inhab_ret isa yields rho t r
  | AsyncMeth f n, Method ps t => forall args s s' r, fits isa yields rho ps args ->
      runs H (call_method f n args []) s (Ok r) s' -> inhab_ret isa yields rho t r
  | AsyncMeth _ _, Property _ => False
  end.

Lemma runs_pcall_inv {E S A} (H : forall X, E X -> S -> option (X * S)) (e : E (result A)) s r s' :
  runs H (pcall e) s r s' -> H _ e s = Some (r, s').
Proof.
  intros Hr. pose proof (triple_pcall H (fun s0 => s0 = s) e (fun r s' => H _ e s = Some (r, s'))) as Ht.
  eapply Ht; [|reflexivity|exact Hr]. by intros s0 r0 s0' ->.
Qed.

Section Stubs.
Context (isa : string -> pyobj -> Prop) (yields : pyobj -> pyobj -> Prop) {S : Type}.
Context (H : forall X, fileE X -> S -> option (X * S)) (attr : nat -> string -> option bool).

Lemma stub_sound rho w p st : cache_ok attr w -> stub_ok p st = true ->
  (s_name st ∈ FILE_SYNC_ATTRS \/ s_name st ∈ FILE_ASYNC_METHODS /\ exists ps t, s_member st = Method ps t) ->
  conforms isa yields H attr (instantiate rho p st) (_wrapped w) p ->
  stub_holds isa yields H attr rho w st.
Proof.
  intros Hok [Hn%bool_decide_eq_true Hs]%andb_true_iff Hin Hc. unfold conforms in Hc. rewrite Hn in Hc.
  assert (hasattr attr (_wrapped w) (s_name st) = true) as Hh.
  { apply bool_decide_eq_true. destruct (p_member p); destruct Hc as [Hc _]; [done|by rewrite Hc]. }
  unfold stub_holds. rewrite access_getattr by done. unfold IOWrapper_getattr. simpl.
  destruct Hin as [Hin|(Hin & ps & t & Hm)].
  - rewrite bool_decide_true, Hh by done. eexists; split; [done|].
    destruct (s_member st) as [t|ps t], (p_member p) as [t'|ps' t']; try done; destruct Hc as [_ Hc].
    + intros s s' x Hr%runs_pcall_inv. eapply sub_sound; [exact Hs|]. apply inst_inhab. eapply Hc. by do 2 eexists.
    + apply andb_true_iff in Hs as [Hp Hs]. intros args s s' r Hf Hr%runs_pcall_inv.
      eapply ret_sound; [exact Hs|]. eapply Hc; [by eapply params_sound|]. do 2 eexists. by left.
  - rewrite bool_decide_false by (intros ?; by eapply sync_async_disjoint).
    rewrite bool_decide_true, Hh by done. eexists; split; [done|]. rewrite Hm in *.
    destruct (p_member p) as [t'|ps' t']; [done|]. destruct Hc as [_ Hc].
    apply andb_true_iff in Hs as [Hp Hs]. intros args s s' r Hf Hr%runs_pcall_inv.
    eapply ret_sound; [exact Hs|]. eapply Hc; [by eapply params_sound|]. do 2 eexists. by right.
Qed.
End Stubs.

Definition is_method (m : member) : bool := match m with Method _ _ => true | Property _ => false end.

(** All the signatures are of names that are forwarded, and agree with their protocols. *)
Lemma stubs_check st : st ∈ (SYNC_STUBS ++ ASYNC_STUBS ++ COLORED_ASYNC_STUBS)%list ->
  stub_checks st = true /\
  (s_name st ∈ FILE_SYNC_ATTRS \/ s_name st ∈ FILE_ASYNC_METHODS /\ is_method (s_member st) = true).
Proof.
  revert st. apply Forall_forall.
  assert (forallb (fun st => stub_checks st && (bool_decide (s_name st ∈ FILE_SYNC_ATTRS) ||
      bool_decide (s_name st ∈ FILE_ASYNC_METHODS) && is_method (s_member st)))
    (SYNC_STUBS ++ ASYNC_STUBS ++ COLORED_ASYNC_STUBS)%list = true) as Hb by (vm_compute; reflexivity).
  apply Forall_forall. intros st Hst%list_elem_of_In. rewrite forallb_forall in Hb. specialize (Hb st Hst).
  apply andb_true_iff in Hb as [Hc [Hb%bool_decide_eq_true|[Hb%bool_decide_eq_true Hm]%andb_true_iff]%orb_true_iff];
    auto.
Qed.

Lemma stub_names :
  List.map s_name SYNC_STUBS ≡ₚ FILE_SYNC_ATTRS /\
  List.map s_name ASYNC_STUBS ≡ₚ FILE_ASYNC_METHODS /\
  List.map s_name COLORED_ASYNC_STUBS ≡ₚ FILE_ASYNC_METHODS.
Proof. split_and!; apply (bool_decide_unpack _); vm_compute; exact I. Qed.

(** [C39] The signatures declared for the wrapper hold at run time.  Take an object that satisfies
    the protocol a signature asks for ([conforms]): its attribute holds values of the declared
    type, or its method, given arguments of the declared types, returns one.  Then, whatever was
    read before, the wrapper's attribute of that name exists, and reading it, or calling it with
    arguments the signature accepts, on the thread-pool when it is an asynchronous method, gives a
    value of the type the signature declares.  There is one signature for each forwarded name, in
    both APIs, and no other. *)
Theorem stubs_typed isa yields {S : Type} (H : forall X, fileE X -> S -> option (X * S)) attr rho f names st p :
  st ∈ (SYNC_STUBS ++ ASYNC_STUBS ++ COLORED_ASYNC_STUBS)%list ->
  protocol_of st = Some p ->
  conforms isa yields H attr (instantiate rho p st) f p ->
  stub_holds isa yields H attr rho (snd (accesses attr (IOWrapper_init f) names)) st /\
  List.map s_name SYNC_STUBS ≡ₚ FILE_SYNC_ATTRS /\
  List.map s_name ASYNC_STUBS ≡ₚ FILE_ASYNC_METHODS /\
  List.map s_name COLORED_ASYNC_STUBS ≡ₚ FILE_ASYNC_METHODS.
Proof.
  intros Hst Hp Hc. split; [|apply stub_names].
  destruct (accesses_getattr attr (IOWrapper_init f) names (init_ok attr f)) as (_ & Hok & Hw).
  destruct (stubs_check st Hst) as [Hck Hin]. unfold stub_checks in Hck. rewrite Hp in Hck.
  eapply (stub_sound isa yields H attr rho _ p); [done..| |by rewrite Hw].
  destruct Hin as [?|[? Hm]]; [by left|right]. split; [done|]. destruct (s_member st); [done|eauto].
Qed.

(** A file whose [readline] gives the string ["a"]. *)
Definition toy_file (X : Type) (e : fileE X) (s : unit) : option (X * unit) :=
  match e in fileE X return option (X * unit) with
  | FBlocking (Meth _ _ _ _) => Some (Ok (RObj (PStr "a")), s)
  | _ => None
  end.

Lemma stubs_typed_witness :
  let st := mkStub "readline" "_CanReadLine" (Some "AnyStr") (Method [(TInt, true)] (TVar "AnyStr")) in
  let rho := fun (_ : string) v => exists s, v = PStr s in
  stub_holds (fun _ _ => False) (fun _ _ => False) toy_file (fun _ _ => Some true) rho
    (snd (accesses (fun _ _ => Some true) (IOWrapper_init 0) ["read"; "readline"])) st /\
  List.map s_name SYNC_STUBS ≡ₚ FILE_SYNC_ATTRS /\
  List.map s_name ASYNC_STUBS ≡ₚ FILE_ASYNC_METHODS /\
  List.map s_name COLORED_ASYNC_STUBS ≡ₚ FILE_ASYNC_METHODS.
Proof.
  intros st rho.
  apply (stubs_typed (fun _ _ => False) (fun _ _ => False) toy_file (fun _ _ => Some true) rho 0
    ["read"; "readline"] st (mkProtocol "_CanReadLine" (Some "AnyStr_co") "readline" (Method [(TInt, true)] (TVar "AnyStr_co")))).
  - apply (list_elem_of_lookup_2 _ 23). vm_compute. reflexivity.
  - vm_compute. reflexivity.
  - split; [done|]. intros args r _ (s & s' & [Hr|Hr]); simpl in Hr; [discriminate|].
    injection Hr as <- _. vm_compute. by exists "a".
Defined.

(** ** Overloads *)

(** What the annotations rely on in the mode literals of [_typeshed]: which letters they have. *)
Definition mode_spec (ms : modeset) (m : string) : Prop :=
  match ms with
  | OpenTextMode => has_char "b" m = false
  | OpenBinaryMode => has_char "b" m = true
  | OpenBinaryModeUpdating => has_char "b" m = true /\ has_char "+" m = true
  | OpenBinaryModeWriting => has_char "b" m = true /\ has_char "+" m = false /\
      has_char "x" m || has_char "w" m || has_char "a" m = true
  | OpenBinaryModeReading => has_char "b" m = true /\ has_char "+" m = false /\ has_char "r" m = true
  | AnyMode => True
  end.

(** The arguments a caller gives; [None] where it gives none. *)
Record open_args := mkOpenArgs {
  a_mode : option string; a_buffering : option Z; a_encoding : option string; a_errors : option string;
  a_newline : option string
}.

(** The call is one the overload accepts. *)
Definition accepts (literals : modeset -> string -> Prop) (ov : Overload) (a : open_args) : Prop :=
  match a_mode a with Some m => literals (o_mode ov) m | None => is_Some (o_mode_default ov) end /\
  match a_buffering a with
  | Some b => match o_buffering ov with Some l => b ∈ l | None => True end
  | None => is_Some (o_buffering_default ov)
  end /\
  (o_text ov = false -> a_encoding a = None /\ a_errors a = None /\ a_newline a = None).

(** The implementation's own defaults. *)
Definition mode_of (a : open_args) : string := default "r" (a_mode a).
Definition buffering_of (a : open_args) : Z := default (-1)%Z (a_buffering a).

Definition instance_of (c : ioclass) (t : iotype) : Prop :=
  match t with TIo c' => c = c' | TBinaryIO => c <> TextIOWrapper | TIO => True end.

Definition opt_str (o : option string) : pyobj := match o with Some s => PStr s | None => PNone end.

(** The class by the letters of the mode. *)
Definition class_by_mode (m : string) (b : Z) : ioclass :=
  if negb (has_char "b" m) then TextIOWrapper
  else if (b =? 0)%Z then FileIO
  else if has_char "+" m then BufferedRandom
  else if has_char "r" m then BufferedReader else BufferedWriter.

Lemma mode_kinds_one m : mode_kinds m = 1 ->
  has_char "x" m || has_char "w" m || has_char "a" m = negb (has_char "r" m).
Proof.
  unfold mode_kinds. simpl.
  destruct (has_char "x" m), (has_char "r" m), (has_char "w" m), (has_char "a" m); simpl; congruence.
Qed.

Lemma io_open_class_by m b e er nl c : io_open_class m b e er nl = Ok c -> c = class_by_mode m b /\ mode_kinds m = 1.
Proof.
  unfold io_open_class, class_by_mode. intros Hc.
  destruct (valid_mode m); [|done]. destruct (has_char "t" m && has_char "b" m); [done|]. simpl in Hc.
  destruct (Nat.eqb_spec (mode_kinds m) 1) as [Hk|]; [|done]. simpl in Hc.
  rewrite (mode_kinds_one m Hk) in Hc.
  destruct (has_char "b" m); simpl in *; repeat case_match; try done; by simplify_eq.
Qed.

(** What can be promised of the object by the mode's type and the buffering's. *)
Definition declared (ms : modeset) (bt : buftype) : iotype :=
  match ms, bt with
  | OpenTextMode, _ => TIo TextIOWrapper
  | OpenBinaryMode, Some [0%Z] => TIo FileIO
  | OpenBinaryMode, _ => TBinaryIO
  | OpenBinaryModeUpdating, Some [(-1)%Z; 1%Z] => TIo BufferedRandom
  | OpenBinaryModeWriting, Some [(-1)%Z; 1%Z] => TIo BufferedWriter
  | OpenBinaryModeReading, Some [(-1)%Z; 1%Z] => TIo BufferedReader
  | _, _ => TIO
  end.

Definition buf_spec (bt : buftype) (b : Z) : Prop := match bt with Some l => b ∈ l | None => True end.

Lemma declared_sound ms bt m b :
  mode_spec ms m -> buf_spec bt b -> mode_kinds m = 1 -> instance_of (class_by_mode m b) (declared ms bt).
Proof.
  intros Hm Hb Hk. pose proof (mode_kinds_one m Hk) as Hx. unfold declared, class_by_mode.
  assert (forall l, bt = Some l -> l = [(-1)%Z; 1%Z] -> (b =? 0)%Z = false) as Hnz.
  { intros l -> ->. apply Z.eqb_neq. intros ->. simpl in Hb. set_solver. }
  destruct ms; simpl in Hm; destruct_and?;
    repeat match goal with E : has_char _ m = _ |- _ => rewrite E end; try done;
    repeat case_match; simplify_eq; simpl; try done;
    try (rewrite (Hnz _ eq_refl eq_refl)); try done;
    try (by (simpl in Hb; set_solver)).
  simpl in *. congruence.
Qed.

(** A row of an overload table: its result is what can be promised, and the defaults it shows are
    the implementation's and have the types of the parameters. *)
Definition row_ok (ov : Overload) : bool :=
  bool_decide (o_ret ov = declared (o_mode ov) (o_buffering ov)) &&
  match o_mode_default ov with
  | Some m => bool_decide (m = "r" /\ o_mode ov = OpenTextMode)
  | None => true
  end &&
  match o_buffering_default ov with
  | Some b => bool_decide (b = (-1)%Z) &&
      match o_buffering ov with Some l => bool_decide (b ∈ l) | None => true end
  | None => true
  end.

Definition all_overloads : list Overload :=
  (open_file_overloads ++ colored_open_file_overloads ++ path_open_overloads ++ colored_path_open_overloads)%list.

Lemma overload_class literals ov a c :
  (forall ms m, literals ms m -> mode_spec ms m) -> ov ∈ all_overloads -> accepts literals ov a ->
  io_open_class (mode_of a) (buffering_of a) (a_encoding a) (a_errors a) (a_newline a) = Ok c ->
  instance_of c (o_ret ov).
Proof.
  intros Hlit Hov (Hm & Hb & _) [-> Hk]%io_open_class_by.
  assert (forallb row_ok all_overloads = true) as Hall by (vm_compute; reflexivity).
  rewrite forallb_forall in Hall. specialize (Hall ov (proj1 (list_elem_of_In _ _) Hov)).
  unfold row_ok in Hall. rewrite !andb_true_iff in Hall. destruct Hall as [[Hr%bool_decide_eq_true Hmd] Hbd].
  rewrite Hr. apply declared_sound; [| |done].
  - unfold mode_of. destruct (a_mode a) as [m|]; [by apply Hlit|]. destruct (o_mode_default ov); [|by destruct Hm].
    apply bool_decide_eq_true in Hmd as [_ ->]. reflexivity.
  - unfold buffering_of. destruct (a_buffering a) as [b|]; [done|]. simpl.
    destruct (o_buffering_default ov) as [b|]; [|by destruct Hb].
    apply andb_true_iff in Hbd as [->%bool_decide_eq_true Hl]. unfold buf_spec.
    destruct (o_buffering ov); [by apply bool_decide_eq_true in Hl|done].
Qed.

(** What Python documents of its file classes: all have [close], and [read] or [write]. *)
Definition io_api (attr : nat -> string -> option bool) (class_of : nat -> option ioclass) : Prop :=
  forall f c, class_of f = Some c -> has attr f "close" = true /\ has attr f "read" || has attr f "write" = true.

(** The overloads of [open_file], and of [Path.open], in both APIs, tell the truth.  For a call
    that an overload accepts, with the arguments it leaves out filled by the implementation's own
    defaults: when [io.open] returns a file, its class is the one the overload declares, and
    [open_file] returns a wrapper of that file, without an error of its own.  The mode literals
    are assumed to have the letters their names say. *)
Theorem open_file_typed literals attr class_of {S : Type} (H : forall X, fileE X -> S -> option (X * S))
    ov a file closefd opener f s s' :
  (forall ms m, literals ms m -> mode_spec ms m) ->
  io_api attr class_of ->
  ov ∈ all_overloads -> accepts literals ov a ->
  (forall c, class_of f = Some c ->
     io_open_class (mode_of a) (buffering_of a) (a_encoding a) (a_errors a) (a_newline a) = Ok c) ->
  is_Some (class_of f) ->
  H _ (FBlocking (IoOpen [file; PStr (mode_of a); PInt (buffering_of a); opt_str (a_encoding a);
        opt_str (a_errors a); opt_str (a_newline a); closefd; opener])) s = Some (Ok (RFile f), s') ->
  exists c, class_of f = Some c /\ instance_of c (o_ret ov) /\
    runs H (open_file attr file (PStr (mode_of a)) (PInt (buffering_of a)) (opt_str (a_encoding a))
              (opt_str (a_errors a)) (opt_str (a_newline a)) closefd opener) s (Ok (IOWrapper_init f)) s' /\
    runs H (ColoredFile.open_file attr file (PStr (mode_of a)) (PInt (buffering_of a)) (opt_str (a_encoding a))
              (opt_str (a_errors a)) (opt_str (a_newline a)) closefd opener) s (Ok (IOWrapper_init f)) s'.
Proof.
  intros Hlit Hio Hov Ha Hcl [c Hc] Hh. exists c. destruct (Hio f c Hc) as [H1 H2].
  split; [done|]. split; [by eapply overload_class; eauto|].
  split; (eapply runs_pbind; [by apply runs_pcall|]); unfold wrap_ret, ColoredFile.wrap_ret, wrap_file, ColoredFile.wrap_file; simpl;
    rewrite H1, H2; apply runs_ret.
Qed.

(** [open_file(path, 'rb')] gives a [BufferedReader]. *)
Definition toy_open (X : Type) (e : fileE X) (s : unit) : option (X * unit) :=
  match e in fileE X return option (X * unit) with
  | FBlocking (IoOpen _) => Some (Ok (RFile 3), s)
  | _ => None
  end.
Definition toy_literals (ms : modeset) (m : string) : Prop :=
  match ms with
  | OpenTextMode => m = "r" | OpenBinaryMode | OpenBinaryModeReading => m = "rb"
  | OpenBinaryModeUpdating => m = "r+b" | OpenBinaryModeWriting => m = "wb" | AnyMode => True
  end.

Lemma open_file_typed_witness :
  let a := mkOpenArgs (Some "rb") None None None None in
  exists c, (fun _ : nat => Some BufferedReader) 3 = Some c /\ instance_of c (TIo BufferedReader) /\
    runs toy_open (open_file (fun _ _ => Some true) (PStr "p") (PStr "rb") (PInt (-1)) PNone PNone PNone
      (PBool true) PNone) tt (Ok (IOWrapper_init 3)) tt /\
    runs toy_open (ColoredFile.open_file (fun _ _ => Some true) (PStr "p") (PStr "rb") (PInt (-1)) PNone PNone PNone
      (PBool true) PNone) tt (Ok (IOWrapper_init 3)) tt.
Proof.
  intros a.
  apply (open_file_typed toy_literals (fun _ _ => Some true) (fun _ => Some BufferedReader) toy_open
    (mkOverload OpenBinaryModeReading None (Some [(-1)%Z; 1%Z]) (Some (-1)%Z) false (TIo BufferedReader))
    a (PStr "p") (PBool true) PNone 3 tt tt).
  - intros [] m Hm; simpl in Hm; subst; by vm_compute.
  - intros f c _. done.
  - apply (list_elem_of_lookup_2 _ 4). vm_compute. reflexivity.
  - split_and!; simpl; [done|by eexists|done].
  - intros c Hc. injection Hc as <-. vm_compute. reflexivity.
  - by eexists.
  - reflexivity.
Defined.

(** ** Reading a file to its end *)

(** A file open for reading: the lines left, what reading past them raises if anything, how many
    times it was closed, and what [close] itself raises. *)
Record reader := mkReader { r_lines : list pyobj; r_err : option exn; r_closed : nat }.

Definition reader_handler (close_err : option exn) (X : Type) (e : fileE X) (s : reader)
    : option (X * reader) :=
  match e in fileE X return option (X * reader) with
  | FBlocking (Meth _ name _ _) => Some (
      if String.eqb name "readline" then
        match r_lines s, r_err s with
        | l :: rest, _ => (Ok (RObj l), mkReader rest (r_err s) (r_closed s))
        | [], Some e => (Err e, s)
        | [], None => (Ok (RObj (PStr "")), s)
        end
      else if String.eqb name "close" then
        (match close_err with Some e => Err e | None => Ok (RObj PNone) end,
         mkReader (r_lines s) (r_err s) (S (r_closed s)))
      else (Err (AttributeError name), s))
  | _ => None
  end.

Section Reading.
Context (attr : nat -> string -> option bool) (f : nat) (close_err : option exn).
Hypothesis Hread : hasattr attr f "readline" = true.
Hypothesis Hclose : hasattr attr f "close" = true.

#[local] Abbreviation run := (runs (reader_handler close_err)).

Lemma call_forwards name args : (name = "readline" \/ name = "close") ->
  ColoredFile.call attr (IOWrapper_init f) name args = call_method f name args [].
Proof.
  intros Hn. unfold ColoredFile.call, ColoredFile.access, ColoredFile.IOWrapper_getattr. simpl.
  rewrite (bool_decide_false (name ∈ (∅ : gset string))) by set_solver.
  destruct Hn as [-> | ->]; [rewrite Hread|rewrite Hclose]; reflexivity.
Qed.

Lemma async_for_runs lines e n got :
  (forall l, l ∈ lines -> ColoredFile.is_line (RObj l) = true) -> e <> Some StopAsyncIteration ->
  run (ColoredFile.async_for attr (IOWrapper_init f) got) (mkReader lines e n)
    (match e with None => Ok (got ++ List.map RObj lines)%list | Some x => Err x end) (mkReader [] e n).
Proof.
  intros Hl He. revert got Hl. induction lines as [|l lines IH]; intros got Hl.
  - simpl. destruct e as [x|].
    + eapply runs_pwhile_err, runs_ptry_else_pass; [|by destruct x].
      unfold ColoredFile.IOWrapper_anext. rewrite call_forwards by auto.
      eapply runs_pbind_err. by apply runs_pcall.
    + rewrite app_nil_r. eapply runs_pwhile_done.
      eapply (runs_ptry_else_catch _ _ _ _ _ StopAsyncIteration); [|reflexivity|apply runs_pret].
      unfold ColoredFile.IOWrapper_anext. rewrite call_forwards by auto.
      eapply runs_pbind; [by apply runs_pcall|]. apply runs_praise.
  - eapply runs_pwhile_next.
    + eapply runs_ptry_else_ok; [|apply runs_pret].
      unfold ColoredFile.IOWrapper_anext. rewrite call_forwards by auto.
      eapply runs_pbind; [by apply runs_pcall|]. rewrite (Hl l) by set_solver. apply runs_pret.
    + change ((got ++ List.map RObj (l :: lines))%list) with ((got ++ [RObj l] ++ List.map RObj lines)%list).
      rewrite app_assoc. apply IH. intros l' Hl'. apply Hl. set_solver.
Qed.

Lemma aexit_runs s : run (ColoredFile.IOWrapper_aexit attr (IOWrapper_init f)) s
  (match close_err with Some e => Err e | None => Ok tt end) (mkReader (r_lines s) (r_err s) (S (r_closed s))).
Proof.
  unfold ColoredFile.IOWrapper_aexit. rewrite call_forwards by auto.
  assert ((exists e, close_err = Some e) \/ close_err = None) as [[e Hc]|Hc] by (destruct close_err; eauto).
  - rewrite Hc. eapply runs_pbind_err. apply runs_pcall. reflexivity.
  - rewrite Hc. eapply runs_pbind; [apply runs_pcall; reflexivity|apply runs_pret].
Qed.
End Reading.

(** [async with f: [line async for line in f]] reads the file to its end and closes it exactly
    once, however the iteration ends: it returns all the lines in order; an error of [readline]
    is raised after the file was closed; and an error of [close] is raised instead. *)
Theorem async_for_closes attr f close_err lines e :
  hasattr attr f "readline" = true -> hasattr attr f "close" = true ->
  (forall l, l ∈ lines -> ColoredFile.is_line (RObj l) = true) -> e <> Some StopAsyncIteration ->
  let w := IOWrapper_init f in
  runs (reader_handler close_err) (ColoredFile.async_with attr w (ColoredFile.async_for attr w []))
    (mkReader lines e 0)
    (match close_err, e with
     | Some x, _ => Err x
     | None, Some x => Err x
     | None, None => Ok (List.map RObj lines)
     end) (mkReader [] e 1).
Proof.
  intros Hr Hc Hl He w. eapply runs_pbind; [apply runs_pret|].
  pose proof (async_for_runs attr f close_err Hr Hc lines e 0 [] Hl He) as Hf.
  pose proof (aexit_runs attr f close_err Hr Hc (mkReader [] e 0)) as Hx. simpl in Hx.
  eapply runs_bind; [exact Hf|]. eapply runs_bind; [exact Hx|].
  destruct close_err; [apply runs_ret|]. destruct e; apply runs_ret.
Qed.

(** Two lines, then the end; closing fails. *)
Lemma async_for_closes_witness :
  let w := IOWrapper_init 0 in
  let attr := fun (_ : nat) (_ : string) => Some true in
  runs (reader_handler (Some (ValueError "flush")))
    (ColoredFile.async_with attr w (ColoredFile.async_for attr w []))
    (mkReader [PStr "a"; PBytes [Byte.x0a]] None 0) (Err (ValueError "flush")) (mkReader [] None 1).
Proof.
  intros w attr.
  apply (async_for_closes attr 0 (Some (ValueError "flush")) [PStr "a"; PBytes [Byte.x0a]] None).
  - reflexivity.
  - reflexivity.
  - intros l Hl. apply elem_of_cons in Hl as [->|[->|Hl]%elem_of_cons]; [reflexivity..|].
    by apply elem_of_nil in Hl.
  - discriminate.
Defined.
