(* ===== verification/FsPath.v ===== *)
(** * Paths

    [src/tonio/_fs/_path.py] and [src/tonio/_colored/_fs/_path.py]: [Path], a pure path whose
    methods that touch the file system run those of [pathlib.Path] on the thread-pool.  With the
    parts of [pathlib] and [urllib] that construct, print and parse paths and [file:] URIs; the
    functions of [pathlib.Path] that touch the file system are operations.  Text is in the file
    system's encoding: a list of 8-bit characters. *)

From stdpp Require Import base numbers list gmap sets strings.
From Stdlib Require Import ZArith NArith Lia Ascii.
From ITree Require Import ITree ITreeFacts.
From S2P Require Import Prelude Coro Os File.

Open Scope tonio_scope.
Open Scope nat_scope.
Open Scope list_scope.

Definition text : Type := list ascii.
Definition txt (s : string) : text := String.list_ascii_of_string s.

(** ** Pure paths *)

(** The classes: [pathlib]'s pure and concrete paths, and the two of [tonio]. *)
Inductive pcls := LibPure | LibPosix | TPath | TPosixPath.
#[global] Instance pcls_eq_dec : EqDecision pcls.
Proof. solve_decision. Defined.

Record path := mkPath { p_cls : pcls; p_root : text; p_tail : list text }.
#[global] Instance path_eq_dec : EqDecision path.
Proof. solve_decision. Defined.

Definition slash : ascii := "/"%char.

(** [s.split('/')]. *)
Fixpoint split_slash (s : text) : list text :=
  match s with
  | [] => [[]]
  | c :: s =>
      if Ascii.eqb c slash then [] :: split_slash s
      else match split_slash s with x :: l => (c :: x) :: l | [] => [[c]] end
  end.

(** ['/'.join(l)]. *)
Fixpoint join_slash (l : list text) : text :=
  match l with [] => [] | [x] => x | x :: l => x ++ slash :: join_slash l end.

(** [posixpath.splitroot]: one slash or exactly two. *)
Definition splitroot (s : text) : text * text :=
  match s with
  | c1 :: s1 =>
      if Ascii.eqb c1 slash then
        match s1 with
        | c2 :: s2 =>
            if Ascii.eqb c2 slash then
              match s2 with
              | c3 :: _ => if Ascii.eqb c3 slash then ([slash], s1) else ([slash; slash], s2)
              | [] => ([slash; slash], s2)
              end
            else ([slash], s1)
        | [] => ([slash], s1)
        end
      else ([], s)
  | [] => ([], s)
  end.

Definition keeps_part (x : text) : bool := bool_decide (x <> [] /\ x <> ["."%char]).

Definition parse_path (cls : pcls) (s : text) : path :=
  let '(root, rel) := splitroot s in mkPath cls root (List.filter keeps_part (split_slash rel)).

(** [posixpath.join] of two. *)
Definition join2 (a b : text) : text :=
  match b with
  | c :: _ => if Ascii.eqb c slash then b
              else match last a with
                   | None => b
                   | Some d => if Ascii.eqb d slash then a ++ b else a ++ slash :: b
                   end
  | [] => match last a with
          | None => []
          | Some d => if Ascii.eqb d slash then a else a ++ [slash]
          end
  end.

Definition path_str (p : path) : text :=
  match p_root p ++ join_slash (p_tail p) with [] => ["."%char] | s => s end.

Definition is_absolute (p : path) : bool := bool_decide (p_root p <> []).

(** Arguments of a path's methods. *)
Inductive parg := AStr (s : text) | APath (p : path) | AObj (o : pyobj).

Definition fspath (a : parg) : result text :=
  match a with
  | AStr s => Ok s
  | APath p => Ok (path_str p)
  | AObj _ => Err (TypeError "argument should be a str or an os.PathLike object")
  end.

Fixpoint segments (l : list parg) : result (list text) :=
  match l with
  | [] => Ok []
  | a :: l => match fspath a, segments l with
              | Ok s, Ok r => Ok (s :: r) | Err e, _ => Err e | _, Err e => Err e
              end
  end.

(** [cls( *args)] for a class of pure paths. *)
Definition make_path (cls : pcls) (args : list parg) : result path :=
  match segments args with
  | Ok l => Ok (parse_path cls (match l with [] => [] | s :: l => foldl join2 s l end))
  | Err e => Err e
  end.

(** [pathlib.Path(path)]. *)
Definition lib_path (p : path) : path := mkPath LibPosix (p_root p) (p_tail p).

(** ** [file:] URIs *)

Definition hexdigit (n : nat) : ascii := nth n (txt "0123456789ABCDEF") "0"%char.
Definition hexval (c : ascii) : option nat :=
  let n := nat_of_ascii c in
  if (48 <=? n) && (n <=? 57) then Some (n - 48)
  else if (65 <=? n) && (n <=? 70) then Some (n - 55)
  else if (97 <=? n) && (n <=? 102) then Some (n - 87)
  else None.

(** Letters, digits, [_.-~] and the slash are left alone by [urllib.parse.quote]. *)
Definition is_safe (c : ascii) : bool :=
  let n := nat_of_ascii c in
  ((48 <=? n) && (n <=? 57)) || ((65 <=? n) && (n <=? 90)) || ((97 <=? n) && (n <=? 122)) ||
  existsb (Ascii.eqb c) (txt "_.-~/").

Definition quote1 (c : ascii) : text :=
  if is_safe c then [c]
  else ["%"%char; hexdigit (nat_of_ascii c / 16); hexdigit (nat_of_ascii c mod 16)].
Definition quote (s : text) : text := concat (List.map quote1 s).

(** [urllib.parse.unquote]: what is not a percent sign with two hexadecimal digits is kept. *)
Fixpoint unquote (s : text) : text :=
  match s with
  | [] => []
  | c :: s1 =>
      match s1 with
      | a :: b :: s2 =>
          if Ascii.eqb c "%"%char then
            match hexval a, hexval b with
            | Some x, Some y => ascii_of_nat (16 * x + y) :: unquote s2
            | _, _ => c :: unquote s1
            end
          else c :: unquote s1
      | _ => c :: unquote s1
      end
  end.

(** [urllib.request.pathname2url(s, add_scheme=True)]. *)
Definition pathname2url (s : text) : text :=
  let '(root, tail) := splitroot s in
  txt "file:" ++ match root with [] => [] | _ => txt "//" ++ root end ++ quote tail.

(** The text before the first character with property [f], and the rest from it on. *)
Fixpoint span (f : ascii -> bool) (s : text) : text * text :=
  match s with
  | [] => ([], [])
  | c :: r => if f c then ([], s) else let '(a, b) := span f r in (c :: a, b)
  end.

Definition is_control_or_space (c : ascii) : bool := nat_of_ascii c <=? 32.
Definition is_unsafe_byte (c : ascii) : bool :=
  existsb (Nat.eqb (nat_of_ascii c)) [9; 10; 13].
Definition is_letter (c : ascii) : bool :=
  let n := nat_of_ascii c in ((65 <=? n) && (n <=? 90)) || ((97 <=? n) && (n <=? 122)).
Definition is_scheme_char (c : ascii) : bool :=
  let n := nat_of_ascii c in
  is_letter c || ((48 <=? n) && (n <=? 57)) || existsb (Ascii.eqb c) (txt "+-.").
Definition lower (c : ascii) : ascii :=
  let n := nat_of_ascii c in if (65 <=? n) && (n <=? 90) then ascii_of_nat (n + 32) else c.
Fixpoint lstrip (f : ascii -> bool) (s : text) : text :=
  match s with c :: r => if f c then lstrip f r else s | [] => [] end.

(** [urllib.parse.urlsplit]: scheme, authority and path. *)
Definition urlsplit (u : text) : result (text * text * text) :=
  let u := List.filter (fun c => negb (is_unsafe_byte c)) (lstrip is_control_or_space u) in
  let '(before, after) := span (Ascii.eqb ":"%char) u in
  let '(scheme, u) :=
    match before, after with
    | c :: _, _ :: rest =>
        if is_letter c && forallb is_scheme_char before then (List.map lower before, rest) else ([], u)
    | _, _ => ([], u)
    end in
  let '(netloc, u) :=
    match u with
    | a :: b :: r =>
        if Ascii.eqb a slash && Ascii.eqb b slash
        then span (fun c => existsb (Ascii.eqb c) (txt "/?#")) r else ([], u)
    | _ => ([], u)
    end in
  if existsb (Ascii.eqb "["%char) netloc || existsb (Ascii.eqb "]"%char) netloc
  then Err (ValueError "Invalid IPv6 URL")
  else Ok (scheme, netloc, fst (span (Ascii.eqb "?"%char) (fst (span (Ascii.eqb "#"%char) u)))).

Section Uri.
Context (hostname : text).

(** [urllib.request.url2pathname(u, require_scheme=True)]. *)
Definition url2pathname (u : text) : result text :=
  match urlsplit u with
  | Err e => Err e
  | Ok (scheme, netloc, p) =>
      if negb (bool_decide (scheme = txt "file")) then Err (ValueError "URL is missing a 'file:' scheme")
      else if negb (bool_decide (netloc = [] \/ netloc = txt "localhost" \/ netloc = hostname))
      then Err (ValueError "file:// scheme is supported only on localhost")
      else Ok (unquote p)
  end.

(** [pathlib.Path.from_uri] and [pathlib.Path.as_uri]. *)
Definition lib_from_uri (u : text) : result path :=
  match url2pathname u with
  | Err e => Err e
  | Ok s => let p := parse_path LibPosix s in
            if is_absolute p then Ok p else Err (ValueError "URI is not absolute")
  end.
Definition lib_as_uri (p : path) : result text :=
  if negb (is_absolute p) then Err (ValueError "relative paths can't be expressed as file URIs")
  else Ok (pathname2url (path_str p)).
End Uri.

(** ** The functions of [pathlib.Path] on the thread-pool *)

(** What they return. *)
Inductive pval :=
| VObj (o : pyobj)
| VPath (p : path)
| VPaths (l : list path)
| VWalk (l : list (path * list text * list text))
| VFile (f : nat).

(** [PCall name self args kwargs]: [pathlib.Path.name(self, *args, **kwargs)]; [self] is missing
    for a class method. *)
Variant pathE : Type -> Type :=
| PCall (name : string) (self : option path) (args : list parg) (kwargs : list (string * pyobj))
    : pathE (result pval).

Definition kwargs := list (string * pyobj).

(** [spawn_blocking] runs a function on the thread-pool and returns or raises as it does
    ([Blocking] has the hand-over). *)
Definition spawn_blocking {A} (c : pyM pathE A) : pyM pathE A := c.

(** What a path's method is in the class. *)
Inductive wrap := Wrap_method | Wrap_method_path | Wrap_method_path_iterable.
#[global] Instance wrap_eq_dec : EqDecision wrap.
Proof. solve_decision. Defined.

Fixpoint mapr {A B} (f : A -> result B) (l : list A) : result (list B) :=
  match l with
  | [] => Ok []
  | a :: l => match f a with
              | Ok b => match mapr f l with Ok r => Ok (b :: r) | Err e => Err e end
              | Err e => Err e
              end
  end.
Notation "f <$>R r" := (match r with Ok x => Ok (f x) | Err e => Err e end)
  (at level 61, left associativity, only parsing) : tonio_scope.

(** A result of [pathlib] given to a constructor of paths. *)
Definition ret_arg (r : pval) : parg :=
  match r with
  | VPath p => APath p
  | VObj (PStr s) => AStr (txt s)
  | VObj o => AObj o
  | _ => AObj PNone
  end.

(** [self._wrapped_cls(self)], with [_wrapped_cls = pathlib.PosixPath]. *)
Definition wrapped_cls (self : path) : path := parse_path LibPosix (path_str self).

(** ** [Path] *)

Section Path.
(** File objects' attributes, the machine's name, and [repr] of a string. *)
Context (attr : nat -> string -> option bool) (hostname : text) (py_repr : text -> text).

Definition _unwrap (a : parg) : parg :=
  match a with
  | APath p => if negb (bool_decide (p_cls p = LibPosix)) then APath (lib_path p) else a
  | _ => a
  end.

Definition _wraps_async {A B} (fn : A -> pyM pathE B) : A -> pyM pathE B :=
  fun args => spawn_blocking (fn args).

(** [Path( *args)], and [self.__class__( *args)]. *)
Definition Path_new (cls : pcls) (args : list parg) : result path :=
  let cls := if bool_decide (cls = TPath) then TPosixPath else cls in
  make_path cls args.

(** [self.__class__(r)]. *)
Definition rewrap (self : path) (r : pval) : result path := Path_new (p_cls self) [ret_arg r].

Definition _wrap_method (fn : string) (c : path * list parg * kwargs) : pyM pathE pval :=
  _wraps_async (fun '(self, args, kw) => pcall (PCall fn (Some (wrapped_cls self)) args kw)) c.

Definition _wrap_method_path (fn : string) (c : path * list parg * kwargs) : pyM pathE pval :=
  _wraps_async (fun '(self, args, kw) =>
    let! r := pcall (PCall fn (Some (wrapped_cls self)) args kw) in
    Ret (VPath <$>R rewrap self r)) c.

Definition _wrap_method_path_iterable (fn : string) (c : path * list parg * kwargs) : pyM pathE pval :=
  _wraps_async (fun '(self, args, kw) =>
    let! r := pcall (PCall fn (Some (wrapped_cls self)) args kw) in
    match r with
    | VPaths l => Ret (VPaths <$>R mapr (fun p => rewrap self (VPath p)) l)
    | _ => praise (TypeError "object is not iterable")
    end) c.

Definition Path_cwd (cls : pcls) : pyM pathE path :=
  _wraps_async (fun cls => let! r := pcall (PCall "cwd" None [] []) in Ret (Path_new cls [ret_arg r])) cls.
Definition Path_home (cls : pcls) : pyM pathE path :=
  _wraps_async (fun cls => let! r := pcall (PCall "home" None [] []) in Ret (Path_new cls [ret_arg r])) cls.

Definition Path_open (self : path) (args : list parg) (kw : kwargs) : pyM pathE IOWrapper :=
  _wraps_async (fun '(self, args, kw) =>
    let! r := pcall (PCall "open" (Some (wrapped_cls self)) args kw) in
    Ret (wrap_ret attr (match r with VFile f => RFile f | _ => RObj PNone end))) (self, args, kw).

Definition Path_repr (self : path) : text := txt "tonio.fs.Path(" ++ py_repr (path_str self) ++ txt ")".

Definition METHODS : list (string * (wrap * string)) := [
  ("stat", (Wrap_method, "stat"));
  ("chmod", (Wrap_method, "chmod"));
  ("exists", (Wrap_method, "exists"));
  ("glob", (Wrap_method_path_iterable, "glob"));
  ("rglob", (Wrap_method_path_iterable, "rglob"));
  ("is_dir", (Wrap_method, "is_dir"));
  ("is_file", (Wrap_method, "is_file"));
  ("is_symlink", (Wrap_method, "is_symlink"));
  ("is_socket", (Wrap_method, "is_socket"));
  ("is_fifo", (Wrap_method, "is_fifo"));
  ("is_block_device", (Wrap_method, "is_block_device"));
  ("is_char_device", (Wrap_method, "is_char_device"));
  ("is_junction", (Wrap_method, "is_junction"));
  ("iterdir", (Wrap_method_path_iterable, "iterdir"));
  ("lchmod", (Wrap_method, "lchmod"));
  ("lstat", (Wrap_method, "lstat"));
  ("mkdir", (Wrap_method, "mkdir"));
  ("owner", (Wrap_method, "owner"));
  ("group", (Wrap_method, "group"));
  ("is_mount", (Wrap_method, "is_mount"));
  ("readlink", (Wrap_method_path, "readlink"));
  ("rename", (Wrap_method_path, "rename"));
  ("replace", (Wrap_method_path, "replace"));
  ("resolve", (Wrap_method_path, "resolve"));
  ("rmdir", (Wrap_method, "rmdir"));
  ("symlink_to", (Wrap_method, "symlink_to"));
  ("hardlink_to", (Wrap_method, "hardlink_to"));
  ("touch", (Wrap_method, "touch"));
  ("unlink", (Wrap_method, "unlink"));
  ("absolute", (Wrap_method_path, "absolute"));
  ("expanduser", (Wrap_method_path, "expanduser"));
  ("read_bytes", (Wrap_method, "read_bytes"));
  ("read_text", (Wrap_method, "read_text"));
  ("write_bytes", (Wrap_method, "write_bytes"));
  ("write_text", (Wrap_method, "write_text"))].

Definition Path_samefile (self : path) (other_path : parg) : pyM pathE pval :=
  _wraps_async (fun '(self, a) => pcall (PCall "samefile" (Some (wrapped_cls self)) [_unwrap a] [])) (self, other_path).

Definition Path_copy (self : path) (target : parg) (kw : kwargs) : pyM pathE pval :=
  _wraps_async (fun '(self, a, kw) =>
    let! r := pcall (PCall "copy" (Some (wrapped_cls self)) [_unwrap a] kw) in
    Ret (VPath <$>R rewrap self r)) (self, target, kw).
Definition Path_copy_into (self : path) (target_dir : parg) (kw : kwargs) : pyM pathE pval :=
  _wraps_async (fun '(self, a, kw) =>
    let! r := pcall (PCall "copy_into" (Some (wrapped_cls self)) [_unwrap a] kw) in
    Ret (VPath <$>R rewrap self r)) (self, target_dir, kw).
Definition Path_move (self : path) (target : parg) : pyM pathE pval :=
  _wraps_async (fun '(self, a) =>
    let! r := pcall (PCall "move" (Some (wrapped_cls self)) [_unwrap a] []) in
    Ret (VPath <$>R rewrap self r)) (self, target).
Definition Path_move_into (self : path) (target_dir : parg) : pyM pathE pval :=
  _wraps_async (fun '(self, a) =>
    let! r := pcall (PCall "move_into" (Some (wrapped_cls self)) [_unwrap a] []) in
    Ret (VPath <$>R rewrap self r)) (self, target_dir).

Definition Path_walk (self : path) (args : list parg) (kw : kwargs) : pyM pathE pval :=
  _wraps_async (fun '(self, args, kw) =>
    let! r := pcall (PCall "walk" (Some (wrapped_cls self)) args kw) in
    match r with
    | VWalk l => Ret (VWalk <$>R mapr (fun '(dirpath, dirnames, filenames) =>
        (fun d => (d, dirnames, filenames)) <$>R rewrap self (VPath dirpath)) l)
    | _ => praise (TypeError "object is not iterable")
    end) (self, args, kw).

Definition Path_from_uri (cls : pcls) (uri : text) : result path :=
  match lib_from_uri hostname uri with Ok p => Path_new cls [APath p] | Err e => Err e end.
Definition Path_as_uri (self : path) : result text := lib_as_uri self.

(** A method of the class, by its name. *)
Definition Path_call (name : string) (self : path) (args : list parg) (kw : kwargs) : pyM pathE pval :=
  match List.find (fun r => bool_decide (fst r = name)) METHODS with
  | Some (_, (Wrap_method, fn)) => _wrap_method fn (self, args, kw)
  | Some (_, (Wrap_method_path, fn)) => _wrap_method_path fn (self, args, kw)
  | Some (_, (Wrap_method_path_iterable, fn)) => _wrap_method_path_iterable fn (self, args, kw)
  | None =>
      match args, kw with
      | [a], [] =>
          if String.eqb name "samefile" then Path_samefile self a
          else if String.eqb name "copy" then Path_copy self a kw
          else if String.eqb name "copy_into" then Path_copy_into self a kw
          else if String.eqb name "move" then Path_move self a
          else if String.eqb name "move_into" then Path_move_into self a
          else if String.eqb name "walk" then Path_walk self args kw
          else praise (AttributeError name)
      | [a], _ =>
          if String.eqb name "copy" then Path_copy self a kw
          else if String.eqb name "copy_into" then Path_copy_into self a kw
          else if String.eqb name "walk" then Path_walk self args kw
          else praise (TypeError "got an unexpected keyword argument")
      | _, _ =>
          if String.eqb name "walk" then Path_walk self args kw
          else praise (TypeError "wrong number of arguments")
      end
  end.
End Path.

(** ** The [async] API *)

Module ColoredPath.
Section Path.
Context (attr : nat -> string -> option bool) (hostname : text) (py_repr : text -> text).

Definition _unwrap (a : parg) : parg :=
  match a with
  | APath p => if negb (bool_decide (p_cls p = LibPosix)) then APath (lib_path p) else a
  | _ => a
  end.

Definition _wraps_async {A B} (fn : A -> pyM pathE B) : A -> pyM pathE B :=
  fun args => spawn_blocking (fn args).

(** [Path( *args)], and [self.__class__( *args)]. *)
Definition Path_new (cls : pcls) (args : list parg) : result path :=
  let cls := if bool_decide (cls = TPath) then TPosixPath else cls in
  make_path cls args.

(** [self.__class__(r)]. *)
Definition rewrap (self : path) (r : pval) : result path := Path_new (p_cls self) [ret_arg r].

Definition _wrap_method (fn : string) (c : path * list parg * kwargs) : pyM pathE pval :=
  _wraps_async (fun '(self, args, kw) => pcall (PCall fn (Some (wrapped_cls self)) args kw)) c.

Definition _wrap_method_path (fn : string) (c : path * list parg * kwargs) : pyM pathE pval :=
  _wraps_async (fun '(self, args, kw) =>
    let! r := pcall (PCall fn (Some (wrapped_cls self)) args kw) in
    Ret (VPath <$>R rewrap self r)) c.

Definition _wrap_method_path_iterable (fn : string) (c : path * list parg * kwargs) : pyM pathE pval :=
  _wraps_async (fun '(self, args, kw) =>
    let! r := pcall (PCall fn (Some (wrapped_cls self)) args kw) in
    match r with
    | VPaths l => Ret (VPaths <$>R mapr (fun p => rewrap self (VPath p)) l)
    | _ => praise (TypeError "object is not iterable")
    end) c.

Definition Path_cwd (cls : pcls) : pyM pathE path :=
  _wraps_async (fun cls => let! r := pcall (PCall "cwd" None [] []) in Ret (Path_new cls [ret_arg r])) cls.
Definition Path_home (cls : pcls) : pyM pathE path :=
  _wraps_async (fun cls => let! r := pcall (PCall "home" None [] []) in Ret (Path_new cls [ret_arg r])) cls.

Definition Path_open (self : path) (args : list parg) (kw : kwargs) : pyM pathE IOWrapper :=
  _wraps_async (fun '(self, args, kw) =>
    let! r := pcall (PCall "open" (Some (wrapped_cls self)) args kw) in
    Ret (ColoredFile.wrap_ret attr (match r with VFile f => RFile f | _ => RObj PNone end))) (self, args, kw).

Definition Path_repr (self : path) : text := txt "tonio.colored.fs.Path(" ++ py_repr (path_str self) ++ txt ")".

Definition METHODS : list (string * (wrap * string)) := [
  ("stat", (Wrap_method, "stat"));
  ("chmod", (Wrap_method, "chmod"));
  ("exists", (Wrap_method, "exists"));
  ("glob", (Wrap_method_path_iterable, "glob"));
  ("rglob", (Wrap_method_path_iterable, "rglob"));
  ("is_dir", (Wrap_method, "is_dir"));
  ("is_file", (Wrap_method, "is_file"));
  ("is_symlink", (Wrap_method, "is_symlink"));
  ("is_socket", (Wrap_method, "is_socket"));
  ("is_fifo", (Wrap_method, "is_fifo"));
  ("is_block_device", (Wrap_method, "is_block_device"));
  ("is_char_device", (Wrap_method, "is_char_device"));
  ("is_junction", (Wrap_method, "is_junction"));
  ("iterdir", (Wrap_method_path_iterable, "iterdir"));
  ("lchmod", (Wrap_method, "lchmod"));
  ("lstat", (Wrap_method, "lstat"));
  ("mkdir", (Wrap_method, "mkdir"));
  ("owner", (Wrap_method, "owner"));
  ("group", (Wrap_method, "group"));
  ("is_mount", (Wrap_method, "is_mount"));
  ("readlink", (Wrap_method_path, "readlink"));
  ("rename", (Wrap_method_path, "rename"));
  ("replace", (Wrap_method_path, "replace"));
  ("resolve", (Wrap_method_path, "resolve"));
  ("rmdir", (Wrap_method, "rmdir"));
  ("symlink_to", (Wrap_method, "symlink_to"));
  ("hardlink_to", (Wrap_method, "hardlink_to"));
  ("touch", (Wrap_method, "touch"));
  ("unlink", (Wrap_method, "unlink"));
  ("absolute", (Wrap_method_path, "absolute"));
  ("expanduser", (Wrap_method_path, "expanduser"));
  ("read_bytes", (Wrap_method, "read_bytes"));
  ("read_text", (Wrap_method, "read_text"));
  ("write_bytes", (Wrap_method, "write_bytes"));
  ("write_text", (Wrap_method, "write_text"))].

Definition Path_samefile (self : path) (other_path : parg) : pyM pathE pval :=
  _wraps_async (fun '(self, a) => pcall (PCall "samefile" (Some (wrapped_cls self)) [_unwrap a] [])) (self, other_path).

Definition Path_copy (self : path) (target : parg) (kw : kwargs) : pyM pathE pval :=
  _wraps_async (fun '(self, a, kw) =>
    let! r := pcall (PCall "copy" (Some (wrapped_cls self)) [_unwrap a] kw) in
    Ret (VPath <$>R rewrap self r)) (self, target, kw).
Definition Path_copy_into (self : path) (target_dir : parg) (kw : kwargs) : pyM pathE pval :=
  _wraps_async (fun '(self, a, kw) =>
    let! r := pcall (PCall "copy_into" (Some (wrapped_cls self)) [_unwrap a] kw) in
    Ret (VPath <$>R rewrap self r)) (self, target_dir, kw).
Definition Path_move (self : path) (target : parg) : pyM pathE pval :=
  _wraps_async (fun '(self, a) =>
    let! r := pcall (PCall "move" (Some (wrapped_cls self)) [_unwrap a] []) in
    Ret (VPath <$>R rewrap self r)) (self, target).
Definition Path_move_into (self : path) (target_dir : parg) : pyM pathE pval :=
  _wraps_async (fun '(self, a) =>
    let! r := pcall (PCall "move_into" (Some (wrapped_cls self)) [_unwrap a] []) in
    Ret (VPath <$>R rewrap self r)) (self, target_dir).

Definition Path_walk (self : path) (args : list parg) (kw : kwargs) : pyM pathE pval :=
  _wraps_async (fun '(self, args, kw) =>
    let! r := pcall (PCall "walk" (Some (wrapped_cls self)) args kw) in
    match r with
    | VWalk l => Ret (VWalk <$>R mapr (fun '(dirpath, dirnames, filenames) =>
        (fun d => (d, dirnames, filenames)) <$>R rewrap self (VPath dirpath)) l)
    | _ => praise (TypeError "object is not iterable")
    end) (self, args, kw).

Definition Path_from_uri (cls : pcls) (uri : text) : result path :=
  match lib_from_uri hostname uri with Ok p => Path_new cls [APath p] | Err e => Err e end.
Definition Path_as_uri (self : path) : result text := lib_as_uri self.

(** A method of the class, by its name. *)
Definition Path_call (name : string) (self : path) (args : list parg) (kw : kwargs) : pyM pathE pval :=
  match List.find (fun r => bool_decide (fst r = name)) METHODS with
  | Some (_, (Wrap_method, fn)) => _wrap_method fn (self, args, kw)
  | Some (_, (Wrap_method_path, fn)) => _wrap_method_path fn (self, args, kw)
  | Some (_, (Wrap_method_path_iterable, fn)) => _wrap_method_path_iterable fn (self, args, kw)
  | None =>
      match args, kw with
      | [a], [] =>
          if String.eqb name "samefile" then Path_samefile self a
          else if String.eqb name "copy" then Path_copy self a kw
          else if String.eqb name "copy_into" then Path_copy_into self a kw
          else if String.eqb name "move" then Path_move self a
          else if String.eqb name "move_into" then Path_move_into self a
          else if String.eqb name "walk" then Path_walk self args kw
          else praise (AttributeError name)
      | [a], _ =>
          if String.eqb name "copy" then Path_copy self a kw
          else if String.eqb name "copy_into" then Path_copy_into self a kw
          else if String.eqb name "walk" then Path_walk self args kw
          else praise (TypeError "got an unexpected keyword argument")
      | _, _ =>
          if String.eqb name "walk" then Path_walk self args kw
          else praise (TypeError "wrong number of arguments")
      end
  end.
End Path.
End ColoredPath.
