(* ===== verification/FsPathProps.v ===== *)
(** * Paths: URIs and the methods of [pathlib]

    A path survives the trip through its [file:] URI, and each method of [Path] does what the
    method of [pathlib.Path] of the same name does, with paths of its own class. *)

From stdpp Require Import base numbers list gmap sets strings.
From Stdlib Require Import ZArith NArith Lia Ascii.
From ITree Require Import ITree ITreeFacts.
From S2P Require Import Prelude Coro Os File FsPath.

Open Scope tonio_scope.
Open Scope nat_scope.
Open Scope list_scope.
#[local] Set Warnings "-clear-no-such-hyp".

(** ** Well-formed paths *)

Definition part_ok (x : text) : Prop := keeps_part x = true /\ slash ∉ x.
Definition wf_path (p : path) : Prop :=
  (p_root p = [] \/ p_root p = [slash] \/ p_root p = [slash; slash]) /\ Forall part_ok (p_tail p).

(** Does not start with a slash. *)
Definition relative (s : text) : Prop := head s <> Some slash.

Lemma eqb_slash c : Ascii.eqb c slash = bool_decide (c = slash).
Proof. destruct (Ascii.eqb_spec c slash); [by rewrite bool_decide_true|by rewrite bool_decide_false]. Qed.

Lemma split_no_slash x : slash ∉ x -> split_slash x = [x].
Proof.
  induction x as [|c x IH]; intros Hx; [done|]. apply not_elem_of_cons in Hx as [Hc Hx]. simpl.
  rewrite eqb_slash, bool_decide_false by done. by rewrite IH.
Qed.

Lemma split_app x s : slash ∉ x -> split_slash (x ++ slash :: s) = x :: split_slash s.
Proof.
  induction x as [|c x IH]; intros Hx; [done|]. apply not_elem_of_cons in Hx as [Hc Hx]. simpl.
  rewrite eqb_slash, bool_decide_false by done. by rewrite IH.
Qed.

Lemma split_join x l : Forall part_ok (x :: l) -> split_slash (join_slash (x :: l)) = x :: l.
Proof.
  revert x. induction l as [|y l IH]; intros x [[_ Hx] Hl]%Forall_cons; [by apply split_no_slash|].
  change (join_slash (x :: y :: l)) with (x ++ slash :: join_slash (y :: l)).
  rewrite split_app by done. by rewrite IH.
Qed.

Lemma filter_parts l : Forall part_ok l -> List.filter keeps_part l = l.
Proof. induction 1 as [|x l [Hx _] _ IH]; simpl; [done|]. by rewrite Hx, IH. Qed.

Lemma split_join_filter l : Forall part_ok l -> List.filter keeps_part (split_slash (join_slash l)) = l.
Proof. intros Hl. destruct l as [|x l]; [done|]. rewrite split_join by done. by apply filter_parts. Qed.

Lemma join_relative l : Forall part_ok l -> relative (join_slash l).
Proof.
  unfold relative. destruct 1 as [|x l [Hk Hx] Hl]; [done|].
  assert (x <> []) as Hne by (by apply bool_decide_eq_true in Hk as [? _]).
  destruct x as [|c x]; [done|]. apply not_elem_of_cons in Hx as [Hc _].
  destruct l; simpl; congruence.
Qed.

Lemma splitroot_app r s : (r = [] \/ r = [slash] \/ r = [slash; slash]) -> relative s ->
  splitroot (r ++ s) = (r, s).
Proof.
  intros Hr Hs. destruct s as [|c s].
  - rewrite app_nil_r. destruct Hr as [->|[->| ->]]; reflexivity.
  - assert (Ascii.eqb c slash = false) as Hc by (rewrite eqb_slash; apply bool_decide_false; unfold relative in Hs; simpl in *; congruence).
    destruct Hr as [->|[->| ->]]; cbn -[Ascii.eqb]; rewrite ?Hc; reflexivity.
Qed.

(** Printing and parsing back. *)
Lemma parse_str cls p : wf_path p -> parse_path cls (path_str p) = mkPath cls (p_root p) (p_tail p).
Proof.
  intros [Hr Ht]. unfold path_str.
  destruct (p_root p ++ join_slash (p_tail p)) as [|c s] eqn:Hs.
  - apply app_nil in Hs as [-> Hj]. destruct (p_tail p) as [|x l]; [done|].
    pose proof (join_relative _ Ht) as Hrel. apply Forall_cons in Ht as [[Hx _] _].
    apply bool_decide_eq_true in Hx as [Hx _]. destruct l; simpl in Hj; [done|]. by destruct x.
  - rewrite <- Hs. unfold parse_path. rewrite splitroot_app; [|done|by apply join_relative].
    by rewrite split_join_filter.
Qed.

Lemma split_parts s : Forall (fun x => slash ∉ x) (split_slash s).
Proof.
  induction s as [|c s IH]; simpl; [repeat constructor; by intros ?%elem_of_nil|].
  destruct (Ascii.eqb c slash) eqn:Hc; [constructor; [by intros ?%elem_of_nil|done]|].
  rewrite eqb_slash in Hc. apply bool_decide_eq_false in Hc.
  destruct (split_slash s) as [|x l]; [repeat constructor; set_solver|].
  apply Forall_cons in IH as [Hx Hl]. constructor; [set_solver|done].
Qed.

Lemma parse_wf cls s : wf_path (parse_path cls s).
Proof.
  unfold parse_path. destruct (splitroot s) as [r rel] eqn:Hs. split; simpl.
  - unfold splitroot in Hs. repeat case_match; simplify_eq; auto.
  - pose proof (split_parts rel) as Hp. induction Hp as [|x l Hx Hl IH]; simpl; [done|].
    destruct (keeps_part x) eqn:Hk; [|done]. by constructor.
Qed.

Lemma make_path_one cls p : wf_path p -> make_path cls [APath p] = Ok (mkPath cls (p_root p) (p_tail p)).
Proof. intros Hp. unfold make_path. simpl. by rewrite parse_str. Qed.

Lemma wrapped_cls_eq p : wf_path p -> wrapped_cls p = lib_path p.
Proof. apply parse_str. Qed.

(** ** Percent encoding *)

Lemma unquote_quote1 c s : unquote (quote1 c ++ s) = c :: unquote s.
Proof.
  unfold quote1. destruct c as [[] [] [] [] [] [] [] []]; simpl; try reflexivity;
    destruct s as [|a [|b s]]; reflexivity.
Qed.

Lemma unquote_quote s : unquote (quote s) = s.
Proof.
  induction s as [|c s IH]; [done|]. unfold quote in *. simpl. by rewrite unquote_quote1, IH.
Qed.

(** What a quoted text is made of. *)
Definition uri_char (c : ascii) : bool := is_safe c || Ascii.eqb c "%"%char.

Lemma quote_chars s c : c ∈ quote s -> uri_char c = true.
Proof.
  unfold quote. intros Hc. apply list_elem_of_In, in_concat in Hc as (x & Hx & Hc).
  apply in_map_iff in Hx as (d & <- & _). unfold quote1 in Hc.
  destruct d as [[] [] [] [] [] [] [] []]; simpl in Hc; intuition subst; reflexivity.
Qed.

Lemma uri_char_plain c : uri_char c = true ->
  is_control_or_space c = false /\ is_unsafe_byte c = false /\ Ascii.eqb "#"%char c = false /\
  Ascii.eqb "?"%char c = false.
Proof. destruct c as [[] [] [] [] [] [] [] []]; intros Hc; first [discriminate Hc|done]. Qed.

Lemma span_none f s : (forall c, c ∈ s -> f c = false) -> span f s = (s, []).
Proof.
  induction s as [|c s IH]; intros Hs; [done|]. simpl. rewrite (Hs c) by set_solver.
  rewrite IH; [done|]. intros d Hd. apply Hs. set_solver.
Qed.

Lemma filter_plain s : (forall c, c ∈ s -> is_unsafe_byte c = false) ->
  List.filter (fun c => negb (is_unsafe_byte c)) s = s.
Proof.
  induction s as [|c s IH]; intros Hs; [done|]. simpl. rewrite (Hs c) by set_solver. simpl.
  rewrite IH; [done|]. intros d Hd. apply Hs. set_solver.
Qed.

(** ** URIs *)

Lemma urlsplit_file q : (forall c, c ∈ q -> uri_char c = true) -> head q = Some slash ->
  urlsplit (txt "file:" ++ txt "//" ++ q) = Ok (txt "file", [], q).
Proof.
  intros Hq Hh. unfold urlsplit.
  assert (forall c, c ∈ txt "file:" ++ txt "//" ++ q -> is_unsafe_byte c = false) as Hplain.
  { intros c. rewrite !elem_of_app. intros [Hc|[Hc|Hc]]; [..|by apply uri_char_plain, Hq];
      (apply list_elem_of_In in Hc; simpl in Hc; intuition subst; reflexivity). }
  change (lstrip is_control_or_space (txt "file:" ++ txt "//" ++ q)) with (txt "file:" ++ txt "//" ++ q).
  rewrite filter_plain by done.
  assert (span (Ascii.eqb "#"%char) q = (q, []) /\ span (Ascii.eqb "?"%char) q = (q, [])) as [Hs1 Hs2]
    by (split; apply span_none; intros c Hc; by apply uri_char_plain, Hq).
  set (fh := Ascii.eqb "#"%char) in *. set (fq := Ascii.eqb "?"%char) in *. clearbody fh fq. clear Hplain.
  destruct q as [|c q]; [done|]. simpl in Hh. injection Hh as ->.
  transitivity (Ok (txt "file", [] : text, fst (span fq (fst (span fh (slash :: q)))))); [reflexivity|].
  by rewrite Hs1; unfold fst at 2; rewrite Hs2.
Qed.

Lemma unquote_slash s : unquote (slash :: s) = slash :: unquote s.
Proof. destruct s as [|a [|b s]]; reflexivity. Qed.

Definition rooted (p : path) : Prop := p_root p = [slash] \/ p_root p = [slash; slash].

Lemma rooted_absolute p : wf_path p -> is_absolute p = true -> rooted p.
Proof. intros [[Hr|Hr] _] Ha; [|done]. apply bool_decide_eq_true in Ha. by rewrite Hr in Ha. Qed.

Lemma as_uri_eq p : wf_path p -> rooted p ->
  Path_as_uri p = Ok (txt "file:" ++ txt "//" ++ p_root p ++ quote (join_slash (p_tail p))).
Proof.
  intros [Hr Ht] Hroot. unfold Path_as_uri, lib_as_uri, is_absolute.
  rewrite bool_decide_true by (destruct Hroot as [-> | ->]; done). simpl. unfold pathname2url, path_str.
  destruct (p_root p ++ join_slash (p_tail p)) as [|c s] eqn:Hs; [by apply app_nil in Hs as [Hs _]; destruct Hroot; congruence|].
  rewrite <- Hs, splitroot_app by (done || by apply join_relative). simpl.
  destruct Hroot as [-> | ->]; reflexivity.
Qed.

Lemma url2pathname_eq hostname p : wf_path p -> rooted p ->
  url2pathname hostname (txt "file:" ++ txt "//" ++ p_root p ++ quote (join_slash (p_tail p))) = Ok (path_str p).
Proof.
  intros [Hr Ht] Hroot. unfold url2pathname. rewrite urlsplit_file.
  - rewrite bool_decide_true by done. rewrite bool_decide_true by auto. cbn [negb]. unfold path_str.
    destruct Hroot as [-> | ->]; cbn [app]; rewrite !unquote_slash, unquote_quote; reflexivity.
  - intros c. rewrite elem_of_app. intros [Hc|Hc]; [|by eapply quote_chars].
    apply list_elem_of_In in Hc. destruct Hroot as [E|E]; rewrite E in Hc; simpl in Hc; intuition subst; reflexivity.
  - destruct Hroot as [-> | ->]; reflexivity.
Qed.

(** [C37] A path survives the trip through its URI.  For every path [Path] builds from text, of any
    bytes: if it is absolute, [as_uri] gives a [file:] URI of printable ASCII characters, and
    [from_uri] of it gives that same path back, whatever the machine is called; if it is relative,
    [as_uri] raises [ValueError].  So the URIs of different paths differ.  Both APIs. *)
Theorem uri_roundtrip hostname s :
  let p := parse_path TPosixPath s in
  if is_absolute p then
    exists u, Path_as_uri p = Ok (txt "file:" ++ u) /\ (forall c, c ∈ u -> uri_char c = true) /\
      Path_from_uri hostname TPath (txt "file:" ++ u) = Ok p /\
      ColoredPath.Path_as_uri p = Ok (txt "file:" ++ u) /\
      ColoredPath.Path_from_uri hostname TPath (txt "file:" ++ u) = Ok p
  else exists m, Path_as_uri p = Err (ValueError m) /\ ColoredPath.Path_as_uri p = Err (ValueError m).
Proof.
  intros p. assert (wf_path p) as Hp by apply parse_wf. destruct (is_absolute p) eqn:Ha.
  - pose proof (rooted_absolute p Hp Ha) as Hroot.
    exists (txt "//" ++ p_root p ++ quote (join_slash (p_tail p))).
    assert (Path_from_uri hostname TPath (txt "file:" ++ txt "//" ++ p_root p ++ quote (join_slash (p_tail p))) = Ok p) as Hf.
    { unfold Path_from_uri, lib_from_uri. rewrite url2pathname_eq by done. rewrite parse_str by done.
      unfold is_absolute in *. simpl. rewrite Ha. unfold Path_new.
      rewrite make_path_one by done. destruct p as [cls r t] eqn:E. f_equal. simpl. f_equal.
      change cls with (p_cls (mkPath cls r t)). rewrite <- E. unfold p, parse_path. by destruct (splitroot s). }
    split_and!; [by apply as_uri_eq| |done|by apply as_uri_eq|done].
    intros c. rewrite !elem_of_app. intros [Hc|[Hc|Hc]]; [| |by eapply quote_chars];
      apply list_elem_of_In in Hc; [|destruct Hroot as [E|E]; rewrite E in Hc]; simpl in Hc; intuition subst; reflexivity.
  - exists "relative paths can't be expressed as file URIs"%string.
    unfold Path_as_uri, ColoredPath.Path_as_uri, lib_as_uri. by rewrite Ha.
Qed.

(** ** Methods *)

(** What the functions of [pathlib.Path] that touch the file system return, as documented. *)
Inductive retkind := KObj | KPath | KPaths | KWalk.

Definition LIB : list (string * retkind) := [
  ("stat", KObj); ("chmod", KObj); ("exists", KObj); ("glob", KPaths); ("rglob", KPaths); ("is_dir", KObj);
  ("is_file", KObj); ("is_symlink", KObj); ("is_socket", KObj); ("is_fifo", KObj); ("is_block_device", KObj);
  ("is_char_device", KObj); ("is_junction", KObj); ("iterdir", KPaths); ("lchmod", KObj); ("lstat", KObj);
  ("mkdir", KObj); ("owner", KObj); ("group", KObj); ("is_mount", KObj); ("readlink", KPath); ("rename", KPath);
  ("replace", KPath); ("resolve", KPath); ("rmdir", KObj); ("symlink_to", KObj); ("hardlink_to", KObj);
  ("touch", KObj); ("unlink", KObj); ("absolute", KPath); ("expanduser", KPath); ("read_bytes", KObj);
  ("read_text", KObj); ("write_bytes", KObj); ("write_text", KObj); ("samefile", KObj); ("copy", KPath);
  ("copy_into", KPath); ("move", KPath); ("move_into", KPath); ("walk", KWalk)]%string.

(** The methods that look inside a path they are given; they take it as their only argument. *)
Definition TAKES_PATH : list string := ["samefile"; "copy"; "copy_into"; "move"; "move_into"]%string.

Definition returns (k : retkind) (v : pval) : Prop :=
  match k, v with
  | KObj, VObj _ => True
  | KPath, VPath p => wf_path p
  | KPaths, VPaths l => Forall wf_path l
  | KWalk, VWalk l => Forall (fun '(p, _, _) => wf_path p) l
  | _, _ => False
  end.

(** The same place, as a [tonio] path. *)
Definition tonio_path (p : path) : path := mkPath TPosixPath (p_root p) (p_tail p).
Definition to_tonio (v : pval) : pval :=
  match v with
  | VPath p => VPath (tonio_path p)
  | VPaths l => VPaths (List.map tonio_path l)
  | VWalk l => VWalk (List.map (fun '(d, ds, fs) => (tonio_path d, ds, fs)) l)
  | v => v
  end.

(** An argument [pathlib] can use: no pure path that is not a concrete one. *)
Definition concrete (a : parg) : Prop := match a with APath p => p_cls p = LibPosix | _ => True end.

(** The arguments [pathlib] is called with. *)
Definition lib_args (name : string) (args : list parg) : list parg :=
  if bool_decide (name ∈ TAKES_PATH) then List.map _unwrap args else args.

Definition arity_ok (name : string) (args : list parg) (kw : kwargs) : Prop :=
  name ∈ TAKES_PATH -> length args = 1 /\ (name <> "copy" -> name <> "copy_into" -> kw = [])%string.

Lemma unwrap_concrete a : concrete (_unwrap a).
Proof. destruct a as [|p|]; simpl; try done. by case_bool_decide. Qed.

Lemma mapr_ok {A B} (f : A -> result B) (g : A -> B) l : Forall (fun a => f a = Ok (g a)) l -> mapr f l = Ok (List.map g l).
Proof. induction 1 as [|a l Ha _ IH]; simpl; [done|]. by rewrite Ha, IH. Qed.

Lemma rewrap_path self p : p_cls self = TPosixPath -> wf_path p -> rewrap self (VPath p) = Ok (tonio_path p).
Proof. intros Hs Hp. unfold rewrap, Path_new. rewrite Hs. by apply make_path_one. Qed.

Section Methods.
Context {S : Type} (H : forall X, pathE X -> S -> option (X * S)) (self : path) (kw : kwargs).
Hypothesis Hself : wf_path self.
Hypothesis Hcls : p_cls self = TPosixPath.

(** One step of [pathlib], on the concrete path. *)
Lemma lib_call name args r s s' :
  H _ (PCall name (Some (lib_path self)) args kw) s = Some (r, s') ->
  runs H (pcall (PCall name (Some (wrapped_cls self)) args kw)) s r s'.
Proof. intros Hh. apply runs_pcall. by rewrite wrapped_cls_eq. Qed.

(** What the class makes of what [pathlib] gives. *)
Lemma path_runs name args r s s' :
  H _ (PCall name (Some (lib_path self)) args kw) s = Some (r, s') ->
  (forall v, r = Ok v -> returns KPath v) ->
  runs H (let! r := pcall (PCall name (Some (wrapped_cls self)) args kw) in Ret (VPath <$>R rewrap self r)) s
    (to_tonio <$>R r) s'.
Proof.
  intros Hh Hv. destruct r as [v|e]; [|eapply runs_pbind_err, lib_call, Hh].
  eapply runs_pbind; [by apply lib_call|]. specialize (Hv v eq_refl). destruct v as [|p| | |]; try done.
  rewrite rewrap_path by done. apply runs_ret.
Qed.

Lemma paths_runs name args r s s' :
  H _ (PCall name (Some (lib_path self)) args kw) s = Some (r, s') ->
  (forall v, r = Ok v -> returns KPaths v) ->
  runs H (_wrap_method_path_iterable name (self, args, kw)) s (to_tonio <$>R r) s'.
Proof.
  intros Hh Hv. destruct r as [v|e]; [|eapply runs_pbind_err, lib_call, Hh].
  eapply runs_pbind; [by apply lib_call|]. specialize (Hv v eq_refl). destruct v as [| |l| |]; try done.
  rewrite (mapr_ok _ tonio_path); [apply runs_ret|]. eapply Forall_impl; [exact Hv|].
  intros p Hp. by apply rewrap_path.
Qed.

Lemma walk_runs args r s s' :
  H _ (PCall "walk" (Some (lib_path self)) args kw) s = Some (r, s') ->
  (forall v, r = Ok v -> returns KWalk v) ->
  runs H (Path_walk self args kw) s (to_tonio <$>R r) s'.
Proof.
  intros Hh Hv. destruct r as [v|e]; [|eapply runs_pbind_err, lib_call, Hh].
  eapply runs_pbind; [by apply lib_call|]. specialize (Hv v eq_refl). destruct v as [| | |l|]; try done.
  rewrite (mapr_ok _ (fun '(d, ds, fs) => (tonio_path d, ds, fs))); [apply runs_ret|].
  eapply Forall_impl; [exact Hv|]. intros [[p ds] fs] Hp. by rewrite rewrap_path.
Qed.

Lemma obj_runs name args r s s' :
  H _ (PCall name (Some (lib_path self)) args kw) s = Some (r, s') ->
  (forall v, r = Ok v -> returns KObj v) ->
  runs H (pcall (PCall name (Some (wrapped_cls self)) args kw)) s (to_tonio <$>R r) s'.
Proof.
  intros Hh Hv. replace (to_tonio <$>R r) with r; [by apply lib_call|].
  destruct r as [v|e]; [|done]. specialize (Hv v eq_refl). by destruct v.
Qed.
End Methods.

(** The wrapper a documented result asks for. *)
Definition wrap_for (k : retkind) : option wrap :=
  match k with
  | KObj => Some Wrap_method | KPath => Some Wrap_method_path | KPaths => Some Wrap_method_path_iterable
  | KWalk => None
  end.

(** Every name is in the class's table with the function of that name and the right wrapper, but
    for the six that are written out. *)
Lemma table_ok name k : (name, k) ∈ LIB ->
  (name ∈ TAKES_PATH \/ name = "walk"%string) \/
  exists w, wrap_for k = Some w /\ List.find (fun r => bool_decide (fst r = name)) METHODS = Some (name, (w, name)).
Proof.
  intros Hin.
  assert (forallb (fun '(n, k) => bool_decide (n ∈ TAKES_PATH \/ n = "walk"%string) ||
    match wrap_for k with
    | Some w => bool_decide (List.find (fun r => bool_decide (fst r = n)) METHODS = Some (n, (w, n)))
    | None => false
    end) LIB = true) as Hall by (vm_compute; reflexivity).
  rewrite forallb_forall in Hall. specialize (Hall _ (proj1 (list_elem_of_In _ _) Hin)). simpl in Hall.
  apply orb_true_iff in Hall as [Hs%bool_decide_eq_true|Hs]; [by left|right].
  destruct (wrap_for k) as [w|]; [|done]. apply bool_decide_eq_true in Hs. eauto.
Qed.

(** The six: what they return, and that they are not in the table. *)
Lemma special_ok name k : (name, k) ∈ LIB -> name ∈ TAKES_PATH \/ name = "walk"%string ->
  (name = "samefile" /\ k = KObj \/ name ∈ ["copy"; "copy_into"; "move"; "move_into"] /\ k = KPath \/
   name = "walk" /\ k = KWalk)%string.
Proof.
  intros Hin%list_elem_of_In Hs. unfold LIB in Hin. simpl in Hin.
  destruct_or!; simplify_eq; try (exfalso; revert Hs; vm_compute; set_solver);
    first [by left|by (right; left; split; [set_solver|])|by (right; right)].
Qed.

(** The methods written out, and [walk]. *)
Lemma special_runs {S : Type} (H : forall X, pathE X -> S -> option (X * S)) self name k args kw r s s' :
  (name, k) ∈ LIB -> name ∈ TAKES_PATH \/ name = "walk"%string ->
  wf_path self -> p_cls self = TPosixPath -> arity_ok name args kw ->
  H _ (PCall name (Some (lib_path self)) (lib_args name args) kw) s = Some (r, s') ->
  (forall v, r = Ok v -> returns k v) ->
  runs H (Path_call name self args kw) s (to_tonio <$>R r) s'.
Proof.
  intros Hin Hsp Hw Hc Har Hh Hr. destruct (special_ok name k Hin Hsp) as [[-> ->]|[[Hn ->]|[-> ->]]].
  - destruct (Har ltac:(set_solver)) as [Hl Hkw]. destruct args as [|a [|]]; try done.
    specialize (Hkw ltac:(done) ltac:(done)). subst kw. by apply (obj_runs H self []).
  - assert (name ∈ TAKES_PATH) as Ht by set_solver. destruct (Har Ht) as [Hl Hkw].
    destruct args as [|a [|]]; try done. unfold lib_args in Hh. rewrite bool_decide_true in Hh by done.
    assert (name = "copy" \/ name = "copy_into" \/ (name = "move" \/ name = "move_into") /\ kw = [])%string
      as [->|[->|[[->| ->] ->]]].
    { rewrite !elem_of_cons, elem_of_nil in Hn. destruct Hn as [->|[->|[->|[->|[]]]]]; auto 6. }
    + by destruct kw; apply (path_runs H self).
    + by destruct kw; apply (path_runs H self).
    + by apply (path_runs H self []).
    + by apply (path_runs H self []).
  - assert (Path_call "walk" self args kw = Path_walk self args kw) as ->
      by (destruct args as [|? []], kw; reflexivity).
    by apply walk_runs.
Qed.

(** [C38] The methods of [Path] are those of [pathlib.Path].  For each of the 41 methods that touch
    the file system: called on a path of [tonio], in either API, it calls the function of the same
    name of [pathlib.Path] on the concrete path of the same place, with the arguments it was given,
    and raises what that raises or returns what that returns, every path in it replaced by the
    [tonio] path of the same place: no path of [pathlib], whose methods would block, comes out.
    The functions that use a path they are given as more than a name get it as a concrete path.
    What [pathlib] returns is assumed to be of the kind it documents. *)
Theorem path_methods_equiv {S : Type} (H : forall X, pathE X -> S -> option (X * S)) self name k args kw r s s' :
  (name, k) ∈ LIB -> wf_path self -> p_cls self = TPosixPath -> arity_ok name args kw ->
  H _ (PCall name (Some (lib_path self)) (lib_args name args) kw) s = Some (r, s') ->
  (forall v, r = Ok v -> returns k v) ->
  runs H (Path_call name self args kw) s (to_tonio <$>R r) s' /\
  runs H (ColoredPath.Path_call name self args kw) s (to_tonio <$>R r) s' /\
  (name ∈ TAKES_PATH -> Forall concrete (lib_args name args)).
Proof.
  intros Hin Hw Hc Har Hh Hr.
  assert (runs H (Path_call name self args kw) s (to_tonio <$>R r) s') as Hrun.
  { destruct (table_ok name k Hin) as [Hsp|(w & Hwr & Hf)]; [by eapply special_runs|].
    assert (name ∉ TAKES_PATH) as Hn.
    { intros Ht. assert (Forall (fun n => List.find (fun r => bool_decide (fst r = n)) METHODS = None) TAKES_PATH)
        as HF by (repeat constructor). rewrite Forall_forall in HF. by rewrite (HF _ Ht) in Hf. }
    unfold lib_args in Hh. rewrite bool_decide_false in Hh by done. unfold Path_call. rewrite Hf.
    destruct k; try discriminate Hwr; injection Hwr as <-; [by apply obj_runs|by apply path_runs|by apply paths_runs]. }
  split_and!; [done|exact Hrun|]. intros Ht. unfold lib_args. rewrite bool_decide_true by done.
  apply Forall_map, Forall_forall. intros a _. apply unwrap_concrete.
Qed.

(** [Path('a').copy(Path('b'))]. *)
Definition toy_copy (X : Type) (e : pathE X) (s : unit) : option (X * unit) :=
  match e in pathE X return option (X * unit) with
  | PCall _ _ [APath p] _ => Some (Ok (VPath p), s)
  | PCall _ _ _ _ => Some (Err (ValueError "no such file"), s)
  end.

Lemma path_methods_equiv_witness :
  let a := parse_path TPosixPath (txt "a") in
  let b := parse_path TPosixPath (txt "b") in
  runs toy_copy (Path_call "copy" a [APath b] []) tt (Ok (VPath b)) tt /\
  runs toy_copy (ColoredPath.Path_call "copy" a [APath b] []) tt (Ok (VPath b)) tt /\
  ("copy"%string ∈ TAKES_PATH -> Forall concrete (lib_args "copy" [APath b])).
Proof.
  intros a b.
  apply (path_methods_equiv toy_copy a "copy" KPath [APath b] [] (Ok (VPath (lib_path b))) tt tt).
  - apply (list_elem_of_lookup_2 _ 36). reflexivity.
  - apply parse_wf.
  - reflexivity.
  - intros _. split; [reflexivity|]. intros; reflexivity.
  - reflexivity.
  - intros v Hv. injection Hv as <-. apply (parse_wf LibPosix (txt "b")).
Defined.
