(* ===== verification/Runtime.v ===== *)
(** * The runtime's Python side

    [src/tonio/_runtime.py] and the functions of [src/tonio/_signals.py] it uses: starting and
    stopping the self-socket and signal handling around the loop of [src/src/runtime.rs], and
    running a coroutine to its end; [src/tonio/_deco.py] and [src/tonio/_io.py].  The parts that
    only this thread runs thread a state; [run_until_complete] and the two tasks it starts are
    coroutines over shared operations. *)

From stdpp Require Import base numbers list gmap strings.
From Stdlib Require Import ZArith QArith Lia.
From ITree Require Import ITree ITreeFacts.
From S2P Require Import Prelude Coro Os Spawn Timing.

Open Scope tonio_scope.
Open Scope string_scope.

(** ** State *)

(** Signal dispositions of the process. *)
Inductive sighandler := SIG_DFL | SIG_IGN | NoOp | DefaultInt | UserHandler (n : nat).
#[global] Instance sighandler_eq_dec : EqDecision sighandler.
Proof. solve_decision. Defined.

(** The attributes the runtime object has for this. *)
Record runtime := mkRuntime {
  _ssock_r : option nat; _ssock_w : option nat; _sig_wfd : option Z; _sig_listening : bool;
  _stopping : bool; _sigset : list Z
}.

(** The process: the wakeup descriptor ([-1]: none), the dispositions, and whether this is the
    main thread. *)
Record process := mkProcess { wakeup : Z; handlers : gmap Z sighandler; on_main : bool }.

Record world := mkWorld { w_rt : runtime; w_os : process }.

(** Functions that return or raise in a state. *)
Definition rtM (A : Type) : Type := world -> result A * world.

Definition rret {A} (a : A) : rtM A := fun w => (Ok a, w).
Definition rraise {A} (e : exn) : rtM A := fun w => (Err e, w).
Definition rbind {A B} (c : rtM A) (k : A -> rtM B) : rtM B :=
  fun w => match c w with (Ok a, w') => k a w' | (Err e, w') => (Err e, w') end.
(** [try: c except ..: h e]; [None] where no clause matches. *)
Definition rtry {A} (c : rtM A) (h : exn -> option (rtM A)) : rtM A :=
  fun w => match c w with
           | (Ok a, w') => (Ok a, w')
           | (Err e, w') => match h e with Some d => d w' | None => (Err e, w') end
           end.
(** [try: c finally: f]. *)
Definition rfinally {A} (c : rtM A) (f : rtM unit) : rtM A :=
  fun w => let '(r, w1) := c w in
           match f w1 with (Ok _, w2) => (r, w2) | (Err e, w2) => (Err e, w2) end.

Notation "'do!' x ':=' c 'in' k" := (rbind c (fun x => k)) (at level 10, x name, k at level 200) : tonio_scope.
Notation "'do_' c 'in' k" := (rbind c (fun _ => k)) (at level 10, k at level 200) : tonio_scope.

Definition rget {A} (f : world -> A) : rtM A := fun w => (Ok (f w), w).
Definition set_rt (f : runtime -> runtime) : rtM unit := fun w => (Ok tt, mkWorld (f (w_rt w)) (w_os w)).
Definition set_os (f : process -> process) : rtM unit := fun w => (Ok tt, mkWorld (w_rt w) (f (w_os w))).

(** [for x in l: f(x)]. *)
Fixpoint rfor {A} (l : list A) (f : A -> rtM unit) : rtM unit :=
  match l with [] => rret tt | x :: l => do_ f x in rfor l f end.

Definition set_ssock (r w : option nat) (s : runtime) : runtime :=
  mkRuntime r w (_sig_wfd s) (_sig_listening s) (_stopping s) (_sigset s).
Definition set_listening (b : bool) (s : runtime) : runtime :=
  mkRuntime (_ssock_r s) (_ssock_w s) (_sig_wfd s) b (_stopping s) (_sigset s).
Definition set_wfd (fd : Z) (s : runtime) : runtime :=
  mkRuntime (_ssock_r s) (_ssock_w s) (Some fd) (_sig_listening s) (_stopping s) (_sigset s).
Definition set_stopping (b : bool) (s : runtime) : runtime :=
  mkRuntime (_ssock_r s) (_ssock_w s) (_sig_wfd s) (_sig_listening s) b (_sigset s).
Definition set_wakeup (fd : Z) (p : process) : process := mkProcess fd (handlers p) (on_main p).
Definition set_handler (sig : Z) (h : sighandler) (p : process) : process :=
  mkProcess (wakeup p) (<[sig := h]> (handlers p)) (on_main p).

Definition SIGINT : Z := 2.
Definition EINVAL : Z := 22.

Section Signals.
(** The operating system: the signals there are, those that can be caught, the descriptors of a
    socket pair, and the number of a socket's descriptor. *)
Context (valid_signals catchable : Z -> bool) (socketpair : result (nat * nat)) (setblocking : nat -> result unit)
  (fileno : nat -> Z).

(** [signal.set_wakeup_fd] and [signal.signal] work on the main thread only. *)
Definition set_wakeup_fd (fd : Z) : rtM Z :=
  do! main := rget (fun w => on_main (w_os w)) in
  if main then do! old := rget (fun w => wakeup (w_os w)) in do_ set_os (set_wakeup fd) in rret old
  else rraise (ValueError "set_wakeup_fd only works in main thread of the main interpreter").
Definition signal_signal (sig : Z) (h : sighandler) : rtM unit :=
  do! main := rget (fun w => on_main (w_os w)) in
  if negb main then rraise (ValueError "signal only works in main thread of the main interpreter")
  else if negb (valid_signals sig) then rraise (ValueError "signal number out of range")
  else if negb (catchable sig) then rraise (OSError OSPlain (Some EINVAL))
  else set_os (set_handler sig h).

(** ** [_signals.py] *)

Definition _is_main_thread : rtM bool := rget (fun w => on_main (w_os w)).

Definition _check_sig (sig : pyobj) : rtM Z :=
  match sig with
  | PInt z => if negb (valid_signals z) then rraise (ValueError "invalid signal number") else rret z
  | PBool b => let z := if b then 1%Z else 0%Z in
               if negb (valid_signals z) then rraise (ValueError "invalid signal number") else rret z
  | _ => rraise (TypeError "sig must be an int")
  end.

Definition _set_sig_wfd (fd : Z) : rtM Z := set_wakeup_fd fd.

(** [except OSError as exc]. *)
Definition cannot_be_caught (e : exn) : option (rtM unit) :=
  match e with
  | OSError _ (Some n) => if (n =? EINVAL)%Z then Some (rraise (RuntimeError "signum cannot be caught")) else None
  | _ => None
  end.

(** [signal.siginterrupt(sig, False)] cannot fail after [signal.signal], and the flag it sets is not
    part of the state here. *)
Definition _sig_add (sig : Z) : rtM unit :=
  do! main := _is_main_thread in
  if negb main then rraise (ValueError "Signals can only be handled from the main thread")
  else
    do! sig := _check_sig (PInt sig) in
    rtry (signal_signal sig NoOp) cannot_be_caught.

Definition _sig_rem (sig : Z) : rtM unit :=
  do! main := _is_main_thread in
  if negb main then rraise (ValueError "Signals can only be handled from the main thread")
  else
    let handler := if (sig =? SIGINT)%Z then DefaultInt else SIG_DFL in
    rtry (signal_signal sig handler) cannot_be_caught.

(** [_signal_receiver(cls, *signals)]: the signals given to the receiver. *)
Fixpoint _signal_receiver (signals : list pyobj) : rtM (list Z) :=
  match signals with
  | [] => rret []
  | s :: l => do! z := _check_sig s in do! r := _signal_receiver l in rret (z :: r)
  end.

(** ** [Runtime] *)

Definition _ssock_start : rtM unit :=
  do! w := rget (fun w => _ssock_w (w_rt w)) in
  match w with
  | Some _ => rraise (RuntimeError "self-socket has been already setup")
  | None =>
      match socketpair with
      | Err e => rraise e
      | Ok (r, w) =>
          do_ set_rt (set_ssock (Some r) (Some w)) in
          rtry (fun wd => match setblocking r, setblocking w with
                          | Ok _, Ok _ => (Ok tt, wd) | Err e, _ => (Err e, wd) | _, Err e => (Err e, wd)
                          end)
               (fun e => if is_Exception e then Some (do_ set_rt (set_ssock None None) in rraise e) else None)
      end
  end.

Definition _ssock_stop : rtM unit :=
  do! w := rget (fun w => _ssock_w (w_rt w)) in
  match w with
  | None => rraise (RuntimeError "self-socket has not been setup")
  | Some _ => set_rt (set_ssock None None)
  end.

Definition _sig_reg : rtM unit :=
  do! ok := rtry
    (do! w := rget (fun w => _ssock_w (w_rt w)) in
     match w with
     | None => rraise (AttributeError "fileno")
     | Some s =>
         do! old := _set_sig_wfd (fileno s) in
         do_ set_rt (set_wfd old) in
         do! sigset := rget (fun w => _sigset (w_rt w)) in
         do_ rfor sigset _sig_add in rret true
     end)
    (fun e => if is_Exception e then
       Some (do! sigset := rget (fun w => _sigset (w_rt w)) in
             match sigset with [] => rret false | _ => rraise e end) else None) in
  if ok : bool then set_rt (set_listening true) else rret tt.

Definition suppress_Exception (c : rtM unit) : rtM unit :=
  rtry c (fun e => if is_Exception e then Some (rret tt) else None).

Definition _sig_dereg : rtM unit :=
  do! listening := rget (fun w => _sig_listening (w_rt w)) in
  if negb listening then rret tt
  else
    do_ set_rt (set_listening false) in
    do! sigset := rget (fun w => _sigset (w_rt w)) in
    do_ rfor sigset (fun sig => suppress_Exception (_sig_rem sig)) in
    do! fd := rget (fun w => _sig_wfd (w_rt w)) in
    match fd with
    | Some fd => do! _ := _set_sig_wfd fd in rret tt
    | None => rraise (TypeError "'>=' not supported between instances of 'NoneType' and 'int'")
    end.

Definition _run_forever_pre : rtM unit := do_ _ssock_start in _sig_reg.

Definition _run_forever_post : rtM unit :=
  do_ _sig_dereg in
  do_ _ssock_stop in
  set_rt (set_stopping false).

(** [_run]: the loop of the Rust side. *)
Definition run_forever (_run : rtM unit) : rtM unit :=
  rfinally (do_ _run_forever_pre in _run) _run_forever_post.

Definition stop : rtM unit := set_rt (set_stopping true).
End Signals.

(** ** Running a coroutine to its end *)

(** [RSpawn] gives a task to the runtime and [RStart] is where it begins; [RAwait] is
    [yield coro]; [RRun] is [run_forever]. *)
Variant runE : Type -> Type :=
| RSpawn (t : nat) : runE unit
| RStart (t : nat) : runE unit
| RAwait : runE (result pyobj)
| RStore (v : pyobj) : runE unit
| RFetch : runE pyobj
| RSetExc : runE unit
| RIsExc : runE bool
| RSetDone : runE bool
| RWaitDone : runE (result unit)
| RStop : runE unit
| RRun : runE (result unit).

Definition runner : pyM runE pyobj :=
  pfinally
    (ptry (let! ret := pcall RAwait in pop (RStore ret) ;;; pret PNone)
       (fun exc => Some (pop RSetExc ;;; pop (RStore (PExn exc)) ;;; pret PNone)))
    (pop RSetDone ;;; pret tt).

Definition watcher : pyM runE pyobj :=
  pcall RWaitDone ;;; pop RStop ;;; pret PNone.

(** [raise ret]. *)
Definition raise_ret (ret : pyobj) : pyM runE pyobj :=
  match ret with
  | PExn e => praise e
  | _ => praise (TypeError "exceptions must derive from BaseException")
  end.

Definition run_pygen_until_complete : pyM runE pyobj :=
  pop (RSpawn 1) ;;;
  pop (RSpawn 2) ;;;
  pcall RRun ;;;
  let! ret := pop RFetch in
  let! is_exc := pop RIsExc in
  if is_exc then raise_ret ret else pret ret.

Module ColoredRun.
Definition runner : pyM runE pyobj :=
  pfinally
    (ptry (let! ret := pcall RAwait in pop (RStore ret) ;;; pret PNone)
       (fun exc => Some (pop RSetExc ;;; pop (RStore (PExn exc)) ;;; pret PNone)))
    (pop RSetDone ;;; pret tt).

Definition watcher : pyM runE pyobj :=
  pcall RWaitDone ;;; pop RStop ;;; pret PNone.

Definition run_pyasyncgen_until_complete : pyM runE pyobj :=
  pop (RSpawn 1) ;;;
  pop (RSpawn 2) ;;;
  pcall RRun ;;;
  let! ret := pop RFetch in
  let! is_exc := pop RIsExc in
  if is_exc then raise_ret ret else pret ret.
End ColoredRun.

(** What kind of object a coroutine is. *)
Inductive corokind := PyGen | PyCoroutine | PyAsyncGen.
Definition is_asyncg (k : corokind) : bool := match k with PyGen => false | _ => true end.

Definition run_until_complete (k : corokind) : pyM runE pyobj :=
  if is_asyncg k then ColoredRun.run_pyasyncgen_until_complete else run_pygen_until_complete.

(** ** [new], [run] and [main] *)

Record options := mkOptions {
  o_context : bool; o_signals : option (list Z); o_threads : option Z; o_blocking_threadpool_size : Z;
  o_blocking_threadpool_idle_ttl : Z
}.
Definition default_options : options := mkOptions false None None 128 30.

(** The arguments the runtime is made with. *)
Record config := mkConfig {
  c_threads : Z; c_threads_blocking : Z; c_threads_blocking_timeout : Z; c_context : bool; c_signals : list Z
}.

Definition new (cpu_count : Z) (o : options) : config :=
  let threads := match o_threads o with
                 | Some n => if (n =? 0)%Z then cpu_count else n
                 | None => cpu_count
                 end in
  mkConfig threads (o_blocking_threadpool_size o) (o_blocking_threadpool_idle_ttl o) (o_context o)
    (default [] (o_signals o)).

(** [run(coro, ..)]: the runtime made, and what it runs. *)
Definition run (cpu_count : Z) (k : corokind) (o : options) : config * pyM runE pyobj :=
  (new cpu_count o, run_until_complete k).

(** [main( *coros, ..)]: what calling the decorated function runs; [None] when it is given no
    coroutine function and so returns the decorator for [coro]. *)
Definition main (cpu_count : Z) (coros : list corokind) (o : options)
    : result (option corokind -> option (config * pyM runE pyobj)) :=
  match coros with
  | [] => Ok (fun coro => match coro with Some k => Some (run cpu_count k o) | None => None end)
  | [k] => Ok (fun _ => Some (run cpu_count k default_options))
  | _ => Err SyntaxError
  end.

(** ** [_io.py] *)

(** The microseconds [_arm_r] and [_arm_w] get. *)
Definition arm_r (timeout : option Q) : option Z :=
  match timeout with Some t => Some (to_micros t) | None => None end.
Definition arm_w (timeout : option Q) : option Z :=
  match timeout with Some t => Some (to_micros t) | None => None end.
