(* ===== verification/RuntimeProps.v ===== *)
(** * The runtime: signal handling around the loop

    [run_forever] sets the self-socket, the wakeup descriptor and the handlers up, and restores
    them. *)

From stdpp Require Import base numbers list gmap strings.
From Stdlib Require Import ZArith Lia.
From ITree Require Import ITree ITreeFacts.
From S2P Require Import Prelude Coro Os Spawn Runtime.

Open Scope tonio_scope.
Open Scope string_scope.
#[local] Set Warnings "-clear-no-such-hyp".

(** ** [run_forever] *)

Definition default_of (sig : Z) : sighandler := if (sig =? SIGINT)%Z then DefaultInt else SIG_DFL.

(** The dispositions with those of [l] set by [h]. *)
Definition with_handlers (h : Z -> sighandler) (l : list Z) (m : gmap Z sighandler) : gmap Z sighandler :=
  foldl (fun m sig => <[sig := h sig]> m) m l.

Lemma with_handlers_lookup h l m sig :
  with_handlers h l m !! sig = if bool_decide (sig ∈ l) then Some (h sig) else m !! sig.
Proof.
  revert m. induction l as [|x l IH]; intros m; simpl; [done|]. rewrite IH.
  destruct (decide (sig ∈ l)) as [Hl|Hl].
  - rewrite !bool_decide_true; [done|by right|done].
  - rewrite bool_decide_false by done. destruct (decide (sig = x)) as [->|Hx].
    + rewrite bool_decide_true by by left. by rewrite lookup_insert_eq.
    + rewrite bool_decide_false by (intros [?|?]%elem_of_cons; done). by rewrite lookup_insert_ne.
Qed.

Section RunForever.
Context (valid_signals catchable : Z -> bool) (fileno : nat -> Z) (setblocking : nat -> result unit) (r wk : nat).
Context (_run : rtM unit).

Definition usable (l : list Z) : Prop := forall sig, sig ∈ l -> valid_signals sig = true /\ catchable sig = true.

(** The loop leaves what belongs to the signal handling alone, but may be asked to stop. *)
Definition run_frame : Prop := forall w, w_os (snd (_run w)) = w_os w /\
  exists b, w_rt (snd (_run w)) = set_stopping b (w_rt w).

Lemma sig_add_one x s wu m : valid_signals x = true -> catchable x = true ->
  _sig_add valid_signals catchable x (mkWorld s (mkProcess wu m true)) =
  (Ok tt, mkWorld s (mkProcess wu (<[x := NoOp]> m) true)).
Proof.
  intros Hv Hc. unfold _sig_add, rbind, _is_main_thread, rget, _check_sig. simpl. rewrite Hv. simpl.
  unfold rtry, signal_signal, rbind, rget. simpl. by rewrite Hv, Hc.
Qed.

Lemma sig_rem_one x s wu m : valid_signals x = true -> catchable x = true ->
  suppress_Exception (_sig_rem valid_signals catchable x) (mkWorld s (mkProcess wu m true)) =
  (Ok tt, mkWorld s (mkProcess wu (<[x := default_of x]> m) true)).
Proof.
  intros Hv Hc. unfold suppress_Exception, _sig_rem, rtry, rbind, _is_main_thread, rget. simpl.
  unfold signal_signal, rbind, rget. simpl. by rewrite Hv, Hc.
Qed.

(** A loop whose body sets one disposition. *)
Lemma rfor_handlers (f : Z -> rtM unit) h l s wu m :
  (forall x m, x ∈ l -> f x (mkWorld s (mkProcess wu m true)) =
     (Ok tt, mkWorld s (mkProcess wu (<[x := h x]> m) true))) ->
  rfor l f (mkWorld s (mkProcess wu m true)) =
  (Ok tt, mkWorld s (mkProcess wu (with_handlers h l m) true)).
Proof.
  revert m. induction l as [|x l IH]; intros m Hl; [done|]. cbn [rfor]. unfold rbind.
  rewrite Hl by by left. rewrite IH; [done|]. intros y m' Hy. apply Hl. by right.
Qed.

Lemma sig_add_all l s wu m : usable l ->
  rfor l (_sig_add valid_signals catchable) (mkWorld s (mkProcess wu m true)) =
  (Ok tt, mkWorld s (mkProcess wu (with_handlers (fun _ => NoOp) l m) true)).
Proof. intros Hl. apply rfor_handlers. intros x m' [Hv Hc]%Hl. by apply sig_add_one. Qed.

Lemma sig_rem_all l s wu m : usable l ->
  rfor l (fun sig => suppress_Exception (_sig_rem valid_signals catchable sig)) (mkWorld s (mkProcess wu m true)) =
  (Ok tt, mkWorld s (mkProcess wu (with_handlers default_of l m) true)).
Proof. intros Hl. apply rfor_handlers. intros x m' [Hv Hc]%Hl. by apply sig_rem_one. Qed.

Hypothesis Hr : setblocking r = Ok tt.
Hypothesis Hwk : setblocking wk = Ok tt.

#[local] Abbreviation go := (run_forever valid_signals catchable (Ok (r, wk)) setblocking fileno _run).

(** The state the loop runs in. *)
Definition started (s : runtime) (os : process) : world :=
  mkWorld (mkRuntime (Some r) (Some wk) (if on_main os then Some (wakeup os) else _sig_wfd s)
             (on_main os) (_stopping s) (_sigset s))
    (if on_main os then mkProcess (fileno wk) (with_handlers (fun _ => NoOp) (_sigset s) (handlers os)) true else os).

(** The state after it. *)
Definition stopped (s : runtime) (os : process) : world :=
  mkWorld (mkRuntime None None (if on_main os then Some (wakeup os) else _sig_wfd s) false false (_sigset s))
    (if on_main os
     then mkProcess (wakeup os) (with_handlers default_of (_sigset s)
            (with_handlers (fun _ => NoOp) (_sigset s) (handlers os))) true else os).

Lemma pre_eq s os : _ssock_w s = None -> _sig_listening s = false -> usable (_sigset s) ->
  on_main os = true \/ _sigset s = [] ->
  _run_forever_pre valid_signals catchable (Ok (r, wk)) setblocking fileno (mkWorld s os) = (Ok tt, started s os).
Proof using Hr Hwk.
  intros Hw Hli Hu Hm. unfold _run_forever_pre, rbind at 1, _ssock_start, rbind at 1, rget at 1.
  cbn [w_rt fst snd]. rewrite Hw. unfold rbind at 1, set_rt at 1, rtry at 1. rewrite Hr, Hwk.
  unfold _sig_reg, rbind at 1, rtry at 1, rbind at 1, rget at 1. cbn [w_rt w_os _ssock_w set_ssock].
  unfold _set_sig_wfd, set_wakeup_fd, rbind, rget. cbn [w_os w_rt]. destruct os as [wu h m]. cbn [on_main].
  destruct m; cbn -[_sig_add rfor].
  - pose proof (sig_add_all (_sigset s) (mkRuntime (Some r) (Some wk) (Some wu) (_sig_listening s) (_stopping s) (_sigset s))
      (fileno wk) h Hu) as Ha. unfold set_rt, set_os, set_wfd, set_wakeup, set_ssock. cbn -[_sig_add rfor]. rewrite Ha. done.
  - destruct Hm as [?|Hm]; [done|]. rewrite Hm. unfold started. cbn. destruct s; simpl in *; by subst.
Qed.

Lemma post_eq s os b : usable (_sigset s) ->
  _run_forever_post valid_signals catchable
    (mkWorld (set_stopping b (w_rt (started s os))) (w_os (started s os))) = (Ok tt, stopped s os).
Proof.
  intros Hu. unfold _run_forever_post, rbind at 1, _sig_dereg, rbind at 1, rget at 1. unfold started, stopped.
  destruct os as [wu h m]. cbn. destruct m; cbn.
  - unfold rbind at 1, set_rt at 1, rbind at 1, rget at 1. cbn. unfold rbind at 1.
    pose proof (sig_rem_all (_sigset s) (mkRuntime (Some r) (Some wk) (Some wu) false b (_sigset s))
      (fileno wk) (with_handlers (fun _ => NoOp) (_sigset s) h) Hu) as Ha. cbn in Ha.
    unfold set_listening. cbn. rewrite Ha. done.
  - done.
Qed.

Lemma run_forever_eq s os : run_frame -> _ssock_w s = None -> _sig_listening s = false -> usable (_sigset s) ->
  on_main os = true \/ _sigset s = [] ->
  go (mkWorld s os) = (fst (_run (started s os)), stopped s os).
Proof using Hr Hwk.
  intros Hf Hw Hli Hu Hm. unfold run_forever, rfinally, rbind at 1. rewrite pre_eq by done.
  destruct (Hf (started s os)) as [Hos [b Hrt]]. destruct (_run (started s os)) as [res w']. cbn [fst snd] in *.
  assert (w' = mkWorld (set_stopping b (w_rt (started s os))) (w_os (started s os))) as ->
    by (rewrite <- Hrt, <- Hos; by destruct w').
  by rewrite (post_eq s os b Hu).
Qed.

(** Off the main thread, with signals to handle: refused, and nothing is left behind. *)
Lemma run_forever_off_main s os : _ssock_w s = None -> _sig_listening s = false ->
  on_main os = false -> _sigset s <> [] ->
  exists m, go (mkWorld s os) = (Err (ValueError m),
    mkWorld (mkRuntime None None (_sig_wfd s) false false (_sigset s)) os).
Proof using Hr Hwk.
  intros Hw Hli Hm Hs. destruct os as [wu h m]. simpl in Hm. subst m. destruct s as [r0 w0 wf li st ss]. simpl in *. subst.
  destruct ss as [|x ss]; [done|]. eexists. unfold run_forever, rfinally, _run_forever_pre, _ssock_start, rbind at 1 2 3.
  cbn. unfold rtry. rewrite Hr, Hwk. reflexivity.
Qed.
End RunForever.

(** [run_forever] leaves the process as it found it.  It runs the loop with the self-socket in
    place and, on the main thread, the wakeup descriptor and the no-op handlers of its signals set;
    when the loop returns or raises, it gives the same outcome, the self-socket is gone, the wakeup
    descriptor is the one before, its signals have their default handlers, no other handler has
    changed, and the runtime can be run again.  Off the main thread a runtime without signals runs
    without signal handling; one with signals is refused with [ValueError] and changes nothing. *)
Theorem run_forever_restores valid_signals catchable setblocking fileno r wk _run s os :
  setblocking r = Ok tt -> setblocking wk = Ok tt -> _ssock_w s = None -> _sig_listening s = false ->
  (forall sig, sig ∈ _sigset s -> valid_signals sig = true /\ catchable sig = true) -> run_frame _run ->
  let '(res, w) := run_forever valid_signals catchable (Ok (r, wk)) setblocking fileno _run (mkWorld s os) in
  _ssock_r (w_rt w) = None /\ _ssock_w (w_rt w) = None /\ _sig_listening (w_rt w) = false /\
  _stopping (w_rt w) = false /\ _sigset (w_rt w) = _sigset s /\
  wakeup (w_os w) = wakeup os /\ on_main (w_os w) = on_main os /\
  (forall sig, handlers (w_os w) !! sig =
     if on_main os && bool_decide (sig ∈ _sigset s) then Some (default_of sig) else handlers os !! sig) /\
  (if on_main os || bool_decide (_sigset s = []) then
     exists w1, res = fst (_run w1) /\ _ssock_w (w_rt w1) = Some wk /\ _sig_listening (w_rt w1) = on_main os /\
       (on_main os = true -> wakeup (w_os w1) = fileno wk) /\
       (forall sig, sig ∈ _sigset s -> handlers (w_os w1) !! sig = Some NoOp)
   else exists m, res = Err (ValueError m)).
Proof.
  intros Hr Hwk Hw Hli Hu Hf. destruct (on_main os || bool_decide (_sigset s = [])) eqn:Hb.
  - assert (on_main os = true \/ _sigset s = []) as Hm.
    { apply orb_true_iff in Hb as [?|?%bool_decide_eq_true]; auto. }
    rewrite run_forever_eq by done. unfold stopped, started. split_and!; try done; try (by destruct (on_main os) eqn:E; simpl).
    + intros sig. destruct (on_main os) eqn:E; simpl; [|done].
      rewrite !with_handlers_lookup. by destruct (bool_decide (sig ∈ _sigset s)).
    + eexists. split; [reflexivity|]. simpl. split_and!; try done; [by intros ->|].
      intros sig Hsig. destruct (on_main os) eqn:E; simpl.
      * rewrite with_handlers_lookup. by rewrite bool_decide_true.
      * destruct Hm as [?|Hm]; [congruence|]. rewrite Hm in Hsig. by apply elem_of_nil in Hsig.
  - apply orb_false_iff in Hb as [Hm Hs%bool_decide_eq_false].
    destruct (run_forever_off_main valid_signals catchable fileno setblocking r wk _run Hr Hwk s os Hw Hli Hm Hs) as [m ->].
    rewrite Hm. simpl. split_and!; try done. by exists m.
Qed.

(** A runtime for [SIGINT] and [SIGTERM] whose loop is stopped. *)
Definition toy_loop : rtM unit := set_rt (set_stopping true).

Lemma run_forever_restores_witness :
  let s := mkRuntime None None None false false [2%Z; 15%Z] in
  let os := mkProcess (-1) {[ 15%Z := UserHandler 7; 10%Z := UserHandler 8 ]} true in
  let w := snd (run_forever (fun _ => true) (fun _ => true) (Ok (3, 4)) (fun _ => Ok tt) Z.of_nat toy_loop (mkWorld s os)) in
  wakeup (w_os w) = (-1)%Z /\ handlers (w_os w) !! 15%Z = Some SIG_DFL /\
  handlers (w_os w) !! 10%Z = Some (UserHandler 8).
Proof.
  intros s os w.
  pose proof (run_forever_restores (fun _ => true) (fun _ => true) (fun _ => Ok tt) Z.of_nat 3 4 toy_loop s os
    eq_refl eq_refl eq_refl eq_refl (fun _ _ => conj eq_refl eq_refl)
    (fun w => conj eq_refl (ex_intro _ true eq_refl))) as Hp.
  change w with (snd (run_forever (fun _ => true) (fun _ => true) (Ok (3, 4)) (fun _ => Ok tt) Z.of_nat toy_loop (mkWorld s os))).
  destruct (run_forever (fun _ => true) (fun _ => true) (Ok (3, 4)) (fun _ => Ok tt) Z.of_nat toy_loop (mkWorld s os)) as [res w'].
  destruct Hp as (_ & _ & _ & _ & _ & Hwu & _ & Hh & _). split; [exact Hwu|].
  split; rewrite Hh; vm_compute; reflexivity.
Defined.

(** When one of the signals cannot be caught, [run_forever] raises, but the wakeup descriptor stays
    set to the self-socket that is dropped, and the handlers set before it stay in place. *)
Theorem run_forever_leaves_wakeup :
  let s := mkRuntime None None None false false [10%Z; 9%Z] in
  let os := mkProcess (-1) ∅ true in
  let '(res, w) := run_forever (fun _ => true) (fun sig => negb (sig =? 9)%Z) (Ok (3, 4)) (fun _ => Ok tt)
                     Z.of_nat toy_loop (mkWorld s os) in
  res = Err (RuntimeError "signum cannot be caught") /\ _ssock_w (w_rt w) = None /\
  wakeup (w_os w) = 4%Z /\ handlers (w_os w) !! 10%Z = Some NoOp.
Proof. vm_compute. done. Qed.

(** Calling [run_forever] on a runtime that is running raises, and takes the self-socket, the signal
    handling and a pending stop away from the loop that is running. *)
Theorem run_forever_not_reentrant :
  let s := mkRuntime (Some 3) (Some 4) (Some (-1)%Z) true true [10%Z] in
  let os := mkProcess 4 {[ 10%Z := NoOp ]} true in
  let '(res, w) := run_forever (fun _ => true) (fun _ => true) (Ok (5, 6)) (fun _ => Ok tt) Z.of_nat toy_loop (mkWorld s os) in
  res = Err (RuntimeError "self-socket has been already setup") /\
  _ssock_w (w_rt w) = None /\ _sig_listening (w_rt w) = false /\ _stopping (w_rt w) = false /\
  wakeup (w_os w) = (-1)%Z.
Proof. vm_compute. done. Qed.
