(* ===== verification/RunProps.v ===== *)
(** * What [run] returns

    [run_until_complete] with the two tasks it starts and the loop, under every interleaving. *)

From stdpp Require Import base numbers list strings.
From Stdlib Require Import ZArith Lia.
From ITree Require Import ITree ITreeFacts.
From S2P Require Import Prelude Coro Os Spawn Runtime.

Open Scope tonio_scope.
Open Scope nat_scope.
#[local] Set Warnings "-clear-no-such-hyp".

(** The tasks given to the runtime, the result with its flag, the event, whether the loop was told
    to stop, and (for the statements) what the coroutine ended with. *)
Record rstate := mkR {
  r_watcher : bool; r_runner : bool; r_res : ResultHolder; r_exc : bool; r_done : bool; r_stop : bool;
  r_ended : option (result pyobj)
}.

Definition run_init : rstate := mkR false false (ResultHolder_new 1) false false false None.

(** [out]: what the coroutine ends with; [intr]: the loop may return before it is told to stop, as
    it does when a signal interrupts the poll and no handler of the runtime took it. *)
Definition run_sem (intr : bool) (out : result pyobj) (X : Type) (tid : nat) (e : runE X) (s : rstate) (x : X)
    (s' : rstate) : Prop :=
  match e in runE X return X -> Prop with
  | RSpawn t => fun _ =>
      s' = mkR (r_watcher s || (t =? 1)) (r_runner s || (t =? 2)) (r_res s) (r_exc s) (r_done s) (r_stop s) (r_ended s)
  | RStart t => fun _ => (if t =? 1 then r_watcher s else r_runner s) = true /\ s' = s
  | RAwait => fun x => x = out /\
      s' = mkR (r_watcher s) (r_runner s) (r_res s) (r_exc s) (r_done s) (r_stop s) (Some x)
  | RStore v => fun _ => exists res, ResultHolder_store v None (r_res s) = Some res /\
      s' = mkR (r_watcher s) (r_runner s) res (r_exc s) (r_done s) (r_stop s) (r_ended s)
  | RFetch => fun x => x = ResultHolder_fetch (r_res s) /\ s' = s
  | RSetExc => fun _ => s' = mkR (r_watcher s) (r_runner s) (r_res s) true (r_done s) (r_stop s) (r_ended s)
  | RIsExc => fun x => x = r_exc s /\ s' = s
  | RSetDone => fun x => x = negb (r_done s) /\
      s' = mkR (r_watcher s) (r_runner s) (r_res s) (r_exc s) true (r_stop s) (r_ended s)
  | RWaitDone => fun x => r_done s = true /\ x = Ok tt /\ s' = s
  | RStop => fun _ => s' = mkR (r_watcher s) (r_runner s) (r_res s) (r_exc s) (r_done s) true (r_ended s)
  | RRun => fun x => (r_stop s = true \/ intr = true) /\ x = Ok tt /\ s' = s
  end x.

Definition run_pool (k : corokind) : list (pyM runE pyobj) :=
  run_until_complete k ::
  (if is_asyncg k then [pop (RStart 1) ;;; ColoredRun.watcher; pop (RStart 2) ;;; ColoredRun.runner]
   else [pop (RStart 1) ;;; watcher; pop (RStart 2) ;;; runner]).

(** ** Control points *)

Inductive rphase :=
| A0 | A1 | A2 | A3 | A4 (v : pyobj) | AF (r : result pyobj)
| C0 | C1 | C2 | CF (r : result pyobj)
| B0 | B1 | B2 (v : pyobj) | B3 (e : exn) | B4 (e : exn) | B5 | BF (r : result pyobj).

Definition finished (v : pyobj) (b : bool) : result pyobj :=
  if b then match v with PExn e => Err e | _ => Err (TypeError "exceptions must derive from BaseException") end
  else Ok v.

Definition r_head (p : rphase) (K : forall X, runE X -> (X -> rphase) -> Prop) : Prop :=
  match p with
  | A0 => K _ (RSpawn 1) (fun _ => A1)
  | A1 => K _ (RSpawn 2) (fun _ => A2)
  | A2 => K _ RRun (fun x => match x with Ok _ => A3 | Err e => AF (Err e) end)
  | A3 => K _ RFetch A4
  | A4 v => K _ RIsExc (fun b => AF (finished v b))
  | C0 => K _ (RStart 1) (fun _ => C1)
  | C1 => K _ RWaitDone (fun x => match x with Ok _ => C2 | Err e => CF (Err e) end)
  | C2 => K _ RStop (fun _ => CF (Ok PNone))
  | B0 => K _ (RStart 2) (fun _ => B1)
  | B1 => K _ RAwait (fun x => match x with Ok v => B2 v | Err e => B3 e end)
  | B2 v => K _ (RStore v) (fun _ => B5)
  | B3 e => K _ RSetExc (fun _ => B4 e)
  | B4 e => K _ (RStore (PExn e)) (fun _ => B5)
  | B5 => K _ RSetDone (fun _ => BF (Ok PNone))
  | AF _ | CF _ | BF _ => False
  end.

Definition b5 : pyM runE pyobj := Vis RSetDone (fun _ => Ret (Ok PNone)).
Definition b4 (v : pyobj) : pyM runE pyobj := Vis (RStore v) (fun _ => b5).
Definition a4 (v : pyobj) : pyM runE pyobj := Vis RIsExc (fun b => Ret (finished v b)).

Definition r_tree (p : rphase) : pyM runE pyobj :=
  match p with
  | A0 => run_pygen_until_complete
  | A1 => pop (RSpawn 2) ;;; pcall RRun ;;; let! ret := pop RFetch in
          let! is_exc := pop RIsExc in if is_exc then raise_ret ret else pret ret
  | A2 => pcall RRun ;;; let! ret := pop RFetch in
          let! is_exc := pop RIsExc in if is_exc then raise_ret ret else pret ret
  | A3 => Vis RFetch a4
  | A4 v => a4 v
  | C0 => pop (RStart 1) ;;; watcher
  | C1 => watcher
  | C2 => pop RStop ;;; pret PNone
  | B0 => pop (RStart 2) ;;; runner
  | B1 => runner
  | B2 v => b4 v
  | B3 e => Vis RSetExc (fun _ => b4 (PExn e))
  | B4 e => b4 (PExn e)
  | B5 => b5
  | AF r | CF r | BF r => Ret r
  end.

Lemma done_eq : ITree.bind (pop RSetDone ;;; pret tt)
  (fun rf => match rf with Ok _ => Ret (Ok PNone) | Err x => Ret (Err x) end) ≅ b5.
Proof. rewrite pbind_pop, bind_vis. apply eqit_Vis. intros b. unfold pret. by rewrite bind_ret_l. Qed.

Lemma runner_eq : runner ≅ Vis RAwait (fun x : result pyobj =>
  match x with Ok v => b4 v | Err e => Vis RSetExc (fun _ => b4 (PExn e)) end).
Proof.
  unfold runner, pfinally, ptry, ptry_else. rewrite pbind_pcall, !bind_vis. apply eqit_Vis. intros [v|e].
  - rewrite pbind_pop, !bind_vis. apply eqit_Vis. intros u. unfold pret. rewrite !bind_ret_l. apply done_eq.
  - unfold praise. rewrite bind_ret_l. rewrite pbind_pop, bind_vis. apply eqit_Vis. intros u.
    rewrite pbind_pop, bind_vis. apply eqit_Vis. intros u'. unfold pret. rewrite bind_ret_l. apply done_eq.
Qed.

Lemma fetch_eq : (let! ret := pop RFetch in let! is_exc := pop RIsExc in
  (if is_exc : bool then raise_ret ret else pret ret)) ≅ Vis RFetch a4.
Proof.
  rewrite pbind_pop. apply eqit_Vis. intros v. unfold a4. rewrite pbind_pop. apply eqit_Vis.
  intros []; [by destruct v|done].
Qed.

Lemma r_heads p : heads_ok r_tree r_head p.
Proof.
  destruct p; try (left; eexists; split; [simpl; reflexivity|by intros K HK]); right; do 3 eexists;
    (split; [|by intros K; split; intros HK; exact HK]); simpl; try done; try apply pbind_pop.
  - rewrite pbind_pcall. apply eqit_Vis. intros [u|e]; [apply fetch_eq|done].
  - unfold watcher. rewrite pbind_pcall. apply eqit_Vis. by intros [].
  - rewrite runner_eq. apply eqit_Vis. by intros [].
Qed.

(** ** Invariant *)

Section RunInv.
Context (out : result pyobj).

Definition slot (o : result pyobj) : pyobj := match o with Ok v => v | Err e => PExn e end.
Definition is_err (o : result pyobj) : bool := match o with Ok _ => false | Err _ => true end.
Definition final (s : rstate) : Prop := r_res s = mkResult 1 [slot out] /\ r_exc s = is_err out.
Definition blank (s : rstate) : Prop := r_res s = mkResult 1 [PNone] /\ r_done s = false.

Definition runner_at (p : rphase) (s : rstate) : Prop :=
  match p with
  | B0 | B1 => blank s /\ r_exc s = false
  | B2 v => blank s /\ r_exc s = false /\ out = Ok v
  | B3 e => blank s /\ r_exc s = false /\ out = Err e
  | B4 e => blank s /\ r_exc s = true /\ out = Err e
  | B5 => final s /\ r_done s = false
  | BF _ => final s /\ r_done s = true
  | _ => False
  end.

Definition watcher_at (p : rphase) (s : rstate) : Prop :=
  match p with
  | C0 | C1 => r_stop s = false
  | C2 => r_stop s = false /\ r_done s = true
  | CF _ => r_stop s = true /\ r_done s = true
  | _ => False
  end.

Definition main_at (p : rphase) (s : rstate) : Prop :=
  match p with
  | A0 => True
  | A1 => r_watcher s = true
  | A2 => r_watcher s = true /\ r_runner s = true
  | A3 => r_done s = true
  | A4 v => r_done s = true /\ v = slot out
  | AF r => r = out
  | _ => False
  end.

Definition r_inv (ps : list rphase) (s : rstate) : Prop :=
  exists m c b, ps = [m; c; b] /\ main_at m s /\ watcher_at c s /\ runner_at b s.

Lemma done_final b s : runner_at b s -> r_done s = true -> final s.
Proof. destruct b; simpl; unfold blank; intros H1 H2; destruct_and?; congruence || done. Qed.

Lemma finished_out s : final s -> finished (slot out) (r_exc s) = out.
Proof. intros [_ ->]. by destruct out. Qed.

Lemma r_main_step m c b s m' s' : main_at m s -> watcher_at c s -> runner_at b s ->
  head_step (run_sem false out) r_head 0 s m m' s' ->
  main_at m' s' /\ watcher_at c s' /\ runner_at b s'.
Proof.
  intros Hm Hc Hb Hs. destruct m; simpl in Hm; try done; destruct Hs as (x & Hsem & ->); simpl in Hsem.
  - subst s'. simpl. rewrite orb_true_r. split_and!; [done|by destruct c|by destruct b].
  - subst s'. simpl. rewrite Hm, orb_true_r. split_and!; [done|done|by destruct c|by destruct b].
  - destruct Hsem as ([Hst|?] & -> & ->); [|done]. split_and!; [|done|done]. simpl.
    destruct c; simpl in Hc; destruct_and?; congruence || done.
  - destruct Hsem as [-> ->]. split_and!; [|done|done]. split; [done|].
    by destruct (done_final _ _ Hb Hm) as [-> _].
  - destruct Hsem as [-> ->]. destruct Hm as [Hd ->]. split_and!; [|done|done]. simpl.
    by apply finished_out, (done_final b).
Qed.

Lemma r_watcher_step m c b s c' s' : main_at m s -> watcher_at c s -> runner_at b s ->
  head_step (run_sem false out) r_head 1 s c c' s' ->
  main_at m s' /\ watcher_at c' s' /\ runner_at b s'.
Proof.
  intros Hm Hc Hb Hs. destruct c; simpl in Hc; try done; destruct Hs as (x & Hsem & ->); simpl in Hsem.
  - destruct Hsem as [_ ->]. by split_and!.
  - destruct Hsem as (Hd & -> & ->). by split_and!.
  - subst s'. destruct Hc as [Hst Hd]. split_and!; [by destruct m|done|by destruct b].
Qed.

Lemma r_runner_step m c b s b' s' : main_at m s -> watcher_at c s -> runner_at b s ->
  head_step (run_sem false out) r_head 2 s b b' s' ->
  main_at m s' /\ watcher_at c s' /\ runner_at b' s'.
Proof.
  intros Hm Hc Hb Hs. destruct b; simpl in Hb; try done; destruct Hs as (x & Hsem & ->); simpl in Hsem.
  - destruct Hsem as [_ ->]. by split_and!.
  - destruct Hsem as [-> ->]. split_and!; [by destruct m|by destruct c|].
    assert ((exists v, out = Ok v) \/ exists e, out = Err e) as [[v E]|[e E]] by (destruct out; eauto);
      rewrite E; simpl; destruct Hb; by split_and!.
  - destruct Hsem as (res & Hst & ->). destruct Hb as ([Hres Hd] & He & Ho). rewrite Hres in Hst.
    injection Hst as <-. split_and!; [by destruct m|by destruct c|]. unfold runner_at, final. simpl.
    by rewrite He, Ho.
  - subst s'. destruct Hb as (Hbl & He & Ho). split_and!; [by destruct m|by destruct c|by split_and!].
  - destruct Hsem as (res & Hst & ->). destruct Hb as ([Hres Hd] & He & Ho). rewrite Hres in Hst.
    injection Hst as <-. split_and!; [by destruct m|by destruct c|]. unfold runner_at, final. simpl.
    by rewrite He, Ho.
  - destruct Hsem as [_ ->]. destruct Hb as [Hf Hd].
    split_and!; [destruct m; simpl in *; tauto|destruct c; simpl in *; tauto|by split].
Qed.

Lemma r_step_inv ps s i p p' s' : r_inv ps s -> ps !! i = Some p ->
  head_step (run_sem false out) r_head i s p p' s' -> r_inv (<[i:=p']> ps) s'.
Proof.
  intros (m & c & b & -> & Hm & Hc & Hb) Hp Hs. destruct i as [|[|[|i]]]; simplify_eq/=.
  - destruct (r_main_step _ _ _ _ _ _ Hm Hc Hb Hs) as (? & ? & ?). by exists p', c, b.
  - destruct (r_watcher_step _ _ _ _ _ _ Hm Hc Hb Hs) as (? & ? & ?). by exists m, p', b.
  - destruct (r_runner_step _ _ _ _ _ _ Hm Hc Hb Hs) as (? & ? & ?). by exists m, c, p'.
Qed.

(** ** Progress *)

Definition r_rank (p : rphase) : nat :=
  match p with
  | A0 => 5 | A1 => 4 | A2 => 3 | A3 => 2 | A4 _ => 1 | AF _ => 0
  | C0 => 3 | C1 => 2 | C2 => 1 | CF _ => 0
  | B0 => 5 | B1 => 4 | B2 _ => 2 | B3 _ => 3 | B4 _ => 2 | B5 => 1 | BF _ => 0
  end.

Lemma r_step_rank i s p p' s' : head_step (run_sem false out) r_head i s p p' s' -> r_rank p' < r_rank p.
Proof.
  intros Hs. destruct p; try done; destruct Hs as (x & Hsem & ->); simpl; try lia.
  - destruct x; simpl; lia.
  - destruct x; simpl; lia.
  - destruct x; simpl; lia.
Qed.

(** As long as the main thread has not returned, some task can go on. *)
Lemma r_progress ps s : r_inv ps s -> (forall r, ps !! 0 <> Some (AF r)) ->
  exists i p p' s', ps !! i = Some p /\ head_step (run_sem false out) r_head i s p p' s'.
Proof.
  intros (m & c & b & -> & Hm & Hc & Hb) Hno. destruct m; simpl in Hm; try done.
  - exists 0. do 3 eexists. split; [reflexivity|]. exists tt. by split.
  - exists 0. do 3 eexists. split; [reflexivity|]. exists tt. by split.
  - destruct Hm as [Hw Hr]. destruct b; simpl in Hb; try done.
    + exists 2. do 3 eexists. split; [reflexivity|]. exists tt. simpl. by split; [split|].
    + exists 2. do 3 eexists. split; [reflexivity|]. exists out. simpl. by split; [split|].
    + destruct Hb as ([Hres _] & _). exists 2. do 3 eexists. split; [reflexivity|]. exists tt. simpl. rewrite Hres.
      split; [|reflexivity]. by eexists.
    + exists 2. do 3 eexists. split; [reflexivity|]. exists tt. by split.
    + destruct Hb as ([Hres _] & _). exists 2. do 3 eexists. split; [reflexivity|]. exists tt. simpl. rewrite Hres.
      split; [|reflexivity]. by eexists.
    + exists 2. do 3 eexists. split; [reflexivity|]. exists (negb (r_done s)). by split; [split|].
    + destruct Hb as [_ Hd]. destruct c; simpl in Hc; try done.
      * exists 1. do 3 eexists. split; [reflexivity|]. exists tt. simpl. by split; [split|].
      * exists 1. do 3 eexists. split; [reflexivity|]. exists (Ok tt). simpl. by split; [split_and!|].
      * exists 1. do 3 eexists. split; [reflexivity|]. exists tt. by split.
      * destruct Hc as [Hst _]. exists 0. do 3 eexists. split; [reflexivity|]. exists (Ok tt). simpl.
        split; [|reflexivity]. split_and!; [by left|done|done].
  - exists 0. do 3 eexists. split; [reflexivity|]. exists (ResultHolder_fetch (r_res s)). by split; [split|].
  - exists 0. do 3 eexists. split; [reflexivity|]. exists (r_exc s). by split; [split|].
  - by destruct (Hno r).
Qed.
End RunInv.


(** A signal that interrupts the poll and that no handler of the runtime takes ends the loop: [run]
    returns [None] although the coroutine has not ended. *)
Theorem run_interrupted_returns_none :
  exists ts s t, reachable (run_sem true (Ok (PInt 5))) (run_pool PyGen, run_init) (ts, s) /\
    ts !! 0 = Some t /\ t ≅ Ret (Ok PNone) /\ r_ended s = None.
Proof.
  do 3 eexists. split.
  - pool_answer 0 tt. pool_answer 0 tt. pool_answer 0 (Ok tt : result unit).
    pool_answer 0 PNone. pool_answer 0 false. apply reachable_init.
  - split_and!; [reflexivity| |reflexivity]. by apply eq_obs_Ret.
Qed.
