(* ===== verification/Signals.v ===== *)
(** * Signal receivers

    [_SignalReceiver] of [src/tonio/_signals.py] with [src/tonio/signals.py] and
    [src/tonio/colored/signals.py], and the registry of signal handlers of [src/src/runtime.rs]:
    the loop sets the event of a signal that arrived, and a task of the receiver turns events into
    messages of a channel. *)

From stdpp Require Import base numbers list gmap strings.
From Stdlib Require Import ZArith Lia.
From ITree Require Import ITree ITreeFacts.
From S2P Require Import Prelude Coro Os.

Open Scope tonio_scope.

(** ** The runtime's handlers *)

(** The event of each signal. *)
Abbreviation sig_handlers := (gmap Z nat).
Definition rt_sig_add (sig : Z) (event : nat) (h : sig_handlers) : sig_handlers := <[sig := event]> h.
Definition rt_sig_rem (sig : Z) (h : sig_handlers) : sig_handlers := delete sig h.

(** The events set for the bytes read from the self-socket. *)
Definition handle_io_signals (listening : bool) (h : sig_handlers) (buf : list Z) : list nat :=
  if listening then omap (fun sig => h !! sig) buf else [].

(** ** Operations *)

(** [SgArrive] is the loop reading a signal; [SgSpawn n] is [spawn.without_tracking] of [n] coroutines;
    [SgNewEvent] is [runtime._sig_add]. *)
Variant sigE : Type -> Type :=
| SgInitChannel : sigE unit
| SgNewCheckpoint : sigE nat
| SgNewEvent (sig : Z) : sigE nat
| SgSpawn (l : list (Z * nat * nat)) : sigE unit
| SgCheckpoint (c : nat) : sigE (result unit)
| SgWait (event : nat) : sigE (result unit)
| SgClear (event : nat) : sigE unit
| SgSend (sig : Z) : sigE unit
| SgReceive : sigE (result Z)
| SgRem (sig : Z) : sigE bool
| SgUnwind (c : nat) : sigE unit
| SgArrive (sig : Z) : sigE unit.

(** ** [SignalReceiver] *)

(** [self._sigs] and [self._checkpoints]. *)
Record SignalReceiver := mkReceiver { _sigs : list Z; _checkpoints : list nat }.

Definition SignalReceiver_init (sigs : list Z) : SignalReceiver := mkReceiver sigs [].

Definition receiver (sig : Z) (event : nat) : pyM sigE pyobj :=
  ploop (pcall (SgWait event) ;;; pop (SgClear event) ;;; pop (SgSend sig) ;;; pret None).

Definition glue (sig : Z) (event checkpoint : nat) : pyM sigE pyobj :=
  pcall (SgCheckpoint checkpoint) ;;; receiver sig event.

Definition coro (sig : Z) (event checkpoint : nat) : pyM sigE pyobj :=
  ptry (glue sig event checkpoint) (fun e => if is_Cancelled e then Some (pret PNone) else None).

(** The loop of [_register_coros]; [coros] are the arguments of the coroutines made so far. *)
Fixpoint register_loop (sigs : list Z) (checkpoints : list nat) (coros : list (Z * nat * nat))
    : pyM sigE (list nat * list (Z * nat * nat)) :=
  match sigs with
  | [] => pret (checkpoints, coros)
  | sig :: sigs =>
      let! checkpoint := pop SgNewCheckpoint in
      let! event := pop (SgNewEvent sig) in
      register_loop sigs (checkpoints ++ [checkpoint]) (coros ++ [(sig, event, checkpoint)])
  end.

Definition _register_coros (self : SignalReceiver) : pyM sigE SignalReceiver :=
  let! r := register_loop (_sigs self) (_checkpoints self) [] in
  pop (SgSpawn (snd r)) ;;;
  pret (mkReceiver (_sigs self) (fst r)).

Fixpoint _cancel_coros (checkpoints : list nat) : pyM sigE unit :=
  match checkpoints with
  | [] => pret tt
  | c :: l => pop (SgUnwind c) ;;; _cancel_coros l
  end.

Definition SignalReceiver_enter (self : SignalReceiver) : pyM sigE SignalReceiver :=
  pop SgInitChannel ;;; _register_coros self.

Fixpoint remove_all (sigs : list Z) : pyM sigE unit :=
  match sigs with
  | [] => pret tt
  | sig :: l => pop (SgRem sig) ;;; remove_all l
  end.

Definition SignalReceiver_exit (self : SignalReceiver) : pyM sigE unit :=
  remove_all (_sigs self) ;;; _cancel_coros (_checkpoints self).

Definition SignalReceiver_next (self : SignalReceiver) : pyM sigE Z :=
  let! sig := pcall SgReceive in pret sig.

Definition SignalReceiver_iter (self : SignalReceiver) : SignalReceiver := self.

(** ** The [async] API *)

Module ColoredSignals.
Definition receiver (sig : Z) (event : nat) : pyM sigE pyobj :=
  ploop (pcall (SgWait event) ;;; pop (SgClear event) ;;; pop (SgSend sig) ;;; pret None).

Definition glue (sig : Z) (event checkpoint : nat) : pyM sigE pyobj :=
  pcall (SgCheckpoint checkpoint) ;;; receiver sig event.

Definition coro (sig : Z) (event checkpoint : nat) : pyM sigE pyobj :=
  ptry (glue sig event checkpoint) (fun e => if is_Cancelled e then Some (pret PNone) else None).

Fixpoint register_loop (sigs : list Z) (checkpoints : list nat) (coros : list (Z * nat * nat))
    : pyM sigE (list nat * list (Z * nat * nat)) :=
  match sigs with
  | [] => pret (checkpoints, coros)
  | sig :: sigs =>
      let! checkpoint := pop SgNewCheckpoint in
      let! event := pop (SgNewEvent sig) in
      register_loop sigs (checkpoints ++ [checkpoint]) (coros ++ [(sig, event, checkpoint)])
  end.

Definition _register_coros (self : SignalReceiver) : pyM sigE SignalReceiver :=
  let! r := register_loop (_sigs self) (_checkpoints self) [] in
  pop (SgSpawn (snd r)) ;;;
  pret (mkReceiver (_sigs self) (fst r)).

(** [checkpoint.abort()]. *)
Fixpoint _cancel_coros (checkpoints : list nat) : pyM sigE unit :=
  match checkpoints with
  | [] => pret tt
  | c :: l => pop (SgUnwind c) ;;; _cancel_coros l
  end.

Definition SignalReceiver_anext (self : SignalReceiver) : pyM sigE Z :=
  let! sig := pcall SgReceive in pret sig.
End ColoredSignals.
