(* ===== verification/SignalProps.v ===== *)
(** * Signal receivers: no signal is lost

    The task of a receiver against the loop that sets its event. *)

From stdpp Require Import base numbers list gmap strings.
From Stdlib Require Import ZArith Lia.
From ITree Require Import ITree ITreeFacts.
From S2P Require Import Prelude Coro Os Signals.

Open Scope tonio_scope.
Open Scope nat_scope.
#[local] Set Warnings "-clear-no-such-hyp".

(** The event, the messages sent, the registry, whether the checkpoint was aborted; and for the
    statements how many signals the event was set for, and how many of them a later message
    stands for. *)
Record gstate := mkG {
  g_flag : bool; g_chan : list Z; g_handlers : sig_handlers; g_aborted : bool; g_arrived : nat; g_covered : nat
}.

Definition arrive (sig : Z) (s : gstate) : gstate :=
  if bool_decide (0 ∈ handle_io_signals true (g_handlers s) [sig])
  then mkG true (g_chan s) (g_handlers s) (g_aborted s) (S (g_arrived s)) (g_covered s) else s.

Definition sig_sem (X : Type) (tid : nat) (e : sigE X) (s : gstate) (x : X) (s' : gstate) : Prop :=
  match e in sigE X return X -> Prop with
  | SgCheckpoint _ => fun x => (x = Ok tt \/ g_aborted s = true /\ x = Err CancelledError) /\ s' = s
  | SgWait _ => fun x => (g_flag s = true /\ x = Ok tt \/ g_aborted s = true /\ x = Err CancelledError) /\ s' = s
  | SgClear _ => fun _ => s' = mkG false (g_chan s) (g_handlers s) (g_aborted s) (g_arrived s) (g_covered s)
  | SgSend z => fun _ => s' = mkG (g_flag s) (g_chan s ++ [z]) (g_handlers s) (g_aborted s) (g_arrived s) (g_arrived s)
  | SgRem z => fun x => x = bool_decide (is_Some (g_handlers s !! z)) /\
      s' = mkG (g_flag s) (g_chan s) (rt_sig_rem z (g_handlers s)) (g_aborted s) (g_arrived s) (g_covered s)
  | SgUnwind _ => fun _ => s' = mkG (g_flag s) (g_chan s) (g_handlers s) true (g_arrived s) (g_covered s)
  | SgArrive z => fun _ => s' = arrive z s
  | _ => fun _ => False
  end x.

(** The world of a receiver: signals arrive, and the block may be left. *)
Inductive sigact := Arrive (sig : Z) | Leave.
#[global] Instance sigact_eq_dec : EqDecision sigact.
Proof. solve_decision. Defined.

Fixpoint environment (self : SignalReceiver) (l : list sigact) : pyM sigE pyobj :=
  match l with
  | [] => pret PNone
  | Arrive z :: l => pop (SgArrive z) ;;; environment self l
  | Leave :: l => SignalReceiver_exit self ;;; environment self l
  end.

(** A receiver of one signal, entered: its event is registered and its task spawned. *)
Definition entered (sig : Z) : SignalReceiver := mkReceiver [sig] [0].
Definition sig_init (sig : Z) : gstate := mkG false [] (rt_sig_add sig 0 ∅) false 0 0.
Definition sig_pool (colored : bool) (sig : Z) (l : list sigact) : list (pyM sigE pyobj) :=
  [if colored then ColoredSignals.coro sig 0 0 else coro sig 0 0; environment (entered sig) l].

(** ** Control points *)

Inductive gphase :=
| P0 | P1 | P2 | P3 | P4 | PF (r : result pyobj)
| E0 (l : list sigact) | E1 (l : list sigact).

(** What [coro] makes of an error of the wait. *)
Definition gave_up (e : exn) : gphase := PF (if is_Cancelled e then Ok PNone else Err e).

Section Control.
Context (sig : Z).

Definition g_head (p : gphase) (K : forall X, sigE X -> (X -> gphase) -> Prop) : Prop :=
  match p with
  | P0 => K _ (SgCheckpoint 0) (fun x => match x with Ok _ => P1 | Err e => gave_up e end)
  | P1 => K _ (SgWait 0) (fun x => match x with Ok _ => P2 | Err e => gave_up e end)
  | P2 => K _ (SgClear 0) (fun _ => P3)
  | P3 => K _ (SgSend sig) (fun _ => P4)
  | E0 (Arrive z :: l) => K _ (SgArrive z) (fun _ => E0 l)
  | E0 (Leave :: l) => K _ (SgRem sig) (fun _ => E1 l)
  | E1 l => K _ (SgUnwind 0) (fun _ => E0 l)
  | E0 [] | P4 | PF _ => False
  end.

Definition g_jump (p : gphase) : option gphase := match p with P4 => Some P1 | _ => None end.

Definition caught (c : pyM sigE pyobj) : pyM sigE pyobj :=
  ptry c (fun e => if is_Cancelled e then Some (pret PNone) else None).

Definition g_tree (p : gphase) : pyM sigE pyobj :=
  match p with
  | P0 => coro sig 0 0
  | P1 => caught (receiver sig 0)
  | P2 => Vis (SgClear 0) (fun _ => Vis (SgSend sig) (fun _ => Tau (caught (receiver sig 0))))
  | P3 => Vis (SgSend sig) (fun _ => Tau (caught (receiver sig 0)))
  | P4 => Tau (caught (receiver sig 0))
  | E0 l => environment (entered sig) l
  | E1 l => pop (SgUnwind 0) ;;; environment (entered sig) l
  | PF r => Ret r
  end.

Lemma caught_err e : caught (praise e) ≅ g_tree (gave_up e).
Proof.
  unfold caught, ptry, ptry_else, praise. rewrite bind_ret_l. unfold gave_up. simpl. by destruct (is_Cancelled e).
Qed.

Lemma receiver_eq : caught (receiver sig 0) ≅ Vis (SgWait 0) (fun x : result unit =>
  match x with Ok _ => g_tree P2 | Err e => g_tree (gave_up e) end).
Proof.
  unfold caught at 1. unfold receiver at 1, ptry, ptry_else. rewrite ploop_unfold, bind_bind. unfold pcall, pbind at 1.
  rewrite bind_trigger, bind_vis. apply eqit_Vis. intros [u|e].
  - change (pbind ?c ?k) with (pbind c k). rewrite pbind_pop, bind_vis. apply eqit_Vis. intros u1.
    rewrite pbind_pop, bind_vis. apply eqit_Vis. intros u2. unfold pret at 1. rewrite bind_ret_l.
    rewrite bind_tau. reflexivity.
  - rewrite !bind_ret_l. unfold gave_up. simpl. by destruct (is_Cancelled e).
Qed.

Lemma exit_eq (k : pyM sigE pyobj) : SignalReceiver_exit (entered sig) ;;; k ≅
  Vis (SgRem sig) (fun _ => pop (SgUnwind 0) ;;; k).
Proof.
  unfold SignalReceiver_exit. simpl. rewrite !pbind_assoc, pbind_pop. apply eqit_Vis. intros b.
  rewrite pbind_pret, pbind_assoc. apply pbind_eq; [reflexivity|]. intros u. by rewrite pbind_pret.
Qed.

Lemma g_loops p : loops_ok g_tree g_head g_jump p.
Proof.
  destruct p as [| | | | | |[|[z|] l]|l]; unfold loops_ok; simpl; try reflexivity;
    try (left; exists (Ok PNone); split; [reflexivity|by intros K HK]); try (left; eexists; split; [simpl; reflexivity|by intros K HK]); right; do 3 eexists;
    (split; [|by intros K; split; intros HK; exact HK]); simpl; try done; try apply pbind_pop.
  - unfold coro, ptry, ptry_else, glue. rewrite pbind_pcall, bind_vis. apply eqit_Vis. intros [u|e]; [done|].
    apply caught_err.
  - rewrite receiver_eq. apply eqit_Vis. by intros [].
  - apply exit_eq.
Qed.
End Control.

(** ** Invariant *)

Section SigInv.
Context (sig : Z).

#[local] Abbreviation step := (loop_step sig_sem (g_head sig) g_jump).

(** Messages sent, and those that are certain to come, are paid for by signals. *)
Definition owed (p : gphase) (s : gstate) : nat :=
  match p with
  | P2 => 1
  | P3 => 1 + Nat.b2n (g_flag s)
  | _ => Nat.b2n (g_flag s)
  end.

Definition task_at (p : gphase) (s : gstate) : Prop :=
  match p with
  | P0 | P1 | P4 => g_covered s = g_arrived s \/ g_flag s = true
  | P2 => g_flag s = true
  | P3 => True
  | PF r => g_aborted s = true /\ r = Ok PNone
  | _ => False
  end.

Definition is_env (p : gphase) : Prop := match p with E0 _ | E1 _ => True | _ => False end.

Record g_inv (ps : list gphase) (s : gstate) : Prop := {
  gi_phases : exists p e, ps = [p; e] /\ task_at p s /\ is_env e /\ length (g_chan s) + owed p s <= g_arrived s;
  gi_chan : Forall (eq sig) (g_chan s)
}.

Lemma arrive_cases z s : arrive z s = s \/
  arrive z s = mkG true (g_chan s) (g_handlers s) (g_aborted s) (S (g_arrived s)) (g_covered s).
Proof. unfold arrive. case_bool_decide; auto. Qed.

Lemma g_task_step p e s i p' s' : g_inv [p; e] s -> step i s p p' s' -> g_inv [p'; e] s'.
Proof.
  intros [(p0 & e0 & [= <- <-] & Hp & He & Ho) Hc] Hs. unfold loop_step in Hs. destruct p; simpl in *; try done;
    try (destruct Hs as (x & Hsem & ->); simpl in Hsem).
  - destruct Hsem as [[->|[Ha ->]] ->]; (constructor; [|done]); do 2 eexists; (split; [reflexivity|]); simpl; done.
  - destruct Hsem as [[[Hf ->]|[Ha ->]] ->]; (constructor; [|done]); do 2 eexists; (split; [reflexivity|]); simpl.
    + rewrite Hf in Ho. done.
    + done.
  - subst s'. constructor; [|done]. do 2 eexists. split; [reflexivity|]. simpl. split_and!; [done|done|lia].
  - subst s'. constructor; simpl; [|by apply Forall_app; repeat constructor]. do 2 eexists. split; [reflexivity|]. simpl.
    rewrite length_app. simpl. split_and!; [by left|done|lia].
  - destruct Hs as [-> ->]. constructor; [|done]. by do 2 eexists.
Qed.

Lemma g_env_step p e s i e' s' : g_inv [p; e] s -> step i s e e' s' -> g_inv [p; e'] s'.
Proof.
  intros [(p0 & e0 & [= <- <-] & Hp & He & Ho) Hc] Hs. unfold loop_step in Hs.
  destruct e as [| | | | | |[|[z|] l]|l]; simpl in *; try done; destruct Hs as (x & Hsem & ->); simpl in Hsem.
  - subst s'. destruct (arrive_cases z s) as [-> | ->]; (constructor; [|done]); do 2 eexists; (split; [reflexivity|]); simpl;
      [done|]. split_and!; [|done|].
    + destruct p; simpl in *; tauto.
    + destruct p; simpl in *; try lia; destruct (g_flag s); simpl in *; lia.
  - destruct Hsem as [_ ->]. constructor; [|done]. do 2 eexists. split; [reflexivity|]. by destruct p.
  - subst s'. constructor; [|done]. do 2 eexists. split; [reflexivity|]. destruct p; simpl in *; tauto.
Qed.

Lemma g_step_inv ps s i p p' s' : g_inv ps s -> ps !! i = Some p -> step i s p p' s' -> g_inv (<[i:=p']> ps) s'.
Proof.
  intros Hi Hp Hs. pose proof (gi_phases _ _ Hi) as (q & e & -> & _). destruct i as [|[|i]]; simplify_eq/=.
  - by eapply g_task_step.
  - by eapply g_env_step.
Qed.

(** ** Termination *)

Definition act_rank (a : sigact) : nat := match a with Arrive _ => 6 | Leave => 2 end.
Definition p_rank (p : gphase) : nat :=
  match p with
  | P0 => 2 | P1 => 1 | P2 => 0 | P3 => 4 | P4 => 3 | PF _ => 0
  | E0 l => sum_list_with act_rank l | E1 l => 1 + sum_list_with act_rank l
  end.
Definition g_rank (ps : list gphase) (s : gstate) : nat := sum_list_with p_rank ps + 5 * Nat.b2n (g_flag s).

Lemma g_step_rank ps s i p p' s' : g_inv ps s -> ps !! i = Some p -> step i s p p' s' ->
  g_rank (<[i:=p']> ps) s' < g_rank ps s.
Proof.
  intros [(q & e & -> & Hq & He & _) _] Hp Hs. unfold loop_step, g_rank in *.
  destruct i as [|[|i]]; simplify_eq/=.
  - destruct p; simpl in *; try done; try (destruct Hs as (x & Hsem & ->); simpl in Hsem).
    + destruct Hsem as [[->|[_ ->]] ->]; simpl; lia.
    + destruct Hsem as [[[Hf ->]|[_ ->]] ->]; simpl; lia.
    + subst s'. rewrite Hq. simpl. lia.
    + subst s'. simpl. lia.
    + destruct Hs as [-> ->]. simpl. lia.
  - destruct p as [| | | | | |[|[z|] l]|l]; simpl in *; try done; destruct Hs as (x & Hsem & ->); simpl in Hsem.
    + subst s'. destruct (arrive_cases z s) as [-> | ->]; simpl; destruct (g_flag s); simpl; lia.
    + destruct Hsem as [_ ->]. simpl. lia.
    + subst s'. simpl. lia.
Qed.

(** As long as the block is not left, every arrival of the signal sets the event. *)
Definition signals (l : list sigact) : nat := length (filter (fun a => a = Arrive sig) l).

Definition n_inv (total : nat) (ps : list gphase) (s : gstate) : Prop :=
  exists p r, ps = [p; E0 r] /\ ~ is_env p /\ (Leave ∉ r) /\ g_handlers s = rt_sig_add sig 0 ∅ /\
    g_aborted s = false /\ g_arrived s + signals r = total.

Lemma handled z h : handle_io_signals true h [z] = match h !! z with Some e => [e] | None => [] end.
Proof. unfold handle_io_signals. cbn [omap list_omap]. by destruct (h !! z). Qed.

Lemma arrive_registered z s : g_handlers s = rt_sig_add sig 0 ∅ ->
  g_handlers (arrive z s) = g_handlers s /\ g_aborted (arrive z s) = g_aborted s /\
  g_arrived (arrive z s) = g_arrived s + signals [Arrive z].
Proof.
  intros Hh. unfold arrive, signals. rewrite handled, Hh. unfold rt_sig_add.
  rewrite filter_cons, filter_nil. destruct (decide (z = sig)) as [->|Hz].
  - rewrite lookup_insert_eq. rewrite bool_decide_true by set_solver. rewrite decide_True by done.
    cbn [length g_handlers g_aborted g_arrived]. split_and!; [done|done|lia].
  - rewrite lookup_insert_ne, lookup_empty by done. rewrite bool_decide_false by set_solver.
    rewrite decide_False by congruence. cbn [length]. split_and!; [done|done|lia].
Qed.

Lemma n_step_inv total ps s i p p' s' : n_inv total ps s -> ps !! i = Some p -> step i s p p' s' ->
  n_inv total (<[i:=p']> ps) s'.
Proof.
  intros (q & r & -> & Hq & Hr & Hh & Ha & Hn) Hp Hs. unfold loop_step in Hs.
  destruct i as [|[|i]]; simplify_eq/=.
  - destruct p; simpl in *; try done; try (destruct Hs as (x & Hsem & ->); simpl in Hsem);
      [destruct Hsem as [[->|[? _]] ->]; [|congruence]|destruct Hsem as [[[? ->]|[? _]] ->]; [|congruence]|
       subst s'|subst s'|destruct Hs as [-> ->]]; by do 2 eexists; split_and!.
  - destruct r as [|[z|] r]; simpl in Hs; [done| |set_solver]. destruct Hs as (x & -> & ->).
    destruct (arrive_registered z s Hh) as (H1 & H2 & H3). exists q, r. split_and!; [done|done|set_solver|congruence|congruence|].
    rewrite H3. unfold signals. simpl. rewrite !filter_cons, filter_nil. case_decide; simpl; lia.
Qed.

(** Where nothing can happen: the world is done, and the task waits for its event or has ended. *)
Lemma g_stuck ps s : g_inv ps s -> (forall i p p' s', ps !! i = Some p -> ~ step i s p p' s') ->
  (exists r, ps = [PF r; E0 []]) \/ ps = [P1; E0 []] /\ g_flag s = false /\ g_aborted s = false.
Proof.
  intros [(p & e & -> & Hp & He & _) _] Hst.
  assert (e = E0 []) as ->.
  { destruct e as [| | | | | |[|[z|] l]|l]; try done; exfalso.
    - eapply (Hst 1 _ _ (arrive z s)); [reflexivity|]. exists tt. by split.
    - eapply (Hst 1); [reflexivity|]. eexists. by split; [split|].
    - eapply (Hst 1); [reflexivity|]. exists tt. by split. }
  destruct p; try done; [exfalso|right|exfalso..|left; by eexists].
  - eapply (Hst 0); [reflexivity|]. exists (Ok tt). split; [split; [by left|reflexivity]|reflexivity].
  - split; [done|]. destruct (g_flag s) eqn:Hf.
    + exfalso. eapply (Hst 0); [reflexivity|]. exists (Ok tt). split; [split; [by left|reflexivity]|reflexivity].
    + split; [done|]. destruct (g_aborted s) eqn:Ha; [|done]. exfalso. eapply (Hst 0); [reflexivity|].
      exists (Err CancelledError). split; [split; [by right|reflexivity]|reflexivity].
  - eapply (Hst 0); [reflexivity|]. exists tt. by split.
  - eapply (Hst 0); [reflexivity|]. exists tt. by split.
  - by eapply (Hst 0); [reflexivity|split; reflexivity].
Qed.
End SigInv.


(** A second receiver of the same signal takes the place of the first, which gets nothing more, and
    when the second is left nobody gets anything. *)
Theorem second_receiver_replaces sig :
  let h := rt_sig_add sig 1 (rt_sig_add sig 0 ∅) in
  handle_io_signals true h [sig] = [1] /\ handle_io_signals true (rt_sig_rem sig h) [sig] = [].
Proof.
  cbv zeta. rewrite !handled. unfold rt_sig_add, rt_sig_rem.
  by rewrite lookup_insert_eq, lookup_delete_eq.
Qed.
