(* ===== verification/Pool.v ===== *)
(** * The threads of the blocking pool

    [BlockingRunnerPool] and [blocking_worker] of [src/src/blocking.rs]: how the pool grows when
    functions are submitted, how idle threads leave it, and what becomes of the tasks.  Every
    access to one of the two shared counters and to the queue is a step of its own, and threads
    interleave between any two of them.  What a thread does with one task is [Blocking]. *)

From stdpp Require Import base numbers list relations.
From Stdlib Require Import ZArith Lia.
From S2P Require Import Prelude.

Open Scope Z_scope.

Abbreviation task := nat.

(** Where a thread of [blocking_worker] stands, named by the access that comes next. *)
Inductive wpc :=
| WIdle                 (* [pbudget.fetch_add(1)] *)
| WRecv                 (* [queue.recv_timeout(timeout)] *)
| WUnbudget             (* timed out: [pbudget.fetch_sub(1)] *)
| WUncount              (* [tcount.fetch_sub(1)] *)
| WTry                  (* [queue.try_recv()] *)
| WRecount (t : task)   (* a task after all: [tcount.fetch_add(1)] *)
| WRebudget (t : task)  (* [pbudget.fetch_add(1)] *)
| WRun (t : task)       (* [task.run(py)] *)
| WExit.
#[export] Instance wpc_eq_dec : EqDecision wpc.
Proof. solve_decision. Defined.

(** Where a call of [BlockingRunnerPool::run] stands. *)
Inductive rpc :=
| RSend (t : task)      (* [self.queue.send(task)] *)
| RBudget               (* [self.budget.fetch_sub(1) <= 0] *)
| RLoad                 (* [self.threads.load() < self.tmax] *)
| RAdd                  (* [spawn_thread]: [self.threads.fetch_add(1) >= self.tmax] *)
| RSub                  (* [self.threads.fetch_sub(1)] *)
| RReturn.
#[export] Instance rpc_eq_dec : EqDecision rpc.
Proof. solve_decision. Defined.

(** The pool, its threads, the calls of [run] under way, the tasks nobody has submitted yet and
    those that have run. *)
Record BlockingRunnerPool := mkPool {
  queue : list task; threads : Z; tmax : Z; budget : Z;
  workers : list wpc; calls : list rpc; todo : list task; ran : list task
}.

Definition with_queue q p :=
  mkPool q (threads p) (tmax p) (budget p) (workers p) (calls p) (todo p) (ran p).
Definition with_threads n p :=
  mkPool (queue p) n (tmax p) (budget p) (workers p) (calls p) (todo p) (ran p).
Definition with_budget b p :=
  mkPool (queue p) (threads p) (tmax p) b (workers p) (calls p) (todo p) (ran p).
Definition with_ran r p :=
  mkPool (queue p) (threads p) (tmax p) (budget p) (workers p) (calls p) (todo p) r.
Definition set_worker i pc p :=
  mkPool (queue p) (threads p) (tmax p) (budget p) (<[i:=pc]> (workers p)) (calls p) (todo p)
    (ran p).
Definition set_call i pc p :=
  mkPool (queue p) (threads p) (tmax p) (budget p) (workers p) (<[i:=pc]> (calls p)) (todo p)
    (ran p).

(** [BlockingRunnerPool::new], with the tasks that will be submitted to it. *)
Definition pool_new (max_threads : Z) (ts : list task) : BlockingRunnerPool :=
  mkPool [] 0 max_threads 0 [] [] ts [].

(** [thread::spawn(move || blocking_worker(..))]. *)
Definition thread_spawn (p : BlockingRunnerPool) : BlockingRunnerPool :=
  mkPool (queue p) (threads p) (tmax p) (budget p) (workers p ++ [WIdle]) (calls p) (todo p)
    (ran p).

(** One access of thread [i].  [recv_timeout] may give up at any time ([timeout]); without that it
    returns when there is a task.  [try_recv] fails only on an empty queue. *)
Definition blocking_worker (i : nat) (timeout : bool) (p : BlockingRunnerPool)
    : option BlockingRunnerPool :=
  match workers p !! i with
  | Some WIdle => Some (set_worker i WRecv (with_budget (isize (budget p + 1)) p))
  | Some WRecv =>
      if timeout then Some (set_worker i WUnbudget p)
      else match queue p with
           | t :: q => Some (set_worker i (WRun t) (with_queue q p))
           | [] => None
           end
  | Some WUnbudget => Some (set_worker i WUncount (with_budget (isize (budget p - 1)) p))
  | Some WUncount => Some (set_worker i WTry (with_threads (usize (threads p - 1)) p))
  | Some WTry =>
      match queue p with
      | t :: q => Some (set_worker i (WRecount t) (with_queue q p))
      | [] => Some (set_worker i WExit p)
      end
  | Some (WRecount t) =>
      Some (set_worker i (WRebudget t) (with_threads (usize (threads p + 1)) p))
  | Some (WRebudget t) =>
      Some (set_worker i (WRun t) (with_budget (isize (budget p + 1)) p))
  | Some (WRun t) => Some (set_worker i WIdle (with_ran (ran p ++ [t]) p))
  | Some WExit | None => None
  end.

(** [BlockingRunnerPool::spawn_thread], from its first access and from its second. *)
Definition spawn_thread (i : nat) (p : BlockingRunnerPool) : BlockingRunnerPool :=
  let prev := threads p in
  let p := with_threads (usize (prev + 1)) p in
  if prev >=? tmax p then set_call i RSub p else thread_spawn (set_call i RReturn p).

(** One access of the [i]-th call of [BlockingRunnerPool::run]. *)
Definition pool_run (i : nat) (p : BlockingRunnerPool) : option BlockingRunnerPool :=
  match calls p !! i with
  | Some (RSend t) => Some (set_call i RBudget (with_queue (queue p ++ [t]) p))
  | Some RBudget =>
      let prev := budget p in
      Some (set_call i (if prev <=? 0 then RLoad else RReturn)
              (with_budget (isize (prev - 1)) p))
  | Some RLoad => Some (set_call i (if threads p <? tmax p then RAdd else RReturn) p)
  | Some RAdd => Some (spawn_thread i p)
  | Some RSub => Some (set_call i RReturn (with_threads (usize (threads p - 1)) p))
  | Some RReturn | None => None
  end.

Definition active (c : rpc) : bool := match c with RReturn => false | _ => true end.

(** The next task is submitted by a new call.  Calls come from [Runtime._spawn_blocking], which
    keeps the interpreter's global lock throughout: where there is one ([gil]) a call starts only
    when no other is under way. *)
Definition submit (gil : bool) (p : BlockingRunnerPool) : option BlockingRunnerPool :=
  match todo p with
  | t :: ts =>
      if gil && existsb active (calls p) then None
      else Some (mkPool (queue p) (threads p) (tmax p) (budget p) (workers p)
                   (calls p ++ [RSend t]) ts (ran p))
  | [] => None
  end.

Inductive act := AWorker (i : nat) (timeout : bool) | ARun (i : nat) | ASubmit.

Definition do_act (gil : bool) (a : act) (p : BlockingRunnerPool) : option BlockingRunnerPool :=
  match a with
  | AWorker i timeout => blocking_worker i timeout p
  | ARun i => pool_run i p
  | ASubmit => submit gil p
  end.

Fixpoint do_acts (gil : bool) (l : list act) (p : BlockingRunnerPool) : option BlockingRunnerPool :=
  match l with
  | [] => Some p
  | a :: l => match do_act gil a p with Some p' => do_acts gil l p' | None => None end
  end.

Definition pool_step (gil : bool) (p p' : BlockingRunnerPool) : Prop :=
  exists a, do_act gil a p = Some p'.

Definition at_rest (gil : bool) (p : BlockingRunnerPool) : Prop :=
  forall a, do_act gil a p = None.

(** ** Counting threads and calls by where they stand *)

(** Threads [threads] counts, threads [budget] counts, threads that took a task without having
    been counted in [budget], and threads that will look at the queue again. *)
Definition counted (w : wpc) : bool :=
  match w with WTry | WRecount _ | WExit => false | _ => true end.
Definition idle (w : wpc) : bool := match w with WRecv | WUnbudget => true | _ => false end.
Definition taking (w : wpc) : bool :=
  match w with WRecount _ | WRebudget _ => true | _ => false end.
Definition alive (w : wpc) : bool := match w with WExit => false | _ => true end.

Definition over (c : rpc) : bool := match c with RSub => true | _ => false end.
Definition sent (c : rpc) : bool := match c with RBudget => true | _ => false end.
Definition deciding (c : rpc) : bool :=
  match c with RBudget | RLoad | RAdd => true | _ => false end.
Definition may_spawn (c : rpc) : bool :=
  match c with RSend _ | RBudget | RLoad | RAdd => true | _ => false end.

Definition task_of_worker (w : wpc) : option task :=
  match w with WRecount t | WRebudget t | WRun t => Some t | _ => None end.
Definition task_of_call (c : rpc) : option task :=
  match c with RSend t => Some t | _ => None end.

(** Every task that was or will be submitted, wherever it is. *)
Definition tasks (p : BlockingRunnerPool) : list task :=
  todo p ++ omap task_of_call (calls p) ++ queue p ++ omap task_of_worker (workers p) ++ ran p.

(** ** The invariant *)

(** The two counters say what the threads and the calls make them say; a queued task has a
    thread that will look at the queue or a call that is still deciding whether to start one;
    no task is lost or duplicated; and there are fewer threads than [n]. *)
Record pool_inv (max : Z) (ts : list task) (p : BlockingRunnerPool) : Prop := {
  inv_tmax : tmax p = max;
  inv_threads : threads p = Z.of_nat (countb counted (workers p) + countb over (calls p));
  inv_budget : budget p + Z.of_nat (length (queue p) + countb taking (workers p))
               = Z.of_nat (countb idle (workers p) + countb sent (calls p));
  inv_served : queue p <> [] ->
               (0 < countb alive (workers p) + countb deciding (calls p))%nat;
  inv_one : (countb active (calls p) <= 1)%nat;
  inv_bound : (length (workers p) + countb may_spawn (calls p) + length (todo p)
               <= length ts)%nat;
  inv_tasks : tasks p ≡ₚ ts
}.

Lemma pool_new_inv max ts : pool_inv max ts (pool_new max ts).
Proof.
  split; simpl; try done; try lia.
  unfold tasks. simpl. by rewrite app_nil_r.
Qed.

Lemma pool_inv_bounds max ts p :
  pool_inv max ts p -> Z.of_nat (length ts) < 2 ^ 31 ->
  0 <= threads p < 2 ^ 32 /\ - 2 ^ 33 < budget p < 2 ^ 33.
Proof.
  intros [Hmax Ht Hb _ Hone Hbd Hts] Hlen.
  apply Permutation_length in Hts. unfold tasks in Hts. rewrite !length_app in Hts.
  pose proof (countb_le_length counted (workers p)).
  pose proof (countb_le_length taking (workers p)).
  pose proof (countb_le_length idle (workers p)).
  assert (countb over (calls p) <= countb active (calls p))%nat
    by (apply countb_mono; by intros ? []).
  assert (countb sent (calls p) <= countb active (calls p))%nat
    by (apply countb_mono; by intros ? []).
  lia.
Qed.

(** What replacing a thread or a call does to each count. *)
Ltac count_worker Hi pc :=
  pose proof (countb_insert counted _ _ _ pc Hi);
  pose proof (countb_insert idle _ _ _ pc Hi);
  pose proof (countb_insert taking _ _ _ pc Hi);
  pose proof (countb_insert alive _ _ _ pc Hi);
  pose proof (omap_insert_perm task_of_worker _ _ _ pc Hi).

Ltac count_call Hi pc :=
  pose proof (countb_insert over _ _ _ pc Hi);
  pose proof (countb_insert sent _ _ _ pc Hi);
  pose proof (countb_insert deciding _ _ _ pc Hi);
  pose proof (countb_insert active _ _ _ pc Hi);
  pose proof (countb_insert may_spawn _ _ _ pc Hi);
  pose proof (omap_insert_perm task_of_call _ _ _ pc Hi).

(** The goals of the invariant after a step: wrap-around that does not happen, arithmetic over
    the counts, and tasks that moved. *)
Ltac pool_goal :=
  simpl in *;
  repeat match goal with
    | Hq : queue ?p = _ |- context [queue ?p] => rewrite Hq
    | |- context [usize ?x] => rewrite (usize_id x) by lia
    | |- context [isize ?x] => rewrite (isize_id x) by lia
    end;
  rewrite ?length_insert, ?length_app, ?countb_app; simpl;
  match goal with
  | Hts : tasks _ ≡ₚ ?ts |- tasks _ ≡ₚ ?ts =>
      rewrite <- Hts; unfold tasks; simpl;
      rewrite ?omap_app;
      repeat match goal with Hq : queue ?p = _ |- context [queue ?p] => rewrite Hq end;
      try match goal with H : ?x :: _ ≡ₚ ?x :: _ |- _ => apply Permutation_cons_inv in H end;
      match goal with
      | H : omap _ ?l ≡ₚ _ |- _ => rewrite H
      | H : _ ≡ₚ omap _ ?l |- _ => rewrite <- H
      | _ => idtac
      end; rewrite <- ?app_assoc; solve_Permutation
  | Hsv : _ -> (0 < _)%nat |- _ -> (0 < _)%nat =>
      let Hq := fresh in
      intros Hq; first [lia | done | specialize (Hsv ltac:(first [exact Hq | congruence])); lia]
  | _ => try done; try lia
  end.

Lemma blocking_worker_inv max ts i timeout p p' :
  Z.of_nat (length ts) < 2 ^ 31 -> pool_inv max ts p ->
  blocking_worker i timeout p = Some p' -> pool_inv max ts p'.
Proof.
  intros Hlen Hinv Hstep. pose proof (pool_inv_bounds _ _ _ Hinv Hlen) as [Ht Hb].
  destruct Hinv as [Hmax Hth Hbud Hsv Hone Hbd Hts]. unfold blocking_worker in Hstep.
  destruct (workers p !! i) as [w|] eqn:Hi; [|done].
  pose proof (countb_lookup_pos counted _ _ _ Hi) as Hcounted.
  destruct w; [|destruct timeout; [|destruct (queue p) as [|t q] eqn:Hq]| | |
    destruct (queue p) as [|t q] eqn:Hq| | | |]; try done; injection Hstep as <-.
  - count_worker Hi WRecv. split; pool_goal.
  - count_worker Hi WUnbudget. split; pool_goal.
  - count_worker Hi (WRun t). split; pool_goal.
  - count_worker Hi WUncount. split; pool_goal.
  - count_worker Hi WTry. specialize (Hcounted eq_refl). split; pool_goal.
  - count_worker Hi WExit. split; pool_goal.
  - count_worker Hi (WRecount t). split; pool_goal.
  - count_worker Hi (WRebudget t). split; pool_goal.
  - count_worker Hi (WRun t). split; pool_goal.
  - count_worker Hi WIdle. split; pool_goal.
Qed.

(** The other calls have returned when one is under way. *)
Lemma sole_call max ts p i c :
  pool_inv max ts p -> calls p !! i = Some c -> active c = true ->
  countb over (calls p) = (if over c then 1 else 0)%nat /\
  countb sent (calls p) = (if sent c then 1 else 0)%nat /\
  countb deciding (calls p) = (if deciding c then 1 else 0)%nat.
Proof.
  intros Hinv Hi Hc. pose proof (inv_one _ _ _ Hinv) as Hone.
  split_and!; (eapply (countb_sole _ active _ _ _ RReturn); [done..|]; by intros []).
Qed.

Lemma counted_alive l : (countb counted l <= countb alive l)%nat.
Proof. apply countb_mono. by intros ? []. Qed.

Lemma idle_alive l : (countb idle l <= countb alive l)%nat.
Proof. apply countb_mono. by intros ? []. Qed.

Lemma pool_run_inv max ts i p p' :
  1 <= max -> Z.of_nat (length ts) < 2 ^ 31 -> pool_inv max ts p ->
  pool_run i p = Some p' -> pool_inv max ts p'.
Proof.
  intros Hpos Hlen Hinv Hstep. pose proof (pool_inv_bounds _ _ _ Hinv Hlen) as [Ht Hb].
  pose proof (counted_alive (workers p)). pose proof (idle_alive (workers p)).
  unfold pool_run in Hstep. destruct (calls p !! i) as [c|] eqn:Hi; [|done].
  assert (active c = true) as Hc by (by destruct c).
  destruct (sole_call _ _ _ _ _ Hinv Hi Hc) as (Ho & Hs & Hd).
  destruct Hinv as [Hmax Hth Hbud Hsv Hone Hbd Hts].
  destruct c; simpl in Ho, Hs, Hd; try done; injection Hstep as <-.
  - count_call Hi RBudget. split; pool_goal.
  - destruct (Z.leb_spec (budget p) 0).
    + count_call Hi RLoad. split; pool_goal.
    + count_call Hi RReturn. split; pool_goal.
      intros Hq. destruct (queue p); [done|]. simpl in *. lia.
  - destruct (Z.ltb_spec (threads p) (tmax p)).
    + count_call Hi RAdd. split; pool_goal.
    + count_call Hi RReturn. split; pool_goal.
  - unfold spawn_thread. rewrite Z.geb_leb. simpl.
    destruct (Z.leb_spec (tmax p) (threads p)).
    + count_call Hi RSub. split; pool_goal.
    + count_call Hi RReturn. split; pool_goal.
  - count_call Hi RReturn. split; pool_goal.
Qed.

Lemma submit_inv max ts p p' :
  pool_inv max ts p -> submit true p = Some p' -> pool_inv max ts p'.
Proof.
  intros [Hmax Hth Hbud Hsv Hone Hbd Hts] Hstep. unfold submit in Hstep.
  destruct (todo p) as [|t todo'] eqn:Htodo; [done|]. simpl in Hstep.
  destruct (existsb active (calls p)) eqn:Hact; [done|]. injection Hstep as <-.
  apply existsb_countb in Hact. split; pool_goal.
  rewrite <- Hts. unfold tasks. simpl. rewrite omap_app, Htodo. simpl. solve_Permutation.
Qed.

Lemma pool_step_inv max ts p p' :
  1 <= max -> Z.of_nat (length ts) < 2 ^ 31 ->
  pool_inv max ts p -> pool_step true p p' -> pool_inv max ts p'.
Proof.
  intros Hmax Hlen Hinv [[i timeout|i|] Hstep]; simpl in Hstep.
  - by eapply blocking_worker_inv.
  - by eapply pool_run_inv.
  - by eapply submit_inv.
Qed.

Lemma pool_reachable_inv max ts p :
  1 <= max -> Z.of_nat (length ts) < 2 ^ 31 ->
  rtc (pool_step true) (pool_new max ts) p -> pool_inv max ts p.
Proof.
  intros Hmax Hlen. apply (rtc_ind_r _ _ (pool_new_inv max ts)).
  intros p1 p2 _ Hstep Hinv. by eapply pool_step_inv.
Qed.

(** ** Termination *)

Definition worker_rank (w : wpc) : nat :=
  match w with
  | WExit => 0 | WTry => 1 | WUncount => 2 | WUnbudget => 3 | WRecv => 4 | WIdle => 5
  | WRun _ => 6 | WRebudget _ => 7 | WRecount _ => 8
  end.
Definition call_rank (c : rpc) : nat :=
  match c with RReturn => 0 | RSub => 1 | RAdd => 6 | RLoad => 7 | RBudget => 8 | RSend _ => 17 end.
Definition pool_rank (p : BlockingRunnerPool) : nat :=
  18 * length (todo p) + 8 * length (queue p) + sum_list_with worker_rank (workers p)
  + sum_list_with call_rank (calls p).

Lemma pool_rank_decreases gil p p' :
  pool_step gil p p' -> (pool_rank p' < pool_rank p)%nat.
Proof.
  intros [[i timeout|i|] Hstep]; simpl in Hstep.
  - unfold blocking_worker in Hstep. destruct (workers p !! i) as [w|] eqn:Hi; [|done].
    pose proof (fun y => sum_list_with_insert worker_rank _ _ _ y Hi) as Hs.
    destruct w; [|destruct timeout; [|destruct (queue p) as [|t q] eqn:Hq]| | |
      destruct (queue p) as [|t q] eqn:Hq| | | |]; try done; injection Hstep as <-;
      unfold pool_rank; simpl; rewrite ?Hq; simpl;
      match goal with |- context [<[i:=?w]> _] => specialize (Hs w) end; simpl in Hs; lia.
  - unfold pool_run in Hstep. destruct (calls p !! i) as [c|] eqn:Hi; [|done].
    pose proof (fun y => sum_list_with_insert call_rank _ _ _ y Hi) as Hs.
    destruct c; [|destruct (_ <=? _)|destruct (_ <? _)|unfold spawn_thread in *; simpl in *;
      destruct (_ >=? _)| |]; try done; injection Hstep as <-;
      unfold pool_rank; simpl; rewrite ?length_app, ?sum_list_with_app; simpl;
      match goal with |- context [<[i:=?c]> _] => specialize (Hs c) end; simpl in Hs; lia.
  - unfold submit in Hstep. destruct (todo p) as [|t ts] eqn:Ht; [done|].
    destruct (_ && _); [done|]. injection Hstep as <-.
    unfold pool_rank. simpl. rewrite Ht, sum_list_with_app. simpl. lia.
Qed.

Lemma pool_step_wf gil p : Acc (fun p' p => pool_step gil p p') p.
Proof.
  apply (Wf_nat.well_founded_lt_compat _ pool_rank).
  intros p' q. apply pool_rank_decreases.
Qed.

(** When nothing can move, everything has been submitted, every call has returned and every
    thread has left. *)
Lemma at_rest_workers gil p : at_rest gil p -> countb alive (workers p) = 0%nat.
Proof.
  intros Hrest. apply countb_none. intros i w Hi.
  specialize (Hrest (AWorker i true)). simpl in Hrest. unfold blocking_worker in Hrest.
  rewrite Hi in Hrest. destruct w; try done. by destruct (queue p).
Qed.

Lemma at_rest_calls gil p : at_rest gil p -> countb active (calls p) = 0%nat.
Proof.
  intros Hrest. apply countb_none. intros i c Hi.
  specialize (Hrest (ARun i)). simpl in Hrest. unfold pool_run in Hrest.
  rewrite Hi in Hrest. by destruct c.
Qed.

Lemma pool_rest_todo gil p : at_rest gil p -> todo p = [].
Proof.
  intros Hrest. pose proof (at_rest_calls _ _ Hrest) as Hc%existsb_countb_0.
  specialize (Hrest ASubmit). simpl in Hrest. unfold submit in Hrest.
  destruct (todo p); [done|]. by rewrite Hc, andb_false_r in Hrest.
Qed.

(** ** Every submitted task runs *)


(** A first task starts a thread, which times out while the second is being submitted and finds
    it in its last look at the queue. *)
Definition late_task : list act :=
  [ASubmit; ARun 0; ARun 0; ARun 0; ARun 0;
   AWorker 0 false; AWorker 0 false; AWorker 0 false; AWorker 0 false; AWorker 0 true;
   ASubmit; ARun 1; ARun 1; AWorker 0 false; AWorker 0 false; AWorker 0 false;
   AWorker 0 false; AWorker 0 false; AWorker 0 false; AWorker 0 false; AWorker 0 true;
   AWorker 0 false; AWorker 0 false; AWorker 0 false].

Lemma do_acts_rtc gil l p p' : do_acts gil l p = Some p' -> rtc (pool_step gil) p p'.
Proof.
  revert p. induction l as [|a l IH]; simpl; intros p Hl; [by simplify_eq|].
  destruct (do_act gil a p) as [q|] eqn:Ha; [|done].
  eapply rtc_l; [by exists a|by apply IH].
Qed.


(** ** Two executions that go wrong *)

(** [max_threads] is not a bound on the threads: one that has timed out and is no longer counted
    lets a call start another, then takes the task itself. *)
Definition two_threads : list act :=
  [ASubmit; ARun 0; ARun 0; ARun 0; ARun 0;
   AWorker 0 false; AWorker 0 false; AWorker 0 false; AWorker 0 false; AWorker 0 true;
   AWorker 0 false; AWorker 0 false;
   ASubmit; ARun 1; ARun 1; ARun 1; ARun 1;
   AWorker 0 false; AWorker 0 false].

Lemma pool_exceeds_max :
  exists p, rtc (pool_step true) (pool_new 1 [7; 8]%nat) p /\
    threads p = 2 /\ countb alive (workers p) = 2%nat /\ tmax p = 1.
Proof.
  eexists. split; [apply (do_acts_rtc true two_threads); vm_compute; reflexivity|].
  by vm_compute.
Qed.

(** Without the global lock two calls may find room for the same thread; until the one that came
    late has taken its increment back, a third call may find the pool full of nobody. *)
Definition stranded : list act :=
  [ASubmit; ASubmit; ARun 0; ARun 0; ARun 0; ARun 1; ARun 1; ARun 1; ARun 0; ARun 1;
   AWorker 0 false; AWorker 0 false; AWorker 0 false; AWorker 0 false; AWorker 0 false;
   AWorker 0 false; AWorker 0 false; AWorker 0 true; AWorker 0 false; AWorker 0 false;
   AWorker 0 false;
   ASubmit; ARun 2; ARun 2; ARun 2; ARun 1].

Lemma pool_strands_task :
  exists p, rtc (pool_step false) (pool_new 1 [7; 8; 9]%nat) p /\
    at_rest false p /\ queue p = [9]%nat /\ ran p = [7; 8]%nat.
Proof.
  eexists. split; [apply (do_acts_rtc false stranded); vm_compute; reflexivity|].
  split; [|done]. intros [[|i] b|[|[|[|i]]]|]; reflexivity.
Qed.
