(* ===== verification/Workers.v ===== *)
(** * The worker threads and their queues

    [WorkSchedule], [find_work] and [work_loop] of [src/src/work.rs] with the ways to hand a handle
    to the workers ([add_handle], [add_io_handle], [defer_handle]) and [stop_threads] of
    [src/src/runtime.rs].  Every access to an idle flag, to [idle_count], [speculation],
    [work_stopping], a queue or a parker is a step of its own; threads interleave between any two
    of them, in a sequentially consistent memory.  A handle is known by a number and by the handles
    it hands over when it runs. *)

From stdpp Require Import base numbers list relations.
From Stdlib Require Import ZArith Lia.
From S2P Require Import Prelude.

Open Scope Z_scope.

(** The three ways to hand over a handle. *)
Inductive kind := KAdd | KIo | KDefer.

#[warnings="-register-all"]
Inductive handle := Handle (id : nat) (pushes : list (kind * handle)).

Definition hid (h : handle) : nat := match h with Handle id _ => id end.
Definition script (h : handle) : list (kind * handle) := match h with Handle _ ps => ps end.

(** Where a call of [unpark_one] or [unpark] ([forced]) stands. *)
Inductive wake :=
| ULoad (forced : bool)  (* [self.idle_count.load() == 0] *)
| UTake (forced : bool)  (* [self.speculation.compare_exchange(0, 1)] or [.fetch_add(1)] *)
| UScan (j : nat)        (* [wake_idle]: [flag.compare_exchange(true, false)] of worker [j] *)
| UCount (j : nat)       (* [self.idle_count.fetch_sub(1)] *)
| UUnpark (j : nat)      (* [self.unparkers[j].unpark()] *)
| UGiveUp.               (* no flag was set: [self.speculation.fetch_sub(1)] *)

(** What a worker runs: a handle it is about to start, or what is left of one. *)
Inductive job := JStart (h : handle) | JMore (ops : list (kind * handle)).

(** Where [work_loop] stands; [again] tells the scan after [set_idle] from the one before. *)
Inductive wpc :=
| FindLocal (again : bool)             (* [worker.pop()] *)
| FindInjector (again : bool)          (* [injector.steal()] *)
| FindSteal (again : bool) (j : nat)   (* [stealer.steal()] of worker [j] *)
| Release (h : handle)                 (* [scheduler.speculation.fetch_sub(1) == 1] *)
| Waking (u : wake) (k : job)          (* inside [unpark_one] or [unpark] *)
| Running (k : job)                    (* inside [handle.run] *)
| Stopping1                            (* [work_stopping.load()] after the first scan *)
| SetFlag                              (* [set_idle]: [idle_flags[idx].store(true)] *)
| SetCount                             (* [set_idle]: [idle_count.fetch_add(1)] *)
| ClearFound (h : handle)              (* found after all: [clear_idle], its exchange *)
| ClearFoundCount (h : handle)         (* [clear_idle]: [idle_count.fetch_sub(1)] *)
| Absorb (h : handle)                  (* the flag was claimed: [speculation.fetch_sub(1)] *)
| Stopping2                            (* [work_stopping.load()] after the second scan *)
| FinalRelease                         (* stop speculating: [speculation.fetch_sub(1)] *)
| FinalSteal                           (* the last [work_injector.steal()] *)
| Parked                               (* [parker.park()] *)
| ClearPark                            (* [!scheduler.clear_idle(idx)], its exchange *)
| ClearParkCount                       (* and its [idle_count.fetch_sub(1)] *)
| Stopping3 (claimed : bool)           (* [work_stopping.load()] after parking *)
| ClearStop                            (* stopping: [clear_idle], its exchange *)
| ClearStopCount                       (* and its [idle_count.fetch_sub(1)] *)
| StopRelease                          (* [if is_speculating { speculation.fetch_sub(1) }] *)
| Exited.

(** A worker: where it stands, [is_speculating], its entry of [idle_flags], the token of its
    parker and its deque, the newest handle first. *)
Record worker := mkW {
  pc : wpc; spec : bool; flag : bool; token : bool; local : list handle
}.

Definition set_pc (c : wpc) (w : worker) : worker := mkW c (spec w) (flag w) (token w) (local w).
Definition set_spec (b : bool) (w : worker) : worker := mkW (pc w) b (flag w) (token w) (local w).
Definition set_flag (b : bool) (w : worker) : worker := mkW (pc w) (spec w) b (token w) (local w).
Definition set_token (b : bool) (w : worker) : worker := mkW (pc w) (spec w) (flag w) b (local w).
Definition set_local (l : list handle) (w : worker) : worker :=
  mkW (pc w) (spec w) (flag w) (token w) l.

(** A thread that is not a worker, handing over a handle. *)
Inductive epc := EPush (k : kind) (h : handle) | EWaking (u : wake) | EReturn.

(** Where [stop_threads] stands: not called, or unparking worker [i]. *)
Inductive stop := SNot | SUnpark (i : nat).

Record sched := mkSched {
  workers : list worker; injector : list handle; idle_count : Z; speculation : Z;
  work_stopping : bool; stopper : stop; externs : list epc; todo : list (kind * handle);
  ran : list nat
}.

Definition with_workers x s := mkSched x (injector s) (idle_count s) (speculation s)
  (work_stopping s) (stopper s) (externs s) (todo s) (ran s).
Definition with_injector x s := mkSched (workers s) x (idle_count s) (speculation s)
  (work_stopping s) (stopper s) (externs s) (todo s) (ran s).
Definition with_idle x s := mkSched (workers s) (injector s) x (speculation s)
  (work_stopping s) (stopper s) (externs s) (todo s) (ran s).
Definition with_speculation x s := mkSched (workers s) (injector s) (idle_count s) x
  (work_stopping s) (stopper s) (externs s) (todo s) (ran s).
Definition with_stop b x s := mkSched (workers s) (injector s) (idle_count s) (speculation s)
  b x (externs s) (todo s) (ran s).
Definition with_externs x s := mkSched (workers s) (injector s) (idle_count s) (speculation s)
  (work_stopping s) (stopper s) x (todo s) (ran s).
Definition with_todo x s := mkSched (workers s) (injector s) (idle_count s) (speculation s)
  (work_stopping s) (stopper s) (externs s) x (ran s).
Definition with_ran x s := mkSched (workers s) (injector s) (idle_count s) (speculation s)
  (work_stopping s) (stopper s) (externs s) (todo s) x.

Definition upd (i : nat) (w : worker) (s : sched) : sched :=
  with_workers (<[i:=w]> (workers s)) s.
Definition count (d : Z) (s : sched) : sched := with_idle (usize (idle_count s + d)) s.
Definition tokens (d : Z) (s : sched) : sched := with_speculation (usize (speculation s + d)) s.

(** The state in which [Runtime._run] starts its [n] workers, with the handles other threads will
    hand over. *)
Definition sched_new (n : nat) (ts : list (kind * handle)) : sched :=
  mkSched (replicate n (mkW (FindLocal false) false false false [])) [] 0 0 false SNot [] ts [].

(** One access of [unpark_one], [unpark] or [wake_idle]; [None] when the call returns. *)
Definition wake_step (u : wake) (s : sched) : sched * option wake :=
  match u with
  | ULoad forced => (s, if idle_count s =? 0 then None else Some (UTake forced))
  | UTake true => (tokens 1 s, Some (UScan 0))
  | UTake false =>
      if speculation s =? 0 then (tokens 1 s, Some (UScan 0)) else (s, None)
  | UScan j =>
      match workers s !! j with
      | Some w => if flag w then (upd j (set_flag false w) s, Some (UCount j))
                  else (s, Some (UScan (S j)))
      | None => (s, Some UGiveUp)
      end
  | UCount j => (count (-1) s, Some (UUnpark j))
  | UUnpark j =>
      match workers s !! j with
      | Some w => (upd j (set_token true w) s, None)
      | None => (s, None)
      end
  | UGiveUp => (tokens (-1) s, None)
  end.

(** Where [work_loop] goes with a handle once the idle flag is settled, and with one it found. *)
Definition started (w : worker) (h : handle) : wpc :=
  if spec w then Release h else Running (JStart h).
Definition found (again : bool) (w : worker) (h : handle) : wpc :=
  if again then ClearFound h else started w h.

(** [stealer.steal()] takes the oldest handle. *)
Definition steal (l : list handle) : option (handle * list handle) :=
  match rev l with h :: r => Some (h, rev r) | [] => None end.

(** [push] of the three functions, with the deque a worker would push to; then the wake. *)
Definition forced (k : kind) : bool := match k with KIo => true | _ => false end.

Definition leave (w : worker) : wpc := if spec w then StopRelease else Exited.

(** After the access of a wake the worker goes on with it, or with what it runs. *)
Definition resume_waking (i : nat) (k : job) (r : sched * option wake) : sched :=
  let (s, u) := r in
  match workers s !! i with
  | Some w => upd i (set_pc (match u with Some u => Waking u k | None => Running k end) w) s
  | None => s
  end.

(** One access of worker [i]; [None] when it is parked or has left. *)
Definition work_loop (i : nat) (s : sched) : option sched :=
  match workers s !! i with
  | None => None
  | Some w =>
    let goto c := Some (upd i (set_pc c w) s) in
    match pc w with
    | FindLocal again =>
        match local w with
        | h :: l => Some (upd i (set_local l (set_pc (found again w h) w)) s)
        | [] => goto (FindInjector again)
        end
    | FindInjector again =>
        match injector s with
        | h :: q => Some (upd i (set_pc (found again w h) w) (with_injector q s))
        | [] => goto (FindSteal again 0)
        end
    | FindSteal again j =>
        match workers s !! j with
        | None => goto (if again then Stopping2 else Stopping1)
        | Some v =>
            if decide (j = i) then goto (FindSteal again (S j))
            else match steal (local v) with
                 | Some (h, l) => Some (upd i (set_pc (found again w h) w) (upd j (set_local l v) s))
                 | None => goto (FindSteal again (S j))
                 end
        end
    | Release h =>
        let prev := speculation s in
        Some (upd i (set_spec false (set_pc
                       (if prev =? 1 then Waking (ULoad false) (JStart h) else Running (JStart h)) w))
                (tokens (-1) s))
    | Waking u k => Some (resume_waking i k (wake_step u s))
    | Running (JStart h) =>
        Some (upd i (set_pc (Running (JMore (script h))) w) (with_ran (ran s ++ [hid h]) s))
    | Running (JMore []) => goto (FindLocal false)
    | Running (JMore ((KAdd, h) :: ops)) =>
        Some (upd i (set_local (h :: local w) (set_pc (Waking (ULoad false) (JMore ops)) w)) s)
    | Running (JMore ((k, h) :: ops)) =>
        Some (upd i (set_pc (Waking (ULoad (forced k)) (JMore ops)) w)
                (with_injector (injector s ++ [h]) s))
    | Stopping1 => goto (if work_stopping s then leave w else SetFlag)
    | SetFlag => Some (upd i (set_flag true (set_pc SetCount w)) s)
    | SetCount => Some (upd i (set_pc (FindLocal true) w) (count 1 s))
    | ClearFound h =>
        if flag w then Some (upd i (set_flag false (set_pc (ClearFoundCount h) w)) s)
        else goto (Absorb h)
    | ClearFoundCount h => Some (upd i (set_pc (started w h) w) (count (-1) s))
    | Absorb h => Some (upd i (set_pc (started w h) w) (tokens (-1) s))
    | Stopping2 =>
        goto (if work_stopping s then ClearStop else if spec w then FinalRelease else Parked)
    | FinalRelease => Some (upd i (set_spec false (set_pc FinalSteal w)) (tokens (-1) s))
    | FinalSteal =>
        match injector s with
        | h :: q => Some (upd i (set_pc (ClearFound h) w) (with_injector q s))
        | [] => goto Parked
        end
    | Parked => if token w then Some (upd i (set_token false (set_pc ClearPark w)) s) else None
    | ClearPark =>
        if flag w then Some (upd i (set_flag false (set_pc ClearParkCount w)) s)
        else goto (Stopping3 true)
    | ClearParkCount => Some (upd i (set_pc (Stopping3 false) w) (count (-1) s))
    | Stopping3 claimed =>
        if work_stopping s then goto Exited
        else Some (upd i (set_spec claimed (set_pc (FindLocal false) w)) s)
    | ClearStop =>
        if flag w then Some (upd i (set_flag false (set_pc ClearStopCount w)) s)
        else goto (leave w)
    | ClearStopCount => Some (upd i (set_pc (leave w) w) (count (-1) s))
    | StopRelease => Some (upd i (set_pc Exited w) (tokens (-1) s))
    | Exited => None
    end
  end.

(** [add_handle], [add_io_handle] and [defer_handle] in a thread that is not a worker. *)
Definition hand_over (e : nat) (s : sched) : option sched :=
  match externs s !! e with
  | Some (EPush k h) =>
      Some (with_externs (<[e:=EWaking (ULoad (forced k))]> (externs s))
              (with_injector (injector s ++ [h]) s))
  | Some (EWaking u) =>
      let (s, r) := wake_step u s in
      Some (with_externs (<[e:=match r with Some u => EWaking u | None => EReturn end]> (externs s))
              s)
  | Some EReturn | None => None
  end.

Definition eactive (e : epc) : bool := match e with EReturn => false | _ => true end.

(** Another thread starts to hand over the next handle.  With the interpreter's global lock
    ([gil]) it does so only when no other thread is in the middle of it. *)
Definition next_extern (gil : bool) (s : sched) : option sched :=
  match todo s with
  | (k, h) :: ts =>
      if gil && existsb eactive (externs s) then None
      else Some (with_todo ts (with_externs (externs s ++ [EPush k h]) s))
  | [] => None
  end.

(** [stop_threads] up to its wait, one access per step. *)
Definition stop_threads (s : sched) : option sched :=
  match stopper s with
  | SNot => Some (with_stop true (SUnpark 0) s)
  | SUnpark i =>
      match workers s !! i with
      | Some w => Some (with_stop true (SUnpark (S i)) (upd i (set_token true w) s))
      | None => None
      end
  end.

Inductive act := AWorker (i : nat) | AExtern (e : nat) | ANext | AStop.

Definition do_act (gil : bool) (a : act) (s : sched) : option sched :=
  match a with
  | AWorker i => work_loop i s
  | AExtern e => hand_over e s
  | ANext => next_extern gil s
  | AStop => stop_threads s
  end.

Fixpoint do_acts (gil : bool) (l : list act) (s : sched) : option sched :=
  match l with
  | [] => Some s
  | a :: l => match do_act gil a s with Some s' => do_acts gil l s' | None => None end
  end.

Definition sched_step (gil : bool) (s s' : sched) : Prop := exists a, do_act gil a s = Some s'.

(** Nothing moves but, perhaps, a call of [stop_threads] that nobody has made. *)
Definition at_rest (gil : bool) (s : sched) : Prop :=
  forall a, a <> AStop \/ stopper s <> SNot -> do_act gil a s = None.

(** ** Ranks: every execution ends *)

(** A token of a parker buys one round of the loop; a wake may set one. *)
Section Rank.
Local Open Scope nat_scope.
Variable n : nat.

Definition round : nat := 2 * n + 17.

Definition wake_rank (u : wake) : nat :=
  match u with
  | ULoad _ => n + 6 + round | UTake _ => n + 5 + round | UScan j => (n - j) + 3 + round
  | UCount _ => 2 + round | UUnpark _ => 1 + round | UGiveUp => 1
  end.

(** A handle pays for the round that finds it, the wakes of its release and for what it does. *)
Fixpoint handle_rank (h : handle) : nat :=
  match h with
  | Handle _ ps =>
      (3 * n + 30 + round)
      + list_sum (map (fun kh => (n + 8 + round) + handle_rank (snd kh)) ps)
  end.

Definition push_rank (kh : kind * handle) : nat := (n + 8 + round) + handle_rank (snd kh).

Definition job_rank (k : job) : nat :=
  match k with
  | JStart h => 2 * n + 15 + sum_list_with push_rank (script h)
  | JMore ops => 2 * n + 14 + sum_list_with push_rank ops
  end.

Definition pc_rank (c : wpc) : nat :=
  match c with
  | Exited | Parked => 0
  | FinalSteal | StopRelease => 1
  | FinalRelease | ClearStopCount => 2
  | ClearStop => 3
  | Stopping2 => 4
  | FindSteal true j => 5 + (n - j)
  | FindInjector true => n + 6
  | FindLocal true => n + 7
  | SetCount => n + 8
  | SetFlag => n + 9
  | Stopping1 => n + 10
  | FindSteal false j => n + 11 + (n - j)
  | FindInjector false => 2 * n + 12
  | FindLocal false => 2 * n + 13
  | Stopping3 _ => 2 * n + 14
  | ClearParkCount => 2 * n + 15
  | ClearPark => 2 * n + 16
  | Running k => job_rank k
  | Waking u k => wake_rank u + job_rank k
  | Release h => n + 7 + round + job_rank (JStart h)
  | ClearFoundCount h | Absorb h => n + 8 + round + job_rank (JStart h)
  | ClearFound h => n + 9 + round + job_rank (JStart h)
  end.

Definition worker_rank (w : worker) : nat :=
  pc_rank (pc w) + (if token w then round else 0) + sum_list_with handle_rank (local w).

Definition extern_rank (e : epc) : nat :=
  match e with EPush k h => push_rank (k, h) | EWaking u => wake_rank u | EReturn => 0 end.

Definition stop_rank (x : stop) : nat :=
  match x with SNot => S (n * S round) | SUnpark i => (n - i) * S round end.

Definition sched_rank (s : sched) : nat :=
  sum_list_with worker_rank (workers s) + sum_list_with handle_rank (injector s)
  + sum_list_with extern_rank (externs s)
  + sum_list_with (fun kh => S (push_rank kh)) (todo s) + stop_rank (stopper s).

Lemma handle_rank_script h :
  handle_rank h = ((3 * n + 30 + round) + sum_list_with push_rank (script h)).
Proof.
  destruct h as [id ps]. simpl. f_equal. induction ps as [|kh ps IH]; simpl; [done|].
  unfold push_rank at 1. by rewrite IH.
Qed.

(** An access of a wake pays for itself and leaves the rest of the state alone. *)
Lemma wake_step_rank u s s' r :
  length (workers s) = n -> wake_step u s = (s', r) ->
  sum_list_with worker_rank (workers s') + match r with Some u => wake_rank u | None => 0 end
    < sum_list_with worker_rank (workers s) + wake_rank u
  /\ injector s' = injector s /\ externs s' = externs s /\ todo s' = todo s
  /\ stopper s' = stopper s /\ length (workers s') = n
  /\ forall i w, workers s !! i = Some w ->
       exists w', workers s' !! i = Some w' /\ pc w' = pc w.
Proof.
  intros Hn Hu. destruct u as [fo|[]|j|j|j|]; simpl in Hu.
  - destruct (_ =? _)%Z; simplify_eq/=; split_and!; eauto; lia.
  - simplify_eq/=. split_and!; eauto; lia.
  - destruct (_ =? _)%Z; simplify_eq/=; split_and!; eauto; lia.
  - destruct (workers s !! j) as [w|] eqn:Hj; [|simplify_eq/=; split_and!; eauto; lia].
    pose proof (lookup_lt_Some _ _ _ Hj). destruct (flag w) eqn:Hf; simplify_eq/=.
    + pose proof (sum_list_with_insert worker_rank _ _ _ (set_flag false w) Hj) as Hs.
      unfold worker_rank at 2 4 in Hs. simpl in Hs. rewrite length_insert.
      split_and!; [lia|done..|]. intros i v Hi. destruct (decide (i = j)) as [->|].
      * exists (set_flag false w). rewrite list_lookup_insert_eq by done. by simplify_eq.
      * exists v. by rewrite list_lookup_insert_ne.
    + split_and!; eauto; lia.
  - simplify_eq/=. split_and!; eauto; lia.
  - destruct (workers s !! j) as [w|] eqn:Hj; simplify_eq/=; [|split_and!; eauto; lia].
    pose proof (lookup_lt_Some _ _ _ Hj).
    pose proof (sum_list_with_insert worker_rank _ _ _ (set_token true w) Hj) as Hs.
    unfold worker_rank at 2 4 in Hs. simpl in Hs. rewrite length_insert.
    split_and!; [destruct (token w); lia|done..|]. intros i v Hi. destruct (decide (i = j)) as [->|].
    + exists (set_token true w). rewrite list_lookup_insert_eq by done. by simplify_eq.
    + exists v. by rewrite list_lookup_insert_ne.
  - simplify_eq/=. split_and!; eauto; lia.
Qed.

Lemma steal_spec l h l' : steal l = Some (h, l') -> l = l' ++ [h].
Proof.
  unfold steal. intros Hl. rewrite <- (rev_involutive l). destruct (rev l) as [|x r]; [done|].
  by simplify_eq.
Qed.

(** What a worker may become with a handle in hand, against what it pays. *)
Lemma found_rank again w h :
  pc_rank (found again w h) + 1 <= handle_rank h + 5.
Proof.
  rewrite handle_rank_script. unfold found, started.
  destruct again; [|destruct (spec w)]; simpl; lia.
Qed.

Lemma started_rank w h : pc_rank (started w h) < n + 8 + round + job_rank (JStart h).
Proof. unfold started. destruct (spec w); simpl; lia. Qed.

Lemma leave_rank w : pc_rank (leave w) <= 1.
Proof. unfold leave. destruct (spec w); simpl; lia. Qed.

(** The rank after one worker changed. *)
Ltac rank_step Hi Hpc :=
  unfold sched_rank; simpl; rewrite ?length_insert, ?sum_list_with_app; split; [|done];
  match goal with |- context [<[_:=?w']> _] =>
    let Hs := fresh "Hs" in
    pose proof (sum_list_with_insert worker_rank _ _ _ w' Hi) as Hs;
    unfold worker_rank at 2 4 in Hs; simpl in Hs; rewrite Hpc in Hs; simpl in Hs
  end.

Lemma find_steal_rank again j w i s s' :
  length (workers s) = n -> workers s !! i = Some w -> pc w = FindSteal again j ->
  work_loop i s = Some s' -> sched_rank s' < sched_rank s /\ length (workers s') = n.
Proof.
  intros Hn Hi Hpc Hstep. unfold work_loop in Hstep. rewrite Hi, Hpc in Hstep.
  destruct (workers s !! j) as [v|] eqn:Hj;
    [|injection Hstep as <-; rank_step Hi Hpc; destruct again; simpl in *; lia].
  pose proof (lookup_lt_Some _ _ _ Hj).
  destruct (decide (j = i)) as [|Hne];
    [injection Hstep as <-; rank_step Hi Hpc; destruct again; simpl in *; lia|].
  destruct (steal (local v)) as [[h l]|] eqn:Hl;
    [|injection Hstep as <-; rank_step Hi Hpc; destruct again; simpl in *; lia].
  injection Hstep as <-. apply steal_spec in Hl.
  pose proof (sum_list_with_insert worker_rank _ _ _ (set_local l v) Hj) as Hv.
  unfold worker_rank at 2 4 in Hv. simpl in Hv. rewrite Hl, sum_list_with_app in Hv. simpl in Hv.
  assert (<[j:=set_local l v]> (workers s) !! i = Some w) as Hi'
    by (by rewrite list_lookup_insert_ne).
  pose proof (found_rank again w h). unfold sched_rank. simpl. rewrite !length_insert. split; [|done].
  pose proof (sum_list_with_insert worker_rank _ _ _ (set_pc (found again w h) w) Hi') as Hs.
  unfold worker_rank at 2 4 in Hs. simpl in Hs. rewrite Hpc in Hs. destruct again; simpl in *; lia.
Qed.

Lemma waking_rank i u k w s :
  length (workers s) = n -> workers s !! i = Some w -> pc w = Waking u k ->
  sched_rank (resume_waking i k (wake_step u s)) < sched_rank s /\
  length (workers (resume_waking i k (wake_step u s))) = n.
Proof.
  intros Hn Hi Hpc. destruct (wake_step u s) as [s' r] eqn:Hu.
  destruct (wake_step_rank _ _ _ _ Hn Hu) as (Hlt & Hinj & Hext & Htodo & Hstop & Hlen & Hlk).
  destruct (Hlk _ _ Hi) as (w' & Hw' & Hpc'). unfold resume_waking. rewrite Hw'.
  rewrite Hpc in Hpc'. rank_step Hw' Hpc'.
  rewrite Hinj, Hext, Htodo, Hstop. destruct r; simpl in *; lia.
Qed.

Lemma work_loop_rank i s s' :
  length (workers s) = n -> work_loop i s = Some s' ->
  sched_rank s' < sched_rank s /\ length (workers s') = n.
Proof.
  intros Hn Hstep. pose proof Hstep as Hloop. unfold work_loop in Hstep.
  destruct (workers s !! i) as [w|] eqn:Hi; [|done].
  pose proof (lookup_lt_Some _ _ _ Hi) as Hlt.
  pose proof (fun a => found_rank a w) as Hfound. pose proof (started_rank w) as Hstart.
  pose proof (leave_rank w) as Hleave.
  destruct (pc w) as [again|again|again j|h|u k|k| | | |h|h|h| | | | | | |claimed| | | |] eqn:Hpc.
  - destruct (local w) as [|h l] eqn:Hl; injection Hstep as <-; rank_step Hi Hpc;
      [destruct again; simpl in *; lia|].
    specialize (Hfound again h). rewrite Hl in Hs. simpl in Hs. destruct again; lia.
  - destruct (injector s) as [|h q] eqn:Hl; injection Hstep as <-; rank_step Hi Hpc; rewrite Hl;
      [destruct again; simpl in *; lia|].
    specialize (Hfound again h). simpl. destruct again; lia.
  - by apply (find_steal_rank again j w i s).
  - injection Hstep as <-. rank_step Hi Hpc. destruct (_ =? _)%Z; simpl in *; lia.
  - injection Hstep as <-. by apply (waking_rank i u k w s).
  - destruct k as [h|[|[[] h] ops]]; injection Hstep as <-; rank_step Hi Hpc;
      unfold push_rank in *; simpl in *; lia.
  - injection Hstep as <-. rank_step Hi Hpc. destruct (work_stopping s); simpl in *; lia.
  - injection Hstep as <-. rank_step Hi Hpc. lia.
  - injection Hstep as <-. rank_step Hi Hpc. lia.
  - destruct (flag w); injection Hstep as <-; rank_step Hi Hpc; lia.
  - injection Hstep as <-. rank_step Hi Hpc. specialize (Hstart h). simpl in Hstart. lia.
  - injection Hstep as <-. rank_step Hi Hpc. specialize (Hstart h). simpl in Hstart. lia.
  - injection Hstep as <-. rank_step Hi Hpc. destruct (work_stopping s), (spec w); simpl in *; lia.
  - injection Hstep as <-. rank_step Hi Hpc. lia.
  - destruct (injector s) as [|h q] eqn:Hl; injection Hstep as <-; rank_step Hi Hpc; rewrite Hl;
      [simpl; lia|]. pose proof (handle_rank_script h). simpl. lia.
  - destruct (token w) eqn:Htok; [|done]. injection Hstep as <-. rank_step Hi Hpc.
    rewrite Htok in Hs. unfold round in *. lia.
  - destruct (flag w); injection Hstep as <-; rank_step Hi Hpc; lia.
  - injection Hstep as <-. rank_step Hi Hpc. lia.
  - destruct (work_stopping s); injection Hstep as <-; rank_step Hi Hpc; lia.
  - destruct (flag w); injection Hstep as <-; rank_step Hi Hpc; lia.
  - injection Hstep as <-. rank_step Hi Hpc. lia.
  - injection Hstep as <-. rank_step Hi Hpc. lia.
  - done.
Qed.

Lemma hand_over_rank e s s' :
  length (workers s) = n -> hand_over e s = Some s' ->
  sched_rank s' < sched_rank s /\ length (workers s') = n.
Proof.
  intros Hn Hstep. unfold hand_over in Hstep. destruct (externs s !! e) as [[k h|u|]|] eqn:He; try done.
  - injection Hstep as <-. unfold sched_rank. simpl. split; [|done].
    pose proof (sum_list_with_insert extern_rank _ _ _ (EWaking (ULoad (forced k))) He) as Hs.
    rewrite sum_list_with_app. unfold extern_rank at 2 4, push_rank in Hs. simpl in *. lia.
  - destruct (wake_step u s) as [s1 r] eqn:Hu. injection Hstep as <-.
    destruct (wake_step_rank _ _ _ _ Hn Hu) as (Hlt & Hinj & Hext & Htodo & Hstop & Hlen & _).
    unfold sched_rank. simpl. split; [|done]. rewrite Hinj, Hext, Htodo, Hstop.
    pose proof (sum_list_with_insert extern_rank _ _ _
      (match r with Some u => EWaking u | None => EReturn end) He) as Hs.
    destruct r; simpl in *; lia.
Qed.

Lemma sched_step_rank gil s s' :
  length (workers s) = n -> sched_step gil s s' ->
  sched_rank s' < sched_rank s /\ length (workers s') = n.
Proof.
  intros Hn [[i|e| |] Hstep]; simpl in Hstep.
  - by eapply work_loop_rank.
  - by eapply hand_over_rank.
  - unfold next_extern in Hstep. destruct (todo s) as [|[k h] ts] eqn:Ht; [done|].
    destruct (_ && _); [done|]. injection Hstep as <-. split; [|done].
    unfold sched_rank. simpl. rewrite Ht, sum_list_with_app. simpl. lia.
  - unfold stop_threads in Hstep. destruct (stopper s) as [|i] eqn:Hst.
    + injection Hstep as <-. split; [|done]. unfold sched_rank. simpl. rewrite Hst. simpl.
      rewrite Nat.sub_0_r. lia.
    + destruct (workers s !! i) as [w|] eqn:Hi; [|done]. injection Hstep as <-.
      pose proof (lookup_lt_Some _ _ _ Hi). unfold sched_rank. simpl. rewrite length_insert, Hst.
      split; [|done]. simpl.
      pose proof (sum_list_with_insert worker_rank _ _ _ (set_token true w) Hi) as Hs.
      unfold worker_rank at 2 4 in Hs. simpl in Hs.
      replace (n - i) with (S (n - S i)) by lia. rewrite Nat.mul_succ_l. destruct (token w); lia.
Qed.

Lemma sched_step_wf gil s :
  length (workers s) = n -> Acc (fun s' s => sched_step gil s s') s.
Proof.
  remember (sched_rank s) as m eqn:Hm. revert s Hm.
  induction m as [m IH] using lt_wf_ind. intros s -> Hn. constructor. intros s' Hstep.
  destruct (sched_step_rank _ _ _ Hn Hstep) as [Hlt Hn']. by apply (IH _ Hlt).
Qed.
End Rank.
