(* ===== verification/WorkersProps.v ===== *)
(** * No handle is forgotten by the workers

    The invariant of [Workers]: what [idle_count] and [speculation] count, which workers may
    still sleep, and who has yet to look at the injector when a handle is in it; and the theorem
    that every handle given to the workers runs, once. *)

From stdpp Require Import base numbers list relations.
From Stdlib Require Import ZArith Lia.
From S2P Require Import Prelude Workers.

Open Scope Z_scope.

(** ** The numbers of the handles, wherever they are *)

Fixpoint ids (h : handle) : list nat :=
  match h with Handle id ps => id :: flat_map (fun kh => ids (snd kh)) ps end.
Definition ops_ids (ops : list (kind * handle)) : list nat := flat_map (fun kh => ids (snd kh)) ops.
Definition job_ids (k : job) : list nat :=
  match k with JStart h => ids h | JMore ops => ops_ids ops end.
Definition pc_ids (c : wpc) : list nat :=
  match c with
  | Release h | ClearFound h | ClearFoundCount h | Absorb h => ids h
  | Waking _ k | Running k => job_ids k
  | _ => []
  end.
Definition wids (w : worker) : list nat := pc_ids (pc w) ++ flat_map ids (local w).
Definition eids (e : epc) : list nat := match e with EPush _ h => ids h | _ => [] end.
Definition all_ids (s : sched) : list nat :=
  ops_ids (todo s) ++ flat_map eids (externs s) ++ flat_map ids (injector s)
  ++ flat_map wids (workers s) ++ ran s.

Lemma ids_script h : ids h = hid h :: ops_ids (script h).
Proof. by destruct h. Qed.

(** ** What a worker contributes *)

(** Between [set_idle] and the exchange that ends it. *)
Definition region (c : wpc) : bool :=
  match c with
  | SetCount | FindLocal true | FindInjector true | FindSteal true _ | ClearFound _ | Stopping2
  | FinalRelease | FinalSteal | ClearStop | Parked | ClearPark => true
  | _ => false
  end.

(** The tokens of [speculation] a call of a wake, a worker and another thread hold.  A worker whose
    flag somebody else cleared holds the one that was taken for it. *)
Definition wake_holds (u : wake) : nat := match u with UScan _ | UGiveUp => 1 | _ => 0 end.
Definition holds (w : worker) : nat :=
  (if spec w then 1 else 0) + (if region (pc w) && negb (flag w) then 1 else 0)
  + match pc w with Absorb _ | Stopping3 true => 1 | Waking u _ => wake_holds u | _ => 0 end.
Definition eholds (e : epc) : nat := match e with EWaking u => wake_holds u | _ => 0 end.

(** Flags that are or were set and still count in [idle_count], and flags not counted yet. *)
Definition wake_counts (u : wake) : nat := match u with UCount _ => 1 | _ => 0 end.
Definition counts (w : worker) : nat :=
  (if flag w then 1 else 0)
  + match pc w with
    | ClearFoundCount _ | ClearParkCount | ClearStopCount => 1
    | Waking u _ => wake_counts u
    | _ => 0
    end.
Definition ecounts (e : epc) : nat := match e with EWaking u => wake_counts u | _ => 0 end.
Definition uncounted (w : worker) : nat := match pc w with SetCount => 1 | _ => 0 end.

(** A worker that will not look at the injector again unless somebody claims it. *)
Definition asleep (w : worker) : bool :=
  flag w && negb (token w) &&
  match pc w with Parked => true | FindSteal true _ | Stopping2 => negb (spec w) | _ => false end.
Definition awake (w : worker) : bool := negb (asleep w).

(** A worker that was claimed and must be unparked, and the calls that will do it. *)
Definition claimed (w : worker) : bool :=
  negb (flag w) && region (pc w) && match pc w with ClearPark => false | _ => true end.
Definition wake_unparks (i : nat) (u : wake) : bool :=
  match u with UCount j | UUnpark j => bool_decide (i = j) | _ => false end.
Definition unparks (i : nat) (w : worker) : bool :=
  match pc w with Waking u _ => wake_unparks i u | _ => false end.
Definition eunparks (i : nat) (e : epc) : bool :=
  match e with EWaking u => wake_unparks i u | _ => false end.
Definition unparking (i : nat) (s : sched) : nat :=
  countb (unparks i) (workers s) + countb (eunparks i) (externs s).

(** A call that has put a handle into the injector and not yet looked at any worker, or is about
    to unpark one; and the worker such a call unparks exists. *)
Definition pending (e : epc) : bool :=
  match e with
  | EWaking (ULoad _ | UTake _ | UScan 0 | UCount _ | UUnpark _) => true
  | _ => false
  end.
Definition etarget (n : nat) (e : epc) : bool :=
  match e with EWaking (UCount j | UUnpark j) => (j <? n)%nat | _ => true end.

(** A worker that leaves without parking again once [stop_threads] has unparked it. *)
Definition leaving (w : worker) : bool :=
  token w || match pc w with ClearPark | ClearParkCount | Stopping3 _ | Exited => true | _ => false end.

(** What holds of each worker by itself: its flag is set only in its idle region, its deque is
    empty from the first scan on, [is_speculating] is what the place says, and it leaves only when
    told to. *)
Definition drained (c : wpc) : bool :=
  match c with
  | FindLocal false | Release _ | Waking _ _ | Running _ | ClearFound _ | ClearFoundCount _
  | Absorb _ => false
  | _ => true
  end.
Definition spec_ok (c : wpc) (b : bool) : bool :=
  match c with
  | Release _ | FinalRelease => b
  | Running _ | Waking _ _ | FinalSteal | Parked | ClearPark | ClearParkCount | Stopping3 _ => negb b
  | _ => true
  end.
Definition stops (c : wpc) : bool :=
  match c with ClearStop | ClearStopCount | StopRelease | Exited => true | _ => false end.

Record worker_ok (stopping : bool) (w : worker) : Prop := {
  ok_flag : region (pc w) = false -> flag w = false;
  ok_local : drained (pc w) = true -> local w = [];
  ok_spec : spec_ok (pc w) (spec w) = true;
  ok_stops : stops (pc w) = true -> stopping = true
}.

(** ** The invariant

    [dc] and [dt] are what [idle_count] and [speculation] are off by in the middle of a step. *)
Record sched_inv (n : nat) (all : list nat) (dc dt : Z) (s : sched) : Prop := {
  inv_n : length (workers s) = n;
  inv_ok : forall i w, workers s !! i = Some w -> worker_ok (work_stopping s) w;
  inv_idle : idle_count s = usize (Z.of_nat (sum_list_with counts (workers s)
      + sum_list_with ecounts (externs s)) - Z.of_nat (sum_list_with uncounted (workers s)) + dc);
  inv_spec : work_stopping s = false ->
    speculation s = usize (Z.of_nat (sum_list_with holds (workers s)
      + sum_list_with eholds (externs s)) + dt);
  inv_served : work_stopping s = false -> injector s <> [] ->
    (0 < countb awake (workers s) + countb pending (externs s))%nat;
  inv_one : (countb eactive (externs s) <= 1)%nat;
  inv_target : forall e x, externs s !! e = Some x -> etarget n x = true;
  inv_claim : forall i w, workers s !! i = Some w -> claimed w = true ->
    token w = true \/ (0 < unparking i s)%nat;
  inv_stopping : work_stopping s = true <-> stopper s <> SNot;
  inv_leaving : forall k i w, stopper s = SUnpark k -> (i < k)%nat -> workers s !! i = Some w ->
    leaving w = true;
  inv_ids : all_ids s ≡ₚ all
}.

Lemma flat_map_insert_perm {A B} (f : A -> list B) (l : list A) i x y :
  l !! i = Some x -> f y ++ flat_map f l ≡ₚ f x ++ flat_map f (<[i:=y]> l).
Proof.
  revert i. induction l as [|z l IH]; intros [|i] Hi; simplify_eq/=.
  - solve_Permutation.
  - specialize (IH i Hi). rewrite !app_assoc, (Permutation_app_comm (f y)),
      (Permutation_app_comm (f x)), <- !app_assoc. by rewrite IH.
Qed.

Lemma usize_add x d : usize (usize x + d) = usize (x + d).
Proof. apply Zplus_mod_idemp_l. Qed.

Lemma sched_new_inv n ts : sched_inv n (ops_ids ts) 0 0 (sched_new n ts).
Proof.
  assert (forall f : worker -> nat, f (mkW (FindLocal false) false false false []) = 0%nat ->
    sum_list_with f (workers (sched_new n ts)) = 0%nat) as Hsum.
  { intros f Hf. simpl. induction n as [|k IH]; simpl; [done|]. by rewrite Hf, IH. }
  assert (flat_map wids (workers (sched_new n ts)) = []) as Hw.
  { simpl. clear. induction n as [|k IH]; simpl; [done|]. by rewrite IH. }
  split; try done.
  - apply length_replicate.
  - intros i w (-> & _)%lookup_replicate. by split.
  - by rewrite !Hsum.
  - intros _. by rewrite !Hsum.
  - simpl. lia.
  - by intros i w (-> & _)%lookup_replicate.
  - unfold all_ids. rewrite Hw. simpl. by rewrite !app_nil_r.
Qed.

(** A counter after an access that adds [c] to it, or leaves it alone. *)
Definition moved (x : Z) (c : Z) (x' : Z) : Prop := (c = 0 /\ x' = x) \/ x' = usize (x + c).

Lemma moved_usize x c x' y : x = usize y -> moved x c x' -> x' = usize (y + c).
Proof.
  intros -> [[-> ->] | ->]; [by rewrite Z.add_0_r|apply usize_add].
Qed.

Lemma awake_pos l i w :
  l !! i = Some w -> asleep w = false -> (0 < countb awake l)%nat.
Proof. intros Hi Hw. apply (countb_lookup_pos _ _ _ _ Hi). unfold awake. by rewrite Hw. Qed.

(** ** One worker changes

    Its record, and with it the injector, the counters and the log. *)
Section Update.
Context (n : nat) (all : list nat) (dc dt c t dc' dt' : Z) (s : sched) (i : nat) (w w' : worker).
Context (inj' : list handle) (idle' spec' : Z) (ran' : list nat).
Hypothesis Hinv : sched_inv n all dc dt s.
Hypothesis Hi : workers s !! i = Some w.
Hypothesis Hok : worker_ok (work_stopping s) w'.
Hypothesis Hidle : moved (idle_count s) c idle'.
Hypothesis Hspec : moved (speculation s) t spec'.
Hypothesis Hcounts : Z.of_nat (counts w') - Z.of_nat (uncounted w') + dc'
                     = Z.of_nat (counts w) - Z.of_nat (uncounted w) + dc + c.
Hypothesis Hholds : work_stopping s = false ->
                    Z.of_nat (holds w') + dt' = Z.of_nat (holds w) + dt + t.
Hypothesis Hserved : asleep w' = false \/ inj' = [] \/ (asleep w = true /\ inj' = injector s).
Hypothesis Hclaim : claimed w' = true ->
  (claimed w = true /\ token w' = token w) \/ token w' = true \/ (0 < unparking i s)%nat.
Hypothesis Hunparks : forall j, unparks j w = true -> unparks j w' = false ->
  forall v, workers s !! j = Some v -> (j = i /\ claimed w' = false) \/ (j <> i /\ token v = true).
Hypothesis Hleaving : work_stopping s = true -> leaving w = true -> leaving w' = true.
Hypothesis Hids : wids w' ++ flat_map ids inj' ++ ran' ≡ₚ wids w ++ flat_map ids (injector s) ++ ran s.

Definition updated : sched :=
  mkSched (<[i:=w']> (workers s)) inj' idle' spec' (work_stopping s) (stopper s) (externs s)
    (todo s) ran'.

Lemma update_unparking j v :
  workers s !! j = Some v -> (0 < unparking j s)%nat ->
  (0 < unparking j updated)%nat \/ (j = i /\ claimed w' = false) \/ (j <> i /\ token v = true).
Proof using All.
  intros Hj. unfold unparking. simpl.
  pose proof (countb_insert (unparks j) _ _ _ w' Hi) as Hn.
  destruct (unparks j w) eqn:Hw, (unparks j w') eqn:Hw'; try (left; lia).
  right. by eapply Hunparks.
Qed.

Lemma update_claim j v :
  workers updated !! j = Some v -> claimed v = true ->
  token v = true \/ (0 < unparking j updated)%nat.
Proof using All.
  simpl. intros Hj Hv. destruct (decide (j = i)) as [->|Hne].
  - rewrite list_lookup_insert_eq in Hj by (by eapply lookup_lt_Some). simplify_eq.
    assert ((0 < unparking i s)%nat -> (0 < unparking i updated)%nat) as Hup.
    { intros H. destruct (update_unparking i w Hi H) as [|[[]|[]]]; congruence. }
    destruct (Hclaim Hv) as [[Hc Ht]|[Ht|Hu]]; [|by left|by right; auto].
    rewrite Ht. destruct (inv_claim _ _ _ _ _ Hinv _ _ Hi Hc); [by left|by right; auto].
  - rewrite list_lookup_insert_ne in Hj by done.
    destruct (inv_claim _ _ _ _ _ Hinv _ _ Hj Hv) as [|Hu]; [by left|].
    destruct (update_unparking j v Hj Hu) as [|[[]|[]]]; [by right|done|by left].
Qed.

Lemma update_ids : all_ids updated ≡ₚ all.
Proof using All.
  rewrite <- (inv_ids _ _ _ _ _ Hinv). unfold all_ids. simpl. do 2 f_equiv.
  pose proof (flat_map_insert_perm wids _ _ _ w' Hi) as Hp.
  apply (Permutation_app_inv_l (wids w)).
  trans (wids w' ++ flat_map wids (workers s) ++ flat_map ids inj' ++ ran').
  - trans ((wids w ++ flat_map wids (<[i:=w']> (workers s))) ++ flat_map ids inj' ++ ran');
      [solve_Permutation|]. rewrite <- Hp. solve_Permutation.
  - trans (flat_map wids (workers s) ++ wids w' ++ flat_map ids inj' ++ ran');
      [solve_Permutation|]. rewrite Hids. solve_Permutation.
Qed.

Lemma update_inv : sched_inv n all dc' dt' updated.
Proof using All.
  pose proof (sum_list_with_insert counts _ _ _ w' Hi) as Hc.
  pose proof (sum_list_with_insert uncounted _ _ _ w' Hi) as Hu.
  pose proof (sum_list_with_insert holds _ _ _ w' Hi) as Hh.
  pose proof (countb_insert awake _ _ _ w' Hi) as Ha.
  pose proof (lookup_lt_Some _ _ _ Hi) as Hlt.
  destruct Hinv as [In Iok Iidle Ispec Isv Ione Itg Icl Ist Ilv Iids]. split; simpl.
  - by rewrite length_insert.
  - intros j v Hj. destruct (decide (j = i)) as [->|];
      [rewrite list_lookup_insert_eq in Hj by done; by simplify_eq|].
    rewrite list_lookup_insert_ne in Hj by done. by eapply Iok.
  - rewrite (moved_usize _ _ _ _ Iidle Hidle). f_equal. lia.
  - intros Hst. rewrite (moved_usize _ _ _ _ (Ispec Hst) Hspec). f_equal. specialize (Hholds Hst). lia.
  - intros Hst Hq. unfold awake at 2 4 in Ha.
    destruct Hserved as [Has|[->|[Has ->]]]; [|done|].
    + pose proof (awake_pos (<[i:=w']> (workers s)) i w'
        ltac:(by apply list_lookup_insert_eq) Has). lia.
    + rewrite Has in Ha. specialize (Isv Hst Hq). destruct (asleep w'); simpl in Ha; lia.
  - done.
  - done.
  - apply update_claim.
  - done.
  - intros k j v Hk Hjk Hj. destruct (decide (j = i)) as [->|].
    + rewrite list_lookup_insert_eq in Hj by done. simplify_eq.
      apply Hleaving; [apply Ist; by rewrite Hk|by eapply Ilv].
    + rewrite list_lookup_insert_ne in Hj by done. by eapply Ilv.
  - apply update_ids.
Qed.
End Update.

(** ** Another thread moves on *)

Section Extern.
Context (n : nat) (all : list nat) (dc dt c t dc' dt' : Z) (s : sched) (e : nat) (x x' : epc).
Context (inj' : list handle) (idle' spec' : Z).
Hypothesis Hinv : sched_inv n all dc dt s.
Hypothesis He : externs s !! e = Some x.
Hypothesis Hactive : eactive x = true.
Hypothesis Hidle : moved (idle_count s) c idle'.
Hypothesis Hspec : moved (speculation s) t spec'.
Hypothesis Hcounts : Z.of_nat (ecounts x') + dc' = Z.of_nat (ecounts x) + dc + c.
Hypothesis Hholds : Z.of_nat (eholds x') + dt' = Z.of_nat (eholds x) + dt + t.
Hypothesis Hserved : pending x' = true \/ (pending x = false /\ inj' = injector s) \/
  (work_stopping s = false -> inj' <> [] -> (0 < countb awake (workers s))%nat).
Hypothesis Hunparks : forall j, eunparks j x = true -> eunparks j x' = false ->
  forall v, workers s !! j = Some v -> token v = true.
Hypothesis Htarget : etarget n x' = true.
Hypothesis Hids : eids x' ++ flat_map ids inj' ≡ₚ eids x ++ flat_map ids (injector s).

Definition moved_on : sched :=
  mkSched (workers s) inj' idle' spec' (work_stopping s) (stopper s) (<[e:=x']> (externs s))
    (todo s) (ran s).

Lemma moved_on_ids : all_ids moved_on ≡ₚ all.
Proof using All.
  rewrite <- (inv_ids _ _ _ _ _ Hinv). unfold all_ids. simpl.
  pose proof (flat_map_insert_perm eids _ _ _ x' He) as Hp. f_equiv.
  rewrite !app_assoc. do 2 f_equiv.
  apply (Permutation_app_inv_l (eids x)). rewrite app_assoc, <- Hp.
  trans (flat_map eids (externs s) ++ eids x' ++ flat_map ids inj'); [solve_Permutation|].
  rewrite Hids. solve_Permutation.
Qed.

Lemma moved_on_inv : sched_inv n all dc' dt' moved_on.
Proof using All.
  pose proof (sum_list_with_insert ecounts _ _ _ x' He) as Hc.
  pose proof (sum_list_with_insert eholds _ _ _ x' He) as Hh.
  pose proof (countb_insert eactive _ _ _ x' He) as Ha. rewrite Hactive in Ha.
  pose proof (countb_insert pending _ _ _ x' He) as Hp.
  destruct Hinv as [In Iok Iidle Ispec Isv Ione Itg Icl Ist Ilv Iids]. split; simpl; try done.
  - rewrite (moved_usize _ _ _ _ Iidle Hidle). f_equal. lia.
  - intros Hst. rewrite (moved_usize _ _ _ _ (Ispec Hst) Hspec). f_equal. lia.
  - intros Hst Hq. destruct Hserved as [Hx|[[Hx ->]|Hx]].
    + assert (0 < countb pending (<[e:=x']> (externs s)))%nat; [|lia].
      apply (countb_lookup_pos _ _ e x'); [|done].
      apply list_lookup_insert_eq. by eapply lookup_lt_Some.
    + specialize (Isv Hst Hq). rewrite Hx in Hp. lia.
    + specialize (Hx Hst Hq). lia.
  - destruct (eactive x'); lia.
  - intros e' y Hy. destruct (decide (e' = e)) as [->|].
    + rewrite list_lookup_insert_eq in Hy by (by eapply lookup_lt_Some). by simplify_eq.
    + rewrite list_lookup_insert_ne in Hy by done. by eapply Itg.
  - intros j v Hj Hv. destruct (Icl j v Hj Hv) as [|Hu]; [by left|].
    unfold unparking in *. simpl. pose proof (countb_insert (eunparks j) _ _ _ x' He) as Hn.
    destruct (eunparks j x) eqn:Hw, (eunparks j x') eqn:Hw'; try (right; lia).
    left. by eapply Hunparks.
  - apply moved_on_ids.
Qed.
End Extern.

(** ** Claiming a flag, setting a token *)

Lemma claim_inv n all dc dt s j v :
  sched_inv n all dc dt s -> workers s !! j = Some v -> flag v = true ->
  (0 < unparking j s)%nat ->
  sched_inv n all (dc + 1) (dt - 1) (upd j (set_flag false v) s).
Proof.
  intros Hinv Hj Hf Hu.
  pose proof (inv_ok _ _ _ _ _ Hinv _ _ Hj) as [Oflag Olocal Ospec Ostops].
  assert (region (pc v) = true) as Hr
    by (destruct (region (pc v)); [done|]; rewrite Oflag in Hf; done).
  refine (update_inv n all dc dt 0 0 _ _ s j v _ _ _ _ _ Hinv Hj _ _ _ _ _ _ _ _ _ _).
  - by split.
  - by left.
  - by left.
  - unfold counts, uncounted. simpl. rewrite Hf. lia.
  - intros _. unfold holds. simpl. rewrite Hf, Hr. simpl. lia.
  - by left.
  - by intros _; right; right.
  - unfold unparks. simpl. by intros k ->.
  - done.
  - done.
Qed.

Lemma token_inv n all dc dt s j v :
  sched_inv n all dc dt s -> workers s !! j = Some v ->
  sched_inv n all dc dt (upd j (set_token true v) s).
Proof.
  intros Hinv Hj. pose proof (inv_ok _ _ _ _ _ Hinv _ _ Hj) as [Oflag Olocal Ospec Ostops].
  refine (update_inv n all dc dt 0 0 _ _ s j v _ _ _ _ _ Hinv Hj _ _ _ _ _ _ _ _ _ _).
  - by split.
  - by left.
  - by left.
  - unfold counts, uncounted. simpl. lia.
  - intros _. unfold holds. simpl. lia.
  - left. unfold asleep. simpl. by rewrite andb_false_r.
  - by intros _; right; left.
  - unfold unparks. simpl. by intros k ->.
  - done.
  - done.
Qed.

(** ** The steps of a worker *)

Lemma found_ids again w h : pc_ids (found again w h) = ids h.
Proof. unfold found, started. by destruct again, (spec w). Qed.

Lemma started_ids w h : pc_ids (started w h) = ids h.
Proof. unfold started. by destruct (spec w). Qed.

(** The premises of [update_inv], for a worker whose fields are known. *)
Ltac update_goal :=
  match goal with
  | |- worker_ok _ _ => split; simpl in *; auto; done
  | |- moved _ _ _ => first [by left | by right]
  | |- _ - _ + _ = _ => unfold counts, uncounted; simpl; lia
  | |- _ -> _ + _ = _ => intros ?; unfold holds; simpl in *; first [lia | congruence]
  | |- asleep _ = false \/ _ =>
      first [ by left; unfold asleep; simpl; rewrite ?andb_false_r
            | by right; left
            | by right; right ]
  | |- claimed _ = true -> _ => unfold claimed; simpl; first [done | by left | by right; left]
  | |- forall j, unparks j _ = true -> _ => by unfold unparks
  | |- _ -> leaving _ = true -> _ => unfold leaving; simpl; rewrite ?orb_true_r; intros ? ?;
      first [done | congruence]
  | |- _ ≡ₚ _ =>
      try match goal with Hq : injector ?s = _ |- context [injector ?s] => rewrite Hq end;
      unfold wids; simpl in *; unfold ops_ids in *; rewrite ?flat_map_app, ?app_nil_r; simpl;
      rewrite ?app_nil_r; first [done | solve_Permutation | rewrite ids_script; solve_Permutation]
  end.

Ltac worker_step c t Hinv Hi :=
  refine (update_inv _ _ 0 0 c t 0 0 _ _ _ _ _ _ _ _ Hinv Hi _ _ _ _ _ _ _ _ _ _);
  [update_goal ..].

Lemma find_steal_inv n all again j sp fl tk lo i s s' :
  sched_inv n all 0 0 s -> workers s !! i = Some (mkW (FindSteal again j) sp fl tk lo) ->
  work_loop i s = Some s' -> sched_inv n all 0 0 s'.
Proof.
  intros Hinv Hi Hstep. unfold work_loop in Hstep. rewrite Hi in Hstep. simpl in Hstep.
  pose proof (inv_ok _ _ _ _ _ Hinv _ _ Hi) as [Oflag Olocal Ospec Ostops].
  simpl in Oflag, Olocal, Ospec, Ostops. rewrite (Olocal eq_refl) in *.
  destruct (workers s !! j) as [v|] eqn:Hj;
    [|injection Hstep as <-; destruct again; try (rewrite (Oflag eq_refl) in *);
      destruct sp, fl, tk; worker_step 0 0 Hinv Hi].
  destruct (decide (j = i)) as [|Hne];
    [injection Hstep as <-; destruct again; try (rewrite (Oflag eq_refl) in *);
      destruct sp, fl, tk; worker_step 0 0 Hinv Hi|].
  destruct (steal (local v)) as [[h l]|] eqn:Hl;
    [|injection Hstep as <-; destruct again; try (rewrite (Oflag eq_refl) in *);
      destruct sp, fl, tk; worker_step 0 0 Hinv Hi].
  injection Hstep as <-. apply steal_spec in Hl.
  (* the stolen handle passes through the front of the injector *)
  assert (sched_inv n all 0 0 (upd j (set_local l v) (with_injector (h :: injector s) s))) as Hmid.
  { pose proof (inv_ok _ _ _ _ _ Hinv _ _ Hj) as [Vflag Vlocal Vspec Vstops].
    assert (drained (pc v) = false) as Hd
      by (destruct (drained (pc v)); [|done]; rewrite Vlocal in Hl by done; by destruct l).
    refine (update_inv _ _ 0 0 0 0 0 0 _ _ _ _ _ _ _ _ Hinv Hj _ _ _ _ _ _ _ _ _ _).
    - split; simpl; try done. by rewrite Hd.
    - by left.
    - by left.
    - unfold counts, uncounted. simpl. lia.
    - intros _. unfold holds. simpl. lia.
    - left. unfold asleep. simpl. destruct (pc v) as [| |[]| | | | | | | | | | | | | | | | | | | |];
        simpl in *; try done; by rewrite andb_false_r.
    - unfold claimed. simpl. by left.
    - unfold unparks. simpl. by intros ? ->.
    - by unfold leaving.
    - unfold wids. simpl. rewrite Hl, flat_map_app. simpl. rewrite app_nil_r. solve_Permutation. }
  assert (workers (upd j (set_local l v) (with_injector (h :: injector s) s)) !! i
          = Some (mkW (FindSteal again j) sp fl tk [])) as Hi'
    by (simpl; by rewrite list_lookup_insert_ne).
  destruct again; try (rewrite (Oflag eq_refl) in *); destruct sp, fl;
    refine (update_inv _ _ 0 0 0 0 0 0 _ _ _ _ _ _ _ _ Hmid Hi' _ _ _ _ _ _ _ _ _ _);
    [update_goal ..].
Qed.

(** A worker inside a wake: looking at a flag, unparking another worker, and the rest. *)
Lemma waking_scan_inv n all j k tk lo i s :
  sched_inv n all 0 0 s -> workers s !! i = Some (mkW (Waking (UScan j) k) false false tk lo) ->
  sched_inv n all 0 0 (resume_waking i k (wake_step (UScan j) s)).
Proof.
  intros Hinv Hi. simpl.
  destruct (workers s !! j) as [v|] eqn:Hj; [|simpl; rewrite Hi; worker_step 0 0 Hinv Hi].
  destruct (flag v) eqn:Hf; [|simpl; rewrite Hi; worker_step 0 0 Hinv Hi].
  assert (j <> i) as Hne by (intros ->; rewrite Hi in Hj; by simplify_eq).
  simpl. rewrite list_lookup_insert_ne, Hi by done.
  set (w' := set_pc (Waking (UCount j) k) (mkW (Waking (UScan j) k) false false tk lo)).
  assert (sched_inv n all (-1) 1 (upd i w' s)) as Hmid
    by (refine (update_inv _ _ 0 0 0 0 (-1) 1 _ _ _ _ _ _ _ _ Hinv Hi _ _ _ _ _ _ _ _ _ _);
        [update_goal ..]).
  assert (workers (upd i w' s) !! j = Some v) as Hj' by (simpl; by rewrite list_lookup_insert_ne).
  pose proof (claim_inv _ _ _ _ _ _ _ Hmid Hj' Hf) as Hend.
  unfold upd, with_workers in *. simpl in *. rewrite list_insert_insert_ne by done. apply Hend.
  unfold unparking. simpl.
  assert (0 < countb (unparks j) (<[i:=w']> (workers s)))%nat; [|lia].
  apply (countb_lookup_pos _ _ i w');
    [apply list_lookup_insert_eq; by eapply lookup_lt_Some|by apply bool_decide_eq_true].
Qed.

Lemma waking_unpark_inv n all j k tk lo i s :
  sched_inv n all 0 0 s -> workers s !! i = Some (mkW (Waking (UUnpark j) k) false false tk lo) ->
  sched_inv n all 0 0 (resume_waking i k (wake_step (UUnpark j) s)).
Proof.
  intros Hinv Hi. simpl.
  destruct (workers s !! j) as [v|] eqn:Hj.
  - pose proof (token_inv _ _ _ _ _ _ _ Hinv Hj) as Hmid. destruct (decide (j = i)) as [->|Hne].
    + rewrite Hi in Hj. injection Hj as <-. simpl.
      rewrite list_lookup_insert_eq by (by eapply lookup_lt_Some).
      assert (workers (upd i (set_token true (mkW (Waking (UUnpark i) k) false false tk lo)) s) !! i
        = Some (mkW (Waking (UUnpark i) k) false false true lo)) as Hi'
        by (simpl; apply list_lookup_insert_eq; by eapply lookup_lt_Some).
      refine (update_inv _ _ 0 0 0 0 0 0 _ _ _ _ _ _ _ _ Hmid Hi' _ _ _ _ _ _ _ _ _ _);
        try update_goal.
      intros j'. unfold unparks. simpl. intros ->%bool_decide_eq_true. by left.
    + simpl. rewrite list_lookup_insert_ne, Hi by done.
      assert (workers (upd j (set_token true v) s) !! i
        = Some (mkW (Waking (UUnpark j) k) false false tk lo)) as Hi'
        by (simpl; by rewrite list_lookup_insert_ne).
      refine (update_inv _ _ 0 0 0 0 0 0 _ _ _ _ _ _ _ _ Hmid Hi' _ _ _ _ _ _ _ _ _ _);
        try update_goal.
      intros j'. unfold unparks. simpl. intros ->%bool_decide_eq_true _ v'.
      rewrite list_lookup_insert_eq by (by eapply lookup_lt_Some). intros [= <-]. by right.
  - simpl. rewrite Hi. refine (update_inv _ _ 0 0 0 0 0 0 _ _ _ _ _ _ _ _ Hinv Hi _ _ _ _ _ _ _ _ _ _);
      try update_goal.
    intros j'. unfold unparks. simpl. intros ->%bool_decide_eq_true _ v' Hv'. congruence.
Qed.

Lemma waking_inv n all u k sp fl tk lo i s :
  sched_inv n all 0 0 s -> workers s !! i = Some (mkW (Waking u k) sp fl tk lo) ->
  sched_inv n all 0 0 (resume_waking i k (wake_step u s)).
Proof.
  intros Hinv Hi. pose proof (inv_ok _ _ _ _ _ Hinv _ _ Hi) as [Oflag _ Ospec _].
  simpl in Oflag, Ospec. rewrite (Oflag eq_refl) in *. destruct sp; [done|].
  destruct u as [fo|[]|j|j|j|]; simpl.
  - rewrite Hi. destruct (_ =? _); worker_step 0 0 Hinv Hi.
  - rewrite Hi. worker_step 0 1 Hinv Hi.
  - destruct (_ =? _); simpl; rewrite Hi; [worker_step 0 1 Hinv Hi|worker_step 0 0 Hinv Hi].
  - by eapply waking_scan_inv.
  - rewrite Hi. refine (update_inv _ _ 0 0 (-1) 0 0 0 _ _ _ _ _ _ _ _ Hinv Hi _ _ _ _ _ _ _ _ _ _);
      try update_goal. intros j'. unfold unparks. simpl. by intros ->.
  - by eapply waking_unpark_inv.
  - rewrite Hi. worker_step 0 (-1) Hinv Hi.
Qed.

Lemma work_loop_inv n all i s s' :
  sched_inv n all 0 0 s -> work_loop i s = Some s' -> sched_inv n all 0 0 s'.
Proof.
  intros Hinv Hstep. pose proof Hstep as Hloop. unfold work_loop in Hstep.
  destruct (workers s !! i) as [w|] eqn:Hi; [|done].
  pose proof (inv_ok _ _ _ _ _ Hinv _ _ Hi) as [Oflag Olocal Ospec Ostops].
  destruct w as [c sp fl tk lo].
  destruct c as [again|again|again j|h|u k|k| | | |h|h|h| | | | | | |claimed| | | |];
    simpl in Hstep, Oflag, Olocal, Ospec, Ostops; try (rewrite (Oflag eq_refl) in *);
    try (rewrite (Olocal eq_refl) in *); try specialize (Ostops eq_refl).
  - destruct lo as [|h l]; injection Hstep as <-; destruct again;
      try (by specialize (Olocal eq_refl)); try (rewrite (Oflag eq_refl) in *);
      destruct sp; worker_step 0 0 Hinv Hi.
  - destruct (injector s) as [|h q] eqn:Hq; injection Hstep as <-; destruct again;
      try (rewrite (Oflag eq_refl) in *); destruct sp, fl; worker_step 0 0 Hinv Hi.
  - by eapply find_steal_inv.
  - injection Hstep as <-. destruct sp; [|done]. destruct (_ =? _); worker_step 0 (-1) Hinv Hi.
  - injection Hstep as <-. by eapply waking_inv.
  - destruct sp; [done|]. destruct k as [h|[|[[] h] ops]]; injection Hstep as <-;
      worker_step 0 0 Hinv Hi.
  - destruct (work_stopping s) eqn:Hst, sp; injection Hstep as <-; worker_step 0 0 Hinv Hi.
  - injection Hstep as <-. destruct sp; worker_step 0 0 Hinv Hi.
  - injection Hstep as <-. destruct sp; worker_step 1 0 Hinv Hi.
  - destruct fl; injection Hstep as <-; destruct sp; worker_step 0 0 Hinv Hi.
  - injection Hstep as <-. destruct sp; worker_step (-1) 0 Hinv Hi.
  - injection Hstep as <-. destruct sp; worker_step 0 (-1) Hinv Hi.
  - destruct (work_stopping s) eqn:Hst, sp; injection Hstep as <-; destruct fl, tk;
      worker_step 0 0 Hinv Hi.
  - injection Hstep as <-. destruct sp; worker_step 0 (-1) Hinv Hi.
  - destruct (injector s) as [|h q] eqn:Hq; injection Hstep as <-; destruct sp;
      worker_step 0 0 Hinv Hi.
  - destruct tk; [|done]. injection Hstep as <-. destruct sp, fl; worker_step 0 0 Hinv Hi.
  - destruct fl; injection Hstep as <-; destruct sp; worker_step 0 0 Hinv Hi.
  - injection Hstep as <-. destruct sp; worker_step (-1) 0 Hinv Hi.
  - destruct (work_stopping s) eqn:Hst; injection Hstep as <-; destruct sp, claimed;
      worker_step 0 0 Hinv Hi.
  - destruct fl; injection Hstep as <-; destruct sp; worker_step 0 0 Hinv Hi.
  - injection Hstep as <-. destruct sp; worker_step (-1) 0 Hinv Hi.
  - injection Hstep as <-. destruct sp; worker_step 0 (-1) Hinv Hi.
  - done.
Qed.

(** ** The steps of the other threads *)

Lemma sum_list_with_const {A} (f : A -> nat) k l :
  (forall i x, l !! i = Some x -> f x = k) -> sum_list_with f l = (k * length l)%nat.
Proof.
  induction l as [|x l IH]; intros Hf; simpl; [lia|].
  rewrite (Hf 0%nat x eq_refl), IH; [lia|]. intros i y Hi. by apply (Hf (S i)).
Qed.

Lemma sole_sum (f : epc -> nat) l e x :
  (forall y, eactive y = false -> f y = 0%nat) -> (countb eactive l <= 1)%nat ->
  l !! e = Some x -> eactive x = true -> sum_list_with f l = f x.
Proof.
  intros Hf Hone He Hx. pose proof (sum_list_with_insert f _ _ _ EReturn He) as Hs.
  pose proof (countb_insert eactive _ _ _ EReturn He) as Hc. rewrite Hx in Hc. simpl in Hc.
  rewrite (Hf EReturn), (sum_list_with_const f 0 (<[e:=EReturn]> l)) in Hs; [lia| |done].
  intros i y Hi. apply Hf. destruct (eactive y) eqn:Hy; [|done].
  pose proof (countb_lookup_pos _ _ _ _ Hi Hy). lia.
Qed.

Lemma not_awake l i w : countb awake l = 0%nat -> l !! i = Some w -> asleep w = true.
Proof.
  intros Hc Hi. destruct (asleep w) eqn:Hw; [done|]. pose proof (awake_pos _ _ _ Hi Hw). lia.
Qed.

(** A worker that sleeps counts in [idle_count], and holds nothing. *)
Lemma asleep_counts w : asleep w = true -> counts w = 1%nat /\ uncounted w = 0%nat.
Proof.
  destruct w as [c sp [] [] lo]; unfold asleep, counts, uncounted; simpl; try done.
  by destruct c as [| |[]| | | | | | | | | | | | | | | | | | | |].
Qed.

Lemma asleep_holds b w : worker_ok b w -> asleep w = true -> holds w = 0%nat.
Proof.
  intros [_ _ Hs _]. destruct w as [c sp [] [] lo]; unfold asleep, holds; simpl in *; try done.
  destruct c as [| |[]| | | | | | | | | | | | | | | | | | | |]; simpl; try done; by destruct sp.
Qed.

(** With [idle_count] at zero, or [speculation] not at zero, somebody will look at the injector. *)
Lemma idle_zero_awake n all s e fo :
  sched_inv n all 0 0 s -> (0 < n)%nat -> Z.of_nat n < 2 ^ 64 ->
  externs s !! e = Some (EWaking (ULoad fo)) -> idle_count s = 0 ->
  (0 < countb awake (workers s))%nat.
Proof.
  intros Hinv Hn Hbig He Hz. destruct (countb awake (workers s)) eqn:Hc; [|lia].
  assert (sum_list_with ecounts (externs s) = 0%nat) as He0
    by (apply (sole_sum ecounts _ e _ ltac:(by intros []) (inv_one _ _ _ _ _ Hinv) He); done).
  assert (forall i w, workers s !! i = Some w -> counts w = 1%nat /\ uncounted w = 0%nat) as Hw
    by (intros i w Hi; by eapply asleep_counts, not_awake).
  rewrite (inv_idle _ _ _ _ _ Hinv), He0, (sum_list_with_const counts 1),
    (sum_list_with_const uncounted 0), (inv_n _ _ _ _ _ Hinv) in Hz by (intros; by eapply Hw).
  rewrite usize_id in Hz; lia.
Qed.

Lemma speculation_awake n all s e :
  sched_inv n all 0 0 s -> work_stopping s = false ->
  externs s !! e = Some (EWaking (UTake false)) -> speculation s <> 0 ->
  (0 < countb awake (workers s))%nat.
Proof.
  intros Hinv Hst He Hz. destruct (countb awake (workers s)) eqn:Hc; [|lia].
  assert (sum_list_with eholds (externs s) = 0%nat) as He0
    by (apply (sole_sum eholds _ e _ ltac:(by intros []) (inv_one _ _ _ _ _ Hinv) He); done).
  rewrite (inv_spec _ _ _ _ _ Hinv Hst), He0, (sum_list_with_const holds 0) in Hz; [done|].
  intros i w Hi. eapply asleep_holds; [by eapply (inv_ok _ _ _ _ _ Hinv)|by eapply not_awake].
Qed.

(** The premises of [moved_on_inv]. *)
Ltac extern_goal :=
  match goal with
  | |- eactive _ = true => done
  | |- moved _ _ _ => first [by left | by right]
  | |- _ + _ = _ => simpl; lia
  | |- pending _ = true \/ _ => first [by left | by right; left | idtac]
  | |- forall j, eunparks j _ = true -> _ => first [done | by simpl; intros ? -> | idtac]
  | |- etarget _ _ = true => first [done | idtac]
  | |- _ ≡ₚ _ => simpl; rewrite ?flat_map_app; simpl; rewrite ?app_nil_r;
      first [done | solve_Permutation]
  end.

Ltac extern_step c t dc dt Hinv He :=
  refine (moved_on_inv _ _ 0 0 c t dc dt _ _ _ _ _ _ _ Hinv He _ _ _ _ _ _ _ _ _);
  [extern_goal ..].

Lemma hand_over_inv n all e s s' :
  (0 < n)%nat -> Z.of_nat n < 2 ^ 64 ->
  sched_inv n all 0 0 s -> hand_over e s = Some s' -> sched_inv n all 0 0 s'.
Proof.
  intros Hn Hbig Hinv Hstep. unfold hand_over in Hstep.
  destruct (externs s !! e) as [[k h|u|]|] eqn:He; [| |done|done].
  { injection Hstep as <-. extern_step 0 0 0 0 Hinv He. }
  pose proof (inv_target _ _ _ _ _ Hinv _ _ He) as Htg. simpl in Htg.
  destruct u as [fo|[]|j|j|j|]; simpl in Hstep.
  - destruct (Z.eqb_spec (idle_count s) 0) as [Hz|Hz]; injection Hstep as <-;
      extern_step 0 0 0 0 Hinv He.
    do 2 right. intros _ _. by eapply idle_zero_awake.
  - injection Hstep as <-. extern_step 0 1 0 0 Hinv He.
  - destruct (Z.eqb_spec (speculation s) 0) as [Hz|Hz]; injection Hstep as <-;
      [extern_step 0 1 0 0 Hinv He|extern_step 0 0 0 0 Hinv He].
    do 2 right. intros Hst _. by eapply speculation_awake.
  - destruct (workers s !! j) as [v|] eqn:Hj.
    + pose proof (lookup_lt_Some _ _ _ Hj) as Hlt. rewrite (inv_n _ _ _ _ _ Hinv) in Hlt.
      destruct (flag v) eqn:Hf; injection Hstep as <-.
      * assert (sched_inv n all (-1) 1
          (with_externs (<[e:=EWaking (UCount j)]> (externs s)) s)) as Hmid
          by (extern_step 0 0 (-1) 1 Hinv He; by apply Nat.ltb_lt).
        refine (claim_inv _ _ _ _ _ _ _ Hmid Hj Hf _). unfold unparking. simpl.
        assert (0 < countb (eunparks j) (<[e:=EWaking (UCount j)]> (externs s)))%nat; [|lia].
        apply (countb_lookup_pos _ _ e (EWaking (UCount j)));
          [apply list_lookup_insert_eq; by eapply lookup_lt_Some|by apply bool_decide_eq_true].
      * extern_step 0 0 0 0 Hinv He. destruct j; [|by right; left]. do 2 right. intros _ _.
        apply (awake_pos _ _ _ Hj). unfold asleep. by rewrite Hf.
    + injection Hstep as <-. apply lookup_ge_None in Hj. rewrite (inv_n _ _ _ _ _ Hinv) in Hj.
      destruct j; [lia|]. extern_step 0 0 0 0 Hinv He.
  - injection Hstep as <-. extern_step (-1) 0 0 0 Hinv He.
  - apply Nat.ltb_lt in Htg. rewrite <- (inv_n _ _ _ _ _ Hinv) in Htg.
    destruct (lookup_lt_is_Some_2 _ _ Htg) as [v Hj]. rewrite Hj in Hstep. injection Hstep as <-.
    pose proof (token_inv _ _ _ _ _ _ _ Hinv Hj) as Hmid.
    extern_step 0 0 0 0 Hmid He.
    + do 2 right. intros _ _. eapply (awake_pos _ j (set_token true v));
        [by apply list_lookup_insert_eq|]. unfold asleep. simpl. by rewrite andb_false_r.
    + intros j' ->%bool_decide_eq_true _ v' Hv'. simpl in Hv'.
      rewrite list_lookup_insert_eq in Hv' by done. by simplify_eq.
  - injection Hstep as <-. extern_step 0 (-1) 0 0 Hinv He.
Qed.

Lemma next_extern_inv n all s s' :
  sched_inv n all 0 0 s -> next_extern true s = Some s' -> sched_inv n all 0 0 s'.
Proof.
  intros Hinv Hstep. unfold next_extern in Hstep. destruct (todo s) as [|[k h] ts] eqn:Ht; [done|].
  simpl in Hstep. destruct (existsb eactive (externs s)) eqn:Ha; [done|]. injection Hstep as <-.
  apply existsb_countb in Ha. destruct Hinv as [In Iok Iidle Ispec Isv Ione Itg Icl Ist Ilv Iids].
  split; simpl; try done.
  - rewrite sum_list_with_app. simpl. rewrite !Nat.add_0_r. done.
  - rewrite sum_list_with_app. simpl. rewrite !Nat.add_0_r. done.
  - intros Hst Hq. specialize (Isv Hst Hq). rewrite countb_app. simpl. lia.
  - rewrite countb_app. simpl. lia.
  - intros e x [He|[_ [_ <-]%list_lookup_singleton_Some]]%lookup_app_Some; [by eapply Itg|done].
  - intros i w Hi Hw. destruct (Icl i w Hi Hw) as [|Hu]; [by left|right].
    unfold unparking in *. simpl. rewrite countb_app. lia.
  - rewrite <- Iids. unfold all_ids. simpl. rewrite Ht, flat_map_app. simpl. unfold ops_ids. simpl.
    rewrite app_nil_r. solve_Permutation.
Qed.

Lemma stop_threads_inv n all s s' :
  sched_inv n all 0 0 s -> stop_threads s = Some s' -> sched_inv n all 0 0 s'.
Proof.
  intros Hinv Hstep. unfold stop_threads in Hstep. destruct (stopper s) as [|k] eqn:Hk.
  - injection Hstep as <-. destruct Hinv as [In Iok Iidle Ispec Isv Ione Itg Icl Ist Ilv Iids].
    split; simpl; try done.
    + intros i w Hi. destruct (Iok i w Hi). by split.
    + intros k' i w [= <-] Hlt. lia.
  - destruct (workers s !! k) as [w|] eqn:Hi; [|done]. injection Hstep as <-.
    pose proof (token_inv _ _ _ _ _ _ _ Hinv Hi) as Hmid.
    assert (work_stopping s = true) as Hst by (apply Hinv; by rewrite Hk).
    destruct Hmid as [In Iok Iidle Ispec Isv Ione Itg Icl Ist Ilv Iids]. simpl in *.
    split; simpl; try done; [by rewrite Hst in Iok|].
    intros k' i v [= <-] Hlt Hv. destruct (decide (i = k)) as [->|].
    + rewrite list_lookup_insert_eq in Hv by (by eapply lookup_lt_Some). by simplify_eq.
    + apply (Ilv k i v); [done|lia|done].
Qed.

Lemma sched_step_inv n all s s' :
  (0 < n)%nat -> Z.of_nat n < 2 ^ 64 ->
  sched_inv n all 0 0 s -> sched_step true s s' -> sched_inv n all 0 0 s'.
Proof.
  intros Hn Hbig Hinv [[i|e| |] Hstep]; simpl in Hstep.
  - by eapply work_loop_inv.
  - by eapply hand_over_inv.
  - by eapply next_extern_inv.
  - by eapply stop_threads_inv.
Qed.

Lemma sched_reachable_inv n ts s :
  (0 < n)%nat -> Z.of_nat n < 2 ^ 64 ->
  rtc (sched_step true) (sched_new n ts) s -> sched_inv n (ops_ids ts) 0 0 s.
Proof.
  intros Hn Hbig. apply (rtc_ind_r _ _ (sched_new_inv n ts)).
  intros s1 s2 _ Hstep Hinv. by eapply sched_step_inv.
Qed.

(** ** At rest *)

Lemma at_rest_worker gil s i w :
  at_rest gil s -> workers s !! i = Some w -> (pc w = Parked /\ token w = false) \/ pc w = Exited.
Proof.
  intros Hrest Hi. specialize (Hrest (AWorker i) ltac:(by left)). simpl in Hrest.
  unfold work_loop in Hrest. rewrite Hi in Hrest.
  destruct (pc w) as [again|again|again j|h|u k|[h|[|[[] h] ops]]| | | |h|h|h| | | | | | |claimed| | | |];
    try done; repeat (case_match; try done); auto.
Qed.

Lemma at_rest_externs gil s : at_rest gil s -> countb eactive (externs s) = 0%nat.
Proof.
  intros Hrest. apply countb_none. intros e x He.
  specialize (Hrest (AExtern e) ltac:(by left)). simpl in Hrest. unfold hand_over in Hrest.
  rewrite He in Hrest. destruct x as [|u|]; [done| |done]. by destruct (wake_step u s).
Qed.

Lemma at_rest_todo gil s : at_rest gil s -> todo s = [].
Proof.
  intros Hrest. pose proof (at_rest_externs _ _ Hrest) as He%existsb_countb_0.
  specialize (Hrest ANext ltac:(by left)). simpl in Hrest. unfold next_extern in Hrest.
  destruct (todo s) as [|[k h] ts]; [done|]. by rewrite He, andb_false_r in Hrest.
Qed.

Lemma flat_map_nil {A B} (f : A -> list B) l :
  (forall i x, l !! i = Some x -> f x = []) -> flat_map f l = [].
Proof.
  induction l as [|x l IH]; intros Hf; simpl; [done|]. rewrite (Hf 0%nat x eq_refl), IH; [done|].
  intros i y Hi. by apply (Hf (S i)).
Qed.

Lemma at_rest_unparking gil s i : at_rest gil s -> unparking i s = 0%nat.
Proof.
  intros Hrest. unfold unparking. rewrite !countb_none; [done| |].
  - intros e x He. pose proof (at_rest_externs _ _ Hrest) as Hc.
    destruct (eactive x) eqn:Hx; [|by destruct x].
    pose proof (countb_lookup_pos _ _ _ _ He Hx). lia.
  - intros j w Hj. unfold unparks. by destruct (at_rest_worker _ _ _ _ Hrest Hj) as [[-> _]| ->].
Qed.

(** At rest, and not stopping, every worker is parked with nothing to do. *)
Lemma at_rest_parked n all s i w :
  sched_inv n all 0 0 s -> at_rest true s -> work_stopping s = false ->
  workers s !! i = Some w -> wids w = [] /\ asleep w = true.
Proof.
  intros Hinv Hrest Hst Hi. pose proof (inv_ok _ _ _ _ _ Hinv _ _ Hi) as [_ Olocal _ Ostops].
  destruct (at_rest_worker _ _ _ _ Hrest Hi) as [[Hpc Htok]|Hpc];
    rewrite Hpc in Olocal, Ostops; [|specialize (Ostops eq_refl); congruence].
  unfold wids, asleep. rewrite Hpc, (Olocal eq_refl), Htok. split; [done|].
  destruct (flag w) eqn:Hf; [done|].
  destruct (inv_claim _ _ _ _ _ Hinv _ _ Hi) as [|Hu]; [by unfold claimed; rewrite Hf, Hpc|congruence|].
  rewrite (at_rest_unparking _ _ _ Hrest) in Hu. lia.
Qed.

Lemma at_rest_injector n all s :
  sched_inv n all 0 0 s -> at_rest true s -> work_stopping s = false -> injector s = [].
Proof.
  intros Hinv Hrest Hst. destruct (injector s) eqn:Hq; [done|].
  pose proof (inv_served _ _ _ _ _ Hinv Hst ltac:(by rewrite Hq)) as Hs.
  rewrite (countb_none awake) in Hs; [|intros i w Hi; unfold awake;
    by rewrite (proj2 (at_rest_parked _ _ _ _ _ Hinv Hrest Hst Hi))].
  rewrite (countb_none pending) in Hs; [lia|]. intros e x He.
  pose proof (at_rest_externs _ _ Hrest) as Hc. destruct (eactive x) eqn:Hx; [|by destruct x].
  pose proof (countb_lookup_pos _ _ _ _ He Hx). lia.
Qed.

(** At rest and not stopping, everything has run. *)
Lemma at_rest_ran n all s :
  sched_inv n all 0 0 s -> at_rest true s -> work_stopping s = false -> ran s ≡ₚ all.
Proof.
  intros Hinv Hrest Hst. rewrite <- (inv_ids _ _ _ _ _ Hinv). unfold all_ids.
  rewrite (at_rest_todo _ _ Hrest), (at_rest_injector _ _ _ Hinv Hrest Hst).
  rewrite (flat_map_nil wids), (flat_map_nil eids); [done| |].
  - intros e x He. pose proof (at_rest_externs _ _ Hrest) as Hc.
    destruct (eactive x) eqn:Hx; [|by destruct x].
    pose proof (countb_lookup_pos _ _ _ _ He Hx). lia.
  - intros i w Hi. by eapply at_rest_parked.
Qed.

(** At rest after [stop_threads], every worker has left. *)
Lemma at_rest_exited n all s i w :
  sched_inv n all 0 0 s -> at_rest true s -> work_stopping s = true ->
  workers s !! i = Some w -> pc w = Exited.
Proof.
  intros Hinv Hrest Hst Hi. destruct (stopper s) as [|k] eqn:Hk;
    [by apply (inv_stopping _ _ _ _ _ Hinv) in Hst|].
  specialize (Hrest AStop ltac:(right; congruence)) as Hstop. simpl in Hstop.
  unfold stop_threads in Hstop. rewrite Hk in Hstop.
  destruct (workers s !! k) eqn:Hlk; [done|]. apply lookup_ge_None in Hlk.
  pose proof (lookup_lt_Some _ _ _ Hi).
  pose proof (inv_leaving _ _ _ _ _ Hinv k i w Hk ltac:(lia) Hi) as Hl.
  destruct (at_rest_worker _ _ _ _ Hrest Hi) as [[Hpc Htok]|]; [|done].
  unfold leaving in Hl. by rewrite Hpc, Htok in Hl.
Qed.


Lemma do_acts_steps gil l s s' : do_acts gil l s = Some s' -> rtc (sched_step gil) s s'.
Proof.
  revert s. induction l as [|a l IH]; simpl; intros s Hl; [by simplify_eq|].
  destruct (do_act gil a s) as [q|] eqn:Ha; [|done].
  eapply rtc_l; [by exists a|by apply IH].
Qed.

(** A worker runs a handle that hands over two more, parks, and is claimed for a fourth. *)
Definition sample : list (kind * handle) :=
  [(KDefer, Handle 1 [(KAdd, Handle 2 []); (KDefer, Handle 3 [])]); (KIo, Handle 4 [])].

Definition sample_run : list act :=
  [ANext; AExtern 0; AExtern 0] ++ replicate 27 (AWorker 0)
  ++ [ANext; AExtern 1; AExtern 1; AExtern 1; AExtern 1; AExtern 1; AExtern 1]
  ++ replicate 21 (AWorker 0).


(** ** An execution that goes wrong

    Without the global lock, a thread that has taken the token of [speculation] and found no idle
    worker may be delayed before it gives the token back.  If the worker runs the handle and parks
    in the meantime, another thread's handle is left in the injector: its [unpark_one] sees the
    token and wakes nobody. *)
Definition stranded : list act :=
  replicate 7 (AWorker 0) ++ [ANext; AExtern 0; AExtern 0; AExtern 0] ++ replicate 4 (AWorker 0)
  ++ [AExtern 0; AExtern 0] ++ replicate 14 (AWorker 0)
  ++ [ANext; AExtern 1; AExtern 1; AExtern 1; AExtern 0].

Lemma handle_stranded :
  exists s, rtc (sched_step false) (sched_new 1 [(KDefer, Handle 1 []); (KDefer, Handle 2 [])]) s /\
    at_rest false s /\ work_stopping s = false /\ injector s = [Handle 2 []] /\ ran s = [1%nat].
Proof.
  eexists. split; [apply (do_acts_steps false stranded); vm_compute; reflexivity|].
  split; [|done]. intros [[|i]|[|[|e]]| |] [Hx|Hx]; try reflexivity; by destruct Hx.
Qed.
