(* ===== verification/Handles.v ===== *)
(** * Handles and suspensions

    [PyGenHandle] and [PyGenThrower] with their context twins of [src/src/handles.rs];
    [PyGenSuspension], [Sentinel] and the registration and abortion of a [Waiter] of
    [src/src/events.rs]: how a generator that yields another one, or something to wait for, is left
    and taken up again.  A suspension remembers a generator and the suspension of its caller; it
    may be resumed, or given an exception, by whoever holds a reference to it, any number of times,
    and only the first counts.

    The generators themselves are the user's: [G] is the type of their states and [run] what they
    do when a value is sent to them or an exception thrown into them. *)

From stdpp Require Import base numbers list strings relations.
From Stdlib Require Import ZArith Lia.
From S2P Require Import Prelude Os.

(** What is sent: [PyIter_Send] of a handle, [throw] of a thrower. *)
Inductive msg := Send (v : pyobj) | Throw (e : exn).

(** What a generator yields: nothing, another generator, a waiter or something else. *)
Inductive yielded (G : Type) := YNone | YGen (g : G) | YWaiter (w : nat) | YOther.
Arguments YNone {G}.
Arguments YGen {G} g.
Arguments YWaiter {G} w.
Arguments YOther {G}.

Inductive outcome (G : Type) := Yielded (y : yielded G) (g : G) | Returned (v : pyobj) | Raised (e : exn).
Arguments Yielded {G} y g.
Arguments Returned {G} v.
Arguments Raised {G} e.

(** [PyGenSuspension].  Objects are known by their index: a generator, a suspension, a waiter.
    The target is the generator with its context, if the runtime uses contexts; the sentinel has
    its counter and the number of results. *)
Record suspension := mkSusp {
  s_parent : option nat; s_coro : nat; s_ctx : option nat; consumed : bool; is_checkpoint : bool;
  sentinel : option (nat * nat); s_checkpoint : option nat
}.

(** [Waiter]: the number of its events, and what [abort_pygen] and the checkpoints use. *)
Record waiter := mkWaiter {
  registered : bool; aborted : bool; nevents : nat; checkpoint_gen : option nat
}.

(** [PyGenHandle], [PyGenCtxHandle], [PyGenThrower] and [PyGenCtxThrower]. *)
Record handle := mkHandle { h_parent : option nat; h_coro : nat; h_ctx : option nat; h_msg : msg }.

(** Whether a suspension can still be resumed. *)
Definition live (s : suspension) : bool :=
  match sentinel s with Some (c, _) => negb (c =? 0) | None => negb (consumed s) end.

Definition set_consumed (s : suspension) : suspension :=
  mkSusp (s_parent s) (s_coro s) (s_ctx s) true (is_checkpoint s) (sentinel s) (s_checkpoint s).
Definition set_counter (c : nat) (s : suspension) : suspension :=
  mkSusp (s_parent s) (s_coro s) (s_ctx s) (consumed s) (is_checkpoint s)
    (match sentinel s with Some (_, n) => Some (c, n) | None => None end) (s_checkpoint s).
Definition set_registered (w : waiter) : waiter :=
  mkWaiter true (aborted w) (nevents w) (checkpoint_gen w).
Definition set_aborted (w : waiter) : waiter :=
  mkWaiter (registered w) true (nevents w) (checkpoint_gen w).
Definition set_checkpoint_gen (p : option nat) (w : waiter) : waiter :=
  mkWaiter (registered w) (aborted w) (nevents w) p.

(** [PyGenSuspension::from_gen]. *)
Definition from_gen (coro : nat) (ctx parent : option nat) (sen : option (nat * nat))
    (cp : option nat) : suspension :=
  mkSusp parent coro ctx false false sen cp.

(** [Waiter::build_sentinel]. *)
Definition build_sentinel (n : nat) : option (nat * nat) :=
  match n with 0 | 1 => None | _ => Some (n, n) end.

Section Machine.
Context {G : Type} (run : G -> msg -> outcome G).

(** The objects; [wakers] are the suspensions events and timers hold, [runq] the handles given to
    the workers. *)
Record machine := mkMachine {
  coros : list G; susps : list suspension; waiters : list waiter; wakers : list nat;
  runq : list handle
}.

Definition with_coros x m := mkMachine x (susps m) (waiters m) (wakers m) (runq m).
Definition with_susps x m := mkMachine (coros m) x (waiters m) (wakers m) (runq m).
Definition with_waiters x m := mkMachine (coros m) (susps m) x (wakers m) (runq m).
Definition with_wakers x m := mkMachine (coros m) (susps m) (waiters m) x (runq m).
Definition add_handle (h : handle) (m : machine) :=
  mkMachine (coros m) (susps m) (waiters m) (wakers m) (runq m ++ [h]).

Definition set_gen (w : nat) (p : option nat) (m : machine) : machine :=
  with_waiters (alter (set_checkpoint_gen p) w (waiters m)) m.

(** The checkpoint of a suspension that may not exist. *)
Definition checkpoint_of (m : machine) (p : option nat) : option nat :=
  match p with
  | Some sid => match susps m !! sid with Some s => s_checkpoint s | None => None end
  | None => None
  end.

(** [to_handle] and [to_throw_handle]. *)
Definition to_handle (s : suspension) (x : msg) (m : machine) : machine :=
  let m := match is_checkpoint s, s_checkpoint s with
           | true, Some w => set_gen w None m
           | _, _ => m
           end in
  add_handle (mkHandle (s_parent s) (s_coro s) (s_ctx s) x) m.

(** [PyGenSuspension::resume], with [Sentinel::decrement]. *)
Definition resume (sid : nat) (v : pyobj) (m : machine) : machine :=
  match susps m !! sid with
  | None => m
  | Some s =>
      match sentinel s with
      | Some (c, n) =>
          if c =? 0 then m
          else
            let m := with_susps (<[sid:=set_counter (c - 1) s]> (susps m)) m in
            if c =? 1 then to_handle s (Send (PList (replicate n PNone))) m else m
      | None =>
          if consumed s then m
          else to_handle s (Send v) (with_susps (<[sid:=set_consumed s]> (susps m)) m)
      end
  end.

(** [PyGenSuspension::error], with [Sentinel::consume]. *)
Definition error (sid : nat) (e : exn) (m : machine) : machine :=
  match susps m !! sid with
  | None => m
  | Some s =>
      match sentinel s with
      | Some (c, n) =>
          if c =? 0 then m
          else to_handle s (Throw e) (with_susps (<[sid:=set_counter 0 s]> (susps m)) m)
      | None =>
          if consumed s then m
          else to_handle s (Throw e) (with_susps (<[sid:=set_consumed s]> (susps m)) m)
      end
  end.

(** [PyGenSuspension::from_handle]: its effect on the checkpoint, and the suspension. *)
Definition from_handle (coro : nat) (ctx parent : option nat) (m : machine) : machine :=
  let m := match parent with
           | Some p =>
               match susps m !! p with
               | Some s => match is_checkpoint s, s_checkpoint s with
                           | true, Some w => set_gen w (Some p) m
                           | _, _ => m
                           end
               | None => m
               end
           | None => m
           end in
  with_susps (susps m ++ [from_gen coro ctx parent None (checkpoint_of m parent)]) m.

(** [PyGenSuspension::from_checkpoint]: the caller's suspension is replaced by a copy that belongs
    to the checkpoint; the original goes with its last reference. *)
Definition from_checkpoint (coro : nat) (ctx : option nat) (p : nat) (s : suspension) (w : nat)
    (m : machine) : machine :=
  let copy := mkSusp (s_parent s) (s_coro s) (s_ctx s) false true None (Some w) in
  with_susps (<[p:=set_consumed s]> (susps m)
              ++ [copy; mkSusp (Some (length (susps m))) coro ctx false false None None]) m.

(** [Waiter::register_pygen]; [None] where the code panics. *)
Definition register_pygen (w : nat) (coro : nat) (ctx parent : option nat) (m : machine)
    : option machine :=
  match waiters m !! w with
  | None => None
  | Some x =>
      if registered x then None
      else
        let m := with_waiters (<[w:=set_registered x]> (waiters m)) m in
        if nevents x =? 0 then
          match parent with
          | None => None
          | Some p =>
              match susps m !! p with
              | None => None
              | Some s =>
                  let m :=
                    match s_checkpoint s with
                    | None => from_checkpoint coro ctx p s w m
                    | Some c =>
                        let m := match waiters m !! c with
                                 | Some y => set_gen w (checkpoint_gen y) m
                                 | None => m
                                 end in
                        with_susps (susps m ++ [from_gen coro ctx parent None (Some c)]) m
                    end in
                  let sid := pred (length (susps m)) in
                  Some (if aborted x then error sid CancelledError m else resume sid PNone m)
              end
          end
        else
          let cp := checkpoint_of m parent in
          let sid := length (susps m) in
          let m := with_susps (susps m ++ [from_gen coro ctx parent (build_sentinel (nevents x)) cp]) m in
          let m := match cp with Some c => set_gen c (Some sid) m | None => m end in
          Some (with_wakers (wakers m ++ [sid]) m)
  end.

(** [PyGenHandle::call] and [PyGenThrower::run]: the [i]-th handle of the queue is run. *)
Definition call (i : nat) (m : machine) : option machine :=
  match runq m !! i with
  | None => None
  | Some h =>
      match coros m !! h_coro h with
      | None => None
      | Some g =>
          let m := mkMachine (coros m) (susps m) (waiters m) (wakers m) (delete i (runq m)) in
          match run g (h_msg h) with
          | Yielded y g' =>
              let m := with_coros (<[h_coro h:=g']> (coros m)) m in
              match y with
              | YNone =>
                  let x := match h_msg h with Send v => Send v | Throw _ => Send PNone end in
                  Some (add_handle (mkHandle (h_parent h) (h_coro h) (h_ctx h) x) m)
              | YGen g2 =>
                  let parent := length (susps m) in
                  let m := from_handle (h_coro h) (h_ctx h) (h_parent h) m in
                  Some (add_handle (mkHandle (Some parent) (length (coros m)) (h_ctx h) (Send PNone))
                          (with_coros (coros m ++ [g2]) m))
              | YWaiter w => register_pygen w (h_coro h) (h_ctx h) (h_parent h) m
              | YOther => None
              end
          | Returned v =>
              Some (match h_parent h with Some sid => resume sid v m | None => m end)
          | Raised e =>
              Some (match h_parent h with Some sid => error sid e m | None => m end)
          end
      end
  end.

(** [Waiter::abort_pygen]. *)
Definition abort_pygen (w : nat) (m : machine) : machine :=
  match waiters m !! w with
  | Some x =>
      if aborted x then m
      else
        let m := with_waiters (<[w:=set_aborted x]> (waiters m)) m in
        match checkpoint_gen x with Some sid => error sid CancelledError m | None => m end
  | None => m
  end.

(** What happens to the machine: a worker runs a handle, an event or a timer wakes a suspension
    it holds, a scope aborts a checkpoint, a coroutine is spawned, a waiter is made. *)
Inductive mstep (m : machine) : machine -> Prop :=
| MCall i m' : call i m = Some m' -> mstep m m'
| MWake sid v : sid ∈ wakers m -> mstep m (resume sid v m)
| MAbort w : mstep m (abort_pygen w m)
| MSpawn g ctx :
    mstep m (add_handle (mkHandle None (length (coros m)) ctx (Send PNone))
               (with_coros (coros m ++ [g]) m))
| MWaiter n : mstep m (with_waiters (waiters m ++ [mkWaiter false false n None]) m).
End Machine.
Arguments machine G : clear implicits.
