(* ===== verification/HandlesSim.v ===== *)
(** * Suspensions implement calls: the simulation

    The specification of [Handles]: tasks with a call stack of generators, where a generator that
    returns or raises hands its outcome to its caller, and a wait is answered once.  The theorem is a
    simulation: whatever references to suspensions are used, and however often, the machine of
    handles and suspensions does what the tasks do. *)

From stdpp Require Import base numbers list strings relations.
From Stdlib Require Import ZArith Lia.
From S2P Require Import Prelude Os Handles.

#[local] Set Warnings "-clear-no-such-hyp".

(** ** The specification *)

(** A generator of a stack, with its context; a task that is ready with what will be sent to the
    generator on top, or waits. *)
Abbreviation frame := (nat * option nat)%type.
Record task := mkTask { stack : list frame; status : option msg }.

(** The caller goes on with an outcome; without a caller nobody is told. *)
Definition deliver (st : list frame) (x : msg) : list task :=
  match st with [] => [] | _ => [mkTask st (Some x)] end.

(** A generator resumed after a bare [yield] is sent what it was sent last. *)
Definition again (x : msg) : msg := match x with Send v => Send v | Throw _ => Send PNone end.

Section Spec.
Context {G : Type} (run : G -> msg -> outcome G).

(** The generators and one task, and what becomes of them. *)
Inductive tstep : list G -> task -> list G -> list task -> Prop :=
| TPause cs i c st x g g' :
    cs !! i = Some g -> run g x = Yielded YNone g' ->
    tstep cs (mkTask ((i, c) :: st) (Some x)) (<[i:=g']> cs)
      [mkTask ((i, c) :: st) (Some (again x))]
| TCall cs i c st x g g' g2 :
    cs !! i = Some g -> run g x = Yielded (YGen g2) g' ->
    tstep cs (mkTask ((i, c) :: st) (Some x)) (<[i:=g']> cs ++ [g2])
      [mkTask ((length cs, c) :: (i, c) :: st) (Some (Send PNone))]
| TWait cs i c st x g g' w :
    cs !! i = Some g -> run g x = Yielded (YWaiter w) g' ->
    tstep cs (mkTask ((i, c) :: st) (Some x)) (<[i:=g']> cs) [mkTask ((i, c) :: st) None]
| TReturn cs i c st x g v :
    cs !! i = Some g -> run g x = Returned v ->
    tstep cs (mkTask ((i, c) :: st) (Some x)) cs (deliver st (Send v))
| TRaise cs i c st x g e :
    cs !! i = Some g -> run g x = Raised e ->
    tstep cs (mkTask ((i, c) :: st) (Some x)) cs (deliver st (Throw e))
| TWake cs st v : tstep cs (mkTask st None) cs [mkTask st (Some (Send v))]
| TCancel cs st : tstep cs (mkTask st None) cs [mkTask st (Some (Throw CancelledError))]
| TUnwind cs st1 st2 x :
    st1 <> [] -> st2 <> [] ->
    tstep cs (mkTask (st1 ++ st2) x) cs [mkTask st1 x; mkTask st2 (Some (Throw CancelledError))].

(** A step of one task among others, or a new task. *)
Inductive sstep : list G * list task -> list G * list task -> Prop :=
| STask cs cs' t ts new all all' :
    all ≡ₚ t :: ts -> all' ≡ₚ new ++ ts -> tstep cs t cs' new -> sstep (cs, all) (cs', all')
| SSpawn cs g c ts all' :
    all' ≡ₚ mkTask [(length cs, c)] (Some (Send PNone)) :: ts ->
    sstep (cs, ts) (cs ++ [g], all').

(** ** The relation *)

(** From a reference to a caller's suspension to the suspensions still waiting above it, each with
    its frame.  One that was used up ends the line: only a checkpoint's can be. *)
Inductive line (ss : list suspension) : option nat -> list (nat * frame) -> Prop :=
| line_none : line ss None []
| line_dead p s : ss !! p = Some s -> live s = false -> s_checkpoint s <> None -> line ss (Some p) []
| line_live p s l :
    ss !! p = Some s -> live s = true -> sentinel s = None -> line ss (s_parent s) l ->
    line ss (Some p) ((p, (s_coro s, s_ctx s)) :: l).

(** What carries a task: a handle of the queue or a suspension that waits, with its line. *)
Record carrier := mkCar { top : handle + nat; above : list (nat * frame); carried : task }.

Inductive carries (ss : list suspension) : carrier -> Prop :=
| carries_run h l :
    line ss (h_parent h) l ->
    carries ss (mkCar (inl h) l (mkTask ((h_coro h, h_ctx h) :: map snd l) (Some (h_msg h))))
| carries_wait sid s l :
    ss !! sid = Some s -> live s = true -> line ss (s_parent s) l ->
    carries ss (mkCar (inr sid) l (mkTask ((s_coro s, s_ctx s) :: map snd l) None)).

Definition own (c : carrier) : list nat :=
  (match top c with inl _ => [] | inr sid => [sid] end) ++ map fst (above c).
Definition handle_of (c : carrier) : option handle :=
  match top c with inl h => Some h | inr _ => None end.

(** The carriers account for the queue and for the live suspensions anybody holds, no suspension
    belongs to two of them, and the one a checkpoint points at belongs to that checkpoint. *)
Record related (m : machine G) (cs : list carrier) : Prop := {
  rel_carries : Forall (carries (susps m)) cs;
  rel_runq : omap handle_of cs ≡ₚ runq m;
  rel_nodup : NoDup (flat_map own cs);
  rel_wakers : forall sid, sid ∈ wakers m ->
    exists s, susps m !! sid = Some s /\ (live s = true -> exists c, c ∈ cs /\ top c = inr sid);
  rel_gens : forall w x sid, waiters m !! w = Some x -> checkpoint_gen x = Some sid ->
    exists s, susps m !! sid = Some s /\
      (live s = true -> s_checkpoint s <> None /\ sid ∈ flat_map own cs)
}.

Definition refines (m : machine G) (A : list G * list task) : Prop :=
  exists cs, related m cs /\ A.1 = coros m /\ A.2 ≡ₚ map carried cs.

(** ** How suspensions may change

    All but those of [K], which are used up, keep what a line sees of them. *)
Record same (s s' : suspension) : Prop := {
  same_parent : s_parent s' = s_parent s;
  same_coro : s_coro s' = s_coro s;
  same_ctx : s_ctx s' = s_ctx s;
  same_checkpoint : s_checkpoint s' = s_checkpoint s;
  same_live : live s' = live s;
  same_sentinel : sentinel s = None -> sentinel s' = None
}.

Record agree (K : list nat) (ss ss' : list suspension) : Prop := {
  agree_same : forall sid s, ss !! sid = Some s -> sid ∉ K -> exists s', ss' !! sid = Some s' /\ same s s';
  agree_was : forall k, k ∈ K -> exists s, ss !! k = Some s /\ live s = true;
  agree_dead : forall k, k ∈ K -> exists s', ss' !! k = Some s' /\ live s' = false
}.

Lemma line_agree K ss ss' p l :
  agree K ss ss' -> line ss p l -> (forall k, k ∈ K -> k ∉ map fst l) -> line ss' p l.
Proof.
  intros [Hsame Hwas _]. induction 1 as [|p s Hp Hd Hc|p s l Hp Hl Hs Hline IH]; intros HK.
  - constructor.
  - destruct (Hsame p s Hp) as (s' & Hp' & []).
    { intros (s0 & Hs0 & Hl0)%Hwas. congruence. }
    eapply line_dead; [done|congruence..].
  - destruct (Hsame p s Hp) as (s' & Hp' & [Sp Sc Sx Sk Sl Sn]).
    { intros Hk. apply (HK p Hk). by left. }
    rewrite <- Sc, <- Sx. apply line_live; [done|congruence|auto|]. rewrite Sp. apply IH.
    intros k Hk Hin. apply (HK k Hk). by right.
Qed.

Lemma carries_agree K ss ss' c :
  agree K ss ss' -> carries ss c -> (forall k, k ∈ K -> k ∉ own c) -> carries ss' c.
Proof.
  intros Ha Hc HK. destruct Hc as [h l Hl|sid s l Hs Hlive Hl]; unfold own in HK; simpl in HK.
  - constructor. by eapply line_agree.
  - destruct (agree_same _ _ _ Ha sid s Hs) as (s' & Hs' & [Sp Sc Sx Sk Sl Sn]).
    { intros Hk. apply (HK sid Hk). by left. }
    rewrite <- Sc, <- Sx. econstructor; [done|congruence|]. rewrite Sp. eapply line_agree; [done..|].
    intros k Hk Hin. apply (HK k Hk). by right.
Qed.

Lemma line_bound ss p l sid : line ss p l -> sid ∈ map fst l -> sid < length ss.
Proof.
  induction 1 as [| |p s l Hp Hl Hs Hline IH]; simpl; [set_solver..|].
  intros [->|Hin]%elem_of_cons; [by eapply lookup_lt_Some|by apply IH].
Qed.

Lemma own_bound ss c sid : carries ss c -> sid ∈ own c -> sid < length ss.
Proof.
  intros [h l Hl|sid' s l Hs Hlive Hl]; unfold own; simpl.
  - by apply line_bound with (h_parent h).
  - intros [->|Hin]%elem_of_cons; [by eapply lookup_lt_Some|by eapply line_bound].
Qed.

(** ** One carrier is replaced by others *)

Section Replace.
Context (m m' : machine G) (c : carrier) (rest new : list carrier) (K : list nat).
Hypothesis Hrel : related m (c :: rest).
Hypothesis Hagree : agree K (susps m) (susps m').
Hypothesis HK : forall k, k ∈ K -> k ∈ own c.
Hypothesis Hnew : Forall (carries (susps m')) new.
Hypothesis Hrunq : omap handle_of new ++ omap handle_of rest ≡ₚ runq m'.
Hypothesis Hnodup : NoDup (flat_map own new).
Hypothesis Hfresh : forall sid, sid ∈ flat_map own new -> sid ∈ own c \/ length (susps m) <= sid.
Hypothesis Hkept : forall sid, sid ∈ own c -> sid ∈ K \/ sid ∈ flat_map own new.
Hypothesis Htop : forall sid, top c = inr sid -> sid ∈ K \/ exists c', c' ∈ new /\ top c' = inr sid.
Hypothesis Hwakers : forall sid, sid ∈ wakers m' -> sid ∈ wakers m \/
  ((exists s, susps m' !! sid = Some s) /\ exists c', c' ∈ new /\ top c' = inr sid).
Hypothesis Hgens : forall w x sid, waiters m' !! w = Some x -> checkpoint_gen x = Some sid ->
  (exists w0 x0, waiters m !! w0 = Some x0 /\ checkpoint_gen x0 = Some sid) \/
  (exists s, susps m' !! sid = Some s /\
     (live s = true -> s_checkpoint s <> None /\ sid ∈ flat_map own new)).

Lemma replace_nodup : NoDup (flat_map own (new ++ rest)).
Proof using All.
  rewrite flat_map_app. pose proof (rel_nodup _ _ Hrel) as Hn. simpl in Hn.
  apply NoDup_app in Hn as (_ & Hd & Hr). apply NoDup_app. split_and!; [done| |done].
  intros sid Hs Hin. destruct (Hfresh sid Hs) as [Hc|Hb]; [by apply (Hd sid)|].
  apply list_elem_of_In, in_flat_map in Hin as (c' & Hc'%list_elem_of_In & Hin%list_elem_of_In).
  pose proof (rel_carries _ _ Hrel) as Hf. apply Forall_cons in Hf as [_ Hf].
  rewrite Forall_forall in Hf. pose proof (own_bound _ _ _ (Hf c' Hc') Hin). lia.
Qed.

(** What was live before, if it still is, has a place among the new carriers. *)
Lemma replace_wakers sid :
  sid ∈ wakers m' -> exists s, susps m' !! sid = Some s /\
    (live s = true -> exists c', c' ∈ new ++ rest /\ top c' = inr sid).
Proof using All.
  intros Hs. destruct (Hwakers sid Hs) as [Hold|[[s Hs'] (c' & Hc' & Ht)]].
  - destruct (rel_wakers _ _ Hrel sid Hold) as (s & Hss & Hl).
    destruct (decide (sid ∈ K)) as [Hk|Hk].
    { destruct (agree_dead _ _ _ Hagree sid Hk) as (s' & ? & ?). exists s'. split; [done|congruence]. }
    destruct (agree_same _ _ _ Hagree sid s Hss Hk) as (s' & Hss' & Hsame).
    exists s'. split; [done|]. rewrite (same_live _ _ Hsame). intros Hlive.
    destruct (Hl Hlive) as (c' & [->|Hc']%elem_of_cons & Ht).
    + destruct (Htop sid Ht) as [|(c2 & ? & ?)]; [done|]. exists c2. split; [set_solver|done].
    + exists c'. split; [set_solver|done].
  - exists s. split; [done|]. intros _. exists c'. split; [set_solver|done].
Qed.

Lemma replace_gens w x sid :
  waiters m' !! w = Some x -> checkpoint_gen x = Some sid ->
  exists s, susps m' !! sid = Some s /\
    (live s = true -> s_checkpoint s <> None /\ sid ∈ flat_map own (new ++ rest)).
Proof using All.
  intros Hw Hx. rewrite flat_map_app. setoid_rewrite elem_of_app.
  destruct (Hgens w x sid Hw Hx) as [(w0 & x0 & Hw0 & Hx0)|(s & Hs & Hin)].
  - destruct (rel_gens _ _ Hrel w0 x0 sid Hw0 Hx0) as (s & Hss & Hl).
    destruct (decide (sid ∈ K)) as [Hk|Hk].
    { destruct (agree_dead _ _ _ Hagree sid Hk) as (s' & ? & ?). exists s'. split; [done|congruence]. }
    destruct (agree_same _ _ _ Hagree sid s Hss Hk) as (s' & Hss' & Hsame).
    exists s'. split; [done|]. rewrite (same_live _ _ Hsame), (same_checkpoint _ _ Hsame).
    intros Hlive. destruct (Hl Hlive) as [Hc Hin]. split; [done|]. simpl in Hin.
    apply elem_of_app in Hin as [Hin|]; [|by right]. destruct (Hkept sid Hin); [done|by left].
  - exists s. split; [done|]. intros Hl. destruct (Hin Hl). by split; [|left].
Qed.

Lemma related_replace : related m' (new ++ rest).
Proof using All.
  split.
  - apply Forall_app. split; [done|]. pose proof (rel_carries _ _ Hrel) as Hf.
    apply Forall_cons in Hf as [_ Hf]. rewrite Forall_forall in Hf |- *. intros c' Hc'.
    eapply carries_agree; [done|by apply Hf|]. intros k Hk Hin.
    pose proof (rel_nodup _ _ Hrel) as Hn. simpl in Hn. apply NoDup_app in Hn as (_ & Hd & _).
    apply (Hd k (HK k Hk)). apply list_elem_of_In, in_flat_map. exists c'.
    by rewrite <- !list_elem_of_In.
  - by rewrite omap_app.
  - apply replace_nodup.
  - apply replace_wakers.
  - apply replace_gens.
Qed.
End Replace.

(** ** Finding a carrier *)

Lemma related_perm m cs cs' : cs ≡ₚ cs' -> related m cs -> related m cs'.
Proof.
  intros Hp [Hc Hr Hn Hw Hg].
  assert (flat_map own cs ≡ₚ flat_map own cs') as Hown by (by apply Permutation_flat_map).
  split.
  - by rewrite <- Hp.
  - by rewrite <- Hp.
  - by rewrite <- Hown.
  - intros sid Hs. destruct (Hw sid Hs) as (s & Hss & Hl). exists s. split; [done|].
    intros Hlive. destruct (Hl Hlive) as (c & Hin & Ht). exists c. by rewrite <- Hp.
  - intros w x sid Hx Hs. destruct (Hg w x sid Hx Hs) as (s & Hss & Hl). exists s.
    split; [done|]. intros Hlive. destruct (Hl Hlive). by rewrite <- Hown.
Qed.

Lemma related_pick m cs c :
  related m cs -> c ∈ cs -> exists rest, cs ≡ₚ c :: rest /\ related m (c :: rest).
Proof.
  intros Hrel Hc. apply elem_of_Permutation in Hc as [rest Hp].
  exists rest. split; [done|]. by eapply related_perm.
Qed.

Lemma carrier_of_handle m cs i h :
  related m cs -> runq m !! i = Some h ->
  exists l rest,
    let c := mkCar (inl h) l (mkTask ((h_coro h, h_ctx h) :: map snd l) (Some (h_msg h))) in
    cs ≡ₚ c :: rest /\ related m (c :: rest) /\ line (susps m) (h_parent h) l /\
    omap handle_of rest ≡ₚ delete i (runq m).
Proof.
  intros Hrel Hi. assert (h ∈ omap handle_of cs) as Hin
    by (rewrite (rel_runq _ _ Hrel); by eapply list_elem_of_lookup_2).
  apply list_elem_of_omap in Hin as (c & Hc & Hh).
  destruct (related_pick _ _ _ Hrel Hc) as (rest & Hp & Hrel').
  pose proof (rel_carries _ _ Hrel') as Hf. apply Forall_cons in Hf as [Hcar _].
  pose proof (rel_runq _ _ Hrel') as Hq.
  destruct Hcar as [h' l Hl|]; [|done]. simpl in Hh. injection Hh as ->.
  exists l, rest. simpl. split_and!; [done..|]. simpl in Hq.
  rewrite (delete_Permutation _ _ _ Hi) in Hq. by apply Permutation_cons_inv in Hq.
Qed.

(** ** Agreement *)

Lemma same_refl s : same s s.
Proof. by split. Qed.

Lemma agree_app ss more : agree [] ss (ss ++ more).
Proof.
  split; [|set_solver..]. intros sid s Hs _. exists s. split; [|apply same_refl].
  by apply lookup_app_l_Some.
Qed.

Lemma agree_refl ss : agree [] ss ss.
Proof. rewrite <- (app_nil_r ss) at 2. apply agree_app. Qed.

Lemma agree_kill ss sid s s' :
  ss !! sid = Some s -> live s = true -> live s' = false -> agree [sid] ss (<[sid:=s']> ss).
Proof.
  intros Hs Hl Hl'. split.
  - intros k x Hk Hne. exists x. split; [|apply same_refl]. rewrite list_lookup_insert_ne; [done|].
    set_solver.
  - intros k ->%list_elem_of_singleton. eauto.
  - intros k ->%list_elem_of_singleton. exists s'. split; [|done].
    apply list_lookup_insert_eq. by eapply lookup_lt_Some.
Qed.

Lemma agree_insert ss sid s s' :
  ss !! sid = Some s -> same s s' -> agree [] ss (<[sid:=s']> ss).
Proof.
  intros Hs Hsame. split; [|set_solver..]. intros k x Hk _. destruct (decide (k = sid)) as [->|].
  - exists s'. rewrite list_lookup_insert_eq by (by eapply lookup_lt_Some). by simplify_eq.
  - exists x. split; [by rewrite list_lookup_insert_ne|apply same_refl].
Qed.

(** ** The outcomes of [resume] and [error] *)

Lemma resume_cases sid v (m : machine G) s :
  susps m !! sid = Some s ->
  (live s = false /\ resume sid v m = m) \/
  (exists s', same s s' /\ resume sid v m = with_susps (<[sid:=s']> (susps m)) m) \/
  (live s = true /\ exists s' v', live s' = false /\ s_checkpoint s' = s_checkpoint s /\
     (sentinel s = None -> v' = v) /\
     resume sid v m = to_handle s (Send v') (with_susps (<[sid:=s']> (susps m)) m)).
Proof.
  intros Hs. unfold resume. rewrite Hs. unfold live at 1 2.
  destruct (sentinel s) as [[c n]|] eqn:Hsen.
  - destruct (Nat.eqb_spec c 0) as [->|Hc]; [by left|]. right.
    destruct (Nat.eqb_spec c 1) as [->|Hc1].
    + right. split; [done|]. exists (set_counter 0 s), (PList (replicate n PNone)).
      unfold live. simpl. by rewrite Hsen.
    + left. exists (set_counter (c - 1) s). split; [|done]. split; try done; simpl.
      * unfold live. simpl. rewrite Hsen. by destruct c as [|[|c]].
      * by rewrite Hsen.
  - destruct (consumed s) eqn:Hc; [by left|]. do 2 right. split; [done|].
    exists (set_consumed s), v. unfold live. simpl. by rewrite Hsen.
Qed.

Lemma error_cases sid e (m : machine G) s :
  susps m !! sid = Some s ->
  (live s = false /\ error sid e m = m) \/
  (live s = true /\ exists s', live s' = false /\ s_checkpoint s' = s_checkpoint s /\
     error sid e m = to_handle s (Throw e) (with_susps (<[sid:=s']> (susps m)) m)).
Proof.
  intros Hs. unfold error. rewrite Hs. unfold live at 1 2.
  destruct (sentinel s) as [[c n]|] eqn:Hsen.
  - destruct (Nat.eqb_spec c 0) as [->|Hc]; [by left|]. right. split; [done|].
    exists (set_counter 0 s). unfold live. simpl. by rewrite Hsen.
  - destruct (consumed s) eqn:Hc; [by left|]. right. split; [done|].
    exists (set_consumed s). unfold live. simpl. by rewrite Hsen.
Qed.

(** What setting or clearing the reference of a checkpoint does to the references there are. *)
Lemma set_gen_refs w p (m : machine G) w' x sid :
  waiters (set_gen w p m) !! w' = Some x -> checkpoint_gen x = Some sid ->
  p = Some sid \/ exists x0, waiters m !! w' = Some x0 /\ checkpoint_gen x0 = Some sid.
Proof.
  simpl. intros Hw Hx. destruct (decide (w = w')) as [<-|].
  - rewrite list_lookup_alter_eq in Hw. destruct (waiters m !! w) as [y|]; [|done].
    simpl in Hw. simplify_eq/=. by left.
  - rewrite list_lookup_alter_ne in Hw by done. right. eauto.
Qed.

Definition refs (m : machine G) (sid : nat) : Prop :=
  exists w x, waiters m !! w = Some x /\ checkpoint_gen x = Some sid.

Lemma to_handle_refs s x (m : machine G) sid : refs (to_handle s x m) sid -> refs m sid.
Proof.
  intros (w & y & Hw & Hy). unfold to_handle in Hw.
  destruct (is_checkpoint s); [|by exists w, y]. destruct (s_checkpoint s) as [c|]; [|by exists w, y].
  destruct (set_gen_refs c None m w y sid Hw Hy) as [|(x0 & ? & ?)]; [done|by exists w, x0].
Qed.

Lemma to_handle_susps s x (m : machine G) : susps (to_handle s x m) = susps m.
Proof. unfold to_handle. by destruct (is_checkpoint s), (s_checkpoint s). Qed.

Lemma to_handle_coros s x (m : machine G) : coros (to_handle s x m) = coros m.
Proof. unfold to_handle. by destruct (is_checkpoint s), (s_checkpoint s). Qed.

Lemma to_handle_wakers s x (m : machine G) : wakers (to_handle s x m) = wakers m.
Proof. unfold to_handle. by destruct (is_checkpoint s), (s_checkpoint s). Qed.

Lemma to_handle_runq s x (m : machine G) :
  runq (to_handle s x m) = runq m ++ [mkHandle (s_parent s) (s_coro s) (s_ctx s) x].
Proof. unfold to_handle. by destruct (is_checkpoint s), (s_checkpoint s). Qed.

(** ** A suspension is used up

    It belongs to a carrier, of which [keep] is left, and a handle goes on with its line. *)
Section Deliver.
Context (m m1 : machine G) (c : carrier) (rest keep : list carrier).
Context (sid : nat) (s s' : suspension) (l : list (nat * frame)) (x : msg).
Hypothesis Hrel : related m (c :: rest).
Hypothesis Hsid : susps m !! sid = Some s.
Hypothesis Hlive : live s = true.
Hypothesis Hdead : live s' = false.
Hypothesis Hline : line (susps m) (s_parent s) l.
Hypothesis Hown : own c ≡ₚ flat_map own keep ++ sid :: map fst l.
Hypothesis Hkeep : Forall (carries (<[sid:=s']> (susps m))) keep.
Hypothesis Htop : forall k, top c = inr k -> k = sid \/ exists c', c' ∈ keep /\ top c' = inr k.
Hypothesis Hrunq : runq m1 ≡ₚ omap handle_of keep ++ omap handle_of rest.
Hypothesis Hsusps : susps m1 = <[sid:=s']> (susps m).
Hypothesis Hwakers : wakers m1 = wakers m.
Hypothesis Hrefs : forall k, refs m1 k -> refs m k.

Definition goes_on : carrier :=
  mkCar (inl (mkHandle (s_parent s) (s_coro s) (s_ctx s) x)) l
    (mkTask ((s_coro s, s_ctx s) :: map snd l) (Some x)).

Lemma deliver_own : NoDup (flat_map own (keep ++ [goes_on])) /\ sid ∉ map fst l.
Proof using All.
  pose proof (rel_nodup _ _ Hrel) as Hn. simpl in Hn. apply NoDup_app in Hn as (Hn & _ & _).
  rewrite Hown in Hn. apply NoDup_app in Hn as (Hk & Hd & Hs). apply NoDup_cons in Hs as [Hs Hl].
  split; [|done]. rewrite flat_map_app. simpl. rewrite app_nil_r. apply NoDup_app.
  split_and!; [done| |done]. intros k Hin Hin'. apply (Hd k Hin). by right.
Qed.

Lemma related_deliver : related (to_handle s x m1) ((keep ++ [goes_on]) ++ rest).
Proof using All.
  destruct deliver_own as [Hnd Hns].
  pose proof (agree_kill _ _ _ _ Hsid Hlive Hdead) as Hagree.
  assert (forall k, k ∈ own c <-> k ∈ flat_map own keep \/ k = sid \/ k ∈ map fst l) as Hownk
    by (intros k; rewrite Hown, elem_of_app, elem_of_cons; done).
  assert (forall k, k ∈ flat_map own (keep ++ [goes_on]) <-> k ∈ flat_map own keep \/ k ∈ map fst l)
    as Hnewk by (intros k; rewrite flat_map_app; simpl; rewrite app_nil_r, elem_of_app; done).
  eapply (related_replace m _ c rest _ [sid]); try done.
  - by rewrite to_handle_susps, Hsusps.
  - intros k ->%list_elem_of_singleton. apply Hownk. auto.
  - rewrite to_handle_susps, Hsusps. apply Forall_app. split; [done|]. constructor; [|done].
    refine (carries_run _ (mkHandle (s_parent s) (s_coro s) (s_ctx s) x) l _).
    eapply line_agree; [done..|]. by intros k ->%list_elem_of_singleton.
  - rewrite to_handle_runq, Hrunq, omap_app. simpl. solve_Permutation.
  - intros k Hk. apply Hnewk in Hk. left. apply Hownk. tauto.
  - intros k Hk. apply Hownk in Hk. rewrite Hnewk, list_elem_of_singleton. tauto.
  - intros k Hk. destruct (Htop k Hk) as [->|(c' & ? & ?)]; [left; by apply list_elem_of_singleton|].
    right. exists c'. split; [apply elem_of_app; by left|done].
  - intros k. rewrite to_handle_wakers, Hwakers. by left.
  - intros w y k Hw Hy. left. apply Hrefs. apply (to_handle_refs s x). by exists w, y.
Qed.
End Deliver.

(** Cutting a line at one of its suspensions. *)
Lemma line_split ss p l1 sid f l2 :
  line ss p (l1 ++ (sid, f) :: l2) ->
  exists s, ss !! sid = Some s /\ live s = true /\ sentinel s = None /\
    f = (s_coro s, s_ctx s) /\ line ss (s_parent s) l2.
Proof.
  revert p. induction l1 as [|y l1 IH]; intros p Hl; simpl in Hl.
  - inversion Hl; subst. eexists. by split_and!.
  - inversion Hl; subst. eauto.
Qed.

Lemma line_cut ss sid s s' p l1 f l2 :
  line ss p (l1 ++ (sid, f) :: l2) -> sid ∉ map fst l1 ->
  ss !! sid = Some s -> live s = true -> live s' = false ->
  s_checkpoint s' = s_checkpoint s -> s_checkpoint s <> None ->
  line (<[sid:=s']> ss) p l1.
Proof.
  intros Hl Hn Hs Hlive Hdead Hc Hcp. revert p Hl.
  induction l1 as [|[q fq] l1 IH]; intros p Hl; simpl in *.
  - inversion Hl; subst. eapply line_dead; [|done|congruence].
    apply list_lookup_insert_eq. by eapply lookup_lt_Some.
  - apply not_elem_of_cons in Hn as [Hq Hn]. inversion Hl; subst. apply line_live; [|done..|auto].
    by rewrite list_lookup_insert_ne.
Qed.

(** ** The simulation *)

(** No carrier changes. *)
Lemma related_agree (m m' : machine G) cs :
  related m cs -> agree [] (susps m) (susps m') -> runq m' = runq m ->
  (forall sid, sid ∈ wakers m' -> sid ∈ wakers m) -> (forall sid, refs m' sid -> refs m sid) ->
  related m' cs.
Proof.
  intros [Hc Hr Hn Hw Hg] Ha Hq Hwk Hrf. split.
  - eapply Forall_impl; [exact Hc|]. intros c Hcar. eapply carries_agree; [done..|set_solver].
  - by rewrite Hq.
  - done.
  - intros sid Hs. destruct (Hw sid (Hwk sid Hs)) as (s & Hss & Hl).
    destruct (agree_same _ _ _ Ha sid s Hss) as (s' & Hss' & Hsame); [set_solver|].
    exists s'. by rewrite (same_live _ _ Hsame).
  - intros w x sid Hx Hs. destruct (Hrf sid ltac:(by exists w, x)) as (w0 & x0 & Hx0 & Hs0).
    destruct (Hg w0 x0 sid Hx0 Hs0) as (s & Hss & Hl).
    destruct (agree_same _ _ _ Ha sid s Hss) as (s' & Hss' & Hsame); [set_solver|].
    exists s'. by rewrite (same_live _ _ Hsame), (same_checkpoint _ _ Hsame).
Qed.

Definition simulated (m m' : machine G) (A : list G * list task) : Prop :=
  exists A', rtc sstep A A' /\ refines m' A'.

Lemma simulated_none m m' A cs :
  related m' cs -> coros m' = coros m -> A.1 = coros m -> A.2 ≡ₚ map carried cs -> simulated m m' A.
Proof. intros Hrel Hc H1 H2. exists A. split; [done|]. exists cs. by rewrite Hc. Qed.

Lemma simulated_step m m' A cs c rest new :
  cs ≡ₚ c :: rest -> A.1 = coros m -> A.2 ≡ₚ map carried cs -> related m' (new ++ rest) ->
  tstep (coros m) (carried c) (coros m') (map carried new) -> simulated m m' A.
Proof.
  intros Hp H1 H2 Hrel Ht. destruct A as [gs ts]. simpl in *. subst gs.
  exists (coros m', map carried (new ++ rest)). split.
  - apply rtc_once. eapply STask; [|by rewrite map_app|exact Ht].
    by rewrite H2, (Permutation_map _ Hp).
  - by exists (new ++ rest).
Qed.

(** A suspension that waits is resumed or given an exception. *)
Lemma simulated_answer m m' m1 A cs sid s s' x :
  related m cs -> A.1 = coros m -> A.2 ≡ₚ map carried cs ->
  (exists c, c ∈ cs /\ top c = inr sid) ->
  susps m !! sid = Some s -> live s = true -> live s' = false ->
  susps m1 = <[sid:=s']> (susps m) -> runq m1 = runq m -> wakers m1 = wakers m ->
  coros m1 = coros m -> (forall k, refs m1 k -> refs m k) ->
  (exists v, x = Send v) \/ x = Throw CancelledError ->
  m' = to_handle s x m1 -> simulated m m' A.
Proof.
  intros Hrel H1 H2 (c & Hc & Htop) Hs Hlive Hdead Hsu Hq Hwk Hco Hrf Hx ->.
  destruct (related_pick _ _ _ Hrel Hc) as (rest & Hp & Hrel').
  pose proof (rel_carries _ _ Hrel') as Hf. apply Forall_cons in Hf as [Hcar _].
  destruct Hcar as [|sid' s0 l Hs0 _ Hl]; simpl in Htop; [done|]. injection Htop as ->.
  rewrite Hs in Hs0. injection Hs0 as <-.
  eapply (simulated_step m _ A cs _ rest ([] ++ [goes_on s l x])); [done..| |].
  - eapply (related_deliver m m1 _ rest [] sid s s' l x); try done.
    + simpl. intros k [= ->]. by left.
    + rewrite Hq. by rewrite <- (rel_runq _ _ Hrel').
  - rewrite to_handle_coros, Hco. simpl. destruct Hx as [[v ->]| ->]; [apply TWake|apply TCancel].
Qed.

Lemma simulated_wake m A sid v : refines m A -> sid ∈ wakers m -> simulated m (resume sid v m) A.
Proof.
  intros (cs & Hrel & H1 & H2) Hsid. destruct (rel_wakers _ _ Hrel sid Hsid) as (s & Hs & Hcar).
  destruct (resume_cases sid v m s Hs)
    as [[_ ->]|[(s' & Hsame & ->)|(Hlive & s' & v' & Hd & Hc & _ & Hr)]].
  - by eapply simulated_none.
  - eapply simulated_none; [|done..]. eapply related_agree; [done|by eapply agree_insert|done..].
  - eapply (simulated_answer m _ (with_susps (<[sid:=s']> (susps m)) m) A cs sid s s' (Send v'));
      try done; [by apply Hcar|by left; exists v'].
Qed.

Lemma refs_aborted (m : machine G) w x sid :
  waiters m !! w = Some x ->
  refs (with_waiters (<[w:=set_aborted x]> (waiters m)) m) sid -> refs m sid.
Proof.
  intros Hw (w' & y & Hy & Hsid). simpl in Hy. destruct (decide (w' = w)) as [->|].
  - rewrite list_lookup_insert_eq in Hy by (by eapply lookup_lt_Some). injection Hy as <-.
    by exists w, x.
  - rewrite list_lookup_insert_ne in Hy by done. by exists w', y.
Qed.

(** A caller's suspension is given an exception: the generators above it are left to themselves. *)
Lemma simulated_unwind m m' m1 A cs c sid f l1 l2 s s' :
  related m cs -> A.1 = coros m -> A.2 ≡ₚ map carried cs ->
  c ∈ cs -> above c = l1 ++ (sid, f) :: l2 ->
  susps m !! sid = Some s -> live s = true -> live s' = false ->
  s_checkpoint s' = s_checkpoint s -> s_checkpoint s <> None ->
  susps m1 = <[sid:=s']> (susps m) -> runq m1 = runq m -> wakers m1 = wakers m ->
  coros m1 = coros m -> (forall k, refs m1 k -> refs m k) ->
  m' = to_handle s (Throw CancelledError) m1 -> simulated m m' A.
Proof.
  intros Hrel H1 H2 Hc Hab Hs Hlive Hdead Hck Hcp Hsu Hq Hwk Hco Hrf ->.
  destruct (related_pick _ _ _ Hrel Hc) as (rest & Hp & Hrel').
  pose proof (rel_carries _ _ Hrel') as Hf. apply Forall_cons in Hf as [Hcar _].
  pose proof (rel_nodup _ _ Hrel') as Hn. simpl in Hn. apply NoDup_app in Hn as (Hn & _ & _).
  destruct c as [tp ab tk]. simpl in Hab. subst ab. unfold own in Hn. simpl in Hn.
  assert (exists f0 p, line (susps m) p (l1 ++ (sid, f) :: l2) /\
    tk = mkTask (f0 :: map snd (l1 ++ (sid, f) :: l2)) (status tk) /\
    carries (<[sid:=s']> (susps m)) (mkCar tp l1 (mkTask (f0 :: map snd l1) (status tk))))
    as (f0 & p & Hl & Htk & Hkeep).
  { rewrite map_app in Hn. simpl in Hn.
    inversion Hcar as [h l Hl|sid0 s0 l Hs0 Hl0 Hl]; subst; simpl; simpl in Hn.
    - exists (h_coro h, h_ctx h), (h_parent h). split_and!; [done..|]. constructor.
      eapply line_cut; [done| |done..]. apply NoDup_app in Hn as (_ & Hd & _).
      intros Hin. apply (Hd sid Hin). by left.
    - exists (s_coro s0, s_ctx s0), (s_parent s0). split_and!; [done..|].
      apply NoDup_cons in Hn as [Hne Hn]. apply NoDup_app in Hn as (_ & Hd & _).
      econstructor; [|done|].
      + rewrite list_lookup_insert_ne; [done|]. intros ->. apply Hne. apply elem_of_app.
        right. by left.
      + eapply line_cut; [done| |done..]. intros Hin. apply (Hd sid Hin). by left. }
  destruct (line_split _ _ _ _ _ _ Hl) as (s0 & Hs0 & _ & _ & Hf & Hl2).
  rewrite Hs in Hs0. injection Hs0 as <-. subst f.
  set (keep := mkCar tp l1 (mkTask (f0 :: map snd l1) (status tk))) in *.
  eapply (simulated_step m _ A cs _ rest ([keep] ++ [goes_on s l2 (Throw CancelledError)]));
    [done..| |].
  - eapply (related_deliver m m1 _ rest [keep] sid s s' l2 _); try done.
    + unfold own. simpl. rewrite map_app, app_nil_r. simpl. by rewrite <- app_assoc.
    + by constructor.
    + simpl. intros k Hk. right. exists keep. split; [by left|done].
    + rewrite Hq, <- (rel_runq _ _ Hrel'). by destruct tp.
  - rewrite to_handle_coros, Hco. simpl. rewrite Htk, map_app. simpl.
    apply (TUnwind _ (f0 :: map snd l1)); done.
Qed.

Lemma simulated_abort m A w : refines m A -> simulated m (abort_pygen w m) A.
Proof.
  intros (cs & Hrel & H1 & H2). unfold abort_pygen.
  destruct (waiters m !! w) as [x|] eqn:Hw; [|by eapply simulated_none].
  destruct (aborted x); [by eapply simulated_none|].
  set (m1 := with_waiters (<[w:=set_aborted x]> (waiters m)) m).
  pose proof (fun sid => refs_aborted m w x sid Hw) as Hrf. fold m1 in Hrf.
  assert (related m1 cs) as Hrel1.
  { eapply related_agree; [done|apply agree_refl|done..]. }
  destruct (checkpoint_gen x) as [sid|] eqn:Hx; [|by eapply simulated_none].
  destruct (rel_gens _ _ Hrel w x sid Hw Hx) as (s & Hs & Hl).
  destruct (error_cases sid CancelledError m1 s Hs) as [[_ ->]|(Hlive & s' & Hd & Hc & Hr)];
    [by eapply simulated_none|].
  destruct (Hl Hlive) as [Hcp Hin].
  apply list_elem_of_In, in_flat_map in Hin as (c & Hin%list_elem_of_In & Hown%list_elem_of_In).
  unfold own in Hown. apply elem_of_app in Hown as [Htop|Hab].
  - eapply (simulated_answer m _ (with_susps (<[sid:=s']> (susps m1)) m1) A cs sid s s');
      try done; [|by right].
    exists c. split; [done|]. destruct (top c); [by apply not_elem_of_nil in Htop|].
    by apply list_elem_of_singleton in Htop as ->.
  - apply list_elem_of_fmap in Hab as ([k f] & Hk & Hin2). simpl in Hk. subst k.
    apply list_elem_of_split in Hin2 as (l1 & l2 & Hab).
    by eapply (simulated_unwind m _ (with_susps (<[sid:=s']> (susps m1)) m1) A cs c sid f l1 l2 s s').
Qed.

(** ** Running a handle *)

Section Call.
Context (m : machine G) (i : nat) (h : handle) (g : G) (l : list (nat * frame)).
Context (rest : list carrier).

Definition running : carrier :=
  mkCar (inl h) l (mkTask ((h_coro h, h_ctx h) :: map snd l) (Some (h_msg h))).

Hypothesis Hrel : related m (running :: rest).
Hypothesis Hline : line (susps m) (h_parent h) l.
Hypothesis Hrest : omap handle_of rest ≡ₚ delete i (runq m).
Hypothesis Hg : coros m !! h_coro h = Some g.

(** The machine while the generator runs, which becomes [gs]. *)
Definition left_queue (gs : list G) : machine G :=
  mkMachine gs (susps m) (waiters m) (wakers m) (delete i (runq m)).

Lemma line_nodup : NoDup (map fst l).
Proof using All.
  pose proof (rel_nodup _ _ Hrel) as Hn. simpl in Hn. by apply NoDup_app in Hn as (Hn & _ & _).
Qed.

(** It goes on by itself. *)
Lemma related_requeue gs x :
  related (add_handle (mkHandle (h_parent h) (h_coro h) (h_ctx h) x) (left_queue gs))
    ([mkCar (inl (mkHandle (h_parent h) (h_coro h) (h_ctx h) x)) l
        (mkTask ((h_coro h, h_ctx h) :: map snd l) (Some x))] ++ rest).
Proof using All.
  eapply (related_replace m _ running rest _ []); try done.
  - apply agree_refl.
  - set_solver.
  - constructor; [|done].
    by apply (carries_run (susps m) (mkHandle (h_parent h) (h_coro h) (h_ctx h) x)).
  - simpl. rewrite Hrest. solve_Permutation.
  - simpl. rewrite app_nil_r. apply line_nodup.
  - simpl. rewrite app_nil_r. by left.
  - simpl. rewrite app_nil_r. by right.
  - by left.
  - intros w x0 sid Hw Hx. left. by exists w, x0.
Qed.

(** Its outcome goes to its caller. *)
Lemma related_finish_gone : l = [] -> related (left_queue (coros m)) ([] ++ rest).
Proof using All.
  intros Hnil. eapply (related_replace m _ running rest [] []); try done.
  - apply agree_refl.
  - set_solver.
  - simpl. constructor.
  - simpl. set_solver.
  - unfold own. simpl. rewrite Hnil. set_solver.
  - by left.
  - intros w x0 sid Hw Hx. left. by exists w, x0.
Qed.

Lemma related_finish p f l' s s' x :
  l = (p, f) :: l' -> susps m !! p = Some s -> live s = true -> live s' = false ->
  line (susps m) (s_parent s) l' ->
  related (to_handle s x (with_susps (<[p:=s']> (susps m)) (left_queue (coros m))))
    ([goes_on s l' x] ++ rest).
Proof using All.
  intros Hcons Hp Hlive Hdead Hl'.
  eapply (related_deliver m (with_susps (<[p:=s']> (susps m)) (left_queue (coros m))) running
            rest [] p s s' l' x); try done.
  unfold own. simpl. by rewrite Hcons.
Qed.
End Call.

(** A caller is resumed or given an exception: at most once. *)
Definition hand_to (sid : nat) (x : msg) (m : machine G) : machine G :=
  match x with Send v => resume sid v m | Throw e => error sid e m end.

Lemma hand_to_dead sid x m s : susps m !! sid = Some s -> live s = false -> hand_to sid x m = m.
Proof.
  intros Hs Hd. unfold live in Hd.
  destruct x; simpl; unfold resume, error; rewrite Hs; destruct (sentinel s) as [[c n]|];
    apply negb_false_iff in Hd; by rewrite Hd.
Qed.

Lemma hand_to_live sid x m s :
  susps m !! sid = Some s -> live s = true -> sentinel s = None ->
  hand_to sid x m = to_handle s x (with_susps (<[sid:=set_consumed s]> (susps m)) m).
Proof.
  intros Hs Hl Hsen. unfold live in Hl. rewrite Hsen in Hl. apply negb_true_iff in Hl.
  destruct x; simpl; unfold resume, error; by rewrite Hs, Hsen, Hl.
Qed.

Lemma simulated_outcome m A cs i h g x :
  related m cs -> A.1 = coros m -> A.2 ≡ₚ map carried cs ->
  runq m !! i = Some h -> coros m !! h_coro h = Some g ->
  (exists v, run g (h_msg h) = Returned v /\ x = Send v) \/
  (exists e, run g (h_msg h) = Raised e /\ x = Throw e) ->
  simulated m
    (match h_parent h with
     | Some sid => hand_to sid x (left_queue m i (coros m))
     | None => left_queue m i (coros m)
     end) A.
Proof.
  intros Hrel H1 H2 Hi Hg Hout.
  destruct (carrier_of_handle _ _ _ _ Hrel Hi) as (l & rest & Hp & Hrel' & Hl & Hrest).
  assert (tstep (coros m) (mkTask ((h_coro h, h_ctx h) :: map snd l) (Some (h_msg h))) (coros m)
            (deliver (map snd l) x)) as Ht.
  { destruct Hout as [(v & Hr & ->)|(e & Hr & ->)]; [by eapply TReturn|by eapply TRaise]. }
  assert (l = [] -> simulated m (left_queue m i (coros m)) A) as Hgone.
  { intros Hnil. eapply (simulated_step m _ A cs _ rest []); [done..| |by subst].
    by apply (related_finish_gone m i h g l rest). }
  inversion Hl as [Hpar|p s Hs Hd Hc Hpar|p s l' Hs Hlive Hsen Hl' Hpar]; subst.
  - by apply Hgone.
  - rewrite (hand_to_dead _ _ _ s) by done. by apply Hgone.
  - rewrite (hand_to_live _ _ _ s) by done.
    eapply (simulated_step m _ A cs _ rest [goes_on s l' x]); [done..| |].
    + eapply (related_finish m i h g _ rest); try done. unfold live. simpl. by rewrite Hsen.
    + by rewrite to_handle_coros.
Qed.

Lemma simulated_step2 m m' A cs c rest new gs t1 :
  cs ≡ₚ c :: rest -> A.1 = coros m -> A.2 ≡ₚ map carried cs -> related m' (new ++ rest) ->
  tstep (coros m) (carried c) gs [t1] -> tstep gs t1 (coros m') (map carried new) ->
  simulated m m' A.
Proof.
  intros Hp H1 H2 Hrel Ht1 Ht2. destruct A as [gs0 ts]. simpl in *. subst gs0.
  exists (coros m', map carried (new ++ rest)). split; [|by exists (new ++ rest)].
  apply (rtc_l _ _ (gs, t1 :: map carried rest)); [|apply rtc_once].
  - apply (STask _ _ (carried c) (map carried rest) [t1]); [|done|exact Ht1].
    by rewrite H2, (Permutation_map _ Hp).
  - apply (STask _ _ t1 (map carried rest) (map carried new)); [done|by rewrite map_app|exact Ht2].
Qed.

(** What [from_handle] changes. *)
Lemma from_handle_spec coro ctx p (m : machine G) :
  let m' := from_handle coro ctx p m in
  susps m' = susps m ++ [from_gen coro ctx p None (checkpoint_of m p)] /\
  coros m' = coros m /\ wakers m' = wakers m /\ runq m' = runq m /\
  forall sid, refs m' sid -> refs m sid \/
    (p = Some sid /\ exists s, susps m !! sid = Some s /\ s_checkpoint s <> None).
Proof.
  unfold from_handle. destruct p as [p|]; [|by split_and!; auto].
  destruct (susps m !! p) as [s|] eqn:Hs; [|by split_and!; auto].
  destruct (is_checkpoint s); [|by split_and!; auto].
  destruct (s_checkpoint s) as [w|] eqn:Hc; [|by split_and!; auto].
  simpl. split_and!; try done. intros sid (w' & x & Hw & Hx).
  destruct (set_gen_refs w (Some p) m w' x sid Hw Hx) as [[= ->]|(x0 & ? & ?)].
  - right. split; [done|]. exists s. by rewrite Hc.
  - left. by exists w', x0.
Qed.

(** The waiter is marked; what it refers to stays. *)
Lemma refs_registered w x (m1 : machine G) sid :
  waiters m1 !! w = Some x -> refs (with_waiters (<[w:=set_registered x]> (waiters m1)) m1) sid ->
  refs m1 sid.
Proof.
  intros Hw (w' & y & Hy & Hsid). simpl in Hy. destruct (decide (w' = w)) as [->|].
  - rewrite list_lookup_insert_eq in Hy by (by eapply lookup_lt_Some). injection Hy as <-.
    by exists w, x.
  - rewrite list_lookup_insert_ne in Hy by done. by exists w', y.
Qed.

(** ** Yielding *)

Section Yield.
Context (m : machine G) (A : list G * list task) (cs rest : list carrier).
Context (i : nat) (h : handle) (g g' : G) (l : list (nat * frame)).
Hypothesis H1 : A.1 = coros m.
Hypothesis H2 : A.2 ≡ₚ map carried cs.
Hypothesis Hp : cs ≡ₚ running h l :: rest.
Hypothesis Hrel : related m (running h l :: rest).
Hypothesis Hline : line (susps m) (h_parent h) l.
Hypothesis Hrest : omap handle_of rest ≡ₚ delete i (runq m).
Hypothesis Hg : coros m !! h_coro h = Some g.

Abbreviation gs' := (<[h_coro h:=g']> (coros m)).
Abbreviation m0 := (left_queue m i gs').

Lemma line_below sid : sid ∈ map fst l -> sid < length (susps m).
Proof using All. by apply line_bound with (h_parent h). Qed.

(** The carrier of a task whose top generator was left in a new suspension. *)
Lemma fresh_nodup : NoDup (length (susps m) :: map fst l).
Proof using All.
  constructor; [|by apply (line_nodup m i h g l rest)].
  intros Hin. pose proof (line_below _ Hin). lia.
Qed.

Lemma simulated_pause :
  run g (h_msg h) = Yielded YNone g' ->
  simulated m (add_handle (mkHandle (h_parent h) (h_coro h) (h_ctx h) (again (h_msg h))) m0) A.
Proof using All.
  intros Hr. eapply (simulated_step m _ A cs _ rest [_]); [done..| |].
  - by apply (related_requeue m i h g l rest).
  - simpl. by eapply TPause.
Qed.

(** A new suspension of the generator that ran, below its caller's line. *)
Lemma line_call (ss : list suspension) cp :
  ss = susps m ++ [from_gen (h_coro h) (h_ctx h) (h_parent h) None cp] ->
  line ss (Some (length (susps m))) ((length (susps m), (h_coro h, h_ctx h)) :: l).
Proof using All.
  intros ->. apply (line_live _ _ (from_gen (h_coro h) (h_ctx h) (h_parent h) None cp)); try done.
  - by apply list_lookup_middle.
  - eapply line_agree; [apply agree_app|done|set_solver].
Qed.

(** The reference a checkpoint is given to the caller's suspension. *)
Lemma parent_ref p s ss more :
  h_parent h = Some p -> susps m !! p = Some s -> s_checkpoint s <> None -> ss = susps m ++ more ->
  exists s0, ss !! p = Some s0 /\ (live s0 = true -> s_checkpoint s0 <> None /\ p ∈ map fst l).
Proof using All.
  intros Hpar Hs Hc ->. exists s. split; [by apply lookup_app_l_Some|]. intros Hlive. split; [done|].
  rewrite Hpar in Hline. inversion Hline as [|p' s' Hs' Hd|p' s' l' Hs' Hl']; subst.
  - congruence.
  - by left.
Qed.

Lemma simulated_call g2 :
  run g (h_msg h) = Yielded (YGen g2) g' ->
  let m1 := from_handle (h_coro h) (h_ctx h) (h_parent h) m0 in
  simulated m
    (add_handle (mkHandle (Some (length (susps m))) (length (coros m1)) (h_ctx h) (Send PNone))
       (with_coros (coros m1 ++ [g2]) m1)) A.
Proof using All.
  intros Hr m1. pose proof (from_handle_spec (h_coro h) (h_ctx h) (h_parent h) m0) as Hspec.
  fold m1 in Hspec. clearbody m1. simpl in Hspec. destruct Hspec as (Hsu & Hco & Hwk & Hrq & Hrf).
  pose proof (line_call _ _ Hsu) as Hl. rewrite Hco, length_insert.
  set (h' := mkHandle (Some (length (susps m))) (length (coros m)) (h_ctx h) (Send PNone)).
  set (l' := (length (susps m), (h_coro h, h_ctx h)) :: l).
  eapply (simulated_step m _ A cs _ rest
            [mkCar (inl h') l' (mkTask ((h_coro h', h_ctx h') :: map snd l') (Some (Send PNone)))]);
    [done..| |simpl; by eapply TCall].
  eapply (related_replace m _ (running h l) rest _ []); try done.
  - simpl. rewrite Hsu. apply agree_app.
  - set_solver.
  - constructor; [|done]. by apply (carries_run _ h').
  - simpl. rewrite Hrq, Hrest. solve_Permutation.
  - simpl. rewrite app_nil_r. apply fresh_nodup.
  - simpl. rewrite app_nil_r. intros sid [->|Hin]%elem_of_cons; [by right|by left].
  - simpl. rewrite app_nil_r. intros sid Hin. right. by right.
  - simpl. rewrite Hwk. by left.
  - intros w x sid Hw Hx. destruct (Hrf sid) as [|[Hpar (s & Hs & Hc)]]; [by exists w, x|by left|].
    right. destruct (parent_ref sid s (susps m1) _ Hpar Hs Hc Hsu) as (s0 & Hs0 & Hl0).
    exists s0. split; [done|]. intros Hlive. destruct (Hl0 Hlive) as [Hc0 Hin]. split; [done|].
    simpl. rewrite app_nil_r. by right.
Qed.

(** A wait: the generator is left in a suspension the events hold. *)
Lemma simulated_wait w x :
  run g (h_msg h) = Yielded (YWaiter w) g' -> waiters m !! w = Some x ->
  let m1 := with_waiters (<[w:=set_registered x]> (waiters m)) m0 in
  let cp := checkpoint_of m1 (h_parent h) in
  let m2 := with_susps (susps m1 ++ [from_gen (h_coro h) (h_ctx h) (h_parent h)
                                       (build_sentinel (nevents x)) cp]) m1 in
  let m3 := match cp with Some c => set_gen c (Some (length (susps m1))) m2 | None => m2 end in
  simulated m (with_wakers (wakers m3 ++ [length (susps m1)]) m3) A.
Proof using All.
  intros Hr Hw m1 cp m2 m3.
  assert (susps m3 = susps m ++ [from_gen (h_coro h) (h_ctx h) (h_parent h)
            (build_sentinel (nevents x)) cp] /\ coros m3 = gs' /\ wakers m3 = wakers m /\
          runq m3 = delete i (runq m)) as (Hsu & Hco & Hwk & Hrq)
    by (unfold m3; by destruct cp).
  set (s := from_gen (h_coro h) (h_ctx h) (h_parent h) (build_sentinel (nevents x)) cp) in *.
  assert (susps m3 !! length (susps m) = Some s) as Hs by (rewrite Hsu; by apply list_lookup_middle).
  assert (live s = true) as Hlive by (unfold live; simpl; by destruct (nevents x) as [|[|n]]).
  eapply (simulated_step m _ A cs _ rest
            [mkCar (inr (length (susps m))) l (mkTask ((s_coro s, s_ctx s) :: map snd l) None)]);
    [done..| |simpl; rewrite Hco; by eapply TWait].
  eapply (related_replace m _ (running h l) rest _ []); try done.
  - simpl. rewrite Hsu. apply agree_app.
  - set_solver.
  - constructor; [|done]. apply carries_wait; [done..|].
    simpl. rewrite Hsu. eapply line_agree; [apply agree_app|done|set_solver].
  - simpl. by rewrite Hrq, Hrest.
  - simpl. rewrite app_nil_r. apply fresh_nodup.
  - simpl. rewrite app_nil_r. intros sid [->|Hin]%elem_of_cons; [by right|by left].
  - simpl. rewrite app_nil_r. intros sid Hin. right. by right.
  - simpl. rewrite Hwk. intros sid [|Hin%list_elem_of_singleton]%elem_of_app; [by left|].
    right. subst sid. split; [by exists s|]. eexists. split; [by left|done].
  - intros w' y sid Hw' Hy. change (waiters m3 !! w' = Some y) in Hw'.
    assert (refs m3 sid) as Hrf by (by exists w', y).
    assert (refs m sid \/ (sid = length (susps m) /\ cp <> None)) as [Hold|[-> Hcp]].
    { unfold m3 in Hrf. destruct cp as [c|] eqn:Hcp.
      - destruct Hrf as (w0 & y0 & Hy0 & Hsid).
        destruct (set_gen_refs _ _ _ _ _ _ Hy0 Hsid) as [[= <-]|(y1 & Hy1 & Hsid1)]; [by right|].
        left. apply (refs_registered w x m0 sid Hw). by exists w0, y1.
      - left. by apply (refs_registered w x m0 sid Hw). }
    + by left.
    + right. exists s. split; [done|]. intros _. split; [done|]. simpl. by left.
Qed.

(** A checkpoint is answered at once: the generator goes on, or is cancelled.  The first one above
    a generator puts a copy of its caller's suspension in the place of the original. *)
Lemma simulated_checkpoint w x p s y :
  run g (h_msg h) = Yielded (YWaiter w) g' -> waiters m !! w = Some x ->
  h_parent h = Some p -> susps m !! p = Some s -> s_checkpoint s = None ->
  y = Send PNone \/ y = Throw CancelledError ->
  let m1 := with_waiters (<[w:=set_registered x]> (waiters m)) m0 in
  simulated m (hand_to (S (length (susps m))) y (from_checkpoint (h_coro h) (h_ctx h) p s w m1)) A.
Proof using All.
  intros Hr Hw Hpar Hs Hcp Hy m1. set (n := length (susps m)).
  set (copy := mkSusp (s_parent s) (s_coro s) (s_ctx s) false true None (Some w)).
  set (inner := mkSusp (Some n) (h_coro h) (h_ctx h) false false None None).
  rewrite Hpar in Hline. inversion Hline as [|p' s' Hs' Hd Hc'|p' s' l' Hs' Hlive Hsen Hl']; subst;
    rewrite Hs in Hs'; injection Hs' as <-; [done|].
  set (ss := <[p:=set_consumed s]> (susps m) ++ [copy; inner]).
  assert (ss !! S n = Some inner) as Hin.
  { unfold ss. rewrite lookup_app_r by (rewrite length_insert; lia). rewrite length_insert.
    by replace (S n - length (susps m)) with 1 by lia. }
  rewrite (hand_to_live _ _ _ inner) by done.
  set (m3 := with_susps (<[S n:=set_consumed inner]> ss) m1).
  change (simulated m (to_handle inner y m3) A).
  assert (<[S n:=set_consumed inner]> ss
          = <[p:=set_consumed s]> (susps m) ++ [copy; set_consumed inner]) as Hss.
  { unfold ss. rewrite insert_app_r_alt by (rewrite length_insert; lia). rewrite length_insert.
    by replace (S n - length (susps m)) with 1 by lia. }
  assert (live (set_consumed s) = false) as Hdead by (unfold live; simpl; by rewrite Hsen).
  assert (agree [p] (susps m) (susps m3)) as Hagree.
  { simpl. rewrite Hss. pose proof (agree_kill _ _ _ _ Hs Hlive Hdead) as [Ka Kw Kd].
    split; [|done|].
    - intros sid s0 H0 Hk. destruct (Ka sid s0 H0 Hk) as (s1 & ? & ?). exists s1.
      split; [by apply lookup_app_l_Some|done].
    - intros k Hk. destruct (Kd k Hk) as (s1 & ? & ?). exists s1.
      split; [by apply lookup_app_l_Some|done]. }
  set (h' := mkHandle (Some n) (h_coro h) (h_ctx h) y).
  set (lc := (n, (s_coro s, s_ctx s)) :: l').
  pose proof (rel_nodup _ _ Hrel) as Hnd. simpl in Hnd. apply NoDup_cons in Hnd as [Hpl Hnd].
  apply NoDup_app in Hnd as (Hnd & _ & _). rewrite not_elem_of_app in Hpl. destruct Hpl as [Hpl _].
  assert (forall k, k ∈ map fst l' -> k < n) as Hlt by (intros k; by apply (line_bound _ _ _ k Hl')).
  eapply (simulated_step2 m _ A cs _ rest
            [mkCar (inl h') lc (mkTask ((h_coro h, h_ctx h) :: map snd lc) (Some y))]);
    [done..| |by eapply TWait|].
  2: { simpl. destruct Hy as [-> | ->]; [apply TWake|apply TCancel]. }
  eapply (related_replace m _ (running h ((p, (s_coro s, s_ctx s)) :: l')) rest _ [p]); try done.
  - intros k ->%list_elem_of_singleton. by left.
  - constructor; [|done]. apply (carries_run _ h'). simpl. rewrite Hss. unfold lc.
    apply (line_live _ _ copy); try done.
    + rewrite lookup_app_r by (rewrite length_insert; lia). by rewrite length_insert, Nat.sub_diag.
    + rewrite <- Hss. eapply line_agree; [done..|]. by intros k ->%list_elem_of_singleton.
  - simpl. rewrite Hrest. solve_Permutation.
  - simpl. rewrite app_nil_r. constructor; [|done]. intros Hk%Hlt. lia.
  - simpl. rewrite app_nil_r. intros k [->|Hk]%elem_of_cons; [by right|]. left. by right.
  - simpl. rewrite app_nil_r. intros k [->|Hk]%elem_of_cons; [left; by left|]. right. by right.
  - by left.
  - intros w' z sid Hw' Hz. left. apply (refs_registered w x m0 sid Hw). by exists w', z.
Qed.

Lemma simulated_nested_checkpoint w x p s c y :
  run g (h_msg h) = Yielded (YWaiter w) g' -> waiters m !! w = Some x ->
  h_parent h = Some p -> susps m !! p = Some s -> s_checkpoint s = Some c ->
  y = Send PNone \/ y = Throw CancelledError ->
  let m1 := with_waiters (<[w:=set_registered x]> (waiters m)) m0 in
  let m2 := match waiters m1 !! c with Some z => set_gen w (checkpoint_gen z) m1 | None => m1 end in
  simulated m
    (hand_to (length (susps m)) y
       (with_susps (susps m2 ++ [from_gen (h_coro h) (h_ctx h) (h_parent h) None (Some c)]) m2)) A.
Proof using All.
  intros Hr Hw Hpar Hs Hcp Hy m1 m2.
  assert (susps m2 = susps m /\ coros m2 = gs' /\ wakers m2 = wakers m /\
          runq m2 = delete i (runq m)) as (Hsu & Hco & Hwk & Hrq)
    by (unfold m2; by destruct (waiters m1 !! c)).
  assert (forall sid, refs m2 sid -> refs m sid) as Hrf.
  { intros sid Hsid. apply (refs_registered w x m0 sid Hw). fold m1. unfold m2 in Hsid.
    destruct (waiters m1 !! c) as [z|] eqn:Hz; [|done]. destruct Hsid as (w' & z' & Hz' & Hsid).
    destruct (set_gen_refs _ _ _ _ _ _ Hz' Hsid) as [Hgen|(z0 & Hz0 & Hsid0)];
      [by exists c, z|by exists w', z0]. }
  clearbody m2. set (inner := from_gen (h_coro h) (h_ctx h) (h_parent h) None (Some c)).
  rewrite Hsu, (hand_to_live _ _ _ inner) by (simpl; done || by apply list_lookup_middle).
  set (h' := mkHandle (h_parent h) (h_coro h) (h_ctx h) y).
  eapply (simulated_step2 m _ A cs _ rest
            [mkCar (inl h') l (mkTask ((h_coro h, h_ctx h) :: map snd l) (Some y))]);
    [done..| |by eapply TWait|].
  2: { simpl. rewrite Hco. destruct Hy as [-> | ->]; [apply TWake|apply TCancel]. }
  assert (agree [] (susps m) (<[length (susps m):=set_consumed inner]> (susps m ++ [inner]))) as Ha
    by (rewrite <- (Nat.add_0_r (length (susps m))), insert_app_r; apply agree_app).
  eapply (related_replace m _ (running h l) rest _ []); try done.
  - set_solver.
  - constructor; [|done]. apply (carries_run _ h'). simpl.
    eapply line_agree; [exact Ha|done|set_solver].
  - simpl. rewrite Hrq, Hrest. solve_Permutation.
  - simpl. rewrite app_nil_r. by apply (line_nodup m i h g l rest).
  - simpl. rewrite app_nil_r. by left.
  - simpl. rewrite app_nil_r. by right.
  - simpl. rewrite Hwk. by left.
  - intros w' z sid Hw' Hz. left. apply Hrf. by exists w', z.
Qed.

End Yield.

Lemma simulated_register m A cs rest i h g g' l w m' :
  A.1 = coros m -> A.2 ≡ₚ map carried cs -> cs ≡ₚ running h l :: rest ->
  related m (running h l :: rest) -> line (susps m) (h_parent h) l ->
  omap handle_of rest ≡ₚ delete i (runq m) -> coros m !! h_coro h = Some g ->
  run g (h_msg h) = Yielded (YWaiter w) g' ->
  register_pygen w (h_coro h) (h_ctx h) (h_parent h)
    (left_queue m i (<[h_coro h:=g']> (coros m))) = Some m' -> simulated m m' A.
Proof.
  intros H1 H2 Hp Hrel Hl Hrest Hg Hr Hreg. unfold register_pygen in Hreg. simpl in Hreg.
  destruct (waiters m !! w) as [x|] eqn:Hw; [|done]. destruct (registered x); [done|].
  destruct (nevents x =? 0); [|injection Hreg as <-; by eapply simulated_wait].
  destruct (h_parent h) as [p|] eqn:Hpar; [|done].
  destruct (susps m !! p) as [s|] eqn:Hs; [|done]. injection Hreg as <-.
  set (y := if aborted x then Throw CancelledError else Send PNone).
  assert (y = Send PNone \/ y = Throw CancelledError) as Hy
    by (unfold y; destruct (aborted x); auto).
  assert (forall sid m, (if aborted x then error sid CancelledError m else resume sid PNone m)
            = hand_to sid y m) as Hhand by (intros; unfold y; by destruct (aborted x)).
  rewrite Hhand. destruct (s_checkpoint s) as [c|] eqn:Hc.
  - rewrite <- Hpar in *.
    replace (pred _) with (length (susps m)).
    + by eapply simulated_nested_checkpoint.
    + simpl. destruct (_ !! c); simpl; rewrite length_app; simpl; lia.
  - rewrite <- Hpar in Hl.
    replace (pred _) with (S (length (susps m)))
      by (simpl; rewrite length_app, length_insert; simpl; lia).
    by eapply simulated_checkpoint.
Qed.

Lemma simulated_run m A i m' : refines m A -> call run i m = Some m' -> simulated m m' A.
Proof.
  intros (cs & Hrel & H1 & H2) Hcall. unfold call in Hcall.
  destruct (runq m !! i) as [h|] eqn:Hi; [|done]. destruct (coros m !! h_coro h) as [g|] eqn:Hg; [|done].
  destruct (run g (h_msg h)) as [y g'|v|e] eqn:Hr.
  - destruct (carrier_of_handle _ _ _ _ Hrel Hi) as (l & rest & Hp & Hrel' & Hl & Hrest).
    destruct y as [|g2|w|]; [| | |done].
    + injection Hcall as <-. by eapply (simulated_pause m A cs rest i h g g' l).
    + injection Hcall as <-. by eapply (simulated_call m A cs rest i h g g' l).
    + by eapply (simulated_register m A cs rest i h g g' l).
  - injection Hcall as <-.
    by apply (simulated_outcome m A cs i h g (Send v)); [..|left; exists v].
  - injection Hcall as <-.
    by apply (simulated_outcome m A cs i h g (Throw e)); [..|right; exists e].
Qed.

(** The relation is a simulation. *)
Lemma handles_simulate m A m' : refines m A -> mstep run m m' -> simulated m m' A.
Proof.
  intros Href Hstep. destruct Hstep as [i m' Hcall|sid v Hsid|w|g ctx|n].
  - by eapply simulated_run.
  - by apply simulated_wake.
  - by apply simulated_abort.
  - destruct Href as (cs & [Hc Hr Hn Hw Hg] & H1 & H2). destruct A as [gs ts]. simpl in *. subst gs.
    set (h := mkHandle None (length (coros m)) ctx (Send PNone)).
    set (c := mkCar (inl h) [] (mkTask [(length (coros m), ctx)] (Some (Send PNone)))).
    exists (coros m ++ [g], map carried (c :: cs)). split.
    { apply rtc_once, (SSpawn (coros m) g ctx ts). by rewrite H2. }
    exists (c :: cs). split_and!; [|done..]. split; simpl; try done.
    + constructor; [|done]. apply (carries_run _ h). constructor.
    + rewrite Hr. solve_Permutation.
    + intros sid Hs. destruct (Hw sid Hs) as (s & Hss & Hl). exists s. split; [done|].
      intros Hlive. destruct (Hl Hlive) as (c' & ? & ?). exists c'. split; [by right|done].
  - destruct Href as (cs & Hrel & H1 & H2). eapply (simulated_none m _ A cs); [|done..].
    eapply related_agree; [done|apply agree_refl|done..|].
    intros sid (w & x & Hx & Hsid). exists w, x. split; [|done]. simpl in Hx.
    apply lookup_app_Some in Hx as [|[_ Hx]]; [done|].
    apply list_lookup_singleton_Some in Hx as [_ <-]. done.
Qed.

(** ** Machines as they start *)

Definition machine0 : machine G := mkMachine [] [] [] [] [].

Lemma machine0_refines : refines machine0 ([], []).
Proof.
  exists []. split_and!; [|done..]. split; try done; simpl.
  - constructor.
  - by intros sid Hs%not_elem_of_nil.
Qed.

Lemma handles_reach m :
  rtc (mstep run) machine0 m -> exists A, rtc sstep ([], []) A /\ refines m A.
Proof.
  apply (rtc_ind_r (fun m => exists A, rtc sstep ([], []) A /\ refines m A)).
  - exists ([], []). split; [done|apply machine0_refines].
  - intros m1 m2 _ Hstep (A & HA & Href).
    destruct (handles_simulate _ _ _ Href Hstep) as (A' & HA' & Href'). exists A'. split; [|done].
    by etrans.
Qed.
End Spec.
