(* ===== verification/HandlesProps.v ===== *)
(** * What follows for the handles

    From the simulation of [HandlesSim]: the machine of handles and suspensions refines tasks with
    call stacks, no generator is in two places, and examples with generators given as trees. *)

From stdpp Require Import base numbers list strings relations.
From Stdlib Require Import ZArith Lia.
From S2P Require Import Prelude Os Handles HandlesSim.

#[local] Set Warnings "-clear-no-such-hyp".

(** ** What the tasks have of the generators *)

Section Apart.
Context {G : Type} (run : G -> msg -> outcome G).

Definition frames (ts : list task) : list nat := flat_map (fun t => map fst (stack t)) ts.

Definition apart (A : list G * list task) : Prop :=
  NoDup (frames A.2) /\ forall i, i ∈ frames A.2 -> i < length A.1.

Lemma frames_app ts1 ts2 : frames (ts1 ++ ts2) = frames ts1 ++ frames ts2.
Proof. apply flat_map_app. Qed.

Lemma frames_perm ts1 ts2 : ts1 ≡ₚ ts2 -> frames ts1 ≡ₚ frames ts2.
Proof. apply Permutation_flat_map. Qed.

(** A step keeps the generators of the task, but for one that is new or ends. *)
Lemma tstep_frames cs t cs' new :
  tstep run cs t cs' new ->
  length cs <= length cs' /\
  (sublist (frames new) (frames [t]) \/
   (frames new = length cs :: frames [t] /\ length cs < length cs')).
Proof.
  unfold frames. destruct 1; simpl; rewrite ?length_app, ?length_insert, ?app_nil_r; simpl;
    (split; [lia|]); auto.
  - right. split; [done|lia].
  - left. destruct st; simpl; rewrite ?app_nil_r; by constructor.
  - left. destruct st; simpl; rewrite ?app_nil_r; by constructor.
  - left. by rewrite map_app.
Qed.

Lemma apart_perm cs ts ts' : ts ≡ₚ ts' -> apart (cs, ts) -> apart (cs, ts').
Proof.
  intros Hp%frames_perm [Hn Hb]. split; simpl in *; [by rewrite <- Hp|].
  intros i. rewrite <- Hp. apply Hb.
Qed.

Lemma apart_app cs ts ts' :
  apart (cs, ts ++ ts') <->
  apart (cs, ts) /\ apart (cs, ts') /\ forall i, i ∈ frames ts -> i ∉ frames ts'.
Proof.
  unfold apart. simpl. rewrite frames_app, NoDup_app. setoid_rewrite elem_of_app. naive_solver.
Qed.

Lemma sstep_apart A A' : apart A -> sstep run A A' -> apart A'.
Proof.
  intros Ha Hs. destruct Hs as [cs cs' t ts new all all' Hp Hp' Ht|cs g c ts all' Hp].
  - apply (apart_perm _ _ _ Hp) in Ha. symmetry in Hp'. apply (apart_perm _ _ _ Hp').
    apply (apart_app _ [t]) in Ha as ([Hn1 Hb1] & [Hn2 Hb2] & Hd). simpl in *.
    destruct (tstep_frames _ _ _ _ Ht) as [Hlen Hnew].
    assert (forall i, i ∈ frames new -> i ∈ frames [t] \/ (i = length cs /\ length cs < length cs'))
      as Hin.
    { intros i Hi. destruct Hnew as [Hsub|[Heq Hlt]]; [left; by eapply elem_of_sublist|].
      rewrite Heq in Hi. apply elem_of_cons in Hi as [->|]; [by right|by left]. }
    apply apart_app. split_and!.
    + split; simpl.
      * destruct Hnew as [Hsub|[-> Hlt]]; [by apply (sublist_NoDup _ _ Hn1)|]. constructor; [|done].
        intros Hi%Hb1. lia.
      * intros i [Hi%Hb1|[-> Hlt]]%Hin; lia.
    + split; simpl; [done|]. intros i Hi%Hb2. lia.
    + intros i [Hi|[-> Hlt]]%Hin; [by apply Hd|]. intros Hi%Hb2. lia.
  - symmetry in Hp. apply (apart_perm _ _ _ Hp). destruct Ha as [Hn Hb].
    unfold apart, frames in *. simpl in *. rewrite length_app. simpl. split.
    + constructor; [|done]. intros Hi%Hb. lia.
    + intros i [->|Hi%Hb]%elem_of_cons; lia.
Qed.

Lemma sstep_reach_apart A : rtc (sstep run) ([], []) A -> apart A.
Proof.
  apply (rtc_ind_r apart).
  - split; [constructor|]. by intros i Hi%not_elem_of_nil.
  - intros A1 A2 _ Hs Ha. by eapply sstep_apart.
Qed.

(** What a ready task, and a handle, will do next. *)
Definition ready (t : task) : option (frame * msg) :=
  match stack t, status t with f :: _, Some x => Some (f, x) | _, _ => None end.
Definition next (h : handle) : frame * msg := ((h_coro h, h_ctx h), h_msg h).

Lemma related_ready (m : machine G) cs : related m cs -> omap ready (map carried cs) ≡ₚ map next (runq m).
Proof.
  intros Hrel. rewrite <- (rel_runq _ _ Hrel). pose proof (rel_carries _ _ Hrel) as Hc. clear Hrel.
  induction Hc as [|c cs Hcar _ IH]; [done|].
  destruct Hcar as [h l Hl|sid s l Hs Hlive Hl]; simpl; [|done]. by f_equiv.
Qed.
End Apart.


(** The generators of the handles of the queue are among those of the tasks. *)
Lemma related_tops ss cs :
  Forall (carries ss) cs ->
  sublist (map h_coro (omap handle_of cs)) (frames (map carried cs)).
Proof.
  unfold frames. induction 1 as [|c cs Hcar _ IH]; simpl; [done|].
  destruct Hcar as [h l Hl|sid s l Hs Hlive Hl]; simpl.
  - apply sublist_skip. by apply sublist_inserts_l.
  - apply sublist_cons. by apply sublist_inserts_l.
Qed.

Lemma NoDup_flat_map_eq {A B} (f : A -> list B) l x y b :
  NoDup (flat_map f l) -> x ∈ l -> y ∈ l -> b ∈ f x -> b ∈ f y -> x = y.
Proof.
  assert (forall z l', z ∈ l' -> b ∈ f z -> b ∈ flat_map f l') as Hin.
  { intros z l' Hz Hb. apply list_elem_of_In, in_flat_map. exists z. by rewrite <- !list_elem_of_In. }
  induction l as [|z l IH]; simpl; [by intros _ ?%not_elem_of_nil|].
  intros (_ & Hd & Hn)%NoDup_app Hx Hy Hbx Hby.
  apply elem_of_cons in Hx as [->|Hx], Hy as [->|Hy]; [done| | |by apply IH].
  - exfalso. apply (Hd b Hbx). by eapply Hin.
  - exfalso. apply (Hd b Hby). by eapply Hin.
Qed.

(** A generator that an event or a timer may still resume. *)
Definition asleep {G} (m : machine G) (c : nat) : Prop :=
  exists sid s, sid ∈ wakers m /\ susps m !! sid = Some s /\ live s = true /\ s_coro s = c.

(** No generator is ever handed to two workers: the handles in the queue, at any time, have
    different generators, and none of them is a generator that waits for an event. *)
Theorem handles_apart {G} (run : G -> msg -> outcome G) m :
  rtc (mstep run) machine0 m ->
  NoDup (map h_coro (runq m)) /\
  forall h, h ∈ runq m -> ~ asleep m (h_coro h).
Proof.
  intros Hm. destruct (handles_reach run m Hm) as ([gs ts] & HA & cs & Hrel & Hgs & Hts).
  destruct (sstep_reach_apart run _ HA) as [Hn _]. simpl in Hn, Hts.
  rewrite (frames_perm _ _ Hts) in Hn. clear HA Hts Hgs ts gs.
  pose proof (rel_carries _ _ Hrel) as Hf. split.
  - rewrite <- (Permutation_map h_coro (rel_runq _ _ Hrel)).
    eapply sublist_NoDup; [exact Hn|]. by eapply related_tops.
  - intros h Hh (sid & s & Hsid & Hs & Hlive & Heq).
    rewrite <- (rel_runq _ _ Hrel) in Hh. apply list_elem_of_omap in Hh as (c1 & Hc1 & Ht1).
    destruct (rel_wakers _ _ Hrel sid Hsid) as (s' & Hs' & Hw). rewrite Hs in Hs'.
    injection Hs' as <-. destruct (Hw Hlive) as (c2 & Hc2 & Ht2). rewrite Forall_forall in Hf.
    assert (c1 = c2) as ->; [|unfold handle_of in Ht1; by rewrite Ht2 in Ht1].
    unfold frames in Hn. rewrite flat_map_concat_map, map_map, <- flat_map_concat_map in Hn.
    apply (NoDup_flat_map_eq _ cs _ _ (h_coro h) Hn Hc1 Hc2).
    + pose proof (Hf c1 Hc1) as Hcar. unfold handle_of in Ht1. destruct Hcar; simplify_eq/=. by left.
    + pose proof (Hf c2 Hc2) as Hcar. destruct Hcar; simplify_eq/=. rewrite Heq. by left.
Qed.

(** ** An example *)

(** Generators as trees: what they do until they yield, and how they go on. *)
Inductive gen :=
| GReturn (v : pyobj)
| GRaise (e : exn)
| GPause (k : pyobj -> gen)
| GCall (g : gen) (k : result pyobj -> gen)
| GWait (w : nat) (k : result pyobj -> gen).

Definition fresh_gen (g : gen) (r : result pyobj) : gen :=
  match r with Ok _ => g | Err e => GRaise e end.

Definition gen_run (k : result pyobj -> gen) (x : msg) : outcome (result pyobj -> gen) :=
  match k (match x with Send v => Ok v | Throw e => Err e end) with
  | GReturn v => Returned v
  | GRaise e => Raised e
  | GPause k => Yielded YNone (fun r => match r with Ok v => k v | Err e => GRaise e end)
  | GCall g k => Yielded (YGen (fresh_gen g)) k
  | GWait w k => Yielded (YWaiter w) k
  end.

Inductive mact := DoCall (i : nat) | DoWake (sid : nat) | DoSpawn (g : gen) | DoWaiter (n : nat)
| DoAbort (w : nat).

Definition do_mact (a : mact) (m : machine (result pyobj -> gen)) : option (machine _) :=
  match a with
  | DoCall i => call gen_run i m
  | DoWake sid =>
      if existsb (Nat.eqb sid) (wakers m) then Some (resume sid PNone m) else None
  | DoSpawn g =>
      Some (add_handle (mkHandle None (length (coros m)) None (Send PNone))
              (with_coros (coros m ++ [fresh_gen g]) m))
  | DoAbort w => Some (abort_pygen w m)
  | DoWaiter n => Some (with_waiters (waiters m ++ [mkWaiter false false n None]) m)
  end.

Fixpoint do_macts (l : list mact) (m : machine (result pyobj -> gen)) : option (machine _) :=
  match l with
  | [] => Some m
  | a :: l => match do_mact a m with Some m' => do_macts l m' | None => None end
  end.

Lemma do_macts_steps l m m' : do_macts l m = Some m' -> rtc (mstep gen_run) m m'.
Proof.
  revert m. induction l as [|a l IH]; simpl; intros m Hl; [by simplify_eq|].
  destruct (do_mact a m) as [q|] eqn:Ha; [|done]. eapply rtc_l; [|by apply IH].
  destruct a as [i|sid|g|n|w]; simpl in Ha.
  - by eapply MCall.
  - destruct (existsb _ _) eqn:Hs; [|done]. injection Ha as <-. apply MWake.
    apply existsb_exists in Hs as (k & Hk & ->%Nat.eqb_eq). by apply list_elem_of_In.
  - injection Ha as <-. apply MSpawn.
  - injection Ha as <-. apply MWaiter.
  - injection Ha as <-. apply MAbort.
Qed.

(** A generator calls another that waits for an event; the event and a timer both wake it, and its
    result is on the way to the caller. *)
Definition caller : gen :=
  GCall (GWait 0 (fun _ => GReturn (PInt 5)))
    (fun r => match r with Ok v => GReturn v | Err e => GRaise e end).
Definition call_and_wait : list mact :=
  [DoWaiter 1; DoSpawn caller; DoCall 0; DoCall 0; DoWake 1; DoWake 1; DoCall 0].


Lemma handles_apart_witness :
  exists m, do_macts [DoWaiter 1; DoSpawn caller; DoSpawn caller; DoCall 0] machine0 = Some m /\
    map h_coro (runq m) = [1; 2] /\ NoDup (map h_coro (runq m)).
Proof.
  destruct (do_macts [DoWaiter 1; DoSpawn caller; DoSpawn caller; DoCall 0] machine0)
    as [m|] eqn:Hm; [|by vm_compute in Hm].
  exists m. split; [done|]. split; [vm_compute in Hm; by simplify_eq|].
  exact (proj1 (handles_apart gen_run m (do_macts_steps _ _ _ Hm))).
Defined.

(** A bare [yield] evaluates to what the generator was sent before, not to [None]. *)
Lemma pause_sends_stale_value :
  exists m, do_macts
      [DoSpawn (GCall (GReturn (PInt 5)) (fun _ => GPause (fun v => GReturn v))); DoCall 0; DoCall 0;
       DoCall 0] machine0 = Some m /\
    map next (runq m) = [((0, None), Send (PInt 5))].
Proof.
  match goal with |- exists m, ?x = Some m /\ _ => destruct x as [m|] eqn:Hm end;
    [|by vm_compute in Hm].
  exists m. split; [done|]. vm_compute in Hm. by simplify_eq.
Qed.

(** A scope that is cancelled while the event its child waited for has just been set: the child is
    not told, and ends as if nothing had happened. *)
Definition tracked (child : gen) : gen :=
  let pass k r := match r with Ok v => k v | Err e => GRaise e end in
  GCall (GWait 0 (pass (fun _ => GCall child (pass GReturn)))) (pass GReturn).

Lemma abort_of_woken_lost :
  exists m, do_macts
      [DoWaiter 0; DoWaiter 1;
       DoSpawn (tracked (GWait 1 (fun r => match r with Ok _ => GReturn (PInt 7) | Err e => GRaise e end)));
       DoCall 0; DoCall 0; DoCall 0; DoCall 0; DoWake 4; DoAbort 0; DoCall 0; DoCall 0] machine0
      = Some m /\
    (aborted <$> waiters m !! 0) = Some true /\ map next (runq m) = [((0, None), Send (PInt 7))].
Proof.
  match goal with |- exists m, ?x = Some m /\ _ => destruct x as [m|] eqn:Hm end;
    [|by vm_compute in Hm].
  exists m. split; [done|]. vm_compute in Hm. by simplify_eq.
Qed.

(** One that is cancelled while the child runs for the first time gives the exception to the
    wrapper, and the child goes on by itself. *)
Lemma abort_of_running_orphans :
  exists m, do_macts
      [DoWaiter 0; DoSpawn (tracked (GPause (fun v => GReturn v)));
       DoCall 0; DoCall 0; DoCall 0; DoAbort 0] machine0 = Some m /\
    map next (runq m) = [((2, None), Send PNone); ((0, None), Throw CancelledError)].
Proof.
  match goal with |- exists m, ?x = Some m /\ _ => destruct x as [m|] eqn:Hm end;
    [|by vm_compute in Hm].
  exists m. split; [done|]. vm_compute in Hm. by simplify_eq.
Qed.
