(* ===== verification/EventCore.v ===== *)
(** * Events and the waiters they wake

    [Event], the registration of a [Waiter] with its events and the [Sentinel] that counts them,
    of [src/src/events.rs]: when a coroutine that waits for one event or for several is resumed.
    The flag and the list of wakers of an event, guarded by its mutex, are accessed one step at a
    time, and calls interleave between any two steps.  A waiter of one event may have a timeout, whose
    timer resumes it too; the waker it leaves behind is removed when the event makes its next
    waiter. *)

From stdpp Require Import base numbers list relations.
From Stdlib Require Import Lia.
From S2P Require Import Prelude.

(** [ever] records whether the flag was ever set. *)
Record event := mkEvent { flag : bool; ever : bool; watchers : list nat; locked : bool }.

(** A waiter with its events: the counter of its sentinel (one event needs none, and has the
    [consumed] flag of its suspension instead), how often its coroutine was resumed, and whether its
    timer has fired. *)
Record waiting := mkWaiting { count : nat; resumed : nat; events_of : list nat; expired : bool }.

(** Where a call stands: [set], [clear], or a registration that has yet to add its waker to an
    event and to those that follow. *)
Inductive call :=
| SetFlag (e : nat)                             (* [set]: the exchange *)
| SetLock (e : nat)                             (* [notify]: [self.watchers.lock()] *)
| SetDrain (e : nat)                            (* [guard.pop_front()], [waker.wake()] *)
| ClearFlag (e : nat)                           (* [clear]: the exchange *)
| ClearLock (e : nat)                           (* [unnotify]: the lock *)
| ClearHold (e : nat) (l : list nat)            (* [waker.hold()] *)
| AddLock (w e : nat) (es : list nat)           (* [add_waker]: the lock *)
| AddLoad (w e : nat) (es : list nat)           (* [self.flag.load()] *)
| AddWake (w e : nat) (es : list nat)           (* it was set: [waker.wake()] *)
| AddPush (w e : nat) (es : list nat)           (* [guard.push_back(waker)] *)
| PruneLock (e : nat)                           (* [rem_stale_wakers]: the lock *)
| PruneBack (e : nat)                           (* [guard.back()], [guard.pop_back()] *)
| Finished.

Record world := mkWorld { events : list event; waits : list waiting; calls : list call }.

Definition with_waits x s := mkWorld (events s) x (calls s).

Definition lock_event (b : bool) (ev : event) : event := mkEvent (flag ev) (ever ev) (watchers ev) b.
Definition with_watchers (l : list nat) (ev : event) : event :=
  mkEvent (flag ev) (ever ev) l (locked ev).

(** [Waker::wake]: [resume] of its suspension, with [Sentinel::decrement]. *)
Definition wake (w : nat) (s : world) : world :=
  match waits s !! w with
  | Some x =>
      match count x with
      | 0 => s
      | S c => with_waits (<[w:=mkWaiting c (if c =? 0 then S (resumed x) else resumed x)
                                  (events_of x) (expired x)]> (waits s)) s
      end
  | None => s
  end.

(** [Waker::hold]: [suspend] of its suspension, with [Sentinel::increment]; a suspension without a
    sentinel is left alone. *)
Definition hold (w : nat) (s : world) : world :=
  match waits s !! w with
  | Some x =>
      if length (events_of x) <=? 1 then s
      else with_waits (<[w:=mkWaiting (S (count x)) (resumed x) (events_of x) (expired x)]> (waits s)) s
  | None => s
  end.

(** [Timer::run]: the timer resumes the suspension.  Only a waiter of one event has a timeout. *)
Definition expire (w : nat) (s : world) : world :=
  match waits s !! w with
  | Some x =>
      if length (events_of x) =? 1
      then with_waits (<[w:=mkWaiting 0 (if count x =? 0 then resumed x else S (resumed x))
                                 (events_of x) true]> (waits s)) s
      else s
  | None => s
  end.

(** [Suspension::is_dead]: the [consumed] flag, which a suspension with a sentinel never sets. *)
Definition is_dead (s : world) (w : nat) : bool :=
  match waits s !! w with
  | Some x => (length (events_of x) <=? 1) && (count x =? 0)
  | None => false
  end.

(** The loop of [Waiter::register] over its events. *)
Definition add_next (w : nat) (es : list nat) : call :=
  match es with [] => Finished | e :: es => AddLock w e es end.

(** The event a call works on. *)
Definition target (c : call) : option nat :=
  match c with
  | SetFlag e | SetLock e | SetDrain e | ClearFlag e | ClearLock e | ClearHold e _
  | AddLock _ e _ | AddLoad _ e _ | AddWake _ e _ | AddPush _ e _ | PruneLock e | PruneBack e => Some e
  | Finished => None
  end.

Inductive effect := Nothing | Wakes (w : nat) | Holds (w : nat).

(** One access: what becomes of the event and of the call, and the waker that is used; [None] when
    the call has to wait for the mutex. *)
Definition access (dead : nat -> bool) (c : call) (ev : event) : option (event * call * effect) :=
  match c with
  | SetFlag e =>
      Some (if flag ev then (ev, Finished, Nothing)
            else (mkEvent true true (watchers ev) (locked ev), SetLock e, Nothing))
  | SetLock e => if locked ev then None else Some (lock_event true ev, SetDrain e, Nothing)
  | SetDrain e =>
      Some (match watchers ev with
            | w :: l => (with_watchers l ev, SetDrain e, Wakes w)
            | [] => (lock_event false ev, Finished, Nothing)
            end)
  | ClearFlag e =>
      Some (if flag ev then (mkEvent false (ever ev) (watchers ev) (locked ev), ClearLock e, Nothing)
            else (ev, Finished, Nothing))
  | ClearLock e =>
      if locked ev then None else Some (lock_event true ev, ClearHold e (watchers ev), Nothing)
  | ClearHold e l =>
      Some (match l with
            | w :: l => (ev, ClearHold e l, Holds w)
            | [] => (lock_event false ev, Finished, Nothing)
            end)
  | AddLock w e es =>
      if locked ev then None else Some (lock_event true ev, AddLoad w e es, Nothing)
  | AddLoad w e es => Some (ev, if flag ev then AddWake w e es else AddPush w e es, Nothing)
  | AddWake w e es => Some (lock_event false ev, add_next w es, Wakes w)
  | AddPush w e es =>
      Some (mkEvent (flag ev) (ever ev) (watchers ev ++ [w]) false, add_next w es, Nothing)
  | PruneLock e => if locked ev then None else Some (lock_event true ev, PruneBack e, Nothing)
  | PruneBack e =>
      Some (match last (watchers ev) with
            | Some w => if dead w then (with_watchers (removelast (watchers ev)) ev, PruneBack e, Nothing)
                        else (lock_event false ev, Finished, Nothing)
            | None => (lock_event false ev, Finished, Nothing)
            end)
  | Finished => None
  end.

Definition apply_effect (f : effect) (s : world) : world :=
  match f with Nothing => s | Wakes w => wake w s | Holds w => hold w s end.

(** One access of call [i]. *)
Definition step_call (i : nat) (s : world) : option world :=
  match calls s !! i with
  | None => None
  | Some c =>
      match target c with
      | None => None
      | Some e =>
          match events s !! e with
          | None => None
          | Some ev =>
              match access (is_dead s) c ev with
              | None => None
              | Some (ev', c', f) =>
                  Some (apply_effect f
                          (mkWorld (<[e:=ev']> (events s)) (waits s) (<[i:=c']> (calls s))))
              end
          end
      end
  end.

(** ** Which calls there are

    With the interpreter's global lock a call runs to its end before the next.  Without it calls
    interleave; [Free] has all three, [FreeNoClear] leaves out [clear]. *)
Inductive mode := Gil | FreeNoClear | Free.
#[export] Instance mode_eq_dec : EqDecision mode.
Proof. solve_decision. Defined.

Definition busy (c : call) : bool := match c with Finished => false | _ => true end.

Inductive start := StSet (e : nat) | StClear (e : nat) | StRegister (es : list nat) | StPrune (e : nat).

(** [es] are the events of the waiter that is registered; a waiter without events is a checkpoint
    and is not registered with anything.  [StPrune] is [Event::waiter], which leaves the pruning out
    when it reads that nothing was added since. *)
Definition begin (md : mode) (x : start) (s : world) : option world :=
  if match md with Gil => existsb busy (calls s) | _ => false end then None
  else
    match x with
    | StSet e => Some (mkWorld (events s) (waits s) (calls s ++ [SetFlag e]))
    | StClear e =>
        match md with
        | FreeNoClear => None
        | _ => Some (mkWorld (events s) (waits s) (calls s ++ [ClearFlag e]))
        end
    | StPrune e => Some (mkWorld (events s) (waits s) (calls s ++ [PruneLock e]))
    | StRegister es =>
        match es with
        | [] => None
        | e :: es' =>
            Some (mkWorld (events s) (waits s ++ [mkWaiting (length es) 0 es false])
                    (calls s ++ [AddLock (length (waits s)) e es']))
        end
    end.

Definition wstep (md : mode) (s s' : world) : Prop :=
  (exists i, step_call i s = Some s') \/
  (exists w, s' = expire w s) \/
  (exists x, begin md x s = Some s' /\
     match x with StSet e | StClear e | StPrune e => e < length (events s)
                | StRegister es => Forall (fun e => e < length (events s)) es end).

Definition world0 (n : nat) : world := mkWorld (replicate n (mkEvent false false [] false)) [] [].

(** No call can move. *)
Definition at_rest (s : world) : Prop := forall i, step_call i s = None.
