(* ===== verification/EventProps.v ===== *)
(** * A waiter is resumed once, when all its events have been set

    The invariant of [EventCore] and the theorem about a coroutine that waits for one or more
    events; and the execution in which [clear] makes a waiter miss an event. *)

From stdpp Require Import base numbers list relations.
From Stdlib Require Import Lia.
From S2P Require Import Prelude EventCore.

#[local] Set Warnings "-clear-no-such-hyp".

(** ** Counting *)

(** Calls that hold the mutex of an event, and calls of [set] that will drain its wakers. *)
Definition holder (e : nat) (c : call) : bool :=
  match c with
  | SetDrain e' | ClearHold e' _ | AddLoad _ e' _ | AddWake _ e' _ | AddPush _ e' _
  | PruneBack e' => e =? e'
  | _ => false
  end.
Definition will_lock (e : nat) (c : call) : bool :=
  match c with SetLock e' => e =? e' | _ => false end.
Definition notifying (e : nat) (c : call) : bool :=
  match c with SetLock e' | SetDrain e' => e =? e' | _ => false end.

(** How many events a registration has yet to add a waker of [w] to, and whether [e] is one. *)
Definition pend (w : nat) (c : call) : nat :=
  match c with
  | AddLock w' _ es | AddLoad w' _ es | AddWake w' _ es | AddPush w' _ es =>
      if w =? w' then S (length es) else 0
  | _ => 0
  end.
Definition to_add (w e : nat) (c : call) : Prop :=
  match c with
  | AddLock w' e' es | AddLoad w' e' es | AddWake w' e' es | AddPush w' e' es =>
      w = w' /\ e ∈ e' :: es
  | _ => False
  end.

Definition has (w : nat) (ev : event) : nat := countb (Nat.eqb w) (watchers ev).

(** The wakers of [w] that are in a list or on the way there. *)
Definition outstanding (w : nat) (s : world) : nat :=
  sum_list_with (has w) (events s) + sum_list_with (pend w) (calls s).

Definition clears (c : call) : bool :=
  match c with ClearFlag _ | ClearLock _ | ClearHold _ _ => true | _ => false end.

(** What a call may rely on. *)
Definition call_ok (s : world) (c : call) : Prop :=
  match c with
  | SetFlag e | ClearFlag e | PruneLock e | PruneBack e => e < length (events s)
  | SetLock e | SetDrain e => exists ev, events s !! e = Some ev /\ ever ev = true
  | ClearLock e => exists ev, events s !! e = Some ev /\ watchers ev = []
  | ClearHold e l => e < length (events s) /\ l = []
  | AddLock w e es | AddLoad w e es =>
      w < length (waits s) /\ Forall (fun e => e < length (events s)) (e :: es)
  | AddWake w e es =>
      w < length (waits s) /\ Forall (fun e => e < length (events s)) (e :: es) /\
      forall ev, events s !! e = Some ev -> ever ev = true
  | AddPush w e es =>
      w < length (waits s) /\ Forall (fun e => e < length (events s)) (e :: es) /\
      forall ev, events s !! e = Some ev -> flag ev = true -> 0 < countb (will_lock e) (calls s)
  | Finished => True
  end.

Record world_inv (md : mode) (s : world) : Prop := {
  w_lock : forall e ev, events s !! e = Some ev ->
    countb (holder e) (calls s) = if locked ev then 1 else 0;
  w_notify : forall e ev, events s !! e = Some ev -> flag ev = true -> watchers ev <> [] ->
    0 < countb (notifying e) (calls s);
  w_ever : forall e ev, events s !! e = Some ev -> flag ev = true -> ever ev = true;
  w_calls : forall i c, calls s !! i = Some c -> call_ok s c;
  w_count : forall w x, waits s !! w = Some x ->
    count x = (if expired x then 0 else outstanding w s) /\ resumed x = if count x =? 0 then 1 else 0;
  w_events : forall w x e ev, waits s !! w = Some x -> e ∈ events_of x -> events s !! e = Some ev ->
    ever ev = true \/ w ∈ watchers ev \/ (exists i c, calls s !! i = Some c /\ to_add w e c) \/
    expired x = true;
  w_watches : forall w x e ev, waits s !! w = Some x -> events s !! e = Some ev ->
    w ∈ watchers ev -> e ∈ events_of x;
  w_adds : forall i c w e x, calls s !! i = Some c -> to_add w e c -> waits s !! w = Some x ->
    e ∈ events_of x;
  w_known : forall e ev w, events s !! e = Some ev -> w ∈ watchers ev -> w < length (waits s);
  w_gil : md = Gil -> countb busy (calls s) <= 1;
  w_clear : md <> Gil -> countb clears (calls s) = 0
}.

(** ** What an access keeps *)

Lemma apply_effect_spec f s :
  events (apply_effect f s) = events s /\ calls (apply_effect f s) = calls s /\
  length (waits (apply_effect f s)) = length (waits s).
Proof.
  destruct f as [|w|w]; simpl; [done|..]; unfold wake, hold;
    (destruct (waits s !! w) as [x|]; [|done]).
  - destruct (count x); simpl; rewrite ?length_insert; done.
  - destruct (_ <=? _); simpl; rewrite ?length_insert; done.
Qed.

(** Wakers in the lists are counted. *)
Lemma sum_list_with_zero {A} (f : A -> nat) l i x :
  sum_list_with f l = 0 -> l !! i = Some x -> f x = 0.
Proof.
  revert i. induction l as [|y l IH]; intros [|i] Hs Hi; simplify_eq/=; [lia|].
  apply (IH i); [lia|done].
Qed.

Lemma outstanding_zero w s e ev :
  outstanding w s = 0 -> events s !! e = Some ev -> w ∉ watchers ev.
Proof.
  intros Ho Hev Hin. unfold outstanding in Ho.
  assert (has w ev = 0) as Hz by (eapply sum_list_with_zero; [|done]; lia).
  apply list_elem_of_lookup_1 in Hin as [i Hi].
  pose proof (countb_lookup_pos (Nat.eqb w) _ _ _ Hi (Nat.eqb_refl w)). unfold has in Hz. lia.
Qed.

Lemma last_removelast {A} (l : list A) x : last l = Some x -> l = removelast l ++ [x].
Proof. intros [l' ->]%last_Some. by rewrite removelast_last. Qed.

Lemma elem_of_removelast {A} (l : list A) x : x ∈ removelast l -> x ∈ l.
Proof.
  intros Hx. destruct (last l) as [y|] eqn:Hl.
  - rewrite (last_removelast l y Hl). apply elem_of_app. by left.
  - apply last_None in Hl as ->. done.
Qed.

(** A waker that is removed belongs to a waiter whose timer has fired. *)
Lemma dead_expired md s e ev w x :
  world_inv md s -> events s !! e = Some ev -> w ∈ watchers ev -> waits s !! w = Some x ->
  is_dead s w = true -> expired x = true.
Proof.
  intros Hinv Hev Hw Hx Hd. unfold is_dead in Hd. rewrite Hx in Hd.
  apply andb_true_iff in Hd as [_ Hz%Nat.eqb_eq].
  destruct (expired x) eqn:He; [done|]. destruct (w_count _ _ Hinv w x Hx) as [Hc _].
  rewrite He, Hz in Hc. by eapply outstanding_zero in Hw.
Qed.

Section Access.
Context (md : mode) (s : world) (i : nat) (c : call) (e : nat) (ev : event).
Context (ev' : event) (c' : call) (f : effect).
Hypothesis Hinv : world_inv md s.
Hypothesis Hi : calls s !! i = Some c.
Hypothesis Ht : target c = Some e.
Hypothesis Hev : events s !! e = Some ev.
Hypothesis Hacc : access (is_dead s) c ev = Some (ev', c', f).

(** The state but for the waiters. *)
Definition after : world := mkWorld (<[e:=ev']> (events s)) (waits s) (<[i:=c']> (calls s)).

(** The cases of [access]. *)
Ltac cases :=
  destruct c as [e0|e0|e0|e0|e0|e0 l0|w0 e0 es0|w0 e0 es0|w0 e0 es0|w0 e0 es0|e0|e0|];
  simpl in Ht, Hacc; [injection Ht as -> ..|discriminate Ht];
  repeat match type of Hacc with
    | context [if flag ev then _ else _] => destruct (flag ev) eqn:Hflag
    | context [if locked ev then _ else _] => destruct (locked ev) eqn:Hlocked
    | context [match watchers ev with _ => _ end] => destruct (watchers ev) as [|w1 l1] eqn:Hwatch
    | context [match l0 with _ => _ end] => destruct l0 as [|w1 l1]
    | context [last (watchers ev)] => destruct (last (watchers ev)) as [w1|] eqn:Hlast;
        [assert (watchers ev <> []) as Hnonempty by (intros Hnil; by rewrite Hnil in Hlast)|]
    | context [is_dead s ?w] => destruct (is_dead s w) eqn:Hdead
    end; simplify_eq/=.

Lemma add_next_counts w es :
  (forall e, holder e (add_next w es) = false) /\ (forall e, notifying e (add_next w es) = false) /\
  (forall e, will_lock e (add_next w es) = false) /\ clears (add_next w es) = false.
Proof. by destruct es. Qed.

Lemma lookup_after e2 ev2 :
  events after !! e2 = Some ev2 ->
  (e2 = e /\ ev2 = ev') \/ (e2 <> e /\ events s !! e2 = Some ev2).
Proof using All.
  simpl. intros H. destruct (decide (e2 = e)) as [->|].
  - rewrite list_lookup_insert_eq in H by (by eapply lookup_lt_Some). simplify_eq. by left.
  - rewrite list_lookup_insert_ne in H by done. by right.
Qed.

Lemma after_lock e2 ev2 :
  events after !! e2 = Some ev2 ->
  countb (holder e2) (calls after) = if locked ev2 then 1 else 0.
Proof using All.
  intros H2. pose proof (countb_insert (holder e2) _ _ _ c' Hi) as Hc. simpl.
  apply lookup_after in H2 as [[-> ->]|[Hne H2]].
  - pose proof (w_lock _ _ Hinv e ev Hev) as Hl. cases;
      rewrite ?Nat.eqb_refl in Hc; rewrite ?(proj1 (add_next_counts _ _)) in Hc;
      repeat match goal with
        | H : locked _ = _ |- _ => rewrite H in *
        | |- context [locked ?v] => destruct (locked v)
        | H : context [if locked ?v then _ else _] |- _ => destruct (locked v)
        end; lia.
  - pose proof (w_lock _ _ Hinv e2 ev2 H2) as Hl. cases;
      rewrite ?(proj2 (Nat.eqb_neq e2 e) Hne) in Hc;
      rewrite ?(proj1 (add_next_counts _ _)) in Hc; simpl in *; lia.
Qed.

Lemma after_notify e2 ev2 :
  events after !! e2 = Some ev2 -> flag ev2 = true -> watchers ev2 <> [] ->
  0 < countb (notifying e2) (calls after).
Proof using All.
  intros H2 Hf Hw. pose proof (countb_insert (notifying e2) _ _ _ c' Hi) as Hc. simpl.
  apply lookup_after in H2 as [[-> ->]|[Hne H2]].
  - pose proof (w_notify _ _ Hinv e ev Hev) as Hn.
    pose proof (w_calls _ _ Hinv i c Hi) as Hok. cases; rewrite ?Nat.eqb_refl in Hc;
      rewrite ?(proj1 (proj2 (add_next_counts _ _))) in Hc; try done;
      try congruence; try (specialize (Hn ltac:(done) ltac:(congruence))); try lia.
    assert (countb (will_lock e) (calls s) <= countb (notifying e) (calls s))
      by (apply countb_mono; by intros ? []).
    destruct Hok as (_ & _ & Hok). specialize (Hok ev Hev Hf). lia.
  - pose proof (w_notify _ _ Hinv e2 ev2 H2 Hf Hw) as Hn. cases;
      rewrite ?(proj2 (Nat.eqb_neq e2 e) Hne) in Hc;
      rewrite ?(proj1 (proj2 (add_next_counts _ _))) in Hc; simpl in *; lia.
Qed.

Lemma access_ever : (flag ev = true -> ever ev = true) ->
  (flag ev' = true -> ever ev' = true) /\ (ever ev = true -> ever ev' = true).
Proof using All. intros He. cases; split; intros; try congruence; auto. Qed.

Lemma after_ever e2 ev2 : events after !! e2 = Some ev2 -> flag ev2 = true -> ever ev2 = true.
Proof using All.
  intros H2. apply lookup_after in H2 as [[-> ->]|[Hne H2]]; [|by apply (w_ever _ _ Hinv e2)].
  apply access_ever, (w_ever _ _ Hinv e ev Hev).
Qed.

(** A call of [clear] is alone. *)
Lemma other_clears j c2 : j <> i -> calls s !! j = Some c2 -> clears c2 = false.
Proof using All.
  intros Hne Hj. destruct (clears c2) eqn:Hc; [|done].
  destruct (decide (md = Gil)) as [Hmd|Hmd].
  - exfalso. apply Hne. eapply (countb_le1_unique busy); [by apply (w_gil _ _ Hinv)|done..| |].
    + by destruct c2.
    + by destruct c.
  - pose proof (w_clear _ _ Hinv Hmd). pose proof (countb_lookup_pos _ _ _ _ Hj Hc). lia.
Qed.

(** A call that has read the flag holds the mutex, so nobody else locks it. *)
Lemma push_locked j w es : calls s !! j = Some (AddPush w e es) -> locked ev = true.
Proof using All.
  intros Hj. pose proof (w_lock _ _ Hinv e ev Hev) as Hl.
  assert (0 < countb (holder e) (calls s)); [|destruct (locked ev); [done|lia]].
  eapply countb_lookup_pos; [done|]. simpl. apply Nat.eqb_refl.
Qed.

Lemma ever_after e2 :
  (exists ev2, events s !! e2 = Some ev2 /\ ever ev2 = true) ->
  exists ev2, <[e:=ev']> (events s) !! e2 = Some ev2 /\ ever ev2 = true.
Proof using All.
  intros (ev2 & H2 & He2). pose proof (access_ever (w_ever _ _ Hinv e ev Hev)) as [_ Hmono].
  destruct (decide (e2 = e)) as [->|].
  - exists ev'. rewrite list_lookup_insert_eq by (by eapply lookup_lt_Some). simplify_eq.
    split; [done|by apply Hmono].
  - exists ev2. by rewrite list_lookup_insert_ne.
Qed.

Lemma after_other j c2 :
  j <> i -> calls s !! j = Some c2 -> call_ok s c2 -> call_ok after c2.
Proof using All.
  intros Hne Hj Hok. pose proof (other_clears j c2 Hne Hj) as Hcl.
  pose proof (access_ever (w_ever _ _ Hinv e ev Hev)) as [_ Hev2].
  destruct c2 as [e9|e9|e9|e9|e9|e9 l9|w9 e9 es9|w9 e9 es9|w9 e9 es9|w9 e9 es9|e9|e9|]; simpl in *;
    rewrite ?length_insert; try done.
  - by apply ever_after.
  - by apply ever_after.
  - destruct Hok as (? & ? & Hok). split_and!; [done..|]. intros ev2 H2.
    apply lookup_after in H2 as [[-> ->]|[? H2]]; [apply Hev2; by eapply Hok|by eapply Hok].
  - destruct Hok as (? & ? & Hok). split_and!; [done..|]. intros ev2 H2 Hf.
    pose proof (countb_insert (will_lock e9) _ _ _ c' Hi) as Hc.
    apply lookup_after in H2 as [[-> ->]|[Hn2 H2]].
    + pose proof (push_locked j w9 es9 Hj) as Hlk. specialize (Hok ev Hev).
      clear Hev2 Hcl. cases; rewrite ?Nat.eqb_refl in Hc;
        rewrite ?(proj1 (proj2 (proj2 (add_next_counts _ _)))) in Hc; try congruence;
        try (specialize (Hok ltac:(done))); try lia.
    + specialize (Hok ev2 H2 Hf). clear Hev2 Hcl. cases;
        rewrite ?(proj2 (Nat.eqb_neq e9 e) Hn2) in Hc;
        rewrite ?(proj1 (proj2 (proj2 (add_next_counts _ _)))) in Hc; simpl in *; try lia.
Qed.

Lemma add_next_ok w es (s1 : world) :
  w < length (waits s1) -> Forall (fun e => e < length (events s1)) es -> call_ok s1 (add_next w es).
Proof. intros Hw Hes. by destruct es. Qed.

(** The wakers of an event are gone when [clear] finds its flag set. *)
Lemma clear_finds_none : clears c = true -> flag ev = true -> watchers ev = [].
Proof using All.
  intros Hc Hf. destruct (watchers ev) as [|w l] eqn:Hw; [done|]. exfalso.
  pose proof (w_notify _ _ Hinv e ev Hev Hf ltac:(by rewrite Hw)) as Hn.
  apply countb_pos_inv in Hn as (j & c2 & Hj & Hc2).
  destruct (decide (md = Gil)) as [Hmd|Hmd].
  - assert (j = i) as ->.
    { eapply (countb_le1_unique busy); [by apply (w_gil _ _ Hinv)|done..| |].
      - by destruct c2.
      - by destruct c. }
    rewrite Hi in Hj. injection Hj as <-. by destruct c.
  - pose proof (w_clear _ _ Hinv Hmd). pose proof (countb_lookup_pos _ _ _ _ Hi Hc). lia.
Qed.

Lemma after_self : call_ok after c'.
Proof using All.
  pose proof (w_calls _ _ Hinv i c Hi) as Hok. pose proof (w_ever _ _ Hinv e ev Hev) as He.
  pose proof clear_finds_none as Hnone. pose proof (lookup_lt_Some _ _ _ Hev) as Hlt.
  assert (forall x, <[e:=x]> (events s) !! e = Some x) as Hlk
    by (intros x; by apply list_lookup_insert_eq).
  unfold after. cases; rewrite ?length_insert; try done.
  - eexists. by rewrite Hlk.
  - destruct Hok as (ev2 & ? & ?). simplify_eq. eexists. by rewrite Hlk.
  - destruct Hok as (ev2 & ? & ?). simplify_eq. eexists. by rewrite Hlk.
  - eexists. split; [apply Hlk|]. by apply Hnone.
  - split; [done|]. destruct Hok as (ev2 & ? & ?). by simplify_eq.
  - by destruct Hok.
  - destruct Hok. split_and!; [done..|]. intros ev2. rewrite Hlk. intros [= <-]. by apply He.
  - destruct Hok. split_and!; [done..|]. intros ev2. rewrite Hlk. intros [= <-]. congruence.
  - destruct Hok as (? & Hes & _). apply Forall_cons in Hes as [_ Hes].
    apply add_next_ok; [done|]. simpl. by rewrite length_insert.
  - destruct Hok as (? & Hes & _). apply Forall_cons in Hes as [_ Hes].
    apply add_next_ok; [done|]. simpl. by rewrite length_insert.
Qed.

Lemma after_calls j c2 : calls after !! j = Some c2 -> call_ok after c2.
Proof using All.
  simpl. intros Hj. destruct (decide (j = i)) as [->|Hne].
  - rewrite list_lookup_insert_eq in Hj by (by eapply lookup_lt_Some). injection Hj as <-.
    apply after_self.
  - rewrite list_lookup_insert_ne in Hj by done.
    apply (after_other j); [done..|]. by apply (w_calls _ _ Hinv j).
Qed.

(** ** Wakers *)

(** An access moves wakers of [w], and uses up the one it wakes. *)
Definition used (w : nat) : nat := match f with Wakes w' => if w =? w' then 1 else 0 | _ => 0 end.

Lemma add_next_pend w w' es : pend w (add_next w' es) = if w =? w' then length es else 0.
Proof. destruct es; simpl; by destruct (w =? w'). Qed.

Lemma after_outstanding w x :
  waits s !! w = Some x -> expired x = false -> outstanding w after + used w = outstanding w s.
Proof using All.
  intros Hx Hex. pose proof (dead_expired md s e ev w x Hinv Hev) as Hde.
  unfold outstanding, used. simpl.
  pose proof (sum_list_with_insert (has w) _ _ _ ev' Hev) as He.
  pose proof (sum_list_with_insert (pend w) _ _ _ c' Hi) as Hc. unfold has in *.
  cases; repeat match goal with H : watchers _ = _ |- _ => rewrite H in * end;
    rewrite ?countb_app, ?add_next_pend in *; simpl in *; try lia;
    try (destruct (w =? w0); lia).
  pose proof (last_removelast _ _ Hlast) as Hl. 
  assert (countb (Nat.eqb w) (watchers ev)
          = countb (Nat.eqb w) (removelast (watchers ev)) + if w =? w1 then 1 else 0) as Hcl
    by (rewrite Hl at 1; rewrite countb_app; simpl; lia).
  destruct (Nat.eqb_spec w w1) as [->|]; [|lia]. rewrite Hde in Hex; try done.
  rewrite Hl. apply elem_of_app. right. by left.
Qed.

(** No access holds a waker: there is none when [clear] looks. *)
Lemma no_hold w : f <> Holds w.
Proof using All.
  pose proof (w_calls _ _ Hinv i c Hi) as Hok. cases; try done. by destruct Hok.
Qed.

Lemma used_known w : used w = 1 -> w < length (waits s).
Proof using All.
  pose proof (w_calls _ _ Hinv i c Hi) as Hok. pose proof (w_known _ _ Hinv e ev) as Hk.
  unfold used. cases; try done.
  - destruct (Nat.eqb_spec w w1) as [->|]; [|done]. intros _.
    apply (Hk w1 Hev). by left.
  - destruct (Nat.eqb_spec w w0) as [->|]; [|done]. by destruct Hok.
Qed.

Lemma access_watchers w :
  w ∈ watchers ev -> w ∈ watchers ev' \/ ever ev' = true \/ is_dead s w = true.
Proof using All.
  pose proof (w_calls _ _ Hinv i c Hi) as Hok. cases; auto;
    try (destruct Hok as (ev2 & ? & ?); simplify_eq; by right; left).
  - left. apply elem_of_app. by left.
  - rewrite (last_removelast _ _ Hlast) at 1.
    intros [|Hw%list_elem_of_singleton]%elem_of_app; [by left|]. subst w1. by do 2 right.
Qed.

Lemma access_to_add w e2 :
  to_add w e2 c -> to_add w e2 c' \/ (e2 = e /\ (ever ev' = true \/ w ∈ watchers ev')).
Proof using All.
  pose proof (w_calls _ _ Hinv i c Hi) as Hok. cases; auto.
  - intros [-> [->|Hes]%elem_of_cons].
    + right. split; [done|left]. destruct Hok as (_ & _ & Hok). by apply Hok.
    + left. destruct es0; [by apply not_elem_of_nil in Hes|done].
  - intros [-> [->|Hes]%elem_of_cons].
    + right. split; [done|right]. apply elem_of_app. right. by left.
    + left. destruct es0; [by apply not_elem_of_nil in Hes|done].
Qed.

Lemma after_events w x e2 ev2 :
  waits s !! w = Some x -> e2 ∈ events_of x -> events after !! e2 = Some ev2 ->
  ever ev2 = true \/ w ∈ watchers ev2 \/
  (exists j c2, calls after !! j = Some c2 /\ to_add w e2 c2) \/ expired x = true.
Proof using All.
  intros Hx He2 H2. pose proof (access_ever (w_ever _ _ Hinv e ev Hev)) as [_ Hmono].
  assert (forall j c2, calls s !! j = Some c2 -> to_add w e2 c2 ->
    (exists j c2, calls after !! j = Some c2 /\ to_add w e2 c2) \/
    (e2 = e /\ (ever ev' = true \/ w ∈ watchers ev'))) as Hadd.
  { intros j c2 Hj Hc2. simpl. destruct (decide (j = i)) as [->|Hne].
    - rewrite Hi in Hj. injection Hj as <-. destruct (access_to_add w e2 Hc2) as [H|H]; [|by right].
      left. exists i, c'. split; [apply list_lookup_insert_eq; by eapply lookup_lt_Some|done].
    - left. exists j, c2. by rewrite list_lookup_insert_ne. }
  apply lookup_after in H2 as [[-> ->]|[Hne H2]].
  - destruct (w_events _ _ Hinv w x e ev Hx He2 Hev) as [H|[H|[(j & c2 & Hj & Hc2)|H]]]; [| | |auto].
    + left. by apply Hmono.
    + destruct (access_watchers w H) as [|[|Hd]]; [auto..|]. do 3 right. by eapply dead_expired.
    + destruct (Hadd j c2 Hj Hc2) as [|[_ [|]]]; auto.
  - destruct (w_events _ _ Hinv w x e2 ev2 Hx He2 H2) as [H|[H|[(j & c2 & Hj & Hc2)|H]]]; [auto..| |auto].
    destruct (Hadd j c2 Hj Hc2) as [|[? _]]; [auto|done].
Qed.

Lemma access_adds w e2 : to_add w e2 c' -> to_add w e2 c.
Proof using All.
  cases; try done; (destruct es0 as [|e1 es0]; simpl; [done|]);
    intros [-> Hin]; (split; [done|]); by right.
Qed.

Lemma after_adds j c2 w e2 x :
  calls after !! j = Some c2 -> to_add w e2 c2 -> waits s !! w = Some x -> e2 ∈ events_of x.
Proof using All.
  simpl. intros Hj Hc2 Hx. destruct (decide (j = i)) as [->|Hne].
  - rewrite list_lookup_insert_eq in Hj by (by eapply lookup_lt_Some). injection Hj as <-.
    apply access_adds in Hc2. by eapply (w_adds _ _ Hinv i c).
  - rewrite list_lookup_insert_ne in Hj by done. by eapply (w_adds _ _ Hinv j c2).
Qed.

Lemma access_watches w : w ∈ watchers ev' -> w ∈ watchers ev \/ to_add w e c.
Proof using All.
  cases; auto.
  - rewrite Hwatch. by left.
  - intros Hw. left. by right.
  - intros [|Hw%list_elem_of_singleton]%elem_of_app; [by left|]. subst w. right.
    split; [done|by left].
  - intros Hw. left. by apply elem_of_removelast.
Qed.

Lemma after_watches w x e2 ev2 :
  waits s !! w = Some x -> events after !! e2 = Some ev2 -> w ∈ watchers ev2 -> e2 ∈ events_of x.
Proof using All.
  intros Hx H2. apply lookup_after in H2 as [[-> ->]|[Hne H2]];
    [|by apply (w_watches _ _ Hinv w x e2)].
  intros [Hw|Hw]%access_watches.
  - by apply (w_watches _ _ Hinv w x e ev).
  - by eapply (w_adds _ _ Hinv i c).
Qed.

Lemma after_known e2 ev2 w : events after !! e2 = Some ev2 -> w ∈ watchers ev2 -> w < length (waits s).
Proof using All.
  intros H2. apply lookup_after in H2 as [[-> ->]|[Hne H2]]; [|by apply (w_known _ _ Hinv e2)].
  pose proof (w_calls _ _ Hinv i c Hi) as Hok. pose proof (w_known _ _ Hinv e ev w Hev) as Hk.
  cases; try done.
  - rewrite Hwatch. by intros ?%not_elem_of_nil.
  - intros Hw. apply Hk. by right.
  - destruct Hok as (? & _ & _). intros [|Hw%list_elem_of_singleton]%elem_of_app; [auto|by subst].
  - intros Hw. by apply Hk, elem_of_removelast.
Qed.

Lemma after_mode :
  (md = Gil -> countb busy (calls after) <= 1) /\ (md <> Gil -> countb clears (calls after) = 0).
Proof using All.
  simpl. split; intros Hmd.
  - pose proof (w_gil _ _ Hinv Hmd). pose proof (countb_insert busy _ _ _ c' Hi) as Hc.
    assert (busy c = true) as Hb by (by destruct c). rewrite Hb in Hc. destruct (busy c'); lia.
  - pose proof (w_clear _ _ Hinv Hmd). pose proof (countb_insert clears _ _ _ c' Hi) as Hc.
    cases; rewrite ?(proj2 (proj2 (proj2 (add_next_counts _ _)))) in Hc; lia.
Qed.
End Access.

(** ** Every step *)

Lemma apply_effect_waits f s w x' :
  waits (apply_effect f s) !! w = Some x' ->
  exists x, waits s !! w = Some x /\ events_of x' = events_of x /\ expired x' = expired x.
Proof.
  destruct f as [|w0|w0]; simpl; [by exists x'|..]; unfold wake, hold;
    (destruct (waits s !! w0) as [x0|] eqn:H0; [|by exists x']); simpl.
  - destruct (count x0); simpl; [by exists x'|]. destruct (decide (w = w0)) as [->|].
    + rewrite list_lookup_insert_eq by (by eapply lookup_lt_Some). intros [= <-]. by exists x0.
    + rewrite list_lookup_insert_ne by done. by exists x'.
  - destruct (_ <=? _); [by exists x'|]. simpl. destruct (decide (w = w0)) as [->|].
    + rewrite list_lookup_insert_eq by (by eapply lookup_lt_Some). intros [= <-]. by exists x0.
    + rewrite list_lookup_insert_ne by done. by exists x'.
Qed.

(** [wake] of another waiter, or of one that is used up, changes nothing for a waiter. *)
Lemma wake_same w0 s w x :
  waits s !! w = Some x -> w <> w0 \/ count x = 0 -> waits (wake w0 s) !! w = Some x.
Proof.
  intros Hx Hw. unfold wake. destruct (waits s !! w0) as [x0|] eqn:H0; [|done].
  destruct (decide (w = w0)) as [->|Hne].
  - simplify_eq. destruct Hw as [|Hz]; [done|]. by rewrite Hz.
  - destruct (count x0); [done|]. simpl. by rewrite list_lookup_insert_ne.
Qed.

Lemma access_count md s i c e ev ev' c' f w x' :
  world_inv md s -> calls s !! i = Some c -> target c = Some e -> events s !! e = Some ev ->
  access (is_dead s) c ev = Some (ev', c', f) ->
  waits (apply_effect f (after s i e ev' c')) !! w = Some x' ->
  count x' = (if expired x' then 0 else outstanding w (after s i e ev' c')) /\
  resumed x' = if count x' =? 0 then 1 else 0.
Proof.
  intros Hinv Hi Ht Hev Hacc Hx'.
  pose proof (no_hold _ _ _ _ _ _ _ _ _ Hinv Hi Ht Hev Hacc) as Hh.
  destruct (apply_effect_waits _ _ _ _ Hx') as (x & Hx & _ & Hex). simpl in Hx.
  destruct (w_count _ _ Hinv w x Hx) as [Hc Hr].
  pose proof (after_outstanding _ _ _ _ _ _ _ _ _ Hinv Hi Ht Hev Hacc w x Hx) as Ho.
  destruct f as [|w0|w0]; simpl in Hx'; [| |by destruct (Hh w0)]; unfold used in Ho.
  - simplify_eq. split; [|done]. rewrite Hc. destruct (expired x'); [done|]. specialize (Ho eq_refl). lia.
  - destruct (decide (w = w0 /\ expired x = false)) as [[<- He]|Hother].
    + rewrite Hex, He in *. specialize (Ho eq_refl). rewrite Nat.eqb_refl in Ho.
      unfold wake in Hx'. simpl in Hx'. rewrite Hx in Hx'.
      destruct (count x) as [|k] eqn:Hk; [lia|]. simpl in Hx', Hr.
      rewrite list_lookup_insert_eq in Hx' by (by eapply lookup_lt_Some). injection Hx' as <-.
      simpl. split; [lia|]. rewrite Hr. by destruct (k =? 0).
    + assert (w <> w0 \/ count x = 0) as Hw.
      { destruct (expired x) eqn:He; [by right|]. left. naive_solver. }
      rewrite (wake_same w0 (after s i e ev' c') w x Hx Hw) in Hx'. injection Hx' as <-.
      split; [|done]. rewrite Hc. destruct (expired x) eqn:He; [done|]. specialize (Ho eq_refl).
      destruct (Nat.eqb_spec w w0) as [->|]; [naive_solver|lia].
Qed.

Lemma outstanding_ext w s s' :
  events s' = events s -> calls s' = calls s -> outstanding w s' = outstanding w s.
Proof. unfold outstanding. by intros -> ->. Qed.

Lemma access_inv md i s s' : world_inv md s -> step_call i s = Some s' -> world_inv md s'.
Proof.
  intros Hinv Hstep. unfold step_call in Hstep.
  destruct (calls s !! i) as [c|] eqn:Hi; [|done]. destruct (target c) as [e|] eqn:Ht; [|done].
  destruct (events s !! e) as [ev|] eqn:Hev; [|done].
  destruct (access (is_dead s) c ev) as [[[ev' c'] f]|] eqn:Hacc; [|done]. injection Hstep as <-.
  destruct (apply_effect_spec f (after s i e ev' c')) as (He & Hc & Hl).
  change (mkWorld _ _ _) with (after s i e ev' c').
  split; rewrite ?He, ?Hc, ?Hl.
  - by eapply after_lock.
  - by eapply after_notify.
  - by eapply after_ever.
  - intros j c2 Hj. pose proof (after_calls _ _ _ _ _ _ _ _ _ Hinv Hi Ht Hev Hacc j c2 Hj) as Hok.
    destruct c2; simpl in *; rewrite ?He, ?Hc, ?Hl; simpl; done.
  - intros w x' Hx'. rewrite (outstanding_ext w _ _ He Hc). by eapply access_count.
  - intros w x' e2 ev2 Hx' He2 H2. destruct (apply_effect_waits _ _ _ _ Hx') as (x & Hx & Heq).
    destruct Heq as [Heq ->]. rewrite Heq in He2. by eapply after_events.
  - intros w x' e2 ev2 Hx' H2 Hw. destruct (apply_effect_waits _ _ _ _ Hx') as (x & Hx & -> & _).
    by eapply after_watches.
  - intros j c2 w e2 x' Hj Hc2 Hx'. destruct (apply_effect_waits _ _ _ _ Hx') as (x & Hx & -> & _).
    by eapply after_adds.
  - by eapply after_known.
  - by eapply after_mode.
  - by eapply after_mode.
Qed.

(** Starting a call. *)
Lemma call_ok_mono s s' c :
  events s' = events s -> length (waits s) <= length (waits s') ->
  (forall e, countb (will_lock e) (calls s) <= countb (will_lock e) (calls s')) ->
  call_ok s c -> call_ok s' c.
Proof.
  intros He Hl Hc. destruct c; simpl; rewrite ?He; try done.
  - intros [? ?]. split; [lia|done].
  - intros [? ?]. split; [lia|done].
  - intros (? & ? & ?). split_and!; [lia|done..].
  - intros (? & ? & Hok). split_and!; [lia|done|]. intros ev Hev Hf. specialize (Hok ev Hev Hf).
    specialize (Hc e). lia.
Qed.

Lemma outstanding_fresh md s w : world_inv md s -> length (waits s) <= w -> outstanding w s = 0.
Proof.
  intros Hinv Hw. unfold outstanding.
  assert (forall {A} (f : A -> nat) l, (forall i x, l !! i = Some x -> f x = 0) ->
    sum_list_with f l = 0) as Hsum.
  { intros A f l. induction l as [|x l IH]; intros Hf; simpl; [done|].
    rewrite (Hf 0 x eq_refl), IH; [done|]. intros i y Hi. by apply (Hf (S i)). }
  rewrite !Hsum; [done|..].
  - intros i c Hi. pose proof (w_calls _ _ Hinv i c Hi) as Hok. destruct c; simpl in *; try done;
      destruct (Nat.eqb_spec w w0); try done; lia.
  - intros e ev He. apply countb_none. intros i w' Hi. apply Nat.eqb_neq. intros <-.
    apply list_elem_of_lookup_2 in Hi. pose proof (w_known _ _ Hinv e ev w He Hi). lia.
Qed.

(** A call is added that has not done anything yet; [xs] is the waiter it registers, if any. *)
Definition opening (c : call) : bool :=
  match c with SetFlag _ | ClearFlag _ | AddLock _ _ _ | PruneLock _ => true | _ => false end.

Lemma begin_inv_call md s c xs :
  world_inv md s -> opening c = true ->
  (md = Gil -> countb busy (calls s) = 0) -> (md <> Gil -> clears c = false) ->
  call_ok (mkWorld (events s) (waits s ++ xs) (calls s ++ [c])) c ->
  (forall w, w < length (waits s) -> pend w c = 0 /\ forall e, ~ to_add w e c) ->
  (forall k x, xs !! k = Some x -> count x = pend (length (waits s) + k) c /\ count x <> 0 /\
     resumed x = 0 /\ expired x = false /\
     (forall e, e ∈ events_of x <-> to_add (length (waits s) + k) e c)) ->
  world_inv md (mkWorld (events s) (waits s ++ xs) (calls s ++ [c])).
Proof.
  intros Hinv Hop Hgil Hcl Hok Hold Hnew.
  assert (forall w, outstanding w (mkWorld (events s) (waits s ++ xs) (calls s ++ [c]))
            = outstanding w s + pend w c) as Hout
    by (intros w; unfold outstanding; simpl; rewrite sum_list_with_app; simpl; lia).
  assert (forall f : call -> bool, (forall c, opening c = true -> f c = false) ->
    countb f (calls s ++ [c]) = countb f (calls s)) as Hcount
    by (intros f Hf; rewrite countb_app; simpl; rewrite (Hf c Hop); lia).
  assert (forall j c2, (calls s ++ [c]) !! j = Some c2 -> calls s !! j = Some c2 \/ c2 = c) as Hlk.
  { intros j c2 [|[_ [_ <-]%list_lookup_singleton_Some]]%lookup_app_Some; auto. }
  assert (forall w x, (waits s ++ xs) !! w = Some x -> waits s !! w = Some x \/
    exists k, w = length (waits s) + k /\ xs !! k = Some x) as Hwt.
  { intros w x [|[Hge Hx]]%lookup_app_Some; [by left|]. right. exists (w - length (waits s)).
    split; [lia|done]. }
  split; simpl.
  - intros e ev He. rewrite Hcount by (by intros []). by apply (w_lock _ _ Hinv).
  - intros e ev He. rewrite Hcount by (by intros []). by apply (w_notify _ _ Hinv).
  - apply Hinv.
  - intros j c2 [Hj| ->]%Hlk; [|done]. apply (call_ok_mono s); [done| | |by apply (w_calls _ _ Hinv j)].
    + simpl. rewrite length_app. lia.
    + intros e. simpl. rewrite countb_app. lia.
  - intros w x [Hx|(k & -> & Hk)]%Hwt; rewrite Hout.
    + destruct (Hold w) as [-> _]; [by eapply lookup_lt_Some|]. rewrite Nat.add_0_r.
      by apply (w_count _ _ Hinv).
    + destruct (Hnew k x Hk) as (Hc & Hne & Hr & -> & _).
      rewrite (outstanding_fresh md s _ Hinv) by lia. split; [lia|]. by destruct (count x).
  - intros w x e ev [Hx|(k & -> & Hk)]%Hwt He Hev.
    + destruct (w_events _ _ Hinv w x e ev Hx He Hev) as [|[|[(j & c2 & Hj & Hc2)|]]]; [auto..| |auto].
      do 2 right. left. exists j, c2. split; [by apply lookup_app_l_Some|done].
    + destruct (Hnew k x Hk) as (_ & _ & _ & _ & Hes). do 2 right. left. exists (length (calls s)), c.
      split; [by apply list_lookup_middle|by apply Hes].
  - intros w x e ev [Hx|(k & -> & Hk)]%Hwt He Hw; [by eapply (w_watches _ _ Hinv)|].
    pose proof (w_known _ _ Hinv e ev _ He Hw). lia.
  - intros j c2 w e x [Hj| ->]%Hlk Ha [Hx|(k & -> & Hk)]%Hwt.
    + by eapply (w_adds _ _ Hinv).
    + pose proof (w_calls _ _ Hinv j c2 Hj) as Hok2. destruct c2; simpl in *; try done;
        destruct Ha as [<- _]; lia.
    + destruct (Hold w) as [_ Hna]; [by eapply lookup_lt_Some|]. by destruct (Hna e).
    + destruct (Hnew k x Hk) as (_ & _ & _ & _ & Hes). by apply Hes.
  - intros e ev w He Hw. rewrite length_app. pose proof (w_known _ _ Hinv e ev w He Hw). lia.
  - intros Hmd. rewrite countb_app. simpl. rewrite (Hgil Hmd). destruct (busy c); simpl; lia.
  - intros Hmd. rewrite countb_app. simpl. rewrite (w_clear _ _ Hinv Hmd), (Hcl Hmd). done.
Qed.

Lemma begin_world_inv md x s s' :
  md <> Free -> world_inv md s -> begin md x s = Some s' ->
  match x with StSet e | StClear e | StPrune e => e < length (events s)
             | StRegister es => Forall (fun e => e < length (events s)) es end ->
  world_inv md s'.
Proof.
  intros Hmd Hinv Hb Hx. unfold begin in Hb.
  destruct (match md with Gil => existsb busy (calls s) | _ => false end) eqn:Hbusy; [done|].
  assert (md = Gil -> countb busy (calls s) = 0) as Hgil
    by (intros ->; by apply existsb_countb).
  destruct x as [e|e|[|e es]|e]; [| |done| |].
  - injection Hb as <-. rewrite <- (app_nil_r (waits s)).
    apply begin_inv_call; try done. intros w _. split; [done|by intros e' ?].
  - assert (md = Gil) as -> by (by destruct md). injection Hb as <-. rewrite <- (app_nil_r (waits s)).
    apply begin_inv_call; try done. intros w _. split; [done|by intros e' ?].
  - injection Hb as <-. apply begin_inv_call; try done.
    + simpl. rewrite length_app. simpl. split; [lia|done].
    + intros w Hw. simpl. destruct (Nat.eqb_spec w (length (waits s))); [lia|].
      split; [done|]. by intros e' [? _].
    + intros [|k] y Hy; [|done]. injection Hy as <-. simpl. rewrite Nat.add_0_r, Nat.eqb_refl.
      split_and!; [done..|]. intros e'. by split; [|intros [_ ?]].
  - injection Hb as <-. rewrite <- (app_nil_r (waits s)).
    apply begin_inv_call; try done. intros w _. split; [done|by intros e' ?].
Qed.

(** A timer. *)
Lemma expire_waits w s w' x' :
  waits (expire w s) !! w' = Some x' ->
  exists x, waits s !! w' = Some x /\ events_of x' = events_of x /\
    (x' = x \/ count x' = 0 /\ expired x' = true /\
                resumed x' = if count x =? 0 then resumed x else S (resumed x)).
Proof.
  unfold expire. destruct (waits s !! w) as [x|] eqn:Hx; [|intros H; exists x'; auto].
  destruct (_ =? 1); [|intros H; exists x'; auto]. simpl.
  destruct (decide (w' = w)) as [->|].
  - rewrite list_lookup_insert_eq by (by eapply lookup_lt_Some). intros [= <-]. exists x.
    split; [done|]. split; [done|]. by right.
  - rewrite list_lookup_insert_ne by done. intros H. exists x'. auto.
Qed.

Lemma expire_same w s :
  events (expire w s) = events s /\ calls (expire w s) = calls s /\
  length (waits (expire w s)) = length (waits s).
Proof.
  unfold expire. destruct (waits s !! w); [|done]. destruct (_ =? 1); [|done]. simpl.
  by rewrite length_insert.
Qed.

Lemma expire_inv md w s : world_inv md s -> world_inv md (expire w s).
Proof.
  intros Hinv. destruct (expire_same w s) as (He & Hc & Hl). split; rewrite ?He, ?Hc, ?Hl; try apply Hinv.
  - intros i c Hi. apply (call_ok_mono s); [done|lia|by rewrite Hc|by apply (w_calls _ _ Hinv i)].
  - intros w' x' (x & Hx & _ & Hor)%expire_waits. rewrite (outstanding_ext w' _ _ He Hc).
    destruct (w_count _ _ Hinv w' x Hx) as [H1 H2].
    destruct Hor as [->|(-> & -> & ->)]; [done|]. split; [done|]. rewrite H2.
    by destruct (count x =? 0).
  - intros w' x' e ev (x & Hx & -> & Hor)%expire_waits Hin Hev.
    destruct Hor as [->|(_ & -> & _)]; [by eapply (w_events _ _ Hinv)|auto].
  - intros w' x' e ev (x & Hx & -> & _)%expire_waits. by apply (w_watches _ _ Hinv w').
  - intros i c w' e x' Hi Ha (x & Hx & -> & _)%expire_waits. by eapply (w_adds _ _ Hinv i c).
Qed.

Lemma world0_inv md n : world_inv md (world0 n).
Proof.
  split; simpl; try done; try lia.
  - by intros e ev (-> & _)%lookup_replicate.
  - by intros e ev (-> & _)%lookup_replicate.
  - by intros e ev (-> & _)%lookup_replicate.
  - intros e ev w (-> & _)%lookup_replicate. by intros ?%not_elem_of_nil.
Qed.

Lemma world_reachable_inv md n s :
  md <> Free -> rtc (wstep md) (world0 n) s -> world_inv md s.
Proof.
  intros Hmd. apply (rtc_ind_r _ _ (world0_inv md n)).
  intros s1 s2 _ [[i Hstep]|[[w ->]|(x & Hb & Hx)]] Hinv.
  - by eapply access_inv.
  - by apply expire_inv.
  - by eapply begin_world_inv.
Qed.

(** ** At rest *)

Lemma access_blocked dead c ev : access dead c ev = None -> target c <> None -> locked ev = true.
Proof. destruct c; simpl; try done; by destruct (locked ev). Qed.

Lemma holder_moves dead e c ev : holder e c = true -> target c = Some e /\ access dead c ev <> None.
Proof.
  destruct c; simpl; try done; intros ->%Nat.eqb_eq; split; try done; by destruct l.
Qed.

Lemma at_rest_busy md s : world_inv md s -> at_rest s -> countb busy (calls s) = 0.
Proof.
  intros Hinv Hrest.
  assert (forall i c e ev, calls s !! i = Some c -> target c = Some e -> events s !! e = Some ev ->
    access (is_dead s) c ev = None) as Hstuck.
  { intros i c e ev Hi Ht Hev. specialize (Hrest i). unfold step_call in Hrest.
    rewrite Hi, Ht, Hev in Hrest. by destruct (access (is_dead s) c ev) as [[[? ?] ?]|]. }
  apply countb_none. intros i c Hi. destruct (busy c) eqn:Hb; [|done]. exfalso.
  assert (exists e, target c = Some e /\ e < length (events s)) as (e & Ht & Hlt).
  { pose proof (w_calls _ _ Hinv i c Hi) as Hok.
    destruct c as [e0|e0|e0|e0|e0|e0 l0|w0 e0 es0|w0 e0 es0|w0 e0 es0|w0 e0 es0|e0|e0|]; simpl in Hok;
      try done; exists e0; (split; [done|]); try done.
    1-3: destruct Hok as (ev & He & _); by eapply lookup_lt_Some.
    - by destruct Hok.
    - destruct Hok as [_ Hes]. by apply Forall_cons in Hes as [? _].
    - destruct Hok as [_ Hes]. by apply Forall_cons in Hes as [? _].
    - destruct Hok as (_ & Hes & _). by apply Forall_cons in Hes as [? _].
    - destruct Hok as (_ & Hes & _). by apply Forall_cons in Hes as [? _]. }
  destruct (lookup_lt_is_Some_2 _ _ Hlt) as [ev Hev].
  pose proof (access_blocked _ c ev (Hstuck i c e ev Hi Ht Hev) ltac:(congruence)) as Hlk.
  pose proof (w_lock _ _ Hinv e ev Hev) as Hh. rewrite Hlk in Hh.
  destruct (countb_pos_inv (holder e) (calls s)) as (j & c2 & Hj & Hc2); [lia|].
  destruct (holder_moves (is_dead s) e c2 ev Hc2) as [Ht2 Hmoves]. apply Hmoves. by eapply Hstuck.
Qed.

(** ** Calls end *)

Definition call_rank (c : call) : nat :=
  match c with
  | SetFlag _ | ClearFlag _ => 3
  | SetLock _ | ClearLock _ | PruneLock _ => 2
  | SetDrain _ | ClearHold _ _ | PruneBack _ => 1
  | AddLock _ _ es => 5 * S (length es)
  | AddLoad _ _ es => 4 + 5 * length es
  | AddWake _ _ es | AddPush _ _ es => 3 + 5 * length es
  | Finished => 0
  end.
Definition world_rank (s : world) : nat :=
  sum_list_with call_rank (calls s) + sum_list_with (fun ev => length (watchers ev)) (events s).

Lemma access_rank md i s s' :
  world_inv md s -> step_call i s = Some s' -> world_rank s' < world_rank s.
Proof.
  intros Hinv Hstep. unfold step_call in Hstep.
  destruct (calls s !! i) as [c|] eqn:Hi; [|done]. destruct (target c) as [e|] eqn:Ht; [|done].
  destruct (events s !! e) as [ev|] eqn:Hev; [|done].
  destruct (access (is_dead s) c ev) as [[[ev' c'] f]|] eqn:Hacc; [|done]. injection Hstep as <-.
  destruct (apply_effect_spec f (after s i e ev' c')) as (He & Hc & _).
  change (mkWorld _ _ _) with (after s i e ev' c'). unfold world_rank. rewrite He, Hc. simpl.
  pose proof (no_hold _ _ _ _ _ _ _ _ _ Hinv Hi Ht Hev Hacc) as Hh.
  pose proof (sum_list_with_insert call_rank _ _ _ c' Hi) as H1.
  pose proof (sum_list_with_insert (fun ev => length (watchers ev)) _ _ _ ev' Hev) as H2.
  clear Hi Hev He Hc Hinv. simpl in H2.
  assert (call_rank c' + length (watchers ev') < call_rank c + length (watchers ev)); [|lia].
  destruct c as [e0|e0|e0|e0|e0|e0 l0|w0 e0 es0|w0 e0 es0|w0 e0 es0|w0 e0 es0|e0|e0|];
    simpl in Hacc; simplify_eq; repeat case_match; simplify_eq/=;
    try (by destruct (Hh _ eq_refl));
    repeat match goal with H : watchers _ = _ |- _ => rewrite H in * end;
    rewrite ?length_app; simpl; try lia; try (destruct es0; simpl; lia).
  match goal with H : last (watchers ev) = Some _ |- _ =>
    pose proof (f_equal length (last_removelast _ _ H)) as Hlen end.
  rewrite length_app in Hlen. simpl in Hlen. lia.
Qed.

Lemma calls_end md s :
  world_inv md s -> Acc (fun s' s => exists i, step_call i s = Some s') s.
Proof.
  remember (world_rank s) as r eqn:Hr. revert s Hr.
  induction r as [r IH] using lt_wf_ind. intros s -> Hinv. constructor. intros s' [i Hstep].
  eapply IH; [by eapply access_rank|done|by eapply access_inv].
Qed.

(** ** The theorem *)

Lemma outstanding_no_add w s i c e : outstanding w s = 0 -> calls s !! i = Some c -> ~ to_add w e c.
Proof.
  intros Ho Hi Ha. unfold outstanding in Ho.
  assert (pend w c = 0) as Hz by (eapply sum_list_with_zero; [|done]; lia).
  destruct c; simpl in *; try done; destruct Ha as [-> _]; by rewrite Nat.eqb_refl in Hz.
Qed.

Lemma rest_outstanding md s w x :
  world_inv md s -> at_rest s -> waits s !! w = Some x ->
  (forall e, e ∈ events_of x -> exists ev, events s !! e = Some ev /\ flag ev = true) ->
  outstanding w s = 0.
Proof.
  intros Hinv Hrest Hx Hset. pose proof (at_rest_busy md s Hinv Hrest) as Hb.
  assert (forall i c, calls s !! i = Some c -> c = Finished) as Hdone.
  { intros i c Hi. destruct (busy c) eqn:Hc; [|by destruct c].
    pose proof (countb_lookup_pos _ _ _ _ Hi Hc). lia. }
  assert (forall {A} (f : A -> nat) l, (forall i x, l !! i = Some x -> f x = 0) ->
    sum_list_with f l = 0) as Hsum.
  { intros A f l. induction l as [|y l IH]; intros Hf; simpl; [done|].
    rewrite (Hf 0 y eq_refl), IH; [done|]. intros i z Hi. by apply (Hf (S i)). }
  unfold outstanding. rewrite !Hsum; [done|..].
  - by intros i c ->%Hdone.
  - intros e ev Hev. apply countb_none. intros k w' Hk. apply Nat.eqb_neq. intros <-.
    apply list_elem_of_lookup_2 in Hk.
    destruct (Hset e (w_watches _ _ Hinv w x e ev Hx Hev Hk)) as (ev2 & Hev2 & Hf).
    rewrite Hev in Hev2. injection Hev2 as <-.
    pose proof (w_notify _ _ Hinv e ev Hev Hf ltac:(intros H; rewrite H in Hk; by apply not_elem_of_nil in Hk)) as Hn.
    apply countb_pos_inv in Hn as (j & c & Hj & Hc). by rewrite (Hdone j c Hj) in Hc.
Qed.

(** Every event the waiter waits for is set. *)
Definition all_flags (s : world) (x : waiting) : Prop :=
  forall e, e ∈ events_of x -> exists ev, events s !! e = Some ev /\ flag ev = true.


(** ** Executions *)

Inductive wact := DoCall (i : nat) | DoStart (x : start) | DoExpire (w : nat).

Fixpoint do_wacts (md : mode) (l : list wact) (s : world) : option world :=
  match l with
  | [] => Some s
  | a :: l =>
      match match a with
            | DoCall i => step_call i s
            | DoExpire w => Some (expire w s)
            | DoStart x =>
                if match x with
                   | StSet e | StClear e | StPrune e => e <? length (events s)
                   | StRegister es => forallb (fun e => e <? length (events s)) es
                   end then begin md x s else None
            end with
      | Some s' => do_wacts md l s'
      | None => None
      end
  end.

Lemma do_wacts_steps md l s s' : do_wacts md l s = Some s' -> rtc (wstep md) s s'.
Proof.
  revert s. induction l as [|a l IH]; simpl; intros s Hl; [by simplify_eq|].
  destruct a as [i|x|w].
  - destruct (step_call i s) as [q|] eqn:Ha; [|done]. eapply rtc_l; [left; by exists i|by apply IH].
  - match type of Hl with context [if ?b then _ else _] => destruct b eqn:Hb end; [|done].
    destruct (begin md x s) as [q|] eqn:Ha; [|done]. eapply rtc_l; [do 2 right|by apply IH].
    exists x. split; [done|]. destruct x as [e|e|es|e]; try (by apply Nat.ltb_lt).
    apply Forall_forall. intros e He. apply Nat.ltb_lt.
    rewrite forallb_forall in Hb. apply Hb. by apply list_elem_of_In.
  - eapply rtc_l; [right; left; by exists w|by apply IH].
Qed.

(** A waiter of two events: one is set before it registers, the other races with it. *)
Definition two_events : list wact :=
  [DoStart (StSet 0); DoCall 0; DoCall 0; DoCall 0; DoStart (StRegister [0; 1]);
   DoCall 1; DoCall 1; DoCall 1; DoCall 1; DoCall 1; DoStart (StSet 1); DoCall 2; DoCall 1;
   DoCall 2; DoCall 2; DoCall 2].


(** A waiter whose timer fires, and the next one of the same event, which removes its waker. *)
Example expired_waker_removed :
  (fun s => (map watchers (events s), waits s)) <$>
    do_wacts Gil [DoStart (StRegister [0]); DoCall 0; DoCall 0; DoCall 0; DoExpire 0;
                  DoStart (StPrune 0); DoCall 1; DoCall 1; DoCall 1] (world0 1)
  = Some ([[]], [mkWaiting 0 1 [0] true]).
Proof. by vm_compute. Qed.

(** Without the global lock, [clear] may come between the two halves of [set]: it holds the waker,
    which [set] then uses up, and the waiter has missed the event for good. *)
Definition set_against_clear : list wact :=
  [DoStart (StRegister [0; 1]); DoCall 0; DoCall 0; DoCall 0; DoCall 0; DoCall 0; DoCall 0;
   DoStart (StSet 0); DoCall 1; DoStart (StClear 0); DoCall 2; DoCall 2; DoCall 2; DoCall 2;
   DoCall 1; DoCall 1; DoCall 1;
   DoStart (StSet 0); DoCall 3; DoCall 3; DoCall 3; DoStart (StSet 1); DoCall 4; DoCall 4; DoCall 4;
   DoCall 4].

Lemma clear_makes_waiter_miss :
  exists s, rtc (wstep Free) (world0 2) s /\ at_rest s /\
    map flag (events s) = [true; true] /\ map watchers (events s) = [[]; []] /\
    waits s = [mkWaiting 1 0 [0; 1] false].
Proof.
  destruct (do_wacts Free set_against_clear (world0 2)) as [s|] eqn:Hs; [|by vm_compute in Hs].
  exists s. split; [by eapply do_wacts_steps|]. vm_compute in Hs. injection Hs as <-.
  split; [|done]. intros [|[|[|[|[|i]]]]]; reflexivity.
Qed.
