(* ===== verification/Timers.v ===== *)
(** * The timers of the runtime

    [Timer] of [src/src/time.rs] with its inverted order, and what [Runtime::poll] and
    [Runtime::add_timer] of [src/src/runtime.rs] do with the heap of timers: how long the poller
    may sleep, and which timers are handed to the workers when it wakes up.  [BinaryHeap] is the
    standard library's: [peek] gives one of the greatest elements, [pop] removes that one.

    The poller and the threads that add timers run side by side, while time passes.  [Poll::poll]
    and [Waker] are those of mio: a call returns when its timeout is over, or when the waker was
    used since the last return that reported it, and it may return at any other time because of
    a descriptor. *)

From stdpp Require Import base numbers list sorting relations.
From Stdlib Require Import ZArith Lia.
From S2P Require Import Prelude.

Open Scope Z_scope.

(** [when] is a [u128] in microseconds since the runtime's epoch; the target is the suspension the
    timer resumes, by its number. *)
Record Timer := mkTimer { when : Z; target : nat }.
#[export] Instance Timer_eq_dec : EqDecision Timer.
Proof. solve_decision. Defined.

(** [impl Ord for Timer]: the earlier timer is the greater. *)
Definition cmp (a b : Timer) : comparison :=
  if when a <? when b then Gt else if when b <? when a then Lt else Eq.

(** [BinaryHeap::peek] and [pop]: a greatest element, and the others. *)
Fixpoint pop (h : list Timer) : option (Timer * list Timer) :=
  match h with
  | [] => None
  | t :: h =>
      match pop h with
      | None => Some (t, [])
      | Some (u, rest) =>
          match cmp t u with Lt => Some (u, t :: rest) | _ => Some (t, u :: rest) end
      end
  end.
Definition peek (h : list Timer) : option Timer := fst <$> pop h.

(** [Waiter::register]: [when] of a wait that begins at [clock]. *)
Definition timer_when (clock timeout : Z) : Z := clock + timeout.

(** The first part of [poll]: how long to sleep, [None] without a limit.  The difference is cast
    to [u64]. *)
Definition sched_time (tick : Z) (h : list Timer) : option Z :=
  match peek h with
  | Some t => Some (if tick <? when t then (when t - tick) mod 2 ^ 64 else 0)
  | None => None
  end.

(** The loop over the timers that are due: those handed to the workers, in order, and the heap
    that is left.  It runs as long as there are timers, which the length bounds. *)
Fixpoint fire (fuel : nat) (tick : Z) (h : list Timer) : list Timer * list Timer :=
  match fuel with
  | O => ([], h)
  | S fuel =>
      match pop h with
      | None => ([], h)
      | Some (t, rest) =>
          if tick <? when t then ([], h)
          else let (fired, left) := fire fuel tick rest in (t :: fired, left)
      end
  end.

Definition handle_timers (tick : Z) (h : list Timer) : list Timer * list Timer :=
  match peek h with
  | Some t => if when t <=? tick then fire (length h) tick h else ([], h)
  | None => ([], h)
  end.

(** ** The poller and the threads that add timers *)

(** Where the poller is: about to look at the heap; with the timeout it chose at [chosen]; in
    [Poll::poll], which it entered [lag] later and which lasts until [deadline]; about to handle
    the timers. *)
Inductive poller :=
| Looks
| Chose (chosen : Z) (timeout : option Z)
| Sleeps (lag : Z) (deadline : option Z)
| Handles.

(** [add_timer]: [guard.push(timer)], then [self.wake()]. *)
Inductive adder := Pushes (t : Timer) | Pokes.

(** [poked] is mio's waker; [fired] the batches handed over, with the time of each. *)
Record state := mkState {
  clock : Z; heap : list Timer; poked : bool; adders : list adder; at_ : poller;
  added : list Timer; fired : list (Z * list Timer) }.

(** The end of a wait that begins now. *)
Definition deadline_at (now : Z) (d : option Z) : option Z := Z.add now <$> d.

Definition over (now : Z) (deadline : option Z) : bool :=
  match deadline with Some d => d <=? now | None => false end.

(** The poller's next access; [None] while it sleeps. *)
Definition poller_step (s : state) : option state :=
  match at_ s with
  | Looks => Some (mkState (clock s) (heap s) (poked s) (adders s)
                     (Chose (clock s) (sched_time (clock s) (heap s))) (added s) (fired s))
  | Chose c d => Some (mkState (clock s) (heap s) (poked s) (adders s)
                         (Sleeps (clock s - c) (deadline_at (clock s) d)) (added s) (fired s))
  | Sleeps _ d => if poked s || over (clock s) d
                  then Some (mkState (clock s) (heap s) false (adders s) Handles (added s) (fired s))
                  else None
  | Handles => let (due, left) := handle_timers (clock s) (heap s) in
               Some (mkState (clock s) left (poked s) (adders s) Looks (added s)
                       (fired s ++ [(clock s, due)]))
  end.

(** [add_timer] for a wait of [timeout] that begins now, and the rest of the call. *)
Definition add_timer (timeout : Z) (s : state) : state :=
  let t := mkTimer (timer_when (clock s) timeout) (length (added s)) in
  mkState (clock s) (heap s) (poked s) (adders s ++ [Pushes t]) (at_ s) (added s ++ [t]) (fired s).

Definition adder_step (i : nat) (s : state) : option state :=
  match adders s !! i with
  | Some (Pushes t) => Some (mkState (clock s) (t :: heap s) (poked s) (<[i:=Pokes]> (adders s))
                               (at_ s) (added s) (fired s))
  | Some Pokes => Some (mkState (clock s) (heap s) true (delete i (adders s))
                          (at_ s) (added s) (fired s))
  | None => None
  end.

Inductive tstep : state -> state -> Prop :=
| TPoller s s' : poller_step s = Some s' -> tstep s s'
| TReady s lag d :                               (* a descriptor is ready *)
    at_ s = Sleeps lag d ->
    tstep s (mkState (clock s) (heap s) (poked s) (adders s) Handles (added s) (fired s))
| TAdd s timeout : 0 <= timeout -> tstep s (add_timer timeout s)
| TAdder s s' i : adder_step i s = Some s' -> tstep s s'
| TClock s now : clock s <= now ->
    tstep s (mkState now (heap s) (poked s) (adders s) (at_ s) (added s) (fired s)).

Definition timers0 (now : Z) : state := mkState now [] false [] Looks [] [].

(** The poller on its own, for at most [n] accesses. *)
Fixpoint poll_alone (n : nat) (s : state) : state :=
  match n with
  | O => s
  | S n => match poller_step s with Some s' => poll_alone n s' | None => s end
  end.

(** ** The heap *)

Definition earlier (a b : Timer) : Prop := when a <= when b.
#[export] Instance earlier_trans : Transitive earlier.
Proof. unfold earlier. intros x y z. lia. Qed.

Lemma cmp_spec a b : match cmp a b with Lt => when b < when a | _ => when a <= when b end.
Proof.
  unfold cmp. destruct (Z.ltb_spec (when a) (when b)); [lia|].
  destruct (Z.ltb_spec (when b) (when a)); lia.
Qed.

Lemma pop_spec h :
  match pop h with
  | Some (t, rest) => h ≡ₚ t :: rest /\ Forall (earlier t) rest
  | None => h = []
  end.
Proof.
  induction h as [|t h IH]; simpl; [done|].
  destruct (pop h) as [[u rest]|]; [|by subst]. destruct IH as [Hp Hf].
  pose proof (cmp_spec t u) as Hc.
  assert (when t <= when u -> h ≡ₚ u :: rest /\ Forall (earlier t) (u :: rest)) as Hle.
  { intros Hle. split; [done|]. constructor; [done|]. eapply Forall_impl; [exact Hf|].
    intros v Hv. unfold earlier in *. lia. }
  destruct (cmp t u); [rewrite (proj1 (Hle Hc)); split; [done|by apply Hle]| |
    rewrite (proj1 (Hle Hc)); split; [done|by apply Hle]].
  rewrite Hp. split; [apply Permutation_swap|]. constructor; [unfold earlier; lia|done].
Qed.

Lemma fire_spec fuel tick h :
  (length h <= fuel)%nat ->
  let (fired, left) := fire fuel tick h in
  fired ++ left ≡ₚ h /\ StronglySorted earlier fired /\
  Forall (fun t => when t <= tick) fired /\ Forall (fun t => tick < when t) left.
Proof.
  revert h. induction fuel as [|fuel IH]; intros h Hlen; simpl.
  { destruct h; simpl in Hlen; [|lia]. split_and!; [done|constructor|constructor..]. }
  pose proof (pop_spec h) as Hpop. destruct (pop h) as [[t rest]|];
    [|subst; split_and!; [done|constructor|constructor..]].
  destruct Hpop as [Hp Hf]. destruct (Z.ltb_spec tick (when t)) as [Hlt|Hle].
  - split_and!; [done|constructor|constructor|]. rewrite Hp. constructor; [done|].
    eapply Forall_impl; [exact Hf|]. unfold earlier. simpl. lia.
  - assert (length rest <= fuel)%nat as Hlen'
      by (apply Permutation_length in Hp; simpl in Hp; lia).
    specialize (IH rest Hlen'). destruct (fire fuel tick rest) as [fired left].
    destruct IH as (Hp2 & Hs & Hd & Hn). split_and!.
    + rewrite Hp. simpl. by rewrite Hp2.
    + constructor; [done|]. rewrite <- Hp2 in Hf. by apply Forall_app in Hf as [Hf _].
    + by constructor.
    + done.
Qed.

(** ** What the poller does *)

(** The timers that are due are handed over, the earliest first. *)
Lemma handle_timers_spec tick h :
  let (due, left) := handle_timers tick h in
  due ++ left ≡ₚ h /\ StronglySorted earlier due /\
  Forall (fun t => when t <= tick) due /\ Forall (fun t => tick < when t) left.
Proof.
  pose proof (pop_spec h) as Hpop. unfold handle_timers, peek.
  pose proof (fire_spec (length h) tick h (le_n _)) as Hfire.
  destruct (pop h) as [[t rest]|] eqn:Hh; simpl;
    [|subst; split_and!; [done|constructor|constructor..]].
  destruct (Z.leb_spec (when t) tick) as [|Hlt]; [done|]. destruct Hpop as [Hp Hf].
  split_and!; [done|constructor|constructor|]. rewrite Hp. constructor; [done|].
  eapply Forall_impl; [exact Hf|]. unfold earlier. simpl. lia.
Qed.

(** The timeout does not reach past a timer that is not yet due: the cast to [u64] can only make
    it shorter. *)
Definition covers (chosen : Z) (d : option Z) (t : Timer) : Prop :=
  exists x, d = Some x /\ 0 <= x /\ chosen + x <= Z.max chosen (when t).

Lemma sched_time_covers tick h : Forall (covers tick (sched_time tick h)) h.
Proof.
  unfold sched_time, peek. pose proof (pop_spec h) as Hpop.
  destruct (pop h) as [[t rest]|]; simpl; [|by subst]. destruct Hpop as [Hp Hf].
  assert (Forall (earlier t) h) as Hall.
  { rewrite Hp. constructor; [unfold earlier; lia|done]. }
  eapply Forall_impl; [exact Hall|]. intros u Hu. unfold earlier in Hu. eexists. split; [done|].
  destruct (Z.ltb_spec tick (when t)); [|lia].
  pose proof (Z.mod_pos_bound (when t - tick) (2 ^ 64)).
  pose proof (Z.mod_le (when t - tick) (2 ^ 64)). lia.
Qed.

(** ** The invariant *)

Definition pushing (a : adder) : option Timer := match a with Pushes t => Some t | Pokes => None end.

(** What the timeout of the poller means for a timer in the heap. *)
Definition awaits (s : state) (t : Timer) : Prop :=
  match at_ s with
  | Chose c d => covers c d t
  | Sleeps lag d => exists x, d = Some x /\ x <= Z.max (clock s) (when t + lag)
  | Looks | Handles => True
  end.

(** A batch is handed over when it is due, in order. *)
Definition batch_ok (b : Z * list Timer) : Prop :=
  StronglySorted earlier b.2 /\ Forall (fun t => when t <= b.1) b.2.

Record tinv (s : state) : Prop := {
  t_all : added s ≡ₚ concat (fired s).*2 ++ heap s ++ omap pushing (adders s);
  t_fired : Forall batch_ok (fired s);
  t_chosen : forall c d, at_ s = Chose c d -> c <= clock s;
  t_awaits : poked s = true \/ Pokes ∈ adders s \/ Forall (awaits s) (heap s)
}.

Lemma awaits_trivial s h : at_ s = Looks \/ at_ s = Handles -> Forall (awaits s) h.
Proof. intros Hs. apply Forall_true. intros t. unfold awaits. by destruct Hs as [-> | ->]. Qed.

Lemma poller_inv s s' : tinv s -> poller_step s = Some s' -> tinv s'.
Proof.
  intros [Hall Hf Hc Ha] Hstep. unfold poller_step in Hstep.
  destruct (at_ s) as [|c d|lag d|] eqn:Hat.
  - injection Hstep as <-. split; simpl; [done..| |].
    + intros c d [= <- _]. lia.
    + do 2 right. apply sched_time_covers.
  - injection Hstep as <-. split; simpl; [done..|]. specialize (Hc c d eq_refl).
    destruct Ha as [|[|Ha]]; [auto..|]. do 2 right. eapply Forall_impl; [exact Ha|].
    unfold awaits. rewrite Hat. simpl. intros t (x & -> & H0 & Hx). eexists. split; [done|]. lia.
  - destruct (_ || _); [|done]. injection Hstep as <-. split; simpl; [done..|].
    do 2 right. apply awaits_trivial. by right.
  - pose proof (handle_timers_spec (clock s) (heap s)) as Hspec.
    destruct (handle_timers (clock s) (heap s)) as [due left]. injection Hstep as <-.
    destruct Hspec as (Hp & Hs & Hd & _). split; simpl; [|..|done|].
    + rewrite fmap_app, concat_app. simpl. rewrite app_nil_r, <- !app_assoc, Hall, <- Hp.
      by rewrite <- !app_assoc.
    + apply Forall_app. split; [done|]. by apply Forall_singleton.
    + do 2 right. apply awaits_trivial. by left.
Qed.

Lemma adder_inv i s s' : tinv s -> adder_step i s = Some s' -> tinv s'.
Proof.
  intros [Hall Hf Hc Ha] Hstep. unfold adder_step in Hstep.
  destruct (adders s !! i) as [[t|]|] eqn:Hi; simplify_eq.
  - split; simpl; [|done..|].
    + pose proof (omap_insert_perm pushing _ _ _ Pokes Hi) as Hp. simpl in Hp. rewrite Hall, Hp.
      by rewrite <- Permutation_middle.
    + right. left. apply list_elem_of_insert. by eapply lookup_lt_Some.
  - split; simpl; [|done..|by left]. rewrite Hall.
    apply list_elem_of_split_length in Hi as (l1 & l2 & -> & ->).
    rewrite delete_middle, !omap_app. done.
Qed.

Lemma tstep_inv s s' : tinv s -> tstep s s' -> tinv s'.
Proof.
  intros Hinv Hstep. destruct Hstep as [? ? Hp|? lag d Hat|? timeout Ht|? ? i Hi|? now Hnow].
  - by eapply poller_inv.
  - destruct Hinv as [Hall Hf Hc Ha]. split; simpl; [done..|]. do 2 right.
    apply awaits_trivial. by right.
  - destruct Hinv as [Hall Hf Hc Ha]. split; simpl; [|done..|].
    + rewrite omap_app, Hall. simpl. by rewrite !app_assoc.
    + destruct Ha as [|[|]]; [auto|right; left; apply elem_of_app; by left|auto].
  - by eapply adder_inv.
  - destruct Hinv as [Hall Hf Hc Ha]. split; simpl; [done..| |].
    + intros c d Hcd. specialize (Hc c d Hcd). lia.
    + destruct Ha as [|[|Ha]]; [auto..|]. do 2 right. eapply Forall_impl; [exact Ha|].
      unfold awaits. simpl. intros t. destruct (at_ _); try done.
      intros (x & -> & Hx). exists x. split; [done|lia].
Qed.

Lemma timers0_inv now s : rtc tstep (timers0 now) s -> tinv s.
Proof.
  apply (rtc_ind_r tinv). 
  - split; simpl; [done|constructor|done|]. do 2 right. constructor.
  - intros s1 s2 _ Hstep Hinv. by eapply tstep_inv.
Qed.

(** ** The poller on its own *)

(** How long ago the timeout in force was chosen when the wait began. *)
Definition lag_of (s : state) : Z :=
  match at_ s with Chose c _ => clock s - c | Sleeps lag _ => lag | Looks | Handles => 0 end.

Definition has_fired (t : Timer) (s : state) : Prop := t ∈ concat (fired s).*2.

Lemma poll_alone_keeps n t s : has_fired t s -> has_fired t (poll_alone n s).
Proof.
  revert s. induction n as [|n IH]; intros s Ht; simpl; [done|].
  destruct (poller_step s) as [s'|] eqn:Hs; [|done]. apply IH. unfold poller_step in Hs.
  destruct (at_ s); [..|destruct (handle_timers _ _)]; repeat case_match; simplify_eq; try done.
  unfold has_fired in *. simpl. rewrite fmap_app, concat_app, elem_of_app. by left.
Qed.

Section Due.
Context (t : Timer).

Lemma handles_due n s :
  at_ s = Handles -> t ∈ heap s -> when t <= clock s -> has_fired t (poll_alone (S n) s).
Proof.
  intros Hat Hin Hdue. simpl. unfold poller_step. rewrite Hat.
  pose proof (handle_timers_spec (clock s) (heap s)) as Hspec.
  destruct (handle_timers (clock s) (heap s)) as [due left].
  destruct Hspec as (Hp & _ & _ & Hl). apply poll_alone_keeps. unfold has_fired. simpl.
  rewrite fmap_app, concat_app, elem_of_app. right. simpl. rewrite app_nil_r.
  rewrite <- Hp, elem_of_app in Hin. destruct Hin as [|Hin]; [done|].
  rewrite Forall_forall in Hl. specialize (Hl t Hin). simpl in Hl. lia.
Qed.

Lemma sleeps_due n s lag d :
  tinv s -> at_ s = Sleeps lag d -> Pokes ∉ adders s -> t ∈ heap s ->
  when t <= clock s -> when t + lag <= clock s -> has_fired t (poll_alone (S (S n)) s).
Proof.
  intros Hinv Hat Hno Hin Hw Hlag. cbn [poll_alone]. unfold poller_step at 1. rewrite Hat.
  replace (poked s || over (clock s) d) with true; [by apply handles_due|].
  symmetry. destruct (t_awaits s Hinv) as [->|[|Ha]]; [done|done|].
  rewrite Forall_forall in Ha. specialize (Ha t Hin). unfold awaits in Ha. rewrite Hat in Ha.
  destruct Ha as (x & -> & Hx). simpl. apply orb_true_iff. right. apply Z.leb_le. lia.
Qed.

Lemma chose_due n s c d :
  tinv s -> at_ s = Chose c d -> Pokes ∉ adders s -> t ∈ heap s ->
  when t <= clock s -> when t + (clock s - c) <= clock s ->
  has_fired t (poll_alone (S (S (S n))) s).
Proof.
  intros Hinv Hat Hno Hin Hw Hlag. cbn [poll_alone].
  destruct (poller_step s) as [s'|] eqn:Hs; [|unfold poller_step in Hs; by rewrite Hat in Hs].
  pose proof (poller_inv s s' Hinv Hs) as Hinv'. unfold poller_step in Hs. rewrite Hat in Hs.
  injection Hs as <-. by eapply sleeps_due.
Qed.

Lemma poll_alone_due s :
  tinv s -> Pokes ∉ adders s -> t ∈ heap s -> when t <= clock s ->
  when t + lag_of s <= clock s -> has_fired t (poll_alone 4 s).
Proof.
  intros Hinv Hno Hin Hw Hlag. unfold lag_of in Hlag. destruct (at_ s) as [|c d|lag d|] eqn:Hat.
  - change (poll_alone 4 s) with
      (match poller_step s with Some s' => poll_alone 3 s' | None => s end).
    destruct (poller_step s) as [s'|] eqn:Hs; [|unfold poller_step in Hs; by rewrite Hat in Hs].
    pose proof (poller_inv s s' Hinv Hs) as Hinv'. unfold poller_step in Hs. rewrite Hat in Hs.
    injection Hs as <-. eapply chose_due; try done. simpl. lia.
  - by eapply chose_due.
  - by eapply sleeps_due.
  - by apply handles_due.
Qed.
End Due.

(** [C23] Timers fire once, in order, never early, and none is slept through: whatever the threads
    that add timers, the clock and the descriptors do, every timer that was added has been handed
    over once, or is in the heap, or is still being pushed; each batch handed over was due then and
    is sorted by time; and a timer in the heap whose time has come, by more than the time that the
    poller took from choosing its timeout to the start of its wait, is handed over within four
    accesses of the poller, once no thread is between pushing its timer and waking the poller. *)
Theorem timers_fire_in_order now s :
  rtc tstep (timers0 now) s ->
  added s ≡ₚ concat (fired s).*2 ++ heap s ++ omap pushing (adders s) /\
  Forall batch_ok (fired s) /\
  (Pokes ∉ adders s -> forall t, t ∈ heap s -> when t <= clock s -> when t + lag_of s <= clock s ->
   has_fired t (poll_alone 4 s)).
Proof.
  intros Hs%timers0_inv. split_and!; [by apply t_all|by apply t_fired|].
  intros Hno t. by apply poll_alone_due.
Qed.

(** A timer of 5 is added while the poller sleeps without a limit; then 10 pass. *)
Definition example_run : state :=
  let s := poll_alone 2 (timers0 10) in
  let s := add_timer 5 s in
  let s := default s (adder_step 0 s) in
  let s := default s (adder_step 0 s) in
  let s := mkState 20 (heap s) (poked s) (adders s) (at_ s) (added s) (fired s) in
  s.

Lemma example_run_reachable : rtc tstep (timers0 10) example_run.
Proof.
  eapply rtc_l; [by apply TPoller|]. eapply rtc_l; [by apply TPoller|].
  eapply rtc_l; [by apply (TAdd _ 5)|]. eapply rtc_l; [by apply (TAdder _ _ 0)|].
  eapply rtc_l; [by apply (TAdder _ _ 0)|]. eapply rtc_l; [by apply (TClock _ 20)|]. apply rtc_refl.
Qed.

Lemma timers_fire_in_order_witness :
  Forall batch_ok (fired example_run) /\ has_fired (mkTimer 15 0) (poll_alone 4 example_run).
Proof.
  destruct (timers_fire_in_order 10 example_run example_run_reachable) as (_ & Hf & Hd).
  split; [exact Hf|]. apply Hd; [|by left|by vm_compute|by vm_compute].
  change (adders example_run) with (@nil adder). apply not_elem_of_nil.
Defined.

(** Three timers, two of them due. *)
Example timers_example :
  handle_timers 10 [mkTimer 30 1; mkTimer 8 2; mkTimer 5 3]
  = ([mkTimer 5 3; mkTimer 8 2], [mkTimer 30 1]) /\
  sched_time 10 [mkTimer 30 1; mkTimer 12 2] = Some 2.
Proof. by vm_compute. Qed.
