(* ===== verification/Plugin.v ===== *)
(** * The pytest plugin

    [src/tonio/_testutils/_pytest_plugin.py]: the hooks that run coroutine tests and fixtures on
    one runtime.  pytest is not part of the sources: what its own hooks do is a parameter, and so
    is what a coroutine ends with once it is called, which [Runtime.run_until_complete] returns.
    [PluginProps] has the theorems. *)

From stdpp Require Import base numbers list gmap strings.
From Stdlib Require Import ZArith List.
From S2P Require Import Prelude Os Runtime.

Open Scope string_scope.

(** ** Functions, fixtures and their arguments *)

(** What the predicates of [inspect] tell apart. *)
Inductive fkind := PlainFunction | GeneratorFunction | CoroutineFunction | AsyncGenFunction.
#[export] Instance fkind_eq_dec : EqDecision fkind.
Proof. solve_decision. Defined.

(** The value of the [tonio_runtime] fixture: a dict of options, whose values are integers or
    [None], or anything else. *)
Definition runtime_options : Type := gmap string (option Z).
Inductive backend := BDict (d : runtime_options) | BOther (v : pyobj).

Record instance := mkInstance { i_id : nat; i_class : nat; i_true : bool }.

(** Functions, bound methods, and the two closures of the plugin. *)
Inductive callable :=
| Fn (k : fkind) (n : nat)
| Method (k : fkind) (n : nat) (self : instance)
| Wrapper (func : callable) (has_runtime_arg has_request_arg : bool)
| WithHypothesis (original_func : callable) (options : runtime_options).

Definition kind_of (f : callable) : fkind :=
  match f with
  | Fn k _ | Method k _ _ => k
  | Wrapper _ _ _ => GeneratorFunction
  | WithHypothesis _ _ => PlainFunction
  end.
Definition isasyncgenfunction (f : callable) : bool := bool_decide (kind_of f = AsyncGenFunction).
Definition iscoroutinefunction (f : callable) : bool := bool_decide (kind_of f = CoroutineFunction).
Definition isgeneratorfunction (f : callable) : bool := bool_decide (kind_of f = GeneratorFunction).

Record request := mkRequest { fixturenames : list string; rq_instance : option instance }.

Inductive arg := ARuntime (b : backend) | ARequest (r : request) | AValue (v : pyobj).
Abbreviation kwargs := (gmap string arg).

Record fixturedef := mkFixturedef { fd_func : callable; fd_argnames : list string }.

(** ** State *)

(** The runtime of the process, the two globals of the module, the fixture definitions of the
    session and the [inner_test] of functions under hypothesis. *)
Record session := mkSession {
  RUNTIME : option config; _current_runner : option config; _runner_stack : bool;
  fixturedefs : gmap nat fixturedef; inner_tests : gmap nat callable }.

Definition plM (A : Type) : Type := session -> result A * session.
Definition lret {A} (a : A) : plM A := fun s => (Ok a, s).
Definition lraise {A} (e : exn) : plM A := fun s => (Err e, s).
Definition lbind {A B} (c : plM A) (k : A -> plM B) : plM B :=
  fun s => match c s with (Ok a, s') => k a s' | (Err e, s') => (Err e, s') end.
Definition lresult {A} (r : result A) : plM A := fun s => (r, s).
Definition lget {A} (f : session -> A) : plM A := fun s => (Ok (f s), s).
Definition lset (f : session -> session) : plM unit := fun s => (Ok tt, f s).
(** [try: c except ..]; [None] where no clause matches. *)
Definition ltry {A} (c : plM A) (h : exn -> option (plM A)) : plM A :=
  fun s => match c s with
           | (Err e, s') => match h e with Some d => d s' | None => (Err e, s') end
           | r => r
           end.
(** [try: c finally: f] where [f] only assigns. *)
Definition lfinally {A} (c : plM A) (f : session -> session) : plM A :=
  fun s => let '(r, s') := c s in (r, f s').

Declare Scope plugin_scope.
Delimit Scope plugin_scope with plugin.
Open Scope plugin_scope.
Notation "'let*' x ':=' c 'in' k" := (lbind c (fun x => k))
  (at level 10, x name, k at level 200) : plugin_scope.
Notation "c '>>>' k" := (lbind c (fun _ => k)) (at level 100, right associativity) : plugin_scope.

Definition set_RUNTIME (c : config) (s : session) : session :=
  mkSession (Some c) (_current_runner s) (_runner_stack s) (fixturedefs s) (inner_tests s).
Definition set_current_runner (c : config) (s : session) : session :=
  mkSession (RUNTIME s) (Some c) (_runner_stack s) (fixturedefs s) (inner_tests s).
Definition set_runner_stack (s : session) : session :=
  mkSession (RUNTIME s) (_current_runner s) true (fixturedefs s) (inner_tests s).
Definition set_fixturedef (i : nat) (d : fixturedef) (s : session) : session :=
  mkSession (RUNTIME s) (_current_runner s) (_runner_stack s) (<[i:=d]> (fixturedefs s))
    (inner_tests s).
Definition set_inner_test (i : nat) (f : callable) (s : session) : session :=
  mkSession (RUNTIME s) (_current_runner s) (_runner_stack s) (fixturedefs s)
    (<[i:=f]> (inner_tests s)).

(** [fixturedef.func = ..] and [fixturedef.argnames = ..]. *)
Definition set_func (i : nat) (f : callable) (s : session) : session :=
  match fixturedefs s !! i with
  | Some d => set_fixturedef i (mkFixturedef f (fd_argnames d)) s
  | None => s
  end.
Definition set_argnames (i : nat) (l : list string) (s : session) : session :=
  match fixturedefs s !! i with
  | Some d => set_fixturedef i (mkFixturedef (fd_func d) l) s
  | None => s
  end.

(** ** [_iterate_exceptions] *)

Fixpoint _iterate_exceptions (e : exn) : list exn :=
  match e with
  | ExceptionGroup excs => flat_map _iterate_exceptions excs
  | _ => [e]
  end.

(** A group is an [ExceptionGroup] when everything in it is an [Exception], and only a
    [BaseExceptionGroup] otherwise. *)
Fixpoint derives_Exception (e : exn) : bool :=
  match e with
  | ExceptionGroup excs => forallb derives_Exception excs
  | _ => is_Exception e
  end.
Definition is_ExceptionGroup (e : exn) : bool :=
  match e with ExceptionGroup _ => derives_Exception e | _ => false end.

(** ** The runner *)

Definition extract_runtime_options (b : backend) : runtime_options :=
  match b with BDict d => d | BOther _ => ∅ end.

Section Plugin.
(** [multiprocessing.cpu_count()]; what a coroutine or generator made by calling a function with
    arguments ends with; and which exceptions are [Exit], [KeyboardInterrupt] or [SystemExit]. *)
Context (cpu_count : Z) (ends : callable -> kwargs -> result pyobj).
Context (is_Exit is_KeyboardInterrupt is_SystemExit : exn -> bool).

(** [tonio.runtime(context=True, threads=..)]: there is one runtime in a process. *)
Definition tonio_runtime_new (threads : option Z) : plM config :=
  let c := new cpu_count (mkOptions true None threads 128 30) in
  let* old := lget RUNTIME in
  match old with
  | Some _ => lraise RuntimeAlreadyInitializedError
  | None => lset (set_RUNTIME c) >>> lret c
  end.

(** [with get_runner(runtime_options) as runner: body]. *)
Definition get_runner {A} (o : runtime_options) (body : config -> plM A) : plM A :=
  let* cur := lget _current_runner in
  match cur with
  | Some c => body c
  | None =>
      lset set_runner_stack >>>
      let* c := tonio_runtime_new (default (Some 2%Z) (o !! "threads")) in
      lset (set_current_runner c) >>>
      body c
  end.

(** [TestRunner]: an asynchronous generator cannot be awaited. *)
Definition _run (runner : config) (f : callable) (kw : kwargs) : plM pyobj :=
  if isasyncgenfunction f
  then lraise (TypeError "object async_generator can't be used in 'await' expression")
  else lresult (ends f kw).
Definition run_fixture (runner : config) (f : callable) (kw : kwargs) : plM pyobj := _run runner f kw.
Definition run_test (runner : config) (f : callable) (kw : kwargs) : plM pyobj := _run runner f kw.

(** ** Fixtures *)

(** What [wrapper] yields when it is called with these arguments. *)
Definition wrapper (func : callable) (has_runtime_arg has_request_arg : bool) (kw : kwargs) : plM pyobj :=
  match kw !! "tonio_runtime", kw !! "request" with
  | Some (ARuntime tonio_runtime), Some (ARequest request) =>
      let kw := delete "request" (delete "tonio_runtime" kw) in
      let local_func :=
        match rq_instance request, func with
        | Some inst, Method k n self =>
            if i_true inst && (i_class self =? i_class inst)%nat then Method k n inst else func
        | _, _ => func
        end in
      let kw := if has_runtime_arg then <["tonio_runtime" := ARuntime tonio_runtime]> kw else kw in
      let kw := if has_request_arg then <["request" := ARequest request]> kw else kw in
      get_runner (extract_runtime_options tonio_runtime) (fun runner =>
        run_fixture runner local_func kw)
  | _, _ => lraise (TypeError "wrapper() missing required positional arguments")
  end.

(** The hook around [inner], which stands for the other implementations of the hook. *)
Definition pytest_fixture_setup (i : nat) (rq : request) (inner : plM pyobj) : plM pyobj :=
  let* d := lget (fun s => fixturedefs s !! i) in
  match d with
  | None => inner
  | Some (mkFixturedef func argnames) =>
      if isasyncgenfunction func || iscoroutinefunction func || isgeneratorfunction func then
        if bool_decide ("tonio_runtime" ∈ fixturenames rq) then
          let has_runtime_arg := bool_decide ("tonio_runtime" ∈ argnames) in
          let argnames1 := if has_runtime_arg then argnames else (argnames ++ ["tonio_runtime"])%list in
          let has_request_arg := bool_decide ("request" ∈ argnames1) in
          let argnames2 := if has_request_arg then argnames1 else (argnames1 ++ ["request"])%list in
          lset (set_func i (Wrapper func has_runtime_arg has_request_arg)) >>>
          lset (set_argnames i argnames2) >>>
          lfinally inner (fun s => set_argnames i argnames (set_func i func s))
        else inner
      else inner
  end.

(** The fixtures [tonio_runtime] and [tonio_runtime_options]. *)
Definition tonio_runtime (param : backend) : backend := param.
Definition tonio_runtime_options (b : backend) : runtime_options :=
  match b with BDict d => d | BOther _ => ∅ end.

(** ** Tests *)

(** A test: the function, the function under hypothesis if it is one, and its arguments. *)
Record pyfuncitem := mkPyfuncitem {
  pi_obj : callable; pi_hypothesis : option nat; funcargs : kwargs; pi_argnames : list string }.

(** [{arg: funcargs[arg] for arg in argnames}]. *)
Fixpoint testargs (funcargs : kwargs) (argnames : list string) : result kwargs :=
  match argnames with
  | [] => Ok ∅
  | a :: l =>
      match funcargs !! a with
      | None => Err (KeyError a)
      | Some v => match testargs funcargs l with Ok kw => Ok (<[a:=v]> kw) | Err e => Err e end
      end
  end.

Definition run_with_hypothesis (original_func : callable) (o : runtime_options) (kw : kwargs) : plM unit :=
  get_runner o (fun runner => run_test runner original_func kw >>> lret tt).

Definition is_interrupt (e : exn) : bool := is_Exit e || is_KeyboardInterrupt e || is_SystemExit e.

(** The [except ExceptionGroup] clause. *)
Definition reraise (e : exn) : option (plM pyobj) :=
  if is_ExceptionGroup e then
    Some (lraise (default e (List.find is_interrupt (_iterate_exceptions e))))
  else None.

(** The backend a value of [funcargs] is. *)
Definition as_backend (a : arg) : backend :=
  match a with ARuntime b => b | ARequest _ => BOther PNone | AValue v => BOther v end.

(** [Some true] is [True], [None] is [None]. *)
Definition pytest_pyfunc_call (it : pyfuncitem) : plM (option bool) :=
  match funcargs it !! "tonio_runtime" with
  | None => lret None
  | Some runtime =>
      let o := extract_runtime_options (as_backend runtime) in
      match pi_hypothesis it with
      | Some h =>
          let* original := lget (fun s => inner_tests s !! h) in
          match original with
          | None => lraise (AttributeError "inner_test")
          | Some (WithHypothesis _ _) => lret None
          | Some f =>
              (if iscoroutinefunction f || isgeneratorfunction f
               then lset (set_inner_test h (WithHypothesis f o)) else lret tt) >>>
              lret None
          end
      | None =>
          if iscoroutinefunction (pi_obj it) || isgeneratorfunction (pi_obj it) then
            let* kw := lresult (testargs (funcargs it) (pi_argnames it)) in
            get_runner o (fun runner => ltry (run_test runner (pi_obj it) kw) reraise) >>>
            lret (Some true)
          else lret None
      end
  end.
End Plugin.

(** ** Collection *)

(** A test function as it is collected: the function hypothesis wraps if it does, and the names of
    its own marks. *)
Record testobj := mkTestobj { to_func : callable; to_hypothesis : option callable; pytestmark : list string }.

Inductive scope := ScopeModule.

Record callspec := mkCallspec {
  cs_funcargs : option (list (string * pyobj)); cs_params : list (string * pyobj);
  cs_indices : list (string * nat); cs_arg2scope : list (string * scope);
  cs_idlist : list (option string); cs_marks : list string }.

Record fixtureinfo := mkFixtureinfo {
  fi_argnames : list string; fi_initialnames : list string; names_closure : list string;
  name2fixturedefs : gmap string (list nat) }.

(** A collected item; [is_Function] for those of class [pytest.Function]. *)
Record item := mkItem {
  is_Function : bool; it_parent : nat; it_name : string; it_originalname : string;
  it_obj : callable; it_closest_tonio : bool; it_fixturenames : list string;
  it_fixtureinfo : fixtureinfo; it_callspec : option callspec; it_keywords : list string }.

(** [config.addinivalue_line]. *)
Definition pytest_configure (lines : list (string * string)) : list (string * string) :=
  lines ++ [("markers",
             "tonio: mark the (coroutine function) test to be run asynchronously via tonio.")].

Section Collection.
(** pytest's [mark.usefixtures(name)(obj)] and [Function.from_parent(parent, name, callspec, callobj,
    fixtureinfo, keywords, originalname)]; and whether its [CallSpec2] is that of version 8. *)
Context (usefixtures : string -> testobj -> testobj).
Context (from_parent : nat -> string -> callspec -> callable -> fixtureinfo -> list string -> string -> item).
Context (pytest8 : bool).

(** [istestfunction] and [closest] are what the collector answers. *)
Definition pytest_pycollect_makeitem (istestfunction closest : bool) (obj : testobj) : testobj :=
  if istestfunction then
    let inner_func := default (to_func obj) (to_hypothesis obj) in
    if iscoroutinefunction inner_func || isgeneratorfunction inner_func then
      if closest || existsb (String.eqb "tonio") (pytestmark obj)
      then usefixtures "tonio_runtime" obj
      else obj
    else obj
  else obj.

Definition needs_runtime (it : item) : bool :=
  is_Function it && (iscoroutinefunction (it_obj it) || isgeneratorfunction (it_obj it)) &&
  it_closest_tonio it && negb (bool_decide ("tonio_runtime" ∈ it_fixturenames it)).

Definition tonio_callspec : callspec :=
  if pytest8 then
    mkCallspec None [("tonio_runtime", PNone)] [("tonio_runtime", 0%nat)]
      [("tonio_runtime", ScopeModule)] [None] []
  else
    mkCallspec (Some []) [("tonio_runtime", PNone)] [("tonio_runtime", 0%nat)]
      [("tonio_runtime", ScopeModule)] [None] [].

Definition new_names_closure (fi : fixtureinfo) : list string :=
  if bool_decide ("tonio_runtime" ∈ names_closure fi) then names_closure fi
  else (names_closure fi ++ ["tonio_runtime"])%list.

Definition new_item (it : item) : item :=
  let fi := it_fixtureinfo it in
  from_parent (it_parent it) (String.append (it_originalname it) "[tonio]") tonio_callspec (it_obj it)
    (mkFixtureinfo (fi_argnames fi) (fi_initialnames fi) (new_names_closure fi) (name2fixturedefs fi))
    (it_keywords it) (it_originalname it).

(** [session.items[i : i + 1] = new_items]. *)
Definition assign_slice (i : nat) (l items : list item) : list item :=
  (take i items ++ l ++ drop (i + 1) items)%list.

(** The body of the loop. *)
Definition visit (items : list item) (p : nat * item) : list item :=
  let (i, it) := p in if needs_runtime it then assign_slice i [new_item it] items else items.

(** [for i, item in reversed(list(enumerate(session.items)))]. *)
Definition pytest_collection_finish (items : list item) : list item :=
  foldl visit items (reverse (imap pair items)).
End Collection.
