(* ===== verification/PluginProps.v ===== *)
(** * What the pytest plugin does with tests and fixtures

    The outcome of a coroutine test, the value of a coroutine fixture, and the items a session is
    left with, for the hooks of [Plugin]. *)

From Stdlib Require Import ZArith Lia List.
From stdpp Require Import base numbers list gmap strings.
From S2P Require Import Prelude Os Runtime Plugin.

Open Scope string_scope.
#[local] Set Warnings "-clear-no-such-hyp".

(** ** Exception groups *)

(** Induction that reaches the members of a group. *)
Lemma exn_group_ind (P : exn -> Prop) :
  (forall e, (forall l, e <> ExceptionGroup l) -> P e) ->
  (forall l, Forall P l -> P (ExceptionGroup l)) ->
  forall e, P e.
Proof.
  intros Hbase Hgroup. fix IH 1. intros e. destruct e; try by apply Hbase.
  apply Hgroup. induction errs as [|x l IHl]; constructor; [apply IH|exact IHl].
Qed.

Lemma iterate_single e :
  (forall l, e <> ExceptionGroup l) ->
  _iterate_exceptions e = [e] /\ derives_Exception e = is_Exception e.
Proof. intros He. destruct e; try done. by destruct (He errs). Qed.

Lemma iterate_leaf e x l : x ∈ _iterate_exceptions e -> x <> ExceptionGroup l.
Proof.
  revert x. induction e as [e He|l' IH] using exn_group_ind; intros x Hx.
  - destruct (iterate_single e He) as [Hit _]. rewrite Hit in Hx.
    apply list_elem_of_singleton in Hx as ->. apply He.
  - simpl in Hx. apply list_elem_of_In, in_flat_map in Hx as (y & Hy & Hx).
    rewrite Forall_forall in IH. apply (IH y); by apply list_elem_of_In.
Qed.

Lemma iterate_Exception e x :
  derives_Exception e = true -> x ∈ _iterate_exceptions e -> is_Exception x = true.
Proof.
  revert x. induction e as [e He|l IH] using exn_group_ind; intros x Hd Hx.
  - destruct (iterate_single e He) as [Hit Hde].
    rewrite Hit in Hx. apply list_elem_of_singleton in Hx as ->. by rewrite <- Hde.
  - simpl in *. apply list_elem_of_In, in_flat_map in Hx as (y & Hy & Hx).
    rewrite forallb_forall in Hd. rewrite Forall_forall in IH.
    apply (IH y); [by apply list_elem_of_In|by apply Hd|by apply list_elem_of_In].
Qed.

Lemma find_ext {A} (f g : A -> bool) l : (forall x, x ∈ l -> f x = g x) -> List.find f l = List.find g l.
Proof.
  induction l as [|x l IH]; intros Hfg; simpl; [done|].
  rewrite (Hfg x) by (by left). rewrite IH; [done|]. intros y Hy. apply Hfg. by right.
Qed.

(** ** The runner *)

(** Only the plugin has made a runtime. *)
Definition plugin_only (s : session) : Prop := RUNTIME s = _current_runner s.

(** What [get_runner] makes of the session, and the runtime it gives. *)
Definition runner_of (cpu_count : Z) (o : runtime_options) (s : session) : config :=
  default (new cpu_count (mkOptions true None (default (Some 2%Z) (o !! "threads")) 128 30))
    (_current_runner s).
Definition with_runner (cpu_count : Z) (o : runtime_options) (s : session) : session :=
  match _current_runner s with
  | Some _ => s
  | None => mkSession (Some (runner_of cpu_count o s)) (Some (runner_of cpu_count o s)) true
              (fixturedefs s) (inner_tests s)
  end.

Lemma get_runner_spec {A} cpu_count o (body : config -> plM A) s :
  plugin_only s ->
  get_runner cpu_count o body s = body (runner_of cpu_count o s) (with_runner cpu_count o s).
Proof.
  intros Hs. unfold get_runner, tonio_runtime_new, lbind, lget, lset, lret, with_runner, runner_of.
  destruct s as [R C K F T]. unfold plugin_only in Hs. simpl in *. subst R. by destruct C.
Qed.

Lemma with_runner_spec cpu_count o s :
  plugin_only s -> plugin_only (with_runner cpu_count o s) /\
  fixturedefs (with_runner cpu_count o s) = fixturedefs s /\
  inner_tests (with_runner cpu_count o s) = inner_tests s.
Proof. unfold with_runner, plugin_only. intros Hs. destruct (_current_runner s) eqn:Hc; split_and!; simpl; congruence. Qed.

(** The options of the first test are those of all: the others are not looked at. *)
Lemma later_options_ignored {A} cpu_count o o' (body : config -> plM A) s c :
  _current_runner s = Some c -> get_runner cpu_count o body s = get_runner cpu_count o' body s.
Proof. intros Hc. unfold get_runner, lbind, lget. by rewrite Hc. Qed.

(** With a runtime of the application there is no runner. *)
Lemma foreign_runtime_refused {A} cpu_count o (body : config -> plM A) s c :
  RUNTIME s = Some c -> _current_runner s = None ->
  (get_runner cpu_count o body s).1 = Err RuntimeAlreadyInitializedError.
Proof.
  intros Hr Hc. unfold get_runner, tonio_runtime_new, lbind, lget, lset. rewrite Hc. simpl.
  by rewrite Hr.
Qed.

(** ** Tests *)

Section Tests.
Context (cpu_count : Z) (ends : callable -> kwargs -> result pyobj).
Context (is_Exit is_KeyboardInterrupt is_SystemExit : exn -> bool).
(** [KeyboardInterrupt] and [SystemExit] do not derive from [Exception]. *)
Hypothesis interrupt_base : forall e, is_KeyboardInterrupt e || is_SystemExit e = true -> is_Exception e = false.

(** What a test that ends with [r] does in pytest: a group of exceptions gives way to the first
    [Exit] in it. *)
Definition reported (r : result pyobj) : result (option bool) :=
  match r with
  | Ok _ => Ok (Some true)
  | Err e => Err (if is_ExceptionGroup e then default e (List.find is_Exit (_iterate_exceptions e)) else e)
  end.

Lemma interrupts_found e :
  is_ExceptionGroup e = true ->
  List.find (is_interrupt is_Exit is_KeyboardInterrupt is_SystemExit) (_iterate_exceptions e)
  = List.find is_Exit (_iterate_exceptions e).
Proof using interrupt_base.
  intros He. apply find_ext. intros x Hx. unfold is_interrupt.
  assert (derives_Exception e = true) as Hd by (by destruct e).
  pose proof (iterate_Exception e x Hd Hx) as Hex. pose proof (interrupt_base x) as Hb.
  destruct (is_Exit x), (is_KeyboardInterrupt x), (is_SystemExit x); simpl in *; try done;
    rewrite Hb in Hex; done.
Qed.

Lemma ltry_reported f kw c s :
  isasyncgenfunction f = false ->
  (ltry (run_test ends c f kw) (reraise is_Exit is_KeyboardInterrupt is_SystemExit) s)
  = (match ends f kw with
     | Ok v => Ok v
     | Err e => Err (if is_ExceptionGroup e then default e (List.find is_Exit (_iterate_exceptions e)) else e)
     end, s).
Proof using interrupt_base.
  intros Hf. unfold ltry, run_test, _run, lresult. rewrite Hf.
  destruct (ends f kw) as [v|e]; [done|]. unfold reraise.
  destruct (is_ExceptionGroup e) eqn:He; [|done]. unfold lraise. by rewrite interrupts_found.
Qed.

(** [C40] A coroutine test does in pytest what its coroutine does: it passes when the coroutine
    returns, and fails with the exception the coroutine raises, but for an [ExceptionGroup], which
    gives way to the first [Exit] inside it at any depth; it is called with exactly the arguments
    it names, runs on the one runtime of the session, and changes nothing else.  Tests that are no
    coroutines or do not use the runtime are left to pytest. *)
Theorem pytest_pyfunc_call_outcome it s :
  plugin_only s ->
  let call := pytest_pyfunc_call cpu_count ends is_Exit is_KeyboardInterrupt is_SystemExit it s in
  (forall r kw, pi_hypothesis it = None -> funcargs it !! "tonio_runtime" = Some r ->
     iscoroutinefunction (pi_obj it) || isgeneratorfunction (pi_obj it) = true ->
     testargs (funcargs it) (pi_argnames it) = Ok kw ->
     call = (reported (ends (pi_obj it) kw),
             with_runner cpu_count (extract_runtime_options (as_backend r)) s)) /\
  (funcargs it !! "tonio_runtime" = None \/
   pi_hypothesis it = None /\
   iscoroutinefunction (pi_obj it) || isgeneratorfunction (pi_obj it) = false ->
   call = (Ok None, s)).
Proof using interrupt_base.
  intros Hs call. unfold call, pytest_pyfunc_call. split.
  - intros r kw Hh Hr Hk Ha. rewrite Hr, Hh, Hk. unfold lbind at 1, lresult. rewrite Ha.
    unfold lbind. rewrite get_runner_spec by done. rewrite ltry_reported.
    + by destruct (ends (pi_obj it) kw) as [v|e].
    + unfold isasyncgenfunction, iscoroutinefunction, isgeneratorfunction in *.
      by destruct (kind_of (pi_obj it)).
  - intros [Hr|[Hh Hk]]; [by rewrite Hr|]. rewrite Hh, Hk. by destruct (funcargs it !! _).
Qed.

(** Under hypothesis the function inside is wrapped, once; what it then does is what the test does. *)
Lemma hypothesis_wrapped_once it h f r s s1 :
  pi_hypothesis it = Some h -> funcargs it !! "tonio_runtime" = Some r ->
  inner_tests s !! h = Some f -> iscoroutinefunction f || isgeneratorfunction f = true ->
  pytest_pyfunc_call cpu_count ends is_Exit is_KeyboardInterrupt is_SystemExit it s = (Ok None, s1) ->
  inner_tests s1 !! h = Some (WithHypothesis f (extract_runtime_options (as_backend r))) /\
  pytest_pyfunc_call cpu_count ends is_Exit is_KeyboardInterrupt is_SystemExit it s1 = (Ok None, s1).
Proof using Type.
  intros Hh Hr Hf Hk Hcall. unfold pytest_pyfunc_call in *. rewrite Hr, Hh in *.
  unfold lbind, lget, lset, lret in *. rewrite Hf in Hcall. rewrite Hk in Hcall.
  assert (s1 = set_inner_test h (WithHypothesis f (extract_runtime_options (as_backend r))) s) as ->
    by (destruct f; [..|done]; congruence).
  simpl. by rewrite lookup_insert_eq.
Qed.
End Tests.

(** ** Fixtures *)

Section Fixtures.
Context (cpu_count : Z) (ends : callable -> kwargs -> result pyobj).

(** The arguments of a fixture, by name. *)
Definition args_of (value : string -> arg) (l : list string) : kwargs :=
  (list_to_map ((fun a => (a, value a)) <$> l) : gmap string arg).

Lemma args_of_lookup value l a :
  args_of value l !! a = if bool_decide (a ∈ l) then Some (value a) else None.
Proof using Type.
  unfold args_of. induction l as [|b l IH]; [done|].
  rewrite fmap_cons. cbn [list_to_map foldr fmap fst snd]. destruct (decide (a = b)) as [->|Hne].
  - rewrite lookup_insert_eq, bool_decide_eq_true_2 by (by left). done.
  - rewrite lookup_insert_ne by done. rewrite IH.
    by rewrite (bool_decide_ext (a ∈ b :: l) (a ∈ l)) by (rewrite elem_of_cons; naive_solver).
Qed.

(** The arguments [wrapper] passes on are those the fixture names. *)
Definition passed (value : string -> arg) (argnames : list string) : kwargs :=
  let has_runtime_arg := bool_decide ("tonio_runtime" ∈ argnames) in
  let argnames1 := if has_runtime_arg then argnames else (argnames ++ ["tonio_runtime"])%list in
  let has_request_arg := bool_decide ("request" ∈ argnames1) in
  let argnames2 := if has_request_arg then argnames1 else (argnames1 ++ ["request"])%list in
  let kw := delete "request" (delete "tonio_runtime" (args_of value argnames2)) in
  let kw := if has_runtime_arg then <["tonio_runtime" := value "tonio_runtime"]> kw else kw in
  if has_request_arg then <["request" := value "request"]> kw else kw.

Lemma passed_args value argnames : passed value argnames = args_of value argnames.
Proof using Type.
  assert (forall (x y : string) l (b : bool), x <> y ->
    bool_decide (x ∈ (if b then l else (l ++ [y])%list)) = bool_decide (x ∈ l)) as Happ.
  { intros x y l b Hne. destruct b; [done|]. apply bool_decide_ext. rewrite elem_of_app.
    rewrite list_elem_of_singleton. naive_solver. }
  apply map_eq. intros a. unfold passed. rewrite args_of_lookup.
  rewrite (Happ "request" "tonio_runtime" argnames) by done.
  destruct (decide (a = "request")) as [->|Hq].
  { destruct (bool_decide ("request" ∈ argnames)) eqn:Hr; [by rewrite lookup_insert_eq|].
    destruct (bool_decide ("tonio_runtime" ∈ argnames));
      rewrite ?lookup_insert_ne by done; by rewrite lookup_delete_eq. }
  destruct (decide (a = "tonio_runtime")) as [->|Ht].
  { destruct (bool_decide ("request" ∈ argnames)); rewrite ?lookup_insert_ne by done;
      (destruct (bool_decide ("tonio_runtime" ∈ argnames)) eqn:Hr; [by rewrite lookup_insert_eq|]);
      rewrite lookup_delete_ne by done; by rewrite lookup_delete_eq. }
  replace (bool_decide (a ∈ argnames)) with
    (bool_decide (a ∈ (if bool_decide ("request" ∈ argnames)
       then if bool_decide ("tonio_runtime" ∈ argnames) then argnames
            else (argnames ++ ["tonio_runtime"])%list
       else ((if bool_decide ("tonio_runtime" ∈ argnames) then argnames
             else (argnames ++ ["tonio_runtime"])%list) ++ ["request"])%list)))
    by (rewrite Happ, Happ by done; done).
  destruct (bool_decide ("request" ∈ argnames)), (bool_decide ("tonio_runtime" ∈ argnames));
    rewrite ?lookup_insert_ne, ?lookup_delete_ne, args_of_lookup by done; done.
Qed.

(** A method is bound to the instance of the test. *)
Definition rebound (func : callable) (rq : request) : callable :=
  match rq_instance rq, func with
  | Some inst, Method k n self =>
      if i_true inst && (i_class self =? i_class inst)%nat then Method k n inst else func
  | _, _ => func
  end.

Lemma rebound_kind func rq : kind_of (rebound func rq) = kind_of func.
Proof using Type.
  unfold rebound. destruct (rq_instance rq), func; try done. by destruct (_ && _).
Qed.

(** The hook is for functions that make coroutines, in requests with the runtime. *)
Definition applies (func : callable) (rq : request) : bool :=
  (isasyncgenfunction func || iscoroutinefunction func || isgeneratorfunction func) &&
  bool_decide ("tonio_runtime" ∈ fixturenames rq).

Lemma restore_lookup i func argnames s :
  is_Some (fixturedefs s !! i) ->
  fixturedefs (set_argnames i argnames (set_func i func s))
  = <[i:=mkFixturedef func argnames]> (fixturedefs s).
Proof using Type.
  intros [d Hd]. unfold set_func. rewrite Hd. unfold set_argnames. simpl.
  rewrite lookup_insert_eq. simpl. by rewrite insert_insert_eq.
Qed.

(** The session while pytest sets the fixture up. *)
Definition patched (i : nat) (func : callable) (argnames : list string) (s : session) : session :=
  let has_runtime_arg := bool_decide ("tonio_runtime" ∈ argnames) in
  let argnames1 := if has_runtime_arg then argnames else (argnames ++ ["tonio_runtime"])%list in
  let has_request_arg := bool_decide ("request" ∈ argnames1) in
  let argnames2 := if has_request_arg then argnames1 else (argnames1 ++ ["request"])%list in
  set_argnames i argnames2 (set_func i (Wrapper func has_runtime_arg has_request_arg) s).

Lemma fixture_setup_spec i rq inner func argnames s :
  fixturedefs s !! i = Some (mkFixturedef func argnames) ->
  pytest_fixture_setup i rq inner s =
  if applies func rq
  then let '(r, s') := inner (patched i func argnames s) in
       (r, set_argnames i argnames (set_func i func s'))
  else inner s.
Proof using Type.
  intros Hd. unfold pytest_fixture_setup, lbind at 1, lget, applies. rewrite Hd.
  destruct (isasyncgenfunction func || iscoroutinefunction func || isgeneratorfunction func); [|done].
  by destruct (bool_decide ("tonio_runtime" ∈ fixturenames rq)).
Qed.

Lemma patched_lookup i func argnames s :
  is_Some (fixturedefs s !! i) ->
  exists d, patched i func argnames s = set_fixturedef i d s.
Proof using Type.
  intros [d Hd]. unfold patched, set_func. rewrite Hd. unfold set_argnames. simpl.
  rewrite lookup_insert_eq. eexists. unfold set_fixturedef. simpl. by rewrite insert_insert_eq.
Qed.

Lemma patched_some i func argnames s :
  is_Some (fixturedefs s !! i) -> is_Some (fixturedefs (patched i func argnames s) !! i).
Proof using Type.
  intros Hs. destruct (patched_lookup i func argnames s Hs) as [d ->]. simpl.
  by rewrite lookup_insert_eq.
Qed.

(** Once the runner is there and the definition put back. *)
Lemma restored_runner i func argnames s o :
  plugin_only s -> fixturedefs s !! i = Some (mkFixturedef func argnames) ->
  let s' := set_argnames i argnames (set_func i func
              (with_runner cpu_count o (patched i func argnames s))) in
  plugin_only s' /\ fixturedefs s' = fixturedefs s /\ is_Some (_current_runner s').
Proof using Type.
  intros Hs Hd s'. assert (is_Some (fixturedefs s !! i)) as Hsome by (by rewrite Hd).
  destruct (patched_lookup i func argnames s Hsome) as [d Hp].
  assert (plugin_only (patched i func argnames s)) as Hs1 by (rewrite Hp; exact Hs).
  destruct (with_runner_spec cpu_count o _ Hs1) as (Hs2 & Hf & _).
  pose proof (patched_some i func argnames s Hsome) as Hsome1. rewrite <- Hf in Hsome1.
  assert (is_Some (_current_runner (with_runner cpu_count o (patched i func argnames s)))) as Hc.
  { unfold with_runner.
    destruct (_current_runner (patched i func argnames s)) eqn:E; [by rewrite E|done]. }
  unfold s'. split_and!.
  - unfold set_argnames, set_func. by repeat case_match.
  - rewrite restore_lookup, Hf, Hp by done. simpl. rewrite insert_insert_eq. by apply insert_id.
  - unfold set_argnames, set_func. by repeat case_match.
Qed.

Context (i : nat) (rq : request) (value : string -> arg) (b : backend) (inner : plM pyobj).
(** pytest's own implementation of the hook calls the function of the fixture with a value for each
    of its argument names, and takes the first value the function yields. *)
Hypothesis inner_calls : forall s func hr hq l,
  fixturedefs s !! i = Some (mkFixturedef (Wrapper func hr hq) l) ->
  inner s = wrapper cpu_count ends func hr hq (args_of value l) s.
Hypothesis value_runtime : value "tonio_runtime" = ARuntime b.
Hypothesis value_request : value "request" = ARequest rq.

Lemma inner_patched func argnames s :
  plugin_only s -> is_Some (fixturedefs s !! i) ->
  let s1 := with_runner cpu_count (extract_runtime_options b) (patched i func argnames s) in
  inner (patched i func argnames s) =
  _run ends (runner_of cpu_count (extract_runtime_options b) (patched i func argnames s))
    (rebound func rq) (args_of value argnames) s1.
Proof using inner_calls value_runtime value_request.
  intros Hs [d Hd] s1. pose proof (passed_args value argnames) as Hp. unfold passed in Hp.
  unfold s1, patched in *.
  set (hr := bool_decide ("tonio_runtime" ∈ argnames)) in *.
  set (l1 := if hr then argnames else (argnames ++ ["tonio_runtime"])%list) in *.
  set (hq := bool_decide ("request" ∈ l1)) in *.
  set (l2 := if hq then l1 else (l1 ++ ["request"])%list) in *.
  assert ("tonio_runtime" ∈ l1) as Ht1.
  { unfold l1. destruct hr eqn:Hr; [by apply bool_decide_eq_true_1 in Hr|].
    apply elem_of_app. right. by left. }
  assert ("tonio_runtime" ∈ l2 /\ "request" ∈ l2) as [Ht2 Hq2].
  { unfold l2. destruct hq eqn:Hq; [by apply bool_decide_eq_true_1 in Hq|].
    split; apply elem_of_app; [by left|]. right. by left. }
  rewrite (inner_calls _ func hr hq l2) by (rewrite restore_lookup by done; apply lookup_insert_eq).
  unfold wrapper. rewrite !args_of_lookup, !bool_decide_eq_true_2 by done.
  rewrite value_runtime, value_request in *. rewrite Hp.
  rewrite get_runner_spec; [done|]. unfold plugin_only, set_func. rewrite Hd. unfold set_argnames.
  simpl. by rewrite lookup_insert_eq.
Qed.

(** A fixture that is an asynchronous generator always fails. *)
Lemma async_generator_fixture_fails func argnames s :
  plugin_only s -> fixturedefs s !! i = Some (mkFixturedef func argnames) ->
  isasyncgenfunction func = true -> "tonio_runtime" ∈ fixturenames rq ->
  (pytest_fixture_setup i rq inner s).1
  = Err (TypeError "object async_generator can't be used in 'await' expression").
Proof using inner_calls value_runtime value_request.
  intros Hs Hd Hk Hin. rewrite (fixture_setup_spec i rq inner func argnames s Hd).
  unfold applies. rewrite Hk, bool_decide_eq_true_2 by done. simpl.
  rewrite inner_patched by done. unfold _run, isasyncgenfunction. rewrite rebound_kind.
  unfold isasyncgenfunction in Hk. by rewrite Hk.
Qed.

(** A coroutine fixture has the value its coroutine returns, and fails as it fails: the
    function the fixture was declared with, bound to the instance of the test where it is a method
    of its class, is called with exactly the arguments it names, [tonio_runtime] and [request]
    included only where it names them, and runs on the one runtime of the session.  However the
    setup ends, and whatever it does meanwhile, the definition of the fixture is as before. *)
Theorem coroutine_fixture_value func argnames s :
  plugin_only s -> fixturedefs s !! i = Some (mkFixturedef func argnames) ->
  iscoroutinefunction func || isgeneratorfunction func = true ->
  "tonio_runtime" ∈ fixturenames rq ->
  (let '(r, s') := pytest_fixture_setup i rq inner s in
   r = ends (rebound func rq) (args_of value argnames) /\
   plugin_only s' /\ fixturedefs s' = fixturedefs s /\ is_Some (_current_runner s')) /\
  forall other : plM pyobj,
    (forall s1, is_Some (fixturedefs s1 !! i) -> is_Some (fixturedefs (other s1).2 !! i)) ->
    fixturedefs (pytest_fixture_setup i rq other s).2 !! i = fixturedefs s !! i.
Proof using inner_calls value_runtime value_request.
  intros Hs Hd Hk Hin.
  assert (isasyncgenfunction func = false /\ applies func rq = true) as [Hna Happ].
  { unfold applies, isasyncgenfunction, iscoroutinefunction, isgeneratorfunction in *.
    rewrite (bool_decide_eq_true_2 (_ ∈ _)) by done. by destruct (kind_of func). }
  assert (is_Some (fixturedefs s !! i)) as Hsome by (by rewrite Hd).
  split.
  - rewrite (fixture_setup_spec i rq inner func argnames s Hd), Happ.
    rewrite inner_patched by done. unfold _run, isasyncgenfunction. rewrite rebound_kind.
    unfold isasyncgenfunction in Hna. rewrite Hna. unfold lresult. split; [done|].
    apply (restored_runner i func argnames s _ Hs Hd).
  - intros other Hother. rewrite (fixture_setup_spec i rq other func argnames s Hd), Happ.
    specialize (Hother (patched i func argnames s)).
    destruct (other (patched i func argnames s)) as [r s']. simpl in *.
    rewrite restore_lookup, lookup_insert_eq by (apply Hother, patched_some, Hsome). by rewrite Hd.
Qed.
End Fixtures.

(** ** Collection *)

Section Collection.
Context (from_parent : nat -> string -> callspec -> callable -> fixtureinfo -> list string -> string -> item).
Context (pytest8 : bool).
(** The fixtures of an item are those of the closure it is made with. *)
Hypothesis from_parent_fixtures : forall p n c o fi k on,
  it_fixturenames (from_parent p n c o fi k on) = names_closure fi.

(** What becomes of an item. *)
Definition with_runtime (it : item) : item :=
  if needs_runtime it then new_item from_parent pytest8 it else it.

Lemma visit_middle pre it post :
  visit from_parent pytest8 (pre ++ it :: post)%list (length pre, it) = (pre ++ with_runtime it :: post)%list.
Proof using Type.
  unfold visit, with_runtime. destruct (needs_runtime it); [|done]. unfold assign_slice.
  rewrite take_app_length, Nat.add_comm. f_equal. simpl. f_equal.
  induction pre as [|x pre IH]; simpl; [by destruct post|done].
Qed.

Lemma visits_prefix pre post :
  foldl (visit from_parent pytest8) (pre ++ post)%list (reverse (imap pair pre))
  = (map with_runtime pre ++ post)%list.
Proof using Type.
  revert post. induction pre as [|it pre IH] using rev_ind; intros post; [done|].
  rewrite imap_app, reverse_app, map_app, <- !app_assoc.
  cbn [imap map reverse rev_append app foldl]. rewrite Nat.add_0_r, visit_middle, IH. done.
Qed.

Lemma new_item_done it : needs_runtime (new_item from_parent pytest8 it) = false.
Proof using from_parent_fixtures.
  unfold needs_runtime. rewrite (bool_decide_eq_true_2 (_ ∈ it_fixturenames _)).
  { by rewrite andb_false_r. }
  unfold new_item. rewrite from_parent_fixtures. simpl. unfold new_names_closure.
  case_bool_decide; [done|]. apply elem_of_app. right. by left.
Qed.

(** The loop, which assigns slices of the list it goes through from the end, replaces each item
    that needs it where it stands, and after it none does. *)
Lemma collection_finish_each items :
  pytest_collection_finish from_parent pytest8 items = map with_runtime items /\
  Forall (fun it => needs_runtime it = false) (pytest_collection_finish from_parent pytest8 items).
Proof using from_parent_fixtures.
  assert (pytest_collection_finish from_parent pytest8 items = map with_runtime items) as Heq.
  { unfold pytest_collection_finish. rewrite <- (app_nil_r items) at 1.
    by rewrite visits_prefix, app_nil_r. }
  rewrite Heq. split; [done|]. apply Forall_forall. intros it Hit.
  apply list_elem_of_In, in_map_iff in Hit as (it0 & <- & _). unfold with_runtime.
  destruct (needs_runtime it0) eqn:Hn; [apply new_item_done|done].
Qed.
End Collection.

(** ** Witnesses *)

Definition demo_exit (e : exn) : bool := match e with UserError 9 => true | _ => false end.
Definition demo_ki (e : exn) : bool := match e with UserBase 2 => true | _ => false end.
Definition demo_session : session :=
  mkSession None None false {[0%nat := mkFixturedef (Fn CoroutineFunction 1) ["request"; "db"]]} ∅.
Definition demo_ends (f : callable) (kw : kwargs) : result pyobj :=
  match f with
  | Fn _ 1 => Ok (PInt (Z.of_nat (size kw)))
  | _ => Err (ExceptionGroup [UserError 1; ExceptionGroup [UserError 9]])
  end.
Definition demo_item : pyfuncitem :=
  mkPyfuncitem (Fn GeneratorFunction 2) None {["tonio_runtime" := ARuntime (BDict ∅)]} [].

(** A test that raises a group with an [Exit] deep inside. *)
Lemma pytest_pyfunc_call_outcome_witness :
  (pytest_pyfunc_call 4 demo_ends demo_exit demo_ki (fun _ => false) demo_item demo_session).1
  = Err (UserError 9).
Proof.
  assert (forall e, demo_ki e || false = true -> is_Exception e = false) as Hb by (by intros []).
  destruct (pytest_pyfunc_call_outcome 4 demo_ends demo_exit demo_ki (fun _ => false) Hb demo_item
    demo_session eq_refl) as [H _].
  rewrite (H (ARuntime (BDict ∅)) ∅ eq_refl eq_refl eq_refl eq_refl). vm_compute. reflexivity.
Defined.

Definition demo_request : request := mkRequest ["tonio_runtime"; "db"] None.
Definition demo_value (a : string) : arg :=
  if String.eqb a "tonio_runtime" then ARuntime (BDict ∅)
  else if String.eqb a "request" then ARequest demo_request else AValue (PInt 7).
Definition demo_inner : plM pyobj := fun s =>
  match fixturedefs s !! 0%nat with
  | Some (mkFixturedef (Wrapper f hr hq) l) => wrapper 4 demo_ends f hr hq (args_of demo_value l) s
  | _ => (Ok PNone, s)
  end.

(** A fixture with two arguments, one of them [request]. *)
Lemma coroutine_fixture_value_witness :
  let '(r, s') := pytest_fixture_setup 0 demo_request demo_inner demo_session in
  r = Ok (PInt 2) /\ fixturedefs s' = fixturedefs demo_session.
Proof.
  destruct (coroutine_fixture_value 4 demo_ends 0 demo_request demo_value (BDict ∅) demo_inner
    ltac:(intros s f hr hq l Hd; unfold demo_inner; rewrite Hd; reflexivity) eq_refl eq_refl
    (Fn CoroutineFunction 1) ["request"; "db"] demo_session eq_refl eq_refl eq_refl
    ltac:(vm_compute; left)) as [H _].
  destruct (pytest_fixture_setup 0 demo_request demo_inner demo_session) as [r s'].
  destruct H as (Hr & _ & Hf & _). split; [rewrite Hr; vm_compute; reflexivity|exact Hf].
Defined.
