(* ===== verification/AsyncHandles.v ===== *)
(** * Handles and suspensions of [async] coroutines

    [PyAsyncGenHandle] and [PyAsyncGenThrower] with their context twins of [src/src/handles.rs];
    [PyAsyncGenSuspension] and [Waiter::register_pyasyncgen], [Waiter::abort_pyasyncgen] of
    [src/src/events.rs].  Unlike generators, [async] coroutines call each other inside the
    interpreter, so that the runtime only sees the outermost; a checkpoint stays with the coroutine
    from the handle to the suspension and back, and a scope aborts the coroutine through it.

    As in [Handles], [G] are the states of the user's coroutines and [run] what they do. *)

From stdpp Require Import base numbers list relations.
From Stdlib Require Import Lia.
From S2P Require Import Prelude Os Handles.

(** [PyAsyncGenSuspension].  The [aborted] flag it shares is that of its checkpoint; without a
    checkpoint it is never set. *)
Record asuspension := mkASusp {
  as_coro : nat; as_ctx : option nat; as_consumed : bool; as_sentinel : option (nat * nat);
  as_checkpoint : option nat }.

(** [Waiter]. *)
Record awaiter := mkAWaiter {
  aw_registered : bool; aw_aborted : bool; aw_nevents : nat; checkpoint_asyncgen : option nat }.

(** [PyAsyncGenHandle] and [PyAsyncGenCtxHandle]; with [Throw] the throwers, which have no
    checkpoint. *)
Record ahandle := mkAHandle { ah_coro : nat; ah_ctx : option nat; ah_msg : msg; ah_checkpoint : option nat }.

(** Whether a suspension has yet to be used up. *)
Definition unspent (s : asuspension) : bool :=
  match as_sentinel s with Some (c, _) => negb (c =? 0) | None => negb (as_consumed s) end.

Definition spend (c : nat) (s : asuspension) : asuspension :=
  match as_sentinel s with
  | Some (_, n) => mkASusp (as_coro s) (as_ctx s) (as_consumed s) (Some (c, n)) (as_checkpoint s)
  | None => mkASusp (as_coro s) (as_ctx s) true None (as_checkpoint s)
  end.

(** The coroutines, for the statements: one that has ended, or that a thrower left where it
    awaits. *)
Inductive coroutine (G : Type) := Alive (g : G) | Ended | Dropped (g : G).
Arguments Alive {G} g.
Arguments Ended {G}.
Arguments Dropped {G} g.

Section Machine.
Context {G : Type} (run : G -> msg -> outcome G).

Record amachine := mkAMachine {
  acoros : list (coroutine G); asusps : list asuspension; awaiters : list awaiter;
  awakers : list nat; arunq : list ahandle }.

Definition put_coro (c : nat) (x : coroutine G) (m : amachine) : amachine :=
  mkAMachine (<[c:=x]> (acoros m)) (asusps m) (awaiters m) (awakers m) (arunq m).
Definition put_susp (i : nat) (s : asuspension) (m : amachine) : amachine :=
  mkAMachine (acoros m) (<[i:=s]> (asusps m)) (awaiters m) (awakers m) (arunq m).
Definition push_susp (s : asuspension) (m : amachine) : amachine :=
  mkAMachine (acoros m) (asusps m ++ [s]) (awaiters m) (awakers m) (arunq m).
Definition put_waiter (w : nat) (x : awaiter) (m : amachine) : amachine :=
  mkAMachine (acoros m) (asusps m) (<[w:=x]> (awaiters m)) (awakers m) (arunq m).
Definition push_waker (i : nat) (m : amachine) : amachine :=
  mkAMachine (acoros m) (asusps m) (awaiters m) (awakers m ++ [i]) (arunq m).
Definition push_handle (h : ahandle) (m : amachine) : amachine :=
  mkAMachine (acoros m) (asusps m) (awaiters m) (awakers m) (arunq m ++ [h]).
Definition take_handle (i : nat) (m : amachine) : amachine :=
  mkAMachine (acoros m) (asusps m) (awaiters m) (awakers m) (delete i (arunq m)).

(** [checkpoint_asyncgen.swap] and [clear_asyngensuspension]. *)
Definition set_asyncgen (w : option nat) (p : option nat) (m : amachine) : amachine :=
  match w with
  | Some w =>
      match awaiters m !! w with
      | Some x => put_waiter w (mkAWaiter (aw_registered x) (aw_aborted x) (aw_nevents x) p) m
      | None => m
      end
  | None => m
  end.

(** [self.aborted.load()] of a suspension. *)
Definition is_aborted (cp : option nat) (m : amachine) : bool :=
  match cp with
  | Some w => match awaiters m !! w with Some x => aw_aborted x | None => false end
  | None => false
  end.

(** [PyAsyncGenSuspension::resume]. *)
Definition aresume (i : nat) (v : pyobj) (m : amachine) : amachine :=
  match asusps m !! i with
  | None => m
  | Some s =>
      if is_aborted (as_checkpoint s) m then m
      else
        match as_sentinel s with
        | Some (c, n) =>
            if c =? 0 then m
            else
              let m := put_susp i (spend (c - 1) s) m in
              if c =? 1
              then push_handle (mkAHandle (as_coro s) (as_ctx s) (Send (PList (replicate n PNone)))
                                  (as_checkpoint s)) m
              else m
        | None =>
            if as_consumed s then m
            else push_handle (mkAHandle (as_coro s) (as_ctx s) (Send v) (as_checkpoint s))
                   (put_susp i (spend 0 s) m)
        end
  end.

(** [PyAsyncGenSuspension::error], with [to_throw_handle]. *)
Definition aerror (i : nat) (e : exn) (m : amachine) : amachine :=
  match asusps m !! i with
  | None => m
  | Some s =>
      if unspent s
      then push_handle (mkAHandle (as_coro s) (as_ctx s) (Throw e) None)
             (set_asyncgen (as_checkpoint s) None (put_susp i (spend 0 s) m))
      else m
  end.

(** [Waiter::register_pyasyncgen]; [None] where the code panics. *)
Definition register_pyasyncgen (w coro : nat) (ctx cp : option nat) (m : amachine) : option amachine :=
  match awaiters m !! w with
  | None => None
  | Some x =>
      if aw_registered x then None
      else
        let m := put_waiter w (mkAWaiter true (aw_aborted x) (aw_nevents x) (checkpoint_asyncgen x)) m in
        let i := length (asusps m) in
        if aw_nevents x =? 0 then
          let m := push_susp (mkASusp coro ctx false None (Some w)) m in
          let m := set_asyncgen (Some w) (Some i) m in
          Some (if aw_aborted x then aerror i CancelledError m else aresume i PNone m)
        else
          let m := push_susp (mkASusp coro ctx false (build_sentinel (aw_nevents x)) cp) m in
          Some (push_waker i (set_asyncgen cp (Some i) m))
  end.

(** [PyAsyncGenHandle::call] and [PyAsyncGenThrower::run]. *)
Definition acall (i : nat) (m : amachine) : option amachine :=
  match arunq m !! i with
  | None => None
  | Some h =>
      let c := ah_coro h in
      match acoros m !! c with
      | Some (Alive g) =>
          let m := take_handle i m in
          match ah_msg h, run g (ah_msg h) with
          | Send _, Yielded YNone g' => Some (push_handle h (put_coro c (Alive g') m))
          | Send _, Yielded (YWaiter w) g' =>
              register_pyasyncgen w c (ah_ctx h) (ah_checkpoint h) (put_coro c (Alive g') m)
          | Send _, Yielded _ _ => None
          | Send _, _ => Some (set_asyncgen (ah_checkpoint h) None (put_coro c Ended m))
          | Throw _, Yielded _ g' => Some (put_coro c (Dropped g') m)
          | Throw _, _ => Some (put_coro c Ended m)
          end
      | _ => None
      end
  end.

(** [Waiter::abort_pyasyncgen]. *)
Definition abort_pyasyncgen (w : nat) (m : amachine) : amachine :=
  match awaiters m !! w with
  | Some x =>
      if aw_aborted x then m
      else
        let m := put_waiter w (mkAWaiter (aw_registered x) true (aw_nevents x) (checkpoint_asyncgen x)) m in
        match checkpoint_asyncgen x with Some i => aerror i CancelledError m | None => m end
  | None => m
  end.

(** [_spawn_pyasyncgen]. *)
Definition spawn_pyasyncgen (g : G) (ctx : option nat) (m : amachine) : amachine :=
  push_handle (mkAHandle (length (acoros m)) ctx (Send PNone) None)
    (mkAMachine (acoros m ++ [Alive g]) (asusps m) (awaiters m) (awakers m) (arunq m)).

(** [Waiter::new] with so many events, or [checkpoint]. *)
Definition new_waiter (n : nat) (m : amachine) : amachine :=
  mkAMachine (acoros m) (asusps m) (awaiters m ++ [mkAWaiter false false n None]) (awakers m) (arunq m).

(** A worker runs a handle, an event or a timer resumes a suspension it holds, a scope aborts a
    checkpoint, a coroutine is spawned, a waiter is made. *)
Inductive astep (m : amachine) : amachine -> Prop :=
| ACall i m' : acall i m = Some m' -> astep m m'
| AWake i v : i ∈ awakers m -> astep m (aresume i v m)
| AAbort w : astep m (abort_pyasyncgen w m)
| ASpawn g ctx : astep m (spawn_pyasyncgen g ctx m)
| AWaiter n : astep m (new_waiter n m).

Definition amachine0 : amachine := mkAMachine [] [] [] [] [].
End Machine.
Arguments amachine G : clear implicits.
