(* ===== verification/AsyncProps.v ===== *)
(** * No [async] coroutine is lost

    The invariant of [AsyncHandles]: a coroutine that has not ended is in exactly one place from
    which it goes on; and the two executions in which aborting a coroutine leaves it where it
    stands. *)

From stdpp Require Import base numbers list relations.
From Stdlib Require Import Lia.
From S2P Require Import Prelude Os Handles AsyncHandles.

#[local] Set Warnings "-clear-no-such-hyp".

Section Account.
Context {G : Type} (run : G -> msg -> outcome G).

(** The handles and the unspent suspensions a coroutine is in. *)
Definition queued_as (c : nat) (m : amachine G) : nat := countb (fun h => c =? ah_coro h) (arunq m).
Definition suspended_as (c : nat) (m : amachine G) : nat :=
  countb (fun s => (c =? as_coro s) && unspent s) (asusps m).
Definition places (c : nat) (m : amachine G) : nat := queued_as c m + suspended_as c m.

Definition alive (c : nat) (m : amachine G) : nat :=
  match acoros m !! c with Some (Alive _) => 1 | _ => 0 end.

(** Some scope has aborted a child. *)
Definition some_abort (m : amachine G) : Prop :=
  exists w x, awaiters m !! w = Some x /\ aw_aborted x = true.

(** [k] is the coroutine a worker is running. *)
Definition held (k : option nat) (c : nat) : nat :=
  match k with Some c' => if c =? c' then 1 else 0 | None => 0 end.

Record ainv (k : option nat) (m : amachine G) : Prop := {
  a_places : forall c, places c m + held k c = alive c m;
  a_wakers : forall i s, asusps m !! i = Some s -> unspent s = true -> i ∈ awakers m;
  a_throw : forall h e, h ∈ arunq m -> ah_msg h = Throw e -> some_abort m;
  a_dropped : forall c g, acoros m !! c = Some (Dropped g) -> some_abort m
}.

Lemma countb_delete {A} (f : A -> bool) l i x :
  l !! i = Some x -> countb f l = (if f x then 1 else 0) + countb f (delete i l).
Proof using Type.
  revert i. induction l as [|y l IH]; intros [|i] Hi; simplify_eq/=; [done|].
  rewrite (IH i Hi). lia.
Qed.

Lemma ainv_frame k m m' :
  acoros m' = acoros m -> asusps m' = asusps m -> awakers m' = awakers m -> arunq m' = arunq m ->
  (some_abort m -> some_abort m') -> ainv k m -> ainv k m'.
Proof using Type.
  intros Hc Hs Hw Hr Ha [H1 H2 H3 H4]. split.
  - intros c. unfold places, queued_as, suspended_as, alive. rewrite Hc, Hs, Hr. apply H1.
  - rewrite Hs, Hw. exact H2.
  - rewrite Hr. intros h e Hh He. by eapply Ha, H3.
  - rewrite Hc. intros c g Hg. by eapply Ha, H4.
Qed.

Lemma put_waiter_abort w x y (m : amachine G) :
  awaiters m !! w = Some x -> (aw_aborted x = true -> aw_aborted y = true) ->
  some_abort m -> some_abort (put_waiter w y m).
Proof using Type.
  intros Hx Hxy (w0 & x0 & H0 & Ha). destruct (decide (w0 = w)) as [->|Hne].
  - exists w, y. simpl. rewrite list_lookup_insert_eq by (by eapply lookup_lt_Some).
    simplify_eq. auto.
  - exists w0, x0. simpl. by rewrite list_lookup_insert_ne.
Qed.

Lemma set_asyncgen_spec w p (m : amachine G) :
  acoros (set_asyncgen w p m) = acoros m /\ asusps (set_asyncgen w p m) = asusps m /\
  awakers (set_asyncgen w p m) = awakers m /\ arunq (set_asyncgen w p m) = arunq m /\
  (some_abort m -> some_abort (set_asyncgen w p m)) /\
  (forall cp, is_aborted cp (set_asyncgen w p m) = is_aborted cp m).
Proof using Type.
  unfold set_asyncgen. destruct w as [w|]; [|done]. destruct (awaiters m !! w) as [x|] eqn:Hx; [|done].
  split_and!; try done.
  - by apply put_waiter_abort with x.
  - intros [c|]; [|done]. simpl. destruct (decide (c = w)) as [->|].
    + rewrite list_lookup_insert_eq by (by eapply lookup_lt_Some). by rewrite Hx.
    + by rewrite list_lookup_insert_ne.
Qed.

Lemma set_asyncgen_inv k w p m : ainv k m -> ainv k (set_asyncgen w p m).
Proof using Type.
  destruct (set_asyncgen_spec w p m) as (? & ? & ? & ? & ? & _). by apply ainv_frame.
Qed.

(** A coroutine moves from where it is held, or from a suspension that is spent, to a handle. *)
Lemma ainv_requeue c h l m m' :
  ainv (Some c) m -> ah_coro h = c -> Forall (fun s => unspent s = false) l ->
  acoros m' = acoros m -> asusps m' = asusps m ++ l -> awakers m' = awakers m ->
  arunq m' = arunq m ++ [h] -> (some_abort m -> some_abort m') ->
  (forall e, ah_msg h = Throw e -> some_abort m') -> ainv None m'.
Proof using Type.
  intros [H1 H2 H3 H4] Hh Hl Hc Hs Hw Hr Ha Ht. split.
  - intros d. specialize (H1 d). unfold places, queued_as, suspended_as, alive in *.
    rewrite Hc, Hs, Hr, !countb_app. simpl in *. rewrite Hh.
    rewrite (countb_none _ l); [lia|]. intros i s Hi.
    rewrite Forall_lookup in Hl. rewrite (Hl i s Hi). by rewrite andb_false_r.
  - intros i s Hi Hu. rewrite Hw. rewrite Hs in Hi. apply lookup_app_Some in Hi as [Hi|[_ Hi]].
    + by eapply H2.
    + rewrite Forall_lookup in Hl. by rewrite (Hl _ _ Hi) in Hu.
  - intros h' e Hin He. rewrite Hr in Hin. apply elem_of_app in Hin as [Hin|Hin].
    + by eapply Ha, H3.
    + apply list_elem_of_singleton in Hin as ->. by eapply Ht.
  - rewrite Hc. intros d g Hd. by eapply Ha, H4.
Qed.

(** ** Suspensions *)

Lemma spend_spec n s :
  as_coro (spend n s) = as_coro s /\ as_checkpoint (spend n s) = as_checkpoint s /\
  (unspent (spend n s) = true <-> as_sentinel s <> None /\ n <> 0).
Proof using Type.
  unfold spend, unspent. destruct (as_sentinel s) as [[c k]|]; simpl; split_and!; try done.
  - rewrite negb_true_iff, Nat.eqb_neq. naive_solver.
  - naive_solver.
Qed.

(** A suspension is spent and its coroutine put in a handle. *)
Lemma ainv_spend k i s h m m' :
  ainv k m -> asusps m !! i = Some s -> unspent s = true -> ah_coro h = as_coro s ->
  acoros m' = acoros m -> asusps m' = <[i:=spend 0 s]> (asusps m) -> awakers m' = awakers m ->
  arunq m' = arunq m ++ [h] -> (some_abort m -> some_abort m') ->
  (forall e, ah_msg h = Throw e -> some_abort m') -> ainv k m'.
Proof using Type.
  intros [H1 H2 H3 H4] Hi Hu Hh Hc Hs Hw Hr Ha Ht. destruct (spend_spec 0 s) as (Hsc & _ & Hsu).
  assert (unspent (spend 0 s) = false) as Hsp
    by (apply not_true_iff_false; rewrite Hsu; naive_solver).
  split.
  - intros d. specialize (H1 d). unfold places, queued_as, suspended_as, alive in *.
    rewrite Hc, Hs, Hr, !countb_app. simpl. rewrite Hh.
    pose proof (countb_insert (fun s => (d =? as_coro s) && unspent s) _ _ _ (spend 0 s) Hi) as Hci.
    cbv beta in Hci. rewrite Hsp, Hu, andb_false_r, andb_true_r in Hci. lia.
  - intros j s' Hj Hu'. rewrite Hw. rewrite Hs in Hj.
    destruct (decide (j = i)) as [->|].
    + by eapply H2.
    + rewrite list_lookup_insert_ne in Hj by done. by eapply H2.
  - intros h' e Hin He. rewrite Hr in Hin. apply elem_of_app in Hin as [Hin|Hin].
    + by eapply Ha, H3.
    + apply list_elem_of_singleton in Hin as ->. by eapply Ht.
  - rewrite Hc. intros d g Hd. by eapply Ha, H4.
Qed.

(** The handle is the one the goal has. *)
Ltac to_queue k i s m :=
  match goal with |- ainv _ (push_handle ?h _) => eapply (ainv_spend k i s h m) end; try done.

Lemma aresume_inv k i v m : ainv k m -> ainv k (aresume i v m).
Proof using Type.
  intros Hinv. unfold aresume. destruct (asusps m !! i) as [s|] eqn:Hi; [|done].
  destruct (is_aborted _ _); [done|]. destruct (as_sentinel s) as [[c n]|] eqn:Hsen.
  - destruct (Nat.eqb_spec c 0) as [|Hc0]; [done|].
    assert (unspent s = true) as Hu by (unfold unspent; rewrite Hsen; by apply negb_true_iff, Nat.eqb_neq).
    destruct (Nat.eqb_spec c 1) as [->|Hc1].
    + to_queue k i s m.
    + destruct Hinv as [H1 H2 H3 H4]. destruct (spend_spec (c - 1) s) as (Hsc & _ & Hsu).
      assert (unspent (spend (c - 1) s) = true) as Hsp by (apply Hsu; split; [by rewrite Hsen|lia]).
      split; simpl; [|..|done].
      * intros d. specialize (H1 d). unfold places, queued_as, suspended_as, alive in *. simpl.
        pose proof (countb_insert (fun s => (d =? as_coro s) && unspent s) _ _ _ (spend (c - 1) s) Hi) as Hci.
        cbv beta in Hci. rewrite Hsp, Hu, Hsc in Hci. lia.
      * intros j s' Hj Hu'. destruct (decide (j = i)) as [->|]; [by eapply H2|].
        rewrite list_lookup_insert_ne in Hj by done. by eapply H2.
      * exact H3.
  - destruct (as_consumed s) eqn:Hcon; [done|].
    assert (unspent s = true) as Hu by (unfold unspent; rewrite Hsen; by rewrite Hcon).
    to_queue k i s m.
Qed.

Lemma aerror_inv k i e m : some_abort m -> ainv k m -> ainv k (aerror i e m).
Proof using Type.
  intros Hab Hinv. unfold aerror. destruct (asusps m !! i) as [s|] eqn:Hi; [|done].
  destruct (unspent s) eqn:Hu; [|done].
  destruct (set_asyncgen_spec (as_checkpoint s) None (put_susp i (spend 0 s) m))
    as (Hc & Hs & Hw & Hr & Ha & _).
  to_queue k i s m; simpl; try (by rewrite ?Hc, ?Hs, ?Hw, ?Hr); intros; by apply Ha.
Qed.

Lemma aerror_abort i e (m : amachine G) : some_abort m -> some_abort (aerror i e m).
Proof using Type.
  intros Ha. unfold aerror. destruct (asusps m !! i) as [s|]; [|done]. destruct (unspent s); [|done].
  by apply (set_asyncgen_spec (as_checkpoint s) None (put_susp i (spend 0 s) m)).
Qed.
(** ** Registering *)

Lemma insert_last {A} (l : list A) x y : <[length l:=y]> (l ++ [x]) = l ++ [y].
Proof using Type. induction l; simpl; [done|]. by f_equal. Qed.

(** A suspension is made for the coroutine that is held, and given to events. *)
Lemma ainv_suspend c s m m' :
  ainv (Some c) m -> as_coro s = c -> unspent s = true ->
  acoros m' = acoros m -> asusps m' = asusps m ++ [s] -> awakers m' = awakers m ++ [length (asusps m)] ->
  arunq m' = arunq m -> (some_abort m -> some_abort m') -> ainv None m'.
Proof using Type.
  intros [H1 H2 H3 H4] Hs Hu Hc Hss Hw Hr Ha. split.
  - intros d. specialize (H1 d). unfold places, queued_as, suspended_as, alive in *.
    rewrite Hc, Hss, Hr, countb_app. simpl in *. rewrite Hs, Hu, andb_true_r. lia.
  - intros i s' Hi Hu'. rewrite Hw, elem_of_app, list_elem_of_singleton. rewrite Hss in Hi.
    apply lookup_app_Some in Hi as [Hi|[Hge Hi]]; [left; by eapply H2|]. right.
    apply list_lookup_singleton_Some in Hi as [Hi _]. lia.
  - rewrite Hr. intros h e Hh He. by eapply Ha, H3.
  - rewrite Hc. intros d g Hd. by eapply Ha, H4.
Qed.

Lemma build_sentinel_unspent n c ctx cp :
  n <> 0 -> unspent (mkASusp c ctx false (build_sentinel n) cp) = true.
Proof using Type. destruct n as [|[|n]]; done. Qed.

Ltac requeue c l m :=
  match goal with |- ainv _ (push_handle ?h _) => eapply (ainv_requeue c h l m) end.

Lemma register_inv w c ctx cp m m' :
  ainv (Some c) m -> register_pyasyncgen w c ctx cp m = Some m' -> ainv None m'.
Proof using Type.
  intros Hinv Hreg. unfold register_pyasyncgen in Hreg.
  destruct (awaiters m !! w) as [x|] eqn:Hx; [|done]. destruct (aw_registered x); [done|].
  set (x1 := mkAWaiter true (aw_aborted x) (aw_nevents x) (checkpoint_asyncgen x)) in *.
  set (m1 := put_waiter w x1 m) in *.
  assert (some_abort m -> some_abort m1) as Ha1 by (by apply put_waiter_abort with x).
  assert (is_aborted (Some w) m1 = aw_aborted x) as Hab.
  { simpl. by rewrite list_lookup_insert_eq by (by eapply lookup_lt_Some). }
  destruct (Nat.eqb_spec (aw_nevents x) 0) as [_|Hn]; apply (inj Some) in Hreg; subst m'.
  - set (s := mkASusp c ctx false None (Some w)).
    destruct (set_asyncgen_spec (Some w) (Some (length (asusps m1))) (push_susp s m1))
      as (Hc & Hs & Hw & Hr & Ha & Hfl).
    set (m2 := set_asyncgen _ _ _) in *.
    assert (asusps m2 !! length (asusps m1) = Some s) as Hi by (rewrite Hs; by apply list_lookup_middle).
    assert (forall y, <[length (asusps m1):=y]> (asusps m2) = asusps m ++ [y]) as Hins
      by (intros y; rewrite Hs; apply insert_last).
    destruct (aw_aborted x) eqn:Hxa.
    + assert (some_abort m2) as Hm2.
      { apply Ha. exists w, x1. split; [|done]. simpl. apply list_lookup_insert_eq.
        by eapply lookup_lt_Some. }
      unfold aerror. rewrite Hi. replace (unspent s) with true by done.
      destruct (set_asyncgen_spec (as_checkpoint s) None (put_susp (length (asusps m1)) (spend 0 s) m2))
        as (Hc3 & Hs3 & Hw3 & Hr3 & Ha3 & _).
      set (m3 := set_asyncgen (as_checkpoint s) None _) in *.
      requeue c [spend 0 s] m; [done|done|by repeat constructor|..];
        simpl; rewrite ?Hc3, ?Hs3, ?Hw3, ?Hr3; simpl; rewrite ?Hins, ?Hc, ?Hw, ?Hr; auto.
    + unfold aresume. rewrite Hi. simpl as_checkpoint. rewrite Hfl.
      change (is_aborted (Some w) (push_susp s m1)) with (is_aborted (Some w) m1). rewrite Hab. simpl.
      requeue c [spend 0 s] m; [done|done|by repeat constructor|..];
        simpl; rewrite ?Hins, ?Hc, ?Hw, ?Hr; auto. done.
  - set (s := mkASusp c ctx false (build_sentinel (aw_nevents x)) cp).
    destruct (set_asyncgen_spec cp (Some (length (asusps m1))) (push_susp s m1))
      as (Hc & Hs & Hw & Hr & Ha & _).
    set (m2 := set_asyncgen _ _ _) in *.
    eapply (ainv_suspend c s m); [done|done|by apply build_sentinel_unspent|..];
      simpl; rewrite ?Hc, ?Hs, ?Hw, ?Hr; auto.
Qed.

(** ** Every step *)

Lemma take_inv i h g m :
  ainv None m -> arunq m !! i = Some h -> acoros m !! ah_coro h = Some (Alive g) ->
  ainv (Some (ah_coro h)) (take_handle i m).
Proof using Type.
  intros [H1 H2 H3 H4] Hi Hg. split; try done.
  - intros c. specialize (H1 c). unfold places, queued_as, suspended_as, alive, held in *. simpl.
    rewrite (countb_delete _ _ _ _ Hi) in H1. lia.
  - simpl. intros h' e Hin He. eapply H3; [|done].
    rewrite (delete_Permutation _ _ _ Hi). by right.
Qed.

(** The coroutine that is held goes on, or does not. *)
Lemma put_alive_inv c g g' m :
  ainv (Some c) m -> acoros m !! c = Some (Alive g) -> ainv (Some c) (put_coro c (Alive g') m).
Proof using Type.
  intros [H1 H2 H3 H4] Hg. assert (c < length (acoros m)) as Hlt by (by eapply lookup_lt_Some).
  split; try done.
  - intros d. specialize (H1 d). unfold places, queued_as, suspended_as, alive in *. simpl.
    destruct (decide (d = c)) as [->|]; [|by rewrite list_lookup_insert_ne].
    rewrite list_lookup_insert_eq by done. by rewrite Hg in H1.
  - simpl. intros d g2 Hd. destruct (decide (d = c)) as [->|].
    + by rewrite list_lookup_insert_eq in Hd.
    + rewrite list_lookup_insert_ne in Hd by done. by eapply H4.
Qed.

Lemma put_over_inv c g x m :
  ainv (Some c) m -> acoros m !! c = Some (Alive g) -> (forall g', x <> Alive g') ->
  (forall g', x = Dropped g' -> some_abort m) -> ainv None (put_coro c x m).
Proof using Type.
  intros [H1 H2 H3 H4] Hg Hx Hd. assert (c < length (acoros m)) as Hlt by (by eapply lookup_lt_Some).
  split; try done.
  - intros d. specialize (H1 d). unfold places, queued_as, suspended_as, alive, held in *. simpl.
    destruct (Nat.eqb_spec d c) as [Heq|]; [|rewrite list_lookup_insert_ne by done; lia].
    rewrite Heq in *. rewrite list_lookup_insert_eq by done. rewrite Hg in H1. destruct x; [by destruct (Hx g0)|lia..].
  - simpl. intros d g2 Hd2. destruct (decide (d = c)) as [->|].
    + rewrite list_lookup_insert_eq in Hd2 by done. injection Hd2 as ->. by eapply Hd.
    + rewrite list_lookup_insert_ne in Hd2 by done. by eapply H4.
Qed.

Lemma acall_inv i m m' : ainv None m -> acall run i m = Some m' -> ainv None m'.
Proof using Type.
  intros Hinv Hcall. unfold acall in Hcall. destruct (arunq m !! i) as [h|] eqn:Hi; [|done].
  destruct (acoros m !! ah_coro h) as [[g| |]|] eqn:Hg; try done.
  pose proof (take_inv i h g m Hinv Hi Hg) as Ht.
  assert (forall e, ah_msg h = Throw e -> some_abort m) as Hab
    by (intros e He; eapply (a_throw _ _ Hinv); [by eapply list_elem_of_lookup_2|done]).
  pose proof (fun g' => put_alive_inv _ g g' _ Ht Hg) as Halive.
  destruct (ah_msg h) as [v|e] eqn:Hmsg; destruct (run g _) as [y g'|r|e'] eqn:Hrun.
  - destruct y as [|g2|w|]; try done; simplify_eq.
    + eapply (ainv_requeue _ h []); [apply (Halive g')|done..| | | | |]; try done.
      * by rewrite app_nil_r.
      * intros e He. by rewrite Hmsg in He.
    + eapply register_inv; [apply (Halive g')|exact Hcall].
  - injection Hcall as <-. apply set_asyncgen_inv. by eapply put_over_inv.
  - injection Hcall as <-. apply set_asyncgen_inv. by eapply put_over_inv.
  - injection Hcall as <-. eapply put_over_inv; try done. intros _ _. by eapply Hab.
  - injection Hcall as <-. by eapply put_over_inv.
  - injection Hcall as <-. by eapply put_over_inv.
Qed.

Lemma abort_inv w m : ainv None m -> ainv None (abort_pyasyncgen w m).
Proof using Type.
  intros Hinv. unfold abort_pyasyncgen. destruct (awaiters m !! w) as [x|] eqn:Hx; [|done].
  destruct (aw_aborted x) eqn:Hxa; [done|].
  set (m1 := put_waiter _ _ m).
  assert (some_abort m1) as Ha.
  { exists w, (mkAWaiter (aw_registered x) true (aw_nevents x) (checkpoint_asyncgen x)). split; [|done].
    simpl. apply list_lookup_insert_eq. by eapply lookup_lt_Some. }
  assert (ainv None m1) as H1 by (eapply ainv_frame; [..|exact Hinv]; done).
  destruct (checkpoint_asyncgen x); [by apply aerror_inv|done].
Qed.

Lemma spawn_inv g ctx m : ainv None m -> ainv None (spawn_pyasyncgen g ctx m).
Proof using Type.
  intros [H1 H2 H3 H4]. split; simpl.
  - intros d. specialize (H1 d). unfold places, queued_as, suspended_as, alive in *. simpl in *.
    rewrite countb_app. simpl. destruct (Nat.eqb_spec d (length (acoros m))) as [->|Hne].
    + rewrite list_lookup_middle by done. rewrite lookup_ge_None_2 in H1 by lia. lia.
    + destruct (decide (d < length (acoros m))) as [Hlt|Hge].
      * rewrite lookup_app_l by done. lia.
      * rewrite lookup_ge_None_2 in H1 by lia.
        rewrite lookup_ge_None_2 by (rewrite length_app; simpl; lia). lia.
  - done.
  - intros h e [Hin|Hin]%elem_of_app He; [by eapply H3|].
    apply list_elem_of_singleton in Hin as ->. done.
  - intros c g' [Hc|[_ Hc]]%lookup_app_Some; [by eapply H4|].
    by apply list_lookup_singleton_Some in Hc as [_ ?].
Qed.

Lemma astep_inv m m' : ainv None m -> astep run m m' -> ainv None m'.
Proof using Type.
  intros Hinv [i m2 Hc|i v _|w|g ctx|n].
  - by eapply acall_inv.
  - by apply aresume_inv.
  - by apply abort_inv.
  - by apply spawn_inv.
  - eapply ainv_frame; [..|exact Hinv]; try done. intros (w & x & Hx & Ha). exists w, x.
    split; [by apply lookup_app_l_Some|done].
Qed.

Lemma amachine_inv m : rtc (astep run) amachine0 m -> ainv None m.
Proof using Type.
  apply (rtc_ind_r (ainv None)).
  - split; [|intros i s Hi|intros h e Hh|intros c g Hc]; try done. by apply not_elem_of_nil in Hh.
  - intros m1 m2 _ Hs Hi. by eapply astep_inv.
Qed.
(** ** What the wakers of a suspension do *)

(** How many of them it waits for, and all of them at work. *)
Definition awaited (s : asuspension) : nat :=
  match as_sentinel s with Some (c, _) => c | None => if as_consumed s then 0 else 1 end.
Fixpoint wake_times (n i : nat) (m : amachine G) : amachine G :=
  match n with O => m | S n => wake_times n i (aresume i PNone m) end.

Lemma not_aborted cp m : ~ some_abort m -> is_aborted cp m = false.
Proof using Type.
  intros Hno. destruct cp as [w|]; [|done]. simpl. destruct (awaiters m !! w) as [x|] eqn:Hx; [|done].
  destruct (aw_aborted x) eqn:Ha; [|done]. destruct Hno. by exists w, x.
Qed.

Lemma queued_push c h m :
  queued_as c (push_handle h m) = queued_as c m + (if c =? ah_coro h then 1 else 0).
Proof using Type. unfold queued_as. simpl. rewrite countb_app. simpl. lia. Qed.

Lemma wake_times_S n i m : wake_times (S n) i m = wake_times n i (aresume i PNone m).
Proof using Type. done. Qed.

Lemma wake_times_queues n i s m :
  ~ some_abort m -> asusps m !! i = Some s -> awaited s = S n ->
  queued_as (as_coro s) (wake_times (S n) i m) = S (queued_as (as_coro s) m).
Proof using Type.
  revert s m. induction n as [|n IH]; intros s m Hno Hi Hn; rewrite wake_times_S; unfold aresume at 1;
    rewrite Hi, not_aborted by done; unfold awaited in Hn;
    destruct (as_sentinel s) as [[c k]|] eqn:Hsen.
  - subst c. cbn [wake_times Nat.eqb]. rewrite queued_push. simpl. rewrite Nat.eqb_refl.
    unfold queued_as. simpl. lia.
  - destruct (as_consumed s); [done|]. cbn [wake_times]. rewrite queued_push. simpl. rewrite Nat.eqb_refl.
    unfold queued_as. simpl. lia.
  - subst c. cbn [Nat.eqb]. destruct (spend_spec (S (S n) - 1) s) as (Hc & _).
    rewrite <- Hc. specialize (IH (spend (S (S n) - 1) s) (put_susp i (spend (S (S n) - 1) s) m)).
    rewrite IH; [done|done| |].
    + simpl. apply list_lookup_insert_eq. by eapply lookup_lt_Some.
    + unfold awaited, spend. rewrite Hsen. simpl. lia.
  - destruct (as_consumed s); discriminate Hn.
Qed.

End Account.

(** ** Executions *)

(** A coroutine that awaits waiters in turn, with what it does when an exception is thrown there. *)
#[warnings="-register-all"]
Inductive script := Return_ | Await (w : nat) (next : script) (handler : option script).
Inductive cstate := Fresh (p : script) | At (next : script) (handler : option script).

Definition begin_script (p : script) : outcome cstate :=
  match p with
  | Return_ => Returned PNone
  | Await w next handler => Yielded (YWaiter w) (At next handler)
  end.
Definition script_run (c : cstate) (x : msg) : outcome cstate :=
  match c, x with
  | Fresh p, Send _ | At p _, Send _ => begin_script p
  | At _ (Some p), Throw _ => begin_script p
  | _, Throw e => Raised e
  end.

Inductive aact := DoCall (i : nat) | DoWake (i : nat) | DoAbort (w : nat) | DoSpawn (p : script) | DoWaiter (n : nat).

Definition do_aact (a : aact) (m : amachine cstate) : option (amachine cstate) :=
  match a with
  | DoCall i => acall script_run i m
  | DoWake i => if bool_decide (i ∈ awakers m) then Some (aresume i PNone m) else None
  | DoAbort w => Some (abort_pyasyncgen w m)
  | DoSpawn p => Some (spawn_pyasyncgen (Fresh p) None m)
  | DoWaiter n => Some (new_waiter n m)
  end.
Fixpoint do_aacts (l : list aact) (m : amachine cstate) : option (amachine cstate) :=
  match l with
  | [] => Some m
  | a :: l => match do_aact a m with Some m' => do_aacts l m' | None => None end
  end.

Lemma do_aacts_steps l m m' : do_aacts l m = Some m' -> rtc (astep script_run) m m'.
Proof.
  revert m. induction l as [|a l IH]; intros m Hl; simpl in Hl; [by simplify_eq|].
  destruct (do_aact a m) as [m1|] eqn:Ha; [|done]. eapply rtc_l; [|by apply IH].
  destruct a; simpl in Ha; simplify_eq; try by constructor.
  - by eapply ACall.
  - case_bool_decide; [|done]. simplify_eq. by constructor.
Qed.


(** A child of a scope that is cancelled while its handle is in the queue: it never sees the
    exception, and after its next [await] nothing resumes it any more. *)
Lemma abort_of_queued_strands :
  exists m, do_aacts
      [DoWaiter 0; DoWaiter 1; DoWaiter 1; DoSpawn (Await 0 (Await 1 (Await 2 Return_ None) None) None);
       DoCall 0; DoCall 0; DoWake 1; DoAbort 0; DoCall 0] amachine0 = Some m /\
    arunq m = [] /\ alive 0 m = 1 /\ (forall i v, aresume i v m = m).
Proof.
  eexists. split; [by vm_compute|]. split_and!; [done|done|].
  intros [|[|[|i]]] v; by vm_compute.
Qed.

(** A child that awaits something while it handles [CancelledError] is left there. *)
Lemma await_in_handler_dropped :
  exists m, do_aacts
      [DoWaiter 0; DoWaiter 1; DoWaiter 1; DoSpawn (Await 0 (Await 1 Return_ (Some (Await 2 Return_ None))) None);
       DoCall 0; DoCall 0; DoAbort 0; DoCall 0] amachine0 = Some m /\
    arunq m = [] /\ acoros m = [Dropped (At Return_ None)].
Proof. eexists. split; [by vm_compute|]. done. Qed.
