(* ===== verification/Registry.v ===== *)
(** * Registered descriptors and the tokens of the poller

    [Runtime::io_register], [io_deregister], [cleanup_io] and the part of [Runtime::poll] of
    [src/src/runtime.rs] that turns the token of an event back into a reference.  The token is the
    address of a reference-counted [ScheduledIO], read without taking a reference: it is safe
    because the references of descriptors that were deregistered are parked, and dropped by the
    poller alone between two batches of events.

    An address may be used again once nothing refers to it; [gen] counts how often, and the kernel
    keeps the count with the token so that an event can be told from one for an earlier entry at
    the same address.  Deregistering in the kernel succeeds. *)

From stdpp Require Import base numbers list gmap sets relations.
From Stdlib Require Import Lia.
From S2P Require Import Prelude.

#[local] Set Warnings "-clear-no-such-hyp".

(** Where a call stands: in [io_register], which has a reference of its own and uses the registry
    it loaded, or in [io_deregister], which borrows its owner's. *)
Inductive call :=
| RegInsert (a run : nat)            (* [self.io_registrations.pin().insert(token, ..)] *)
| RegKernel (a run : nat)            (* [registry.register(..)] *)
| RegUndo (a : nat)                  (* it failed: [remove(&token)] *)
| DeregRemove (a : nat)              (* [regs.remove(&token)] *)
| DeregKernel (a : nat)              (* [registry.deregister(..)], then [io.shutdown()] *)
| DeregPark (a : nat)                (* [io_pending_release.lock().push(..)] *)
| DeregFlag (a : nat)                (* [io_needs_release.store(true)] *)
| Returned_.

(** Where the poller is: at the top of [poll], about to drop the parked references, in the system
    call, with the rest of a batch, or not running. *)
Inductive poller := Top | Clearing | Polling | Dispatching (batch : list (nat * nat)) | Stopped.

(** [owners]: the objects that hold a reference to the entry at an address ([Socket], [Fd], ..). *)
Record state := mkState {
  gen : nat -> nat; owners : nat -> nat; mapped : gset nat; kernel : gset (nat * nat);
  pending : list nat; needs_release : bool; run : nat; calls : list call; at_ : poller }.

Definition set_calls x s :=
  mkState (gen s) (owners s) (mapped s) (kernel s) (pending s) (needs_release s) (run s) x (at_ s).
Definition set_owners x s :=
  mkState (gen s) x (mapped s) (kernel s) (pending s) (needs_release s) (run s) (calls s) (at_ s).
Definition set_mapped x s :=
  mkState (gen s) (owners s) x (kernel s) (pending s) (needs_release s) (run s) (calls s) (at_ s).
Definition set_kernel x s :=
  mkState (gen s) (owners s) (mapped s) x (pending s) (needs_release s) (run s) (calls s) (at_ s).
Definition set_pending x s :=
  mkState (gen s) (owners s) (mapped s) (kernel s) x (needs_release s) (run s) (calls s) (at_ s).
Definition set_needs x s :=
  mkState (gen s) (owners s) (mapped s) (kernel s) (pending s) x (run s) (calls s) (at_ s).
Definition set_at x s :=
  mkState (gen s) (owners s) (mapped s) (kernel s) (pending s) (needs_release s) (run s) (calls s) x.

(** The entry a call has a reference to. *)
Definition holds (c : call) : option nat :=
  match c with
  | RegInsert a _ | RegKernel a _ | RegUndo a
  | DeregRemove a | DeregKernel a | DeregPark a | DeregFlag a => Some a
  | Returned_ => None
  end.

(** The entry at an address has not been dropped: an owner, the map, the parked references or a
    call refers to it. *)
Definition alive (s : state) (a : nat) : Prop :=
  0 < owners s a \/ a ∈ mapped s \/ a ∈ pending s \/ exists c, c ∈ calls s /\ holds c = Some a.

Definition bump (f : nat -> nat) (a : nat) (g : nat -> nat) : nat -> nat :=
  fun b => if b =? a then g (f b) else f b.

(** The next access of a call; [ok] says whether the registration succeeds. *)
Definition step_call (ok : bool) (c : call) (s : state) : state * call :=
  match c with
  | RegInsert a r => (set_mapped ({[a]} ∪ mapped s) s, RegKernel a r)
  | RegKernel a r =>
      if ok
      then (set_owners (bump (owners s) a S)
              (if r =? run s then set_kernel ({[(a, gen s a)]} ∪ kernel s) s else s), Returned_)
      else (s, RegUndo a)
  | RegUndo a => (set_mapped (mapped s ∖ {[a]}) s, Returned_)
  | DeregRemove a =>
      if bool_decide (a ∈ mapped s) then (set_mapped (mapped s ∖ {[a]}) s, DeregKernel a) else (s, Returned_)
  | DeregKernel a => (set_kernel (filter (fun p => p.1 <> a) (kernel s)) s, DeregPark a)
  | DeregPark a => (set_pending (pending s ++ [a]) s, DeregFlag a)
  | DeregFlag _ => (set_needs true s, Returned_)
  | Returned_ => (s, Returned_)
  end.

(** The next access of the poller; [batch] is what the system call reports. *)
Definition step_poller (batch : list (nat * nat)) (s : state) : state :=
  match at_ s with
  | Top => if needs_release s then set_at Clearing (set_needs false s) else set_at Polling s
  | Clearing => set_at Polling (set_pending [] s)
  | Polling => set_at (Dispatching batch) s
  | Dispatching (_ :: l) => set_at (Dispatching l) s
  | Dispatching [] => set_at Top s
  | Stopped => s
  end.

(** [cleanup_io]. *)
Definition cleanup_io (s : state) : state :=
  set_at Stopped (set_needs false (set_pending [] (set_mapped ∅
    (set_kernel (filter (fun p => p.1 ∉ mapped s) (kernel s)) s)))).

Inductive rstep (s : state) : state -> Prop :=
| RStart a :                                     (* a new entry, where nothing lives *)
    at_ s <> Stopped -> ~ alive s a ->
    rstep s (mkState (bump (gen s) a S) (owners s) (mapped s) (kernel s) (pending s) (needs_release s)
               (run s) (calls s ++ [RegInsert a (run s)]) (at_ s))
| RClose a :                                     (* an owner calls [io_deregister] *)
    0 < owners s a -> rstep s (set_calls (calls s ++ [DeregRemove a]) s)
| RCall i c ok s' c' :
    calls s !! i = Some c -> c <> Returned_ -> step_call ok c s = (s', c') ->
    rstep s (set_calls (<[i:=c']> (calls s')) s')
| RDrop a :                                      (* an owner goes *)
    0 < owners s a -> rstep s (set_owners (bump (owners s) a pred) s)
| RPoll batch :                                  (* the kernel reports what is registered *)
    (forall p, p ∈ batch -> p ∈ kernel s) -> rstep s (step_poller batch s)
| RStop : at_ s = Top -> rstep s (cleanup_io s)
| RRun :                                         (* the loop is run again, with a new [Poll] *)
    at_ s = Stopped ->
    rstep s (mkState (gen s) (owners s) (mapped s) ∅ (pending s) (needs_release s) (S (run s))
               (calls s) Top).

Definition registry0 : state :=
  mkState (fun _ => 0) (fun _ => 0) ∅ ∅ [] false 0 [] Top.

(** ** The invariant *)

(** The entry a call is registering, and the run whose registry it loaded. *)
Definition registers (c : call) : option nat :=
  match c with RegInsert a _ | RegKernel a _ | RegUndo a => Some a | _ => None end.
Definition run_of (c : call) : nat :=
  match c with RegInsert _ r | RegKernel _ r => r | _ => 0 end.
Definition batch_of (s : state) : list (nat * nat) :=
  match at_ s with Dispatching b => b | _ => [] end.

(** A new entry is nobody else's yet. *)
Definition private (s : state) (i a : nat) : Prop :=
  owners s a = 0 /\ (a ∉ pending s) /\ (forall g, (a, g) ∉ kernel s) /\ (forall g, (a, g) ∉ batch_of s) /\
  forall j c, calls s !! j = Some c -> holds c = Some a -> j = i.

Record rinv (s : state) : Prop := {
  r_kernel : forall a g, at_ s <> Stopped -> (a, g) ∈ kernel s ->
    gen s a = g /\ (a ∈ mapped s \/ DeregKernel a ∈ calls s);
  r_batch : forall a g, (a, g) ∈ batch_of s ->
    gen s a = g /\ (a ∈ mapped s \/ DeregKernel a ∈ calls s \/ DeregPark a ∈ calls s \/ a ∈ pending s);
  r_private : forall i c a, calls s !! i = Some c -> registers c = Some a -> private s i a;
  r_mapped : forall a, RegKernel a (run s) ∈ calls s -> at_ s <> Stopped -> a ∈ mapped s;
  r_run : forall c, c ∈ calls s -> run_of c <= run s;
  r_flag : pending s = [] \/ needs_release s = true \/ at_ s = Clearing \/ exists a, DeregFlag a ∈ calls s
}.

Lemma registers_holds c a : registers c = Some a -> holds c = Some a.
Proof. by destruct c. Qed.

(** A token the poller knows of is alive. *)
Lemma batch_alive s a g : rinv s -> (a, g) ∈ batch_of s -> alive s a.
Proof.
  intros Hinv [_ [H|[H|[H|H]]]]%(r_batch s Hinv); unfold alive; [auto| | |auto];
    do 3 right; by eexists.
Qed.

Lemma kernel_alive s a g : rinv s -> at_ s <> Stopped -> (a, g) ∈ kernel s -> alive s a.
Proof.
  intros Hinv Hat Hk. destruct (r_kernel s Hinv a g Hat Hk) as [_ [H|H]]; unfold alive; [auto|].
  do 3 right. by eexists.
Qed.

Lemma bump_eq f a g : bump f a g a = g (f a).
Proof. unfold bump. by rewrite Nat.eqb_refl. Qed.
Lemma bump_ne f a g b : b <> a -> bump f a g b = f b.
Proof. intros Hne. unfold bump. by rewrite (proj2 (Nat.eqb_neq b a) Hne). Qed.

Lemma elem_of_snoc {A} (l : list A) x y : y ∈ l ++ [x] <-> y ∈ l \/ y = x.
Proof. rewrite elem_of_app, list_elem_of_singleton. done. Qed.

(** ** New calls *)

Lemma start_inv s a :
  rinv s -> at_ s <> Stopped -> ~ alive s a ->
  rinv (mkState (bump (gen s) a S) (owners s) (mapped s) (kernel s) (pending s) (needs_release s)
          (run s) (calls s ++ [RegInsert a (run s)]) (at_ s)).
Proof.
  intros Hinv Hat Hdead. split; simpl.
  - intros b g _ Hb. assert (b <> a) as Hne by (intros ->; by apply Hdead, (kernel_alive s a g)).
    rewrite bump_ne by done. destruct (r_kernel s Hinv b g Hat Hb) as [? [?|?]]; (split; [done|]);
      [by left|right]. apply elem_of_snoc. by left.
  - intros b g Hb. assert (b <> a) as Hne by (intros ->; by apply Hdead, (batch_alive s a g)).
    rewrite bump_ne by done. destruct (r_batch s Hinv b g Hb) as [? H]. split; [done|].
    rewrite !elem_of_snoc. naive_solver.
  - intros i c b Hi Hr. unfold private. simpl.
    apply lookup_app_Some in Hi as [Hi|[Hge [Hz <-]%list_lookup_singleton_Some]].
    + destruct (r_private s Hinv i c b Hi Hr) as (Ho & Hp & Hk & Hb & Hu). split_and!; try done.
      intros j c2 [Hj|[_ [_ <-]%list_lookup_singleton_Some]]%lookup_app_Some Hc2; [by eapply Hu|].
      simplify_eq/=. destruct Hdead. do 3 right. exists c.
      split; [by eapply list_elem_of_lookup_2|by apply registers_holds].
    + injection Hr as <-. split_and!.
      * destruct (decide (owners s a = 0)); [done|]. destruct Hdead. left. lia.
      * intros Hp. apply Hdead. unfold alive. auto.
      * intros g Hg. by apply Hdead, (kernel_alive s a g).
      * intros g Hg. by apply Hdead, (batch_alive s a g).
      * intros j c2 [Hj|[Hj [? _]%list_lookup_singleton_Some]]%lookup_app_Some Hc2; [|lia].
        destruct Hdead. do 3 right. exists c2. split; [by eapply list_elem_of_lookup_2|done].
  - intros b [Hb|Hb]%elem_of_snoc; [by apply (r_mapped s Hinv)|done].
  - intros c [Hc| ->]%elem_of_snoc; [by apply (r_run s Hinv)|done].
  - destruct (r_flag s Hinv) as [|[|[|[b Hb]]]]; auto. do 3 right. exists b. apply elem_of_snoc. by left.
Qed.

Lemma close_inv s a : rinv s -> 0 < owners s a -> rinv (set_calls (calls s ++ [DeregRemove a]) s).
Proof.
  intros Hinv Ho. split; simpl.
  - intros b g Hat Hb. destruct (r_kernel s Hinv b g Hat Hb) as [? H]. split; [done|].
    rewrite elem_of_snoc. naive_solver.
  - intros b g Hb. destruct (r_batch s Hinv b g Hb) as [? H]. split; [done|].
    rewrite !elem_of_snoc. naive_solver.
  - intros i c b [Hi|[_ [_ <-]%list_lookup_singleton_Some]]%lookup_app_Some Hr; [|done].
    destruct (r_private s Hinv i c b Hi Hr) as (H1 & Hp & Hk & Hb & Hu). split_and!; try done.
    simpl. intros j c2 [Hj|[_ [_ <-]%list_lookup_singleton_Some]]%lookup_app_Some Hc2; [by eapply Hu|].
    simplify_eq/=. lia.
  - intros b [Hb|Hb]%elem_of_snoc; [by apply (r_mapped s Hinv)|done].
  - intros c [Hc| ->]%elem_of_snoc; [by apply (r_run s Hinv)|simpl; lia].
  - destruct (r_flag s Hinv) as [|[|[|[b Hb]]]]; auto. do 3 right. exists b. apply elem_of_snoc. by left.
Qed.

(** ** An access of a call *)

Section Call.
Context (s : state) (i : nat) (c : call).
Hypothesis Hinv : rinv s.
Hypothesis Hi : calls s !! i = Some c.

Lemma moved_keeps c' c2 : c2 ∈ calls s -> c2 <> c -> c2 ∈ <[i:=c']> (calls s).
Proof using All.
  intros [j Hj]%list_elem_of_lookup_1 Hne. apply list_elem_of_lookup_2 with j.
  rewrite list_lookup_insert_ne; [done|]. intros ->. congruence.
Qed.

Lemma moved_self c' : c' ∈ <[i:=c']> (calls s).
Proof using All. apply list_elem_of_insert. by eapply lookup_lt_Some. Qed.

Lemma moved_inv c' c2 : c2 ∈ <[i:=c']> (calls s) -> c2 = c' \/ c2 ∈ calls s.
Proof using Type.
  intros [j Hj]%list_elem_of_lookup_1. apply list_lookup_insert_Some in Hj as [(_ & <- & _)|[_ Hj]];
    [by left|right; by eapply list_elem_of_lookup_2].
Qed.

(** What an access of [c] has to keep. *)
Lemma call_inv c' s' :
  gen s' = gen s -> run s' = run s -> at_ s' = at_ s -> calls s' = <[i:=c']> (calls s) ->
  (forall a, holds c' = Some a -> holds c = Some a) ->
  (forall a, registers c' = Some a -> registers c = Some a) -> run_of c' <= run s ->
  (forall a g, at_ s <> Stopped -> (a, g) ∈ kernel s' ->
     gen s a = g /\ (a ∈ mapped s' \/ DeregKernel a ∈ calls s')) ->
  (forall a, (a ∈ mapped s \/ DeregKernel a ∈ calls s \/ DeregPark a ∈ calls s \/ a ∈ pending s) ->
     (exists g, (a, g) ∈ batch_of s) ->
     a ∈ mapped s' \/ DeregKernel a ∈ calls s' \/ DeregPark a ∈ calls s' \/ a ∈ pending s') ->
  (forall j a, private s j a -> (j = i -> registers c' = Some a) ->
     owners s' a = 0 /\ (a ∉ pending s') /\ forall g, (a, g) ∉ kernel s') ->
  (forall a, RegKernel a (run s) ∈ calls s' -> at_ s <> Stopped -> a ∈ mapped s') ->
  (pending s' = [] \/ needs_release s' = true \/ at_ s' = Clearing \/ exists a, DeregFlag a ∈ calls s') ->
  rinv s'.
Proof using All.
  intros Hg Hru Hat Hc Hh Hr Hro HK HB HP HM HF.
  assert (batch_of s' = batch_of s) as Hbt by (unfold batch_of; by rewrite Hat).
  split; [|..|exact HF].
  - intros a g. rewrite Hat, Hg. apply HK.
  - intros a g. rewrite Hbt, Hg. intros Hb. destruct (r_batch s Hinv a g Hb) as [? H]. split; [done|].
    apply HB; [done|by exists g].
  - intros j c2 a Hj Hc2. rewrite Hc in Hj. apply list_lookup_insert_Some in Hj.
    assert (private s j a /\ (j = i -> registers c' = Some a)) as [Hpriv Hji].
    { destruct Hj as [(<- & <- & _)|[Hne Hj]].
      - split; [|done]. by apply (r_private s Hinv i c); [|apply Hr].
      - split; [by apply (r_private s Hinv j c2)|congruence]. }
    destruct (HP j a Hpriv Hji) as (Ho & Hp & Hk). destruct Hpriv as (_ & _ & _ & Hb & Hu).
    split_and!; try done.
    + intros g. by rewrite Hbt.
    + intros j2 c3 Hj2 Hc3. rewrite Hc in Hj2. apply list_lookup_insert_Some in Hj2.
      destruct Hj2 as [(<- & <- & _)|[_ Hj2]]; [by apply (Hu i c), Hh|by eapply Hu].
  - intros a. rewrite Hat, Hru. apply HM.
  - intros c2 Hc2. rewrite Hru. rewrite Hc in Hc2. apply moved_inv in Hc2 as [->|Hc2]; [done|].
    by apply (r_run s Hinv).
Qed.

(** The same for accesses that leave the kernel, the owners and the parked references alone and
    only add to the map. *)
Lemma flag_moved c' :
  (forall a, c <> DeregFlag a) ->
  (exists a, DeregFlag a ∈ calls s) -> exists a, DeregFlag a ∈ <[i:=c']> (calls s).
Proof using All. intros Hc [a Ha]. exists a. by apply moved_keeps; [|intros <-; by apply (Hc a)]. Qed.

Lemma batch_moved c' a :
  (forall b, c <> DeregKernel b) -> (forall b, c <> DeregPark b) ->
  a ∈ mapped s \/ DeregKernel a ∈ calls s \/ DeregPark a ∈ calls s \/ a ∈ pending s ->
  a ∈ mapped s \/ DeregKernel a ∈ <[i:=c']> (calls s) \/ DeregPark a ∈ <[i:=c']> (calls s) \/ a ∈ pending s.
Proof using All.
  intros Hk Hp [|[|[|]]]; [auto|..|auto].
  - right. left. by apply moved_keeps.
  - do 2 right. left. by apply moved_keeps.
Qed.

Lemma kernel_moved c' a g :
  (forall b, c <> DeregKernel b) -> at_ s <> Stopped -> (a, g) ∈ kernel s ->
  gen s a = g /\ (a ∈ mapped s \/ DeregKernel a ∈ <[i:=c']> (calls s)).
Proof using All.
  intros Hk Hat Ha. destruct (r_kernel s Hinv a g Hat Ha) as [? [|]]; (split; [done|]); [by left|].
  right. by apply moved_keeps.
Qed.

Lemma mapped_moved c' a :
  (forall b r, c' <> RegKernel b r) ->
  RegKernel a (run s) ∈ <[i:=c']> (calls s) -> at_ s <> Stopped -> a ∈ mapped s.
Proof using All.
  intros Hc' [Heq|Ha]%moved_inv Hat; [by destruct (Hc' a (run s))|by apply (r_mapped s Hinv)].
Qed.
End Call.

(** A registration is alone with its entry. *)
Lemma registers_alone s i c j a :
  rinv s -> calls s !! i = Some c -> registers c = Some a -> private s j a -> j = i.
Proof.
  intros Hinv Hi Hr (_ & _ & _ & _ & Hu). symmetry. apply (Hu i c Hi). by apply registers_holds.
Qed.

Ltac keep_fields := simpl; try done; try lia.

Lemma reg_insert_inv s i a r :
  rinv s -> calls s !! i = Some (RegInsert a r) ->
  rinv (set_calls (<[i:=RegKernel a r]> (calls s)) (set_mapped ({[a]} ∪ mapped s) s)).
Proof.
  intros Hinv Hi.
  apply (call_inv s i _ Hinv Hi (RegKernel a r)); keep_fields.
  - apply (r_run s Hinv (RegInsert a r)). by eapply list_elem_of_lookup_2.
  - intros b g Hat Hb. destruct (kernel_moved s i _ Hinv Hi (RegKernel a r) b g) as [? [|]]; try done;
      (split; [done|]); [left; set_solver|by right].
  - intros b Hb _. destruct (batch_moved s i _ Hinv Hi (RegKernel a r) b) as [|H]; try done;
      [left; set_solver|by right].
  - by intros j b (? & ? & ? & _) _.
  - intros b [Heq|Hb]%moved_inv Hat; [set_solver|]. apply (r_mapped s Hinv) in Hb; [set_solver|done].
  - destruct (r_flag s Hinv) as [|[|[|]]]; auto. do 3 right. by eapply flag_moved.
Qed.

Lemma reg_undo_inv s i a :
  rinv s -> calls s !! i = Some (RegUndo a) ->
  rinv (set_calls (<[i:=Returned_]> (calls s)) (set_mapped (mapped s ∖ {[a]}) s)).
Proof.
  intros Hinv Hi. destruct (r_private s Hinv i _ a Hi eq_refl) as (_ & _ & Hk & Hb & Hu).
  apply (call_inv s i _ Hinv Hi Returned_); keep_fields.
  - intros b g Hat Hg. assert (b <> a) by (intros ->; by apply (Hk g)).
    destruct (kernel_moved s i _ Hinv Hi Returned_ b g) as [? [|]]; try done;
      (split; [done|]); [left; set_solver|by right].
  - intros b H [g Hg]. assert (b <> a) by (intros ->; by apply (Hb g)).
    destruct (batch_moved s i _ Hinv Hi Returned_ b) as [|?]; try done; [left; set_solver|by right].
  - by intros j b (? & ? & ? & _) _.
  - intros b [?|Hm]%moved_inv Hat; [done|]. assert (b <> a).
    { intros ->. apply list_elem_of_lookup_1 in Hm as [j Hj].
      assert (j = i) as -> by (by apply (Hu j _ Hj)). congruence. }
    apply (r_mapped s Hinv) in Hm; [set_solver|done].
  - destruct (r_flag s Hinv) as [|[|[|]]]; auto. do 3 right. by eapply flag_moved.
Qed.

Lemma reg_kernel_inv s i a r :
  rinv s -> calls s !! i = Some (RegKernel a r) ->
  rinv (set_calls (<[i:=Returned_]> (calls s))
          (set_owners (bump (owners s) a S)
             (if r =? run s then set_kernel ({[(a, gen s a)]} ∪ kernel s) s else s))).
Proof.
  intros Hinv Hi. pose proof (r_flag s Hinv) as Hflag.
  assert (at_ s <> Stopped -> r = run s -> a ∈ mapped s) as Hm.
  { intros Hat ->. apply (r_mapped s Hinv); [|done]. by eapply list_elem_of_lookup_2. }
  assert (forall j b, private s j b -> (j = i -> registers Returned_ = Some b) -> b <> a) as Hne.
  { intros j b Hp Hji ->. pose proof (registers_alone s i _ j a Hinv Hi eq_refl Hp) as Hj.
    by apply Hji in Hj. }
  assert (pending s = [] \/ needs_release s = true \/ at_ s = Clearing \/
    exists b, DeregFlag b ∈ <[i:=Returned_]> (calls s)) as Hf
    by (destruct Hflag as [|[|[|]]]; auto; do 3 right; by eapply flag_moved).
  assert (forall b, RegKernel b (run s) ∈ <[i:=Returned_]> (calls s) -> at_ s <> Stopped ->
    b ∈ mapped s) as Hmv by (intros b; by eapply mapped_moved).
  destruct (Nat.eqb_spec r (run s)) as [Hr|Hr];
    apply (call_inv s i _ Hinv Hi Returned_); keep_fields.
  - intros b g Hat [[= -> ->]%elem_of_singleton|Hb]%elem_of_union.
    + split; [done|left; by apply Hm].
    + by eapply kernel_moved.
  - intros b Hb _. by eapply batch_moved.
  - intros j b Hp Hji. pose proof (Hne j b Hp Hji) as Hba. destruct Hp as (? & ? & Hk & _).
    rewrite bump_ne by done. split_and!; [done..|].
    intros g [[= -> _]%elem_of_singleton|Hg]%elem_of_union; [done|by eapply Hk].
  - intros b g Hat Hb. by eapply kernel_moved.
  - intros b Hb _. by eapply batch_moved.
  - intros j b Hp Hji. pose proof (Hne j b Hp Hji) as Hba. destruct Hp as (? & ? & Hk & _).
    by rewrite bump_ne.
Qed.

(** Accesses that change no reference. *)
Lemma idle_call_inv s i c c' :
  rinv s -> calls s !! i = Some c ->
  (forall b, c <> DeregKernel b) -> (forall b, c <> DeregPark b) -> (forall b, c <> DeregFlag b) ->
  (forall a, holds c' = Some a -> holds c = Some a) ->
  (forall a, registers c' = Some a -> registers c = Some a) -> run_of c' = 0 ->
  (forall b r, c' <> RegKernel b r) -> rinv (set_calls (<[i:=c']> (calls s)) s).
Proof.
  intros Hinv Hi Hk Hp Hf Hh Hr Hro Hrk. apply (call_inv s i _ Hinv Hi c'); keep_fields.
  - intros b g. by eapply kernel_moved.
  - intros b Hb _. by eapply batch_moved.
  - by intros j b (? & ? & ? & _) _.
  - intros b. by eapply mapped_moved.
  - destruct (r_flag s Hinv) as [|[|[|]]]; auto. do 3 right. by eapply flag_moved.
Qed.

Lemma dereg_remove_inv s i a :
  rinv s -> calls s !! i = Some (DeregRemove a) ->
  rinv (set_calls (<[i:=DeregKernel a]> (calls s)) (set_mapped (mapped s ∖ {[a]}) s)).
Proof.
  intros Hinv Hi. assert (DeregKernel a ∈ <[i:=DeregKernel a]> (calls s)) as Hself
    by (by eapply moved_self).
  apply (call_inv s i _ Hinv Hi (DeregKernel a)); keep_fields.
  - intros b g Hat Hg. destruct (kernel_moved s i _ Hinv Hi (DeregKernel a) b g) as [? [|]]; try done;
      (split; [done|]); [|by right].
    destruct (decide (b = a)) as [->|]; [by right|left; set_solver].
  - intros b H _. destruct (batch_moved s i _ Hinv Hi (DeregKernel a) b) as [|?]; try done; [|by right].
    destruct (decide (b = a)) as [->|]; [right; by left|left; set_solver].
  - by intros j b (? & ? & ? & _) _.
  - intros b [?|Hm]%moved_inv Hat; [done|]. assert (b <> a).
    { intros ->. apply list_elem_of_lookup_1 in Hm as [j Hj].
      destruct (r_private s Hinv j _ a Hj eq_refl) as (_ & _ & _ & _ & Hu).
      assert (i = j) as -> by (by apply (Hu i _ Hi)). congruence. }
    apply (r_mapped s Hinv) in Hm; [set_solver|done].
  - destruct (r_flag s Hinv) as [|[|[|]]]; auto. do 3 right. by eapply flag_moved.
Qed.

Lemma dereg_kernel_inv s i a :
  rinv s -> calls s !! i = Some (DeregKernel a) ->
  rinv (set_calls (<[i:=DeregPark a]> (calls s)) (set_kernel (filter (fun p => p.1 <> a) (kernel s)) s)).
Proof.
  intros Hinv Hi. assert (DeregPark a ∈ <[i:=DeregPark a]> (calls s)) as Hself by (by eapply moved_self).
  apply (call_inv s i _ Hinv Hi (DeregPark a)); keep_fields.
  - intros b g Hat [Hne Hg]%elem_of_filter. simpl in Hne.
    destruct (r_kernel s Hinv b g Hat Hg) as [? [|Hb]]; (split; [done|]); [by left|right].
    eapply moved_keeps; [done..|]. congruence.
  - intros b [|[Hb|[Hb|]]] _; [auto| | |auto].
    + destruct (decide (b = a)) as [->|]; [auto|]. right. left. eapply moved_keeps; [done..|]. congruence.
    + do 2 right. left. by eapply moved_keeps.
  - intros j b (? & ? & Hk & _) _. split_and!; [done..|]. intros g [_ Hg]%elem_of_filter. by eapply Hk.
  - intros b. by eapply mapped_moved.
  - destruct (r_flag s Hinv) as [|[|[|]]]; auto. do 3 right. by eapply flag_moved.
Qed.

Lemma dereg_park_inv s i a :
  rinv s -> calls s !! i = Some (DeregPark a) ->
  rinv (set_calls (<[i:=DeregFlag a]> (calls s)) (set_pending (pending s ++ [a]) s)).
Proof.
  intros Hinv Hi. apply (call_inv s i _ Hinv Hi (DeregFlag a)); keep_fields.
  - intros b g. by eapply kernel_moved.
  - intros b Hb _. rewrite elem_of_snoc. destruct (decide (b = a)) as [->|Hne]; [auto|].
    destruct Hb as [|[Hb|[Hb|]]]; [auto| | |auto].
    + right. left. by eapply moved_keeps.
    + do 2 right. left. eapply moved_keeps; [done..|]. congruence.
  - intros j b (? & Hp & Hk & _ & Hu) Hji. split_and!; try done.
    rewrite elem_of_snoc. intros [| ->]; [done|]. assert (i = j) by (by apply (Hu i _ Hi)). naive_solver.
  - intros b. by eapply mapped_moved.
  - do 3 right. exists a. by eapply moved_self.
Qed.

Lemma dereg_flag_inv s i a :
  rinv s -> calls s !! i = Some (DeregFlag a) ->
  rinv (set_calls (<[i:=Returned_]> (calls s)) (set_needs true s)).
Proof.
  intros Hinv Hi. apply (call_inv s i _ Hinv Hi Returned_); keep_fields.
  - intros b g. by eapply kernel_moved.
  - intros b Hb _. by eapply batch_moved.
  - by intros j b (? & ? & ? & _) _.
  - intros b. by eapply mapped_moved.
Qed.

Lemma step_call_inv s i c ok s' c' :
  rinv s -> calls s !! i = Some c -> c <> Returned_ -> step_call ok c s = (s', c') ->
  rinv (set_calls (<[i:=c']> (calls s')) s').
Proof.
  intros Hinv Hi Hc Hstep. destruct c as [a r|a r|a|a|a|a|a|]; simpl in Hstep; simplify_eq/=.
  - by apply reg_insert_inv.
  - destruct ok; simplify_eq/=.
    + pose proof (reg_kernel_inv s i a r Hinv Hi) as H. by destruct (r =? run s).
    + by eapply idle_call_inv.
  - by apply reg_undo_inv.
  - case_bool_decide; simplify_eq/=; [by apply dereg_remove_inv|by eapply idle_call_inv].
  - by apply dereg_kernel_inv.
  - by apply dereg_park_inv.
  - by eapply dereg_flag_inv.
Qed.

(** ** The poller and the owners *)

Lemma drop_inv s a : rinv s -> 0 < owners s a -> rinv (set_owners (bump (owners s) a pred) s).
Proof.
  intros Hinv Ho. destruct Hinv as [H1 H2 H3 H4 H5 H6]. split; simpl; try done.
  intros i c b Hi Hr. destruct (H3 i c b Hi Hr) as (Hz & ? & ? & ? & ?). split_and!; try done.
  simpl. destruct (decide (b = a)) as [->|]; [lia|by rewrite bump_ne].
Qed.

(** The poller moves without touching the references, and has no batch afterwards, or a part of the
    one it had, or what the kernel reports. *)
Lemma poller_moved s s' :
  rinv s -> gen s' = gen s -> owners s' = owners s -> mapped s' = mapped s -> kernel s' = kernel s ->
  run s' = run s -> calls s' = calls s -> at_ s <> Stopped ->
  (forall p, p ∈ batch_of s' -> (p ∈ batch_of s /\ pending s' = pending s) \/ p ∈ kernel s) ->
  (pending s' = pending s \/ pending s' = []) ->
  (pending s' = [] \/ needs_release s' = true \/ at_ s' = Clearing \/ exists a, DeregFlag a ∈ calls s') ->
  rinv s'.
Proof.
  intros [H1 H2 H3 H4 H5 H6] Hg Ho Hm Hk Hr Hc Hat Hb Hp Hf. split; rewrite ?Hr, ?Hc in *; try done.
  - intros a g _. rewrite Hk, Hg, Hm. by apply H1.
  - intros a g [[Hin Hpe]|Hin]%Hb; rewrite Hg, Hm.
    + rewrite Hpe. by apply H2.
    + destruct (H1 a g Hat Hin) as [? [|]]; auto.
  - intros i c a Hi Hreg. destruct (H3 i c a Hi Hreg) as (? & Hnp & Hnk & Hnb & ?).
    unfold private. rewrite Ho, Hk, Hc. split_and!; try done.
    + destruct Hp as [-> | ->]; [done|apply not_elem_of_nil].
    + intros g [[Hin _]|Hin]%Hb; [by eapply Hnb|by eapply Hnk].
  - intros a Ha _. rewrite Hm. by apply H4.
Qed.

Lemma step_poller_inv s batch :
  rinv s -> (forall p, p ∈ batch -> p ∈ kernel s) -> rinv (step_poller batch s).
Proof.
  intros Hinv Hb. pose proof (r_flag s Hinv) as Hf. unfold step_poller.
  destruct (at_ s) as [| | |[|p l]|] eqn:Hat; [..|done]; [destruct (needs_release s) eqn:Hn|..];
    (eapply (poller_moved s); [done..|congruence| | |]); unfold batch_of; rewrite ?Hat; simpl;
    try (by left); try (by intros ? ?%not_elem_of_nil); auto.
  - destruct Hf as [|[|[|]]]; auto; congruence.
  - destruct Hf as [|[|[|]]]; auto; congruence.
  - destruct Hf as [|[|[|]]]; auto; congruence.
  - intros q Hq. left. split; [by right|done].
  - destruct Hf as [|[|[|]]]; auto; congruence.
Qed.

Lemma stop_inv s : rinv s -> at_ s = Top -> rinv (cleanup_io s).
Proof.
  intros [H1 H2 H3 H4 H5 H6] Hat. split; simpl; try done.
  - intros a g Hg. by apply not_elem_of_nil in Hg.
  - intros i c a Hi Hr. destruct (H3 i c a Hi Hr) as (? & ? & Hk & ? & ?). split_and!; try done; simpl.
    + apply not_elem_of_nil.
    + intros g [_ Hg]%elem_of_filter. by eapply Hk.
    + intros g. apply not_elem_of_nil.
  - by left.
Qed.

Lemma run_inv s :
  rinv s -> at_ s = Stopped ->
  rinv (mkState (gen s) (owners s) (mapped s) ∅ (pending s) (needs_release s) (S (run s)) (calls s) Top).
Proof.
  intros [H1 H2 H3 H4 H5 H6] Hat. split; simpl; try done.
  - intros a g Hg. by apply not_elem_of_nil in Hg.
  - intros i c a Hi Hr. destruct (H3 i c a Hi Hr) as (? & ? & ? & ? & ?). split_and!; try done; simpl.
    intros g. apply not_elem_of_nil.
  - intros a Ha%H5. simpl in Ha. lia.
  - intros c Hc%H5. lia.
  - destruct H6 as [|[|[|]]]; auto. congruence.
Qed.

Lemma rstep_inv s s' : rinv s -> rstep s s' -> rinv s'.
Proof.
  intros Hinv [a Hat Hd|a Ho|i c ok s1 c' Hi Hc Hstep|a Ho|batch Hb|Hat|Hat].
  - by apply start_inv.
  - by apply close_inv.
  - by eapply step_call_inv.
  - by apply drop_inv.
  - by apply step_poller_inv.
  - by apply stop_inv.
  - by apply run_inv.
Qed.

Lemma registry_inv s : rtc rstep registry0 s -> rinv s.
Proof.
  apply (rtc_ind_r rinv).
  - split; simpl; try done; [..|by left]; intros; try done; set_solver.
  - intros s1 s2 _ Hs Hi. by eapply rstep_inv.
Qed.

(** [C8] The poller never follows a dangling pointer: whatever sockets are opened, closed and
    dropped by other threads meanwhile, and however often the loop is stopped and run again, when
    the poller turns the token of an event into a reference the entry is still alive, and it is the
    entry the event is for, not a later one at the same address.  And the references that
    deregistering parks are not kept for ever: once the calls under way have ended, the flag that
    makes the poller drop them is set while there are any. *)
Theorem tokens_never_dangle s :
  rtc rstep registry0 s ->
  (forall a g l, at_ s = Dispatching ((a, g) :: l) -> alive s a /\ gen s a = g) /\
  ((forall c, c ∈ calls s -> c = Returned_) -> at_ s <> Clearing ->
   pending s = [] \/ needs_release s = true).
Proof.
  intros Hinv%registry_inv. split.
  - intros a g l Hat. assert ((a, g) ∈ batch_of s) as Hb by (unfold batch_of; rewrite Hat; by left).
    split; [by eapply batch_alive|by apply (r_batch s Hinv)].
  - intros Hdone Hcl. destruct (r_flag s Hinv) as [|[|[|[a Ha]]]]; [auto..| |]; [done|].
    by apply Hdone in Ha.
Qed.

(** ** An execution *)

Definition do_start (a : nat) (s : state) : state :=
  mkState (bump (gen s) a S) (owners s) (mapped s) (kernel s) (pending s) (needs_release s)
    (run s) (calls s ++ [RegInsert a (run s)]) (at_ s).
Definition do_call (i : nat) (s : state) : state :=
  match calls s !! i with
  | Some c => let (s', c') := step_call true c s in set_calls (<[i:=c']> (calls s')) s'
  | None => s
  end.
Definition do_close (a : nat) (s : state) : state := set_calls (calls s ++ [DeregRemove a]) s.
Definition do_drop (a : nat) (s : state) : state := set_owners (bump (owners s) a pred) s.

Lemma do_call_step i s :
  match calls s !! i with Some Returned_ | None => False | _ => True end ->
  rtc rstep registry0 s -> rtc rstep registry0 (do_call i s).
Proof.
  intros Hi Hs. unfold do_call. destruct (calls s !! i) as [c|] eqn:Hc; [|done].
  destruct (step_call true c s) as [s' c'] eqn:Hstep. eapply rtc_r; [exact Hs|].
  eapply RCall; [exact Hc| |exact Hstep]. by intros ->.
Qed.

(** A descriptor is registered, reported by the poller, closed and dropped before the poller gets
    to its event. *)
Definition registered : state := do_call 0 (do_call 0 (do_start 7 registry0)).
Definition reported : state := step_poller [(7, 1)] (step_poller [] registered).
Definition closed_in_batch : state :=
  do_drop 7 (do_call 1 (do_call 1 (do_call 1 (do_call 1 (do_close 7 reported))))).

Lemma registered_reachable : rtc rstep registry0 registered.
Proof.
  unfold registered. do 2 (apply do_call_step; [exact I|]). apply rtc_once. apply RStart; [done|].
  unfold alive. simpl. intros [?|[?|[?|(c & Hc & _)]]]; try lia; set_solver.
Qed.

Lemma reported_reachable : rtc rstep registry0 reported.
Proof.
  unfold reported. eapply rtc_r; [eapply rtc_r; [apply registered_reachable|]|].
  - apply RPoll. intros p ?%not_elem_of_nil. done.
  - apply RPoll. intros p ->%list_elem_of_singleton. by vm_compute.
Qed.

Lemma closed_in_batch_reachable : rtc rstep registry0 closed_in_batch.
Proof.
  unfold closed_in_batch. eapply rtc_r; [|apply RDrop; vm_compute; lia].
  do 4 (apply do_call_step; [by vm_compute|]). eapply rtc_r; [apply reported_reachable|].
  apply RClose. vm_compute. lia.
Qed.

Lemma tokens_never_dangle_witness :
  at_ closed_in_batch = Dispatching [(7, 1)] /\ owners closed_in_batch 7 = 0 /\ alive closed_in_batch 7.
Proof.
  split; [reflexivity|]. split; [reflexivity|].
  exact (proj1 (proj1 (tokens_never_dangle closed_in_batch closed_in_batch_reachable) 7 1 [] eq_refl)).
Defined.
