(* ===== verification/MainLoop.v ===== *)
(** * The loop of the runtime

    [Runtime::_run], [poll], [teardown], [wake], the setter of [_stopping] and the reading of signals
    of [src/src/runtime.rs], with the timers of [Timers] and the worker threads of [Workers] as
    parts of one state.  The thread that runs the loop, the workers, the threads that add timers or
    set [_stopping] and those that hand over a handle each move at every access of what they share.

    The kernel, the clock and the application are the inputs: what [Poll::poll] reports is chosen by
    an input, but a sleeping poll also returns by itself when its waker was used, when signals can be
    read or when its time is over.  As in [WorkersProps], the threads hand over their
    handles one at a time, as the interpreter's global lock makes them.  [io_registrations] are in
    [Registry]; what [ScheduledIO::wake] gives for an event is part of the input. *)

From stdpp Require Import base numbers list gmap relations.
From Stdlib Require Import ZArith Lia.
From S2P Require Import Prelude Signals Timers Workers.

Open Scope Z_scope.

(** ** Reading the self-socket *)

(** What [socket.read] answers: bytes, an interruption, or something else (no more bytes, an error). *)
Inductive read_answer := RBytes (l : list Z) | RInterrupted | RNothing.

(** [read_from_sock]: what ends up in the buffer, for the answers of the calls it makes. *)
Fixpoint read_from_sock (answers : list read_answer) : list Z :=
  match answers with
  | RBytes [] :: _ | RNothing :: _ | [] => []
  | RBytes l :: answers => l ++ read_from_sock answers
  | RInterrupted :: answers => read_from_sock answers
  end.

(** The answers of the kernel for a socket with the bytes [sock] and a buffer with [room] left: a
    read gives some of the bytes, as many as fit at most, and ends with an empty buffer slice or an
    empty socket. *)
Inductive kernel_reads : nat -> list Z -> list read_answer -> Prop :=
| KBytes room got rest answers :
    got <> [] -> (length got <= room)%nat -> kernel_reads (room - length got) rest answers ->
    kernel_reads room (got ++ rest) (RBytes got :: answers)
| KInterrupted room sock answers :
    kernel_reads room sock answers -> kernel_reads room sock (RInterrupted :: answers)
| KFull sock : kernel_reads 0 sock [RBytes []]
| KEmpty room : kernel_reads room [] [RNothing].

(** [state.buf]. *)
Definition buf_len : nat := 4096.

(** ** The state *)

(** An event of a poll: the waker's token, the signals' token, or a descriptor with what waking its
    entry gives. *)
Inductive event := EvWaker | EvSignals | EvIo (reader writer : option handle).

(** The result of [poll]. *)
Inductive answer := Polled | Interrupted | PollError (e : exn).

(** What the threads hand to the workers: a timer, the event of a signal, a reader or writer, or
    anything another thread spawns. *)
Inductive push := PTimer (t : Timer) | PSignal (event : nat) | PReady (h : handle)
  | PThread (k : kind) (h : handle).

(** What [poll] does after handing over: the rest of the batch, or its end. *)
Inductive after := ABatch (l : list event) (r : answer) | AEnd (r : answer).

(** Where [_run] stands. *)
Inductive mainpc :=
| MSetup                                      (* [Poll::new()], .., [init_sig_socket] *)
| MRegistry                                   (* [io_registry.swap(Some(..))] *)
| MWaker                                      (* [waker.swap(Some(..))] *)
| MSpawn                                      (* [work_schedule.swap(Some(..))] and the threads *)
| MCheck                                      (* [stopping.load()] *)
| MPoll                                       (* in [poll], as far as the system call *)
| MHand (q : list push) (k : after)           (* handing over [q], then going on with [k] *)
| MHanding (e : nat) (q : list push) (k : after) (* in the middle of one of them *)
| MTimers (r : answer)                        (* the timers that are due *)
| MSwap                                       (* [sig_loop_handled.swap(false)] *)
| MTeardown (res : result unit)               (* [drop_sig_socket], [cleanup_io] *)
| MStopThreads (res : result unit)
| MJoin (res : result unit)                   (* waiting for the workers to leave *)
| MWakerOff (res : result unit)               (* [waker.swap(None)] *)
| MRegistryOff (res : result unit)            (* [io_registry.swap(None)] *)
| MReturned (res : result unit).

(** A thread in the setter of [_stopping]. *)
Inductive setter := Stores (b : bool) | Wakes.

(** Why a loop may end. *)
Inductive cause := CStop | CInterrupted | CError (e : exn).

(** [edge]: the poller has not yet reported that signals can be read.  [handed] and [log] are kept
    for the statements. *)
Record rt := mkRt {
  tm : Timers.state; ws : sched; scheduled : bool; io_registry : bool; waker : bool;
  stopping : bool; listening : bool; handlers : sig_handlers; sock : list Z; edge : bool;
  sig_loop_handled : bool; main : mainpc; setters : list setter;
  handed : list push; log : list cause }.

Definition with_tm x s := mkRt x (ws s) (scheduled s) (io_registry s) (waker s) (stopping s)
  (listening s) (handlers s) (sock s) (edge s) (sig_loop_handled s) (main s) (setters s) (handed s) (log s).
Definition with_ws x s := mkRt (tm s) x (scheduled s) (io_registry s) (waker s) (stopping s)
  (listening s) (handlers s) (sock s) (edge s) (sig_loop_handled s) (main s) (setters s) (handed s) (log s).
Definition with_scheduled x s := mkRt (tm s) (ws s) x (io_registry s) (waker s) (stopping s)
  (listening s) (handlers s) (sock s) (edge s) (sig_loop_handled s) (main s) (setters s) (handed s) (log s).
Definition with_registry x s := mkRt (tm s) (ws s) (scheduled s) x (waker s) (stopping s)
  (listening s) (handlers s) (sock s) (edge s) (sig_loop_handled s) (main s) (setters s) (handed s) (log s).
Definition with_waker x s := mkRt (tm s) (ws s) (scheduled s) (io_registry s) x (stopping s)
  (listening s) (handlers s) (sock s) (edge s) (sig_loop_handled s) (main s) (setters s) (handed s) (log s).
Definition with_stopping x s := mkRt (tm s) (ws s) (scheduled s) (io_registry s) (waker s) x
  (listening s) (handlers s) (sock s) (edge s) (sig_loop_handled s) (main s) (setters s) (handed s) (log s).
Definition with_signals l h s := mkRt (tm s) (ws s) (scheduled s) (io_registry s) (waker s) (stopping s)
  l h (sock s) (edge s) (sig_loop_handled s) (main s) (setters s) (handed s) (log s).
Definition with_sock x b s := mkRt (tm s) (ws s) (scheduled s) (io_registry s) (waker s) (stopping s)
  (listening s) (handlers s) x b (sig_loop_handled s) (main s) (setters s) (handed s) (log s).
Definition with_handled x s := mkRt (tm s) (ws s) (scheduled s) (io_registry s) (waker s) (stopping s)
  (listening s) (handlers s) (sock s) (edge s) x (main s) (setters s) (handed s) (log s).
Definition goto x s := mkRt (tm s) (ws s) (scheduled s) (io_registry s) (waker s) (stopping s)
  (listening s) (handlers s) (sock s) (edge s) (sig_loop_handled s) x (setters s) (handed s) (log s).
Definition with_setters x s := mkRt (tm s) (ws s) (scheduled s) (io_registry s) (waker s) (stopping s)
  (listening s) (handlers s) (sock s) (edge s) (sig_loop_handled s) (main s) x (handed s) (log s).
Definition with_handed x s := mkRt (tm s) (ws s) (scheduled s) (io_registry s) (waker s) (stopping s)
  (listening s) (handlers s) (sock s) (edge s) (sig_loop_handled s) (main s) (setters s) x (log s).
Definition with_log x s := mkRt (tm s) (ws s) (scheduled s) (io_registry s) (waker s) (stopping s)
  (listening s) (handlers s) (sock s) (edge s) (sig_loop_handled s) (main s) (setters s) (handed s) x.

Definition with_poked b (t : Timers.state) : Timers.state :=
  mkState (clock t) (heap t) b (adders t) (at_ t) (added t) (fired t).
Definition with_at p (t : Timers.state) : Timers.state :=
  mkState (clock t) (heap t) (poked t) (adders t) p (added t) (fired t).
Definition with_adders l (t : Timers.state) : Timers.state :=
  mkState (clock t) (heap t) (poked t) l (at_ t) (added t) (fired t).
Definition with_clock now (t : Timers.state) : Timers.state :=
  mkState now (heap t) (poked t) (adders t) (at_ t) (added t) (fired t).

(** [Runtime::new], before anything has been spawned. *)
Definition rt_new (now : Z) : rt :=
  mkRt (timers0 now) (mkSched [] [] 0 0 false SNot [] [] []) false false false false false ∅ [] false
    false MSetup [] [] [].

Section Loop.

(** The number of workers, what running a timer and setting the event of a signal hand over. *)
Variable threads_cb : nat.
Variable resume : Timer -> handle.
Variable notify : nat -> handle.

(** The way a handle is handed over, and the handle. *)
Definition push_of (p : push) : kind * handle :=
  match p with
  | PTimer t => (KDefer, resume t)
  | PSignal e => (KIo, notify e)
  | PReady h => (KIo, h)
  | PThread k h => (k, h)
  end.

(** [Runtime::wake]. *)
Definition rt_wake (s : rt) : rt :=
  if waker s then with_tm (with_poked true (tm s)) s else s.

(** The schedule [_run] makes: new workers, over the injector there is. *)
Definition sched_start (q : list handle) : sched := with_injector q (sched_new threads_cb []).

(** ** The loop's thread *)

Definition mentions (e : event) (l : list event) : bool :=
  existsb (fun x => match x, e with EvWaker, EvWaker | EvSignals, EvSignals => true | _, _ => false end) l.

(** [Poll::poll] returns with a batch of events; reporting the waker or the signals takes note of
    what they stand for. *)
Definition returned (batch : list event) (r : answer) (s : rt) : rt :=
  goto (MHand [] (ABatch batch r))
    (with_sock (sock s) (edge s && negb (mentions EvSignals batch))
       (with_tm (with_at Handles (with_poked (poked (tm s) && negb (mentions EvWaker batch)) (tm s))) s)).

(** What a sleeping poll has to report. *)
Definition ready (s : rt) : list event :=
  (if poked (tm s) then [EvWaker] else []) ++ (if edge s then [EvSignals] else []).

(** The body of the loop over the events. *)
Definition handle_event (ev : event) (k : after) (s : rt) : rt :=
  match ev with
  | EvWaker => goto (MHand [] k) s
  | EvSignals =>
      let read := take buf_len (sock s) in
      let events := handle_io_signals (listening s) (handlers s) read in
      goto (MHand (PSignal <$> events) k)
        (with_handled (sig_loop_handled s || negb (bool_decide (events = [])))
           (with_sock (drop buf_len (sock s)) (edge s) s))
  | EvIo reader writer => goto (MHand (PReady <$> option_list reader ++ option_list writer) k) s
  end.

(** [push] of [add_handle], [add_io_handle] and [defer_handle]: the rest of the call is the
    thread's, in [externs]. *)
Definition hand (p : push) (s : rt) : rt :=
  with_handed (handed s ++ [p])
    (with_ws (with_externs (externs (ws s) ++ [EPush (push_of p).1 (push_of p).2]) (ws s)) s).

Definition exited (w : worker) : bool := match pc w with Exited => true | _ => false end.

(** The next access of [_run]; [None] when it waits or has returned. *)
Definition run_step (s : rt) : option rt :=
  match main s with
  | MSetup =>
      Some (goto MRegistry (with_sock (sock s) (negb (bool_decide (sock s = [])))
                              (with_tm (with_poked false (tm s)) s)))
  | MRegistry => Some (goto MWaker (with_registry true s))
  | MWaker => Some (goto MSpawn (with_waker true s))
  | MSpawn => Some (goto MCheck (with_scheduled true (with_ws (sched_start (injector (ws s))) s)))
  | MCheck => Some (goto (if stopping s then MTeardown (Ok tt) else MPoll) s)
  | MPoll =>
      match at_ (tm s) with
      | Sleeps _ d =>
          if poked (tm s) || edge s || over (clock (tm s)) d
          then Some (returned (ready s) Polled s) else None
      | Looks | Chose _ _ => (fun t => with_tm t s) <$> poller_step (tm s)
      | Handles => None
      end
  | MHand [] (ABatch [] r) => Some (goto (MTimers r) s)
  | MHand [] (ABatch (ev :: l) r) => Some (handle_event ev (ABatch l r) s)
  | MHand [] (AEnd Polled) => Some (goto MCheck s)
  | MHand [] (AEnd Interrupted) => Some (goto MSwap s)
  | MHand [] (AEnd (PollError e)) => Some (goto (MTeardown (Err e)) s)
  | MHand (p :: q) k =>
      if existsb eactive (externs (ws s)) then None
      else Some (goto (MHanding (length (externs (ws s))) q k) (hand p s))
  | MHanding e q k =>
      match externs (ws s) !! e with Some EReturn => Some (goto (MHand q k) s) | _ => None end
  | MTimers r =>
      let due := (handle_timers (clock (tm s)) (heap (tm s))).1 in
      (fun t => goto (MHand (PTimer <$> due) (AEnd r)) (with_tm t s)) <$> poller_step (tm s)
  | MSwap =>
      Some (if sig_loop_handled s then goto MCheck (with_handled false s)
            else goto (MTeardown (Ok tt)) (with_log (log s ++ [CInterrupted]) s))
  | MTeardown res => Some (goto (MStopThreads res) (with_sock (sock s) false s))
  | MStopThreads res =>
      match stop_threads (ws s) with
      | Some w => Some (with_ws w s)
      | None => Some (goto (MJoin res) s)
      end
  | MJoin res =>
      if forallb exited (workers (ws s)) && negb (existsb eactive (externs (ws s)))
      then Some (goto (MWakerOff res) (with_scheduled false s)) else None
  | MWakerOff res => Some (goto (MRegistryOff res) (with_waker false s))
  | MRegistryOff res => Some (goto (MReturned res) (with_registry false s))
  | MReturned _ => None
  end.

(** ** The other threads *)

(** [add_timer], with the waker there is. *)
Definition timer_step (i : nat) (s : rt) : option rt :=
  match adders (tm s) !! i with
  | Some (Pushes _) => (fun t => with_tm t s) <$> adder_step i (tm s)
  | Some Pokes => Some (rt_wake (with_tm (with_adders (delete i (adders (tm s))) (tm s)) s))
  | None => None
  end.

(** The setter of [_stopping]: [self.stopping.store(val)], then [self.wake()]. *)
Definition set_stopping_step (i : nat) (s : rt) : option rt :=
  match setters s !! i with
  | Some (Stores b) =>
      Some (with_setters (<[i:=Wakes]> (setters s)) (with_stopping b
              (if b then with_log (log s ++ [CStop]) s else s)))
  | Some Wakes => Some (rt_wake (with_setters (delete i (setters s)) s))
  | None => None
  end.

Inductive move := MvMain | MvWorker (i : nat) | MvExtern (e : nat) | MvTimer (i : nat) | MvSet (i : nat).

Definition do_move (m : move) (s : rt) : option rt :=
  match m with
  | MvMain => run_step s
  | MvWorker i => (fun w => with_ws w s) <$> work_loop i (ws s)
  | MvExtern e => (fun w => with_ws w s) <$> hand_over e (ws s)
  | MvTimer i => timer_step i s
  | MvSet i => set_stopping_step i s
  end.

(** ** Inputs *)

Inductive input :=
| IClock (now : Z)                                   (* time passes *)
| IAdd (timeout : Z)                                 (* a thread starts [add_timer] *)
| ISet (b : bool)                                    (* a thread sets [_stopping] *)
| IHand (k : kind) (h : handle)                      (* a thread that is not a worker hands over *)
| ISignals (listening : bool) (handlers : sig_handlers)
| IArrive (sig : Z)                                  (* the C handler writes to the self-socket *)
| IReady (batch : list event)                        (* the poll returns *)
| IInterrupt (batch : list event)                    (* it is interrupted, and polls again at once *)
| IFail (e : exn)                                    (* it fails *)
| ISetupFail (e : exn).                              (* setting up the loop fails *)

(** What a batch may report. *)
Definition reports (s : rt) (batch : list event) : bool :=
  implb (mentions EvWaker batch) (poked (tm s)) && implb (mentions EvSignals batch) (edge s).

Definition sleeping (s : rt) : bool :=
  match main s, at_ (tm s) with MPoll, Sleeps _ _ => true | _, _ => false end.

(** A timeout is a 64-bit number; the self-socket holds fewer bytes than the buffer, beyond which
    the C handler's write fails. *)
Definition do_input (i : input) (s : rt) : option rt :=
  match i with
  | IClock now => if clock (tm s) <=? now then Some (with_tm (with_clock now (tm s)) s) else None
  | IAdd timeout =>
      if (0 <=? timeout) && (timeout <? 2 ^ 64) then Some (with_tm (add_timer timeout (tm s)) s) else None
  | ISet b => Some (with_setters (setters s ++ [Stores b]) s)
  | IHand k h =>
      if scheduled s
      then if existsb eactive (externs (ws s)) then None else Some (hand (PThread k h) s)
      else Some (with_handed (handed s ++ [PThread k h])
                   (with_ws (with_injector (injector (ws s) ++ [h]) (ws s)) s))
  | ISignals l h => Some (with_signals l h s)
  | IArrive sig =>
      if (length (sock s) <? buf_len)%nat then Some (with_sock (sock s ++ [sig]) true s) else None
  | IReady batch => if sleeping s && reports s batch then Some (returned batch Polled s) else None
  | IInterrupt batch =>
      if sleeping s && reports s batch then Some (returned batch Interrupted s) else None
  | IFail e =>
      if sleeping s then Some (returned [] (PollError e) (with_log (log s ++ [CError e]) s)) else None
  | ISetupFail e =>
      match main s with
      | MSetup => Some (goto (MReturned (Err e)) (with_log (log s ++ [CError e]) s))
      | _ => None
      end
  end.

(** ** Executions *)

Definition internal (s s' : rt) : Prop := exists m, do_move m s = Some s'.
Definition rt_step (s s' : rt) : Prop := internal s s' \/ exists i, do_input i s = Some s'.

(** Nothing moves without an input. *)
Definition idle (s : rt) : Prop := forall m, do_move m s = None.

(** A run by a script of moves and inputs. *)
Fixpoint play (l : list (move + input)) (s : rt) : option rt :=
  match l with
  | [] => Some s
  | inl m :: l => match do_move m s with Some s' => play l s' | None => None end
  | inr i :: l => match do_input i s with Some s' => play l s' | None => None end
  end.

End Loop.
