(* ===== verification/MainLoopProps.v ===== *)
(** * Theorems about the loop of the runtime

    The loop of [MainLoop] with its timers, workers and signals: it comes to rest, and at rest
    nothing that was handed to it has been forgotten. *)

From stdpp Require Import base numbers list gmap relations.
From Stdlib Require Import ZArith Lia.
From S2P Require Import Prelude Signals Timers Workers WorkersProps MainLoop.

Open Scope Z_scope.

(** ** Reading the self-socket *)

(** Whatever pieces the kernel returns and however often it interrupts, the buffer gets the bytes of
    the socket, as far as it has room. *)
Lemma read_from_sock_takes room sock answers :
  kernel_reads room sock answers -> read_from_sock answers = take room sock.
Proof.
  induction 1 as [room got rest answers Hgot Hle _ IH|room sock answers _ IH|sock|room]; simpl.
  - destruct got as [|z got]; [done|]. rewrite IH, take_app, (take_ge (z :: got)) by done. done.
  - done.
  - done.
  - by destruct room.
Qed.

(** ** Where the loop stands *)

Definition before (m : mainpc) : bool :=
  match m with MSetup | MRegistry | MWaker | MSpawn => true | _ => false end.
Definition has_waker (m : mainpc) : bool :=
  match m with MSetup | MRegistry | MWaker | MRegistryOff _ | MReturned _ => false | _ => true end.
Definition has_schedule (m : mainpc) : bool :=
  match m with
  | MSetup | MRegistry | MWaker | MSpawn | MWakerOff _ | MRegistryOff _ | MReturned _ => false
  | _ => true
  end.
Definition ending (m : mainpc) : bool :=
  match m with
  | MTeardown _ | MStopThreads _ | MJoin _ | MWakerOff _ | MRegistryOff _ | MReturned _ => true
  | _ => false
  end.
(** The signals' token is registered. *)
Definition watches (m : mainpc) : bool := negb (ending m) && match m with MSetup => false | _ => true end.
(** The workers have left. *)
Definition gone (m : mainpc) : bool :=
  match m with MWakerOff _ | MRegistryOff _ | MReturned _ => true | _ => false end.
(** After the return of the system call, before the timers. *)
Definition dispatching (m : mainpc) : bool :=
  match m with MHand _ (ABatch _ _) | MHanding _ _ (ABatch _ _) | MTimers _ => true | _ => false end.

Definition batch_of (m : mainpc) : list event :=
  match m with MHand _ (ABatch l _) | MHanding _ _ (ABatch l _) => l | _ => [] end.
Definition queue_of (m : mainpc) : list push :=
  match m with MHand q _ | MHanding _ q _ => q | _ => [] end.

Definition at_ok (m : mainpc) (p : poller) : Prop :=
  if dispatching m then p = Handles else match m with MPoll => p <> Handles | _ => p = Looks end.

Definition timer_of (p : push) : option Timer := match p with PTimer t => Some t | _ => None end.

Section Loop.
Variable threads_cb : nat.
Variable resume : Timer -> handle.
Variable notify : nat -> handle.
#[local] Abbreviation run_step := (run_step threads_cb resume notify).
#[local] Abbreviation do_move := (do_move threads_cb resume notify).
#[local] Abbreviation do_input := (do_input resume notify).
#[local] Abbreviation push_of := (push_of resume notify).

(** ** The waker, the stop request and the signals *)

(** A stop request and unread signals keep the poll from sleeping on. *)
Record flags_inv (s : rt) : Prop := {
  f_waker : waker s = has_waker (main s);
  f_sched : scheduled s = has_schedule (main s);
  f_stop : main s = MPoll -> stopping s = true -> poked (tm s) = true \/ Wakes ∈ setters s;
  f_len : (length (sock s) <= buf_len)%nat;
  f_sock : watches (main s) = true -> sock s <> [] ->
    edge s = true \/ mentions EvSignals (batch_of (main s)) = true
}.

Lemma poller_step_frame t t' :
  poller_step t = Some t' -> at_ t = Looks \/ (exists c d, at_ t = Chose c d) ->
  poked t' = poked t /\ heap t' = heap t /\ clock t' = clock t /\ adders t' = adders t /\
  fired t' = fired t /\ at_ t' <> Handles.
Proof.
  intros Hstep Hat. unfold poller_step in Hstep.
  destruct Hat as [Hat|(c & d & Hat)]; rewrite Hat in Hstep; simplify_eq; by split_and!.
Qed.

Lemma mentions_app e l l' : mentions e (l ++ l') = mentions e l || mentions e l'.
Proof. apply existsb_app. Qed.

Lemma returned_flags batch r s :
  flags_inv s -> main s = MPoll -> flags_inv (returned batch r s).
Proof.
  intros [Fw Fs Fst Fl Fk] Hm. rewrite Hm in *. split; simpl; try done.
  intros _ Hne. destruct (Fk eq_refl Hne) as [->|]; [|done].
  destruct (mentions EvSignals batch); auto.
Qed.

Lemma handle_event_flags ev l r s :
  flags_inv s -> main s = MHand [] (ABatch (ev :: l) r) ->
  flags_inv (handle_event ev (ABatch l r) s).
Proof.
  intros [Fw Fs Fst Fl Fk] Hm. rewrite Hm in *. destruct ev as [| |rd wr]; split; simpl in *; try done.
  - rewrite length_drop. lia.
  - intros _ Hne. by rewrite drop_ge in Hne.
Qed.

Ltac flags_case Hinv Hm :=
  destruct Hinv as [Fw Fs Fst Fl Fk]; rewrite ?Hm in Fw, Fs, Fst, Fk; repeat case_match; simplify_eq/=;
  split; simpl; rewrite ?Hm; try done.

Lemma poll_step_flags s s' : flags_inv s -> main s = MPoll -> run_step s = Some s' -> flags_inv s'.
Proof.
  intros Hinv Hm Hstep. unfold MainLoop.run_step in Hstep. rewrite Hm in Hstep.
  destruct (at_ (tm s)) as [|c d|lag d|] eqn:Hat; [| | |done].
  1,2: destruct (poller_step (tm s)) as [t|] eqn:Hp; [|done]; injection Hstep as <-;
    destruct (poller_step_frame _ _ Hp) as (Hpk & _); [eauto|];
    destruct Hinv as [Fw Fs Fst Fl Fk]; split; simpl; by rewrite ?Hpk.
  case_match; simplify_eq. by apply returned_flags.
Qed.

Lemma run_step_flags s s' : flags_inv s -> run_step s = Some s' -> flags_inv s'.
Proof.
  intros Hinv Hstep. pose proof Hstep as Hrun. unfold MainLoop.run_step in Hstep.
  destruct (main s) as [| | | | | |[|p q] [[|ev l] r|[| |e]]|e q k|r| |res|res|res|res|res|res] eqn:Hm;
    try (flags_case Hinv Hm; fail).
  - flags_case Hinv Hm. intros _ Hne. left. by rewrite bool_decide_eq_false_2.
  - flags_case Hinv Hm; congruence.
  - by eapply poll_step_flags.
  - injection Hstep as <-. by apply handle_event_flags.
  - destruct (poller_step (tm s)) as [t|]; [|done]. flags_case Hinv Hm.
Qed.

Lemma rt_wake_flags s : flags_inv s -> flags_inv (rt_wake s).
Proof.
  intros [Fw Fs Fst Fl Fk]. unfold rt_wake. destruct (waker s) eqn:Hw; split; simpl; auto; congruence.
Qed.

Lemma timer_step_flags i s s' : flags_inv s -> timer_step i s = Some s' -> flags_inv s'.
Proof.
  intros Hinv Hstep. unfold timer_step, adder_step in Hstep.
  destruct (adders (tm s) !! i) as [[t|]|]; simplify_eq/=.
  - destruct Hinv as [Fw Fs Fst Fl Fk]. by split.
  - apply rt_wake_flags. destruct Hinv as [Fw Fs Fst Fl Fk]. by split.
Qed.

(** The setter that stored the request is still about to wake the poll. *)
Lemma set_stopping_flags i s s' : flags_inv s -> set_stopping_step i s = Some s' -> flags_inv s'.
Proof.
  intros Hinv Hstep. unfold set_stopping_step in Hstep.
  destruct (setters s !! i) as [[b|]|] eqn:Hi; simplify_eq/=.
  - destruct Hinv as [Fw Fs Fst Fl Fk]. destruct b; split; simpl; try done.
    intros _ _. right. apply list_elem_of_insert. by eapply lookup_lt_Some.
  - destruct Hinv as [Fw Fs Fst Fl Fk]. unfold rt_wake. simpl.
    destruct (waker s) eqn:Hw; split; simpl; auto; try congruence.
    intros Hm. by rewrite Hm in Fw.
Qed.

Lemma do_move_flags m s s' : flags_inv s -> do_move m s = Some s' -> flags_inv s'.
Proof.
  intros Hinv Hstep. destruct m as [|i|e|i|i]; simpl in Hstep.
  - by eapply run_step_flags.
  - destruct (work_loop i (ws s)); simplify_eq/=. destruct Hinv as [Fw Fs Fst Fl Fk]. by split.
  - destruct (hand_over e (ws s)); simplify_eq/=. destruct Hinv as [Fw Fs Fst Fl Fk]. by split.
  - by eapply timer_step_flags.
  - by eapply set_stopping_flags.
Qed.

Lemma sleeping_spec s :
  sleeping s = true -> main s = MPoll /\ exists lag d, at_ (tm s) = Sleeps lag d.
Proof. unfold sleeping. intros. repeat case_match; try done. eauto. Qed.

Lemma do_input_flags i s s' : flags_inv s -> do_input i s = Some s' -> flags_inv s'.
Proof.
  intros Hinv Hstep.
  destruct i as [now|timeout|b|k h|l h|sig|batch|batch|e|e]; simpl in Hstep;
    try (repeat case_match; simplify_eq; destruct Hinv as [Fw Fs Fst Fl Fk]; by split).
  - injection Hstep as <-. destruct Hinv as [Fw Fs Fst Fl Fk]. split; simpl; try done.
    intros Hm Hst. destruct (Fst Hm Hst); [by left|]. right. apply elem_of_app. by left.
  - destruct (Nat.ltb_spec (length (sock s)) buf_len) as [Hlt|]; [|done]. injection Hstep as <-.
    destruct Hinv as [Fw Fs Fst Fl Fk]. split; simpl; try done; [|by left].
    rewrite length_app. simpl. lia.
  - destruct (sleeping s) eqn:Hsl; simpl in Hstep; [|done]. case_match; simplify_eq.
    apply returned_flags; [done|by apply sleeping_spec].
  - destruct (sleeping s) eqn:Hsl; simpl in Hstep; [|done]. case_match; simplify_eq.
    apply returned_flags; [done|by apply sleeping_spec].
  - destruct (sleeping s) eqn:Hsl; [|done]. simplify_eq. apply returned_flags; [|by apply sleeping_spec].
    destruct Hinv as [Fw Fs Fst Fl Fk]. by split.
  - destruct (main s) eqn:Hm; simplify_eq. destruct Hinv as [Fw Fs Fst Fl Fk]. rewrite Hm in *. by split.
Qed.

(** ** The timers *)

(** The end of the wait is not before a timer of the heap is due. *)
Definition limit_ok (t : Timers.state) : Prop :=
  match at_ t with
  | Chose c (Some d) => exists x, x ∈ heap t /\ when x <= c + d
  | Sleeps _ (Some d) => exists x, x ∈ heap t /\ when x <= d
  | _ => True
  end.

Record time_inv (s : rt) : Prop := {
  m_t : tinv (tm s);
  m_at : at_ok (main s) (at_ (tm s));
  m_wrap : forall t, t ∈ heap (tm s) ++ omap pushing (adders (tm s)) -> when t < clock (tm s) + 2 ^ 64;
  m_limit : limit_ok (tm s);
  m_fired : concat (fired (tm s)).*2 = omap timer_of (handed s ++ queue_of (main s))
}.

Lemma sched_time_limit tick h x :
  (forall t, t ∈ h -> when t < tick + 2 ^ 64) -> sched_time tick h = Some x ->
  exists t, t ∈ h /\ when t <= tick + x.
Proof.
  intros Hb Hs. unfold sched_time, peek in Hs. pose proof (pop_spec h) as Hpop.
  destruct (pop h) as [[t rest]|]; simplify_eq/=. destruct Hpop as [Hp _].
  assert (t ∈ h) as Hin by (rewrite Hp; by left). exists t. split; [done|].
  specialize (Hb t Hin). destruct (Z.ltb_spec tick (when t)); [|lia]. rewrite Z.mod_small; lia.
Qed.

(** Away from the wait the timers' invariant does not depend on the poller. *)
Lemma tinv_settled t b p l :
  tinv t -> omap pushing l = omap pushing (adders t) -> p = Looks \/ p = Handles ->
  tinv (mkState (clock t) (heap t) b l p (added t) (fired t)).
Proof.
  intros [Ta Tf Tc Tw] Hl Hp. split; simpl; [by rewrite Hl|done| |].
  - intros c d ->. by destruct Hp.
  - do 2 right. by apply awaits_trivial.
Qed.

Lemma omap_delete_none {A B} (f : A -> option B) (l : list A) i x :
  l !! i = Some x -> f x = None -> omap f (delete i l) = omap f l.
Proof.
  intros Hi Hx. apply list_elem_of_split_length in Hi as (l1 & l2 & -> & ->).
  rewrite delete_middle, !omap_app. simpl. by rewrite Hx.
Qed.

Lemma choose_limit t t' :
  (forall x, x ∈ heap t -> when x < clock t + 2 ^ 64) -> (forall c d, at_ t = Chose c d -> c <= clock t) ->
  limit_ok t -> poller_step t = Some t' -> limit_ok t'.
Proof.
  intros Hb Hc Hl Hp. unfold poller_step in Hp. unfold limit_ok in *.
  destruct (at_ t) as [|c d|lag d|] eqn:Hat; [| | |destruct (handle_timers _ _); by simplify_eq].
  - simplify_eq/=. destruct (sched_time _ _) eqn:Hs; [|done]. by eapply sched_time_limit.
  - simplify_eq/=. destruct d as [d|]; [|done]. simpl. destruct Hl as (x & Hx & Hw).
    specialize (Hc c _ eq_refl). exists x. split; [done|lia].
  - case_match; by simplify_eq.
Qed.

Lemma returned_time batch r s : time_inv s -> main s = MPoll -> time_inv (returned batch r s).
Proof.
  intros [Mt Ma Mw Ml Mf] Hm. rewrite Hm in *. split; simpl; try done.
  apply (tinv_settled (tm s)); auto.
Qed.

(** A step of the loop that keeps the timers, and what it has handed over or is about to. *)
Lemma goto_time m s s' :
  time_inv s -> tm s' = tm s -> main s' = m -> at_ok m (at_ (tm s)) ->
  omap timer_of (handed s' ++ queue_of m) = omap timer_of (handed s ++ queue_of (main s)) ->
  time_inv s'.
Proof. intros [Mt Ma Mw Ml Mf] Ht Hm Hat Hq. split; rewrite ?Ht, ?Hm, ?Hq; done. Qed.

Lemma omap_timers (due : list Timer) : omap timer_of (PTimer <$> due) = due.
Proof. induction due as [|t due IH]; [done|]. simpl. f_equal. exact IH. Qed.

Lemma timers_time r s s' : time_inv s -> main s = MTimers r -> run_step s = Some s' -> time_inv s'.
Proof.
  intros [Mt Ma Mw Ml Mf] Hm Hstep. unfold MainLoop.run_step in Hstep. rewrite Hm in *.
  unfold at_ok in Ma. simpl in Ma. destruct (poller_step (tm s)) as [t|] eqn:Hp; simplify_eq/=.
  pose proof (poller_inv _ _ Mt Hp) as Ht. unfold poller_step in Hp. rewrite Ma in Hp.
  pose proof (handle_timers_spec (clock (tm s)) (heap (tm s))) as Hspec.
  destruct (handle_timers (clock (tm s)) (heap (tm s))) as [due left]. simplify_eq/=.
  destruct Hspec as (Hperm & _). split; simpl; try done.
  - intros x Hx. apply Mw. rewrite <- Hperm. rewrite elem_of_app in *. rewrite elem_of_app. tauto.
  - rewrite fmap_app, concat_app, Mf. simpl. by rewrite !app_nil_r, !omap_app, omap_timers.
Qed.

Lemma handle_event_time ev l r s :
  time_inv s -> main s = MHand [] (ABatch (ev :: l) r) -> time_inv (handle_event ev (ABatch l r) s).
Proof.
  intros Hinv Hm. pose proof (m_at _ Hinv) as Ma. rewrite Hm in Ma.
  destruct ev as [| |rd wr]; eapply goto_time; simpl; try done; rewrite Hm, !omap_app; simpl; f_equal.
  - induction (handle_io_signals _ _ _); done.
  - induction (option_list rd ++ option_list wr); done.
Qed.

Lemma run_step_time s s' : time_inv s -> run_step s = Some s' -> time_inv s'.
Proof.
  intros Hinv Hstep. pose proof Hstep as Hrun. unfold MainLoop.run_step in Hstep.
  pose proof (m_at _ Hinv) as Ma.
  destruct (main s) as [| | | | | |[|p q] k|e q k|r| |res|res|res|res|res|res] eqn:Hm;
    try (repeat case_match; simplify_eq; eapply goto_time; simpl; try done; by rewrite ?Hm).
  - injection Hstep as <-. destruct Hinv as [Mt _ Mw Ml Mf]. rewrite Hm in Mf. unfold at_ok in Ma.
    simpl in Ma. split; simpl; try done. exact (tinv_settled (tm s) false _ _ Mt eq_refl (or_introl Ma)).
  - unfold at_ok in Ma. simpl in Ma. injection Hstep as <-.
    destruct (stopping s); eapply goto_time; simpl; try done; by rewrite ?Hm, ?Ma.
  - destruct (at_ (tm s)) as [|c d|lag d|] eqn:Hat; [| | |done];
      [| |case_match; simplify_eq; by apply returned_time].
    all: destruct (poller_step (tm s)) as [t|] eqn:Hp; simplify_eq/=.
    all: destruct (poller_step_frame _ _ Hp) as (_ & Hh & Hk & Had & Hf & Hn); [eauto|].
    all: destruct Hinv as [Mt _ Mw Ml Mf]; split; simpl; rewrite ?Hm, ?Hh, ?Hk, ?Had, ?Hf in *;
      [by eapply poller_inv|done|done| |done].
    all: eapply choose_limit; [|by apply Mt|exact Ml|exact Hp].
    all: intros x Hx; apply Mw; apply elem_of_app; by left.
  - destruct k as [[|ev l] r|[]]; simplify_eq; try (eapply goto_time; simpl; try done; by rewrite Hm).
    by apply handle_event_time.
  - case_match; [done|]. simplify_eq. eapply goto_time; simpl; try done; rewrite Hm; simpl.
    by rewrite <- app_assoc.
  - by eapply timers_time.
Qed.

(** The timers' part of a state that another thread has changed. *)
Lemma keep_time s s' :
  time_inv s -> main s' = main s -> omap timer_of (handed s') = omap timer_of (handed s) ->
  tinv (tm s') -> at_ (tm s') = at_ (tm s) -> fired (tm s') = fired (tm s) ->
  (forall t, t ∈ heap (tm s') ++ omap pushing (adders (tm s')) -> when t < clock (tm s') + 2 ^ 64) ->
  (forall t, t ∈ heap (tm s) -> t ∈ heap (tm s')) ->
  time_inv s'.
Proof.
  intros [Mt Ma Mw Ml Mf] Hm Hh Ht Hat Hf Hw Hk. split; rewrite ?Hm, ?Hat, ?Hf; try done.
  - unfold limit_ok in *. rewrite Hat. destruct (at_ (tm s)) as [|c [d|]|lag [d|]|]; try done.
    all: destruct Ml as (x & Hx & Hle); exists x; by auto.
  - rewrite Mf, !omap_app. by rewrite Hh.
Qed.

Lemma no_waker_looks s : flags_inv s -> time_inv s -> waker s = false -> at_ (tm s) = Looks.
Proof.
  intros [Fw _ _ _ _] [_ Ma _ _ _] Hw. rewrite Fw in Hw. unfold at_ok in Ma.
  destruct (main s) as [| | | | | |q k|e q k|r| |res|res|res|res|res|res]; done.
Qed.

Lemma rt_wake_time s : time_inv s -> time_inv (rt_wake s).
Proof.
  intros Hinv. unfold rt_wake. destruct (waker s); [|done].
  eapply keep_time; simpl; try done; [|by apply Hinv].
  destruct (m_t _ Hinv) as [Ta Tf Tc Tw]. split; simpl; auto.
Qed.

Lemma timer_step_time i s s' :
  flags_inv s -> time_inv s -> timer_step i s = Some s' -> time_inv s'.
Proof.
  intros Hfl Hinv Hstep. unfold timer_step in Hstep. pose proof (m_t _ Hinv) as Ht.
  pose proof (m_wrap _ Hinv) as Hw. unfold adder_step in Hstep.
  destruct (adders (tm s) !! i) as [[t|]|] eqn:Hi; simplify_eq/=.
  - pose proof (omap_insert_perm pushing _ _ _ Pokes Hi) as Hp. simpl in Hp.
    eapply keep_time; simpl; try done.
    + eapply adder_inv; [exact Ht|]. unfold adder_step. by rewrite Hi.
    + intros x Hx. apply Hw. rewrite Hp. by rewrite <- Permutation_middle.
    + intros x Hx. by right.
  - pose proof (omap_delete_none pushing _ _ _ Hi eq_refl) as Hd. unfold rt_wake. simpl.
    destruct (waker s) eqn:Hwk; eapply keep_time; simpl; try done; try (by rewrite Hd).
    + eapply (adder_inv i); [exact Ht|]. unfold adder_step. by rewrite Hi.
    + exact (tinv_settled (tm s) _ _ _ Ht Hd (or_introl (no_waker_looks _ Hfl Hinv Hwk))).
Qed.

Lemma do_move_time m s s' :
  flags_inv s -> time_inv s -> do_move m s = Some s' -> time_inv s'.
Proof.
  intros Hfl Hinv Hstep. destruct m as [|i|e|i|i]; simpl in Hstep.
  - by eapply run_step_time.
  - destruct (work_loop i (ws s)); simplify_eq/=. destruct Hinv. by split.
  - destruct (hand_over e (ws s)); simplify_eq/=. destruct Hinv. by split.
  - by eapply timer_step_time.
  - unfold set_stopping_step in Hstep. destruct (setters s !! i) as [[[]|]|]; simplify_eq/=.
    1,2: destruct Hinv; by split.
    apply rt_wake_time. destruct Hinv. by split.
Qed.

Lemma do_input_time i s s' : time_inv s -> do_input i s = Some s' -> time_inv s'.
Proof.
  intros Hinv Hstep.
  destruct i as [now|timeout|b|k h|l h|sig|batch|batch|e|e]; simpl in Hstep;
    try (repeat case_match; simplify_eq; destruct Hinv; by split).
  - destruct (Z.leb_spec (clock (tm s)) now) as [Hle|]; simplify_eq.
    eapply keep_time; simpl; try done.
    + eapply tstep_inv; [apply (m_t _ Hinv)|by apply TClock].
    + intros t Ht. pose proof (m_wrap _ Hinv t Ht). lia.
  - destruct (Z.leb_spec 0 timeout) as [Hlo|]; simpl in Hstep; [|done].
    destruct (Z.ltb_spec timeout (2 ^ 64)) as [Hhi|]; simplify_eq.
    eapply keep_time; simpl; try done.
    + eapply tstep_inv; [apply (m_t _ Hinv)|by apply TAdd].
    + intros t. rewrite omap_app, app_assoc. simpl. intros [Ht|Ht]%elem_of_app.
      * by apply (m_wrap _ Hinv).
      * apply list_elem_of_singleton in Ht as ->. simpl. unfold timer_when. lia.
  - assert (omap timer_of (handed s ++ [PThread k h]) = omap timer_of (handed s)) as Hom
      by (rewrite omap_app; apply app_nil_r).
    repeat case_match; simplify_eq; eapply keep_time; simpl; try done; apply Hinv.
  - destruct (sleeping s) eqn:Hsl; simpl in Hstep; [|done]. case_match; simplify_eq.
    apply returned_time; [done|by apply sleeping_spec].
  - destruct (sleeping s) eqn:Hsl; simpl in Hstep; [|done]. case_match; simplify_eq.
    apply returned_time; [done|by apply sleeping_spec].
  - destruct (sleeping s) eqn:Hsl; [|done]. simplify_eq. apply returned_time; [|by apply sleeping_spec].
    destruct Hinv. by split.
  - destruct (main s) eqn:Hm; simplify_eq. pose proof (m_at _ Hinv) as Ma. rewrite Hm in Ma.
    eapply goto_time; simpl; try done. by rewrite Hm.
Qed.

(** ** The workers *)

Definition handed_ids (s : rt) : list nat := flat_map (fun p => ids (push_of p).2) (handed s).

(** Before the threads are spawned the handles wait in the injector. *)
Definition fresh (s : rt) : Prop :=
  workers (ws s) = [] /\ externs (ws s) = [] /\ todo (ws s) = [] /\ ran (ws s) = [] /\
  flat_map ids (injector (ws s)) ≡ₚ handed_ids s.

Definition live (s : rt) : Prop :=
  sched_inv threads_cb (handed_ids s) 0 0 (ws s) /\ todo (ws s) = [].

(** How far [stop_threads] has come. *)
Definition stop_ok (m : mainpc) (w : sched) : Prop :=
  match m with
  | MStopThreads _ => True
  | MJoin _ => exists k, stopper w = SUnpark k /\ (length (workers w) <= k)%nat
  | MWakerOff _ | MRegistryOff _ | MReturned _ =>
      forallb exited (workers w) = true /\ existsb eactive (externs w) = false
  | _ => stopper w = SNot
  end.

Record pool_inv (s : rt) : Prop := {
  p_state : if before (main s) then fresh s else live s \/ gone (main s) = true /\ fresh s;
  p_stop : stop_ok (main s) (ws s);
  p_extern : forall e q k, main s = MHanding e q k -> (e < length (externs (ws s)))%nat
}.

Lemma wake_step_frame u w w' r :
  wake_step u w = (w', r) ->
  externs w' = externs w /\ todo w' = todo w /\ stopper w' = stopper w /\
  length (workers w') = length (workers w).
Proof.
  intros Hu. destruct u as [?|[]|j|j|j|]; simpl in Hu; repeat case_match; simplify_eq/=;
    rewrite ?length_insert; done.
Qed.

Lemma work_loop_frame i w w' :
  work_loop i w = Some w' ->
  externs w' = externs w /\ todo w' = todo w /\ stopper w' = stopper w /\
  length (workers w') = length (workers w).
Proof.
  intros Hstep. unfold work_loop in Hstep. destruct (workers w !! i) as [v|] eqn:Hi; [|done].
  destruct (pc v) as [again|again|again j|h|u k|[h|[|[[] h] ops]]| | | |h|h|h| | | | | | |claimed| | | |];
    try (repeat case_match; simplify_eq/=; rewrite ?length_insert; done).
  injection Hstep as <-. destruct (wake_step u w) as [w1 r] eqn:Hu.
  pose proof (wake_step_frame _ _ _ _ Hu) as Hf. simpl.
  destruct (workers w1 !! i); [|done]. simpl. by rewrite length_insert.
Qed.

Lemma hand_over_frame e w w' :
  hand_over e w = Some w' ->
  length (externs w') = length (externs w) /\ todo w' = todo w /\ stopper w' = stopper w /\
  length (workers w') = length (workers w).
Proof.
  intros Hstep. unfold hand_over in Hstep. destruct (externs w !! e) as [[k h|u|]|]; try done.
  - simplify_eq/=. by rewrite length_insert.
  - destruct (wake_step u w) as [w1 r] eqn:Hu. destruct (wake_step_frame _ _ _ _ Hu) as (He & Ht & Hs & Hl).
    simplify_eq/=. by rewrite length_insert, He.
Qed.

(** The workers and the threads are done. *)
Lemma gone_still w :
  forallb exited (workers w) = true -> existsb eactive (externs w) = false ->
  (forall i, work_loop i w = None) /\ (forall e, hand_over e w = None).
Proof.
  intros Hw He. split.
  - intros i. unfold work_loop. destruct (workers w !! i) as [v|] eqn:Hi; [|done].
    pose proof (proj1 (forallb_forall exited (workers w)) Hw v) as Hv. unfold exited in Hv.
    destruct (pc v); try done; exfalso; specialize (Hv (proj1 (list_elem_of_In _ _) (list_elem_of_lookup_2 _ _ _ Hi))); done.
  - intros e. unfold hand_over. destruct (externs w !! e) as [x|] eqn:Hx; [|done].
    assert (eactive x = false) as Ha; [|by destruct x].
    destruct (eactive x) eqn:Ha; [|done]. exfalso. rewrite <- not_true_iff_false in He. apply He.
    apply existsb_exists. exists x. split; [|done]. apply list_elem_of_In. by eapply list_elem_of_lookup_2.
Qed.

Lemma sched_start_inv q :
  (0 < threads_cb)%nat -> sched_inv threads_cb (flat_map ids q) 0 0 (sched_start threads_cb q).
Proof.
  intros Hn. destruct (sched_new_inv threads_cb []) as [In Iok Iidle Ispec Isv Ione Itg Icl Ist Ilv Iids].
  split; try done.
  - intros _ _. simpl. destruct threads_cb; simpl; lia.
  - unfold all_ids in *. simpl in *. rewrite !app_nil_r in *.
    apply Permutation_nil_r in Iids. rewrite Iids. simpl. by rewrite ?app_nil_r.
Qed.

(** A handle handed over by one more thread. *)
Lemma extern_inv all w k h :
  sched_inv threads_cb all 0 0 w -> existsb eactive (externs w) = false ->
  sched_inv threads_cb (all ++ ids h) 0 0 (with_externs (externs w ++ [EPush k h]) w).
Proof.
  intros Hinv Hact.
  assert (sched_inv threads_cb (all ++ ids h) 0 0 (with_todo ((k, h) :: todo w) w)) as Hmid.
  { destruct Hinv as [In Iok Iidle Ispec Isv Ione Itg Icl Ist Ilv Iids]. split; try done.
    rewrite <- Iids. unfold all_ids. simpl. solve_Permutation. }
  pose proof (next_extern_inv _ _ _ (with_externs (externs w ++ [EPush k h]) w) Hmid) as Hnext.
  apply Hnext. unfold next_extern. simpl. rewrite Hact. by destruct w.
Qed.

(** After the workers have left, handles only reach the injector. *)
Lemma injector_inv all w h :
  sched_inv threads_cb all 0 0 w -> work_stopping w = true ->
  sched_inv threads_cb (all ++ ids h) 0 0 (with_injector (injector w ++ [h]) w).
Proof.
  intros [In Iok Iidle Ispec Isv Ione Itg Icl Ist Ilv Iids] Hst. split; try done.
  - simpl. congruence.
  - rewrite <- Iids. unfold all_ids. simpl. rewrite flat_map_app. simpl. solve_Permutation.
Qed.

Lemma gone_stopping all w :
  (0 < threads_cb)%nat -> sched_inv threads_cb all 0 0 w -> forallb exited (workers w) = true ->
  work_stopping w = true.
Proof.
  intros Hn Hinv Hex. destruct (workers w) as [|v l] eqn:Hw.
  { pose proof (inv_n _ _ _ _ _ Hinv) as Hl. rewrite Hw in Hl. simpl in Hl. lia. }
  apply (ok_stops _ v (inv_ok _ _ _ _ _ Hinv 0 v ltac:(by rewrite Hw))).
  simpl in Hex. apply andb_true_iff in Hex as [Hex _]. unfold exited in Hex. by destruct (pc v).
Qed.

Hypothesis some_worker : (0 < threads_cb)%nat.
Hypothesis few_workers : Z.of_nat threads_cb < 2 ^ 64.

(** A step of the loop that leaves the workers alone. *)
Lemma goto_pool m s s' :
  pool_inv s -> ws s' = ws s -> handed s' = handed s -> main s' = m ->
  before m = before (main s) -> (gone (main s) = true -> gone m = true) ->
  stop_ok m (ws s) -> (forall e q k, m = MHanding e q k -> False) -> pool_inv s'.
Proof.
  intros [Ps Pst Pe] Hw Hh Hm Hb Hg Hst Hno. split; rewrite ?Hm.
  - unfold live, fresh, handed_ids in *. rewrite Hw, Hh, Hb. destruct (before (main s)); [done|].
    destruct Ps as [|[]]; auto.
  - by rewrite Hw.
  - intros e q k Heq. by apply Hno in Heq.
Qed.

(** A step that changes the workers while they run. *)
Lemma live_pool s s' :
  main s' = main s -> live s' -> before (main s) = false -> stop_ok (main s) (ws s') ->
  (forall e q k, main s = MHanding e q k -> (e < length (externs (ws s')))%nat) -> pool_inv s'.
Proof. intros Hm Hl Hb Hst He. split; rewrite Hm; [rewrite Hb; by left|done..]. Qed.

Lemma running_live s :
  pool_inv s -> before (main s) = false -> gone (main s) = false -> live s.
Proof. intros [Ps _ _] Hb Hg. rewrite Hb in Ps. destruct Ps as [|[]]; congruence. Qed.

Lemma handed_app p s : handed_ids (hand resume notify p s) = handed_ids s ++ ids (push_of p).2.
Proof. unfold handed_ids. simpl. rewrite flat_map_app. simpl. by rewrite app_nil_r. Qed.

Lemma hand_live p s :
  live s -> existsb eactive (externs (ws s)) = false -> live (hand resume notify p s).
Proof. intros [Hs Ht] Ha. split; [|done]. rewrite handed_app. simpl. by apply extern_inv. Qed.

Lemma stop_threads_pool res s s' :
  pool_inv s -> main s = MStopThreads res -> run_step s = Some s' -> pool_inv s'.
Proof.
  intros Hinv Hm Hstep. unfold MainLoop.run_step in Hstep. rewrite Hm in Hstep.
  destruct (running_live s Hinv) as [Hs Ht]; [by rewrite Hm..|].
  destruct (stop_threads (ws s)) as [w|] eqn:Hst; simplify_eq.
  - eapply live_pool; simpl; rewrite ?Hm; try done. split; simpl; [by eapply stop_threads_inv|].
    unfold stop_threads in Hst. repeat case_match; by simplify_eq.
  - eapply goto_pool; simpl; try done; rewrite ?Hm; try done.
    unfold stop_threads in Hst. destruct (stopper (ws s)) as [|k] eqn:Hk0; [done|].
    destruct (workers (ws s) !! k) eqn:Hk; [done|]. exists k. split; [done|]. by apply lookup_ge_None.
Qed.

Lemma run_step_pool s s' : pool_inv s -> run_step s = Some s' -> pool_inv s'.
Proof.
  intros Hinv Hstep. pose proof Hstep as Hrun. unfold MainLoop.run_step in Hstep.
  pose proof (p_stop _ Hinv) as Hst.
  destruct (main s) as [| | | | | |[|p q] k|e q k|r| |res|res|res|res|res|res] eqn:Hm;
    try (repeat case_match; simplify_eq; eapply goto_pool; simpl; try done; by rewrite ?Hm).
  - injection Hstep as <-. destruct Hinv as [Ps _ _]. rewrite Hm in Ps. simpl in Ps.
    destruct Ps as (_ & _ & _ & _ & Hq). split; simpl; try done. left. split; [|done].
    pose proof (sched_start_inv (injector (ws s)) some_worker) as [In Iok Iidle Ispec Isv Ione Itg Icl Ist Ilv Iids].
    split; try done. etrans; [exact Iids|]. exact Hq.
  - repeat case_match; simplify_eq; [..|by eapply goto_pool; simpl; try done; rewrite ?Hm].
    all: destruct (poller_step (tm s)); simplify_eq/=; eapply goto_pool; simpl; try done; by rewrite ?Hm.
  - destruct k as [[|ev l] r|[]]; simplify_eq; try (eapply goto_pool; simpl; try done; by rewrite ?Hm).
    destruct ev; eapply goto_pool; simpl; try done; by rewrite ?Hm.
  - destruct (existsb _ _) eqn:Ha; simplify_eq.
    pose proof (running_live s Hinv ltac:(by rewrite Hm) ltac:(by rewrite Hm)) as Hl.
    split; simpl; [left; exact (hand_live p s Hl Ha)|done|].
    intros e q' k' [= <- _ _]. rewrite length_app. simpl. lia.
  - destruct (poller_step (tm s)); simplify_eq/=. eapply goto_pool; simpl; try done; by rewrite ?Hm.
  - by eapply stop_threads_pool.
  - destruct (_ && _) eqn:Hj; simplify_eq. apply andb_true_iff in Hj as [Hx Ha%negb_true_iff].
    eapply goto_pool; simpl; try done; by rewrite ?Hm.
Qed.

(** A worker or a thread can only move while the workers run. *)
Lemma moving_live s :
  pool_inv s -> (exists i w, work_loop i (ws s) = Some w) \/ (exists e w, hand_over e (ws s) = Some w) ->
  before (main s) = false /\ gone (main s) = false /\ live s.
Proof.
  intros Hinv Hmove. destruct (gone (main s)) eqn:Hg.
  { pose proof (p_stop _ Hinv) as Hst. destruct (main s); try done;
      destruct Hst as [Hx Ha]; destruct (gone_still _ Hx Ha) as [H1 H2];
      (destruct Hmove as [(i & w & Hi)|(e & w & He)]; exfalso; [by rewrite H1 in Hi|by rewrite H2 in He]). }
  destruct (before (main s)) eqn:Hb.
  { pose proof (p_state _ Hinv) as Hf. rewrite Hb in Hf. destruct Hf as (Hw & He & _).
    unfold work_loop, hand_over in Hmove. rewrite Hw, He in Hmove. exfalso.
    by destruct Hmove as [(i & w & Hi)|(e & w & Hx)]. }
  split_and!; [done..|by apply running_live].
Qed.

Lemma stop_ok_frame m w w' :
  gone m = false -> stopper w' = stopper w -> length (workers w') = length (workers w) ->
  stop_ok m w -> stop_ok m w'.
Proof. intros Hg Hs Hl Hok. destruct m; simpl in *; rewrite ?Hs, ?Hl; done. Qed.

Lemma same_pool s s' :
  pool_inv s -> ws s' = ws s -> handed s' = handed s -> main s' = main s -> pool_inv s'.
Proof.
  intros [Ps Pst Pe] Hw Hh Hm. split; rewrite ?Hm, ?Hw; [|done..].
  unfold live, fresh, handed_ids in *. by rewrite Hw, Hh.
Qed.

Lemma rt_wake_pool s : pool_inv s -> pool_inv (rt_wake s).
Proof. intros Hinv. unfold rt_wake. destruct (waker s); [by eapply same_pool|done]. Qed.

Lemma do_move_pool m s s' : pool_inv s -> do_move m s = Some s' -> pool_inv s'.
Proof.
  intros Hinv Hstep. destruct m as [|i|e|i|i]; simpl in Hstep.
  - by eapply run_step_pool.
  - destruct (work_loop i (ws s)) as [w|] eqn:Hw; simplify_eq/=.
    destruct (moving_live s Hinv) as (Hb & Hg & [Hs Ht]); [by left; eauto|].
    destruct (work_loop_frame _ _ _ Hw) as (Fe & Ft & Fs & Fl).
    eapply live_pool; simpl; try done.
    + split; simpl; [by eapply work_loop_inv|congruence].
    + by eapply stop_ok_frame; [..|apply Hinv].
    + rewrite Fe. apply Hinv.
  - destruct (hand_over e (ws s)) as [w|] eqn:Hw; simplify_eq/=.
    destruct (moving_live s Hinv) as (Hb & Hg & [Hs Ht]); [by right; eauto|].
    destruct (hand_over_frame _ _ _ Hw) as (Fe & Ft & Fs & Fl).
    eapply live_pool; simpl; try done.
    + split; simpl; [by eapply hand_over_inv|congruence].
    + by eapply stop_ok_frame; [..|apply Hinv].
    + rewrite Fe. apply Hinv.
  - unfold timer_step in Hstep. destruct (adders (tm s) !! i) as [[t|]|]; [| |done].
    + destruct (adder_step i (tm s)); simplify_eq/=. by eapply same_pool.
    + simplify_eq. apply rt_wake_pool. by eapply same_pool.
  - unfold set_stopping_step in Hstep. destruct (setters s !! i) as [[[]|]|]; simplify_eq/=.
    1,2: by eapply same_pool.
    apply rt_wake_pool. by eapply same_pool.
Qed.

Lemma spawned_input_pool k h s :
  flags_inv s -> pool_inv s -> scheduled s = true -> existsb eactive (externs (ws s)) = false ->
  pool_inv (hand resume notify (PThread k h) s).
Proof.
  intros Hfl Hinv Hsc Ha. rewrite (f_sched _ Hfl) in Hsc.
  assert (before (main s) = false /\ gone (main s) = false) as [Hb Hg] by (by destruct (main s)).
  eapply live_pool; simpl; try done.
  - apply hand_live; [|done]. by apply running_live.
  - pose proof (p_stop _ Hinv) as Hst. by destruct (main s).
  - intros e q' k' Hm. rewrite length_app. pose proof (p_extern _ Hinv _ _ _ Hm). lia.
Qed.

Lemma early_input_pool k h s :
  flags_inv s -> pool_inv s -> scheduled s = false ->
  pool_inv (with_handed (handed s ++ [PThread k h])
              (with_ws (with_injector (injector (ws s) ++ [h]) (ws s)) s)).
Proof.
  intros Hfl Hinv Hsc. rewrite (f_sched _ Hfl) in Hsc. destruct Hinv as [Ps Pst Pe].
  assert (fresh s -> fresh (with_handed (handed s ++ [PThread k h])
              (with_ws (with_injector (injector (ws s) ++ [h]) (ws s)) s))) as Hfr.
  { intros (H1 & H2 & H3 & H4 & H5). unfold fresh, handed_ids in *. simpl. split_and!; try done.
    rewrite !flat_map_app, H5. done. }
  split; simpl; [|by destruct (main s)|].
  - destruct (before (main s)) eqn:Hb; [by apply Hfr|].
    destruct Ps as [[Hs Ht]|[Hg Hf]]; [left|right; by auto]. split; [|done].
    assert (gone (main s) = true) as Hg by (by destruct (main s)).
    assert (forallb exited (workers (ws s)) = true) as Hx by (by destruct (main s); try done; apply Pst).
    unfold handed_ids. simpl. rewrite flat_map_app. simpl. rewrite app_nil_r.
    apply injector_inv; [done|]. by eapply gone_stopping.
  - done.
Qed.

Lemma do_input_pool i s s' : flags_inv s -> pool_inv s -> do_input i s = Some s' -> pool_inv s'.
Proof.
  intros Hfl Hinv Hstep. pose proof (p_stop _ Hinv) as Hst.
  destruct i as [now|timeout|b|k h|l h|sig|batch|batch|e|e]; simpl in Hstep;
    try (repeat case_match; simplify_eq; by eapply same_pool).
  - destruct (scheduled s) eqn:Hsc; [|injection Hstep as <-; by apply early_input_pool].
    destruct (existsb _ _) eqn:Ha; simplify_eq. by apply spawned_input_pool.
  - destruct (sleeping s) eqn:Hsl; simpl in Hstep; [|done]. case_match; simplify_eq.
    apply sleeping_spec in Hsl as [Hm _]. rewrite Hm in Hst. eapply goto_pool; simpl; try done; by rewrite ?Hm.
  - destruct (sleeping s) eqn:Hsl; simpl in Hstep; [|done]. case_match; simplify_eq.
    apply sleeping_spec in Hsl as [Hm _]. rewrite Hm in Hst. eapply goto_pool; simpl; try done; by rewrite ?Hm.
  - destruct (sleeping s) eqn:Hsl; [|done]. simplify_eq.
    apply sleeping_spec in Hsl as [Hm _]. rewrite Hm in Hst. eapply goto_pool; simpl; try done; by rewrite ?Hm.
  - destruct (main s) eqn:Hm; simplify_eq. destruct Hinv as [Ps _ _]. rewrite Hm in Ps.
    destruct Ps as (H1 & H2 & H3 & H4 & H5). split; simpl; [by right| |done]. by rewrite H1, H2.
Qed.

(** ** Ranks: without inputs, everything comes to rest *)

Section Rank.
Local Open Scope nat_scope.

(** A cycle of the loop is bought by a wake, by unread signals or by a timer that is due. *)
Definition cycle : nat := 40.

Definition push_cost (p : push) : nat := 2 + push_rank threads_cb (push_of p).
Definition event_cost (ev : event) : nat :=
  match ev with
  | EvIo rd wr => 1 + sum_list_with push_cost (PReady <$> option_list rd ++ option_list wr)
  | _ => 1
  end.
Definition after_rank (k : after) : nat :=
  match k with ABatch l _ => 10 + sum_list_with event_cost l | AEnd _ => 8 end.

Definition main_rank (m : mainpc) (p : poller) : nat :=
  match m with
  | MSetup => 11 + cycle | MRegistry => 9 | MWaker => 8 | MSpawn => 7
  | MCheck => 6
  | MPoll => match p with Looks => 3 | Chose _ _ => 2 | _ => 0 end
  | MHand q k => sum_list_with push_cost q + after_rank k
  | MHanding _ q k => 1 + sum_list_with push_cost q + after_rank k
  | MTimers _ => 9
  | MSwap => 7
  | MTeardown _ => 5 | MStopThreads _ => 4 | MJoin _ => 3 | MWakerOff _ => 2 | MRegistryOff _ => 1
  | MReturned _ => 0
  end.

Definition is_due (now : Z) (t : Timer) : bool := (when t <=? now)%Z.
(** The credit of a timer that is due, until the loop is about to look. *)
Definition late (m : mainpc) (t : Timers.state) : nat :=
  if existsb (is_due (clock t)) (heap t) && negb (dispatching m) then cycle else 0.

Definition adder_rank (a : adder) : nat :=
  match a with Pushes t => push_cost (PTimer t) + 2 * cycle + 2 | Pokes => cycle + 1 end.
Definition setter_rank (x : setter) : nat := match x with Stores _ => cycle + 2 | Wakes => cycle + 1 end.
Definition byte_cost (l : bool) (h : sig_handlers) (sig : Z) : nat :=
  sum_list_with push_cost (PSignal <$> handle_io_signals l h [sig]).

Definition time_rank (m : mainpc) (t : Timers.state) : nat :=
  main_rank m (at_ t) + (if poked t then cycle else 0) + late m t
  + sum_list_with adder_rank (adders t) + sum_list_with (fun x => push_cost (PTimer x)) (heap t).
Definition signal_rank (s : rt) : nat :=
  (if edge s then cycle else 0) + sum_list_with (byte_cost (listening s) (handlers s)) (sock s).
Definition pool_rank (s : rt) : nat :=
  sched_rank threads_cb (if before (main s) then sched_start threads_cb (injector (ws s)) else ws s).

Definition rt_rank (s : rt) : nat :=
  time_rank (main s) (tm s) + signal_rank s + pool_rank s + sum_list_with setter_rank (setters s).

Lemma late_le m t : late m t <= cycle.
Proof. unfold late. destruct (_ && _); lia. Qed.

Lemma bytes_cost l h buf :
  sum_list_with push_cost (PSignal <$> handle_io_signals l h buf) = sum_list_with (byte_cost l h) buf.
Proof.
  induction buf as [|z buf IH]; [by destruct l|].
  assert (handle_io_signals l h (z :: buf)
    = handle_io_signals l h [z] ++ handle_io_signals l h buf) as ->
    by (unfold handle_io_signals; destruct l; simpl; [by destruct (h !! z)|done]).
  rewrite fmap_app, sum_list_with_app, IH. done.
Qed.

Lemma over_due s d lag :
  time_inv s -> at_ (tm s) = Sleeps lag d -> over (clock (tm s)) d = true ->
  existsb (is_due (clock (tm s))) (heap (tm s)) = true.
Proof.
  intros [_ _ _ Ml _] Hat Ho. unfold limit_ok in Ml. rewrite Hat in Ml. destruct d as [d|]; [|done].
  simpl in Ho. apply Z.leb_le in Ho. destruct Ml as (x & Hx & Hw). apply existsb_exists. exists x.
  split; [by apply list_elem_of_In|]. unfold is_due. apply Z.leb_le. lia.
Qed.

(** A poll that returns by itself has something to do. *)
Lemma wakes_rank s lag d :
  time_inv s -> main s = MPoll -> at_ (tm s) = Sleeps lag d ->
  poked (tm s) || edge s || over (clock (tm s)) d = true ->
  rt_rank (returned (ready s) Polled s) < rt_rank s.
Proof.
  intros Hinv Hm Hat Hw. unfold rt_rank, time_rank, signal_rank, pool_rank, ready. simpl.
  rewrite Hm, Hat. simpl. unfold late. simpl. rewrite andb_false_r, andb_true_r.
  destruct (poked (tm s)), (edge s); simpl in *; try lia.
  rewrite (over_due s d lag) by done. unfold cycle. lia.
Qed.

Lemma handle_timers_rank r s s' :
  time_inv s -> main s = MTimers r -> run_step s = Some s' -> rt_rank s' < rt_rank s.
Proof.
  intros [_ Ma _ _ _] Hm Hstep. unfold MainLoop.run_step in Hstep. rewrite Hm in *.
  unfold at_ok in Ma. simpl in Ma. unfold poller_step in Hstep. rewrite Ma in Hstep.
  pose proof (handle_timers_spec (clock (tm s)) (heap (tm s))) as Hspec.
  destruct (handle_timers (clock (tm s)) (heap (tm s))) as [due left]. simplify_eq/=.
  destruct Hspec as (Hp & _ & _ & Hl).
  unfold rt_rank, time_rank, signal_rank, pool_rank, late. simpl. rewrite Hm. simpl.
  assert (forall f : Timer -> nat, sum_list_with f (heap (tm s)) = sum_list_with f due + sum_list_with f left)
    as Hsum by (intros f; by rewrite <- Hp, sum_list_with_app).
  rewrite Hsum. replace (existsb (is_due (clock (tm s))) left) with false.
  - simpl. rewrite andb_false_r.
    replace (sum_list_with push_cost (PTimer <$> due)) with (sum_list_with (fun x => push_cost (PTimer x)) due)
      by (clear; induction due; simpl; auto). lia.
  - symmetry. apply not_true_iff_false. intros (x & Hx & Hd)%existsb_exists.
    rewrite Forall_forall in Hl. apply list_elem_of_In, Hl in Hx. unfold is_due in Hd.
    apply Z.leb_le in Hd. lia.
Qed.

Lemma hand_rank p s :
  sched_rank threads_cb (ws (hand resume notify p s)) = sched_rank threads_cb (ws s) + push_rank threads_cb (push_of p).
Proof.
  unfold sched_rank. simpl. rewrite sum_list_with_app. simpl. destruct (push_of p). simpl. lia.
Qed.

(** A step that keeps the timers, the signals and the workers. *)
Lemma goto_rank m s s' :
  tm s' = tm s -> ws s' = ws s -> signal_rank s' <= signal_rank s -> setters s' = setters s ->
  main s' = m -> dispatching m = dispatching (main s) -> before m = before (main s) ->
  main_rank m (at_ (tm s)) < main_rank (main s) (at_ (tm s)) -> rt_rank s' < rt_rank s.
Proof.
  intros Ht Hw Hsg Hse Hm Hd Hb Hlt. unfold rt_rank, time_rank, pool_rank, late.
  rewrite Ht, Hw, Hse, Hm, Hd, Hb. lia.
Qed.

Lemma handle_event_rank ev l r s :
  main s = MHand [] (ABatch (ev :: l) r) -> rt_rank (handle_event ev (ABatch l r) s) < rt_rank s.
Proof.
  intros Hm. destruct ev as [| |rd wr].
  - eapply goto_rank; simpl; try done; rewrite Hm; simpl; lia.
  - unfold rt_rank, time_rank, signal_rank, pool_rank, late. simpl. rewrite Hm. simpl.
    rewrite bytes_cost.
    pose proof (sum_list_with_app (byte_cost (listening s) (handlers s)) (take buf_len (sock s)) (drop buf_len (sock s))) as Hsum.
    rewrite take_drop in Hsum. lia.
  - eapply goto_rank; simpl; try done; rewrite Hm; simpl; lia.
Qed.

Lemma stop_threads_rank res s s' :
  live s -> main s = MStopThreads res -> run_step s = Some s' -> rt_rank s' < rt_rank s.
Proof.
  intros [Hs _] Hm Hstep. unfold MainLoop.run_step in Hstep. rewrite Hm in Hstep.
  destruct (stop_threads (ws s)) as [w|] eqn:Hst; simplify_eq.
  - assert (sched_step true (ws s) w) as Hsch by (by exists AStop).
    destruct (sched_step_rank threads_cb _ _ _ (inv_n _ _ _ _ _ Hs) Hsch) as [Hlt _].
    unfold rt_rank, time_rank, signal_rank, pool_rank. simpl. rewrite Hm. simpl. lia.
  - eapply goto_rank; simpl; try done; rewrite Hm; simpl; lia.
Qed.

Lemma run_step_rank s s' :
  time_inv s -> pool_inv s -> run_step s = Some s' -> rt_rank s' < rt_rank s.
Proof.
  intros Ht Hp Hstep. pose proof Hstep as Hrun. unfold MainLoop.run_step in Hstep.
  destruct (main s) as [| | | | | |[|p q] k|e q k|r| |res|res|res|res|res|res] eqn:Hm;
    try (repeat case_match; simplify_eq; eapply goto_rank; simpl; try done; rewrite ?Hm; simpl; lia).
  - simplify_eq. unfold rt_rank, time_rank, signal_rank, pool_rank, late. simpl. rewrite Hm. simpl.
    destruct (poked (tm s)), (negb _), (edge s); unfold cycle; lia.
  - simplify_eq. unfold rt_rank, time_rank, signal_rank, pool_rank, late. simpl. rewrite Hm. simpl. lia.
  - simplify_eq. destruct (stopping s); eapply goto_rank; simpl; try done; rewrite Hm; simpl; try lia.
    destruct (at_ (tm s)); lia.
  - destruct (at_ (tm s)) as [|c d|lag d|] eqn:Hat; [| | |done].
    3: case_match; simplify_eq; by eapply wakes_rank.
    all: unfold poller_step in Hstep; rewrite Hat in Hstep; simplify_eq/=;
      unfold rt_rank, time_rank, signal_rank, pool_rank, late; simpl; rewrite Hm, Hat; simpl; lia.
  - destruct k as [[|ev l] r|[]]; simplify_eq;
      try (eapply goto_rank; simpl; try done; rewrite Hm; simpl; lia).
    by apply handle_event_rank.
  - destruct (existsb _ _); simplify_eq. pose proof (hand_rank p s) as Hh.
    unfold rt_rank, time_rank, signal_rank, pool_rank. simpl in *. rewrite Hm. simpl.
    unfold late. simpl. rewrite Hh. unfold push_cost. lia.
  - repeat case_match; simplify_eq; destruct k; eapply goto_rank; simpl; try done; rewrite Hm; simpl; lia.
  - by eapply handle_timers_rank.
  - simplify_eq. eapply goto_rank; simpl; try done; rewrite ?Hm; simpl; try lia.
    unfold signal_rank. simpl. destruct (edge s); lia.
  - eapply stop_threads_rank; [|done..]. apply running_live; by rewrite ?Hm.
Qed.

Lemma sum_list_with_delete {A} (f : A -> nat) (l : list A) i x :
  l !! i = Some x -> sum_list_with f l = f x + sum_list_with f (delete i l).
Proof.
  intros Hi. apply list_elem_of_split_length in Hi as (l1 & l2 & -> & ->).
  rewrite delete_middle, !sum_list_with_app. simpl. lia.
Qed.

Lemma rt_wake_rank s : rt_rank (rt_wake s) <= rt_rank s + cycle.
Proof.
  unfold rt_wake. destruct (waker s); [|lia].
  unfold rt_rank, time_rank, signal_rank, pool_rank, late. simpl. destruct (poked (tm s)); lia.
Qed.

Lemma timer_step_rank i s s' : timer_step i s = Some s' -> rt_rank s' < rt_rank s.
Proof.
  intros Hstep. unfold timer_step, adder_step in Hstep.
  destruct (adders (tm s) !! i) as [[t|]|] eqn:Hi; simplify_eq/=.
  - pose proof (sum_list_with_insert adder_rank _ _ _ Pokes Hi) as Hs. simpl in Hs.
    unfold rt_rank, time_rank, signal_rank, pool_rank. simpl.
    pose proof (late_le (main s) (mkState (clock (tm s)) (t :: heap (tm s)) (poked (tm s))
      (<[i:=Pokes]> (adders (tm s))) (at_ (tm s)) (added (tm s)) (fired (tm s)))).
    unfold cycle in *. lia.
  - pose proof (sum_list_with_delete adder_rank _ _ _ Hi) as Hs. simpl in Hs.
    eapply Nat.le_lt_trans; [apply rt_wake_rank|].
    unfold rt_rank, time_rank, signal_rank, pool_rank, late, cycle. simpl. lia.
Qed.

Lemma set_stopping_rank i s s' : set_stopping_step i s = Some s' -> rt_rank s' < rt_rank s.
Proof.
  intros Hstep. unfold set_stopping_step in Hstep.
  destruct (setters s !! i) as [[b|]|] eqn:Hi; simplify_eq/=.
  - pose proof (sum_list_with_insert setter_rank _ _ _ Wakes Hi) as Hs. simpl in Hs.
    destruct b; unfold rt_rank, time_rank, signal_rank, pool_rank; simpl; lia.
  - pose proof (sum_list_with_delete setter_rank _ _ _ Hi) as Hs. simpl in Hs.
    eapply Nat.le_lt_trans; [apply rt_wake_rank|].
    unfold rt_rank, time_rank, signal_rank, pool_rank, cycle. simpl. lia.
Qed.

Lemma pool_move_rank w s :
  before (main s) = false -> sched_rank threads_cb w < sched_rank threads_cb (ws s) ->
  rt_rank (with_ws w s) < rt_rank s.
Proof.
  intros Hb Hlt. unfold rt_rank, time_rank, signal_rank, pool_rank. simpl. rewrite Hb. lia.
Qed.

Lemma do_move_rank m s s' :
  time_inv s -> pool_inv s -> do_move m s = Some s' -> rt_rank s' < rt_rank s.
Proof.
  intros Ht Hp Hstep. destruct m as [|i|e|i|i]; simpl in Hstep.
  - by eapply run_step_rank.
  - destruct (work_loop i (ws s)) as [w|] eqn:Hw; simplify_eq/=.
    destruct (moving_live s Hp) as (Hb & _ & [Hs _]); [by left; eauto|].
    apply pool_move_rank; [done|]. by eapply work_loop_rank; [apply Hs|].
  - destruct (hand_over e (ws s)) as [w|] eqn:Hw; simplify_eq/=.
    destruct (moving_live s Hp) as (Hb & _ & [Hs _]); [by right; eauto|].
    apply pool_move_rank; [done|]. by eapply hand_over_rank; [apply Hs|].
  - by eapply timer_step_rank.
  - by eapply set_stopping_rank.
Qed.
End Rank.

(** ** Why a loop ends *)

Definition answer_of (m : mainpc) : option answer :=
  match m with
  | MHand _ (ABatch _ r) | MHand _ (AEnd r) | MHanding _ _ (ABatch _ r) | MHanding _ _ (AEnd r)
  | MTimers r => Some r
  | _ => None
  end.
Definition outcome_of (m : mainpc) : option (result unit) :=
  match m with
  | MTeardown r | MStopThreads r | MJoin r | MWakerOff r | MRegistryOff r | MReturned r => Some r
  | _ => None
  end.

Definition caused (r : result unit) (l : list cause) : Prop :=
  match r with Ok _ => CStop ∈ l \/ CInterrupted ∈ l | Err e => CError e ∈ l end.

Record log_inv (s : rt) : Prop := {
  l_stop : stopping s = true -> CStop ∈ log s;
  l_answer : forall e, answer_of (main s) = Some (PollError e) -> CError e ∈ log s;
  l_outcome : forall r, outcome_of (main s) = Some r -> caused r (log s)
}.

Lemma caused_app r l x : caused r l -> caused r (l ++ [x]).
Proof. unfold caused. destruct r; rewrite !elem_of_app; tauto. Qed.

(** The log only grows. *)
Lemma log_grows s s' :
  log_inv s -> main s' = main s -> log s' = log s \/ (exists x, log s' = log s ++ [x]) ->
  (stopping s' = true -> CStop ∈ log s') -> log_inv s'.
Proof.
  intros [Ls La Lo] Hm Hl Hs. split; rewrite ?Hm; [done|..].
  - intros e He. destruct Hl as [->|(x & ->)]; [auto|]. apply elem_of_app. by auto.
  - intros r Hr. destruct Hl as [->|(x & ->)]; [auto|]. apply caused_app. by auto.
Qed.

Lemma run_step_log s s' : log_inv s -> run_step s = Some s' -> log_inv s'.
Proof.
  intros Hinv Hstep. unfold MainLoop.run_step in Hstep. destruct Hinv as [Ls La Lo].
  destruct (main s) as [| | | | | |[|p q] k|e q k|r| |res|res|res|res|res|res] eqn:Hm;
    try (repeat case_match; simplify_eq; split; simpl; rewrite ?Hm; done).
  - simplify_eq. destruct (stopping s) eqn:Hst; split; simpl; try done; rewrite ?Hst; try done.
    intros r [= <-]. left. by apply Ls.
  - repeat case_match; simplify_eq; [| |split; by simpl].
    all: destruct (poller_step (tm s)); simplify_eq/=; split; simpl; by rewrite ?Hm.
  - destruct k as [[|ev l] r|[]]; simplify_eq; try (split; simpl; naive_solver).
    destruct ev; split; simpl; naive_solver.
  - destruct (poller_step (tm s)); simplify_eq/=. split; simpl; naive_solver.
  - destruct (sig_loop_handled s); simplify_eq; split; simpl; try done.
    + intros Hst. apply elem_of_app. by auto.
    + intros r [= <-]. right. apply elem_of_app. right. by left.
Qed.

Lemma returned_log batch r s :
  log_inv s -> main s = MPoll -> (forall e, r = PollError e -> CError e ∈ log s) ->
  log_inv (returned batch r s).
Proof. intros [Ls La Lo] Hm Hr. split; simpl; naive_solver. Qed.

Lemma do_move_log m s s' : log_inv s -> do_move m s = Some s' -> log_inv s'.
Proof.
  intros Hinv Hstep. destruct m as [|i|e|i|i]; simpl in Hstep; [by eapply run_step_log|..].
  - destruct (work_loop i (ws s)); simplify_eq/=. eapply log_grows; [done..|by left|apply Hinv].
  - destruct (hand_over e (ws s)); simplify_eq/=. eapply log_grows; [done..|by left|apply Hinv].
  - unfold timer_step, adder_step, rt_wake in Hstep.
    repeat case_match; simplify_eq/=; (eapply log_grows; [done..|by left|apply Hinv]).
  - unfold set_stopping_step, rt_wake in Hstep.
    repeat case_match; simplify_eq/=; try (eapply log_grows; [done..|by left|apply Hinv]).
    + eapply log_grows; [done..|right; by eexists|]. intros _. simpl. apply elem_of_app. right. by left.
    + by eapply log_grows; [done..|by left|].
Qed.

Lemma do_input_log i s s' : log_inv s -> do_input i s = Some s' -> log_inv s'.
Proof.
  intros Hinv Hstep.
  destruct i as [now|timeout|b|k h|l h|sig|batch|batch|e|e]; simpl in Hstep;
    try (repeat case_match; simplify_eq; eapply log_grows; [done..|by left|apply Hinv]; fail).
  - destruct (scheduled s); [destruct (existsb _ _)|]; simplify_eq;
      (eapply log_grows; [exact Hinv|done|by left|apply Hinv]).
  - destruct (sleeping s) eqn:Hsl; simpl in Hstep; [|done]. case_match; simplify_eq.
    apply returned_log; [done|by apply sleeping_spec|done].
  - destruct (sleeping s) eqn:Hsl; simpl in Hstep; [|done]. case_match; simplify_eq.
    apply returned_log; [done|by apply sleeping_spec|done].
  - destruct (sleeping s) eqn:Hsl; [|done]. simplify_eq. apply returned_log; [|by apply sleeping_spec|].
    + eapply log_grows; [done..|right; by eexists|]. intros Hst. apply elem_of_app. left. by apply Hinv.
    + intros e' [= <-]. apply elem_of_app. right. by left.
  - destruct (main s) eqn:Hm; simplify_eq. destruct Hinv as [Ls La Lo]. split; simpl; try done.
    + intros Hst. apply elem_of_app. auto.
    + intros r [= <-]. apply elem_of_app. right. by left.
Qed.

(** ** The whole runtime *)

Record rt_inv (s : rt) : Prop := {
  i_flags : flags_inv s; i_time : time_inv s; i_pool : pool_inv s; i_log : log_inv s
}.

Lemma rt_new_inv now : rt_inv (rt_new now).
Proof.
  split.
  - split; simpl; try done. unfold buf_len. lia.
  - split; simpl; try done.
    + by apply (timers0_inv now), rtc_refl.
    + intros t []%elem_of_nil.
  - split; simpl; done.
  - by split.
Qed.

Lemma rt_step_inv s s' : rt_inv s -> rt_step threads_cb resume notify s s' -> rt_inv s'.
Proof.
  intros [Hf Ht Hp Hl] [[m Hm]|[i Hi]]; split.
  - by eapply do_move_flags.
  - by eapply do_move_time.
  - by eapply do_move_pool.
  - by eapply do_move_log.
  - by eapply do_input_flags.
  - by eapply do_input_time.
  - by eapply do_input_pool.
  - by eapply do_input_log.
Qed.

Lemma rt_reachable_inv now s :
  rtc (rt_step threads_cb resume notify) (rt_new now) s -> rt_inv s.
Proof.
  apply (rtc_ind_r _ _ (rt_new_inv now)). intros s1 s2 _ Hstep Hinv. by eapply rt_step_inv.
Qed.

Lemma internal_acc s :
  rt_inv s -> Acc (fun s' s => internal threads_cb resume notify s s') s.
Proof.
  remember (rt_rank s) as r eqn:Hr. revert s Hr.
  induction r as [r IH] using lt_wf_ind. intros s -> Hinv. constructor. intros s' Hstep.
  assert (rt_inv s') as Hinv' by (eapply rt_step_inv; [done|by left]).
  destruct Hstep as [m Hm]. eapply IH; [|done|done]. eapply do_move_rank; [apply Hinv..|exact Hm].
Qed.

(** ** At rest *)

Lemma idle_threads s :
  idle threads_cb resume notify s -> adders (tm s) = [] /\ setters s = [].
Proof.
  intros Hidle. split.
  - specialize (Hidle (MvTimer 0)). simpl in Hidle. unfold timer_step, adder_step in Hidle.
    destruct (adders (tm s)) as [|[t|] l]; done.
  - specialize (Hidle (MvSet 0)). simpl in Hidle. unfold set_stopping_step in Hidle.
    destruct (setters s) as [|[b|] l]; done.
Qed.

(** Neither a worker nor a thread that hands over can move. *)
Lemma idle_pool s :
  idle threads_cb resume notify s ->
  (forall i, work_loop i (ws s) = None) /\ (forall e, hand_over e (ws s) = None).
Proof.
  intros Hidle. split; intros i.
  - specialize (Hidle (MvWorker i)). simpl in Hidle. by destruct (work_loop i (ws s)).
  - specialize (Hidle (MvExtern i)). simpl in Hidle. by destruct (hand_over i (ws s)).
Qed.

Lemma idle_inactive w : (forall e, hand_over e w = None) -> existsb eactive (externs w) = false.
Proof.
  intros He. apply not_true_iff_false. intros (x & Hx & Ha)%existsb_exists.
  apply list_elem_of_In, list_elem_of_lookup in Hx as [e Hx]. specialize (He e). unfold hand_over in He.
  rewrite Hx in He. destruct x as [|u|]; try done. by destruct (wake_step u w).
Qed.

Lemma idle_at_rest s :
  pool_inv s -> live s -> idle threads_cb resume notify s -> gone (main s) = false ->
  at_rest true (ws s).
Proof.
  intros Hp [Hs Ht] Hidle Hg. destruct (idle_pool s Hidle) as [Hw He]. intros [i|e| |] Ha; simpl.
  - done.
  - done.
  - unfold next_extern. by rewrite Ht.
  - destruct Ha as [|Hk]; [done|]. pose proof (p_stop _ Hp) as Hst.
    specialize (Hidle MvMain) as Hmain. simpl in Hmain. unfold MainLoop.run_step in Hmain.
    destruct (main s); simpl in Hst; try done.
    + by destruct (stop_threads (ws s)).
    + destruct Hst as (k & Hk' & Hl). unfold stop_threads. rewrite Hk'.
      by rewrite (proj2 (lookup_ge_None _ _) Hl).
Qed.

(** The loop's thread only stops in a poll with nothing to do, or after it has returned. *)
Lemma idle_main s :
  rt_inv s -> idle threads_cb resume notify s ->
  (exists r, main s = MReturned r) \/
  (live s /\ main s = MPoll /\
   exists lag d, at_ (tm s) = Sleeps lag d /\ poked (tm s) = false /\ edge s = false /\
     over (clock (tm s)) d = false).
Proof.
  intros [Hf Ht Hp _] Hidle. pose proof (m_at _ Ht) as Ma. pose proof (p_stop _ Hp) as Hst.
  destruct (idle_pool s Hidle) as [Hw He]. pose proof (idle_inactive _ He) as Hin.
  specialize (Hidle MvMain) as Hmain. simpl in Hmain. unfold MainLoop.run_step in Hmain.
  destruct (main s) as [| | | | | |[|p q] k|e q k|r| |res|res|res|res|res|res] eqn:Hm; try done.
  - right. split; [apply running_live; by rewrite ?Hm|split; [done|]].
    destruct (at_ (tm s)) as [|c d|lag d|] eqn:Hat; try (unfold poller_step in Hmain; by rewrite Hat in Hmain);
      [|by destruct Ma].
    exists lag, d. split; [done|]. destruct (poked (tm s)), (edge s), (over _ d); done.
  - destruct k as [[|]|[]]; done.
  - by rewrite Hin in Hmain.
  - pose proof (p_extern _ Hp _ _ _ Hm) as [x Hx]%lookup_lt_is_Some_2. rewrite Hx in Hmain.
    specialize (He e). unfold hand_over in He. rewrite Hx in He. destruct x as [|u|]; try done.
    by destruct (wake_step u (ws s)).
  - unfold at_ok in Ma. simpl in Ma. unfold poller_step in Hmain. rewrite Ma in Hmain.
    by destruct (handle_timers _ _).
  - by destruct (stop_threads (ws s)).
  - assert (live s) as Hl by (apply running_live; by rewrite ?Hm).
    assert (at_rest true (ws s)) as Hr by (apply idle_at_rest; by rewrite ?Hm).
    destruct Hst as (k & Hk & _). destruct Hl as [Hs _].
    assert (work_stopping (ws s) = true) as Hws by (apply Hs; by rewrite Hk).
    rewrite Hin, andb_true_r in Hmain. replace (forallb exited (workers (ws s))) with true in Hmain; [done|].
    symmetry. apply forallb_forall. intros w Hwin. apply list_elem_of_In, list_elem_of_lookup in Hwin as [i Hi].
    unfold exited. by rewrite (at_rest_exited _ _ _ _ _ Hs Hr Hws Hi).
  - left. by eexists.
Qed.

(** After the workers have left, what was handed over has run or waits for the next run. *)
Lemma gone_kept s :
  pool_inv s -> gone (main s) = true ->
  forallb exited (workers (ws s)) = true /\
  ran (ws s) ++ flat_map ids (injector (ws s)) ≡ₚ handed_ids s.
Proof.
  intros [Ps Pst _] Hg.
  assert (forallb exited (workers (ws s)) = true /\ existsb eactive (externs (ws s)) = false) as [Hx Ha]
    by (by destruct (main s)).
  split; [done|]. assert (before (main s) = false) as Hb by (by destruct (main s)). rewrite Hb in Ps.
  destruct Ps as [[Hs Ht]|[_ (_ & _ & _ & -> & Hq)]]; [|done].
  rewrite <- (inv_ids _ _ _ _ _ Hs). unfold all_ids. rewrite Ht.
  rewrite (flat_map_nil wids), (flat_map_nil eids); [solve_Permutation| |].
  - intros e x He. apply existsb_countb in Ha. destruct (eactive x) eqn:Hact; [|by destruct x].
    pose proof (countb_lookup_pos _ _ _ _ He Hact). lia.
  - intros i w Hi. unfold wids.
    assert (pc w = Exited) as Hpc.
    { rewrite forallb_forall in Hx. specialize (Hx w). unfold exited in Hx.
      destruct (pc w); try done; exfalso; by specialize (Hx (proj1 (list_elem_of_In _ _) (list_elem_of_lookup_2 _ _ _ Hi))). }
    rewrite Hpc, (ok_local _ _ (inv_ok _ _ _ _ _ Hs _ _ Hi)); [done|by rewrite Hpc].
Qed.

(** Every timer that was added has been handed over, or is in the heap. *)
Lemma idle_timers s :
  time_inv s -> adders (tm s) = [] -> queue_of (main s) = [] ->
  added (tm s) ≡ₚ omap timer_of (handed s) ++ heap (tm s).
Proof.
  intros [Mt _ _ _ Mf] Ha Hq. rewrite (t_all _ Mt), Ha, Mf, Hq. simpl. by rewrite !app_nil_r.
Qed.

(** A poll that sleeps on has not missed a timer. *)
Lemma sleeping_timers s lag d t :
  time_inv s -> adders (tm s) = [] -> at_ (tm s) = Sleeps lag d -> poked (tm s) = false ->
  over (clock (tm s)) d = false -> t ∈ heap (tm s) -> clock (tm s) < when t + lag_of (tm s).
Proof.
  intros [Mt _ _ _ _] Ha Hat Hp Ho Hin. destruct (t_awaits _ Mt) as [|[Hk|Hw]]; [congruence| |].
  - rewrite Ha in Hk. by apply elem_of_nil in Hk.
  - rewrite Forall_forall in Hw. specialize (Hw t Hin). unfold awaits in Hw. rewrite Hat in Hw.
    destruct Hw as (x & -> & Hx). simpl in Ho. apply Z.leb_gt in Ho. unfold lag_of. rewrite Hat. lia.
Qed.


(** [_run] returns for a reason: without an error only if [_stopping] was set to true, or a poll was
    interrupted and no signal that has a handler had been read since the flag was last taken; with
    an error only if that error came from a poll or from setting the loop up. *)
Theorem run_returns_for_a_reason now s r :
  rtc (rt_step threads_cb resume notify) (rt_new now) s -> main s = MReturned r -> caused r (log s).
Proof. intros Hinv%rt_reachable_inv Hm. apply (l_outcome _ (i_log _ Hinv)). by rewrite Hm. Qed.
End Loop.

(** ** Examples *)

Definition ex_resume (t : Timer) : handle := Handle (100 + target t) [].
Definition ex_notify (e : nat) : handle := Handle (200 + e) [].
#[local] Abbreviation ex_move := (do_move 1 ex_resume ex_notify).
#[local] Abbreviation ex_play := (play 1 ex_resume ex_notify).

(** Moves, the first that is possible each time, until none is. *)
Fixpoint settle (fuel : nat) (s : rt) : list move :=
  match fuel with
  | O => []
  | S fuel =>
      match List.find (fun m => bool_decide (is_Some (ex_move m s)))
              (MvMain :: MvWorker 0 :: MvTimer 0 :: MvSet 0 :: (MvExtern <$> seq 0 4)) with
      | Some m => m :: match ex_move m s with Some s' => settle fuel s' | None => [] end
      | None => []
      end
  end.

(** Inputs, each followed by all the moves there are. *)
Fixpoint rounds (fuel : nat) (l : list input) (s : rt) : list (move + input) :=
  match l with
  | [] => []
  | i :: l =>
      inr i :: match do_input ex_resume ex_notify i s with
               | Some s =>
                   let ms := inl <$> settle fuel s in
                   ms ++ match ex_play ms s with Some s => rounds fuel l s | None => [] end
               | None => []
               end
  end.

Lemma play_steps l s s' :
  ex_play l s = Some s' -> rtc (rt_step 1 ex_resume ex_notify) s s'.
Proof.
  revert s. induction l as [|[m|i] l IH]; simpl; intros s Hl; [by simplify_eq| |].
  - destruct (ex_move m s) as [q|] eqn:Hm; [|done]. eapply rtc_l; [left; by exists m|by apply IH].
  - destruct (do_input ex_resume ex_notify i s) as [q|] eqn:Hi; [|done].
    eapply rtc_l; [right; by exists i|by apply IH].
Qed.

(** A timer is added and a handle spawned, a signal arrives, the timer comes due, and the loop is
    stopped. *)
Definition ex_inputs : list input :=
  [ISignals true (<[10 := 7%nat]> ∅); IAdd 5; IHand KAdd (Handle 1 []); IArrive 10; IClock 6].
Definition ex_run : list (move + input) := rounds 200 ex_inputs (rt_new 0).
Definition ex_stopped : list (move + input) := rounds 200 (ex_inputs ++ [ISet true]) (rt_new 0).

Definition final (l : list (move + input)) : rt := default (rt_new 0) (ex_play l (rt_new 0)).

Example ex_outcomes :
  (main (final ex_run), ran (ws (final ex_run))) = (MPoll, [1; 207; 100]%nat) /\
  main (final ex_stopped) = MReturned (Ok tt).
Proof. by vm_compute. Qed.

Lemma final_reachable l :
  bool_decide (is_Some (ex_play l (rt_new 0))) = true ->
  rtc (rt_step 1 ex_resume ex_notify) (rt_new 0) (final l).
Proof.
  intros [x Hx]%bool_decide_eq_true. unfold final. rewrite Hx. by eapply play_steps.
Qed.

(** Nothing moves in a state with one worker and few threads, if none of these moves. *)
Lemma idle_bounded s :
  forallb (fun m => negb (bool_decide (is_Some (ex_move m s))))
    (MvMain :: MvWorker 0 :: (MvExtern <$> seq 0 4)) = true ->
  length (workers (ws s)) = 1%nat -> (length (externs (ws s)) <=? 4)%nat = true ->
  adders (tm s) = [] -> setters s = [] -> idle 1 ex_resume ex_notify s.
Proof.
  intros Hall Hw He%Nat.leb_le Ha Hs m. rewrite forallb_forall in Hall.
  assert (forall m, In m (MvMain :: MvWorker 0 :: (MvExtern <$> seq 0 4)) -> ex_move m s = None) as Hno.
  { intros x Hx. specialize (Hall x Hx). apply negb_true_iff, bool_decide_eq_false in Hall.
    by apply eq_None_not_Some. }
  destruct m as [|i|e|i|i].
  - apply Hno. by left.
  - destruct i as [|i]; [apply Hno; right; by left|]. simpl. unfold work_loop.
    rewrite (proj2 (lookup_ge_None _ _)); [done|lia].
  - destruct (decide (e < 4)%nat) as [Hlt|Hge].
    + apply Hno. do 2 right. apply list_elem_of_In, list_elem_of_fmap. exists e. split; [done|].
      apply elem_of_seq. lia.
    + simpl. unfold hand_over. rewrite (proj2 (lookup_ge_None _ _)); [done|lia].
  - simpl. unfold timer_step. by rewrite Ha.
  - simpl. unfold set_stopping_step. by rewrite Hs.
Qed.


Lemma run_returns_for_a_reason_witness : caused (Ok tt) (log (final ex_stopped)).
Proof.
  apply (run_returns_for_a_reason 1 ex_resume ex_notify ltac:(lia) ltac:(lia) 0); [|by vm_compute].
  by apply final_reachable; vm_compute.
Defined.

(** ** An execution that goes wrong

    A signal with a handler that is read by a poll that was not interrupted leaves
    [sig_loop_handled] set, although nothing was interrupted.  A later interruption by a signal that
    no handler takes finds it, and the loop sleeps on instead of returning, as it does when no
    signal came before. *)
Definition interrupted_after (l : list input) : mainpc :=
  main (final (rounds 200 (l ++ [IInterrupt []]) (rt_new 0))).

Lemma interruption_ignored :
  interrupted_after [ISignals true (<[10 := 7%nat]> ∅)] = MReturned (Ok tt) /\
  interrupted_after [ISignals true (<[10 := 7%nat]> ∅); IArrive 10] = MPoll.
Proof. by vm_compute. Qed.
