(* ===== verification/Contexts.v ===== *)
(** * Context variables

    The use of Python's [contextvars] by [src/src/runtime.rs] ([use_pyctx], the [_spawn_*] methods),
    by the handles with a context of [src/src/handles.rs] and by [BlockingTask::run] of
    [src/src/blocking.rs]: a task runs in a copy of the context it was spawned in.

    The code of the tasks is the user's: [G] is the type of the states of generators and [run] what
    one does when a message is given to it, as a tree of its uses of context variables and its
    spawns.  Every such use is a step, so the tasks interleave as they do on threads that run at
    the same time.  A task is a call stack of generators, what handles and suspensions amount to
    ([HandlesSim]).  A scope that is cancelled may part a stack in two; the part it unwinds is the
    wrapper of [Scope.spawn], which uses no variable, and is left out here. *)

From stdpp Require Import base numbers list gmap strings countable.
From Stdlib Require Import ZArith Lia.
From S2P Require Import Prelude Os Handles HandlesSim.

(** Tasks are named by the spawns that lead to them from the main one. *)
Abbreviation path := (list nat).

(** The context objects: of a task, a thrower's copy, a thread's own. *)
Inductive cid := CTask (p : path) | CCopy (p : path) (k : nat) | CThread (t : nat).

#[export] Instance cid_eq_dec : EqDecision cid.
Proof. solve_decision. Defined.
#[export] Instance cid_countable : Countable cid.
Proof.
  refine (inj_countable'
    (fun c => match c with CTask p => inl (inl p) | CCopy p k => inl (inr (p, k)) | CThread t => inr t end)
    (fun c => match c with inl (inl p) => CTask p | inl (inr (p, k)) => CCopy p k | inr t => CThread t end) _).
  by intros [].
Defined.

(** [contextvars.Context]: the values, and for each token made in it whether it was used. *)
Record ctx := mkCtx { c_vars : gmap nat pyobj; c_used : list bool }.

(** [contextvars.Token]. *)
Record token := mkToken { t_ctx : cid; t_var : nat; t_old : option pyobj; t_id : nat }.

(** [PyContext_Copy] and [PyContext_CopyCurrent]. *)
Definition ctx_copy (c : ctx) : ctx := mkCtx (c_vars c) [].

(** [ContextVar.set]. *)
Definition var_set (i : cid) (x : nat) (v : pyobj) (c : ctx) : token * ctx :=
  (mkToken i x (c_vars c !! x) (length (c_used c)), mkCtx (<[x:=v]> (c_vars c)) (c_used c ++ [false])).

(** [ContextVar.reset], of a token that was [used] or not. *)
Definition var_reset (i : cid) (x : nat) (t : token) (used : bool) (c : ctx) : result unit * ctx :=
  if used then (Err (RuntimeError "Token has already been used once"), c)
  else if negb (x =? t_var t) then (Err (ValueError "Token was created by a different ContextVar"), c)
  else if negb (bool_decide (t_ctx t = i)) then (Err (ValueError "Token was created in a different Context"), c)
  else (Ok tt, mkCtx (match t_old t with Some v => <[x:=v]> (c_vars c) | None => delete x (c_vars c) end)
                     (<[t_id t:=true]> (c_used c))).

(** [_spawn_pygen], [_spawn_pyasyncgen], [_spawn_blocking]. *)
Inductive kind := KGen | KAsync | KBlocking.

(** What a generator does until it yields, returns or raises. *)
Inductive act (G : Type) :=
| ADone (o : outcome G)
| AGet (x : nat) (k : option pyobj -> act G)
| ASet (x : nat) (v : pyobj) (k : token -> act G)
| AReset (x : nat) (t : token) (k : result unit -> act G)
| ASpawn (kd : kind) (g : G) (a : act G).
Arguments ADone {G} o.
Arguments AGet {G} x k.
Arguments ASet {G} x v k.
Arguments AReset {G} x t k.
Arguments ASpawn {G} kd g a.

Section Machine.
Context {G : Type} (run : G -> msg -> act G).

(** A task: its generators, the message of its handle if it is in the run queue, and when a thread
    runs it the context it runs in, the message and what is left to do; it has made [ct_kids]
    copies of contexts. *)
Record ctask := mkCTask {
  ct_kind : kind; ct_stack : list G; ct_next : option msg; ct_cur : option (cid * msg * act G);
  ct_kids : nat
}.
Record cstate := mkCState { ctxs : gmap cid ctx; tasks : gmap path ctask }.

Definition ctx_of (i : cid) (m : cstate) : ctx := default (mkCtx ∅ []) (ctxs m !! i).
Definition token_used (t : token) (m : cstate) : bool := default false (c_used (ctx_of (t_ctx t) m) !! t_id t).
Definition set_ctx (i : cid) (c : ctx) (m : cstate) : cstate := mkCState (<[i:=c]> (ctxs m)) (tasks m).
Definition set_task (p : path) (t : ctask) (m : cstate) : cstate := mkCState (ctxs m) (<[p:=t]> (tasks m)).

(** Going on in the same run. *)
Definition goes_on (p : path) (t : ctask) (i : cid) (x : msg) (a : act G) (m : cstate) : cstate :=
  set_task p (mkCTask (ct_kind t) (ct_stack t) (ct_next t) (Some (i, x, a)) (ct_kids t)) m.

(** The new task of a spawn, in a copy of the current context if the runtime uses contexts. *)
Definition spawn (use_pyctx : bool) (p : path) (kd : kind) (g : G) (i : cid) (m : cstate) : cstate :=
  let m := if use_pyctx then set_ctx (CTask p) (ctx_copy (ctx_of i m)) m else m in
  set_task p (mkCTask kd [g] (Some (Send PNone)) None 0) m.

(** The call of a handle: from [PyContext_Enter] on the generator runs in the context of the task.
    [BlockingTask::run] calls its function in the same way. *)
Definition call_ctx (p : path) (t : ctask) (g : G) (x : msg) (m : cstate) : cstate :=
  goes_on p (mkCTask (ct_kind t) (ct_stack t) None None (ct_kids t)) (CTask p) x (run g x) m.

(** The throw of a thrower: in a copy of the context of the task. *)
Definition throw_ctx (p : path) (t : ctask) (g : G) (x : msg) (m : cstate) : cstate :=
  let cctx := CCopy p (ct_kids t) in
  goes_on p (mkCTask (ct_kind t) (ct_stack t) None None (S (ct_kids t))) cctx x (run g x)
    (set_ctx cctx (ctx_copy (ctx_of (CTask p) m)) m).

(** A handle is run; without contexts, in whatever context the thread has. *)
Definition enter (use_pyctx : bool) (thread : nat) (p : path) (t : ctask) (g : G) (x : msg) (m : cstate) : cstate :=
  if use_pyctx then match x with Send _ => call_ctx p t g x m | Throw _ => throw_ctx p t g x m end
  else goes_on p (mkCTask (ct_kind t) (ct_stack t) None None (ct_kids t)) (CThread thread) x (run g x) m.

(** Where the task goes with what its generator answered: the call stack and the next message. *)
Definition leaves (kd : kind) (x : msg) (o : outcome G) (rest : list G) : list G * option msg :=
  match kd with
  | KGen =>
      match o with
      | Yielded YNone g => (g :: rest, Some (again x))
      | Yielded (YGen h) g => (h :: g :: rest, Some (Send PNone))
      | Yielded (YWaiter _) g => (g :: rest, None)
      | Yielded YOther _ => ([], None)
      | Returned v => (rest, match rest with [] => None | _ => Some (Send v) end)
      | Raised e => (rest, match rest with [] => None | _ => Some (Throw e) end)
      end
  | KAsync =>
      match x, o with
      | Send _, Yielded YNone g => ([g], Some (again x))
      | Send _, Yielded (YWaiter _) g => ([g], None)
      | _, _ => ([], None)
      end
  | KBlocking => ([], None)
  end.

(** [PyContext_Exit] and what follows it. *)
Definition exit (p : path) (t : ctask) (x : msg) (o : outcome G) (m : cstate) : cstate :=
  let '(st, nx) := leaves (ct_kind t) x o (tail (ct_stack t)) in
  set_task p (mkCTask (ct_kind t) st nx None (ct_kids t)) m.

(** One step of a task that a thread runs. *)
Definition act_step (use_pyctx : bool) (p : path) (t : ctask) (i : cid) (x : msg) (a : act G) (m : cstate) : cstate :=
  match a with
  | ADone o => exit p t x o m
  | AGet y k => goes_on p t i x (k (c_vars (ctx_of i m) !! y)) m
  | ASet y v k =>
      let '(tok, c) := var_set i y v (ctx_of i m) in goes_on p t i x (k tok) (set_ctx i c m)
  | AReset y tok k =>
      let '(r, c) := var_reset i y tok (token_used tok m) (ctx_of i m) in goes_on p t i x (k r) (set_ctx i c m)
  | ASpawn kd g a =>
      goes_on p (mkCTask (ct_kind t) (ct_stack t) (ct_next t) (ct_cur t) (S (ct_kids t))) i x a
        (spawn use_pyctx (p ++ [ct_kids t]) kd g i m)
  end.

(** A thread makes a step of a task, or something wakes a task that waits. *)
Inductive move := Go (thread : nat) | Wake (x : msg).

Definition ctx_step (use_pyctx : bool) (pm : path * move) (m : cstate) : cstate :=
  let '(p, mv) := pm in
  match tasks m !! p with
  | None => m
  | Some t =>
      match mv, ct_cur t, ct_next t, ct_stack t with
      | Go _, Some (i, x, a), _, _ => act_step use_pyctx p t i x a m
      | Go thread, None, Some x, g :: _ => enter use_pyctx thread p t g x m
      | Wake x, None, None, _ :: _ =>
          set_task p (mkCTask (ct_kind t) (ct_stack t) (Some x) None (ct_kids t)) m
      | _, _, _, _ => m
      end
  end.

Fixpoint ctx_play (use_pyctx : bool) (s : list (path * move)) (m : cstate) : cstate :=
  match s with [] => m | pm :: s => ctx_play use_pyctx s (ctx_step use_pyctx pm m) end.

(** [run] spawns the main coroutine from the main thread. *)
Definition ctx_start (use_pyctx : bool) (kd : kind) (g : G) (vars : gmap nat pyobj) : cstate :=
  spawn use_pyctx [] kd g (CThread 0) (mkCState {[CThread 0 := mkCtx vars []]} ∅).

(** ** Isolation *)

Definition owner (i : cid) : option path :=
  match i with CTask p | CCopy p _ => Some p | CThread _ => None end.

(** The contexts of a task and of those it descends from; and of the threads, which nobody uses. *)
Definition visible (p : path) (i : cid) : Prop :=
  match owner i with Some q => q `prefix_of` p | None => True end.

#[local] Instance visible_dec p i : Decision (visible p i).
Proof. unfold visible. destruct (owner i); apply _. Defined.

(** The step is not the reset of a token that a task made which is no ancestor. *)
Definition tidy_step (pm : path * move) (m : cstate) : bool :=
  match tasks m !! pm.1 with
  | Some (mkCTask _ _ _ (Some (_, _, AReset _ tok _)) _) => bool_decide (visible pm.1 (t_ctx tok))
  | _ => true
  end.
Fixpoint tidy (s : list (path * move)) (m : cstate) : bool :=
  match s with [] => true | pm :: s => tidy_step pm m && tidy s (ctx_step true pm m) end.

(** A task that runs does so in a context of its own. *)
Definition at_home (m : cstate) : Prop :=
  forall p t i x a, tasks m !! p = Some t -> ct_cur t = Some (i, x, a) -> owner i = Some p.

(** Two states that the task and its ancestors cannot tell apart. *)
Record alike (p : path) (m m' : cstate) : Prop := {
  al_tasks : forall q, q `prefix_of` p -> tasks m !! q = tasks m' !! q;
  al_ctxs : forall i, visible p i -> ctxs m !! i = ctxs m' !! i
}.

#[local] Instance alike_equiv p : Equivalence (alike p).
Proof.
  split.
  - by split.
  - intros m m' [H1 H2]. split; intros; [by rewrite H1|by rewrite H2].
  - intros m m' m'' [H1 H2] [H3 H4]. split; intros; [rewrite H1 by done|rewrite H2 by done]; auto.
Qed.

Lemma alike_set_task p q t m m' : alike p m m' -> alike p (set_task q t m) (set_task q t m').
Proof.
  intros [Ht Hc]. split; simpl; [|done]. intros q' Hq.
  destruct (decide (q = q')) as [->|]; [by rewrite !lookup_insert_eq|rewrite !lookup_insert_ne by done; auto].
Qed.

Lemma alike_set_ctx p i c m m' : alike p m m' -> alike p (set_ctx i c m) (set_ctx i c m').
Proof.
  intros [Ht Hc]. split; simpl; [done|]. intros j Hj.
  destruct (decide (i = j)) as [->|]; [by rewrite !lookup_insert_eq|rewrite !lookup_insert_ne by done; auto].
Qed.

Lemma alike_ctx_of p i m m' : alike p m m' -> visible p i -> ctx_of i m = ctx_of i m'.
Proof. intros [_ Hc] Hi. unfold ctx_of. by rewrite Hc. Qed.

Lemma hide_task p q t m : ~ q `prefix_of` p -> alike p (set_task q t m) m.
Proof. intros Hq. split; simpl; [|done]. intros q' Hq'. apply lookup_insert_ne. by intros ->. Qed.

Lemma hide_ctx p i c m : ~ visible p i -> alike p (set_ctx i c m) m.
Proof. intros Hi. split; simpl; [done|]. intros j Hj. apply lookup_insert_ne. by intros ->. Qed.

Lemma prefix_child (p q : path) n : (q ++ [n]) `prefix_of` p -> q `prefix_of` p.
Proof. intros H. etransitivity; [|exact H]. by apply prefix_app_r. Qed.

(** What another task does is not noticed. *)
Lemma step_hidden p q mv m : at_home m -> ~ q `prefix_of` p -> alike p (ctx_step true (q, mv) m) m.
Proof.
  intros Hh Hq. unfold ctx_step. destruct (tasks m !! q) as [t|] eqn:Ht; [|done].
  assert (forall n, ~ (q ++ [n]) `prefix_of` p) as Hn by (intros n ?%prefix_child; done).
  assert (forall t' i x a m1, alike p m1 m -> alike p (goes_on q t' i x a m1) m) as Hgo
    by (intros; etransitivity; [by apply hide_task|done]).
  destruct mv as [th|x]; destruct (ct_cur t) as [[[i x0] a]|] eqn:Hcur; destruct (ct_next t) as [y|];
    destruct (ct_stack t) as [|g st]; try done; try by apply hide_task.
  all: try (destruct y; apply Hgo; try apply hide_ctx; done).
  all: assert (~ visible p i) as Hi by (unfold visible; by rewrite (Hh _ _ _ _ _ Ht Hcur)).
  all: destruct a as [o|z k|z v k|z tok k|kd g' a]; simpl; try (by apply Hgo);
    try (unfold exit; destruct (leaves _ _ _ _); by apply hide_task).
  all: try (destruct (var_reset _ _ _ _ _)); apply Hgo; try by apply hide_ctx.
  all: unfold spawn; etransitivity; [by apply hide_task|apply hide_ctx; exact (Hn _)].
Qed.

(** What the task or an ancestor does is done alike. *)
Lemma step_alike p q mv m m' :
  at_home m -> q `prefix_of` p -> tidy_step (q, mv) m = true ->
  alike p m m' -> alike p (ctx_step true (q, mv) m) (ctx_step true (q, mv) m').
Proof.
  intros Hh Hq Htidy Ha. unfold ctx_step, tidy_step in *. simpl in Htidy.
  rewrite <- (al_tasks _ _ _ Ha q Hq). destruct (tasks m !! q) as [t|] eqn:Ht; [|done].
  assert (forall t' i x a m1 m2, alike p m1 m2 -> alike p (goes_on q t' i x a m1) (goes_on q t' i x a m2)) as Hgo
    by (intros; by apply alike_set_task).
  destruct mv as [th|x]; destruct (ct_cur t) as [[[i x0] a]|] eqn:Hcur; destruct (ct_next t) as [y|] eqn:Hnx;
    destruct (ct_stack t) as [|g st] eqn:Hst; try done; try by apply alike_set_task.
  all: try (destruct y; unfold enter, call_ctx, throw_ctx; simpl; rewrite ?(alike_ctx_of p (CTask q) m m') by done;
    apply Hgo; try apply alike_set_ctx; done).
  all: assert (visible p i) as Hi by (unfold visible; by rewrite (Hh _ _ _ _ _ Ht Hcur)).
  all: destruct a as [o|z k|z v k|z tok k|kd g' a]; simpl; unfold exit, spawn;
    rewrite ?(alike_ctx_of p i m m') by done.
  all: try (destruct (leaves _ _ _ _); by apply alike_set_task).
  all: try (by apply Hgo); try (by apply Hgo, alike_set_ctx).
  all: try (by apply Hgo, alike_set_task, alike_set_ctx).
  all: assert (token_used tok m = token_used tok m') as ->
    by (destruct t; simpl in *; subst; unfold token_used; f_equal; f_equal; f_equal;
        apply bool_decide_eq_true in Htidy; apply (alike_ctx_of p); [done|];
        unfold visible in *; destruct (owner _); [by etransitivity|done]).
  all: destruct (var_reset _ _ _ _ _); by apply Hgo, alike_set_ctx.
Qed.

Lemma at_home_set_task p t m :
  at_home m -> (forall i x a, ct_cur t = Some (i, x, a) -> owner i = Some p) -> at_home (set_task p t m).
Proof.
  intros Hh Ht q t' i x a. simpl. destruct (decide (p = q)) as [->|]; [rewrite lookup_insert_eq; naive_solver|].
  rewrite lookup_insert_ne by done. apply Hh.
Qed.

Lemma at_home_step pm m : at_home m -> at_home (ctx_step true pm m).
Proof.
  intros Hh. destruct pm as [p mv]. unfold ctx_step. destruct (tasks m !! p) as [t|] eqn:Ht; [|done].
  assert (forall i c m1, at_home m1 -> at_home (set_ctx i c m1)) as Hctx by done.
  assert (forall t' i x a m1, at_home m1 -> owner i = Some p -> at_home (goes_on p t' i x a m1)) as Hgo
    by (intros; apply at_home_set_task; [done|simpl; naive_solver]).
  destruct mv as [th|x]; destruct (ct_cur t) as [[[i x0] a]|] eqn:Hcur; destruct (ct_next t) as [y|];
    destruct (ct_stack t) as [|g st]; try done; try by apply at_home_set_task.
  all: try (destruct y; apply Hgo; try apply Hctx; done).
  all: pose proof (Hh _ _ _ _ _ Ht Hcur) as Hi.
  all: destruct a as [o|z k|z v k|z tok k|kd g' a]; simpl; unfold exit, spawn.
  all: try (destruct (leaves _ _ _ _); by apply at_home_set_task).
  all: try (destruct (var_reset _ _ _ _ _)); apply Hgo; try apply at_home_set_task; try apply Hctx; done.
Qed.

Lemma at_home_start kd g vars : at_home (ctx_start true kd g vars).
Proof. apply at_home_set_task; [|done]. intros q t i x a. simpl. by rewrite lookup_empty. Qed.

Lemma play_alike p s m m' :
  at_home m -> tidy s m = true -> alike p m m' ->
  alike p (ctx_play true s m) (ctx_play true (filter (fun pm => pm.1 `prefix_of` p) s) m').
Proof.
  revert m m'. induction s as [|[q mv] s IH]; intros m m' Hh Ht Ha; [done|].
  apply andb_true_iff in Ht as [Ht1 Ht2]. rewrite filter_cons. simpl ctx_play at 1.
  pose proof (at_home_step (q, mv) m Hh) as Hh'. case_decide as Hq; simpl in Hq; simpl ctx_play.
  - apply IH; [done..|]. by apply step_alike.
  - apply IH; [done..|]. etransitivity; [by apply step_hidden|done].
Qed.

(** The changes a task makes while it handles an exception are not made in its context. *)
Lemma throw_apart p k t x a m :
  ctxs (act_step true p t (CCopy p k) x a m) !! CTask p = ctxs m !! CTask p.
Proof.
  destruct a as [o|z kk|z v kk|z tok kk|kd g' a]; simpl; unfold exit, spawn; try done.
  - by destruct (leaves _ _ _ _).
  - by rewrite lookup_insert_ne.
  - destruct (var_reset _ _ _ _ _). simpl. by rewrite lookup_insert_ne.
  - rewrite lookup_insert_ne; [done|]. intros [= Hp]. apply (f_equal length) in Hp.
    rewrite length_app in Hp. simpl in Hp. lia.
Qed.

(** [C12] With [context=True] the context variables of a task are its own: whatever the other tasks
    and blocking calls do and however the threads interleave them, what a task has seen and done,
    and the values its context holds, are what they would be if only the task itself and the tasks
    it descends from had run; those it inherits from up to the spawn.  (No task resets a token that
    a task made which is not an ancestor.) *)
Theorem contexts_isolated kd g vars s p :
  tidy s (ctx_start true kd g vars) = true ->
  let m := ctx_play true s (ctx_start true kd g vars) in
  let alone := ctx_play true (filter (fun pm => pm.1 `prefix_of` p) s) (ctx_start true kd g vars) in
  tasks m !! p = tasks alone !! p /\ ctxs m !! CTask p = ctxs alone !! CTask p.
Proof.
  intros Ht m alone. pose proof (play_alike p s _ _ (at_home_start kd g vars) Ht (reflexivity _)) as [H1 H2].
  split; [by apply H1|apply H2; exact (reflexivity p)].
Qed.
End Machine.
Arguments cstate G : clear implicits.
Arguments ctask G : clear implicits.

(** ** The test of [tests/test_context.py] *)

Module ContextDemo.
(** [_run] and [_step(i)] before and after the [yield]. *)
Inductive gen := Main | MainEnd | Step (i : Z) | Step2 (bef : option pyobj) (tok : token).

Definition shown (o : option pyobj) : pyobj := default PNone o.

Definition run (g : gen) (x : msg) : act gen :=
  match g with
  | Main => ASet 0 (PStr "empty") (fun _ =>
      ASpawn KGen (Step 1) (ASpawn KGen (Step 2) (ADone (Yielded (YWaiter 0) MainEnd))))
  | MainEnd => ADone (Returned PNone)
  | Step i => AGet 0 (fun bef => ASet 0 (PInt i) (fun tok => ADone (Yielded YNone (Step2 bef tok))))
  | Step2 bef tok =>
      AGet 0 (fun res => AReset 0 tok (fun _ => AGet 0 (fun aft =>
        ADone (Returned (PList [shown bef; shown res; shown aft])))))
  end.

(** The two steps on two threads, a use of the variable by turns. *)
Definition demo_sched : list (path * move) :=
  replicate 5 ([], Go 0) ++ concat (replicate 8 [([0], Go 0); ([1], Go 1)]).

Definition sees (m : cstate gen) (p : path) : option pyobj :=
  match tasks m !! p with
  | Some t => match ct_cur t with Some (_, _, ADone (Returned v)) => Some v | _ => None end
  | None => None
  end.

Definition final (use_pyctx : bool) : cstate gen :=
  ctx_play run use_pyctx demo_sched (ctx_start use_pyctx KGen Main ∅).

(** Each sees the inherited value, its own, and the inherited one again; the first as if the second
    had not been there. *)
Lemma contexts_isolated_witness :
  sees (final true) [0] = Some (PList [PStr "empty"; PInt 1; PStr "empty"]) /\
  sees (final true) [1] = Some (PList [PStr "empty"; PInt 2; PStr "empty"]) /\
  tasks (final true) !! [0] = tasks (ctx_play run true
    (filter (fun pm => pm.1 `prefix_of` [0]) demo_sched) (ctx_start true KGen Main ∅)) !! [0].
Proof.
  split_and!; [by vm_compute..|]. eapply (contexts_isolated run KGen Main ∅ demo_sched [0]). by vm_compute.
Defined.
End ContextDemo.

(** ** Exceptions *)

Module ThrowDemo.
(** A generator that sets the variable, calls one that raises, and resets it in [finally]; and one
    that sets it while it handles the exception and reads it in its next step. *)
Inductive gen := Parent (resets : bool) | Handler (tok : token) | Setter | Reader | Child.

Definition run (g : gen) (x : msg) : act gen :=
  match g, x with
  | Parent resets, _ => ASet 0 (PInt 1) (fun tok =>
      ADone (Yielded (YGen Child) (if resets then Handler tok else Setter)))
  | Child, _ => ADone (Raised (UserError 7))
  | Handler tok, Throw e =>
      AReset 0 tok (fun r => ADone (Raised (match r with Ok _ => e | Err e' => e' end)))
  | Handler tok, Send v => AReset 0 tok (fun _ => ADone (Returned v))
  | Setter, Throw _ => ASet 0 (PInt 2) (fun _ => ADone (Yielded YNone Reader))
  | Setter, Send v => ADone (Returned v)
  | Reader, _ => AGet 0 (fun v => ADone (Returned (default PNone v)))
  end.

(** How the main task ends, on one thread. *)
Definition ends (use_pyctx : bool) (n : nat) (g : gen) : option (outcome gen) :=
  match tasks (ctx_play run use_pyctx (replicate n ([], Go 0)) (ctx_start use_pyctx KGen g ∅)) !! [] with
  | Some t => match ct_cur t with Some (_, _, ADone o) => Some o | _ => None end
  | None => None
  end.

(** A generator that resets a variable in [finally] raises [ValueError] in the place of the
    exception that comes out of a generator it called, as the [finally] runs in a copy of the
    context; without contexts the exception passes. *)
Lemma reset_after_throw_fails :
  ends true 7 (Parent true) = Some (Raised (ValueError "Token was created in a different Context")) /\
  ends false 7 (Parent true) = Some (Raised (UserError 7)).
Proof. by vm_compute. Qed.

(** What a generator sets while it handles an exception is gone in its next step. *)
Lemma set_after_throw_lost :
  ends true 10 (Parent false) = Some (Returned (PInt 1)) /\
  ends false 10 (Parent false) = Some (Returned (PInt 2)).
Proof. by vm_compute. Qed.
End ThrowDemo.
