(* ===== verification/Dispatch.v ===== *)
(** * Coroutines on the worker threads

    The composition of [Workers] and [Handles]: the handles the workers find, steal and run are those
    of generators, and what a handle hands over when it runs is decided by its generator and by the
    suspensions ([work_loop] of [src/src/work.rs] with [Handle::run] of [src/src/handles.rs]).
    While it runs, a generator may set events, abort the children of scopes and spawn; other threads
    may do so at any time.  A handle is known to the workers by its number in the log of all handles
    made. *)

From stdpp Require Import base numbers list strings relations.
From Stdlib Require Import ZArith Lia.
From S2P Require Import Prelude Os Workers WorkersProps Handles HandlesSim HandlesProps.

#[local] Set Warnings "-clear-no-such-hyp".
Open Scope nat_scope.

Section Dispatch.
Context {G : Type} (run : G -> msg -> outcome G).

(** What a thread does to the suspensions without running a handle: an event or timer wakes one, a
    scope aborts a checkpoint, a coroutine is spawned, a waiter is made. *)
Inductive eff := EfWake (sid : nat) (v : pyobj) | EfAbort (w : nat) | EfSpawn (g : G) (ctx : option nat) | EfWaiter (n : nat).

Definition do_eff (e : eff) (m : machine G) : machine G :=
  match e with
  | EfWake sid v => if bool_decide (sid ∈ wakers m) then resume sid v m else m
  | EfAbort w => abort_pygen w m
  | EfSpawn g ctx =>
      add_handle (mkHandle None (length (coros m)) ctx (Send PNone)) (with_coros (coros m ++ [g]) m)
  | EfWaiter n => with_waiters (waiters m ++ [mkWaiter false false n None]) m
  end.
Fixpoint do_effs (l : list eff) (m : machine G) : machine G :=
  match l with [] => m | e :: l => do_effs l (do_eff e m) end.

(** The workers, the suspensions and all handles ever made. *)
Record dstate := mkD { d_sched : sched; d_mach : machine G; d_log : list Handles.handle }.

Definition d_new (n : nat) : dstate := mkD (sched_new n []) machine0 [].

(** [defer_handle] after a bare [yield], [add_handle] otherwise. *)
Definition call_kind (k : nat) (m : machine G) : kind :=
  match runq m !! k with
  | Some h =>
      match coros m !! h_coro h with
      | Some g => match run g (h_msg h) with Yielded YNone _ => KDefer | _ => KAdd end
      | None => KAdd
      end
  | None => KAdd
  end.

(** The handles of the log from [n] on, as the workers know them. *)
Definition numbered (n : nat) (ks : list kind) : list (kind * Workers.handle) :=
  zip_with (fun k id => (k, Handle id [])) ks (seq n (length ks)).

(** Worker [i] starts the handle [h], which does [effs] and then what [call] says. *)
Definition run_handle (i : nat) (w : worker) (h : Workers.handle) (effs : list eff) (d : dstate) : option dstate :=
  match d_log d !! hid h with
  | None => None
  | Some x =>
      let m1 := do_effs effs (d_mach d) in
      match list_find (fun y => h_coro y = h_coro x) (runq m1) with
      | None => None
      | Some (k, _) =>
          match call run k m1 with
          | None => None
          | Some m2 =>
              let n1 := drop (length (runq (d_mach d))) (runq m1) in
              let n2 := drop (pred (length (runq m1))) (runq m2) in
              let ops := numbered (length (d_log d)) (map (fun _ => KAdd) n1 ++ map (fun _ => call_kind k m1) n2) in
              let s := upd i (set_pc (Running (JStart (Handle (hid h) ops))) w) (d_sched d) in
              match work_loop i s with
              | Some s' => Some (mkD s' m2 (d_log d ++ n1 ++ n2))
              | None => None
              end
          end
      end
  end.

(** A worker moves; it starts a handle as above, and all else is as in [Workers]. *)
Definition worker_step (i : nat) (effs : list eff) (d : dstate) : option dstate :=
  match workers (d_sched d) !! i with
  | None => None
  | Some w =>
      match pc w with
      | Running (JStart h) => run_handle i w h effs d
      | _ => match work_loop i (d_sched d) with Some s => Some (mkD s (d_mach d) (d_log d)) | None => None end
      end
  end.

(** Another thread does something to the suspensions, and starts to hand over the handle this
    makes; one thread at a time, under the global lock. *)
Definition outside (k : kind) (e : eff) (d : dstate) : option dstate :=
  let m := do_eff e (d_mach d) in
  match drop (length (runq (d_mach d))) (runq m) with
  | [] => Some (mkD (d_sched d) m (d_log d))
  | [x] =>
      match next_extern true (with_todo [(k, Handle (length (d_log d)) [])] (d_sched d)) with
      | Some s => Some (mkD s m (d_log d ++ [x]))
      | None => None
      end
  | _ => None
  end.

Inductive dact := DWorker (i : nat) (effs : list eff) | DExtern (e : nat) | DOutside (k : kind) (e : eff) | DStop.

Definition do_dact (a : dact) (d : dstate) : option dstate :=
  let lift o := match o with Some s => Some (mkD s (d_mach d) (d_log d)) | None => None end in
  match a with
  | DWorker i effs => worker_step i effs d
  | DExtern e => lift (hand_over e (d_sched d))
  | DOutside k e => outside k e d
  | DStop => lift (stop_threads (d_sched d))
  end.

Fixpoint do_dacts (l : list dact) (d : dstate) : option dstate :=
  match l with [] => Some d | a :: l => match do_dact a d with Some d' => do_dacts l d' | None => None end end.

(** ** What the suspensions add to the queue *)

(** At most one handle. *)
Definition grows (q q' : list Handles.handle) : Prop := exists new, q' = q ++ new /\ length new <= 1.

Lemma grows_refl q : grows q q.
Proof. exists []. rewrite app_nil_r. simpl. split; [done|lia]. Qed.

Lemma grows_one q x : grows q (q ++ [x]).
Proof. exists [x]. simpl. split; [done|lia]. Qed.

Lemma resume_grows sid v (m : machine G) : grows (runq m) (runq (resume sid v m)).
Proof.
  unfold resume. repeat case_match; try apply grows_refl; rewrite to_handle_runq; apply grows_one.
Qed.

Lemma error_grows sid e (m : machine G) : grows (runq m) (runq (error sid e m)).
Proof.
  unfold error. repeat case_match; try apply grows_refl; rewrite to_handle_runq; apply grows_one.
Qed.

(** What follows a handle or a waiter is an end, or one of these. *)
Ltac grow :=
  solve [apply grows_refl | apply grows_one
    | match goal with
      | |- grows _ (runq (error ?s ?e ?x)) => exact (error_grows s e x)
      | |- grows _ (runq (resume ?s ?e ?x)) => exact (resume_grows s e x)
      end].

Lemma abort_grows w (m : machine G) : grows (runq m) (runq (abort_pygen w m)).
Proof. unfold abort_pygen. repeat case_match; grow. Qed.

Lemma do_eff_grows e m : grows (runq m) (runq (do_eff e m)).
Proof.
  destruct e as [sid v|w|g ctx|n]; simpl; [|apply abort_grows|apply grows_one|apply grows_refl].
  case_bool_decide; [apply resume_grows|apply grows_refl].
Qed.

Lemma do_eff_steps e m : rtc (mstep run) m (do_eff e m).
Proof.
  destruct e as [sid v|w|g ctx|n]; simpl; [|apply rtc_once; by constructor..].
  case_bool_decide; [apply rtc_once; by constructor|done].
Qed.

Lemma do_effs_steps l m : rtc (mstep run) m (do_effs l m).
Proof.
  revert m. induction l as [|e l IH]; intros m; simpl; [done|].
  etransitivity; [apply do_eff_steps|apply IH].
Qed.

Lemma do_effs_runq l m : exists new, runq (do_effs l m) = runq m ++ new.
Proof.
  revert m. induction l as [|e l IH]; intros m; simpl; [exists []; by rewrite app_nil_r|].
  destruct (do_eff_grows e m) as (n1 & Hn1 & _), (IH (do_eff e m)) as [n2 Hn2].
  exists (n1 ++ n2). by rewrite Hn2, Hn1, app_assoc.
Qed.

Lemma register_grows w coro ctx parent (m m' : machine G) :
  register_pygen w coro ctx parent m = Some m' -> grows (runq m) (runq m').
Proof. unfold register_pygen. intros Hr. repeat case_match; simplify_eq; grow. Qed.

Lemma from_handle_runq coro ctx parent (m : machine G) : runq (from_handle coro ctx parent m) = runq m.
Proof. unfold from_handle. by repeat case_match. Qed.

Lemma call_grows k (m m' : machine G) : call run k m = Some m' -> grows (delete k (runq m)) (runq m').
Proof.
  unfold call. intros Hc. repeat case_match; simplify_eq; try grow.
  - match goal with |- grows _ (runq (add_handle ?x (with_coros _ ?y))) =>
      change (grows (delete k (runq m)) (runq y ++ [x])) end.
    rewrite from_handle_runq. apply grows_one.
  - match goal with H : register_pygen _ _ _ _ _ = Some _ |- _ => exact (register_grows _ _ _ _ _ _ H) end.
Qed.

(** ** The handles the workers have *)

(** The numbers of those that have not run. *)
Definition live_ids (s : sched) : list nat :=
  flat_map eids (externs s) ++ flat_map ids (injector s) ++ flat_map wids (workers s).

Definition leaf (h : Workers.handle) : Prop := script h = [].
Definition leaf_job (k : job) : Prop :=
  match k with JStart h => leaf h | JMore ops => Forall (fun kh => leaf (snd kh)) ops end.
Definition leaf_pc (c : wpc) : Prop :=
  match c with
  | Release h | ClearFound h | ClearFoundCount h | Absorb h => leaf h
  | Waking _ k | Running k => leaf_job k
  | _ => True
  end.
Record leaf_worker (w : worker) : Prop := { lw_pc : leaf_pc (pc w); lw_local : Forall leaf (local w) }.

(** No handle brings a script of its own. *)
Record leaves (s : sched) : Prop := {
  lv_workers : forall i w, workers s !! i = Some w -> leaf_worker w;
  lv_injector : Forall leaf (injector s);
  lv_externs : forall e k h, externs s !! e = Some (EPush k h) -> leaf h
}.

Lemma leaves_upd i w s : leaves s -> leaf_worker w -> leaves (upd i w s).
Proof.
  intros [Hw Hi He] Hl. split; simpl; [|done..]. intros j v Hj.
  apply list_lookup_insert_Some in Hj as [(_ & <- & _)|[_ Hj]]; [done|by eapply Hw].
Qed.

Lemma leaves_injector q s : leaves s -> Forall leaf q -> leaves (with_injector q s).
Proof. intros [Hw Hi He] Hl. by split. Qed.

Lemma leaves_counters x y r s : leaves s -> leaves (with_ran r (with_idle x (with_speculation y s))).
Proof. intros [Hw Hi He]. by split. Qed.

Lemma leaf_worker_pc c w : leaf_worker w -> leaf_pc c -> leaf_worker (set_pc c w).
Proof. intros [Hp Hl] Hc. by split. Qed.

Lemma leaf_found again w h : leaf h -> leaf_pc (found again w h).
Proof. intros Hh. unfold found, started. by destruct again, (spec w). Qed.

Lemma leaf_started w h : leaf h -> leaf_pc (started w h).
Proof. intros Hh. unfold started. by destruct (spec w). Qed.

Lemma leaf_leave w : leaf_pc (leave w).
Proof. unfold leave. by destruct (spec w). Qed.

Lemma wake_leaves u s s' r : leaves s -> wake_step u s = (s', r) -> leaves s' /\ ran s' = ran s /\ todo s' = todo s.
Proof.
  intros Hl Hu. destruct u as [fo|[]|j|j|j|]; simpl in Hu; repeat case_match; simplify_eq;
    (split; [|done]); try done; try (by apply (leaves_counters (idle_count s) (speculation s) (ran s) s) in Hl);
    try (by destruct Hl; split).
  all: apply leaves_upd; [done|]; destruct (lv_workers _ Hl _ _ ltac:(eassumption)); by split.
Qed.

Definition starts (c : wpc) : bool := match c with Running (JStart _) => true | _ => false end.

Lemma work_loop_leaves i w s s' :
  leaves s -> workers s !! i = Some w -> starts (pc w) = false -> work_loop i s = Some s' ->
  leaves s' /\ ran s' = ran s /\ todo s' = todo s.
Proof.
  intros Hl Hi Hns Hstep. pose proof (lv_workers _ Hl _ _ Hi) as Hw. pose proof Hw as [Hp Hloc].
  pose proof (lv_injector _ Hl) as Hinj.
  assert (forall b c f t l, leaf_pc c -> Forall leaf l -> leaf_worker (mkW c b f t l)) as HmkW by (by split).
  pose proof (leaf_found) as Hfound. pose proof (leaf_started w) as Hstart. pose proof (leaf_leave w) as Hleave.
  unfold work_loop in Hstep. rewrite Hi in Hstep.
  destruct (pc w) as [again|again|again j|h|u k|k| | | |h|h|h| | | | | | |cl| | | |] eqn:Hpc; simpl in Hp, Hns;
    try (repeat case_match; simplify_eq; (split; [|done]);
         try (apply leaves_upd; [by destruct Hl|apply HmkW; simpl; auto; by repeat case_match]); fail).
  - destruct (local w) as [|h l] eqn:Hlo; simplify_eq; (split; [|done]); (apply leaves_upd; [done|]).
    + by apply leaf_worker_pc.
    + apply Forall_cons in Hloc as [Hh Hloc]. by apply HmkW; [apply Hfound|].
  - destruct (injector s) as [|h q] eqn:Hq; simplify_eq; (split; [|done]).
    + apply leaves_upd; [done|by apply leaf_worker_pc].
    + apply Forall_cons in Hinj as [Hh Hinj]. apply leaves_upd; [by apply leaves_injector|].
      by apply leaf_worker_pc; [|apply Hfound].
  - destruct (workers s !! j) as [v|] eqn:Hj; [destruct (decide _); [|destruct (steal _) as [[h l]|] eqn:Hst]|];
      simplify_eq; (split; [|done]);
      try (apply leaves_upd; [done|apply leaf_worker_pc; [done|by destruct again]]).
    destruct (lv_workers _ Hl _ _ Hj) as [Hvp Hvl]. rewrite (steal_spec _ _ _ Hst) in Hvl.
    apply Forall_app in Hvl as [Hvl [Hh _]%Forall_cons].
    apply leaves_upd; [apply leaves_upd; [done|by apply HmkW]|]. by apply leaf_worker_pc; [|apply Hfound].
  - simplify_eq. unfold resume_waking. destruct (wake_step u s) as [s1 r] eqn:Hu.
    destruct (wake_leaves _ _ _ _ Hl Hu) as (Hl1 & Hr1 & Ht1). destruct (workers s1 !! i) as [w1|] eqn:Hi1; [|done].
    split; [|done]. apply leaves_upd; [done|]. apply leaf_worker_pc; [by eapply lv_workers|by destruct r].
  - destruct k as [h|[|[kd h] ops]]; [done|simplify_eq; split; [|done]; apply leaves_upd; [done|by apply leaf_worker_pc]|].
    simpl in Hp. apply Forall_cons in Hp as [Hh Hops].
    destruct kd; simplify_eq; (split; [|done]); apply leaves_upd; try apply leaves_injector; try done.
    all: try (apply Forall_app; by split; [|constructor]); try (by apply leaf_worker_pc).
    apply HmkW; [done|by constructor].
  - destruct (injector s) as [|h q] eqn:Hq; simplify_eq; (split; [|done]).
    + apply leaves_upd; [done|by apply leaf_worker_pc].
    + apply Forall_cons in Hinj as [Hh Hinj]. apply leaves_upd; [by apply leaves_injector|by apply leaf_worker_pc].
Qed.

Lemma hand_over_leaves e s s' :
  leaves s -> hand_over e s = Some s' -> leaves s' /\ ran s' = ran s /\ todo s' = todo s.
Proof.
  intros Hl Hs. unfold hand_over in Hs.
  assert (forall x s1, leaves s1 -> (forall k h, x <> EPush k h) -> leaves (with_externs (<[e:=x]> (externs s1)) s1)) as Hx.
  { intros x s1 [Hw Hi He] Hx. split; simpl; [done..|]. intros e' k h Hk.
    apply list_lookup_insert_Some in Hk as [(_ & -> & _)|[_ Hk]]; [by destruct (Hx k h)|by eapply He]. }
  destruct (externs s !! e) as [[k h|u|]|] eqn:He; try done.
  - simplify_eq. split; [|done]. apply (Hx _ (with_injector (injector s ++ [h]) s)); [|done].
    apply leaves_injector; [done|]. apply Forall_app. split; [apply Hl|]. constructor; [by eapply lv_externs|done].
  - destruct (wake_step u s) as [s1 r] eqn:Hu. simplify_eq.
    destruct (wake_leaves _ _ _ _ Hl Hu) as (Hl1 & Hr1 & Ht1). split; [|done]. apply Hx; [done|by destruct r].
Qed.

Lemma stop_leaves s s' : leaves s -> stop_threads s = Some s' -> leaves s' /\ ran s' = ran s /\ todo s' = todo s.
Proof.
  intros Hl Hs. unfold stop_threads in Hs. repeat case_match; simplify_eq; (split; [|done]); [by destruct Hl|].
  assert (forall x s1, leaves s1 -> leaves (with_stop true x s1)) as Hx by (intros x s1 []; by split).
  apply Hx, leaves_upd; [done|]. destruct (lv_workers _ Hl _ _ ltac:(eassumption)). by split.
Qed.

(** ** The invariant of the composition *)

Record dinv (n : nat) (d : dstate) : Prop := {
  di_sched : sched_inv n (seq 0 (length (d_log d))) 0 0 (d_sched d);
  di_leaves : leaves (d_sched d);
  di_todo : todo (d_sched d) = [];
  di_reach : rtc (mstep run) machine0 (d_mach d);
  di_queue : map (fun id => d_log d !! id) (live_ids (d_sched d)) ≡ₚ map Some (runq (d_mach d))
}.

Lemma live_perm n all s : sched_inv n all 0 0 s -> todo s = [] -> live_ids s ++ ran s ≡ₚ all.
Proof.
  intros Hinv Ht. rewrite <- (inv_ids _ _ _ _ _ Hinv). unfold all_ids, live_ids. rewrite Ht. simpl.
  by rewrite <- !app_assoc.
Qed.

Lemma d_new_inv n : dinv n (d_new n).
Proof.
  split; simpl; try done.
  - apply (sched_new_inv n []).
  - split; simpl; [|constructor|by intros e k h]. by intros i w (-> & _)%lookup_replicate.
  - assert (live_ids (sched_new n []) = []) as ->; [|done].
    pose proof (live_perm _ _ _ (sched_new_inv n []) eq_refl) as Hp. symmetry in Hp.
    apply Permutation_nil_l in Hp. symmetry in Hp. by apply app_nil in Hp as [].
Qed.

(** A move of the workers that starts no handle. *)
Lemma dinv_quiet n d s' :
  dinv n d -> sched_inv n (seq 0 (length (d_log d))) 0 0 s' ->
  leaves s' /\ ran s' = ran (d_sched d) /\ todo s' = todo (d_sched d) -> dinv n (mkD s' (d_mach d) (d_log d)).
Proof.
  intros [Is Il It Ir Iq] Hs (Hl & Hr & Ht). rewrite It in Ht. split; simpl; try done.
  rewrite <- Iq. apply Permutation_map. apply (Permutation_app_inv_r (ran s')).
  rewrite (live_perm _ _ _ Hs Ht), Hr. symmetry. by apply live_perm with n.
Qed.

(** New handles are numbered from the end of the log. *)
Lemma numbered_ids n ks : ops_ids (numbered n ks) = seq n (length ks).
Proof.
  unfold numbered, ops_ids. revert n. induction ks as [|k ks IH]; intros n; simpl; [done|]. by rewrite IH.
Qed.

Lemma numbered_leaves n ks : Forall (fun kh => leaf (snd kh)) (numbered n ks).
Proof.
  unfold numbered. revert n. induction ks as [|k ks IH]; intros n; simpl; constructor; [done|apply IH].
Qed.

(** The log at the numbers of live handles, and at new ones. *)
Lemma log_old n d new :
  dinv n d -> map (fun id => (d_log d ++ new) !! id) (live_ids (d_sched d)) = map (fun id => d_log d !! id) (live_ids (d_sched d)).
Proof.
  intros Hd. apply map_ext_in. intros id Hid%list_elem_of_In. apply lookup_app_l.
  assert (id ∈ seq 0 (length (d_log d))) as Hs.
  { rewrite <- (live_perm _ _ _ (di_sched _ _ Hd) (di_todo _ _ Hd)). apply elem_of_app. by left. }
  apply elem_of_seq in Hs. lia.
Qed.

Lemma log_new {A} (l new : list A) : map (fun id => (l ++ new) !! id) (seq (length l) (length new)) = map Some new.
Proof.
  apply list_eq. intros k. rewrite !list_lookup_fmap. destruct (decide (k < length new)) as [Hk|Hk].
  - rewrite lookup_seq_lt by done. simpl. rewrite lookup_app_r by lia.
    replace (length l + k - length l) with k by lia. by destruct (lookup_lt_is_Some_2 new k Hk) as [x ->].
  - rewrite lookup_seq_ge, (lookup_ge_None_2 new) by lia. done.
Qed.

(** ** A handle is started *)

(** A handle without a script may be replaced by what it turns out to do. *)
Lemma reveal_inv n all s i w h ops :
  sched_inv n all 0 0 s -> workers s !! i = Some w -> pc w = Running (JStart h) -> leaf h ->
  sched_inv n (all ++ ops_ids ops) 0 0 (upd i (set_pc (Running (JStart (Handle (hid h) ops))) w) s).
Proof.
  intros Hinv Hi Hpc Hh.
  assert (sched_inv n (all ++ ops_ids ops) 0 0 (with_ran (ran s ++ ops_ids ops) s)) as Hx.
  { destruct Hinv as [In Iok Iidle Ispec Isv Ione Itg Icl Ist Ilv Iids]. split; simpl; try done.
    rewrite <- Iids. unfold all_ids. simpl. by rewrite <- !app_assoc. }
  pose proof (inv_ok _ _ _ _ _ Hinv _ _ Hi) as [Of Ol Os Ost]. rewrite Hpc in Of, Ol, Os, Ost.
  apply (update_inv n (all ++ ops_ids ops) 0 0 0 0 0 0 (with_ran (ran s ++ ops_ids ops) s) i w _
    (injector s) (idle_count s) (speculation s) (ran s) Hx Hi); simpl; try done.
  - by left.
  - by left.
  - unfold counts, uncounted. simpl. rewrite Hpc. lia.
  - intros _. unfold holds. rewrite Hpc. simpl. lia.
  - left. unfold WorkersProps.asleep. simpl. apply andb_false_r.
  - unfold claimed. simpl. by rewrite andb_false_r.
  - intros j Hu. unfold unparks in Hu. by rewrite Hpc in Hu.
  - unfold leaving. by rewrite Hpc.
  - unfold wids. rewrite Hpc. simpl. rewrite ids_script, Hh. simpl. constructor.
    fold (ops_ids ops). solve_Permutation.
Qed.

(** The handle of the log is the one found in the queue. *)
Lemma found_handle n d h x m1 k y :
  dinv n d -> d_log d !! hid h = Some x -> hid h ∈ live_ids (d_sched d) ->
  rtc (mstep run) (d_mach d) m1 -> (exists new, runq m1 = runq (d_mach d) ++ new) ->
  list_find (fun y => h_coro y = h_coro x) (runq m1) = Some (k, y) -> runq m1 !! k = Some x.
Proof.
  intros Hd Hx Hid Hm [new Hnew] (Hk & Hc & _)%list_find_Some.
  assert (x ∈ runq m1) as (j & Hj)%list_elem_of_lookup.
  { rewrite Hnew. apply elem_of_app. left. apply (list_elem_of_fmap_inj_2 Some).
    change (Some x ∈ map Some (runq (d_mach d))). rewrite <- (di_queue _ _ Hd). rewrite <- Hx.
    by apply (list_elem_of_fmap_2 (fun id => d_log d !! id)). }
  assert (rtc (mstep run) machine0 m1) as Hm1 by (etransitivity; [by eapply di_reach|exact Hm]).
  destruct (handles_apart run m1 Hm1) as [Hn _].
  assert (k = j) as ->; [|done].
  eapply (NoDup_lookup _ _ _ (h_coro x) Hn); apply list_lookup_fmap_Some; eauto.
Qed.

Lemma started_live i w h s : workers s !! i = Some w -> pc w = Running (JStart h) -> hid h ∈ live_ids s.
Proof.
  intros Hi Hpc. unfold live_ids. apply elem_of_app. right. apply elem_of_app. right.
  apply list_elem_of_In, in_flat_map. exists w. split; [by eapply list_elem_of_In, list_elem_of_lookup_2|].
  unfold wids. rewrite Hpc. simpl. rewrite ids_script. by left.
Qed.

(** What [run_handle] did. *)
Lemma run_handle_parts n d i w h effs d' :
  dinv n d -> workers (d_sched d) !! i = Some w -> pc w = Running (JStart h) ->
  run_handle i w h effs d = Some d' ->
  exists x ks new, d_log d !! hid h = Some x /\ length ks = length new /\
    rtc (mstep run) (d_mach d) (d_mach d') /\ runq (d_mach d') ++ [x] ≡ₚ runq (d_mach d) ++ new /\
    d_log d' = d_log d ++ new /\
    work_loop i (upd i (set_pc (Running (JStart (Handle (hid h) (numbered (length (d_log d)) ks)))) w) (d_sched d))
      = Some (d_sched d').
Proof.
  intros Hd Hi Hpc Hr. unfold run_handle in Hr. destruct (d_log d !! hid h) as [x|] eqn:Hx; [|done].
  pose proof (do_effs_steps effs (d_mach d)) as Hm1. destruct (do_effs_runq effs (d_mach d)) as [n1 Hn1].
  set (m1 := do_effs effs (d_mach d)) in *.
  destruct (list_find _ _) as [[k y]|] eqn:Hf; [|done]. destruct (call run k m1) as [m2|] eqn:Hc; [|done].
  pose proof (found_handle n d h x m1 k y Hd Hx (started_live _ _ _ _ Hi Hpc) Hm1 (ex_intro _ n1 Hn1) Hf) as Hk.
  destruct (call_grows _ _ _ Hc) as (n2 & Hn2 & _). simpl in Hr.
  rewrite Hn2, Hn1, drop_app_length in Hr. rewrite <- Hn1 in Hr.
  rewrite drop_app_length' in Hr by (by rewrite length_delete by eauto; lia).
  match type of Hr with context [numbered _ ?l] => set (ks := l) in * end.
  destruct (work_loop _ _) as [s'|] eqn:Hw; [|done]. injection Hr as <-. exists x, ks, (n1 ++ n2). simpl.
  split_and!; try done.
  - unfold ks. rewrite !length_app, !length_map. done.
  - eapply rtc_r; [done|by eapply MCall].
  - rewrite Hn2, app_assoc, <- Hn1. trans ((x :: delete k (runq m1)) ++ n2); [solve_Permutation|].
    by rewrite <- (delete_Permutation _ _ _ Hk).
Qed.

Lemma run_handle_inv n d i w h effs d' :
  dinv n d -> workers (d_sched d) !! i = Some w -> pc w = Running (JStart h) ->
  run_handle i w h effs d = Some d' -> dinv n d'.
Proof.
  intros Hd Hi Hpc Hr. destruct (run_handle_parts _ _ _ _ _ _ _ Hd Hi Hpc Hr) as (x & ks & new & Hx & Hks & Hm & Hq & Hlog & Hw).
  destruct d' as [s' m' log']. simpl in *. subst log'. pose proof Hd as [Is Il It Ir Iq].
  destruct (lv_workers _ Il _ _ Hi) as [Hleaf Hloc]. rewrite Hpc in Hleaf.
  set (ops := numbered (length (d_log d)) ks) in *.
  pose proof (reveal_inv _ _ _ _ _ _ ops Is Hi Hpc Hleaf) as HR. unfold ops in HR at 1.
  rewrite numbered_ids, Hks, <- seq_app, <- length_app in HR. pose proof (work_loop_inv _ _ _ _ _ HR Hw) as HS.
  pose proof (lookup_lt_Some _ _ _ Hi) as Hlt. unfold work_loop in Hw. simpl in Hw.
  rewrite list_lookup_insert_eq in Hw by done. simpl in Hw. injection Hw as <-.
  unfold upd in *. simpl in *. rewrite list_insert_insert_eq in *.
  split; simpl; try done.
  - apply (leaves_upd i _ (with_ran (ran (d_sched d) ++ [hid h]) (d_sched d))); [by destruct Il|].
    split; [apply numbered_leaves|done].
  - by etransitivity.
  - match type of HS with sched_inv _ _ _ _ ?s => set (s' := s) in * end.
    pose proof (live_perm _ _ _ HS It) as Hlv. rewrite length_app, seq_app, <- (live_perm _ _ _ Is It) in Hlv.
    assert (live_ids s' ++ [hid h] ≡ₚ live_ids (d_sched d) ++ seq (length (d_log d)) (length new)) as Hl2.
    { apply (Permutation_app_inv_r (ran (d_sched d))). simpl in Hlv. rewrite <- app_assoc.
      rewrite (Permutation_app_comm [hid h]), Hlv. solve_Permutation. }
    apply (Permutation_map (fun id => (d_log d ++ new) !! id)) in Hl2.
    rewrite !map_app, (log_old n), log_new, Iq in Hl2 by done. simpl in Hl2.
    rewrite (lookup_app_l_Some _ _ _ _ Hx) in Hl2.
    apply (Permutation_app_inv_r [Some x]). etransitivity; [exact Hl2|]. rewrite <- map_app, <- Hq.
    by rewrite map_app.
Qed.

(** ** Every move keeps the invariant *)

Lemma outside_inv n k e d d' : dinv n d -> outside k e d = Some d' -> dinv n d'.
Proof.
  intros Hd Ho. pose proof Hd as [Is Il It Ir Iq]. unfold outside in Ho.
  destruct (do_eff_grows e (d_mach d)) as (new & Hnew & Hlen). pose proof (do_eff_steps e (d_mach d)) as Hm.
  rewrite Hnew, drop_app_length in Ho. destruct new as [|x [|]]; [| |simpl in Hlen; lia].
  - injection Ho as <-. rewrite app_nil_r in Hnew. split; simpl; try done; [by etransitivity|by rewrite Hnew].
  - destruct (next_extern _ _) as [s'|] eqn:Hs; [|done]. injection Ho as <-.
    set (s0 := with_todo [(k, Handle (length (d_log d)) [])] (d_sched d)) in *.
    assert (sched_inv n (seq 0 (length (d_log d ++ [x]))) 0 0 s0) as H0.
    { rewrite length_app, seq_app. destruct Is as [In Iok Iidle Ispec Isv Ione Itg Icl Ist Ilv Iids].
      split; simpl; try done. rewrite <- Iids. unfold all_ids. simpl. rewrite It. simpl. solve_Permutation. }
    pose proof (next_extern_inv _ _ _ _ H0 Hs) as HS. unfold next_extern in Hs. simpl in Hs.
    destruct (existsb _ _); [done|]. injection Hs as <-. split; simpl; try done; [|by etransitivity|].
    + destruct Il as [Lw Li Le]. split; simpl; try done. intros e' k' h [He|[_ He]]%lookup_app_Some; [by eapply Le|].
      by apply list_lookup_singleton_Some in He as [_ [= <- <-]].
    + match type of HS with sched_inv _ _ _ _ ?s => set (s' := s) in * end.
      pose proof (live_perm _ _ _ HS eq_refl) as Hlv. rewrite length_app, seq_app, <- (live_perm _ _ _ Is It) in Hlv.
      assert (live_ids s' ≡ₚ live_ids (d_sched d) ++ seq (length (d_log d)) 1) as Hl2.
      { apply (Permutation_app_inv_r (ran (d_sched d))). simpl in Hlv. simpl. rewrite Hlv. solve_Permutation. }
      apply (Permutation_map (fun id => (d_log d ++ [x]) !! id)) in Hl2.
      rewrite map_app, (log_old n), (log_new _ [x]), Iq, <- map_app, <- Hnew in Hl2 by done. done.
Qed.

Lemma do_dact_inv n a d d' :
  0 < n -> (Z.of_nat n < 2 ^ 64)%Z -> dinv n d -> do_dact a d = Some d' -> dinv n d'.
Proof.
  intros Hn Hbig Hd Ha. destruct a as [i effs|e|k e|]; simpl in Ha; [|..|by eapply outside_inv|].
  - unfold worker_step in Ha. destruct (workers (d_sched d) !! i) as [w|] eqn:Hi; [|done].
    destruct (starts (pc w)) eqn:Hst.
    + unfold starts in Hst. destruct (pc w) as [| | | | |[h|]| | | | | | | | | | | | | | | | |] eqn:Hpc; try done.
      by eapply run_handle_inv.
    + assert (match work_loop i (d_sched d) with Some s => Some (mkD s (d_mach d) (d_log d)) | None => None end
        = Some d') as Ha' by (by destruct (pc w) as [| | | | |[h|]| | | | | | | | | | | | | | | | |]).
      destruct (work_loop i (d_sched d)) as [s'|] eqn:Hw; [|done]. injection Ha' as <-.
      apply dinv_quiet; [done|by eapply work_loop_inv, Hw; apply Hd|by eapply work_loop_leaves; [apply Hd|..]].
  - destruct (hand_over e (d_sched d)) as [s'|] eqn:Hs; [|done]. injection Ha as <-.
    apply dinv_quiet; [done|by eapply hand_over_inv; [..|apply Hd|]|by eapply hand_over_leaves, Hs; apply Hd].
  - destruct (stop_threads (d_sched d)) as [s'|] eqn:Hs; [|done]. injection Ha as <-.
    apply dinv_quiet; [done|by eapply stop_threads_inv; [apply Hd|]|by eapply stop_leaves, Hs; apply Hd].
Qed.

Lemma do_dacts_inv n l d d' :
  0 < n -> (Z.of_nat n < 2 ^ 64)%Z -> dinv n d -> do_dacts l d = Some d' -> dinv n d'.
Proof.
  intros Hn Hbig. revert d. induction l as [|a l IH]; intros d Hd Hl; simpl in Hl; [by injection Hl as <-|].
  destruct (do_dact a d) as [d1|] eqn:Ha; [|done]. eapply IH; [|exact Hl]. by eapply do_dact_inv.
Qed.

(** At rest, nobody has a handle. *)
Lemma dinv_rest n d :
  dinv n d -> at_rest true (d_sched d) -> work_stopping (d_sched d) = false ->
  runq (d_mach d) = [] /\ ran (d_sched d) ≡ₚ seq 0 (length (d_log d)).
Proof.
  intros [Is Il It Ir Iq] Hrest Hst. pose proof (at_rest_ran _ _ _ Is Hrest Hst) as Hran. split; [|done].
  pose proof (live_perm _ _ _ Is It) as Hl. rewrite <- Hran in Hl.
  assert (live_ids (d_sched d) = []) as Hnil.
  { apply length_zero_iff_nil. apply Permutation_length in Hl. rewrite length_app in Hl. lia. }
  rewrite Hnil in Iq. simpl in Iq. apply Permutation_nil_l in Iq. by destruct (runq _).
Qed.

End Dispatch.

(** ** An example *)

(** A coroutine of another thread is run by one worker, calls another generator, and waits with it
    for an event; the worker parks. *)
Definition demo_acts : list (@dact (result pyobj -> gen)) :=
  [DOutside KAdd (EfWaiter 1); DOutside KAdd (EfSpawn (fresh_gen caller) None); DExtern 0; DExtern 0]
  ++ replicate 21 (DWorker 0 []).

