(* ===== verification/SslProxy.v ===== *)
(** * The proxy of the TLS engine

    [_SSLProxy] of [src/tonio/_net/_tls.py]: the engine with its two memory BIOs behind a thread
    lock.  [Tls] uses the proxy through single operations; here threads call its methods at the
    granularity of the lock, the engine and the BIOs.  The engine ([ssl.SSLObject]) is a parameter:
    what a call returns, and what it takes from the incoming BIO and adds to the outgoing one. *)

From stdpp Require Import base numbers list strings relations.
From Stdlib Require Import ZArith Lia.
From S2P Require Import Prelude Os Tls.

(** [MemoryBIO]. *)
Record bio := mkBio { b_data : bytes; b_eof : bool }.

(** The methods and the properties. *)
Inductive method :=
| m_server_side | m_version | m_selected_alpn_protocol | m_read (len : Z) | m_pending
| m_ingress_pending | m_ingress_write (data : bytes) | m_ingress_write_eof
| m_step (fn : ssl_op).                      (* [_read], [_write], [_do_handshake], [_unwrap] *)

Inductive answer :=
| ABool (b : bool) | AText (t : option string) | ABytes (b : bytes) | ASize (n : nat) | ANone
| AStep (ret : option bytes) (want_read : bool) (out : bytes).

(** [with self._lock]. *)
Definition takes_lock (m : method) : bool :=
  match m with m_server_side | m_version => false | _ => true end.

(** Where a call stands: before the lock, inside it, between the engine and the outgoing BIO (with
    what its own use of the engine added there), or over. *)
Inductive proxy_call :=
| Begins (m : method)
| Inside (m : method)
| Reads (ret : option bytes) (want_read : bool) (mine : bytes)
| Done (r : result answer) (mine : bytes).

Section Proxy.
Context {Eng : Type}.
(** An operation of the engine: its result, its next state, what is left of the incoming bytes and
    what it adds to the outgoing ones. *)
Context (engine : ssl_op -> Eng -> bio -> result bytes * Eng * bio * bytes).
Context (is_server : Eng -> bool) (version_of alpn_of : Eng -> option string) (pending_of : Eng -> nat).

(** [produced] and [outs] are all the engine ever sent, and what calls of [_step] returned. *)
Record proxy := mkProxy {
  _ingress : bio; _egress : bytes; _inner : Eng; _lock : bool; proxy_calls : list proxy_call;
  produced : bytes; outs : list bytes }.

Definition put_call (i : nat) (c : proxy_call) (p : proxy) : proxy :=
  mkProxy (_ingress p) (_egress p) (_inner p) (_lock p) (<[i:=c]> (proxy_calls p)) (produced p) (outs p).
Definition set_lock (b : bool) (p : proxy) : proxy :=
  mkProxy (_ingress p) (_egress p) (_inner p) b (proxy_calls p) (produced p) (outs p).
Definition set_ingress (x : bio) (p : proxy) : proxy :=
  mkProxy x (_egress p) (_inner p) (_lock p) (proxy_calls p) (produced p) (outs p).

(** [fn( *args)]. *)
Definition use_engine (op : ssl_op) (p : proxy) : result bytes * bytes * proxy :=
  let '(r, e, x, out) := engine op (_inner p) (_ingress p) in
  (r, out, mkProxy x (_egress p ++ out) e (_lock p) (proxy_calls p) (produced p ++ out) (outs p)).

(** The body of a method other than [_step], under the lock where it has one. *)
Definition body (m : method) (p : proxy) : result answer * bytes * proxy :=
  match m with
  | m_server_side => (Ok (ABool (is_server (_inner p))), [], p)
  | m_version => (Ok (AText (version_of (_inner p))), [], p)
  | m_selected_alpn_protocol => (Ok (AText (alpn_of (_inner p))), [], p)
  | m_read len =>
      let '(r, out, p) := use_engine (SslRead len) p in
      (match r with Ok b => Ok (ABytes b) | Err e => Err e end, out, p)
  | m_pending => (Ok (ASize (pending_of (_inner p))), [], p)
  | m_ingress_pending => (Ok (ASize (length (b_data (_ingress p)))), [], p)
  | m_ingress_write data =>
      (Ok ANone, [], set_ingress (mkBio (b_data (_ingress p) ++ data) (b_eof (_ingress p))) p)
  | m_ingress_write_eof => (Ok ANone, [], set_ingress (mkBio (b_data (_ingress p)) true) p)
  | m_step _ => (Ok ANone, [], p)
  end.

(** The next access of call [i]; [None] when it waits for the lock or is over. *)
Definition proxy_step (i : nat) (p : proxy) : option proxy :=
  match proxy_calls p !! i with
  | Some (Begins m) =>
      if takes_lock m
      then if _lock p then None else Some (put_call i (Inside m) (set_lock true p))
      else let '(r, out, p') := body m p in Some (put_call i (Done r out) p')
  | Some (Inside (m_step op)) =>
      let '(r, out, p) := use_engine op p in
      match r with
      | Ok b => Some (put_call i (Reads (Some b) false out) p)
      | Err e =>
          if is_WantRead e then Some (put_call i (Reads None true out) p)
          else Some (put_call i (Done (Err e) out) (set_lock false p))
      end
  | Some (Inside m) =>
      let '(r, out, p) := body m p in Some (put_call i (Done r out) (set_lock false p))
  | Some (Reads ret want mine) =>
      Some (mkProxy (_ingress p) [] (_inner p) false
              (<[i:=Done (Ok (AStep ret want (_egress p))) mine]> (proxy_calls p))
              (produced p) (outs p ++ [_egress p]))
  | Some (Done _ _) | None => None
  end.

(** Threads call methods as they like. *)
Inductive proxy_trans (p : proxy) : proxy -> Prop :=
| PCall m : proxy_trans p (mkProxy (_ingress p) (_egress p) (_inner p) (_lock p)
                             (proxy_calls p ++ [Begins m]) (produced p) (outs p))
| PStep i p' : proxy_step i p = Some p' -> proxy_trans p p'.

(** [__init__]: two empty BIOs, and the engine [wrap_bio] makes. *)
Definition proxy_init (e : Eng) : proxy := mkProxy (mkBio [] false) [] e false [] [] [].

(** ** The invariant *)

Definition inside (c : proxy_call) : bool :=
  match c with Inside _ | Reads _ _ _ => true | _ => false end.

(** What a call sent is at the end of what is in the BIO, or of what it returned. *)
Definition call_ok (p : proxy) (c : proxy_call) : Prop :=
  match c with
  | Reads _ _ mine => exists before, _egress p = before ++ mine
  | Done (Ok (AStep _ _ out)) mine => out ∈ outs p /\ exists before, out = before ++ mine
  | _ => True
  end.

Record pinv (p : proxy) : Prop := {
  p_lock : countb inside (proxy_calls p) = if _lock p then 1 else 0;
  p_order : produced p = concat (outs p) ++ _egress p;
  p_calls : forall i c, proxy_calls p !! i = Some c -> call_ok p c
}.

Lemma body_spec m p :
  let '(r, out, p') := body m p in
  proxy_calls p' = proxy_calls p /\ _lock p' = _lock p /\ outs p' = outs p /\
  _egress p' = _egress p ++ out /\ produced p' = produced p ++ out /\
  (takes_lock m = false -> out = []) /\
  match r with Ok (AStep _ _ _) => False | _ => True end.
Proof using Type.
  destruct m; simpl; try (rewrite ?app_nil_r; split_and!; done).
  unfold use_engine. destruct (engine _ _ _) as [[[r e] x] out]. simpl. by destruct r.
Qed.

(** A call moves on, inside the lock or leaving it. *)
Lemma move_inv i c c' p p' :
  pinv p -> proxy_calls p !! i = Some c -> proxy_calls p' = <[i:=c']> (proxy_calls p) ->
  (if _lock p' then 1 else 0) + (if inside c then 1 else 0)
    = (if _lock p then 1 else 0) + (if inside c' then 1 else 0) ->
  produced p' = concat (outs p') ++ _egress p' ->
  (forall j c2, proxy_calls p !! j = Some c2 -> j <> i -> call_ok p c2 -> call_ok p' c2) ->
  call_ok p' c' -> pinv p'.
Proof using Type.
  intros [H1 H2 H3] Hi Hc Hl Ho Hother Hself. split; [|done|].
  - rewrite Hc. pose proof (countb_insert inside _ _ _ c' Hi). lia.
  - intros j c2 Hj. rewrite Hc in Hj. apply list_lookup_insert_Some in Hj as [(<- & <- & _)|[Hne Hj]];
      [done|]. eapply Hother; [done..|]. by eapply H3.
Qed.

(** Nobody else is inside. *)
Lemma alone p i c j c2 :
  pinv p -> proxy_calls p !! i = Some c -> inside c = true -> proxy_calls p !! j = Some c2 -> j <> i ->
  inside c2 = false.
Proof using Type.
  intros Hinv Hi Hc Hj Hne. destruct (inside c2) eqn:H2; [|done]. destruct Hne.
  eapply (countb_le1_unique inside); [|done..]. rewrite (p_lock p Hinv). destruct (_lock p); lia.
Qed.

Lemma ok_outside p p' c :
  inside c = false -> outs p' = outs p \/ (exists x, outs p' = outs p ++ [x]) -> call_ok p c -> call_ok p' c.
Proof using Type.
  intros Hc Ho. destruct c as [|m|r w mine|[[]|] mine]; try done. simpl. intros [Hin Hb].
  split; [|done]. destruct Ho as [->|[x ->]]; [done|]. apply elem_of_app. by left.
Qed.
Section Step.
Context (p : proxy) (i : nat).
Hypothesis Hinv : pinv p.

Lemma inside_locked c : proxy_calls p !! i = Some c -> inside c = true -> _lock p = true.
Proof using Hinv.
  intros Hi Hc. pose proof (countb_lookup_pos inside _ _ _ Hi Hc) as Hpos.
  rewrite (p_lock p Hinv) in Hpos. destruct (_lock p); [done|lia].
Qed.

(** A method without the lock. *)
Lemma unlocked_inv m r out p1 :
  proxy_calls p !! i = Some (Begins m) -> takes_lock m = false -> body m p = (r, out, p1) ->
  pinv (put_call i (Done r out) p1).
Proof using Hinv.
  intros Hi Htl Hb. pose proof (body_spec m p) as Hs. rewrite Hb in Hs.
  destruct Hs as (Hc & Hl1 & Hou & He & Hpr & Hno & Hr).
  assert (out = []) as -> by (by apply Hno). rewrite app_nil_r in He, Hpr.
  apply (move_inv i (Begins m) (Done r []) p); simpl; rewrite ?Hc, ?Hl1, ?Hpr, ?Hou, ?He; try done.
  - by apply p_order.
  - intros j c2 Hj Hne. destruct c2 as [|?|?|[[]|]]; simpl; rewrite ?He, ?Hou; done.
  - by destruct r as [[]|].
Qed.

(** A method inside the lock, and leaving it. *)
Lemma locked_inv m r out p1 :
  proxy_calls p !! i = Some (Inside m) -> body m p = (r, out, p1) ->
  pinv (put_call i (Done r out) (set_lock false p1)).
Proof using Hinv.
  intros Hi Hb. pose proof (body_spec m p) as Hs. rewrite Hb in Hs.
  destruct Hs as (Hc & Hl1 & Hou & He & Hpr & _ & Hr).
  apply (move_inv i (Inside m) (Done r out) p); simpl; rewrite ?Hc, ?Hpr, ?Hou, ?He; try done.
  - by rewrite (inside_locked _ Hi).
  - by rewrite (p_order p Hinv), app_assoc.
  - intros j c2 Hj Hne. apply (ok_outside p); [exact (alone p i _ j c2 Hinv Hi eq_refl Hj Hne)|by left].
  - by destruct r as [[]|].
Qed.

(** [_step]: the engine, and the outgoing BIO. *)
Lemma engine_inv op r out p1 c' b :
  proxy_calls p !! i = Some (Inside (m_step op)) -> use_engine op p = (r, out, p1) ->
  (inside c' = b) -> (forall q, _egress q = _egress p ++ out -> call_ok q c') ->
  pinv (put_call i c' (set_lock b p1)).
Proof using Hinv.
  intros Hi He Hc' Hok. unfold use_engine in He.
  destruct (engine op (_inner p) (_ingress p)) as [[[r1 e] x] out1]. injection He as -> -> <-.
  apply (move_inv i (Inside (m_step op)) c' p); simpl; try done.
  - rewrite (inside_locked _ Hi), Hc'; [|done]. by destruct b.
  - by rewrite (p_order p Hinv), app_assoc.
  - intros j c2 Hj Hne. apply (ok_outside p); [exact (alone p i _ j c2 Hinv Hi eq_refl Hj Hne)|by left].
  - by apply Hok.
Qed.

Lemma reads_inv ret want mine :
  proxy_calls p !! i = Some (Reads ret want mine) ->
  pinv (mkProxy (_ingress p) [] (_inner p) false
          (<[i:=Done (Ok (AStep ret want (_egress p))) mine]> (proxy_calls p))
          (produced p) (outs p ++ [_egress p])).
Proof using Hinv.
  intros Hi. pose proof (p_calls p Hinv i _ Hi) as [before Hb].
  apply (move_inv i (Reads ret want mine) (Done (Ok (AStep ret want (_egress p))) mine) p);
    simpl; try done.
  - by rewrite (inside_locked _ Hi).
  - rewrite concat_app, (p_order p Hinv). simpl. by rewrite !app_nil_r.
  - intros j c2 Hj Hne. apply (ok_outside p); [exact (alone p i _ j c2 Hinv Hi eq_refl Hj Hne)|right; by eexists].
  - split; [apply elem_of_app; right; by left|by exists before].
Qed.

Ltac by_body H :=
  match type of H with context [body ?m p] =>
    destruct (body m p) as [[? ?] ?] eqn:?; injection H as <-; by eapply locked_inv end.

Lemma proxy_step_inv p' : proxy_step i p = Some p' -> pinv p'.
Proof using Hinv.
  intros Hstep. unfold proxy_step in Hstep. destruct (proxy_calls p !! i) as [c|] eqn:Hi; [|done].
  destruct c as [m|m|ret want mine|r mine]; [| | |done].
  - destruct (takes_lock m) eqn:Htl.
    + destruct (_lock p) eqn:Hlock; [done|]. injection Hstep as <-.
      apply (move_inv i (Begins m) (Inside m) p); simpl; try done; [by rewrite Hlock|].
      by apply p_order.
    + destruct (body m p) as [[r out] p1] eqn:Hb. injection Hstep as <-. by eapply unlocked_inv.
  - destruct m as [| | |len| | |data| |op]; cycle 8.
    + destruct (use_engine op p) as [[r out] p1] eqn:He. pose proof (inside_locked _ Hi eq_refl) as Hlk.
      assert (p1 = set_lock true p1) as Hp1.
      { unfold use_engine in He. destruct (engine _ _ _) as [[[? ?] ?] ?]. injection He as _ _ <-.
        unfold set_lock. simpl. by rewrite Hlk. }
      destruct r as [b|e]; [|destruct (is_WantRead e)]; injection Hstep as <-.
      * rewrite Hp1. apply (engine_inv op _ out _ (Reads (Some b) false out) true Hi He); [done|].
        intros q Hq. by eexists.
      * rewrite Hp1. apply (engine_inv op _ out _ (Reads None true out) true Hi He); [done|].
        intros q Hq. by eexists.
      * by apply (engine_inv op _ out _ (Done (Err e) out) false Hi He).
    + by_body Hstep.
    + by_body Hstep.
    + by_body Hstep.
    + by_body Hstep.
    + by_body Hstep.
    + by_body Hstep.
    + by_body Hstep.
    + by_body Hstep.
  - injection Hstep as <-. by apply reads_inv.
Qed.
End Step.

Lemma proxy_inv e p : rtc proxy_trans (proxy_init e) p -> pinv p.
Proof using Type.
  apply (rtc_ind_r pinv); [by split|]. intros p1 p2 _ Hstep Hinv.
  destruct Hstep as [m|i p2 Hs]; [|by eapply proxy_step_inv].
  destruct Hinv as [H1 H2 H3]. split; simpl; [|done|].
  - rewrite countb_app. simpl. lia.
  - intros i c [Hi|[_ [_ <-]%list_lookup_singleton_Some]]%lookup_app_Some; [by apply (H3 i)|done].
Qed.

(** Threads that use the proxy at once never tear the outgoing stream apart: what the engine has
    produced is what calls of [_step] returned, in the order in which they left the lock, and what
    is still in the BIO; what a call's own use of the engine produced is at the end of what it
    returned; and at most one call is between the lock and its end. *)
Lemma proxy_stream e p :
  rtc proxy_trans (proxy_init e) p ->
  produced p = concat (outs p) ++ _egress p /\
  countb inside (proxy_calls p) <= 1 /\
  forall i ret want out mine,
    proxy_calls p !! i = Some (Done (Ok (AStep ret want out)) mine) ->
    out ∈ outs p /\ exists before, out = before ++ mine.
Proof using Type.
  intros Hinv%proxy_inv. split_and!; [by apply p_order| |].
  - rewrite (p_lock p Hinv). destruct (_lock p); lia.
  - intros i ret want out mine Hi. by apply (p_calls p Hinv i _ Hi).
Qed.
End Proxy.
